(* ===== verification/_CoqProject ===== *)
-Q . S2P
Prelude.v
OrdMap.v
Machine.v
Ids.v
Keyword.v
Values.v
Encoding.v
Datoms.v
Chunk.v
Segment.v
Schema.v
Bootstrap.v
SchemaDatoms.v
Db.v
DbFacts.v
DbReads.v
DbTheorems.v
SagaDb.v
TxSaga.v
Branch.v
Tx.v
TxSpec.v
TxFacts.v
TxLoop.v
TxTheorems.v
SagaTheorems.v
Merge.v
MergeTheorems.v
Authz.v
AuthzTheorems.v
Text.v
Crypt.v
LogRecord.v
FileLog.v
FileLogFacts.v
FileLogTheorems.v
VersionedLog.v
VersionedMerge.v
VersionedDir.v
VersionedTheorems.v
Native.v
LogInterface.v
Stores.v
StoreFacts.v
Snapshot.v
Gc.v
GcTheorems.v
Transactor.v
TransactorFacts.v
TransactorTheorems.v
Publish.v
PublishFence.v
PublishFacts.v
PublishTheorems.v
Recovery.v
Lease.v
LeaseTheorems.v
Protect.v
ProtectTheorems.v
Float.v
Edn.v
QueryAst.v
Builtins.v
QueryExec.v
QueryFacts.v
QueryMeaning.v
QueryRules.v
QueryFixpoint.v
QueryEnds.v
QueryTheorems.v
