(* ===== verification/Prelude.v ===== *)
(** * Corium: a verification development

    Corium (crates/ of the repository) is a database of immutable facts.  A fact is an
    entity, an attribute and a value; a datom is a fact asserted or retracted by a
    transaction.  A transactor prepares transaction data into datoms, appends them to a
    log and folds them into covering indexes; peers read database values, each a basis
    and a time view over the log.  Sagas are long-running transactions with a registry
    in the database and a branch of their own.

    The development is a shallow embedding: pure functions are Rocq functions, mutation
    is state passing, [Result] is [result], machine integers are [Z] with their ranges as
    hypotheses and their wrap-around written out where the code relies on it.  Every
    definition is executable; the witnesses evaluate them.

    ** Files and the code they model

    - [Prelude], [OrdMap], [Machine]: results and loops, lawful comparison ([Ord],
      [OrdLaws]) and its tactics, [BTreeMap] and [BTreeSet] as sorted lists, the interface
      [Rpds]/[RpdsLaws] of the persistent containers (crate rpds, not under src/), bytes,
      UTF-8 and machine arithmetic.
    - [Ids], [Keyword], [Values], [Encoding], [Datoms], [Chunk], [Schema]: corium-core's
      ids.rs, keyword.rs, value.rs, encoding.rs, datom.rs, chunk.rs, schema.rs.
    - [Segment]: corium-index/src/lib.rs, immutable sorted segments with content-defined
      leaves.
    - [Bootstrap], [SchemaDatoms]: corium-db's bootstrap.rs and schemadatoms.rs.
    - [Db] (definitions), [DbFacts], [DbReads] (lemmas), [DbTheorems]: corium-db/src/lib.rs.
    - [SagaDb]: corium-db/src/saga.rs; [TxSaga] and [Branch]: corium-tx's saga.rs and
      branch.rs.
    - [Tx]: corium-tx/src/lib.rs; [TxSpec]: what each operation means for the set of live
      facts; [TxFacts], [TxLoop]: the operations and the loop refine it; [TxTheorems].
    - [SagaTheorems]: ids, branch names, the registry under accepted transactions, steps.
    - [Merge], [MergeTheorems]: corium-tx/src/merge.rs, [novelty_items] of
      corium-transactor/src/merge.rs and the decision [saga_commit] of
      corium-transactor/src/node.rs takes under its locks.
    - [Authz], [AuthzTheorems]: corium-authz's model.rs, policy.rs (lookups), view.rs and
      eval.rs, the query authorizer.rs asks, and the grants of corium-protocol's authz.rs.
    - [Text]: decimal integers, lines and affixes of the standard library.
    - [Crypt]: corium-crypt/src/lib.rs over the class [Crypto] of the ciphers and hashes it
      calls, with their documented laws.
    - [LogRecord] (records, sealing and frames), [FileLog], [FileLogFacts],
      [FileLogTheorems] (one file), [VersionedLog] (one file per lease version, objects,
      memory), [VersionedMerge], [VersionedDir], [VersionedTheorems], [Native],
      [LogInterface] (the trait as a class, and the rooted log): corium-log/src/lib.rs.
    - [Stores], [StoreFacts]: corium-store's lib.rs and encrypted_store.rs, the traits as
      classes with laws; [Snapshot]: its snapshot.rs and the loader of
      corium-transactor/src/node.rs.
    - [Gc], [GcTheorems]: marking and sweeping of corium-store/src/lib.rs, and the
      collection of a node in corium-transactor/src/node.rs.
    - [Transactor], [TransactorFacts], [TransactorTheorems]: corium-transactor/src/lib.rs,
      transactions, awaited appends, group commit and recovery from the log.
    - [Publish], [PublishFence], [PublishFacts], [PublishTheorems]: index publication of the
      same file; [Recovery]: [recover_transactor] of node.rs.
    - [Lease], [LeaseTheorems]: corium-transactor/src/lease.rs.
    - [Protect], [ProtectTheorems]: corium-db's protect.rs and read.rs.
    - [Float]: doubles of the standard library; [Edn], [QueryAst], [Builtins], [QueryExec]:
      corium-query's edn.rs, ast.rs, builtins.rs and aggregate.rs, and boundary.rs, plan.rs
      and exec.rs.
    - [QueryMeaning]: what the clauses of a query mean; [QueryFacts], [QueryRules],
      [QueryFixpoint], [QueryEnds]: patterns, clauses, rules and their end against it;
      [QueryTheorems].

    ** What the theorems show

    Encodings order as the values they encode and round-trip ([Encoding], [Datoms]).
    Segments refine the one-datom-at-a-time fold, and incremental chunking equals a
    rebuild under a stated condition ([Segment]).  The indexes of a database value, cached
    or derived incrementally, read as a rebuild of the visible datoms in every time view;
    a past basis can be revisited, under the coverage of the schema of now; a value can be
    reopened from a snapshot ([DbTheorems]).
    [prepare] is total, accepts exactly what the specification accepts and leaves exactly
    the facts the specification leaves; cardinality, uniqueness, typing, protection forms
    and the schema are invariants; tempids get fresh ids from the database's own sequence
    ([TxTheorems]).  Accepted transactions keep the saga registry's promises, and accepted
    branch steps stay within what the saga declared ([SagaTheorems]).  A branch's novelty is
    the net effect of its steps and keeps its meaning in the parent's naming; an accepted
    merge leaves every unit as the branch or as the parent has it, and where both changed a
    unit and differ it drops the branch's write or overrides the parent's through a
    resolution that names what the parent holds ([MergeTheorems]).  An authorization check
    always answers, its breadth-first search is sound and complete within its bounds for
    what the policy means, and what it shows is narrowed by the view of every match
    ([AuthzTheorems]).

    Logs answer as the list of records appended to them: a file across crashes and failed
    writes ([FileLogTheorems]), a directory of version files across takeovers, where a
    deposed writer's appends change nothing ([VersionedTheorems]), objects, legacy chunks
    included, up to the check for holes and to errors reported for a publication that
    happened ([Native]), and a log rooted at a basis ([LogInterface]).  Frames and root
    records read back as written and a torn buffer is refused ([LogRecord], [StoreFacts]).
    What is stored sealed opens under every key set that kept its epoch ([StoreFacts]).  A
    published index loads back as its keys ([Snapshot]); collection ends and deletes exactly
    the old blobs no root leads to ([GcTheorems]).

    A transactor over any log that keeps its promise, one that reports an error for an
    append that happened included, has applied a prefix of the log, and recovery replays all
    of it; a group commit is its transactions one at a time, as long as none is refused for
    its instant after its ids were allocated ([TransactorTheorems]).  A publication installs
    a root only over a record that allows it and ends once nobody races it ([PublishFence]),
    and the root loads as the published value, as long as no attribute with facts changed
    its coverage since the last publication ([PublishTheorems]).  Opening from a snapshot
    and the tail of the log restores the replay of the whole, as long as no transaction
    before the snapshot states a fact twice ([Recovery]).  Leases of one version have one
    owner, and a free lease is acquired ([LeaseTheorems]).  A sealed value reads back, and
    the plaintext cache changes no answer while the hash has no collision and a body keeps
    its declared type ([ProtectTheorems]).  A query without negation, for a reader without
    class keys, gives exactly the assignments that its clauses and the least model of its
    rules mean, and ends over finitely many values ([QueryTheorems]).

    ** Bounds and fuel

    [SEQUENCE_BITS] is 42: theorems about allocation assume fewer than 2^42 ids and
    transactions.  [collect_entity_retractions] takes fuel; [retraction_fuel] is one more
    than the number of datoms and is proved enough, since every call that does work is for
    an entity not seen before.  [SagaDb.radix_loop] and the decoders recurse on their
    input.  [Authz.walk_loop] recurses on the visit budget the code spends, and
    [Authz.path_of] on the node index, since parents come before their children.
    [LogRecord.split_frames], [LogRecord.scan_frames] and [Snapshot.decode_segment_keys]
    take the length of their input as fuel: a frame or a key takes eight bytes at least.
    [Gc.mark_loop] is [None] without fuel; [GcTheorems.gc_completes] gives a number of
    rounds that is enough.  Loops that swap the root record take a list of what other
    processes do in each round and are [None] when it runs out; [PublishFence.publication_ends]
    and [LeaseTheorems.acquire_ends] show that they end in the first round nobody races.
    Query evaluation takes a bound on the nesting of rule calls and on the rounds of a
    fixpoint and is [None] beyond; [QueryTheorems.query_ends] gives one that is enough.
    Lease versions and expiries are checked additions, whose overflow is a panic.  A file is
    shorter than 2^63 bytes, a key shorter than 2^62.

    ** Defects the model exhibits

    [TxTheorems.cas_breaks_uniqueness], [TxTheorems.retired_compare_and_swap],
    [DbTheorems.reopen_history_resurrects], [SagaTheorems.status_can_be_cleared],
    [SchemaDatoms.derive_order_dependent], [MergeTheorems.refused_override_survives],
    [AuthzTheorems.exhaustion_widens], [AuthzTheorems.permission_crosses_types],
    [Crypt.key_material_signs], [LogInterface.rooted_frames_in_clear],
    [Native.ambiguous_publication], [VersionedTheorems.split_reader_stuck],
    [TransactorTheorems.refused_instant_spends_ids], [TransactorTheorems.named_id_revisited],
    [PublishTheorems.stale_avet], [LeaseTheorems.unreadable_record_replaced],
    [LeaseTheorems.dash_owner_lost], [ProtectTheorems.retyped_body_opens],
    [QueryTheorems.negation_in_rule_unsound], [QueryTheorems.negation_before_disjunction],
    [QueryTheorems.repeated_head_variable], [QueryTheorems.least_integer_quotient],
    [QueryTheorems.protected_value_of_given_entity]: concrete runs in which the code does not
    do what it documents or means to.

    ** Not modelled

    Reading resolutions and guards and rendering conflict reports work on EDN text and the
    query engine; [saga_commit] takes them as arguments.  Of the query crate the reader of
    EDN text, pull and the entry points that format results are left out, and [QueryMeaning]
    gives negation no meaning.  The ciphers, hashes and the checksum are third-party code:
    classes with their documented laws, each with an instance.  A file is its bytes and a
    directory a map; the cache of file descriptors and the locks of one process are left
    out, each operation being one step.  Cloud and SQL back ends, network servers and
    clients, the command line, language bindings, SQL and the PostgreSQL protocol are input
    and output around this core or rest on third-party code. *)

From stdpp Require Import base list strings gmap sorting.
From Stdlib Require Import ZArith Lia.

(** ** Results of fallible code: Rust's [Result<A, E>] *)

Inductive result (E A : Type) : Type :=
| Ok (a : A)
| Err (e : E).
Arguments Ok {E A} a.
Arguments Err {E A} e.

#[global] Instance result_ret {E} : MRet (result E) := fun A a => Ok a.
#[global] Instance result_bind {E} : MBind (result E) := fun A B f m =>
  match m with Ok a => f a | Err e => Err e end.
#[global] Instance result_fmap {E} : FMap (result E) := fun A B f m =>
  match m with Ok a => Ok (f a) | Err e => Err e end.

(** [Option::ok_or]. *)
Definition ok_or {E A} (o : option A) (e : E) : result E A :=
  match o with Some a => Ok a | None => Err e end.

(** [Result::map_err], as [?] applies it through a [From] conversion. *)
Definition map_err {E F A} (f : E -> F) (r : result E A) : result F A :=
  match r with Ok a => Ok a | Err e => Err (f e) end.

Definition is_ok {E A} (r : result E A) : bool :=
  match r with Ok _ => true | Err _ => false end.

#[global] Instance result_eq_dec {E A} `{EqDecision E, EqDecision A} : EqDecision (result E A).
Proof. solve_decision. Defined.

(** A guard: [if !b { return Err(e) }]. *)
Definition ensure {E} (b : bool) (e : E) : result E unit :=
  if b then Ok tt else Err e.

(** Collecting an iterator of results, up to the first error. *)
Fixpoint try_map {E A B} (f : A -> result E B) (l : list A) : result E (list B) :=
  match l with
  | [] => Ok []
  | x :: l => y ← f x; ys ← try_map f l; Ok (y :: ys)
  end.

(** ** Orders as Rust's [Ord]: a comparison with its laws *)

Class Ord (A : Type) := cmp : A -> A -> comparison.

Class OrdLaws (A : Type) `{Ord A} : Prop := {
  cmp_eq_iff : forall x y : A, cmp x y = Eq <-> x = y;
  cmp_antisym : forall x y : A, cmp y x = CompOpp (cmp x y);
  cmp_lt_trans : forall x y z : A, cmp x y = Lt -> cmp y z = Lt -> cmp x z = Lt }.

(** [Ordering::then_with]. *)
Definition then_cmp (c d : comparison) : comparison :=
  match c with Eq => d | _ => c end.

Declare Scope corium_scope.
Delimit Scope corium_scope with corium.
Notation "x <? y" := (match cmp x y with Lt => true | _ => false end)
  (at level 70, no associativity) : corium_scope.
Notation "x <=? y" := (match cmp x y with Gt => false | _ => true end)
  (at level 70, no associativity) : corium_scope.
Notation "c ⨾ d" := (then_cmp c d) (at level 60, right associativity) : corium_scope.
Open Scope corium_scope.

Definition olt {A} `{Ord A} (x y : A) : Prop := cmp x y = Lt.

Section ord_facts.
Context {A : Type} `{OrdLaws A}.
Implicit Types x y z : A.

Lemma cmp_refl x : cmp x x = Eq.
Proof. by apply cmp_eq_iff. Qed.

Lemma cmp_gt_lt x y : cmp x y = Gt <-> cmp y x = Lt.
Proof. rewrite (cmp_antisym x y). destruct (cmp x y); naive_solver. Qed.

Lemma cmp_lt_irrefl x : cmp x x <> Lt.
Proof. by rewrite cmp_refl. Qed.

Lemma cmp_neq x y : cmp x y <> Eq <-> x <> y.
Proof. by rewrite cmp_eq_iff. Qed.

#[global] Instance olt_strict : StrictOrder (@olt A _).
Proof.
  split.
  - intros x Hx. by apply cmp_lt_irrefl in Hx.
  - intros x y z. apply cmp_lt_trans.
Qed.

Lemma cmp_le_lt_trans x y z : cmp x y <> Gt -> cmp y z = Lt -> cmp x z = Lt.
Proof.
  destruct (cmp x y) eqn:E; intros ? Hyz; try done.
  - apply cmp_eq_iff in E. by subst.
  - by eapply cmp_lt_trans.
Qed.

Lemma cmp_lt_le_trans x y z : cmp x y = Lt -> cmp y z <> Gt -> cmp x z = Lt.
Proof.
  destruct (cmp y z) eqn:E; intros Hxy ?; try done.
  - apply cmp_eq_iff in E. by subst.
  - by eapply cmp_lt_trans.
Qed.

End ord_facts.

(** Decidable equality comes with the comparison. *)
Definition ord_eq_dec {A} `{OrdLaws A} : EqDecision A.
Proof.
  intros x y. destruct (cmp x y) eqn:E.
  - left. by apply cmp_eq_iff.
  - right. apply cmp_neq. by rewrite E.
  - right. apply cmp_neq. by rewrite E.
Defined.

(** The library's closing tactic for comparison goals: it turns [Eq] results into
    equalities, reads [Gt] as a flipped [Lt], and chains. *)
Ltac ord_norm :=
  repeat match goal with
  | H : cmp _ _ = Eq |- _ => apply cmp_eq_iff in H
  | H : cmp _ _ = Gt |- _ => apply cmp_gt_lt in H
  | H : cmp ?x ?x = Lt |- _ => by apply cmp_lt_irrefl in H
  | H : context [cmp ?x ?x] |- _ => rewrite cmp_refl in H
  | |- context [cmp ?x ?x] => rewrite cmp_refl
  end.

Ltac ord_solve :=
  intros; subst; ord_norm; subst; ord_norm;
  try done;
  try (match goal with
  | H1 : cmp ?x ?y = Lt, H2 : cmp ?y ?x = Lt |- _ =>
      exfalso; exact (cmp_lt_irrefl _ (cmp_lt_trans _ _ _ H1 H2))
  | H1 : cmp ?x ?y = Lt, H2 : cmp ?y ?z = Lt |- cmp ?x ?z = Lt =>
      exact (cmp_lt_trans _ _ _ H1 H2)
  end).

(** Case analysis on a comparison, with the outcome normalised. *)
Ltac ord_case x y :=
  let E := fresh "E" in
  destruct (cmp x y) eqn:E; simpl in *; ord_norm; subst.

Lemma then_cmp_eq c d : then_cmp c d = Eq <-> c = Eq /\ d = Eq.
Proof. destruct c; naive_solver. Qed.

Lemma then_cmp_opp c d : CompOpp (then_cmp c d) = then_cmp (CompOpp c) (CompOpp d).
Proof. by destruct c. Qed.

Lemma then_cmp_assoc c d e : then_cmp (then_cmp c d) e = then_cmp c (then_cmp d e).
Proof. by destruct c. Qed.

Lemma then_cmp_eq_r c : then_cmp c Eq = c.
Proof. by destruct c. Qed.

Create HintDb corium.
Create Rewrite HintDb corium.
#[export] Hint Rewrite then_cmp_assoc then_cmp_eq_r : corium.

(** *** Instances *)

#[global] Instance Z_ord : Ord Z := Z.compare.
#[global] Instance Z_ord_laws : OrdLaws Z.
Proof.
  split; unfold cmp, Z_ord.
  - apply Z.compare_eq_iff.
  - intros. apply Z.compare_antisym.
  - intros x y z. rewrite !Z.compare_lt_iff. lia.
Qed.

Lemma Zcmp_lt_iff (x y : Z) : cmp x y = Lt <-> (x < y)%Z.
Proof. apply Z.compare_lt_iff. Qed.
Lemma Zcmp_gt_iff (x y : Z) : cmp x y = Gt <-> (y < x)%Z.
Proof. apply Z.compare_gt_iff. Qed.
Lemma Zcmp_lt (x y : Z) : (x < y)%Z -> cmp x y = Lt.
Proof. apply Zcmp_lt_iff. Qed.
Lemma Zcmp_gt (x y : Z) : (y < x)%Z -> cmp x y = Gt.
Proof. apply Zcmp_gt_iff. Qed.

#[global] Instance bool_ord : Ord bool := fun a b =>
  match a, b with
  | false, true => Lt
  | true, false => Gt
  | _, _ => Eq
  end.
#[global] Instance bool_ord_laws : OrdLaws bool.
Proof. split; intros [] []; try intros []; naive_solver. Qed.

(** Tuples and slices compare lexicographically. *)
#[global] Instance prod_ord {A B} `{Ord A, Ord B} : Ord (A * B) := fun p q =>
  (cmp p.1 q.1 ⨾ cmp p.2 q.2)%corium.

Lemma cmp_pair {A B} `{Ord A, Ord B} (a a' : A) (b b' : B) :
  cmp (a, b) (a', b') = (cmp a a' ⨾ cmp b b')%corium.
Proof. done. Qed.

#[global] Instance prod_ord_laws {A B} `{OrdLaws A, OrdLaws B} : OrdLaws (A * B).
Proof.
  split.
  - intros [a b] [a' b']. rewrite cmp_pair, then_cmp_eq, !cmp_eq_iff. naive_solver.
  - intros [a b] [a' b']. rewrite !cmp_pair, then_cmp_opp. by rewrite <- !cmp_antisym.
  - intros [a b] [a' b'] [a'' b'']. rewrite !cmp_pair. unfold then_cmp.
    destruct (cmp a a') eqn:E1, (cmp a' a'') eqn:E2; intros Hx Hy;
      try (apply cmp_eq_iff in E1; subst); try (apply cmp_eq_iff in E2; subst); try done.
    + rewrite cmp_refl. by eapply cmp_lt_trans.
    + by rewrite E2.
    + by rewrite E1.
    + by rewrite (cmp_lt_trans _ _ _ E1 E2).
Qed.

Fixpoint lex {A} `{Ord A} (l k : list A) : comparison :=
  match l, k with
  | [], [] => Eq
  | [], _ :: _ => Lt
  | _ :: _, [] => Gt
  | x :: l, y :: k => (cmp x y ⨾ lex l k)%corium
  end.

#[global] Instance list_ord {A} `{Ord A} : Ord (list A) := lex.

Lemma cmp_cons {A} `{Ord A} (x y : A) l k :
  cmp (x :: l) (y :: k) = (cmp x y ⨾ cmp l k)%corium.
Proof. done. Qed.

#[global] Instance list_ord_laws {A} `{OrdLaws A} : OrdLaws (list A).
Proof.
  split.
  - induction x as [|a x IH]; intros [|b y]; try (unfold cmp; simpl; naive_solver).
    rewrite cmp_cons, then_cmp_eq, IH, cmp_eq_iff. naive_solver.
  - induction x as [|a x IH]; intros [|b y]; try done.
    by rewrite !cmp_cons, then_cmp_opp, <- IH, <- cmp_antisym.
  - induction x as [|a x IH]; intros [|b y] [|c z]; try done.
    rewrite !cmp_cons. unfold then_cmp.
    destruct (cmp a b) eqn:E1, (cmp b c) eqn:E2; intros Hx Hy;
      try (apply cmp_eq_iff in E1; subst); try (apply cmp_eq_iff in E2; subst); try done.
    + rewrite cmp_refl. by eapply IH.
    + by rewrite E2.
    + by rewrite E1.
    + by rewrite (cmp_lt_trans _ _ _ E1 E2).
Qed.

#[global] Instance option_ord {A} `{Ord A} : Ord (option A) := fun a b =>
  match a, b with
  | None, None => Eq
  | None, Some _ => Lt
  | Some _, None => Gt
  | Some a, Some b => cmp a b
  end.

#[global] Instance option_ord_laws {A} `{OrdLaws A} : OrdLaws (option A).
Proof.
  split.
  - intros [x|] [y|]; try (unfold cmp; simpl; naive_solver).
    change (cmp (Some x) (Some y)) with (cmp x y). rewrite cmp_eq_iff. naive_solver.
  - intros [x|] [y|]; try done. apply (cmp_antisym x y).
  - intros [x|] [y|] [z|]; try done. apply (cmp_lt_trans x y z).
Qed.

(** A type ordered through an injection. *)
Definition via_ord {A B} `{Ord B} (f : A -> B) : Ord A := fun x y => cmp (f x) (f y).

Lemma via_ord_laws {A B} `{OrdLaws B} (f : A -> B) :
  Inj (=) (=) f -> @OrdLaws A (via_ord f).
Proof.
  intros Hf. split.
  - intros x y. split; [|by intros ->; apply (cmp_refl (f y))].
    intros E%(cmp_eq_iff (f x) (f y)). by apply Hf.
  - intros x y. apply (cmp_antisym (f x) (f y)).
  - intros x y z. apply (cmp_lt_trans (f x) (f y) (f z)).
Qed.

Lemma cmp_app_same {A} `{OrdLaws A} (p l k : list A) : cmp (p ++ l) (p ++ k) = cmp l k.
Proof. induction p as [|x p IH]; [done|]. cbn [app]. rewrite cmp_cons, cmp_refl. apply IH. Qed.

(** ** Option helpers *)

(** [Option::is_some_and] and [Option::is_none_or]. *)
Definition is_some_and {A} (o : option A) (f : A -> bool) : bool :=
  match o with Some a => f a | None => false end.
Definition is_none_or {A} (o : option A) (f : A -> bool) : bool :=
  match o with Some a => f a | None => true end.
Definition is_some {A} (o : option A) : bool :=
  match o with Some _ => true | None => false end.
Definition is_none {A} (o : option A) : bool := negb (is_some o).
Definition unwrap_or {A} (o : option A) (d : A) : A :=
  match o with Some a => a | None => d end.
(** [bool::then_some]. *)
Definition then_some {A} (b : bool) (a : A) : option A := if b then Some a else None.

(** ** List helpers: the iterator adaptors the source uses *)

Fixpoint take_while {A} (p : A -> bool) (l : list A) : list A :=
  match l with
  | [] => []
  | x :: l => if p x then x :: take_while p l else []
  end.

(** [slice::partition_point]: the length of the prefix on which [p] holds. *)
Fixpoint partition_point {A} (p : A -> bool) (l : list A) : nat :=
  match l with
  | [] => 0
  | x :: l => if p x then S (partition_point p l) else 0
  end.

Fixpoint filter_map {A B} (f : A -> option B) (l : list A) : list B :=
  match l with
  | [] => []
  | x :: l => match f x with Some y => y :: filter_map f l | None => filter_map f l end
  end.

Lemma take_while_filter {A} (p : A -> bool) (R : A -> A -> Prop) l :
  StronglySorted R l ->
  (forall x y, R x y -> p y = true -> p x = true) ->
  take_while p l = List.filter p l.
Proof.
  intros Hs Hp. induction Hs as [|x l Hs IH Hx]; [done|]. simpl.
  destruct (p x) eqn:E; [by rewrite IH|].
  clear IH Hs. induction Hx as [|y l Hy _ IH]; [done|]. simpl.
  destruct (p y) eqn:Ey; [|done]. by rewrite (Hp x y) in E.
Qed.

Lemma drop_partition_point_filter {A} (p : A -> bool) (R : A -> A -> Prop) l :
  StronglySorted R l ->
  (forall x y, R x y -> p y = true -> p x = true) ->
  drop (partition_point p l) l = List.filter (fun x => negb (p x)) l.
Proof.
  intros Hs Hp. induction Hs as [|x l Hs IH Hx]; [done|]. simpl.
  destruct (p x) eqn:E; simpl; [done|]. f_equal.
  clear IH Hs. induction Hx as [|y l Hy _ IH]; [done|]. simpl.
  destruct (p y) eqn:Ey; simpl; [by rewrite (Hp x y) in E|]. by f_equal.
Qed.

Lemma filter_all_true {A} (p : A -> bool) l :
  (forall x, In x l -> p x = true) -> List.filter p l = l.
Proof.
  induction l as [|x l IH]; intros Hl; [done|]. simpl.
  rewrite Hl by (by left). f_equal. apply IH. intros y Hy. apply Hl. by right.
Qed.

Lemma filter_all_false {A} (p : A -> bool) l :
  (forall x, In x l -> p x = false) -> List.filter p l = [].
Proof.
  induction l as [|x l IH]; intros Hl; [done|]. simpl.
  rewrite Hl by (by left). apply IH. intros y Hy. apply Hl. by right.
Qed.

Lemma In_filter_map {A B} (f : A -> option B) l y :
  In y (filter_map f l) <-> exists x, In x l /\ f x = Some y.
Proof.
  induction l as [|x l IH]; simpl; [naive_solver|].
  destruct (f x) eqn:E; simpl; rewrite IH; naive_solver.
Qed.

Lemma filter_perm {A} (p : A -> bool) l k :
  Permutation l k -> Permutation (List.filter p l) (List.filter p k).
Proof.
  induction 1 as [|x l k _ IH|x y l|l m k _ IH1 _ IH2]; simpl; [done| | |by etrans].
  - destruct (p x); [by constructor|done].
  - destruct (p x), (p y); try done. constructor.
Qed.

(** [for x in l { f(x)?; }]. *)
Fixpoint for_each {A E} (l : list A) (f : A -> result E unit) : result E unit :=
  match l with
  | [] => Ok tt
  | x :: l => match f x with Ok _ => for_each l f | Err e => Err e end
  end.

Lemma for_each_ok {A E} (l : list A) (f : A -> result E unit) :
  for_each l f = Ok tt <-> forall x, In x l -> f x = Ok tt.
Proof.
  induction l as [|x l IH]; simpl; [naive_solver|].
  destruct (f x) as [[]|e] eqn:Ef.
  - rewrite IH. split; [intros H y [<-|Hy]; auto|auto].
  - split; [done|]. intros H. specialize (H x (or_introl eq_refl)). congruence.
Qed.

(** The error of a loop is the error of its first failing element. *)
Lemma for_each_err {A E} (l : list A) (f : A -> result E unit) e :
  for_each l f = Err e <->
  exists l1 x l2, l = l1 ++ x :: l2 /\ (forall y, In y l1 -> f y = Ok tt) /\ f x = Err e.
Proof.
  induction l as [|x l IH]; simpl.
  - split; [done|]. by intros ([|]&?&?&?&_).
  - destruct (f x) as [[]|e'] eqn:Ef.
    + rewrite IH. split.
      * intros (l1 & y & l2 & -> & H1 & H2). exists (x :: l1), y, l2. split; [done|].
        split; [|done]. intros z [<-|Hz]; auto.
      * intros ([|z l1] & y & l2 & [= -> ->] & H1 & H2); [congruence|].
        exists l1, y, l2. split; [done|]. split; [|done]. intros; apply H1. by right.
    + split.
      * intros [= ->]. by exists [], x, l.
      * intros ([|z l1] & y & l2 & [= -> ->] & H1 & H2); [congruence|].
        rewrite (H1 z) in Ef by (by left). done.
Qed.

Lemma bind_ok {E A B} (m : result E A) (k : A -> result E B) b :
  m ≫= k = Ok b <-> exists a, m = Ok a /\ k a = Ok b.
Proof. destruct m; simpl; naive_solver. Qed.

Lemma ensure_ok {E} b (e : E) u : ensure b e = Ok u <-> b = true.
Proof. unfold ensure. destruct b, u; naive_solver. Qed.

(** [slice::sort_by]: stable. *)
Fixpoint insert_by {A} (cmp : A -> A -> comparison) (x : A) (l : list A) : list A :=
  match l with
  | [] => [x]
  | y :: l' => match cmp x y with Gt => y :: insert_by cmp x l' | _ => x :: l end
  end.

Definition sort_by {A} (cmp : A -> A -> comparison) (l : list A) : list A :=
  fold_right (insert_by cmp) [] l.

Lemma insert_by_perm {A} (cmp : A -> A -> comparison) x l : Permutation (insert_by cmp x l) (x :: l).
Proof.
  induction l as [|y l IH]; [done|]. simpl. destruct (cmp x y); try done.
  rewrite IH. apply perm_swap.
Qed.

Lemma sort_by_perm {A} (cmp : A -> A -> comparison) l : Permutation (sort_by cmp l) l.
Proof. induction l as [|x l IH]; [done|]. simpl. by rewrite insert_by_perm, IH. Qed.
