(* ===== verification/OrdMap.v ===== *)
(** * Ordered maps and sets

    Rust's [BTreeMap] and [BTreeSet] as strictly sorted lists, and the interface of the
    two persistent containers the [rpds] crate supplies ([RedBlackTreeMapSync] and
    [VectorSync]).  [rpds] is not part of the repository, so it is a parameter: the class
    [Rpds] holds its operations, [RpdsLaws] its documented behaviour, and [list_rpds] is
    a concrete implementation that satisfies the laws and evaluates. *)

From stdpp Require Import base list sorting.
From Stdlib Require Import ZArith Lia.
From S2P Require Import Prelude.

(** ** [BTreeMap<K, V>] *)

Section omap.
Context {K V : Type} `{Ord K}.
Implicit Types (k : K) (v : V) (m : list (K * V)).

Fixpoint om_get k m : option V :=
  match m with
  | [] => None
  | (k', v) :: m => match cmp k k' with Eq => Some v | _ => om_get k m end
  end.

Fixpoint om_insert k v m : list (K * V) :=
  match m with
  | [] => [(k, v)]
  | (k', v') :: m' =>
      match cmp k k' with
      | Lt => (k, v) :: m
      | Eq => (k, v) :: m'
      | Gt => (k', v') :: om_insert k v m'
      end
  end.

Fixpoint om_remove k m : list (K * V) :=
  match m with
  | [] => []
  | (k', v') :: m =>
      match cmp k k' with Eq => om_remove k m | _ => (k', v') :: om_remove k m end
  end.

(** [range(k..)] and [range(..=k)]. *)
Definition om_from k m : list (K * V) := List.filter (fun p => (k <=? p.1)%corium) m.
Definition om_upto k m : list (K * V) := List.filter (fun p => (p.1 <=? k)%corium) m.

Definition om_of_list (l : list (K * V)) : list (K * V) :=
  fold_left (fun m p => om_insert p.1 p.2 m) l [].

Definition om_wf m : Prop := StronglySorted (fun p q => olt p.1 q.1) m.

End omap.

(** ** [BTreeSet<K>] *)

Section oset.
Context {K : Type} `{Ord K}.
Implicit Types (k : K) (s : list K).

Fixpoint os_mem k s : bool :=
  match s with
  | [] => false
  | k' :: s => match cmp k k' with Eq => true | _ => os_mem k s end
  end.

Fixpoint os_insert k s : list K :=
  match s with
  | [] => [k]
  | k' :: s' =>
      match cmp k k' with
      | Lt => k :: s
      | Eq => s
      | Gt => k' :: os_insert k s'
      end
  end.

Definition os_of_list (l : list K) : list K := fold_left (fun s k => os_insert k s) l [].

Definition os_wf s : Prop := StronglySorted olt s.

End oset.

(** ** Facts about ordered maps *)

Section omap_facts.
Context {K V : Type} `{OrdLaws K}.
Implicit Types (k : K) (v : V) (m : list (K * V)).

Lemma om_get_insert_eq k v m : om_get k (om_insert k v m) = Some v.
Proof.
  induction m as [|[k' v'] m IH]; simpl; [by rewrite cmp_refl|].
  destruct (cmp k k') eqn:E; simpl; rewrite ?cmp_refl, ?E; done.
Qed.

Lemma om_get_insert_ne k k' v m : k' <> k -> om_get k' (om_insert k v m) = om_get k' m.
Proof.
  intros Hne%cmp_neq. induction m as [|[k1 v1] m IH]; simpl.
  - by destruct (cmp k' k).
  - destruct (cmp k k1) eqn:E; simpl.
    + apply cmp_eq_iff in E as ->. by destruct (cmp k' k1).
    + by destruct (cmp k' k).
    + by rewrite IH.
Qed.

Lemma om_get_remove_eq k m : om_get k (om_remove k m) = None.
Proof.
  induction m as [|[k1 v1] m IH]; simpl; [done|].
  destruct (cmp k k1) eqn:E; simpl; rewrite ?E; done.
Qed.

Lemma om_get_remove_ne k k' m : k' <> k -> om_get k' (om_remove k m) = om_get k' m.
Proof.
  intros Hne%cmp_neq. induction m as [|[k1 v1] m IH]; simpl; [done|].
  destruct (cmp k k1) eqn:E; simpl; rewrite IH; try done.
  apply cmp_eq_iff in E as ->. by destruct (cmp k' k1).
Qed.

Lemma om_get_insert k k' v m :
  om_get k' (om_insert k v m) = match cmp k' k with Eq => Some v | _ => om_get k' m end.
Proof.
  destruct (cmp k' k) eqn:E.
  - apply cmp_eq_iff in E as ->. apply om_get_insert_eq.
  - apply om_get_insert_ne, cmp_neq. by rewrite E.
  - apply om_get_insert_ne, cmp_neq. by rewrite E.
Qed.

Lemma om_get_remove k k' m :
  om_get k' (om_remove k m) = match cmp k' k with Eq => None | _ => om_get k' m end.
Proof.
  destruct (cmp k' k) eqn:E.
  - apply cmp_eq_iff in E as ->. apply om_get_remove_eq.
  - apply om_get_remove_ne, cmp_neq. by rewrite E.
  - apply om_get_remove_ne, cmp_neq. by rewrite E.
Qed.

Lemma In_om_insert k v m p : In p (om_insert k v m) -> p = (k, v) \/ In p m.
Proof.
  induction m as [|[k1 v1] m IH]; simpl; [naive_solver|].
  destruct (cmp k k1); simpl; naive_solver.
Qed.

Lemma In_om_remove k m p : In p (om_remove k m) -> In p m.
Proof.
  induction m as [|[k1 v1] m IH]; simpl; [done|].
  destruct (cmp k k1); simpl; naive_solver.
Qed.

Lemma om_wf_nil : om_wf (K:=K) (V:=V) [].
Proof. constructor. Qed.

Lemma om_wf_cons k v m :
  om_wf ((k, v) :: m) <-> om_wf m /\ (forall p, In p m -> cmp k p.1 = Lt).
Proof.
  unfold om_wf. split.
  - intros Hs. inversion Hs as [|? ? ? Hf]; subst. split; [done|].
    intros p Hp. rewrite List.Forall_forall in Hf. by apply Hf.
  - intros [Hs Hf]. constructor; [done|]. rewrite List.Forall_forall. intros p. apply Hf.
Qed.

Lemma om_insert_wf k v m : om_wf m -> om_wf (om_insert k v m).
Proof.
  induction m as [|[k1 v1] m IH]; simpl; intros Hm.
  - apply om_wf_cons. split; [done|]. by intros ? [].
  - apply om_wf_cons in Hm as [Hm Hk1]. destruct (cmp k k1) eqn:E.
    + apply cmp_eq_iff in E as ->. by apply om_wf_cons.
    + apply om_wf_cons. split; [by apply om_wf_cons|].
      intros p [<-|Hp]; [done|]. eapply cmp_lt_trans; [done|]. by apply Hk1.
    + apply om_wf_cons. split; [by apply IH|].
      intros p [->|Hp]%In_om_insert; [by apply cmp_gt_lt|]. by apply Hk1.
Qed.

Lemma om_remove_wf k m : om_wf m -> om_wf (om_remove k m).
Proof.
  induction m as [|[k1 v1] m IH]; simpl; intros Hm; [done|].
  apply om_wf_cons in Hm as [Hm Hk1].
  destruct (cmp k k1); [by apply IH| |];
    (apply om_wf_cons; split; [by apply IH|]; intros p Hp%In_om_remove; by apply Hk1).
Qed.

Lemma om_filter_wf (f : K * V -> bool) m : om_wf m -> om_wf (List.filter f m).
Proof.
  induction m as [|[k1 v1] m IH]; simpl; intros Hm; [done|].
  apply om_wf_cons in Hm as [Hm Hk1]. destruct (f (k1, v1)); [|by apply IH].
  apply om_wf_cons. split; [by apply IH|]. intros p [Hp _]%filter_In. by apply Hk1.
Qed.

Lemma om_fold_insert_wf (l : list (K * V)) m :
  om_wf m -> om_wf (fold_left (fun m p => om_insert p.1 p.2 m) l m).
Proof. revert m. induction l; simpl; auto using om_insert_wf. Qed.

Lemma om_of_list_wf (l : list (K * V)) : om_wf (om_of_list l).
Proof. apply om_fold_insert_wf, om_wf_nil. Qed.

Lemma om_get_lt k m : (forall p, In p m -> cmp k p.1 = Lt) -> om_get k m = None.
Proof.
  induction m as [|[k1 v1] m IH]; simpl; intros Hk; [done|].
  specialize (Hk (k1, v1)) as Hk1. simpl in Hk1. rewrite Hk1 by auto.
  apply IH. auto.
Qed.

Lemma om_get_In k v m : om_get k m = Some v -> In (k, v) m.
Proof.
  induction m as [|[k1 v1] m IH]; simpl; [done|].
  destruct (cmp k k1) eqn:E; [|by auto..].
  apply cmp_eq_iff in E as ->. intros [= ->]. by left.
Qed.

Lemma om_In_get k v m : om_wf m -> In (k, v) m -> om_get k m = Some v.
Proof.
  induction m as [|[k1 v1] m IH]; simpl; [done|].
  intros [Hm Hk1]%om_wf_cons [[= -> ->]|Hin]; [by rewrite cmp_refl|].
  specialize (Hk1 _ Hin) as Hlt. simpl in Hlt.
  rewrite (cmp_antisym k1 k), Hlt. simpl. by apply IH.
Qed.

Lemma om_In_iff k v m : om_wf m -> In (k, v) m <-> om_get k m = Some v.
Proof. split; [by apply om_In_get|apply om_get_In]. Qed.

(** Two ordered maps with the same lookups are the same list. *)
Lemma om_ext (m1 m2 : list (K * V)) :
  om_wf m1 -> om_wf m2 -> (forall k, om_get k m1 = om_get k m2) -> m1 = m2.
Proof.
  revert m2. induction m1 as [|[k1 v1] m1 IH]; intros m2 H1 H2 Hg.
  - destruct m2 as [|[k2 v2] m2]; [done|].
    specialize (Hg k2). simpl in Hg. by rewrite cmp_refl in Hg.
  - destruct m2 as [|[k2 v2] m2].
    { specialize (Hg k1). simpl in Hg. by rewrite cmp_refl in Hg. }
    apply om_wf_cons in H1 as [H1 Hk1], H2 as [H2 Hk2].
    destruct (cmp k1 k2) eqn:E.
    + apply cmp_eq_iff in E as ->.
      pose proof (Hg k2) as Hv. simpl in Hv. rewrite cmp_refl in Hv. injection Hv as ->.
      f_equal. apply IH; try done. intros k. specialize (Hg k). simpl in Hg.
      destruct (cmp k k2) eqn:E; [|done..]. apply cmp_eq_iff in E as ->.
      by rewrite !om_get_lt.
    + specialize (Hg k1). simpl in Hg. rewrite cmp_refl, E, om_get_lt in Hg; [done|].
      intros p Hp. eapply cmp_lt_trans; [done|]. by apply Hk2.
    + apply cmp_gt_lt in E. specialize (Hg k2). simpl in Hg.
      rewrite cmp_refl, E, om_get_lt in Hg; [done|].
      intros p Hp. eapply cmp_lt_trans; [done|]. by apply Hk1.
Qed.

Lemma om_get_filter (f : K * V -> bool) k m :
  om_wf m ->
  om_get k (List.filter f m) =
  match om_get k m with Some v => if f (k, v) then Some v else None | None => None end.
Proof.
  intros Hm. destruct (om_get k (List.filter f m)) as [v|] eqn:E.
  - apply om_get_In, filter_In in E as [Hin Hf].
    apply om_In_get in Hin; [|done]. by rewrite Hin, Hf.
  - destruct (om_get k m) as [v|] eqn:E'; [|done].
    destruct (f (k, v)) eqn:Ef; [|done]. apply om_get_In in E'.
    rewrite (om_In_get k v) in E; [done|by apply om_filter_wf|by apply filter_In].
Qed.

Lemma om_get_fold_not_in k (l : list (K * V)) m :
  ~ In k (map fst l) -> om_get k (fold_left (fun m p => om_insert p.1 p.2 m) l m) = om_get k m.
Proof.
  revert m. induction l as [|[k1 v1] l IH]; simpl; intros m Hk; [done|].
  rewrite IH by auto. apply om_get_insert_ne. naive_solver.
Qed.

(** Keys that agree with an order-reflecting map are unique. *)
Lemma om_wf_NoDup m : om_wf m -> NoDup (map fst m).
Proof.
  induction m as [|[k v] m IH]; [constructor|]. intros [Hm Hk]%om_wf_cons. simpl.
  constructor; [|by apply IH]. rewrite list_elem_of_In, in_map_iff. intros ([k' v'] & ? & Hin).
  simpl in *. subst. specialize (Hk _ Hin). simpl in Hk. by apply cmp_lt_irrefl in Hk.
Qed.

Lemma om_insert_lookup_all k v m p :
  om_wf m -> In p (om_insert k v m) <-> p = (k, v) \/ (In p m /\ p.1 <> k).
Proof.
  intros Hm. destruct p as [k' v']. rewrite om_In_iff by (by apply om_insert_wf).
  rewrite om_get_insert, om_In_iff by done. simpl.
  destruct (cmp k' k) eqn:E.
  - apply cmp_eq_iff in E as ->. naive_solver.
  - assert (k' <> k) by (apply cmp_neq; by rewrite E). naive_solver.
  - assert (k' <> k) by (apply cmp_neq; by rewrite E). naive_solver.
Qed.

Lemma om_remove_lookup_all k m p :
  om_wf m -> In p (om_remove k m) <-> In p m /\ p.1 <> k.
Proof.
  intros Hm. destruct p as [k' v']. rewrite om_In_iff by (by apply om_remove_wf).
  rewrite om_get_remove, om_In_iff by done. simpl.
  destruct (cmp k' k) eqn:E.
  - apply cmp_eq_iff in E as ->. naive_solver.
  - assert (k' <> k) by (apply cmp_neq; by rewrite E). naive_solver.
  - assert (k' <> k) by (apply cmp_neq; by rewrite E). naive_solver.
Qed.

End omap_facts.

#[export] Hint Resolve om_wf_nil om_insert_wf om_remove_wf om_filter_wf om_of_list_wf : corium.

(** ** Facts about ordered sets *)

Section oset_facts.
Context {K : Type} `{OrdLaws K}.
Implicit Types (k : K) (s : list K).

Lemma os_mem_In k s : os_mem k s = true <-> In k s.
Proof.
  induction s as [|k1 s IH]; simpl; [done|].
  destruct (cmp k k1) eqn:E; rewrite <- ?IH.
  - apply cmp_eq_iff in E as ->. naive_solver.
  - assert (k <> k1) by (apply cmp_neq; by rewrite E). naive_solver.
  - assert (k <> k1) by (apply cmp_neq; by rewrite E). naive_solver.
Qed.

Lemma os_In_insert k s x : In x (os_insert k s) <-> x = k \/ In x s.
Proof.
  induction s as [|k1 s IH]; simpl; [naive_solver|].
  destruct (cmp k k1) eqn:E; simpl; rewrite ?IH; [|naive_solver..].
  apply cmp_eq_iff in E as ->. naive_solver.
Qed.

Lemma os_insert_wf k s : os_wf s -> os_wf (os_insert k s).
Proof.
  unfold os_wf. induction s as [|k1 s IH]; simpl; intros Hs.
  - by repeat constructor.
  - inversion Hs as [|? ? Hs' Hf]; subst. destruct (cmp k k1) eqn:E; [done|..].
    + constructor; [done|]. constructor; [done|].
      eapply Forall_impl; [done|]. intros x Hx. by eapply cmp_lt_trans.
    + constructor; [by apply IH|]. rewrite List.Forall_forall in Hf |- *.
      intros x [->|Hx]%os_In_insert; [by apply cmp_gt_lt|]. by apply Hf.
Qed.

Lemma os_fold_insert_In (l : list K) s x :
  In x (fold_left (fun s k => os_insert k s) l s) <-> In x l \/ In x s.
Proof.
  revert s. induction l as [|k l IH]; simpl; intros s; [naive_solver|].
  rewrite IH, os_In_insert. naive_solver.
Qed.

Lemma os_of_list_In (l : list K) x : In x (os_of_list l) <-> In x l.
Proof. unfold os_of_list. rewrite os_fold_insert_In. naive_solver. Qed.

Lemma os_of_list_wf (l : list K) : os_wf (os_of_list l).
Proof.
  unfold os_of_list. assert (os_wf (K:=K) []) as Hs by constructor. revert Hs.
  generalize (@nil K). induction l; simpl; auto using os_insert_wf.
Qed.

Lemma os_ext s1 s2 : os_wf s1 -> os_wf s2 -> (forall x, In x s1 <-> In x s2) -> s1 = s2.
Proof.
  unfold os_wf. revert s2. induction s1 as [|a s1 IH]; intros [|b s2] H1 H2 Hx; try done.
  { exfalso. apply (Hx b). by left. }
  { exfalso. apply (Hx a). by left. }
  inversion H1 as [|? ? H1' F1]; inversion H2 as [|? ? H2' F2]; subst.
  rewrite List.Forall_forall in F1, F2.
  assert (a = b) as ->.
  { destruct (proj1 (Hx a) (or_introl eq_refl)) as [?|Ha]; [done|].
    destruct (proj2 (Hx b) (or_introl eq_refl)) as [?|Hb]; [done|].
    destruct (cmp_lt_irrefl b). eapply cmp_lt_trans; [apply F2, Ha|apply F1, Hb]. }
  f_equal. apply IH; try done. intros x. split; intros Hin.
  - destruct (proj1 (Hx x) (or_intror Hin)) as [->|?]; [|done].
    by destruct (cmp_lt_irrefl x (F1 _ Hin)).
  - destruct (proj2 (Hx x) (or_intror Hin)) as [->|?]; [|done].
    by destruct (cmp_lt_irrefl x (F2 _ Hin)).
Qed.

End oset_facts.

#[export] Hint Resolve os_insert_wf os_of_list_wf : corium.

(** Inserting a list of bindings with distinct keys. *)
Lemma om_get_fold_in {K V} `{OrdLaws K} (l : list (K * V)) m k v :
  NoDup (map fst l) -> In (k, v) l ->
  om_get k (fold_left (fun m p => om_insert p.1 p.2 m) l m) = Some v.
Proof.
  revert m. induction l as [|[k1 v1] l IH]; intros m Hn Hin; [done|]. simpl in *.
  apply NoDup_cons in Hn as [Hk Hn]. destruct Hin as [[= -> ->]|Hin]; [|by apply IH].
  rewrite om_get_fold_not_in; [by rewrite om_get_insert_eq|].
  intros Hin. by apply Hk, list_elem_of_In.
Qed.

(** Inserting what is already there changes nothing. *)
Lemma om_insert_same {K V} `{OrdLaws K} (k : K) (v : V) m :
  om_wf m -> om_get k m = Some v -> om_insert k v m = m.
Proof.
  intros Hm Hg. apply om_ext; [by apply om_insert_wf|done|]. intros k'.
  rewrite om_get_insert. destruct (cmp k' k) eqn:E; [|done..]. by apply cmp_eq_iff in E as ->.
Qed.

Lemma om_fold_again {K V} `{OrdLaws K} (l : list (K * V)) m :
  om_wf m -> (forall k v, In (k, v) l -> om_get k m = Some v) ->
  fold_left (fun m p => om_insert p.1 p.2 m) l m = m.
Proof.
  intros Hm. induction l as [|[k v] l IH]; intros Hl; [done|]. simpl.
  rewrite om_insert_same; [|done|apply Hl; by left]. apply IH. intros; apply Hl. by right.
Qed.

Lemma om_ext_In {K V} `{OrdLaws K} (m1 m2 : list (K * V)) :
  om_wf m1 -> om_wf m2 -> (forall p, In p m1 <-> In p m2) -> m1 = m2.
Proof.
  intros H1 H2 Hp. apply om_ext; [done..|]. intros k.
  destruct (om_get k m1) as [v|] eqn:E1.
  - symmetry. by apply om_In_get, Hp, om_get_In.
  - destruct (om_get k m2) as [v|] eqn:E2; [|done].
    apply om_get_In, Hp, om_In_get in E2; congruence.
Qed.

(** Collecting bindings that never disagree keeps exactly those bindings. *)
Lemma om_of_list_In {K V} `{OrdLaws K} (l : list (K * V)) p :
  (forall k v v', In (k, v) l -> In (k, v') l -> v = v') -> In p (om_of_list l) <-> In p l.
Proof.
  intros Hl. destruct p as [k v]. rewrite om_In_iff by apply om_of_list_wf. unfold om_of_list.
  assert (forall (l' m : list (K * V)) v, om_get k (fold_left (fun m p => om_insert p.1 p.2 m) l' m) = Some v ->
    In (k, v) l' \/ om_get k m = Some v) as H1.
  { induction l' as [|[k1 v1] l' IH]; intros m w Hg; [by right|]. simpl in Hg.
    apply IH in Hg as [Hg|Hg]; [left; by right|]. rewrite om_get_insert in Hg.
    destruct (cmp k k1) eqn:E; [|by right..]. apply cmp_eq_iff in E as ->.
    injection Hg as ->. left. by left. }
  assert (forall (l' m : list (K * V)), In k (map fst l') \/ om_get k m <> None ->
    om_get k (fold_left (fun m p => om_insert p.1 p.2 m) l' m) <> None) as H2.
  { induction l' as [|[k1 v1] l' IH]; intros m Hin; [by destruct Hin|]. simpl. apply IH.
    rewrite om_get_insert. destruct (cmp k k1) eqn:E; [by right|..]; simpl in Hin;
      (destruct Hin as [[->|Hin]|Hin]; [by rewrite cmp_refl in E|by left|by right]). }
  split; [intros [|]%H1; done|]. intros Hin.
  destruct (om_get k _) as [v'|] eqn:E.
  - pose proof E as [Hv'|]%H1; [|done]. by rewrite (Hl k v v').
  - exfalso. apply (H2 l []); [|done]. left. apply in_map_iff. by exists (k, v).
Qed.

(** Collecting what is already in order. *)
Lemma om_of_list_id {K V} `{OrdLaws K} (l : list (K * V)) : om_wf l -> om_of_list l = l.
Proof.
  intros Hl. apply om_ext_In; [apply om_of_list_wf|done|]. intros p.
  apply om_of_list_In. intros k v v' H1%om_In_get H2%om_In_get; congruence.
Qed.

(** Overlaying a sorted list of changes on an ordered map: a [Some] replaces or inserts,
    a [None] removes.  This is the merge the segment writers perform incrementally. *)
Section overlay.
Context {K V : Type} `{OrdLaws K}.
Implicit Types (m : list (K * V)) (ps : list (K * option V)).

Definition change_list (p : K * option V) : list (K * V) :=
  match p.2 with Some v => [(p.1, v)] | None => [] end.

Fixpoint om_overlay m : list (K * option V) -> list (K * V) :=
  fix walk ps :=
    match m, ps with
    | [], ps => flat_map change_list ps
    | _, [] => m
    | (k, v) :: m', p :: ps' =>
        match cmp p.1 k with
        | Lt => change_list p ++ walk ps'
        | Eq => change_list p ++ om_overlay m' ps'
        | Gt => (k, v) :: om_overlay m' ps
        end
    end.

Lemma om_overlay_nil_r m : om_overlay m [] = m.
Proof. by destruct m as [|[k v] m]. Qed.

Lemma om_overlay_nil_l ps : om_overlay [] ps = flat_map change_list ps.
Proof. by destruct ps. Qed.

Lemma om_overlay_cons k v m p ps :
  om_overlay ((k, v) :: m) (p :: ps) =
  match cmp p.1 k with
  | Lt => change_list p ++ om_overlay ((k, v) :: m) ps
  | Eq => change_list p ++ om_overlay m ps
  | Gt => (k, v) :: om_overlay m (p :: ps)
  end.
Proof. simpl. by destruct (cmp p.1 k). Qed.

(** Nothing pending up to a prefix's last key: the prefix is kept. *)
Lemma om_overlay_prefix m1 m2 ps :
  (forall p k, In p ps -> In k (map fst m1) -> cmp p.1 k = Gt) ->
  om_overlay (m1 ++ m2) ps = m1 ++ om_overlay m2 ps.
Proof.
  destruct ps as [|p ps]; [by rewrite !om_overlay_nil_r|].
  induction m1 as [|[k v] m1 IH]; intros Hp; [done|].
  cbn [app]. rewrite om_overlay_cons, (Hp p k) by (by left). f_equal.
  apply IH. intros q k' Hq Hk'. apply Hp; [done|by right].
Qed.

Lemma om_overlay_In m ps q : In q (om_overlay m ps) ->
  In q m \/ (exists p, In p ps /\ In q (change_list p)).
Proof.
  revert ps. induction m as [|[k v] m IHm]; intros ps.
  { rewrite om_overlay_nil_l, in_flat_map. naive_solver. }
  induction ps as [|p ps IHp]; [rewrite om_overlay_nil_r; auto|].
  rewrite om_overlay_cons. destruct (cmp p.1 k).
  - intros [Hq|Hq]%in_app_iff; [right; exists p; split; [by left|done]|].
    apply IHm in Hq as [Hq|(p' & Hp' & Hq)]; [left; by right|].
    right. exists p'. split; [by right|done].
  - intros [Hq|Hq]%in_app_iff; [right; exists p; split; [by left|done]|].
    apply IHp in Hq as [Hq|(p' & Hp' & Hq)]; [by left|].
    right. exists p'. split; [by right|done].
  - intros [<-|Hq]; [left; by left|].
    apply IHm in Hq as [Hq|Hq]; [left; by right|by right].
Qed.

Lemma change_list_fst p q : In q (change_list p) -> q.1 = p.1.
Proof. unfold change_list. destruct (p.2); simpl; naive_solver. Qed.

Lemma change_list_wf_app p m :
  om_wf m -> (forall q, In q m -> cmp p.1 q.1 = Lt) -> om_wf (change_list p ++ m).
Proof.
  intros Hm Hp. unfold change_list. destruct (p.2); [|done]. cbn [app].
  apply om_wf_cons. split; done.
Qed.

Lemma om_wf_cons' {W} (p : K * W) (m : list (K * W)) :
  om_wf (p :: m) <-> om_wf m /\ (forall q, In q m -> cmp p.1 q.1 = Lt).
Proof. destruct p. apply om_wf_cons. Qed.

Lemma overlay_lower_bound k m ps :
  (forall q, In q m -> cmp k q.1 = Lt) -> (forall p, In p ps -> cmp k p.1 = Lt) ->
  forall q, In q (om_overlay m ps) -> cmp k q.1 = Lt.
Proof.
  intros Hm Hps q [Hq|(p & Hp & Hq)]%om_overlay_In; [by apply Hm|].
  rewrite (change_list_fst p q) by done. by apply Hps.
Qed.

Lemma om_overlay_wf m ps : om_wf m -> om_wf ps -> om_wf (om_overlay m ps).
Proof.
  revert ps. induction m as [|[k v] m IHm]; intros ps.
  { intros _. rewrite om_overlay_nil_l. induction ps as [|p ps IH]; [intros; apply om_wf_nil|].
    intros [Hps Hp]%om_wf_cons'. simpl. apply change_list_wf_app; [by apply IH|].
    intros q (p' & Hp' & Hq)%in_flat_map. rewrite (change_list_fst p' q) by done. by apply Hp. }
  intros [Hm Hk]%om_wf_cons. induction ps as [|p ps IHp]; intros Hps.
  { rewrite om_overlay_nil_r. by apply om_wf_cons. }
  pose proof Hps as [Hps' Hp]%om_wf_cons'. rewrite om_overlay_cons.
  destruct (cmp p.1 k) eqn:E.
  - apply cmp_eq_iff in E. apply change_list_wf_app; [by apply IHm|].
    apply overlay_lower_bound; [rewrite E; done|done].
  - apply change_list_wf_app; [by apply IHp|].
    apply overlay_lower_bound; [|done]. intros q [<-|Hq]; [done|].
    eapply cmp_lt_trans; [exact E|by apply Hk].
  - apply cmp_gt_lt in E. apply om_wf_cons. split; [by apply IHm|].
    apply overlay_lower_bound; [done|]. intros q [<-|Hq]; [done|].
    eapply cmp_lt_trans; [exact E|by apply Hp].
Qed.

Lemma om_get_change_app k p m :
  om_get k (change_list p ++ m) =
  match cmp k p.1 with Eq => match p.2 with Some v => Some v | None => om_get k m end
                  | _ => om_get k m end.
Proof. unfold change_list. destruct p as [k' [v|]]; simpl; by destruct (cmp k k'). Qed.

Lemma om_get_overlay k m ps :
  om_wf m -> om_wf ps ->
  om_get k (om_overlay m ps) = match om_get k ps with Some c => c | None => om_get k m end.
Proof.
  revert ps. induction m as [|[k1 v1] m IHm]; intros ps.
  { intros _. rewrite om_overlay_nil_l. induction ps as [|[k2 c2] ps IH]; [done|].
    intros [Hps Hp]%om_wf_cons. cbn [flat_map]. rewrite om_get_change_app, IH by done. simpl.
    destruct (cmp k k2) eqn:E; try done. apply cmp_eq_iff in E as ->.
    destruct c2; [done|]. by rewrite om_get_lt. }
  intros Hm'. pose proof Hm' as [Hm Hk]%om_wf_cons. induction ps as [|[k2 c2] ps IHp]; intros Hps.
  { by rewrite om_overlay_nil_r. }
  pose proof Hps as [Hps' Hp]%om_wf_cons'. rewrite om_overlay_cons. cbn [fst snd] in *.
  destruct (cmp k2 k1) eqn:E.
  - apply cmp_eq_iff in E as ->. rewrite om_get_change_app, IHm by done. cbn [om_get fst snd].
    destruct (cmp k k1) eqn:E1; try done. apply cmp_eq_iff in E1 as ->.
    destruct c2; [done|]. rewrite (om_get_lt k1 ps) by done. by apply om_get_lt.
  - rewrite om_get_change_app, IHp by done. cbn [om_get fst snd].
    destruct (cmp k k2) eqn:E1; try done. apply cmp_eq_iff in E1 as ->.
    destruct c2; [done|]. rewrite (om_get_lt k2 ps), E by done. apply om_get_lt.
    intros q Hq. eapply cmp_lt_trans; [exact E|by apply Hk].
  - cbn [om_get]. rewrite IHm by done. cbn [om_get].
    destruct (cmp k k1) eqn:E1; try done. apply cmp_eq_iff in E1 as ->.
    apply cmp_gt_lt in E. rewrite E. rewrite om_get_lt; [done|].
    intros q Hq. eapply cmp_lt_trans; [exact E|by apply Hp].
Qed.

End overlay.

(** ** The [rpds] interface *)

Class Rpds := {
  rb : forall (K V : Type) `{Ord K}, Type;
  rb_empty : forall {K V} `{Ord K}, rb K V;
  rb_insert : forall {K V} `{Ord K}, K -> V -> rb K V -> rb K V;
  rb_remove : forall {K V} `{Ord K}, K -> rb K V -> rb K V;
  rb_get : forall {K V} `{Ord K}, K -> rb K V -> option V;
  rb_iter : forall {K V} `{Ord K}, rb K V -> list (K * V);
  rb_from : forall {K V} `{Ord K}, K -> rb K V -> list (K * V);
  rb_upto : forall {K V} `{Ord K}, K -> rb K V -> list (K * V);
  vec : Type -> Type;
  vec_empty : forall {A}, vec A;
  vec_push : forall {A}, vec A -> A -> vec A;
  vec_get : forall {A}, vec A -> nat -> option A;
  vec_len : forall {A}, vec A -> nat;
  vec_iter : forall {A}, vec A -> list A }.

(** The documented behaviour the database relies on: the map iterates in key order and
    [insert]/[remove]/[get]/[range] act on its entries; the vector appends at the end. *)
Class RpdsLaws (R : Rpds) : Prop := {
  rb_iter_empty : forall {K V} `{OrdLaws K}, rb_iter (rb_empty (K:=K) (V:=V)) = [];
  rb_iter_insert : forall {K V} `{OrdLaws K} (k : K) (v : V) (m : rb K V),
    rb_iter (rb_insert k v m) = om_insert k v (rb_iter m);
  rb_iter_remove : forall {K V} `{OrdLaws K} (k : K) (m : rb K V),
    rb_iter (rb_remove k m) = om_remove k (rb_iter m);
  rb_get_iter : forall {K V} `{OrdLaws K} (k : K) (m : rb K V),
    rb_get k m = om_get k (rb_iter m);
  rb_from_iter : forall {K V} `{OrdLaws K} (k : K) (m : rb K V),
    rb_from k m = om_from k (rb_iter m);
  rb_upto_iter : forall {K V} `{OrdLaws K} (k : K) (m : rb K V),
    rb_upto k m = om_upto k (rb_iter m);
  vec_iter_empty : forall {A}, vec_iter (vec_empty (A:=A)) = [];
  vec_iter_push : forall {A} (v : vec A) x, vec_iter (vec_push v x) = vec_iter v ++ [x];
  vec_get_iter : forall {A} (v : vec A) i, vec_get v i = vec_iter v !! i;
  vec_len_iter : forall {A} (v : vec A), vec_len v = length (vec_iter v) }.

Create Rewrite HintDb rpds.
#[export] Hint Rewrite @rb_iter_empty @rb_iter_insert @rb_iter_remove @rb_get_iter
  @rb_from_iter @rb_upto_iter @vec_iter_empty @vec_iter_push @vec_get_iter @vec_len_iter
  using (typeclasses eauto) : rpds.

(** [FromIterator]. *)
Definition rb_collect `{Rpds} {K V} `{Ord K} (l : list (K * V)) : rb K V :=
  fold_left (fun m p => rb_insert p.1 p.2 m) l rb_empty.
Definition vec_collect `{Rpds} {A} (l : list A) : vec A := fold_left vec_push l vec_empty.

Lemma rb_iter_collect `{RpdsLaws} {K V} `{OrdLaws K} (l : list (K * V)) :
  rb_iter (rb_collect l) = om_of_list l.
Proof.
  unfold rb_collect, om_of_list. rewrite <- rb_iter_empty.
  generalize (rb_empty (K:=K) (V:=V)). induction l as [|p l IH]; simpl; intros m; [done|].
  by rewrite IH, rb_iter_insert.
Qed.

Lemma vec_iter_collect `{RpdsLaws} {A} (l : list A) : vec_iter (vec_collect l) = l.
Proof.
  unfold vec_collect. change l with ([] ++ l) at 2. rewrite <- vec_iter_empty.
  generalize (vec_empty (A:=A)). induction l as [|x l IH]; simpl; intros v.
  - by rewrite app_nil_r.
  - rewrite IH, vec_iter_push, <- app_assoc. done.
Qed.

Definition list_rpds : Rpds := {|
  rb K V _ := list (K * V);
  rb_empty _ _ _ := [];
  rb_insert _ _ _ := om_insert;
  rb_remove _ _ _ := om_remove;
  rb_get _ _ _ := om_get;
  rb_iter _ _ _ m := m;
  rb_from _ _ _ := om_from;
  rb_upto _ _ _ := om_upto;
  vec A := list A;
  vec_empty _ := [];
  vec_push _ v x := v ++ [x];
  vec_get _ v i := v !! i;
  vec_len _ v := length v;
  vec_iter _ v := v |}.

Lemma list_rpds_laws : RpdsLaws list_rpds.
Proof. by split. Qed.
