(* ===== verification/Machine.v ===== *)
(** * Machine integers, bytes and UTF-8

    A [w]-bit integer is a [Z] with its range as a predicate and its wrap-around written
    out; a byte string is a [list Z] of bytes; a Rust [String] or [str] is a Rocq [string],
    whose characters are its bytes.  The last part states what it means for an encoder to
    embed an order ([order_enc]), the property every covering-index key rests on. *)

From stdpp Require Import base list strings.
From Stdlib Require Import ZArith Lia.
From S2P Require Import Prelude.
Local Open Scope Z_scope.

Notation bytes := (list Z).

Definition u8 (z : Z) : Prop := 0 <= z < 2 ^ 8.
Definition u32 (z : Z) : Prop := 0 <= z < 2 ^ 32.
Definition u64 (z : Z) : Prop := 0 <= z < 2 ^ 64.
Definition u128 (z : Z) : Prop := 0 <= z < 2 ^ 128.
Definition i64 (z : Z) : Prop := - 2 ^ 63 <= z < 2 ^ 63.

Definition bytes_wf (l : bytes) : Prop := Forall u8 l.

(** ** Integer operations at their width *)

(** [x << k] and [!x] on [u64]. *)
Definition shl64 (x k : Z) : Z := Z.shiftl x k mod 2 ^ 64.
Definition not64 (x : Z) : Z := Z.lxor x (2 ^ 64 - 1).
(** [wrapping_mul] on [u64]. *)
Definition wrapping_mul64 (x y : Z) : Z := (x * y) mod 2 ^ 64.
(** [saturating_add] on [u64] and [i64]. *)
Definition saturating_add_u64 (x y : Z) : Z := Z.min (x + y) (2 ^ 64 - 1).
Definition saturating_add_i64 (x y : Z) : Z :=
  Z.max (- 2 ^ 63) (Z.min (x + y) (2 ^ 63 - 1)).
(** [checked_add] on [i64]. *)
Definition checked_add_i64 (x y : Z) : option Z :=
  if ((- 2 ^ 63 <=? x + y) && (x + y <? 2 ^ 63))%Z%bool then Some (x + y) else None.
(** [i64::try_from] of a [u64], [u64::try_from] of an [i64]. *)
Definition try_i64 (x : Z) : option Z := if (x <? 2 ^ 63)%Z then Some x else None.
Definition try_u64 (x : Z) : option Z := if (0 <=? x)%Z then Some x else None.

(** ** Big-endian bytes *)

Fixpoint to_be_bytes (n : nat) (x : Z) : bytes :=
  match n with
  | O => []
  | S n => (x / 256 ^ Z.of_nat n) mod 256 :: to_be_bytes n (x mod 256 ^ Z.of_nat n)
  end.

Definition from_be_bytes (l : bytes) : Z := fold_left (fun acc b => acc * 256 + b) l 0.

(** Two's complement: [i64::to_be_bytes] is that of the congruent [u64], and
    [i64::from_be_bytes] reads it back. *)
Definition i64_as_u64 (x : Z) : Z := x mod 2 ^ 64.
Definition u64_as_i64 (x : Z) : Z := if (x <? 2 ^ 63)%Z then x else x - 2 ^ 64.

(** ** Strings as bytes *)

Definition ascii_byte (a : Ascii.ascii) : Z := Z.of_N (Ascii.N_of_ascii a).

Fixpoint as_bytes (s : string) : bytes :=
  match s with
  | EmptyString => []
  | String a s => ascii_byte a :: as_bytes s
  end.

Fixpoint of_bytes (l : bytes) : string :=
  match l with
  | [] => EmptyString
  | b :: l => String (Ascii.ascii_of_N (Z.to_N b)) (of_bytes l)
  end.

(** [str]'s [Ord] is the bytewise one. *)
#[global] Instance string_ord : Ord string := via_ord as_bytes.

(** ** UTF-8 validity, as [std::str::from_utf8] decides it *)

Definition in_range (lo hi b : Z) : bool := ((lo <=? b) && (b <=? hi))%Z%bool.
Definition cont (b : Z) : bool := in_range 0x80 0xBF b.

Fixpoint utf8_valid (l : bytes) : bool :=
  match l with
  | [] => true
  | a :: l1 =>
      if in_range 0 0x7F a then utf8_valid l1 else
      match l1 with
      | [] => false
      | b :: l2 =>
          if in_range 0xC2 0xDF a then cont b && utf8_valid l2 else
          match l2 with
          | [] => false
          | c :: l3 =>
              if (a =? 0xE0)%Z then in_range 0xA0 0xBF b && cont c && utf8_valid l3
              else if (a =? 0xED)%Z then in_range 0x80 0x9F b && cont c && utf8_valid l3
              else if in_range 0xE1 0xEF a then cont b && cont c && utf8_valid l3
              else
              match l3 with
              | [] => false
              | d :: l4 =>
                  if (a =? 0xF0)%Z
                  then in_range 0x90 0xBF b && cont c && cont d && utf8_valid l4
                  else if (a =? 0xF4)%Z
                  then in_range 0x80 0x8F b && cont c && cont d && utf8_valid l4
                  else if in_range 0xF1 0xF3 a
                  then cont b && cont c && cont d && utf8_valid l4
                  else false
              end
          end
      end
  end%bool.

(** ** Facts *)

Lemma length_to_be_bytes n x : length (to_be_bytes n x) = n.
Proof. revert x. induction n; simpl; auto. Qed.

Lemma to_be_bytes_wf n x : bytes_wf (to_be_bytes n x).
Proof.
  revert x. induction n; simpl; intros x; constructor; [|apply IHn].
  unfold u8. pose proof (Z.mod_pos_bound (x / 256 ^ Z.of_nat n) 256). lia.
Qed.

Lemma pow256_pos n : 0 < 256 ^ Z.of_nat n.
Proof. apply Z.pow_pos_nonneg; lia. Qed.

Lemma pow256_S n : 256 ^ Z.of_nat (S n) = 256 * 256 ^ Z.of_nat n.
Proof. rewrite Nat2Z.inj_succ, Z.pow_succ_r by lia. done. Qed.

Lemma fold_be_acc l acc :
  fold_left (fun acc b => acc * 256 + b) l acc =
  acc * 256 ^ Z.of_nat (length l) + from_be_bytes l.
Proof.
  unfold from_be_bytes. revert acc. induction l as [|b l IH]; cbn [fold_left length]; intros acc.
  - lia.
  - rewrite IH, (IH (0 * 256 + b)), pow256_S. lia.
Qed.

Lemma from_be_bytes_cons b l :
  from_be_bytes (b :: l) = b * 256 ^ Z.of_nat (length l) + from_be_bytes l.
Proof. unfold from_be_bytes. cbn [fold_left]. rewrite fold_be_acc. f_equal. Qed.

Lemma from_to_be_bytes n x :
  0 <= x < 256 ^ Z.of_nat n -> from_be_bytes (to_be_bytes n x) = x.
Proof.
  revert x. induction n as [|n IH]; intros x Hx.
  - simpl in Hx. assert (x = 0) as -> by lia. done.
  - cbn [to_be_bytes]. rewrite from_be_bytes_cons, length_to_be_bytes.
    pose proof (pow256_pos n) as Hp. rewrite pow256_S in Hx.
    rewrite IH by (apply Z.mod_pos_bound; lia).
    rewrite (Z.mod_small (x / _)).
    + rewrite (Z.div_mod x (256 ^ Z.of_nat n)) at 3; lia.
    + split; [apply Z.div_pos; lia|]. apply Z.div_lt_upper_bound; lia.
Qed.

Lemma from_be_bytes_bound l : bytes_wf l -> 0 <= from_be_bytes l < 256 ^ Z.of_nat (length l).
Proof.
  induction 1 as [|b l Hb Hl IH]; [cbn; lia|].
  rewrite from_be_bytes_cons. cbn [length]. rewrite pow256_S. unfold u8 in Hb.
  pose proof (pow256_pos (length l)). nia.
Qed.

Lemma to_from_be_bytes l : bytes_wf l -> to_be_bytes (length l) (from_be_bytes l) = l.
Proof.
  induction 1 as [|b l Hb Hl IH]; [done|]. cbn [length to_be_bytes].
  pose proof (from_be_bytes_bound _ Hl) as Hf. pose proof (pow256_pos (length l)) as Hp.
  rewrite from_be_bytes_cons. unfold u8 in Hb.
  rewrite (Z.add_comm (b * _)).
  rewrite Z.div_add, Z.mod_add, Z.div_small, (Z.mod_small (from_be_bytes l)), IH by lia.
  by rewrite Z.add_0_l, Z.mod_small by lia.
Qed.

(** ** Order embeddings

    [order_enc P f]: the encoder [f] embeds the order on [P]-values into byte order, and is
    self-delimiting, so whatever follows the encodings decides only between equal values. *)

Definition order_enc {A} `{Ord A} (P : A -> Prop) (f : A -> bytes) : Prop :=
  forall x y r s, P x -> P y -> cmp (f x ++ r) (f y ++ s) = (cmp x y ⨾ cmp r s)%corium.

Lemma order_enc_cmp {A} `{Ord A} (P : A -> Prop) f x y :
  order_enc P f -> P x -> P y -> cmp (f x) (f y) = cmp x y.
Proof.
  intros Hf Hx Hy. rewrite <- (app_nil_r (f x)), <- (app_nil_r (f y)), Hf by done.
  apply then_cmp_eq_r.
Qed.

Lemma order_enc_inj {A} `{OrdLaws A} (P : A -> Prop) f x y r s :
  order_enc P f -> P x -> P y -> f x ++ r = f y ++ s -> x = y /\ r = s.
Proof.
  intros Hf Hx Hy E%cmp_eq_iff. rewrite Hf, then_cmp_eq, !cmp_eq_iff in E by done. done.
Qed.

(** Encoders in sequence encode the lexicographic order on pairs. *)
Lemma order_enc_pair {A B} `{Ord A, Ord B} (P : A -> Prop) (Q : B -> Prop) f g :
  order_enc P f -> order_enc Q g ->
  order_enc (fun p => P p.1 /\ Q p.2) (fun p => f p.1 ++ g p.2).
Proof.
  intros Hf Hg [a b] [a' b'] r s [] []. simpl in *.
  rewrite <- !app_assoc, Hf, Hg by done. rewrite cmp_pair. by rewrite then_cmp_assoc.
Qed.

Lemma be_cmp_split B x y :
  0 < B -> 0 <= x -> 0 <= y ->
  cmp x y = (cmp (x / B) (y / B) ⨾ cmp (x mod B) (y mod B))%corium.
Proof.
  intros HB Hx Hy. unfold cmp, Z_ord, then_cmp.
  pose proof (Z.div_mod x B) as Dx. pose proof (Z.div_mod y B) as Dy.
  pose proof (Z.mod_pos_bound x B). pose proof (Z.mod_pos_bound y B).
  destruct (Z.compare_spec (x / B) (y / B)) as [E|E|E].
  - rewrite E in Dx. destruct (Z.compare_spec (x mod B) (y mod B));
      [apply Z.compare_eq_iff|apply Z.compare_lt_iff|apply Z.compare_gt_iff]; lia.
  - apply Z.compare_lt_iff. nia.
  - apply Z.compare_gt_iff. nia.
Qed.

Lemma be_bytes_order n :
  order_enc (fun x => 0 <= x < 256 ^ Z.of_nat n) (to_be_bytes n).
Proof.
  induction n as [|n IH]; intros x y r s Hx Hy.
  - simpl in Hx, Hy. assert (x = 0) as -> by lia. assert (y = 0) as -> by lia. done.
  - cbn [to_be_bytes app]. rewrite cmp_cons. rewrite pow256_S in Hx, Hy.
    pose proof (pow256_pos n) as Hp.
    rewrite IH by (apply Z.mod_pos_bound; lia).
    rewrite (be_cmp_split (256 ^ Z.of_nat n) x y), then_cmp_assoc by lia.
    rewrite !(Z.mod_small (_ / _)); [done|..];
      (split; [apply Z.div_pos; lia|apply Z.div_lt_upper_bound; lia]).
Qed.

Lemma u64_order : order_enc u64 (to_be_bytes 8).
Proof. exact (be_bytes_order 8). Qed.
Lemma u32_order : order_enc u32 (to_be_bytes 4).
Proof. exact (be_bytes_order 4). Qed.
Lemma u128_order : order_enc u128 (to_be_bytes 16).
Proof. exact (be_bytes_order 16). Qed.

(** ** Sign-bit facts *)

Lemma lxor_sign_low x : 0 <= x < 2 ^ 63 -> Z.lxor x (2 ^ 63) = x + 2 ^ 63.
Proof.
  intros Hx. rewrite <- Z.add_nocarry_lxor; [done|].
  apply Z.bits_inj'. intros n Hn. rewrite Z.land_spec, Z.bits_0, Z.pow2_bits_eqb by lia.
  destruct (Z.eqb_spec 63 n) as [<-|]; [|apply andb_false_r].
  rewrite andb_true_r. apply Z.bits_above_log2; [lia|].
  destruct (Z.eq_dec x 0) as [->|]; [done|]. apply Z.log2_lt_pow2; lia.
Qed.

Lemma lxor_sign_high x : 2 ^ 63 <= x < 2 ^ 64 -> Z.lxor x (2 ^ 63) = x - 2 ^ 63.
Proof.
  intros Hx. rewrite <- (Z.sub_add (2 ^ 63) x) at 1.
  rewrite <- (lxor_sign_low (x - 2 ^ 63)) by lia.
  by rewrite Z.lxor_assoc, Z.lxor_nilpotent, Z.lxor_0_r.
Qed.

Lemma land_sign x : u64 x -> (Z.land x (2 ^ 63) =? 0)%Z = (x <? 2 ^ 63)%Z.
Proof.
  unfold u64. intros Hx. rewrite Z.land_comm. destruct (Z.ltb_spec x (2 ^ 63)) as [Hlt|Hge].
  - apply Z.eqb_eq. apply Z.bits_inj'. intros n Hn.
    rewrite Z.land_spec, Z.bits_0, Z.pow2_bits_eqb by lia.
    destruct (Z.eqb_spec 63 n) as [<-|]; [|done]. rewrite andb_true_l.
    apply Z.bits_above_log2; [lia|].
    destruct (Z.eq_dec x 0) as [->|]; [done|]. apply Z.log2_lt_pow2; lia.
  - apply Z.eqb_neq. intros E.
    assert (Z.testbit (Z.land (2 ^ 63) x) 63 = true) as Hb; [|by rewrite E, Z.bits_0 in Hb].
    rewrite Z.land_spec, Z.pow2_bits_true, andb_true_l by lia.
    rewrite <- (Z.sub_add (2 ^ 63) x), <- (lxor_sign_low (x - 2 ^ 63)) by lia.
    rewrite Z.lxor_spec, Z.pow2_bits_true by lia.
    rewrite Z.bits_above_log2; [done|lia|].
    destruct (Z.eq_dec (x - 2 ^ 63) 0) as [->|]; [done|]. apply Z.log2_lt_pow2; lia.
Qed.

Lemma not64_range x : u64 x -> not64 x = 2 ^ 64 - 1 - x.
Proof.
  unfold u64, not64. intros Hx. replace (2 ^ 64 - 1) with (Z.ones 64) by done.
  assert (Z.land (Z.lxor x (Z.ones 64)) x = 0) as Hl.
  { apply Z.bits_inj'. intros n Hn. rewrite Z.land_spec, Z.lxor_spec, Z.bits_0.
    destruct (Z.ltb_spec n 64).
    - rewrite Z.ones_spec_low by lia. by destruct (Z.testbit x n).
    - rewrite (Z.bits_above_log2 x n); [by rewrite andb_false_r|lia|].
      destruct (Z.eq_dec x 0) as [->|]; [simpl; lia|].
      enough (Z.log2 x < 64) by lia. apply Z.log2_lt_pow2; lia. }
  pose proof (Z.add_nocarry_lxor _ _ Hl) as E.
  rewrite (Z.lxor_comm x), Z.lxor_assoc, Z.lxor_nilpotent, Z.lxor_0_r in E.
  rewrite (Z.lxor_comm x). lia.
Qed.

(** ** String facts *)

Lemma ascii_byte_u8 a : u8 (ascii_byte a).
Proof.
  unfold u8, ascii_byte. pose proof (Ascii.N_ascii_bounded a). lia.
Qed.

Lemma as_bytes_wf s : bytes_wf (as_bytes s).
Proof. induction s; constructor; [apply ascii_byte_u8|done]. Qed.

Lemma of_as_bytes s : of_bytes (as_bytes s) = s.
Proof.
  induction s as [|a s IH]; [done|]. simpl. unfold ascii_byte.
  by rewrite N2Z.id, Ascii.ascii_N_embedding, IH.
Qed.

Lemma as_of_bytes l : bytes_wf l -> as_bytes (of_bytes l) = l.
Proof.
  induction 1 as [|b l Hb Hl IH]; [done|]. simpl. unfold ascii_byte, u8 in *.
  rewrite Ascii.N_ascii_embedding, Z2N.id, IH by lia. done.
Qed.

#[global] Instance as_bytes_inj : Inj (=) (=) as_bytes.
Proof. intros x y E. by rewrite <- (of_as_bytes x), E, of_as_bytes. Qed.

#[global] Instance string_ord_laws : OrdLaws string.
Proof. apply via_ord_laws, _. Qed.

Lemma as_bytes_app s t : as_bytes (s +:+ t) = as_bytes s ++ as_bytes t.
Proof. induction s as [|a s IH]; [done|]. simpl. by rewrite IH. Qed.

#[export] Hint Resolve as_bytes_wf to_be_bytes_wf ascii_byte_u8 : corium.
