(* ===== verification/Ids.v ===== *)
(** * Entity ids (corium-core/src/ids.rs)

    An entity id is a [u64]: a 22-bit partition above a 42-bit sequence. *)

From stdpp Require Import base list.
From Stdlib Require Import ZArith Lia.
From S2P Require Import Prelude Machine.
Local Open Scope Z_scope.

Definition SEQUENCE_BITS : Z := 42.
Definition SEQUENCE_MASK : Z := 2 ^ SEQUENCE_BITS - 1.

(** Entity, attribute and transaction ids are raw [u64]s, as are keyword ids. *)
Notation EntityId := Z (only parsing).
Notation AttrId := Z (only parsing).
Notation TxId := Z (only parsing).
Notation KwId := Z (only parsing).

Module Partition.
Inductive Partition := Db | Tx | User.
End Partition.
Notation Partition := Partition.Partition.

(** [Partition::_ as u32]. *)
Definition partition_id (p : Partition) : Z :=
  match p with Partition.Db => 0 | Partition.Tx => 1 | Partition.User => 2 end.

Definition entity_new (partition sequence : Z) : EntityId :=
  Z.lor (shl64 partition SEQUENCE_BITS) (Z.land sequence SEQUENCE_MASK).

Definition partition (e : EntityId) : Z := Z.shiftr e SEQUENCE_BITS mod 2 ^ 32.
Definition sequence (e : EntityId) : Z := Z.land e SEQUENCE_MASK.

#[global] Arguments entity_new : simpl never.
#[global] Arguments partition : simpl never.
#[global] Arguments sequence : simpl never.

(** ** Facts *)

Lemma sequence_mod e : sequence e = e mod 2 ^ 42.
Proof.
  unfold sequence, SEQUENCE_MASK, SEQUENCE_BITS.
  change (2 ^ 42 - 1) with (Z.ones 42). by rewrite Z.land_ones by lia.
Qed.

Lemma partition_div e : u64 e -> partition e = e / 2 ^ 42.
Proof.
  unfold u64, partition, SEQUENCE_BITS. intros He. rewrite Z.shiftr_div_pow2 by lia.
  apply Z.mod_small. split; [apply Z.div_pos; lia|].
  apply Z.div_lt_upper_bound; lia.
Qed.

Lemma sequence_bound e : 0 <= sequence e < 2 ^ 42.
Proof. rewrite sequence_mod. apply Z.mod_pos_bound. lia. Qed.

Lemma entity_new_arith p s :
  0 <= p -> entity_new p s = (p mod 2 ^ 22) * 2 ^ 42 + s mod 2 ^ 42.
Proof.
  intros Hp. unfold entity_new, shl64, SEQUENCE_MASK, SEQUENCE_BITS.
  change (2 ^ 42 - 1) with (Z.ones 42). rewrite Z.land_ones by lia.
  rewrite Z.shiftl_mul_pow2 by lia.
  replace (2 ^ 64) with (2 ^ 22 * 2 ^ 42) by lia.
  rewrite Z.mul_mod_distr_r by lia.
  symmetry.
  rewrite <- (Z.shiftl_mul_pow2 (p mod 2 ^ 22) 42) by lia.
  rewrite <- (Z.land_ones s 42) by lia.
  assert (Z.land (Z.shiftl (p mod 2 ^ 22) 42) (Z.land s (Z.ones 42)) = 0) as Hl.
  { apply Z.bits_inj'. intros n Hn. rewrite !Z.land_spec, Z.bits_0.
    destruct (Z.ltb_spec n 42).
    - by rewrite Z.shiftl_spec_low by lia.
    - rewrite Z.ones_spec_high by lia. by rewrite !andb_false_r. }
  by rewrite Z.add_nocarry_lxor, Z.lxor_lor by done.
Qed.

Lemma entity_new_u64 p s : 0 <= p -> u64 (entity_new p s).
Proof.
  intros Hp. rewrite entity_new_arith by done. unfold u64.
  pose proof (Z.mod_pos_bound p (2 ^ 22)). pose proof (Z.mod_pos_bound s (2 ^ 42)). lia.
Qed.

Lemma partition_new p s : 0 <= p < 2 ^ 22 -> partition (entity_new p s) = p.
Proof.
  intros Hp. rewrite partition_div by (apply entity_new_u64; lia).
  rewrite entity_new_arith, Z.div_add_l by lia.
  pose proof (Z.mod_pos_bound s (2 ^ 42)).
  rewrite Z.mod_small by lia. rewrite Z.div_small by lia. lia.
Qed.

Lemma sequence_new p s : 0 <= p -> sequence (entity_new p s) = s mod 2 ^ 42.
Proof.
  intros Hp. rewrite sequence_mod, entity_new_arith by lia.
  rewrite Z.add_comm, Z.mod_add, Z.mod_mod by lia. done.
Qed.

Lemma entity_new_partition_sequence e : u64 e -> entity_new (partition e) (sequence e) = e.
Proof.
  intros He. rewrite partition_div, sequence_mod by done. unfold u64 in He.
  rewrite entity_new_arith by (apply Z.div_pos; lia).
  rewrite Z.mod_mod by lia. rewrite Z.mod_small.
  - rewrite Z.mul_comm. symmetry. apply Z.div_mod. lia.
  - split; [apply Z.div_pos; lia|apply Z.div_lt_upper_bound; lia].
Qed.

(** Entity ids pack and unpack: the two components of an id built from an in-range
    partition and sequence are the ones it was built from, every [u64] is the id of its
    own components, and numeric order on ids is the order by partition, then sequence. *)
Theorem entity_id_components p s q t e :
  0 <= p < 2 ^ 22 -> 0 <= s < 2 ^ 42 -> 0 <= q < 2 ^ 22 -> 0 <= t < 2 ^ 42 -> u64 e ->
  partition (entity_new p s) = p /\ sequence (entity_new p s) = s /\
  entity_new (partition e) (sequence e) = e /\
  cmp (entity_new p s) (entity_new q t) = cmp (p, s) (q, t).
Proof.
  intros Hp Hs Hq Ht He. repeat split.
  - by apply partition_new.
  - rewrite sequence_new by lia. by apply Z.mod_small.
  - by apply entity_new_partition_sequence.
  - rewrite cmp_pair, (be_cmp_split (2 ^ 42)).
    + rewrite <- !partition_div, <- !sequence_mod by (apply entity_new_u64; lia).
      rewrite !partition_new, !sequence_new, !(Z.mod_small _ (2 ^ 42)) by lia. done.
    + lia.
    + apply entity_new_u64; lia.
    + apply entity_new_u64; lia.
Qed.

Lemma entity_id_components_witness :
  partition (entity_new 2 1000) = 2 /\ sequence (entity_new 2 1000) = 1000 /\
  entity_new (partition 77) (sequence 77) = 77 /\
  cmp (entity_new 2 1000) (entity_new 1 5) = cmp (2, 1000) (1, 5).
Proof. apply entity_id_components; unfold u64; lia. Defined.
