(* ===== verification/Keyword.v ===== *)
(** * Keywords and their interner (corium-core/src/keyword.rs)

    The interner is a dense durable table plus a reader-local overlay whose ids start at
    [FIRST_LOCAL_KW_ID].  In the source the overlay sits behind an [Arc<Mutex<_>>] that
    clones share; here the overlay's contents are a field, [intern_local] returns the
    interner with the overlay it leaves, and [share] is what a clone sees after another
    handle has written the common overlay. *)

From stdpp Require Import base list strings sorting.
From Stdlib Require Import Ascii ZArith Lia.
From S2P Require Import Prelude OrdMap Machine Ids.
Local Open Scope Z_scope.

Record Keyword := keyword_new { namespace : option string; name : string }.

#[global] Instance keyword_eq_dec : EqDecision Keyword.
Proof. solve_decision. Defined.
#[global] Instance keyword_ord : Ord Keyword := via_ord (fun k => (namespace k, name k)).
#[global] Instance keyword_ord_laws : OrdLaws Keyword.
Proof. apply via_ord_laws. intros [] [] [= -> ->]. done. Qed.

(** [str::split_once]. *)
Fixpoint split_once (c : Ascii.ascii) (s : string) : option (string * string) :=
  match s with
  | EmptyString => None
  | String a s' =>
      if Ascii.eqb a c then Some (EmptyString, s')
      else match split_once c s' with
           | Some (x, y) => Some (String a x, y)
           | None => None
           end
  end.

Definition str_is_empty (s : string) : bool :=
  match s with EmptyString => true | _ => false end.

Definition keyword_parse (text : string) : Keyword :=
  match split_once "/"%char text with
  | Some (ns, nm) =>
      if negb (str_is_empty ns) && negb (str_is_empty nm)
      then keyword_new (Some ns) nm else keyword_new None text
  | None => keyword_new None text
  end.

(** [impl Display for Keyword]. *)
Definition keyword_display (k : Keyword) : string :=
  match namespace k with
  | Some ns => ":" +:+ ns +:+ "/" +:+ name k
  | None => ":" +:+ name k
  end.

(** [keyword_text] of encoding.rs: the same without the colon. *)
Definition keyword_text (k : Keyword) : string :=
  match namespace k with
  | Some ns => ns +:+ "/" +:+ name k
  | None => name k
  end.

Definition FIRST_LOCAL_KW_ID : KwId := Z.shiftl 1 56.

Record LocalKeywords := {
  l_by_keyword : list (Keyword * KwId);
  l_by_id : list (KwId * Keyword) }.

Record KeywordInterner := {
  by_keyword : list (Keyword * KwId);
  by_id : list (KwId * Keyword);
  next : KwId;
  local : LocalKeywords }.

Definition interner_default : KeywordInterner :=
  {| by_keyword := []; by_id := []; next := 0;
     local := {| l_by_keyword := []; l_by_id := [] |} |}.

Definition intern (i : KeywordInterner) (keyword : Keyword) : KwId * KeywordInterner :=
  match om_get keyword (by_keyword i) with
  | Some id => (id, i)
  | None =>
      let id := next i in
      (id, {| by_keyword := om_insert keyword id (by_keyword i);
              by_id := om_insert id keyword (by_id i);
              next := next i + 1;
              local := local i |})
  end.

Definition intern_local (i : KeywordInterner) (keyword : Keyword) : KwId * KeywordInterner :=
  match om_get keyword (by_keyword i) with
  | Some id => (id, i)
  | None =>
      match om_get keyword (l_by_keyword (local i)) with
      | Some id => (id, i)
      | None =>
          let id := FIRST_LOCAL_KW_ID + Z.of_nat (length (l_by_id (local i))) in
          (id, {| by_keyword := by_keyword i; by_id := by_id i; next := next i;
                  local := {| l_by_keyword := om_insert keyword id (l_by_keyword (local i));
                              l_by_id := om_insert id keyword (l_by_id (local i)) |} |})
      end
  end.

Definition interner_get (i : KeywordInterner) (keyword : Keyword) : option KwId :=
  match om_get keyword (by_keyword i) with
  | Some id => Some id
  | None => om_get keyword (l_by_keyword (local i))
  end.

Definition resolve (i : KeywordInterner) (id : KwId) : option Keyword :=
  match om_get id (by_id i) with
  | Some k => Some k
  | None => om_get id (l_by_id (local i))
  end.

Definition interner_iter (i : KeywordInterner) : list (KwId * Keyword) := by_id i.
Definition interner_len (i : KeywordInterner) : nat := length (by_id i).
Definition interner_is_empty (i : KeywordInterner) : bool :=
  match by_id i with [] => true | _ => false end.

(** A clone [i] of an interner whose shared overlay another handle [j] has written. *)
Definition share (i j : KeywordInterner) : KeywordInterner :=
  {| by_keyword := by_keyword i; by_id := by_id i; next := next i; local := local j |}.

(** Interning a run of keywords in order. *)
Definition intern_all (i : KeywordInterner) (ks : list Keyword) : KeywordInterner :=
  fold_left (fun i k => snd (intern i k)) ks i.

(** ** Dense tables *)

Fixpoint indexed (b : Z) (ks : list Keyword) : list (KwId * Keyword) :=
  match ks with
  | [] => []
  | k :: ks => (b, k) :: indexed (b + 1) ks
  end.

Record dense (b : Z) (ks : list Keyword)
    (bk : list (Keyword * KwId)) (bi : list (KwId * Keyword)) : Prop := {
  dense_wf : om_wf bk;
  dense_nodup : NoDup ks;
  dense_ids : bi = indexed b ks;
  dense_get : forall k id,
    om_get k bk = Some id <-> exists n, ks !! n = Some k /\ id = b + Z.of_nat n }.

(** The interner's invariant: both tables are dense, and the durable ids stay below the
    local range. *)
Definition interner_wf (i : KeywordInterner) : Prop :=
  exists ks ls,
    dense 0 ks (by_keyword i) (by_id i) /\ next i = Z.of_nat (length ks) /\
    dense FIRST_LOCAL_KW_ID ls (l_by_keyword (local i)) (l_by_id (local i)) /\
    next i <= FIRST_LOCAL_KW_ID.

Lemma indexed_get b ks id k :
  om_get id (indexed b ks) = Some k <-> exists n, ks !! n = Some k /\ id = b + Z.of_nat n.
Proof.
  revert b. induction ks as [|k0 ks IH]; intros b; simpl.
  - split; [done|]. intros (n & Hn & _). by rewrite lookup_nil in Hn.
  - destruct (cmp id b) eqn:E.
    + apply cmp_eq_iff in E as ->. split.
      * intros [= ->]. exists 0%nat. split; [done|lia].
      * intros ([|n] & Hn & ?); [naive_solver|lia].
    + rewrite IH. unfold cmp, Z_ord in E. rewrite Z.compare_lt_iff in E. split.
      * intros (n & Hn & ->). exists (S n). split; [done|lia].
      * intros ([|n] & Hn & ?); [lia|]. exists n. split; [done|lia].
    + rewrite IH. unfold cmp, Z_ord in E. rewrite Z.compare_gt_iff in E. split.
      * intros (n & Hn & ->). exists (S n). split; [done|lia].
      * intros ([|n] & Hn & ?); [lia|]. exists n. split; [done|lia].
Qed.

Lemma length_indexed b ks : length (indexed b ks) = length ks.
Proof. revert b. induction ks; simpl; auto. Qed.

Lemma indexed_snoc b ks k :
  om_insert (b + Z.of_nat (length ks)) k (indexed b ks) = indexed b (ks ++ [k]).
Proof.
  revert b. induction ks as [|k0 ks IH]; intros b; cbn [length app indexed om_insert].
  - by rewrite Z.add_0_r.
  - unfold cmp, Z_ord. rewrite (proj2 (Z.compare_gt_iff _ _)) by lia. f_equal.
    rewrite <- IH. f_equal. lia.
Qed.

Lemma map_snd_indexed b ks : map snd (indexed b ks) = ks.
Proof. revert b. induction ks; simpl; intros; [done|]. by f_equal. Qed.

Section dense_facts.
Context {b : Z} {ks : list Keyword} {bk : list (Keyword * KwId)} {bi : list (KwId * Keyword)}.
Hypothesis Hd : dense b ks bk bi.

Lemma dense_get_id id k :
  om_get id bi = Some k <-> exists n, ks !! n = Some k /\ id = b + Z.of_nat n.
Proof. destruct Hd as [_ _ -> _]. apply indexed_get. Qed.

Lemma dense_get_iff k id : om_get k bk = Some id <-> om_get id bi = Some k.
Proof. rewrite dense_get_id. apply (dense_get _ _ _ _ Hd). Qed.

Lemma dense_absent k : om_get k bk = None <-> k ∉ ks.
Proof.
  split.
  - intros E Hk. apply list_elem_of_lookup in Hk as [n Hn].
    rewrite (proj2 (dense_get _ _ _ _ Hd k (b + Z.of_nat n))) in E by eauto. done.
  - intros Hk. destruct (om_get k bk) eqn:E; [|done].
    apply (dense_get _ _ _ _ Hd) in E as (n & Hn & _). destruct Hk.
    apply list_elem_of_lookup. by exists n.
Qed.

Lemma dense_insert k :
  om_get k bk = None ->
  dense b (ks ++ [k]) (om_insert k (b + Z.of_nat (length ks)) bk)
    (om_insert (b + Z.of_nat (length ks)) k bi).
Proof.
  intros Hk%dense_absent. destruct Hd as [Hwf Hnd -> Hg]. split.
  - by apply om_insert_wf.
  - apply NoDup_app. split; [done|]. split; [|apply NoDup_singleton].
    intros x Hx ->%list_elem_of_singleton. done.
  - apply indexed_snoc.
  - intros k' id. destruct (decide (k' = k)) as [->|Hne].
    + rewrite om_get_insert_eq. split.
      * intros [= <-]. exists (length ks). by rewrite list_lookup_middle.
      * intros (n & Hn & ->). do 2 f_equal. apply lookup_app_Some in Hn as [Hn|[Hle Hn]].
        { destruct Hk. apply list_elem_of_lookup. by exists n. }
        apply list_lookup_singleton_Some in Hn as [? _]. lia.
    + rewrite om_get_insert_ne, Hg by done. split.
      * intros (n & Hn & ->). exists n. split; [by apply lookup_app_l_Some|done].
      * intros (n & [Hn|[_ Hn]]%lookup_app_Some & ->); [by exists n|].
        by apply list_lookup_singleton_Some in Hn as [_ ?].
Qed.

Lemma dense_id_bound id k : om_get id bi = Some k -> b <= id < b + Z.of_nat (length ks).
Proof.
  intros (n & Hn & ->)%dense_get_id. apply lookup_lt_Some in Hn. lia.
Qed.

End dense_facts.

Lemma dense_nil b : dense b [] [] [].
Proof.
  split; [apply om_wf_nil|constructor|done|]. intros k id. split; [done|].
  intros (n & Hn & _). by rewrite lookup_nil in Hn.
Qed.

Lemma interner_default_wf : interner_wf interner_default.
Proof.
  exists [], []. split; [apply dense_nil|]. split; [done|]. split; [apply dense_nil|done].
Qed.

(** A durable hit is what [get] and [resolve] answer; the overlay is only consulted on a
    miss. *)
Lemma interner_get_durable i k id :
  om_get k (by_keyword i) = Some id -> interner_get i k = Some id.
Proof. unfold interner_get. by intros ->. Qed.

Lemma resolve_durable i id k : om_get id (by_id i) = Some k -> resolve i id = Some k.
Proof. unfold resolve. by intros ->. Qed.

Lemma resolve_local i id k :
  interner_wf i -> om_get id (l_by_id (local i)) = Some k -> resolve i id = Some k.
Proof.
  intros (ks & ls & Hd & Hn & Hl & Hle) Hg. unfold resolve.
  destruct (om_get id (by_id i)) as [k'|] eqn:E; [|done].
  apply (dense_id_bound Hd) in E. apply (dense_id_bound Hl) in Hg. lia.
Qed.

Lemma intern_wf i k :
  interner_wf i -> next i < FIRST_LOCAL_KW_ID -> interner_wf (snd (intern i k)).
Proof.
  intros (ks & ls & Hd & Hn & Hl & Hle) Hlt. unfold intern.
  destruct (om_get k (by_keyword i)) eqn:E; [by exists ks, ls|].
  exists (ks ++ [k]), ls. simpl. rewrite length_app. simpl.
  pose proof (dense_insert Hd k E) as Hd'. rewrite Z.add_0_l, <- Hn in Hd'.
  repeat split; try apply Hd'; try apply Hl; lia.
Qed.

(** An id already handed out keeps its keyword. *)
Lemma intern_resolve_stable i k id k0 :
  interner_wf i -> next i < FIRST_LOCAL_KW_ID ->
  resolve i id = Some k0 -> resolve (snd (intern i k)) id = Some k0.
Proof.
  intros Hwf Hlt Hr. pose proof (intern_wf i k Hwf Hlt) as Hwf'. revert Hr Hwf'.
  destruct Hwf as (ks & ls & Hd & Hn & Hl & Hle). unfold intern.
  destruct (om_get k (by_keyword i)) eqn:E; [done|]. simpl. intros Hr Hwf'.
  unfold resolve in Hr. destruct (om_get id (by_id i)) as [k1|] eqn:Ei.
  - injection Hr as ->. apply resolve_durable. simpl. rewrite om_get_insert_ne; [done|].
    apply (dense_id_bound Hd) in Ei. lia.
  - apply resolve_local; done.
Qed.

Lemma intern_known i k : om_get k (by_keyword (intern i k).2) = Some (intern i k).1.
Proof. unfold intern. destruct (om_get k (by_keyword i)) eqn:E; [done|]. apply om_get_insert_eq. Qed.

Lemma intern_resolves i k :
  interner_wf i -> next i < FIRST_LOCAL_KW_ID -> resolve (intern i k).2 (intern i k).1 = Some k.
Proof.
  intros Hwf Hlt. apply resolve_durable. destruct (intern_wf i k Hwf Hlt) as (ks & ls & Hd & _).
  apply (dense_get_iff Hd), intern_known.
Qed.

(** Interning hands out the id that resolves back to the keyword, keeps every id
    handed out before, is idempotent, and preserves the interner's invariant. *)
Theorem intern_spec i k :
  interner_wf i -> next i < FIRST_LOCAL_KW_ID ->
  let '(id, i') := intern i k in
  interner_wf i' /\ resolve i' id = Some k /\ interner_get i' k = Some id /\
  (forall id0 k0, resolve i id0 = Some k0 -> resolve i' id0 = Some k0) /\
  intern i' k = (id, i').
Proof.
  intros Hwf Hlt. destruct (intern i k) as [id i'] eqn:Ei.
  assert (i' = snd (intern i k)) as Hi' by (by rewrite Ei).
  split; [rewrite Hi'; by apply intern_wf|].
  assert (om_get k (by_keyword i') = Some id) as Hg by (pose proof (intern_known i k) as H; by rewrite Ei in H).
  split; [pose proof (intern_resolves i k Hwf Hlt) as H; by rewrite Ei in H|].
  split; [by apply interner_get_durable|]. split.
  - intros id0 k0. rewrite Hi'. by apply intern_resolve_stable.
  - unfold intern at 1. by rewrite Hg.
Qed.

Lemma intern_spec_witness :
  let '(id, i') := intern interner_default (keyword_new (Some "db") "doc") in
  interner_wf i' /\ resolve i' id = Some (keyword_new (Some "db") "doc") /\
  interner_get i' (keyword_new (Some "db") "doc") = Some id /\
  (forall id0 k0, resolve interner_default id0 = Some k0 -> resolve i' id0 = Some k0) /\
  intern i' (keyword_new (Some "db") "doc") = (id, i').
Proof. exact (intern_spec interner_default _ interner_default_wf eq_refl). Defined.

Lemma intern_all_dense i ks ls :
  dense 0 ks (by_keyword i) (by_id i) -> next i = Z.of_nat (length ks) -> NoDup (ks ++ ls) ->
  let i' := intern_all i ls in
  dense 0 (ks ++ ls) (by_keyword i') (by_id i') /\ next i' = Z.of_nat (length (ks ++ ls)).
Proof.
  revert i ks. induction ls as [|k ls IH]; intros i ks Hd Hn Hnd; cbn zeta.
  - by rewrite app_nil_r.
  - replace (ks ++ k :: ls) with ((ks ++ [k]) ++ ls) in * by (by rewrite <- app_assoc).
    assert (om_get k (by_keyword i) = None) as Hk.
    { apply (dense_absent Hd). apply NoDup_app in Hnd as [Hnd _].
      apply NoDup_app in Hnd as (_ & Hx & _). intros Hk. apply (Hx k Hk). by left. }
    unfold intern_all. cbn [fold_left]. fold (intern_all (snd (intern i k)) ls).
    apply IH; [| |done]; unfold intern; rewrite Hk; simpl.
    + pose proof (dense_insert Hd k Hk) as Hd'. by rewrite Z.add_0_l, <- Hn in Hd'.
    + rewrite length_app. simpl. lia.
Qed.

(** Replay: re-interning the keywords of [iter] in id order into an empty interner
    rebuilds the same durable table, so a naming root that stores only the keyword list
    reproduces every id. *)
Theorem intern_replay i :
  interner_wf i ->
  let i' := intern_all interner_default (map snd (interner_iter i)) in
  by_keyword i' = by_keyword i /\ by_id i' = by_id i /\ next i' = next i.
Proof.
  intros (ks & ls & Hd & Hn & _ & _). unfold interner_iter.
  rewrite (dense_ids _ _ _ _ Hd), map_snd_indexed.
  destruct (intern_all_dense interner_default [] ks) as [Hd' Hn'].
  - apply dense_nil.
  - done.
  - apply (dense_nodup _ _ _ _ Hd).
  - simpl in Hd', Hn'. split; [|split].
    + apply om_ext; [apply (dense_wf _ _ _ _ Hd')|apply (dense_wf _ _ _ _ Hd)|].
      intros k. apply option_eq. intros id.
      by rewrite (dense_get _ _ _ _ Hd'), (dense_get _ _ _ _ Hd).
    + apply (dense_ids _ _ _ _ Hd').
    + by rewrite Hn', Hn.
Qed.

Definition two_keywords : KeywordInterner :=
  intern_all interner_default [keyword_new (Some "db") "ident"; keyword_new None "b"].

Lemma two_keywords_wf : interner_wf two_keywords.
Proof. unfold two_keywords. repeat apply intern_wf; try done. apply interner_default_wf. Qed.

Lemma intern_replay_witness :
  by_id two_keywords = [(0, keyword_new (Some "db") "ident"); (1, keyword_new None "b")] /\
  by_id (intern_all interner_default (map snd (interner_iter two_keywords))) =
  by_id two_keywords.
Proof. split; [reflexivity|]. apply (intern_replay two_keywords two_keywords_wf). Defined.

Lemma intern_local_wf i k : interner_wf i -> interner_wf (snd (intern_local i k)).
Proof.
  intros (ks & ls & Hd & Hn & Hl & Hle). unfold intern_local.
  destruct (om_get k (by_keyword i)); [by exists ks, ls|].
  destruct (om_get k (l_by_keyword (local i))) eqn:E; [by exists ks, ls|].
  exists ks, (ls ++ [k]). simpl. pose proof (dense_insert Hl k E) as Hl'.
  rewrite (dense_ids _ _ _ _ Hl), length_indexed.
  rewrite (dense_ids _ _ _ _ Hl) in Hl'. done.
Qed.

Lemma intern_local_facts i k j :
  interner_wf i -> interner_wf (share j i) ->
  let '(id, i') := intern_local i k in
  interner_wf i' /\ interner_iter i' = interner_iter i /\ next i' = next i /\
  resolve i' id = Some k /\ interner_get i' k = Some id /\
  (om_get k (by_keyword i) = None -> FIRST_LOCAL_KW_ID <= id /\ resolve (share j i') id = Some k).
Proof.
  intros Hwf Hj. destruct (intern_local i k) as [id i'] eqn:Ei.
  assert (i' = snd (intern_local i k)) as Hi' by (by rewrite Ei).
  assert (interner_wf i') as Hwf' by (rewrite Hi'; by apply intern_local_wf).
  split; [done|].
  destruct Hwf as (ks & ls & Hd & Hn & Hl & Hle).
  revert Ei. unfold intern_local.
  destruct (om_get k (by_keyword i)) as [id0|] eqn:E1.
  { intros [= <- <-]. split; [done|]. split; [done|]. split.
    - apply resolve_durable. by apply (dense_get_iff Hd).
    - split; [by apply interner_get_durable|done]. }
  intros Ei.
  assert (by_id i' = by_id i /\ by_keyword i' = by_keyword i /\ next i' = next i /\
          om_get k (l_by_keyword (local i')) = Some id) as (Hb & Hbk & Hnx & Hg).
  { destruct (om_get k (l_by_keyword (local i))) as [id0|] eqn:E2;
      injection Ei as <- <-; [done|]. repeat split. apply om_get_insert_eq. }
  destruct Hwf' as (ks' & ls' & Hd' & Hn' & Hl' & Hle').
  pose proof (proj1 (dense_get_iff Hl' k id) Hg) as Hgi.
  unfold interner_iter. rewrite Hb. split; [done|]. split; [done|]. split.
  { apply resolve_local; [by exists ks', ls'|done]. }
  split; [unfold interner_get; by rewrite Hbk, E1|]. intros _.
  split; [apply (dense_id_bound Hl') in Hgi; lia|].
  destruct Hj as (kj & lj & Hdj & Hnj & Hlj & Hlej).
  apply resolve_local; [|done]. by exists kj, ls'.
Qed.

(** Interning a keyword read out of a sealed value leaves the durable table alone: its
    id is the durable one if the keyword has one and lies in the local range otherwise,
    it resolves back to the keyword, and every clone sharing the overlay resolves it to
    the same keyword. *)
Theorem intern_local_spec i k j :
  interner_wf i -> interner_wf (share j i) ->
  let '(id, i') := intern_local i k in
  interner_wf i' /\ interner_iter i' = interner_iter i /\ next i' = next i /\
  resolve i' id = Some k /\ interner_get i' k = Some id /\
  (om_get k (by_keyword i) = None -> FIRST_LOCAL_KW_ID <= id /\ resolve (share j i') id = Some k).
Proof. apply intern_local_facts. Qed.

Lemma intern_local_spec_witness :
  let '(id, i') := intern_local two_keywords (keyword_new (Some "pii") "vip") in
  interner_wf i' /\ interner_iter i' = interner_iter two_keywords /\
  next i' = next two_keywords /\
  resolve i' id = Some (keyword_new (Some "pii") "vip") /\
  interner_get i' (keyword_new (Some "pii") "vip") = Some id /\
  (om_get (keyword_new (Some "pii") "vip") (by_keyword two_keywords) = None ->
   FIRST_LOCAL_KW_ID <= id /\
   resolve (share interner_default i') id = Some (keyword_new (Some "pii") "vip")).
Proof.
  exact (intern_local_spec two_keywords (keyword_new (Some "pii") "vip") interner_default
           two_keywords_wf interner_default_wf).
Defined.

(** ** Text round trip *)

Lemma split_once_app c s t :
  split_once c s = None -> split_once c (s +:+ String c t) = Some (s, t).
Proof.
  induction s as [|a s IH]; simpl.
  - intros _. by rewrite Ascii.eqb_refl.
  - destruct (Ascii.eqb a c) eqn:E; [done|].
    destruct (split_once c s) as [[]|] eqn:Es; [done|]. intros _. by rewrite IH.
Qed.

(** Keywords whose text reads back: a namespace is non-empty and holds no slash and its
    name is non-empty; a name without namespace holds no slash that [parse] would take as
    a separator. *)
Definition keyword_textual (k : Keyword) : bool :=
  match namespace k with
  | Some ns => negb (str_is_empty ns) && negb (str_is_empty (name k)) &&
               is_none (split_once "/"%char ns)
  | None => bool_decide (keyword_parse (name k) = k)
  end.

(** A textual keyword survives [keyword_text] followed by [Keyword::parse]. *)
Lemma keyword_text_parse k :
  keyword_textual k = true -> keyword_parse (keyword_text k) = k.
Proof.
  destruct k as [[ns|] nm]; unfold keyword_textual, keyword_text; simpl.
  - intros [[Hns Hnm]%andb_true_iff Hsp]%andb_true_iff.
    assert (split_once "/" ns = None) as Hs by (by destruct (split_once "/" ns)).
    unfold keyword_parse. change ("/" +:+ nm) with (String "/" nm).
    rewrite (split_once_app _ _ _ Hs), Hns, Hnm. done.
  - by intros ?%bool_decide_eq_true.
Qed.
