(* ===== verification/Values.v ===== *)
(** * Values and value types (corium-core/src/value.rs, schema.rs)

    [Value.Value] has the source's constructors; its order is the derived one (declaration
    order of the constructors, then the payload), with doubles ordered by their
    sign-transformed bits. *)

From stdpp Require Import base list strings.
From Stdlib Require Import ZArith Lia.
From S2P Require Import Prelude Machine Ids.
Local Open Scope Z_scope.

Module ValueType.
Inductive ValueType :=
| Bool | Long | Double | Instant | Uuid | Keyword | Str | Bytes | Ref.
End ValueType.
Notation ValueType := ValueType.ValueType.

#[global] Instance value_type_eq_dec : EqDecision ValueType.
Proof. solve_decision. Defined.

(** The declaration index [#[derive(PartialOrd)]] compares. *)
Definition vt_discriminant (t : ValueType) : Z :=
  match t with
  | ValueType.Bool => 0 | ValueType.Long => 1 | ValueType.Double => 2
  | ValueType.Instant => 3 | ValueType.Uuid => 4 | ValueType.Keyword => 5
  | ValueType.Str => 6 | ValueType.Bytes => 7 | ValueType.Ref => 8
  end.

#[global] Instance value_type_ord : Ord ValueType := via_ord vt_discriminant.
#[global] Instance value_type_ord_laws : OrdLaws ValueType.
Proof. apply via_ord_laws. intros [] []; done. Qed.

(** [TotalF64] holds the bits of its [f64]. *)
Definition sortable_bits (bits : Z) : Z :=
  if (Z.land bits (Z.shiftl 1 63) =? 0)%Z then Z.lxor bits (Z.shiftl 1 63) else not64 bits.

Record Sealed := mk_sealed {
  class : EntityId;
  epoch : Z;
  vtype : ValueType;
  body : bytes }.

#[global] Instance sealed_eq_dec : EqDecision Sealed.
Proof. solve_decision. Defined.
#[global] Instance sealed_ord : Ord Sealed :=
  via_ord (fun s => (class s, (epoch s, (vtype s, body s)))).
#[global] Instance sealed_ord_laws : OrdLaws Sealed.
Proof. apply via_ord_laws. intros [] [] [=]; subst. done. Qed.

Module Value.
Inductive Value :=
| Bool (b : bool)
| Long (n : Z)
| Double (bits : Z)
| Instant (ms : Z)
| Uuid (n : Z)
| Keyword (id : KwId)
| Str (s : string)
| Bytes (l : bytes)
| Ref (e : EntityId)
| Sealed (s : Sealed).
End Value.
Notation Value := Value.Value.

#[global] Instance value_eq_dec : EqDecision Value.
Proof. solve_decision. Defined.

Definition value_discriminant (v : Value) : Z :=
  match v with
  | Value.Bool _ => 0 | Value.Long _ => 1 | Value.Double _ => 2 | Value.Instant _ => 3
  | Value.Uuid _ => 4 | Value.Keyword _ => 5 | Value.Str _ => 6 | Value.Bytes _ => 7
  | Value.Ref _ => 8 | Value.Sealed _ => 9
  end.

(** [#[derive(Ord)]] on [Value], with [TotalF64]'s own [Ord]. *)
#[global] Instance value_ord : Ord Value := fun a b =>
  match a, b with
  | Value.Bool x, Value.Bool y => cmp x y
  | Value.Long x, Value.Long y => cmp x y
  | Value.Double x, Value.Double y => cmp (sortable_bits x) (sortable_bits y)
  | Value.Instant x, Value.Instant y => cmp x y
  | Value.Uuid x, Value.Uuid y => cmp x y
  | Value.Keyword x, Value.Keyword y => cmp x y
  | Value.Str x, Value.Str y => cmp x y
  | Value.Bytes x, Value.Bytes y => cmp x y
  | Value.Ref x, Value.Ref y => cmp x y
  | Value.Sealed x, Value.Sealed y => cmp x y
  | _, _ => cmp (value_discriminant a) (value_discriminant b)
  end.

Definition has_type (v : Value) (value_type : ValueType) : bool :=
  match v with
  | Value.Sealed s => bool_decide (vtype s = value_type)
  | _ =>
      match v, value_type with
      | Value.Bool _, ValueType.Bool | Value.Long _, ValueType.Long
      | Value.Double _, ValueType.Double | Value.Instant _, ValueType.Instant
      | Value.Uuid _, ValueType.Uuid | Value.Keyword _, ValueType.Keyword
      | Value.Str _, ValueType.Str | Value.Bytes _, ValueType.Bytes
      | Value.Ref _, ValueType.Ref => true
      | _, _ => false
      end
  end.

(** What the Rust types guarantee of every value: machine ranges, and UTF-8 strings. *)
Definition value_wf (v : Value) : Prop :=
  match v with
  | Value.Bool _ => True
  | Value.Long n | Value.Instant n => i64 n
  | Value.Double b => u64 b
  | Value.Uuid n => u128 n
  | Value.Keyword id => u64 id
  | Value.Str s => utf8_valid (as_bytes s) = true
  | Value.Bytes l => bytes_wf l
  | Value.Ref e => u64 e
  | Value.Sealed s => u64 (class s) /\ u32 (epoch s) /\ bytes_wf (body s)
  end.

(** ** The order is lawful *)

Lemma land_pow2_testbit x n : 0 <= n -> (Z.land x (2 ^ n) =? 0)%Z = negb (Z.testbit x n).
Proof.
  intros Hn. destruct (Z.testbit x n) eqn:E; simpl.
  - apply Z.eqb_neq. intros E0.
    assert (Z.testbit (Z.land x (2 ^ n)) n = true) as Hb.
    { by rewrite Z.land_spec, Z.pow2_bits_true, E by lia. }
    by rewrite E0, Z.bits_0 in Hb.
  - apply Z.eqb_eq, Z.bits_inj'. intros m Hm. rewrite Z.land_spec, Z.bits_0.
    rewrite Z.pow2_bits_eqb by lia. destruct (Z.eqb_spec n m) as [<-|]; [by rewrite E|].
    apply andb_false_r.
Qed.

Lemma sortable_bits_sign x : Z.testbit (sortable_bits x) 63 = negb (Z.testbit x 63).
Proof.
  unfold sortable_bits, not64. rewrite Z.shiftl_1_l, land_pow2_testbit by lia.
  destruct (Z.testbit x 63) eqn:E; simpl negb; cbv iota; rewrite Z.lxor_spec, E.
  - change (2 ^ 64 - 1) with (Z.ones 64). by rewrite Z.ones_spec_low by lia.
  - by rewrite Z.pow2_bits_true by lia.
Qed.

#[global] Instance sortable_bits_inj : Inj (=) (=) sortable_bits.
Proof.
  intros x y E.
  assert (Z.testbit x 63 = Z.testbit y 63) as Hb.
  { apply (f_equal (fun z => negb (Z.testbit z 63))) in E.
    by rewrite !sortable_bits_sign, !negb_involutive in E. }
  revert E. unfold sortable_bits, not64. rewrite Z.shiftl_1_l, !land_pow2_testbit, Hb by lia.
  destruct (negb (Z.testbit y 63)); intros E.
  - by apply (f_equal (fun z => Z.lxor z (2 ^ 63))) in E;
      rewrite !Z.lxor_assoc, Z.lxor_nilpotent, !Z.lxor_0_r in E.
  - by apply (f_equal (fun z => Z.lxor z (2 ^ 64 - 1))) in E;
      rewrite !Z.lxor_assoc, Z.lxor_nilpotent, !Z.lxor_0_r in E.
Qed.

(** The payload as a list of integers, so the whole order is one lexicographic order. *)
Definition value_key (v : Value) : Z * list Z :=
  (value_discriminant v,
   match v with
   | Value.Bool b => [Z.b2z b]
   | Value.Long n | Value.Instant n | Value.Uuid n | Value.Keyword n | Value.Ref n => [n]
   | Value.Double b => [sortable_bits b]
   | Value.Str s => as_bytes s
   | Value.Bytes l => l
   | Value.Sealed s => class s :: epoch s :: vt_discriminant (vtype s) :: body s
   end).

Lemma value_cmp_key a b : cmp a b = cmp (value_key a) (value_key b).
Proof.
  unfold value_key. rewrite cmp_pair.
  destruct a, b; try done; cbn [value_discriminant]; rewrite (cmp_refl (A:=Z)); simpl then_cmp;
    rewrite ?cmp_cons;
    try (match goal with
    | |- context [cmp (A:=list Z) [] []] =>
        rewrite (cmp_refl (A:=list Z) []), then_cmp_eq_r
    end); try done.
  by destruct b0, b.
Qed.

#[global] Instance value_key_inj : Inj (=) (=) value_key.
Proof.
  intros a b E. apply cmp_eq_iff in E.
  destruct a, b; unfold value_key in E; rewrite cmp_eq_iff in E;
    injection E; intros; subst; try done; f_equal.
  - by destruct b, b0.
  - by apply sortable_bits_inj.
  - by apply as_bytes_inj.
  - destruct s, s0; simpl in *. f_equal; try done. by destruct vtype0, vtype1.
Qed.

#[global] Instance value_ord_laws : OrdLaws Value.
Proof.
  pose proof (via_ord_laws (A:=Value) value_key _) as [He Ha Ht].
  split; intros *; rewrite !value_cmp_key; [apply He|apply Ha|apply Ht].
Qed.
