(* ===== verification/Encoding.v ===== *)
(** * Sortable value encoding (corium-core/src/encoding.rs)

    [encode_into] appends to a buffer; here an encoder returns the bytes it appends.
    [order_enc] is the property the covering indexes need: the encoding embeds the value
    order into byte order and is self-delimiting. *)

From stdpp Require Import base list strings.
From Stdlib Require Import Ascii ZArith Lia.
From S2P Require Import Prelude OrdMap Machine Ids Keyword Values.
Local Open Scope Z_scope.

Definition value_type_tag (value_type : ValueType) : Z :=
  match value_type with
  | ValueType.Bool => 0
  | ValueType.Long => 1
  | ValueType.Double => 2
  | ValueType.Instant => 3
  | ValueType.Uuid => 4
  | ValueType.Keyword => 5
  | ValueType.Str => 6
  | ValueType.Bytes => 7
  | ValueType.Ref => 8
  end.

Module DecodeError.
Inductive DecodeError :=
| Truncated
| UnknownTag (tag : Z)
| InvalidEscape
| InvalidUtf8
| Trailing
| InvalidValueType (tag : Z).
End DecodeError.
Notation DecodeError := DecodeError.DecodeError.

Definition value_type_from_tag (tag : Z) : result DecodeError ValueType :=
  match tag with
  | 0 => Ok ValueType.Bool
  | 1 => Ok ValueType.Long
  | 2 => Ok ValueType.Double
  | 3 => Ok ValueType.Instant
  | 4 => Ok ValueType.Uuid
  | 5 => Ok ValueType.Keyword
  | 6 => Ok ValueType.Str
  | 7 => Ok ValueType.Bytes
  | 8 => Ok ValueType.Ref
  | other => Err (DecodeError.InvalidValueType other)
  end.

Definition BOOL : Z := 0x10.
Definition LONG : Z := 0x20.
Definition DOUBLE : Z := 0x30.
Definition INSTANT : Z := 0x40.
Definition UUID : Z := 0x50.
Definition KEYWORD : Z := 0x60.
Definition STR : Z := 0x70.
Definition BYTES : Z := 0x80.
Definition REF : Z := 0x90.
Definition SEALED : Z := 0xA0.

Fixpoint encode_escaped (l : bytes) : bytes :=
  match l with
  | [] => [0; 0]
  | b :: l => if (b =? 0)%Z then 0 :: 0xff :: encode_escaped l else b :: encode_escaped l
  end.

(** [impl Encodable for u64], [EntityId] and [i64]. *)
Definition encode_u64 (x : Z) : bytes := to_be_bytes 8 x.
Definition encode_entity (e : EntityId) : bytes := to_be_bytes 8 e.
Definition encode_i64 (x : Z) : bytes :=
  to_be_bytes 8 (Z.lxor (from_be_bytes (to_be_bytes 8 (i64_as_u64 x))) (Z.shiftl 1 63)).

(** [impl Encodable for Value]. *)
Definition encode_value (v : Value) : bytes :=
  match v with
  | Value.Bool b => [BOOL; Z.b2z b]
  | Value.Long n => LONG :: encode_i64 n
  | Value.Double b => DOUBLE :: to_be_bytes 8 (sortable_bits b)
  | Value.Instant n => INSTANT :: encode_i64 n
  | Value.Uuid n => UUID :: to_be_bytes 16 n
  | Value.Keyword id => KEYWORD :: encode_u64 id
  | Value.Str s => STR :: encode_escaped (as_bytes s)
  | Value.Bytes l => BYTES :: encode_escaped l
  | Value.Ref e => REF :: encode_entity e
  | Value.Sealed s =>
      SEALED :: encode_entity (class s) ++ to_be_bytes 4 (epoch s) ++
      [value_type_tag (vtype s)] ++ encode_escaped (body s)
  end.

(** [decode_escaped]'s loop at index [i] with [out] gathered so far; [input] is the rest. *)
Fixpoint decode_escaped_loop (input : bytes) (out : bytes) (i : nat)
    : result DecodeError (bytes * nat) :=
  match input with
  | [] => Err DecodeError.Truncated
  | b :: rest =>
      if (b =? 0)%Z then
        match rest with
        | c :: rest' =>
            if (c =? 0)%Z then Ok (out, (i + 2)%nat)
            else if (c =? 0xff)%Z then decode_escaped_loop rest' (out ++ [0]) (i + 2)
            else Err DecodeError.InvalidEscape
        | [] => Err DecodeError.InvalidEscape
        end
      else decode_escaped_loop rest (out ++ [b]) (i + 1)
  end.
Definition decode_escaped (input : bytes) : result DecodeError (bytes * nat) :=
  decode_escaped_loop input [] 0.

Definition decode_i64 (l : bytes) : Z :=
  u64_as_i64 (Z.lxor (from_be_bytes l) (Z.shiftl 1 63)).

Definition decode_f64_bits (l : bytes) : Z :=
  let s := from_be_bytes l in
  if (Z.land s (Z.shiftl 1 63) =? 0)%Z then not64 s else Z.lxor s (Z.shiftl 1 63).

(** [slice.get(i..j)]. *)
Definition get_range (l : bytes) (i j : nat) : result DecodeError bytes :=
  if (j <=? length l)%nat then Ok (take (j - i) (drop i l)) else Err DecodeError.Truncated.

(** [slice.get(i..)]. *)
Definition get_from (l : bytes) (i : nat) : result DecodeError bytes :=
  if (i <=? length l)%nat then Ok (drop i l) else Err DecodeError.Truncated.

(** [std::str::from_utf8]. *)
Definition from_utf8 (l : bytes) : result DecodeError string :=
  if utf8_valid l then Ok (of_bytes l) else Err DecodeError.InvalidUtf8.

Definition decode_value (input : bytes) : result DecodeError (Value * nat) :=
  match input with
  | [] => Err DecodeError.Truncated
  | tag :: rest =>
      let fixed n := get_range rest 0 n in
      if (tag =? BOOL)%Z then
        l ← fixed 1%nat; b ← ok_or (head l) DecodeError.Truncated;
        Ok (Value.Bool (negb (b =? 0)%Z), 2%nat)
      else if (tag =? LONG)%Z then l ← fixed 8%nat; Ok (Value.Long (decode_i64 l), 9%nat)
      else if (tag =? DOUBLE)%Z then
        l ← fixed 8%nat; Ok (Value.Double (decode_f64_bits l), 9%nat)
      else if (tag =? INSTANT)%Z then l ← fixed 8%nat; Ok (Value.Instant (decode_i64 l), 9%nat)
      else if (tag =? UUID)%Z then
        l ← fixed 16%nat; Ok (Value.Uuid (from_be_bytes l), 17%nat)
      else if (tag =? KEYWORD)%Z then
        l ← fixed 8%nat; Ok (Value.Keyword (from_be_bytes l), 9%nat)
      else if (tag =? REF)%Z then l ← fixed 8%nat; Ok (Value.Ref (from_be_bytes l), 9%nat)
      else if (tag =? STR)%Z || (tag =? BYTES)%Z then
        '(out, used) ← decode_escaped rest;
        if (tag =? STR)%Z
        then s ← from_utf8 out; Ok (Value.Str s, (used + 1)%nat)
        else Ok (Value.Bytes out, (used + 1)%nat)
      else if (tag =? SEALED)%Z then
        c ← fixed 8%nat;
        ep ← get_range rest 8 12;
        t ← ok_or (rest !! 12%nat) DecodeError.Truncated;
        vt ← value_type_from_tag t;
        tail ← get_from rest 13;
        '(bd, used) ← decode_escaped tail;
        Ok (Value.Sealed (mk_sealed (from_be_bytes c) (from_be_bytes ep) vt bd),
            (1 + 13 + used)%nat)
      else Err (DecodeError.UnknownTag tag)
  end.

Definition decode_entity_id (input : bytes) : result DecodeError (EntityId * nat) :=
  l ← get_range input 0 8; Ok (from_be_bytes l, 8%nat).

Definition decode_u64 (input : bytes) : result DecodeError (Z * nat) :=
  l ← get_range input 0 8; Ok (from_be_bytes l, 8%nat).

(** ** The plaintext of sealed values *)

Module SealPlaintextError.
Inductive SealPlaintextError :=
| Nested
| UnresolvableKeyword (id : KwId)
| Malformed (e : DecodeError)
| TypeMismatch (expected actual : ValueType).
End SealPlaintextError.
Notation SealPlaintextError := SealPlaintextError.SealPlaintextError.

Definition encode_seal_plaintext (value : Value) (interner : KeywordInterner)
    : result SealPlaintextError bytes :=
  match value with
  | Value.Sealed _ => Err SealPlaintextError.Nested
  | Value.Keyword id =>
      keyword ← ok_or (resolve interner id) (SealPlaintextError.UnresolvableKeyword id);
      Ok (STR :: encode_escaped (as_bytes (keyword_text keyword)))
  | other => Ok (encode_value other)
  end.

(** [value_type_of] of encoding.rs. *)
Definition plain_value_type (value : Value) : result SealPlaintextError ValueType :=
  match value with
  | Value.Bool _ => Ok ValueType.Bool
  | Value.Long _ => Ok ValueType.Long
  | Value.Double _ => Ok ValueType.Double
  | Value.Instant _ => Ok ValueType.Instant
  | Value.Uuid _ => Ok ValueType.Uuid
  | Value.Keyword _ => Ok ValueType.Keyword
  | Value.Str _ => Ok ValueType.Str
  | Value.Bytes _ => Ok ValueType.Bytes
  | Value.Ref _ => Ok ValueType.Ref
  | Value.Sealed _ => Err SealPlaintextError.Nested
  end.

(** Returns the value and the interner its overlay may have grown. *)
Definition decode_seal_plaintext (l : bytes) (expected : ValueType)
    (interner : KeywordInterner) : result SealPlaintextError (Value * KeywordInterner) :=
  '(value, _) ← map_err SealPlaintextError.Malformed (decode_value l);
  if bool_decide (expected = ValueType.Keyword) then
    match value with
    | Value.Str text =>
        let '(id, interner') := intern_local interner (keyword_parse text) in
        Ok (Value.Keyword id, interner')
    | _ => actual ← plain_value_type value;
           Err (SealPlaintextError.TypeMismatch expected actual)
    end
  else if has_type value expected then Ok (value, interner)
  else actual ← plain_value_type value;
       Err (SealPlaintextError.TypeMismatch expected actual).

(** ** Order *)

Arguments get_range : simpl never.
Arguments get_from : simpl never.
Arguments to_be_bytes : simpl never.
Arguments from_be_bytes : simpl never.
Arguments decode_escaped : simpl never.
Arguments value_type_from_tag : simpl never.


Lemma escaped_order : order_enc bytes_wf encode_escaped.
Proof.
  intros x y r s Hx. revert y. induction Hx as [|a x Ha Hx IH]; intros y Hy.
  - destruct Hy as [|b y Hb Hy]; [done|]. simpl. unfold u8 in Hb.
    destruct (Z.eqb_spec b 0) as [->|Hb0]; [done|].
    cbn [app]. by rewrite cmp_cons, Zcmp_lt by lia.
  - destruct Hy as [|b y Hb Hy].
    + simpl. unfold u8 in Ha. destruct (Z.eqb_spec a 0) as [->|Ha0]; [done|].
      cbn [app]. by rewrite cmp_cons, Zcmp_gt by lia.
    + cbn [encode_escaped]. unfold u8 in Ha, Hb.
      rewrite cmp_cons, then_cmp_assoc, <- IH by done.
      destruct (Z.eqb_spec a 0) as [->|Ha0], (Z.eqb_spec b 0) as [->|Hb0];
        cbn [app]; rewrite !cmp_cons; [done| | |done].
      * by rewrite Zcmp_lt by lia.
      * by rewrite Zcmp_gt by lia.
Qed.

Lemma i64_as_u64_range x : u64 (i64_as_u64 x).
Proof. unfold u64, i64_as_u64. apply Z.mod_pos_bound. lia. Qed.

Lemma i64_offset x : i64 x -> Z.lxor (i64_as_u64 x) (2 ^ 63) = x + 2 ^ 63.
Proof.
  unfold i64, i64_as_u64. intros Hx. destruct (Z.ltb_spec x 0).
  - replace x with (x + 2 ^ 64 + (-1) * 2 ^ 64) at 1 by lia.
    rewrite Z.mod_add, Z.mod_small by lia. rewrite lxor_sign_high by lia. lia.
  - rewrite Z.mod_small, lxor_sign_low by lia. lia.
Qed.

Lemma encode_i64_eq x : i64 x -> encode_i64 x = to_be_bytes 8 (x + 2 ^ 63).
Proof.
  intros Hx. unfold encode_i64. rewrite Z.shiftl_1_l.
  rewrite from_to_be_bytes by (apply i64_as_u64_range). by rewrite i64_offset.
Qed.

Lemma i64_order : order_enc i64 encode_i64.
Proof.
  intros x y r s Hx Hy. rewrite !encode_i64_eq by done. unfold i64 in *.
  rewrite u64_order by (unfold u64; lia). f_equal. unfold cmp, Z_ord.
  destruct (Z.compare_spec x y);
    [apply Z.compare_eq_iff|apply Z.compare_lt_iff|apply Z.compare_gt_iff]; lia.
Qed.

Lemma sortable_bits_arith x :
  u64 x -> sortable_bits x = if (x <? 2 ^ 63)%Z then x + 2 ^ 63 else 2 ^ 64 - 1 - x.
Proof.
  intros Hx. unfold sortable_bits. rewrite Z.shiftl_1_l, land_sign by done.
  destruct (Z.ltb_spec x (2 ^ 63)).
  - apply lxor_sign_low. unfold u64 in Hx. lia.
  - by apply not64_range.
Qed.

Lemma sortable_bits_u64 x : u64 x -> u64 (sortable_bits x).
Proof.
  intros Hx. rewrite sortable_bits_arith by done. unfold u64 in *.
  destruct (Z.ltb_spec x (2 ^ 63)); lia.
Qed.

Lemma value_type_tag_order :
  order_enc (fun _ : ValueType => True) (fun t => [value_type_tag t]).
Proof. intros x y r s _ _. cbn [app]. rewrite cmp_cons. by destruct x, y. Qed.

Lemma sealed_order :
  order_enc (fun s : Sealed => u64 (class s) /\ u32 (epoch s) /\ bytes_wf (body s))
    (fun s => encode_entity (class s) ++ to_be_bytes 4 (epoch s) ++
              [value_type_tag (vtype s)] ++ encode_escaped (body s)).
Proof.
  intros x y r s (Hx1 & Hx2 & Hx3) (Hy1 & Hy2 & Hy3). unfold encode_entity.
  rewrite <- !app_assoc. rewrite u64_order, u32_order by done.
  rewrite (value_type_tag_order (vtype x) (vtype y)), escaped_order by done.
  change (cmp x y) with
    (cmp (class x, (epoch x, (vtype x, body x))) (class y, (epoch y, (vtype y, body y)))).
  by rewrite !cmp_pair, !then_cmp_assoc.
Qed.

(** The composable form of C0: byte order on encodings, whatever follows them. *)
Lemma value_order : order_enc value_wf encode_value.
Proof.
  intros x y r s Hx Hy. destruct x, y; try done; simpl in Hx, Hy;
    cbn [encode_value app]; rewrite cmp_cons, cmp_refl; simpl then_cmp.
  - by destruct b, b0.
  - by apply i64_order.
  - apply (u64_order (sortable_bits bits) (sortable_bits bits0)); by apply sortable_bits_u64.
  - by apply i64_order.
  - by apply u128_order.
  - by apply u64_order.
  - apply escaped_order; apply as_bytes_wf.
  - by apply escaped_order.
  - by apply u64_order.
  - by apply sealed_order.
Qed.

(** C39. The encoding embeds the value order into byte order: comparing two encodings gives
    the comparison of the values, and no encoding is a proper prefix of another, so bytes
    that follow decide only between equal values. *)
Theorem encode_value_order x y r s :
  value_wf x -> value_wf y ->
  cmp (encode_value x) (encode_value y) = cmp x y /\
  cmp (encode_value x ++ r) (encode_value y ++ s) = (cmp x y ⨾ cmp r s)%corium.
Proof.
  intros Hx Hy. split; [by apply (order_enc_cmp _ _ _ _ value_order)|by apply value_order].
Qed.

Lemma encode_value_order_witness :
  cmp (encode_value (Value.Long (-5))) (encode_value (Value.Long 3)) = Lt /\
  cmp (encode_value (Value.Long (-5)) ++ [9]) (encode_value (Value.Long 3) ++ [1]) = Lt.
Proof. apply (encode_value_order (Value.Long (-5)) (Value.Long 3)); simpl; unfold i64; lia. Defined.

(** ** Decoding what was encoded *)

Lemma get_range_app a b n : length a = n -> get_range (a ++ b) 0 n = Ok a.
Proof.
  intros <-. unfold get_range. rewrite length_app, Nat.sub_0_r, drop_0, take_app_length.
  by rewrite (proj2 (Nat.leb_le _ _)) by lia.
Qed.

Lemma get_range_mid a b c i j :
  length a = i -> (i + length b)%nat = j -> get_range (a ++ b ++ c) i j = Ok b.
Proof.
  intros <- <-. unfold get_range. rewrite !length_app.
  rewrite (proj2 (Nat.leb_le _ _)) by lia. rewrite drop_app_length.
  rewrite take_app_length' by lia. done.
Qed.

Lemma get_from_app a b i : length a = i -> get_from (a ++ b) i = Ok b.
Proof.
  intros <-. unfold get_from. rewrite length_app, drop_app_length.
  by rewrite (proj2 (Nat.leb_le _ _)) by lia.
Qed.

Lemma decode_escaped_loop_app l out i rest :
  bytes_wf l ->
  decode_escaped_loop (encode_escaped l ++ rest) out i =
  Ok (out ++ l, (i + length (encode_escaped l))%nat).
Proof.
  intros Hl. revert out i. induction Hl as [|b l Hb Hl IH]; intros out i.
  - simpl. by rewrite app_nil_r.
  - cbn [encode_escaped]. destruct (Z.eqb_spec b 0) as [->|Hb0]; simpl.
    + rewrite IH, <- app_assoc. do 2 f_equal. lia.
    + rewrite (proj2 (Z.eqb_neq b 0)) by done.
      rewrite IH, <- app_assoc. do 2 f_equal. lia.
Qed.

Lemma decode_escaped_app l rest :
  bytes_wf l ->
  decode_escaped (encode_escaped l ++ rest) = Ok (l, length (encode_escaped l)).
Proof. intros Hl. unfold decode_escaped. by rewrite decode_escaped_loop_app. Qed.

Lemma decode_encode_i64 x : i64 x -> decode_i64 (encode_i64 x) = x.
Proof.
  intros Hx. rewrite encode_i64_eq by done. unfold decode_i64. unfold i64 in Hx.
  rewrite from_to_be_bytes, Z.shiftl_1_l by (simpl; lia). unfold u64_as_i64.
  destruct (Z.ltb_spec (x + 2 ^ 63) (2 ^ 63)).
  - rewrite lxor_sign_low by lia. destruct (Z.ltb_spec (x + 2 ^ 63 + 2 ^ 63) (2 ^ 63)); lia.
  - rewrite lxor_sign_high by lia. destruct (Z.ltb_spec (x + 2 ^ 63 - 2 ^ 63) (2 ^ 63)); lia.
Qed.

Lemma decode_sortable_bits x :
  u64 x -> decode_f64_bits (to_be_bytes 8 (sortable_bits x)) = x.
Proof.
  intros Hx. pose proof (sortable_bits_u64 x Hx) as Hs. unfold decode_f64_bits.
  rewrite from_to_be_bytes by done. rewrite Z.shiftl_1_l, land_sign by done.
  rewrite sortable_bits_arith in Hs |- * by done. unfold u64 in *.
  destruct (Z.ltb_spec x (2 ^ 63)).
  - destruct (Z.ltb_spec (x + 2 ^ 63) (2 ^ 63)); [lia|]. rewrite lxor_sign_high; lia.
  - destruct (Z.ltb_spec (2 ^ 64 - 1 - x) (2 ^ 63)); [|lia].
    rewrite not64_range; unfold u64; lia.
Qed.

Lemma value_type_tag_roundtrip t : value_type_from_tag (value_type_tag t) = Ok t.
Proof. by destruct t. Qed.

Lemma decode_sealed_rest (s : Sealed) rest :
  u64 (class s) /\ u32 (epoch s) /\ bytes_wf (body s) ->
  decode_value (encode_value (Value.Sealed s) ++ rest) =
  Ok (Value.Sealed s, length (encode_value (Value.Sealed s))).
Proof.
  intros (Hc & He & Hb). destruct s as [c e t b]. cbn [class epoch body vtype] in *.
  set (C := encode_entity c). set (P := to_be_bytes 4 e).
  assert (length C = 8%nat) as LC by apply length_to_be_bytes.
  assert (length P = 4%nat) as LP by apply length_to_be_bytes.
  change (encode_value (Value.Sealed (mk_sealed c e t b)))
    with (SEALED :: C ++ P ++ [value_type_tag t] ++ encode_escaped b).
  cbn [app]. rewrite <- !app_assoc. cbn [app]. unfold decode_value.
  cbn -[C P encode_escaped
    decode_escaped get_range get_from lookup value_type_from_tag value_type_tag].
  rewrite (get_range_app C) by done. cbn [mbind result_bind].
  rewrite (get_range_mid C P) by (rewrite ?LC, ?LP; done). cbn [mbind result_bind].
  assert ((C ++ P ++ value_type_tag t :: encode_escaped b ++ rest) !! 12%nat =
          Some (value_type_tag t)) as ->.
  { rewrite lookup_app_r, LC by lia. by rewrite list_lookup_middle by lia. }
  cbn [ok_or mbind result_bind]. rewrite value_type_tag_roundtrip.
  cbn [mbind result_bind].
  change (value_type_tag t :: encode_escaped b ++ rest)
    with ([value_type_tag t] ++ encode_escaped b ++ rest).
  rewrite !app_assoc, <- (app_assoc _ (encode_escaped b)).
  rewrite get_from_app by (rewrite !length_app, LC, LP; done).
  cbn [mbind result_bind]. rewrite decode_escaped_app by done.
  cbn [mbind result_bind]. subst C P.
  unfold encode_entity. rewrite !from_to_be_bytes by done.
  by do 2 f_equal.
Qed.

Lemma decode_fixed_width p rest :
  length p = 8%nat ->
  decode_value (LONG :: p ++ rest) = Ok (Value.Long (decode_i64 p), 9%nat) /\
  decode_value (DOUBLE :: p ++ rest) = Ok (Value.Double (decode_f64_bits p), 9%nat) /\
  decode_value (INSTANT :: p ++ rest) = Ok (Value.Instant (decode_i64 p), 9%nat) /\
  decode_value (KEYWORD :: p ++ rest) = Ok (Value.Keyword (from_be_bytes p), 9%nat) /\
  decode_value (REF :: p ++ rest) = Ok (Value.Ref (from_be_bytes p), 9%nat).
Proof. intros Hp. unfold decode_value. simpl. by rewrite !get_range_app by done. Qed.

Lemma length_encode_i64 n : length (encode_i64 n) = 8%nat.
Proof. apply length_to_be_bytes. Qed.

Lemma decode_encode v rest :
  value_wf v -> decode_value (encode_value v ++ rest) = Ok (v, length (encode_value v)).
Proof.
  intros Hv. destruct v; simpl in Hv; cbn [encode_value app length].
  - by destruct b.
  - destruct (decode_fixed_width (encode_i64 n) rest) as (-> & _); [apply length_encode_i64|].
    by rewrite length_encode_i64, decode_encode_i64.
  - destruct (decode_fixed_width (to_be_bytes 8 (sortable_bits bits)) rest) as (_ & -> & _);
      [apply length_to_be_bytes|]. by rewrite length_to_be_bytes, decode_sortable_bits.
  - destruct (decode_fixed_width (encode_i64 ms) rest) as (_ & _ & -> & _);
      [apply length_encode_i64|]. by rewrite length_encode_i64, decode_encode_i64.
  - assert (length (to_be_bytes 16 n) = 16%nat) as Hl by apply length_to_be_bytes.
    assert (from_be_bytes (to_be_bytes 16 n) = n) as Hn by (by apply from_to_be_bytes).
    revert Hl Hn. generalize (to_be_bytes 16 n). intros p Hl <-. rewrite Hl.
    unfold decode_value. simpl. by rewrite get_range_app.
  - destruct (decode_fixed_width (encode_u64 id) rest) as (_ & _ & _ & -> & _);
      [apply length_to_be_bytes|]. unfold encode_u64.
    by rewrite length_to_be_bytes, from_to_be_bytes.
  - unfold decode_value. simpl. rewrite decode_escaped_app by (apply as_bytes_wf). simpl.
    unfold from_utf8. rewrite Hv, of_as_bytes. simpl. by rewrite Nat.add_1_r.
  - unfold decode_value. simpl. rewrite decode_escaped_app by done. simpl.
    by rewrite Nat.add_1_r.
  - destruct (decode_fixed_width (encode_entity e) rest) as (_ & _ & _ & _ & ->);
      [apply length_to_be_bytes|]. unfold encode_entity.
    by rewrite length_to_be_bytes, from_to_be_bytes.
  - by apply decode_sealed_rest.
Qed.

(** Round trip: decoding an encoded value, whatever bytes follow, gives the value back
    and consumes exactly its encoding. *)
Theorem decode_encode_value v rest :
  value_wf v -> decode_value (encode_value v ++ rest) = Ok (v, length (encode_value v)).
Proof. apply decode_encode. Qed.

Lemma decode_encode_value_witness :
  decode_value (encode_value (Value.Bytes [0; 255; 0]) ++ [7; 7]) =
  Ok (Value.Bytes [0; 255; 0], 8%nat).
Proof. apply decode_encode_value. simpl. repeat constructor; unfold u8; lia. Defined.

(** ** What decodes is canonical *)

Lemma get_range_ok l n a : get_range l 0 n = Ok a -> length a = n /\ exists r, l = a ++ r.
Proof.
  unfold get_range. destruct (Nat.leb_spec n (length l)); [|done].
  rewrite Nat.sub_0_r, drop_0. intros [= <-]. rewrite length_take. split; [lia|].
  exists (drop n l). by rewrite take_drop.
Qed.

Lemma decode_escaped_loop_ok input out i out' j :
  bytes_wf input -> decode_escaped_loop input out i = Ok (out', j) ->
  exists l rest, out' = out ++ l /\ bytes_wf l /\ input = encode_escaped l ++ rest /\
    j = (i + length (encode_escaped l))%nat.
Proof.
  remember (length input) as n eqn:Hn. revert input Hn out i out' j.
  induction n as [n IH] using lt_wf_ind. intros input -> out i out' j Hwf.
  destruct Hwf as [|b input Hb Hwf]; [done|]. cbn [decode_escaped_loop].
  destruct (Z.eqb_spec b 0) as [->|Hb0].
  - destruct Hwf as [|c input Hc Hwf]; [done|].
    destruct (Z.eqb_spec c 0) as [->|Hc0].
    + intros [= <- <-]. exists [], input. rewrite app_nil_r. by repeat constructor.
    + destruct (Z.eqb_spec c 255) as [->|]; [|done]. intros Hd.
      apply (IH (length input)) in Hd as (l & rest & -> & Hl & -> & ->); [|simpl; lia|done|done].
      exists (0 :: l), rest. rewrite <- app_assoc. repeat split; [by constructor|].
      simpl. lia.
  - intros Hd.
    apply (IH (length input)) in Hd as (l & rest & -> & Hl & -> & ->); [|simpl; lia|done|done].
    exists (b :: l), rest. rewrite <- app_assoc. cbn [encode_escaped].
    rewrite (proj2 (Z.eqb_neq b 0)) by done. repeat split; [by constructor|]. simpl. lia.
Qed.

Lemma decode_escaped_ok input out j :
  bytes_wf input -> decode_escaped input = Ok (out, j) ->
  bytes_wf out /\ j = length (encode_escaped out) /\ exists rest, input = encode_escaped out ++ rest.
Proof.
  intros Hwf (l & rest & -> & Hl & -> & ->)%decode_escaped_loop_ok; [|done]. eauto.
Qed.

Lemma decode_i64_ok p :
  bytes_wf p -> length p = 8%nat -> i64 (decode_i64 p) /\ encode_i64 (decode_i64 p) = p.
Proof.
  intros Hp Hl. pose proof (from_be_bytes_bound p Hp) as Hb. rewrite Hl in Hb.
  change (256 ^ Z.of_nat 8) with (2 ^ 64) in Hb.
  assert (i64 (decode_i64 p) /\ decode_i64 p + 2 ^ 63 = from_be_bytes p) as [H1 H2].
  { unfold decode_i64, u64_as_i64, i64. rewrite Z.shiftl_1_l.
    destruct (Z.ltb_spec (from_be_bytes p) (2 ^ 63)).
    - rewrite lxor_sign_low by lia. destruct (Z.ltb_spec (from_be_bytes p + 2 ^ 63) (2 ^ 63)); lia.
    - rewrite lxor_sign_high by lia.
      destruct (Z.ltb_spec (from_be_bytes p - 2 ^ 63) (2 ^ 63)); lia. }
  split; [done|]. rewrite encode_i64_eq, H2 by done. rewrite <- Hl. by apply to_from_be_bytes.
Qed.

Lemma decode_f64_ok p :
  bytes_wf p -> length p = 8%nat ->
  u64 (decode_f64_bits p) /\ to_be_bytes 8 (sortable_bits (decode_f64_bits p)) = p.
Proof.
  intros Hp Hl. pose proof (from_be_bytes_bound p Hp) as Hb. rewrite Hl in Hb.
  change (256 ^ Z.of_nat 8) with (2 ^ 64) in Hb.
  assert (u64 (decode_f64_bits p) /\ sortable_bits (decode_f64_bits p) = from_be_bytes p)
    as [H1 H2].
  { unfold decode_f64_bits. rewrite Z.shiftl_1_l, land_sign by done.
    destruct (Z.ltb_spec (from_be_bytes p) (2 ^ 63)).
    - rewrite not64_range by done. split; [unfold u64; lia|].
      rewrite sortable_bits_arith by (unfold u64; lia).
      destruct (Z.ltb_spec (2 ^ 64 - 1 - from_be_bytes p) (2 ^ 63)); lia.
    - rewrite lxor_sign_high by lia. split; [unfold u64; lia|].
      rewrite sortable_bits_arith by (unfold u64; lia).
      destruct (Z.ltb_spec (from_be_bytes p - 2 ^ 63) (2 ^ 63)); lia. }
  split; [done|]. rewrite H2, <- Hl. by apply to_from_be_bytes.
Qed.

Lemma be_u_ok n p :
  bytes_wf p -> length p = n ->
  0 <= from_be_bytes p < 256 ^ Z.of_nat n /\ to_be_bytes n (from_be_bytes p) = p.
Proof. intros Hp <-. split; [by apply from_be_bytes_bound|by apply to_from_be_bytes]. Qed.

Lemma value_type_from_tag_ok t vt : value_type_from_tag t = Ok vt -> value_type_tag vt = t.
Proof.
  unfold value_type_from_tag.
  destruct t as [|p|p]; [by intros [= <-]| |done].
  do 4 (destruct p as [p|p|]; try done; try (by intros [= <-])).
Qed.

Lemma bytes_wf_app a b : bytes_wf (a ++ b) <-> bytes_wf a /\ bytes_wf b.
Proof. apply Forall_app. Qed.

Lemma decode_sealed_ok rest v n :
  bytes_wf rest -> decode_value (SEALED :: rest) = Ok (v, n) ->
  value_wf v /\ n = length (encode_value v) /\
  exists r, SEALED :: rest = encode_value v ++ r.
Proof.
  intros Hwf. unfold decode_value. cbn -[get_range get_from lookup value_type_from_tag].
  destruct (get_range rest 0 8) as [c|] eqn:Ec; [|done].
  apply get_range_ok in Ec as [Hc [r1 ->]].
  unfold get_range, get_from. rewrite length_app, Hc.
  destruct (Nat.leb_spec 12 (8 + length r1)); [|done].
  rewrite (drop_app_length' c r1 8) by done. change (12 - 8)%nat with 4%nat.
  cbn [mbind result_bind].
  destruct ((c ++ r1) !! 12%nat) as [t|] eqn:Et; [|done]. cbn [ok_or mbind result_bind].
  rewrite lookup_app_r, Hc in Et by lia. change (12 - 8)%nat with 4%nat in Et.
  destruct (value_type_from_tag t) as [vt|] eqn:Evt; [|done]. cbn [mbind result_bind].
  apply value_type_from_tag_ok in Evt as <-.
  apply bytes_wf_app in Hwf as [Hwc Hwr].
  assert (exists e r2, length e = 4%nat /\ r1 = e ++ value_type_tag vt :: r2)
    as (e & r2 & He & ->).
  { exists (take 4 r1), (drop 5 r1). split; [rewrite length_take; lia|].
    by rewrite (take_drop_middle r1 4 _ Et). }
  apply bytes_wf_app in Hwr as [Hwe Hwr]. apply Forall_cons in Hwr as [_ Hwr].
  rewrite length_app, He. cbn [length].
  destruct (Nat.leb_spec 13 (8 + (4 + S (length r2)))) as [_|?]; [|lia].
  replace (drop 13 (c ++ e ++ value_type_tag vt :: r2)) with r2.
  2: { change 13%nat with (8 + (4 + 1))%nat. rewrite <- drop_drop, drop_app_length' by done.
       by rewrite <- drop_drop, drop_app_length' by done. }
  cbn [mbind result_bind].
  destruct (decode_escaped r2) as [[bd used]|] eqn:Ed; [|done].
  apply decode_escaped_ok in Ed as (Hbd & -> & r & ->); [|done].
  intros [= <- <-]. rewrite take_app_length' by done.
  destruct (be_u_ok 8 c Hwc Hc) as [Hcb Hce]. destruct (be_u_ok 4 e Hwe He) as [Heb Hee].
  split; [done|]. cbn [encode_value class epoch vtype body]. unfold encode_entity.
  rewrite Hce, Hee. split.
  - cbn [length]. rewrite !length_app, Hc, He. done.
  - exists r. cbn [app]. by rewrite <- !app_assoc.
Qed.

(** Whatever decodes is well formed, and its bytes are the value's own encoding, with
    one exception: a boolean's payload byte may be any non-zero byte for [true].  So apart
    from booleans a value has exactly one accepted encoding. *)
Theorem decode_value_canonical input v n :
  bytes_wf input -> decode_value input = Ok (v, n) ->
  value_wf v /\ n = length (encode_value v) /\
  exists rest,
    input = encode_value v ++ rest \/
    (exists b, b <> 0 /\ v = Value.Bool true /\ input = BOOL :: b :: rest).
Proof.
  intros Hwf Hd. destruct input as [|tag rest]; [done|].
  apply Forall_cons in Hwf as [_ Hwf].
  destruct (Z.eqb_spec tag SEALED) as [->|Hs].
  { apply decode_sealed_ok in Hd as (? & ? & r & ?); [|done]. eauto 10. }
  revert Hd. unfold decode_value.
  rewrite (proj2 (Z.eqb_neq tag SEALED)) by done.
  repeat match goal with
  | |- context [(tag =? ?t)%Z] => destruct (Z.eqb_spec tag t) as [->|?]; cbn [orb]
  end; try done;
  try (match goal with
  | |- context [get_range rest 0 ?k] =>
      destruct (get_range rest 0 k) as [p|] eqn:Ep; [|done]; cbn [mbind result_bind];
      apply get_range_ok in Ep as [Hp [r ->]]; apply bytes_wf_app in Hwf as [Hwp _]
  | |- context [decode_escaped rest] =>
      destruct (decode_escaped rest) as [[out used]|] eqn:Ed; [|done];
      cbn [mbind result_bind]; apply decode_escaped_ok in Ed as (Ho & -> & r & ->); [|done]
  end).
  - destruct p as [|b [|]]; try done. intros [= <- <-]. repeat split. exists r.
    destruct (Z.eqb_spec b 0) as [->|Hb]; [by left|]. right. exists b. done.
  - intros [= <- <-]. destruct (decode_i64_ok p) as [Hr He]; [done..|].
    split; [done|]. cbn [encode_value]. rewrite He. simpl. rewrite Hp. eauto.
  - intros [= <- <-]. destruct (decode_f64_ok p) as [Hr He]; [done..|].
    split; [done|]. cbn [encode_value]. rewrite He. simpl. rewrite Hp. eauto.
  - intros [= <- <-]. destruct (decode_i64_ok p) as [Hr He]; [done..|].
    split; [done|]. cbn [encode_value]. rewrite He. simpl. rewrite Hp. eauto.
  - intros [= <- <-]. destruct (be_u_ok 16 p) as [Hr He]; [done..|].
    split; [done|]. cbn [encode_value]. rewrite He. simpl. rewrite Hp. eauto.
  - intros [= <- <-]. destruct (be_u_ok 8 p) as [Hr He]; [done..|].
    split; [done|]. cbn [encode_value]. unfold encode_u64. rewrite He. simpl. rewrite Hp. eauto.
  - intros [= <- <-]. destruct (be_u_ok 8 p) as [Hr He]; [done..|].
    split; [done|]. cbn [encode_value]. unfold encode_entity. rewrite He. simpl.
    rewrite Hp. eauto.
  - unfold from_utf8. destruct (utf8_valid out) eqn:Eu; [|done]. intros [= <- <-].
    cbn [value_wf encode_value]. rewrite as_of_bytes by done. split; [done|].
    simpl. split; [lia|]. eauto.
  - intros [= <- <-]. cbn [value_wf encode_value]. split; [done|].
    simpl. split; [lia|]. eauto.
Qed.

Lemma decode_value_canonical_witness :
  value_wf (Value.Str "hi") /\ 5%nat = length (encode_value (Value.Str "hi")) /\
  exists rest,
    [0x70; 104; 105; 0; 0; 9] = encode_value (Value.Str "hi") ++ rest \/
    (exists b, b <> 0 /\ Value.Str "hi" = Value.Bool true /\
               [0x70; 104; 105; 0; 0; 9] = BOOL :: b :: rest).
Proof.
  apply decode_value_canonical; [|reflexivity].
  repeat constructor; unfold u8; simpl; lia.
Defined.

(** ** Seal plaintext *)

Lemma keyword_parse_textual text : keyword_textual (keyword_parse text) = true.
Proof.
  unfold keyword_parse at 1.
  assert (keyword_textual (keyword_new None text) = true \/
          exists a b, split_once "/" text = Some (a, b) /\
            negb (str_is_empty a) && negb (str_is_empty b) = true) as Hn.
  { unfold keyword_textual. simpl. unfold keyword_parse.
    destruct (split_once "/" text) as [[a b]|] eqn:E; [|by left; apply bool_decide_eq_true].
    destruct (negb (str_is_empty a) && negb (str_is_empty b)) eqn:Eb; [by eauto|].
    left. by apply bool_decide_eq_true. }
  destruct (split_once "/" text) as [[a b]|] eqn:E.
  - destruct (negb (str_is_empty a) && negb (str_is_empty b)) eqn:Eb.
    + unfold keyword_textual. simpl. rewrite Eb. simpl. unfold is_none, is_some.
      enough (split_once "/" a = None) as -> by done. clear Eb Hn.
      revert a b E. induction text as [|c text IH]; simpl; [done|]. intros a b.
      destruct (Ascii.eqb c "/") eqn:Ec; [by intros [= <- <-]|].
      destruct (split_once "/" text) as [[x y]|]; [|done]. intros [= <- <-]. simpl.
      by rewrite Ec, (IH x y).
    + destruct Hn as [?|(? & ? & [= <- <-] & Hb)]; [done|]. by rewrite Eb in Hb.
  - by destruct Hn as [?|(? & ? & ? & _)].
Qed.

Definition seal_textual (i : KeywordInterner) (v : Value) : Prop :=
  match v with
  | Value.Keyword id =>
      forall k, resolve i id = Some k ->
        keyword_textual k = true /\ utf8_valid (as_bytes (keyword_text k)) = true
  | _ => True
  end.

Lemma interner_wf_share i : interner_wf i -> interner_wf (share i i).
Proof. by destruct i. Qed.

Lemma seal_keyword_roundtrip id i l pad :
  interner_wf i -> seal_textual i (Value.Keyword id) ->
  encode_seal_plaintext (Value.Keyword id) i = Ok l ->
  exists id' i' k,
    decode_seal_plaintext (l ++ pad) ValueType.Keyword i = Ok (Value.Keyword id', i') /\
    interner_iter i' = interner_iter i /\ resolve i id = Some k /\ resolve i' id' = Some k.
Proof.
  intros Hi Ht. simpl. destruct (resolve i id) as [k|] eqn:Er; [|done]. intros [= <-].
  destruct (Ht k Er) as [Hk Hu]. unfold decode_seal_plaintext.
  change (STR :: encode_escaped (as_bytes (keyword_text k)))
    with (encode_value (Value.Str (keyword_text k))).
  rewrite decode_encode by done. simpl. rewrite keyword_text_parse by done.
  pose proof (intern_local_facts i k i Hi (interner_wf_share i Hi)) as Hs.
  destruct (intern_local i k) as [id' i'] eqn:Ei. destruct Hs as (_ & Hit & _ & Hr & _).
  exists id', i', k. eauto 10.
Qed.

Lemma seal_plain_roundtrip v i t l pad :
  value_wf v -> plain_value_type v = Ok t -> t <> ValueType.Keyword ->
  encode_seal_plaintext v i = Ok l -> decode_seal_plaintext (l ++ pad) t i = Ok (v, i).
Proof.
  intros Hv Hp Ht He. assert (l = encode_value v) as ->.
  { destruct v; simplify_eq/=; done. }
  unfold decode_seal_plaintext. rewrite decode_encode by done. simpl.
  rewrite bool_decide_eq_false_2 by done. destruct v; by simplify_eq/=.
Qed.

(** Seal round trip: the plaintext of a value, with any padding after it, opens to the
    same value; a keyword opens to an id that the reader's interner resolves to the same
    keyword, and the durable naming table is untouched. *)
Theorem seal_plaintext_roundtrip v i t l pad :
  interner_wf i -> value_wf v -> seal_textual i v ->
  plain_value_type v = Ok t -> encode_seal_plaintext v i = Ok l ->
  exists v' i',
    decode_seal_plaintext (l ++ pad) t i = Ok (v', i') /\
    interner_iter i' = interner_iter i /\
    match v with
    | Value.Keyword kid =>
        exists id' k, v' = Value.Keyword id' /\ resolve i kid = Some k /\ resolve i' id' = Some k
    | _ => v' = v
    end.
Proof.
  intros Hi Hv Ht Hp He. destruct (decide (t = ValueType.Keyword)) as [->|Hne].
  - destruct v as [| | | | |kid| | | |]; try done.
    destruct (seal_keyword_roundtrip kid i l pad) as (id' & i' & k & ? & ? & ? & ?);
      [done..|]. eauto 10.
  - exists v, i. rewrite (seal_plain_roundtrip v) by done. repeat split.
    destruct v; by simplify_eq/=.
Qed.

Lemma seal_plaintext_roundtrip_witness :
  exists v' i',
    decode_seal_plaintext (encode_value (Value.Str "db/ident") ++ [0; 0; 0])
      ValueType.Keyword two_keywords = Ok (v', i') /\
    interner_iter i' = interner_iter two_keywords /\
    exists id' k, v' = Value.Keyword id' /\ resolve two_keywords 0 = Some k /\
      resolve i' id' = Some k.
Proof.
  apply (seal_plaintext_roundtrip (Value.Keyword 0) two_keywords ValueType.Keyword).
  - exact two_keywords_wf.
  - simpl. unfold u64. lia.
  - intros k [= <-]. split; reflexivity.
  - reflexivity.
  - reflexivity.
Defined.
