(* ===== verification/Datoms.v ===== *)
(** * Datoms and covering-index keys (corium-core/src/datom.rs)

    A datom's key in an index order is its three components in that order followed by
    eight bytes holding [tx << 1 | added].  The theorems: keys order datoms by their
    components, keys decode back to their datoms, and the component prefix identifies the
    fact. *)

From stdpp Require Import base list strings.
From Stdlib Require Import ZArith Lia.
From S2P Require Import Prelude OrdMap Machine Ids Values Encoding.
Local Open Scope Z_scope.

Record Datom := mk_datom {
  d_e : EntityId;
  d_a : AttrId;
  d_v : Value;
  d_tx : TxId;
  d_added : bool }.

#[global] Instance datom_eq_dec : EqDecision Datom.
Proof. solve_decision. Defined.

Inductive IndexOrder := Eavt | Aevt | Avet | Vaet.

#[global] Instance index_order_eq_dec : EqDecision IndexOrder.
Proof. solve_decision. Defined.

Definition KEY_TX_SUFFIX_LEN : nat := 8.

Definition key_components (key : bytes) : bytes :=
  take (length key - KEY_TX_SUFFIX_LEN) key.

Definition encode_tx_added (tx : TxId) (added : bool) : bytes :=
  encode_u64 (Z.lor (shl64 tx 1) (Z.b2z added)).

Definition datom_key (d : Datom) (order : IndexOrder) : bytes :=
  (match order with
   | Eavt => encode_entity (d_e d) ++ encode_entity (d_a d) ++ encode_value (d_v d)
   | Aevt => encode_entity (d_a d) ++ encode_entity (d_e d) ++ encode_value (d_v d)
   | Avet => encode_entity (d_a d) ++ encode_value (d_v d) ++ encode_entity (d_e d)
   | Vaet => encode_value (d_v d) ++ encode_entity (d_a d) ++ encode_entity (d_e d)
   end) ++ encode_tx_added (d_tx d) (d_added d).

(** The [entity] closure of [from_key]: reads one id at the offset and advances it. *)
Definition read_entity (input : bytes) (offset : nat) : result DecodeError (EntityId * nat) :=
  '(value, used) ← decode_entity_id (drop offset input); Ok (value, (offset + used)%nat).
Definition read_value (input : bytes) (offset : nat) : result DecodeError (Value * nat) :=
  '(value, used) ← decode_value (drop offset input); Ok (value, (offset + used)%nat).

Definition from_key (order : IndexOrder) (input : bytes) : result DecodeError Datom :=
  '(e, a, v, offset) ←
    match order with
    | Eavt => '(e, o1) ← read_entity input 0; '(a, o2) ← read_entity input o1;
              '(v, o3) ← read_value input o2; Ok (e, a, v, o3)
    | Aevt => '(a, o1) ← read_entity input 0; '(e, o2) ← read_entity input o1;
              '(v, o3) ← read_value input o2; Ok (e, a, v, o3)
    | Avet => '(a, o1) ← read_entity input 0; '(v, o2) ← read_value input o1;
              '(e, o3) ← read_entity input o2; Ok (e, a, v, o3)
    | Vaet => '(v, o1) ← read_value input 0; '(a, o2) ← read_entity input o1;
              '(e, o3) ← read_entity input o2; Ok (e, a, v, o3)
    end;
  '(tx_added, used) ← decode_u64 (drop offset input);
  if (offset + used =? length input)%nat
  then Ok (mk_datom e a v (Z.shiftr tx_added 1) (Z.land tx_added 1 =? 1)%Z)
  else Err DecodeError.Trailing.

(** ** Facts: the [(e, a, v)] a datom states *)

Notation Fact := (EntityId * AttrId * Value)%type.
Definition d_fact (d : Datom) : Fact := (d_e d, d_a d, d_v d).

Definition fact_wf (f : Fact) : Prop :=
  let '(e, a, v) := f in u64 e /\ u64 a /\ value_wf v.

(** What the Rust types guarantee of a datom, plus the one bit the key gives away:
    [tx << 1] keeps 63 bits of the transaction id. *)
Definition datom_wf (d : Datom) : Prop := fact_wf (d_fact d) /\ 0 <= d_tx d < 2 ^ 63.

(** The component order of an index. *)
Definition fact_cmp (order : IndexOrder) (f g : Fact) : comparison :=
  let '(e, a, v) := f in let '(e', a', v') := g in
  match order with
  | Eavt => cmp (e, (a, v)) (e', (a', v'))
  | Aevt => cmp (a, (e, v)) (a', (e', v'))
  | Avet => cmp (a, (v, e)) (a', (v', e'))
  | Vaet => cmp (v, (a, e)) (v', (a', e'))
  end.

Definition fact_bytes (order : IndexOrder) (f : Fact) : bytes :=
  let '(e, a, v) := f in
  match order with
  | Eavt => encode_entity e ++ encode_entity a ++ encode_value v
  | Aevt => encode_entity a ++ encode_entity e ++ encode_value v
  | Avet => encode_entity a ++ encode_value v ++ encode_entity e
  | Vaet => encode_value v ++ encode_entity a ++ encode_entity e
  end.

Lemma datom_key_fact d o :
  datom_key d o = fact_bytes o (d_fact d) ++ encode_tx_added (d_tx d) (d_added d).
Proof. by destruct o. Qed.

Lemma fact_cmp_eq o f g : fact_cmp o f g = Eq <-> f = g.
Proof.
  destruct f as [[e a] v], g as [[e' a'] v'].
  destruct o; simpl; rewrite cmp_eq_iff; naive_solver.
Qed.

(** Fact keys are self-delimiting and ordered by components. *)
Lemma fact_bytes_order o f g r s :
  fact_wf f -> fact_wf g ->
  cmp (fact_bytes o f ++ r) (fact_bytes o g ++ s) = (fact_cmp o f g ⨾ cmp r s)%corium.
Proof.
  destruct f as [[e a] v], g as [[e' a'] v']. intros (He & Ha & Hv) (He' & Ha' & Hv').
  assert (forall x y p q, u64 x -> u64 y ->
    cmp (encode_entity x ++ p) (encode_entity y ++ q) = (cmp x y ⨾ cmp p q)%corium) as HE
    by (intros; by apply u64_order).
  destruct o; cbn [fact_bytes fact_cmp]; rewrite <- !app_assoc, !cmp_pair, !then_cmp_assoc.
  - by rewrite !HE, value_order.
  - by rewrite !HE, value_order.
  - by rewrite HE, value_order, HE.
  - by rewrite value_order, !HE.
Qed.

Lemma fact_bytes_cmp o f g :
  fact_wf f -> fact_wf g -> cmp (fact_bytes o f) (fact_bytes o g) = fact_cmp o f g.
Proof.
  intros Hf Hg. rewrite <- (app_nil_r (fact_bytes o f)), <- (app_nil_r (fact_bytes o g)).
  rewrite fact_bytes_order by done. apply then_cmp_eq_r.
Qed.

Lemma fact_bytes_inj o f g :
  fact_wf f -> fact_wf g -> fact_bytes o f = fact_bytes o g -> f = g.
Proof. intros Hf Hg E%cmp_eq_iff. rewrite fact_bytes_cmp in E by done. by apply fact_cmp_eq in E. Qed.

Lemma tx_added_arith tx added :
  0 <= tx < 2 ^ 63 -> Z.lor (shl64 tx 1) (Z.b2z added) = 2 * tx + Z.b2z added.
Proof.
  intros Htx. unfold shl64. rewrite Z.shiftl_mul_pow2, Z.mod_small by lia.
  rewrite Z.mul_comm. change (2 ^ 1) with 2.
  destruct added; simpl Z.b2z.
  - symmetry. rewrite <- Z.lxor_lor, <- Z.add_nocarry_lxor; [done|..];
      apply Z.bits_inj'; intros n Hn; rewrite Z.land_spec, Z.bits_0;
      (destruct (Z.eq_dec n 0) as [->|]; [by rewrite Z.testbit_even_0|]);
      change 1 with (2 ^ 0); rewrite Z.pow2_bits_false by lia; apply andb_false_r.
  - rewrite Z.lor_0_r. lia.
Qed.

Lemma tx_added_u64 tx added : 0 <= tx < 2 ^ 63 -> u64 (2 * tx + Z.b2z added).
Proof. unfold u64. destruct added; simpl; lia. Qed.

Lemma tx_added_div x b : (2 * x + Z.b2z b) / 2 = x.
Proof. destruct b; cbn [Z.b2z]; Z.div_mod_to_equations; lia. Qed.

Lemma tx_added_mod x b : (2 * x + Z.b2z b) mod 2 = Z.b2z b.
Proof. destruct b; cbn [Z.b2z]; Z.div_mod_to_equations; lia. Qed.

Lemma encode_tx_added_cmp tx added tx' added' :
  0 <= tx < 2 ^ 63 -> 0 <= tx' < 2 ^ 63 ->
  cmp (encode_tx_added tx added) (encode_tx_added tx' added') =
  cmp (tx, added) (tx', added').
Proof.
  intros Htx Htx'. unfold encode_tx_added, encode_u64. rewrite !tx_added_arith by done.
  rewrite (order_enc_cmp _ _ _ _ u64_order) by (by apply tx_added_u64).
  rewrite cmp_pair. rewrite (be_cmp_split 2) by (destruct added, added'; simpl; lia).
  rewrite !tx_added_div, !tx_added_mod. by destruct added, added'.
Qed.

(** The key order: components first, then transaction, then retraction before assertion. *)
Lemma datom_key_cmp o d d' :
  datom_wf d -> datom_wf d' ->
  cmp (datom_key d o) (datom_key d' o) =
  (fact_cmp o (d_fact d) (d_fact d') ⨾ cmp (d_tx d, d_added d) (d_tx d', d_added d'))%corium.
Proof.
  intros [Hf Ht] [Hf' Ht']. rewrite !datom_key_fact, fact_bytes_order by done.
  by rewrite encode_tx_added_cmp.
Qed.

Lemma key_components_key d o : key_components (datom_key d o) = fact_bytes o (d_fact d).
Proof.
  rewrite datom_key_fact. unfold key_components, KEY_TX_SUFFIX_LEN.
  apply take_app_length'. rewrite length_app. unfold encode_tx_added, encode_u64.
  rewrite length_to_be_bytes. lia.
Qed.

Lemma datom_key_inj o d d' :
  datom_wf d -> datom_wf d' -> datom_key d o = datom_key d' o -> d = d'.
Proof.
  intros Hd Hd' E%cmp_eq_iff. rewrite datom_key_cmp, then_cmp_eq, fact_cmp_eq, cmp_eq_iff in E by done.
  destruct d, d'; unfold d_fact in E; simpl in E. naive_solver.
Qed.

(** Covering-index keys sort datoms by the index's components, then by transaction,
    with a transaction's retraction before its assertion; and sorting by the component
    prefix agrees with sorting by the whole key, two datoms sharing a prefix exactly when
    they state the same fact. *)
Theorem datom_key_order o d d' :
  datom_wf d -> datom_wf d' ->
  cmp (datom_key d o) (datom_key d' o) =
    (fact_cmp o (d_fact d) (d_fact d') ⨾ cmp (d_tx d, d_added d) (d_tx d', d_added d'))%corium /\
  cmp (key_components (datom_key d o)) (key_components (datom_key d' o)) =
    fact_cmp o (d_fact d) (d_fact d') /\
  (key_components (datom_key d o) = key_components (datom_key d' o) <-> d_fact d = d_fact d').
Proof.
  intros Hd Hd'. split; [by apply datom_key_cmp|]. rewrite !key_components_key.
  pose proof (proj1 Hd) as Hf. pose proof (proj1 Hd') as Hf'.
  split; [by apply fact_bytes_cmp|]. split; [by apply fact_bytes_inj|by intros ->].
Qed.

Lemma datom_key_order_witness :
  let d := mk_datom 7 100 (Value.Str "a") 5 false in
  let d' := mk_datom 7 100 (Value.Str "a") 5 true in
  cmp (datom_key d Avet) (datom_key d' Avet) = Lt /\
  cmp (key_components (datom_key d Avet)) (key_components (datom_key d' Avet)) = Eq /\
  (key_components (datom_key d Avet) = key_components (datom_key d' Avet) <->
   d_fact d = d_fact d').
Proof.
  apply (datom_key_order Avet (mk_datom 7 100 (Value.Str "a") 5 false)
           (mk_datom 7 100 (Value.Str "a") 5 true));
    unfold datom_wf, fact_wf, u64; simpl; repeat split; lia.
Defined.

(** ** Keys decode *)

Section read_back.
Context (input : bytes).

Lemma read_entity_at p e r :
  input = p ++ encode_entity e ++ r -> u64 e ->
  read_entity input (length p) = Ok (e, length (p ++ encode_entity e)).
Proof.
  intros -> He. unfold read_entity, decode_entity_id. rewrite drop_app_length.
  rewrite get_range_app by apply length_to_be_bytes. cbn [mbind result_bind].
  unfold encode_entity. rewrite from_to_be_bytes by done.
  by rewrite length_app, length_to_be_bytes.
Qed.

Lemma read_value_at p v r :
  input = p ++ encode_value v ++ r -> value_wf v ->
  read_value input (length p) = Ok (v, length (p ++ encode_value v)).
Proof.
  intros -> Hv. unfold read_value. rewrite drop_app_length, decode_encode by done.
  cbn [mbind result_bind]. by rewrite length_app.
Qed.

End read_back.

(** One component read of [from_key]. *)
Tactic Notation "read_next" uconstr(lem) :=
  rewrite lem by (try done; by rewrite <- !app_assoc); cbn [mbind result_bind app].

Lemma tx_added_split tx added :
  0 <= tx < 2 ^ 63 ->
  Z.shiftr (2 * tx + Z.b2z added) 1 = tx /\
  (Z.land (2 * tx + Z.b2z added) 1 =? 1)%Z = added.
Proof.
  intros Htx. rewrite Z.shiftr_div_pow2 by lia. change (2 ^ 1) with 2.
  rewrite tx_added_div. split; [done|].
  change (Z.land (2 * tx + Z.b2z added) 1) with (Z.land (2 * tx + Z.b2z added) (Z.ones 1)).
  rewrite Z.land_ones by lia. change (2 ^ 1) with 2. rewrite tx_added_mod. by destruct added.
Qed.

(** A complete covering-index key decodes back to its datom in every index order. *)
Theorem from_key_key o d : datom_wf d -> from_key o (datom_key d o) = Ok d.
Proof.
  intros [(He & Ha & Hv) Htx]. rewrite datom_key_fact.
  destruct d as [e a v tx added]; unfold d_fact in *; cbn [d_e d_a d_v d_tx d_added] in *.
  set (T := encode_tx_added tx added).
  assert (forall input p, input = p ++ T ->
    ('(tx_added, used) ← decode_u64 (drop (length p) input);
     if (length p + used =? length input)%nat
     then Ok (mk_datom e a v (Z.shiftr tx_added 1) (Z.land tx_added 1 =? 1)%Z)
     else Err DecodeError.Trailing) = Ok (mk_datom e a v tx added)) as Htail.
  { intros input p ->. rewrite drop_app_length. unfold decode_u64.
    assert (length T = 8%nat) as HT by apply length_to_be_bytes.
    rewrite <- (app_nil_r T) at 1. rewrite get_range_app by done. cbn [mbind result_bind].
    rewrite length_app, HT, Nat.eqb_refl. subst T. unfold encode_tx_added, encode_u64.
    rewrite tx_added_arith, from_to_be_bytes by (try apply tx_added_u64; done).
    by destruct (tx_added_split tx added) as [-> ->]. }
  unfold from_key. change 0%nat with (length (@nil Z)).
  destruct o; cbn [fact_bytes].
  - read_next (read_entity_at _ [] e (encode_entity a ++ encode_value v ++ T)).
    read_next (read_entity_at _ (encode_entity e) a (encode_value v ++ T)).
    read_next (read_value_at _ (encode_entity e ++ encode_entity a) v T).
    apply Htail. by rewrite <- !app_assoc.
  - read_next (read_entity_at _ [] a (encode_entity e ++ encode_value v ++ T)).
    read_next (read_entity_at _ (encode_entity a) e (encode_value v ++ T)).
    read_next (read_value_at _ (encode_entity a ++ encode_entity e) v T).
    apply Htail. by rewrite <- !app_assoc.
  - read_next (read_entity_at _ [] a (encode_value v ++ encode_entity e ++ T)).
    read_next (read_value_at _ (encode_entity a) v (encode_entity e ++ T)).
    read_next (read_entity_at _ (encode_entity a ++ encode_value v) e T).
    apply Htail. by rewrite <- !app_assoc.
  - read_next (read_value_at _ [] v (encode_entity a ++ encode_entity e ++ T)).
    read_next (read_entity_at _ (encode_value v) a (encode_entity e ++ T)).
    read_next (read_entity_at _ (encode_value v ++ encode_entity a) e T).
    apply Htail. by rewrite <- !app_assoc.
Qed.

Lemma from_key_key_witness :
  let d := mk_datom 7 100 (Value.Bytes [1; 0]) 5 true in
  from_key Vaet (datom_key d Vaet) = Ok d.
Proof.
  apply from_key_key. unfold datom_wf, fact_wf, u64, bytes_wf; simpl.
  repeat split; try lia. repeat constructor; unfold u8; lia.
Defined.
