(* ===== verification/Chunk.v ===== *)
(** * Content-defined chunk boundaries (corium-core/src/chunk.rs) *)

From stdpp Require Import base list.
From Stdlib Require Import ZArith Lia.
From S2P Require Import Prelude Machine.
Local Open Scope Z_scope.

Definition CHUNK_TARGET_ENTRIES : Z := 2048.
Definition CHUNK_MIN_ENTRIES : Z := 512.
Definition CHUNK_MAX_ENTRIES : Z := 8192.

(** FNV-1a at 64 bits. *)
Definition boundary_hash (key : bytes) : Z :=
  fold_left (fun hash byte => wrapping_mul64 (Z.lxor hash byte) 0x00000100000001b3)
    key 0xcbf29ce484222325.

Definition cut_after (key : bytes) (entries : Z) : bool :=
  if (CHUNK_MAX_ENTRIES <=? entries)%Z then true
  else (CHUNK_MIN_ENTRIES <=? entries)%Z &&
       (boundary_hash key mod CHUNK_TARGET_ENTRIES =? CHUNK_TARGET_ENTRIES - 1)%Z.

Lemma cut_after_max key entries : CHUNK_MAX_ENTRIES <= entries -> cut_after key entries = true.
Proof. intros He. unfold cut_after. by rewrite (proj2 (Z.leb_le _ _) He). Qed.

Lemma cut_after_min key entries : cut_after key entries = true -> CHUNK_MIN_ENTRIES <= entries.
Proof.
  unfold cut_after, CHUNK_MIN_ENTRIES, CHUNK_MAX_ENTRIES.
  destruct (Z.leb_spec 8192 entries); [lia|]. intros [?%Z.leb_le _]%andb_true_iff. lia.
Qed.

(** Between the clamps the decision is a function of the key alone. *)
Lemma cut_after_content key n m :
  CHUNK_MIN_ENTRIES <= n < CHUNK_MAX_ENTRIES -> CHUNK_MIN_ENTRIES <= m < CHUNK_MAX_ENTRIES ->
  cut_after key n = cut_after key m.
Proof.
  intros Hn Hm. unfold cut_after.
  rewrite (proj2 (Z.leb_gt CHUNK_MAX_ENTRIES n)), (proj2 (Z.leb_gt CHUNK_MAX_ENTRIES m)) by lia.
  by rewrite (proj2 (Z.leb_le _ n)), (proj2 (Z.leb_le _ m)) by lia.
Qed.
