(* ===== verification/Segment.v ===== *)
(** * Immutable index segments (corium-index/src/lib.rs)

    A segment is a list of leaves; a leaf is a run of keys with the identity of its
    allocation ([addr]), since publication reuses a leaf by handle.  [LeafBuilder] carries
    the next unused address.  [apply_borrowed] and [insert_history_ref] walk the leaves
    with a cursor into a sorted list of pending entries; the cursor is modelled by the
    suffix it points at. *)

From stdpp Require Import base list sorting.
From Stdlib Require Import ZArith Lia.
From S2P Require Import Prelude OrdMap Machine Ids Values Encoding Datoms Chunk.
Local Open Scope Z_scope.

Definition RESYNC_LEAF_LIMIT : nat := 4.

Record Leaf := mk_leaf { addr : Z; leaf_keys : list bytes }.

Definition leaf_id (l : Leaf) : Z := addr l.

Definition is_closed (l : Leaf) : bool :=
  is_some_and (last (leaf_keys l))
    (fun key => cut_after key (Z.of_nat (length (leaf_keys l)))).

Record Segment := mk_segment { leaves : list Leaf }.

Definition segment_default : Segment := mk_segment [].

Definition segment_keys (s : Segment) : list bytes := concat (map leaf_keys (leaves s)).
Definition segment_len (s : Segment) : nat :=
  foldr (fun l n => (length (leaf_keys l) + n)%nat) 0%nat (leaves s).
Definition segment_is_empty (s : Segment) : bool :=
  match leaves s with [] => true | _ => false end.

(** ** The builder *)

Record LeafBuilder := mk_builder {
  lb_leaves : list Leaf;
  lb_pending : list bytes;
  lb_spilled : nat;
  lb_alloc : Z }.

Definition builder_default (alloc : Z) : LeafBuilder := mk_builder [] [] 0 alloc.

Definition seal (b : LeafBuilder) : LeafBuilder :=
  match lb_pending b with
  | [] => b
  | p => mk_builder (lb_leaves b ++ [mk_leaf (lb_alloc b) p]) [] (lb_spilled b) (lb_alloc b + 1)
  end.

Definition push (b : LeafBuilder) (key : bytes) : LeafBuilder :=
  let cut := cut_after key (Z.of_nat (length (lb_pending b)) + 1) in
  let b' := mk_builder (lb_leaves b) (lb_pending b ++ [key]) (lb_spilled b) (lb_alloc b) in
  if cut then seal b' else b'.

Definition push_all (b : LeafBuilder) (keys : list bytes) : LeafBuilder := fold_left push keys b.

Definition push_change (b : LeafBuilder) (key : option bytes) : LeafBuilder :=
  match key with Some key => push b key | None => b end.

Definition begin_dirty (b : LeafBuilder) : LeafBuilder :=
  mk_builder (lb_leaves b) (lb_pending b) 0 (lb_alloc b).

Definition carry (b : LeafBuilder) (leaf : Leaf) : LeafBuilder :=
  match lb_pending b with
  | [] => mk_builder (lb_leaves b ++ [leaf]) [] 0 (lb_alloc b)
  | _ =>
      if (RESYNC_LEAF_LIMIT <=? lb_spilled b)%nat then
        let b := seal b in
        mk_builder (lb_leaves b ++ [leaf]) (lb_pending b) 0 (lb_alloc b)
      else
        push_all (mk_builder (lb_leaves b) (lb_pending b) (S (lb_spilled b)) (lb_alloc b))
          (leaf_keys leaf)
  end.

(** [finish]: the leaves, and the allocator after them. *)
Definition finish (b : LeafBuilder) : Segment * Z :=
  let b := seal b in (mk_segment (lb_leaves b), lb_alloc b).

(** ** Building *)

Definition from_keys (keys : list bytes) (alloc : Z) : Segment * Z :=
  finish (push_all (builder_default alloc) keys).

Definition from_sorted (order : IndexOrder) (datoms : list Datom) (alloc : Z) : Segment * Z :=
  finish (fold_left (fun b d => push b (datom_key d order)) datoms (builder_default alloc)).

Definition build (order : IndexOrder) (datoms : list Datom) (alloc : Z) : Segment * Z :=
  let by_fact := fold_left (fun m d =>
    let key := datom_key d order in om_insert (key_components key) key m) datoms [] in
  from_keys (map snd by_fact) alloc.

(** ** Reading *)

Definition seek (s : Segment) (key : bytes) : list bytes :=
  let leaf_idx := partition_point
    (fun l => is_none_or (last (leaf_keys l)) (fun k => (k <? key)%corium)) (leaves s) in
  let entry_idx := match leaves s !! leaf_idx with
    | Some l => partition_point (fun entry => (entry <? key)%corium) (leaf_keys l)
    | None => 0%nat
    end in
  match drop leaf_idx (leaves s) with
  | [] => []
  | l :: ls => drop entry_idx (leaf_keys l) ++ concat (map leaf_keys ls)
  end.

(** ** Folding a transaction tail *)

(** A pending net change: the fact and its replacement key, if it ends asserted. *)
Notation change := (bytes * option bytes)%type.

(** [while pending[cursor].fact < bound]: gap insertions. *)
Fixpoint drain (bound : bytes) (b : LeafBuilder) (pending : list change)
    : LeafBuilder * list change :=
  match pending with
  | [] => (b, [])
  | (fact, key) :: rest =>
      if (fact <? bound)%corium then drain bound (push_change b key) rest else (b, pending)
  end.

(** The per-key loop of a rebuilt leaf. *)
Fixpoint rebuild (keys : list bytes) (b : LeafBuilder) (pending : list change)
    : LeafBuilder * list change :=
  match keys with
  | [] => (b, pending)
  | key :: keys =>
      let fact := key_components key in
      let '(b, pending) := drain fact b pending in
      match pending with
      | (pending_fact, k) :: rest =>
          match cmp pending_fact fact with
          | Eq => rebuild keys (push_change b k) rest
          | _ => rebuild keys (push b key) pending
          end
      | [] => rebuild keys (push b key) pending
      end
  end.

Fixpoint apply_leaves (ls : list Leaf) (b : LeafBuilder) (pending : list change)
    : LeafBuilder * list change :=
  match ls with
  | [] => (b, pending)
  | leaf :: ls =>
      match head (leaf_keys leaf), last (leaf_keys leaf) with
      | Some first, Some final =>
          let '(b, pending) := drain (key_components first) b pending in
          let touched := is_some_and (head pending)
            (fun p => (p.1 <=? key_components final)%corium) in
          let followed := match ls with [] => false | _ => true end ||
            existsb (fun p => is_some p.2) pending in
          if negb touched && (is_closed leaf || negb followed)
          then apply_leaves ls (carry b leaf) pending
          else
            let '(b, pending) := rebuild (leaf_keys leaf) (begin_dirty b) pending in
            apply_leaves ls b pending
      | _, _ => apply_leaves ls b pending
      end
  end.

(** The tail collapsed to one net change per fact. *)
Definition fold_changes (order : IndexOrder) (changes : list Datom) : list change :=
  fold_left (fun m d =>
    let key := datom_key d order in
    om_insert (key_components key) (then_some (d_added d) key) m) changes [].

Definition apply_borrowed (s : Segment) (order : IndexOrder) (changes : list Datom) (alloc : Z)
    : Segment * Z :=
  match fold_changes order changes with
  | [] => (s, alloc)
  | pending =>
      let '(b, rest) := apply_leaves (leaves s) (builder_default alloc) pending in
      finish (fold_left (fun b p => push_change b p.2) rest b)
  end.

(** ** Retained history *)

Fixpoint drain_history (bound : bytes) (b : LeafBuilder) (pending : list bytes)
    : LeafBuilder * list bytes :=
  match pending with
  | [] => (b, [])
  | key :: rest =>
      if (key <? bound)%corium then drain_history bound (push b key) rest else (b, pending)
  end.

Fixpoint rebuild_history (keys : list bytes) (b : LeafBuilder) (pending : list bytes)
    : LeafBuilder * list bytes :=
  match keys with
  | [] => (b, pending)
  | key :: keys =>
      let '(b, pending) := drain_history key b pending in
      let pending := match pending with
        | inserted :: rest => if bool_decide (inserted = key) then rest else pending
        | [] => []
        end in
      rebuild_history keys (push b key) pending
  end.

Fixpoint history_leaves (ls : list Leaf) (b : LeafBuilder) (pending : list bytes)
    : LeafBuilder * list bytes :=
  match ls with
  | [] => (b, pending)
  | leaf :: ls =>
      match head (leaf_keys leaf), last (leaf_keys leaf) with
      | Some first, Some final =>
          let '(b, pending) := drain_history first b pending in
          let touched := is_some_and (head pending) (fun k => (k <=? final)%corium) in
          let followed := match ls with [] => false | _ => true end ||
            match pending with [] => false | _ => true end in
          if negb touched && (is_closed leaf || negb followed)
          then history_leaves ls (carry b leaf) pending
          else
            let b := if touched then begin_dirty b else b in
            let '(b, pending) := rebuild_history (leaf_keys leaf) b pending in
            history_leaves ls b pending
      | _, _ => history_leaves ls b pending
      end
  end.

Definition insert_history_ref (s : Segment) (order : IndexOrder) (datoms : list Datom)
    (alloc : Z) : Segment * Z :=
  match os_of_list (map (fun d => datom_key d order) datoms) with
  | [] => (s, alloc)
  | pending =>
      let '(b, rest) := history_leaves (leaves s) (builder_default alloc) pending in
      finish (push_all b rest)
  end.

(** ** Sharing *)

(** The two-cursor walk of [shared_key_count]; each step consumes a key. *)
Fixpoint shared_keys (mine : list bytes) : list bytes -> nat :=
  fix walk (theirs : list bytes) : nat :=
    match mine, theirs with
    | kl :: mine', kr :: theirs' =>
        match cmp kl kr with
        | Lt => shared_keys mine' theirs
        | Gt => walk theirs'
        | Eq => S (shared_keys mine' theirs')
        end
    | _, _ => 0%nat
    end.

Definition shared_key_count (s older : Segment) : nat :=
  shared_keys (segment_keys s) (segment_keys older).

Definition shared_leaf_count (s older : Segment) : nat :=
  let old := map leaf_id (leaves older) in
  length (List.filter (fun l => bool_decide (leaf_id l ∈ old)) (leaves s)).

(** ** What the builder has built *)

Definition built (b : LeafBuilder) : list bytes :=
  concat (map leaf_keys (lb_leaves b)) ++ lb_pending b.

Lemma built_seal b : built (seal b) = built b.
Proof.
  unfold seal, built. destruct (lb_pending b) eqn:E; [by rewrite E|]. simpl.
  by rewrite map_app, concat_app, app_nil_r; simpl; rewrite app_nil_r.
Qed.

Lemma built_push b key : built (push b key) = built b ++ [key].
Proof.
  unfold push. destruct cut_after; rewrite ?built_seal; unfold built; simpl; by rewrite app_assoc.
Qed.

Lemma built_push_all b keys : built (push_all b keys) = built b ++ keys.
Proof.
  unfold push_all. revert b. induction keys as [|k keys IH]; intros b; simpl.
  - by rewrite app_nil_r.
  - by rewrite IH, built_push, <- app_assoc.
Qed.

Lemma built_push_change b f c :
  built (push_change b c) = built b ++ map snd (change_list (f, c) : list (bytes * bytes)).
Proof. destruct c; simpl; [apply built_push|by rewrite app_nil_r]. Qed.

Lemma built_push_changes (ps : list change) b :
  built (fold_left (fun b p => push_change b p.2) ps b) =
  built b ++ map snd (flat_map change_list ps).
Proof.
  revert b. induction ps as [|[f c] ps IH]; intros b; simpl; [by rewrite app_nil_r|].
  by rewrite IH, (built_push_change _ f), map_app, app_assoc.
Qed.

Lemma built_carry b leaf : built (carry b leaf) = built b ++ leaf_keys leaf.
Proof.
  unfold carry. destruct (lb_pending b) eqn:E.
  - unfold built. rewrite E. simpl. by rewrite map_app, concat_app; simpl; rewrite !app_nil_r.
  - destruct (_ <=? _)%nat.
    + rewrite <- (built_seal b). unfold built, seal. rewrite E. simpl.
      rewrite !map_app, !concat_app. simpl. by rewrite !app_nil_r.
    + rewrite built_push_all. unfold built. simpl. by rewrite E.
Qed.

Lemma keys_finish b : segment_keys (finish b).1 = built b.
Proof.
  rewrite <- built_seal. unfold finish, built, segment_keys. simpl.
  unfold seal. destruct (lb_pending b) eqn:E; simpl; [by rewrite E, app_nil_r|].
  by rewrite app_nil_r.
Qed.

(** Keys with the prefix each is placed by: its fact in a current segment, the whole key
    in a history segment. *)
Definition placed (f : bytes -> bytes) (keys : list bytes) : list (bytes * bytes) :=
  map (fun key => (f key, key)) keys.

Lemma placed_snd f keys : map snd (placed f keys) = keys.
Proof. unfold placed. rewrite map_map. apply map_id. Qed.

Lemma placed_app f l k : placed f (l ++ k) = placed f l ++ placed f k.
Proof. apply map_app. Qed.

Lemma placed_cons f k l : placed f (k :: l) = (f k, k) :: placed f l.
Proof. done. Qed.

Notation by_fact := (placed key_components).

(** The result so far followed by the merge of what remains is what each step of
    [apply_borrowed] keeps constant. *)
Notation outlook b m ps := (built b ++ map snd (om_overlay m ps)).

Lemma drain_outlook bound v m b ps b' ps' :
  drain bound b ps = (b', ps') ->
  outlook b' ((bound, v) :: m) ps' = outlook b ((bound, v) :: m) ps /\
  suffix ps' ps /\ (forall p q, ps' = p :: q -> cmp p.1 bound <> Lt).
Proof.
  revert b. induction ps as [|[f c] ps IH]; intros b; cbn [drain].
  - intros [= <- <-]. split_and!; [done|done|by intros].
  - destruct (cmp f bound) eqn:E; intros Hd.
    1,3: injection Hd as <- <-; split_and!; [done|done|];
      intros ?? [= <- <-]; simpl; by rewrite E.
    apply IH in Hd as (-> & Hs & Hh). split_and!; [|by apply suffix_cons_r|done].
    rewrite (built_push_change _ f), <- app_assoc, <- map_app, (om_overlay_cons _ _ _ (f, c)).
    cbn [fst]. by rewrite E.
Qed.

Lemma rebuild_outlook keys m b ps b' ps' :
  rebuild keys b ps = (b', ps') ->
  outlook b' m ps' = outlook b (by_fact keys ++ m) ps /\ suffix ps' ps.
Proof.
  revert b ps. induction keys as [|key keys IH]; intros b ps; cbn [rebuild].
  { by intros [= <- <-]. }
  cbn zeta. destruct (drain _ b ps) as [b1 ps1] eqn:Hd. 
  rewrite placed_cons. cbn [app].
  apply (drain_outlook _ key (by_fact keys ++ m)) in Hd as (<- & Hs & Hh).
  destruct ps1 as [|[f c] ps1].
  - intros [-> Hs']%IH. split; [|by etrans].
    rewrite built_push, !om_overlay_nil_r, <- app_assoc. done.
  - specialize (Hh _ _ eq_refl). rewrite om_overlay_cons. cbn [fst] in *.
    destruct (cmp f _) eqn:E; [| done |]; intros [-> Hs']%IH.
    + split; [|etrans; [done|by eapply suffix_cons_l]].
      by rewrite (built_push_change _ f), <- app_assoc, <- map_app.
    + split; [|by etrans]. by rewrite built_push, <- app_assoc.
Qed.

Lemma suffix_wf {A B} `{Ord A} (l k : list (A * B)) : suffix l k -> om_wf k -> om_wf l.
Proof. intros [p ->]. unfold om_wf. induction p; simpl; [done|]. inversion 1; auto. Qed.

(** A leaf no pending change reaches. *)
Lemma untouched_above f (keys : list bytes) final rest (ps : list change) :
  om_wf (placed f keys ++ rest) -> om_wf ps -> last keys = Some final ->
  is_some_and (head ps) (fun p => (p.1 <=? f final)%corium) = false ->
  forall p k, In p ps -> In k (map fst (placed f keys)) -> cmp p.1 k = Gt.
Proof.
  intros Hk Hps Hl Ht p k Hp (q & <- & Hq)%in_map_iff. apply cmp_gt_lt.
  destruct ps as [|p0 ps]; [done|]. simpl in Ht.
  assert (cmp (f final) p0.1 = Lt) as H0.
  { apply cmp_gt_lt. by destruct (cmp p0.1 _). }
  assert (cmp q.1 (f final) <> Gt) as H1.
  { apply last_Some in Hl as [keys' ->]. rewrite placed_app in *.
    apply in_app_iff in Hq as [Hq|[<-|[]]]; [|by simpl; rewrite cmp_refl].
    clear -Hk Hq. induction keys' as [|x l IH]; [done|]. simpl in Hk, Hq.
    apply om_wf_cons in Hk as [Hk Hx]. destruct Hq as [<-|Hq]; [|by apply IH].
    assert (cmp (f x) (f final) = Lt) as Hlt; [|by simpl; rewrite Hlt].
    apply (Hx (f final, final)). rewrite !in_app_iff. left; right; by left. }
  eapply cmp_le_lt_trans; [exact H1|].
  destruct Hp as [<-|Hp]; [done|]. eapply cmp_lt_trans; [exact H0|].
  apply om_wf_cons' in Hps as [_ Hps]. by apply Hps.
Qed.

Lemma om_wf_app_r {A B} `{Ord A} (l k : list (A * B)) : om_wf (l ++ k) -> om_wf k.
Proof. apply suffix_wf. by exists l. Qed.

Definition leaf_list_keys (ls : list Leaf) : list bytes := concat (map leaf_keys ls).

Lemma leaf_list_keys_cons l ls : leaf_list_keys (l :: ls) = leaf_keys l ++ leaf_list_keys ls.
Proof. done. Qed.

Lemma apply_leaves_outlook ls b ps b' ps' :
  om_wf (by_fact (leaf_list_keys ls)) -> om_wf ps ->
  apply_leaves ls b ps = (b', ps') ->
  outlook b' [] ps' = outlook b (by_fact (leaf_list_keys ls)) ps.
Proof.
  revert b ps. induction ls as [|leaf ls IH]; intros b ps Hwf Hps; [by intros [= <- <-]|].
  rewrite leaf_list_keys_cons, placed_app in *. cbn [apply_leaves].
  pose proof (om_wf_app_r _ _ Hwf) as Hwf'.
  destruct (leaf_keys leaf) as [|first keys] eqn:Ek; [by apply IH|].
  cbn [head]. destruct (last (first :: keys)) as [final|] eqn:El; [|by apply last_None in El].
  destruct (drain _ b ps) as [b1 ps1] eqn:Hd.
  apply (drain_outlook _ first (by_fact keys ++ by_fact (leaf_list_keys ls)))
    in Hd as (Hd & Hs & _).
  pose proof (suffix_wf _ _ Hs Hps) as Hps1.
  intros H.
  transitivity (outlook b1 (by_fact (first :: keys) ++ by_fact (leaf_list_keys ls)) ps1);
    [clear Hd|exact Hd]. revert H. cbn zeta.
  destruct (is_some_and (head ps1) _) eqn:Et; cbn [negb andb].
  2: destruct (is_closed leaf || _); cbn [negb andb].
  2: { intros ->%IH; [|done..]. rewrite built_carry, Ek, <- app_assoc. f_equal.
       rewrite (om_overlay_prefix (by_fact (first :: keys)) _ ps1).
       - by rewrite map_app, placed_snd.
       - eapply untouched_above; [exact Hwf|done..]. }
  all: destruct (rebuild _ _ ps1) as [b2 ps2] eqn:Hr;
    apply (rebuild_outlook _ (by_fact (leaf_list_keys ls))) in Hr as [Hr Hs2];
    intros ->%IH; [exact Hr|done|by eapply suffix_wf].
Qed.

(** The history walk is the same merge, of whole keys. *)
Definition inserts (ps : list bytes) : list change := map (fun key => (key, Some key)) ps.
Notation by_key := (placed (fun key => key)).

Lemma inserts_snd ps : map snd (flat_map change_list (inserts ps)) = ps.
Proof. induction ps as [|k ps IH]; simpl; [done|]. by f_equal. Qed.

Lemma inserts_wf ps : os_wf ps <-> om_wf (inserts ps).
Proof.
  unfold os_wf, om_wf, inserts. split.
  - induction 1 as [|k ps Hs IH Hk]; simpl; constructor; [done|].
    rewrite List.Forall_forall in *. intros q (x & <- & Hx)%in_map_iff. by apply Hk.
  - induction ps as [|k ps IH]; simpl; [constructor|]. inversion 1 as [|? ? Hs Hk]; subst.
    constructor; [by apply IH|]. rewrite List.Forall_forall in *. intros x Hx.
    apply (Hk (x, Some x)), in_map_iff. by exists x.
Qed.

Lemma drain_history_outlook bound m b ps b' ps' :
  drain_history bound b ps = (b', ps') ->
  outlook b' ((bound, bound) :: m) (inserts ps') = outlook b ((bound, bound) :: m) (inserts ps) /\
  suffix ps' ps /\ (forall p q, ps' = p :: q -> cmp p bound <> Lt).
Proof.
  revert b. induction ps as [|k ps IH]; intros b; cbn [drain_history].
  - intros [= <- <-]. split_and!; [done|done|by intros].
  - destruct (cmp k bound) eqn:E; intros Hd.
    1,3: injection Hd as <- <-; split_and!; [done|done|]; intros ?? [= <- <-]; by rewrite E.
    apply IH in Hd as (-> & Hs & Hh). split_and!; [|by apply suffix_cons_r|done].
    rewrite built_push, <- app_assoc. cbn [inserts map]. rewrite om_overlay_cons. cbn [fst].
    by rewrite E.
Qed.

Lemma rebuild_history_outlook keys m b ps b' ps' :
  rebuild_history keys b ps = (b', ps') ->
  outlook b' m (inserts ps') = outlook b (by_key keys ++ m) (inserts ps) /\ suffix ps' ps.
Proof.
  revert b ps. induction keys as [|key keys IH]; intros b ps; cbn [rebuild_history].
  { by intros [= <- <-]. }
  destruct (drain_history _ b ps) as [b1 ps1] eqn:Hd. rewrite placed_cons. cbn [app].
  apply (drain_history_outlook _ (by_key keys ++ m)) in Hd as (<- & Hs & Hh).
  destruct ps1 as [|k ps1].
  - intros [-> Hs']%IH. split; [|by etrans].
    change (inserts []) with (@nil change). by rewrite built_push, !om_overlay_nil_r, <- app_assoc.
  - specialize (Hh _ _ eq_refl). cbn zeta. cbn [inserts map]. rewrite om_overlay_cons.
    cbn [fst]. case_bool_decide as Heq.
    + subst k. rewrite cmp_refl. intros [-> Hs']%IH.
      split; [|etrans; [done|by eapply suffix_cons_l]]. by rewrite built_push, <- app_assoc.
    + destruct (cmp k key) eqn:E; [by apply cmp_eq_iff in E|done|].
      intros [-> Hs']%IH. split; [|by etrans]. by rewrite built_push, <- app_assoc.
Qed.

Lemma history_leaves_outlook ls b ps b' ps' :
  om_wf (by_key (leaf_list_keys ls)) -> os_wf ps ->
  history_leaves ls b ps = (b', ps') ->
  built b' ++ ps' = outlook b (by_key (leaf_list_keys ls)) (inserts ps).
Proof.
  revert b ps. induction ls as [|leaf ls IH]; intros b ps Hwf Hps; cbn [history_leaves].
  { intros [= <- <-]. cbn [leaf_list_keys placed map concat]. by rewrite om_overlay_nil_l, inserts_snd. }
  rewrite leaf_list_keys_cons, placed_app in *.
  pose proof (om_wf_app_r _ _ Hwf) as Hwf'.
  destruct (leaf_keys leaf) as [|first keys] eqn:Ek; [by apply IH|].
  cbn [head]. destruct (last (first :: keys)) as [final|] eqn:El; [|by apply last_None in El].
  destruct (drain_history _ b ps) as [b1 ps1] eqn:Hd.
  apply (drain_history_outlook _ (by_key keys ++ by_key (leaf_list_keys ls)))
    in Hd as (Hd & [pre Hs] & _).
  assert (os_wf ps1) as Hps1.
  { apply inserts_wf, (suffix_wf _ (inserts ps)); [|by apply inserts_wf].
    exists (inserts pre). subst ps. apply map_app. }
  intros H.
  transitivity (outlook b1 (by_key (first :: keys) ++ by_key (leaf_list_keys ls)) (inserts ps1));
    [clear Hd|exact Hd]. revert H. cbn zeta.
  destruct (is_some_and (head ps1) _) eqn:Et; cbn [negb andb].
  2: destruct (is_closed leaf || _); cbn [negb andb].
  2: { intros ->%IH; [|done..]. rewrite built_carry, Ek, <- app_assoc. f_equal.
       rewrite (om_overlay_prefix (by_key (first :: keys)) _ (inserts ps1)).
       - by rewrite map_app, placed_snd.
       - eapply untouched_above; [exact Hwf|by apply inserts_wf|done|]. by destruct ps1. }
  all: destruct (rebuild_history _ _ ps1) as [b2 ps2] eqn:Hr;
    apply (rebuild_history_outlook _ (by_key (leaf_list_keys ls))) in Hr as [Hr [pre2 Hs2]];
    intros ->%IH; [exact Hr|done|];
    apply inserts_wf, (suffix_wf _ (inserts ps1)); [|by apply inserts_wf];
    exists (inserts pre2); subst ps1; apply map_app.
Qed.

(** ** The current-value fold *)

(** The reference: one transaction datom at a time over the map of facts. *)
Definition fold_fact (order : IndexOrder) (m : list (bytes * bytes)) (d : Datom)
    : list (bytes * bytes) :=
  let key := datom_key d order in
  if d_added d then om_insert (key_components key) key m else om_remove (key_components key) m.

Lemma fold_facts_get order ds m0 (ps : list change) m f :
  (forall f, om_get f m = match om_get f ps with Some c => c | None => om_get f m0 end) ->
  om_get f (fold_left (fold_fact order) ds m) =
  match om_get f (fold_left (fun m d =>
    let key := datom_key d order in
    om_insert (key_components key) (then_some (d_added d) key) m) ds ps) with
  | Some c => c | None => om_get f m0 end.
Proof.
  revert m ps. induction ds as [|d ds IH]; intros m ps Hm; simpl; [apply Hm|].
  apply IH. intros f'. unfold fold_fact. cbn zeta. rewrite om_get_insert.
  destruct (d_added d); simpl; rewrite ?om_get_insert, ?om_get_remove;
    destruct (cmp f' _); auto.
Qed.

Lemma fold_changes_wf order ds : om_wf (fold_changes order ds).
Proof.
  unfold fold_changes. assert (om_wf (@nil change)) as Hw by apply om_wf_nil. revert Hw.
  generalize (@nil change). induction ds as [|d ds IH]; simpl; intros l Hl; [done|].
  by apply IH, om_insert_wf.
Qed.

Definition placed_ok (ps : list change) : Prop :=
  forall f key, In (f, Some key) ps -> f = key_components key.

Lemma fold_changes_placed order ds : placed_ok (fold_changes order ds).
Proof.
  unfold fold_changes. assert (placed_ok []) as Hw by (by intros ? ?). revert Hw.
  generalize (@nil change). induction ds as [|d ds IH]; simpl; intros l Hl; [done|].
  apply IH. intros f key [Hin|Hin]%In_om_insert; [|by apply Hl].
  destruct (d_added d); simpl in Hin; naive_solver.
Qed.

Lemma overlay_placed keys ps :
  placed_ok ps ->
  by_fact (map snd (om_overlay (by_fact keys) ps)) = om_overlay (by_fact keys) ps.
Proof.
  intros Hps. rewrite <- (map_id (om_overlay _ _)) at 2. unfold placed at 1.
  rewrite map_map. apply map_ext_in. intros [f key] [Hin|(p & Hp & Hin)]%om_overlay_In; simpl.
  - unfold placed in Hin. apply in_map_iff in Hin as (x & Hx & _). naive_solver.
  - destruct p as [f' [c|]]; simpl in Hin; [|done]. destruct Hin as [[= <- <-]|[]].
    f_equal. symmetry. by apply Hps.
Qed.

Lemma fold_facts_wf order ds m : om_wf m -> om_wf (fold_left (fold_fact order) ds m).
Proof.
  revert m. induction ds as [|d ds IH]; simpl; intros m Hm; [done|]. apply IH.
  unfold fold_fact. cbn zeta. destruct (d_added d); [by apply om_insert_wf|by apply om_remove_wf].
Qed.

(** The overlay of the folded tail is the fold of the tail. *)
Lemma overlay_fold_changes order ds m :
  om_wf m -> om_overlay m (fold_changes order ds) = fold_left (fold_fact order) ds m.
Proof.
  intros Hm. apply om_ext.
  - apply om_overlay_wf; [done|apply fold_changes_wf].
  - by apply fold_facts_wf.
  - intros f. rewrite om_get_overlay by (done || apply fold_changes_wf).
    symmetry. by apply fold_facts_get.
Qed.

Lemma apply_borrowed_fold s order ds alloc :
  om_wf (by_fact (segment_keys s)) ->
  by_fact (segment_keys (apply_borrowed s order ds alloc).1) =
  fold_left (fold_fact order) ds (by_fact (segment_keys s)).
Proof.
  intros Hs. rewrite <- overlay_fold_changes by done.
  rewrite <- overlay_placed by apply fold_changes_placed. f_equal.
  unfold apply_borrowed. pose proof (fold_changes_wf order ds) as Hw.
  destruct (fold_changes order ds) as [|p ps].
  { by rewrite om_overlay_nil_r, placed_snd. }
  destruct (apply_leaves _ _ _) as [b rest] eqn:Ha.
  apply apply_leaves_outlook in Ha; [|done..].
  rewrite keys_finish, built_push_changes, <- om_overlay_nil_l, Ha. done.
Qed.

(** ** Builder invariants

    Outside [carry] and [begin_dirty] the walks only push. *)

Lemma push_all_app b l k : push_all b (l ++ k) = push_all (push_all b l) k.
Proof. apply fold_left_app. Qed.

Lemma push_change_pushes b c : exists ks, push_change b c = push_all b ks.
Proof. destruct c as [k|]; [by exists [k]|by exists []]. Qed.

Lemma drain_pushes bound b ps b' ps' :
  drain bound b ps = (b', ps') -> exists ks, b' = push_all b ks.
Proof.
  revert b. induction ps as [|[f c] ps IH]; intros b; cbn [drain].
  - intros [= <- <-]. by exists [].
  - destruct (cmp f bound); intros Hd; try (injection Hd as <- <-; by exists []).
    apply IH in Hd as [ks ->]. destruct (push_change_pushes b c) as [ks' ->].
    exists (ks' ++ ks). by rewrite push_all_app.
Qed.

Lemma rebuild_pushes keys b ps b' ps' :
  rebuild keys b ps = (b', ps') -> exists ks, b' = push_all b ks.
Proof.
  revert b ps. induction keys as [|key keys IH]; intros b ps; cbn [rebuild]; cbn zeta.
  { intros [= <- <-]. by exists []. }
  destruct (drain _ b ps) as [b1 ps1] eqn:Hd. apply drain_pushes in Hd as [ks1 ->].
  assert (forall c ps2, rebuild keys (push_change (push_all b ks1) c) ps2 = (b', ps') ->
    exists ks, b' = push_all b ks) as Hstep.
  { intros c ps2 [ks2 ->]%IH. destruct (push_change_pushes (push_all b ks1) c) as [ks ->].
    exists (ks1 ++ ks ++ ks2). by rewrite !push_all_app. }
  destruct ps1 as [|[f c] ps1]; [apply (Hstep (Some key))|].
  destruct (cmp f _); [apply Hstep|apply (Hstep (Some key))..].
Qed.

Lemma push_changes_pushes (ps : list change) b :
  exists ks, fold_left (fun b p => push_change b p.2) ps b = push_all b ks.
Proof.
  revert b. induction ps as [|[f c] ps IH]; intros b; simpl; [by exists []|].
  destruct (push_change_pushes b c) as [ks ->], (IH (push_all b ks)) as [ks' ->].
  exists (ks ++ ks'). by rewrite push_all_app.
Qed.

(** An invariant that survives sealing, pushing, dropping and carrying leaves survives
    [apply_borrowed].  [rest] is the part of the old segment still to come. *)
Lemma apply_leaves_inv (P : list Leaf -> LeafBuilder -> Prop) ls b ps b' ps' :
  (forall rest b key, P rest b -> P rest (push b key)) ->
  (forall l rest b, P (l :: rest) b -> P rest b) ->
  (forall rest b, P rest b -> P rest (begin_dirty b)) ->
  (forall l rest b, P (l :: rest) b -> P rest (carry b l)) ->
  P ls b -> apply_leaves ls b ps = (b', ps') -> P [] b'.
Proof.
  intros Hpush Hdrop Hdirty Hcarry.
  assert (forall rest b ks, P rest b -> P rest (push_all b ks)) as Hall.
  { intros rest b0 ks. revert b0. induction ks; intros b0 Hb; [done|]. by apply IHks, Hpush. }
  revert b ps. induction ls as [|l ls IH]; intros b ps Hb; cbn [apply_leaves].
  { by intros [= <- <-]. }
  destruct (head (leaf_keys l)); [|by apply IH, (Hdrop l)].
  destruct (last (leaf_keys l)); [|by apply IH, (Hdrop l)].
  destruct (drain _ b ps) as [b1 ps1] eqn:Hd. apply drain_pushes in Hd as [ks1 ->].
  cbn zeta. destruct (_ && _).
  - apply IH, Hcarry, Hall, Hb.
  - destruct (rebuild _ _ ps1) as [b2 ps2] eqn:Hr. apply rebuild_pushes in Hr as [ks2 ->].
    apply IH, Hall, Hdirty, (Hdrop l), Hall, Hb.
Qed.

(** *** Leaf identity *)

Definition ids_ok (s : Segment) (alloc : Z) : Prop :=
  NoDup (map leaf_id (leaves s)) /\ Forall (fun l => leaf_id l < alloc) (leaves s).

(** Every leaf so far is one of the old ones or was allocated from [alloc] on. *)
Record carrying (old : list Leaf) (alloc : Z) (rest : list Leaf) (b : LeafBuilder) : Prop := {
  ca_nodup : NoDup (map leaf_id (lb_leaves b ++ rest));
  ca_alloc : alloc <= lb_alloc b;
  ca_old : Forall (fun l => leaf_id l < lb_alloc b /\ (In l old \/ alloc <= leaf_id l)) (lb_leaves b);
  ca_rest : Forall (fun l => In l old /\ leaf_id l < alloc) rest }.

Lemma carrying_seal old alloc rest b : carrying old alloc rest b -> carrying old alloc rest (seal b).
Proof.
  intros [Hn Ha Ho Hr]. unfold seal. destruct (lb_pending b); [by split|].
  split; simpl; [|lia| |done].
  - rewrite <- app_assoc, map_app. simpl. rewrite map_app in Hn.
    apply NoDup_app in Hn as (H1 & H2 & H3). apply NoDup_app. split_and!; [done| |].
    + intros x Hx [->|Hx']%elem_of_cons; [|by eapply H2].
      apply list_elem_of_In, in_map_iff in Hx as (l' & Hx & Hl').
      rewrite List.Forall_forall in Ho. apply Ho in Hl' as [Hl' _]. unfold leaf_id in *; simpl in *; lia.
    + constructor; [|done]. intros (l' & Hl' & Hin)%list_elem_of_In%in_map_iff.
      rewrite List.Forall_forall in Hr. apply Hr in Hin as [_ Hin].
      unfold leaf_id in *; simpl in *; lia.
  - apply Forall_app. split; [|repeat constructor; unfold leaf_id; simpl; lia].
    eapply Forall_impl; [exact Ho|]. intros l' [? ?]. split; [lia|done].
Qed.

Lemma carrying_push old alloc rest b key :
  carrying old alloc rest b -> carrying old alloc rest (push b key).
Proof.
  intros [Hn Ha Ho Hr]. unfold push. destruct (cut_after _ _); [apply carrying_seal|]; by split.
Qed.

Lemma carrying_keep old alloc l rest b spilled :
  carrying old alloc (l :: rest) b ->
  carrying old alloc rest (mk_builder (lb_leaves b ++ [l]) (lb_pending b) spilled (lb_alloc b)).
Proof.
  intros [Hn Ha Ho Hr]. apply Forall_cons in Hr as [[Hl Hl'] Hr].
  split; simpl; [by rewrite <- app_assoc|done| |done].
  apply Forall_app. split; [done|]. apply List.Forall_cons; [|constructor]. split; [lia|by left].
Qed.

Lemma carrying_drop old alloc l rest b : carrying old alloc (l :: rest) b -> carrying old alloc rest b.
Proof.
  intros [Hn Ha Ho Hr]. apply Forall_cons in Hr as [_ Hr]. split; [|done..].
  rewrite map_app in *. simpl in Hn. apply NoDup_app in Hn as (H1 & H2 & H3).
  apply NoDup_cons in H3 as [_ H3]. apply NoDup_app. split_and!; [done| |done].
  intros x Hx Hx'. eapply H2; [done|]. by right.
Qed.

Lemma carrying_push_all old alloc rest b keys :
  carrying old alloc rest b -> carrying old alloc rest (push_all b keys).
Proof.
  unfold push_all. revert b. induction keys as [|k keys IH]; intros b Hb; simpl; [done|].
  by apply IH, carrying_push.
Qed.

Lemma carrying_carry old alloc l rest b :
  carrying old alloc (l :: rest) b -> carrying old alloc rest (carry b l).
Proof.
  intros Hb. unfold carry. destruct (lb_pending b) eqn:Ep.
  { rewrite <- Ep. by apply carrying_keep. }
  destruct (_ <=? _)%nat; [by apply carrying_keep, carrying_seal|].
  apply carrying_push_all. by apply carrying_drop in Hb as [Hn Ha Ho Hr].
Qed.

Lemma apply_borrowed_carrying s order ds alloc s' alloc' :
  ids_ok s alloc -> apply_borrowed s order ds alloc = (s', alloc') ->
  alloc <= alloc' /\ ids_ok s' alloc' /\
  (forall l, In l (leaves s') -> In l (leaves s) \/ alloc <= leaf_id l).
Proof.
  intros [Hn Ho]. unfold apply_borrowed. destruct (fold_changes order ds) as [|p ps].
  { intros [= <- <-]. split; [lia|]. split; [done|by left]. }
  destruct (apply_leaves _ _ _) as [b rest] eqn:Ha.
  apply (apply_leaves_inv (carrying (leaves s) alloc)) in Ha;
    [|intros; by apply carrying_push|by apply carrying_drop|by intros ?? []
     |by apply carrying_carry|].
  2: { split; simpl; [done|lia|constructor|]. rewrite List.Forall_forall in *. auto. }
  destruct (push_changes_pushes rest b) as [ks ->]. intros [= <- <-].
  pose proof (carrying_seal _ _ _ _ (carrying_push_all _ _ _ _ ks Ha)) as [Hn' Ha' Ho' _].
  rewrite app_nil_r in Hn'. rewrite List.Forall_forall in Ho'. split; [done|]. split.
  - split; [done|]. apply List.Forall_forall. intros l Hl. by apply Ho'.
  - intros l Hl. by apply Ho'.
Qed.

(** *** Leaf sizes *)

Definition leaf_sized (l : Leaf) : Prop :=
  (0 < length (leaf_keys l))%nat /\ Z.of_nat (length (leaf_keys l)) <= CHUNK_MAX_ENTRIES.

Definition sized (rest : list Leaf) (b : LeafBuilder) : Prop :=
  Forall leaf_sized (lb_leaves b) /\ Z.of_nat (length (lb_pending b)) < CHUNK_MAX_ENTRIES /\
  Forall leaf_sized rest.

Lemma seal_sized rest b :
  Forall leaf_sized (lb_leaves b) -> Z.of_nat (length (lb_pending b)) <= CHUNK_MAX_ENTRIES ->
  Forall leaf_sized rest -> sized rest (seal b).
Proof.
  intros Hl Hp Hr. unfold seal. destruct (lb_pending b) eqn:E.
  - unfold sized. by rewrite E.
  - split; simpl; [|done]. apply Forall_app. split; [done|]. apply List.Forall_cons; [|done].
    split; simpl in *; lia.
Qed.

Lemma push_sized rest b key : sized rest b -> sized rest (push b key).
Proof.
  intros (Hl & Hp & Hr). unfold push. destruct (cut_after _ _) eqn:E.
  - apply seal_sized; simpl; [done| |done]. rewrite length_app. simpl. lia.
  - split_and!; simpl; [done| |done]. rewrite length_app. simpl.
    destruct (Z.le_gt_cases CHUNK_MAX_ENTRIES (Z.of_nat (length (lb_pending b)) + 1)) as [Hm|];
      [|lia]. by rewrite (cut_after_max key _ Hm) in E.
Qed.

Lemma push_all_sized rest b keys : sized rest b -> sized rest (push_all b keys).
Proof.
  unfold push_all. revert b. induction keys as [|k keys IH]; intros b Hb; simpl; [done|].
  by apply IH, push_sized.
Qed.

Lemma sized_drop l rest b : sized (l :: rest) b -> sized rest b.
Proof. intros (Hl & Hp & Hr). apply Forall_cons in Hr as [_ Hr]. done. Qed.

Lemma carry_sized l rest b : sized (l :: rest) b -> sized rest (carry b l).
Proof.
  intros Hb. pose proof Hb as (Hl & Hp & [Hsz Hr]%Forall_cons). unfold carry.
  assert (forall b1 sp, sized rest b1 ->
    sized rest (mk_builder (lb_leaves b1 ++ [l]) (lb_pending b1) sp (lb_alloc b1))) as Hkeep.
  { intros b1 sp (H1 & H2 & _). split_and!; simpl; [|done..].
    apply Forall_app. split; [done|]. by apply List.Forall_cons. }
  apply sized_drop in Hb. destruct (lb_pending b) eqn:Ep.
  { rewrite <- Ep. by apply Hkeep. }
  destruct (_ <=? _)%nat.
  - apply Hkeep, seal_sized; rewrite ?Ep; [done|lia|done].
  - by apply push_all_sized.
Qed.

Lemma apply_borrowed_sized s order ds alloc :
  Forall leaf_sized (leaves s) -> Forall leaf_sized (leaves (apply_borrowed s order ds alloc).1).
Proof.
  intros Hs. unfold apply_borrowed. destruct (fold_changes order ds) as [|p ps]; [done|].
  destruct (apply_leaves _ _ _) as [b rest] eqn:Ha.
  apply (apply_leaves_inv sized) in Ha;
    [|intros; by apply push_sized|by apply sized_drop|by intros ??|by apply carry_sized
     |by split_and!].
  destruct (push_changes_pushes rest b) as [ks ->].
  pose proof (push_all_sized _ _ ks Ha) as (H1 & H2 & _).
  apply (seal_sized [] (push_all b ks)); [done|lia|done].
Qed.

(** *** Chunking

    [chunks] is what pushing keys into an empty builder cuts; a builder is [canon] when
    it is where a fresh build of the same keys would be. *)

Definition shape (b : LeafBuilder) : list (list bytes) * list bytes :=
  (map leaf_keys (lb_leaves b), lb_pending b).

Definition chunks (keys : list bytes) : list (list bytes) * list bytes :=
  shape (push_all (builder_default 0) keys).

Definition fin (sh : list (list bytes) * list bytes) : list (list bytes) :=
  match sh.2 with [] => sh.1 | p => sh.1 ++ [p] end.

Definition canon (b : LeafBuilder) : Prop := shape b = chunks (built b).

(** A run with no cut before its last key, and whether it ends in one. *)
Definition tight (keys : list bytes) : Prop :=
  forall p k q, keys = p ++ k :: q -> q <> [] -> cut_after k (Z.of_nat (length p) + 1) = false.
Definition closed_run (keys : list bytes) : bool :=
  is_some_and (last keys) (fun key => cut_after key (Z.of_nat (length keys))).

Lemma fin_shape b : map leaf_keys (leaves (finish b).1) = fin (shape b).
Proof.
  unfold finish, fin, shape, seal. simpl. destruct (lb_pending b); simpl; [done|].
  by rewrite map_app.
Qed.

Lemma shape_push_eq b key :
  shape (push b key) =
  (if cut_after key (Z.of_nat (length (lb_pending b)) + 1)
   then (map leaf_keys (lb_leaves b) ++ [lb_pending b ++ [key]], [])
   else (map leaf_keys (lb_leaves b), lb_pending b ++ [key])).
Proof.
  unfold push. destruct (cut_after _ _); [|done]. unfold seal, shape. simpl.
  destruct (lb_pending b ++ [key]) eqn:E; [by destruct (lb_pending b)|]. simpl. by rewrite map_app.
Qed.

Lemma shape_push b b' key : shape b = shape b' -> shape (push b key) = shape (push b' key).
Proof. intros Hb. rewrite !shape_push_eq. unfold shape in Hb. injection Hb as -> ->. done. Qed.

Lemma canon_push b key : canon b -> canon (push b key).
Proof.
  unfold canon, chunks. intros Hb. rewrite built_push, push_all_app. by apply shape_push.
Qed.

Lemma canon_push_all b keys : canon b -> canon (push_all b keys).
Proof.
  revert b. induction keys as [|k keys IH]; intros b Hb; [done|]. by apply (IH (push b k)), canon_push.
Qed.

Lemma closed_run_snoc p key : closed_run (p ++ [key]) = cut_after key (Z.of_nat (length p) + 1).
Proof.
  unfold closed_run. rewrite last_snoc, length_app. simpl. f_equal. lia.
Qed.

Lemma is_closed_run l : is_closed l = closed_run (leaf_keys l).
Proof. done. Qed.

Lemma tight_prefix p q : tight (p ++ q) -> tight p.
Proof.
  intros Ht p' k q' -> Hq. apply (Ht p' k (q' ++ q)); [by rewrite <- app_assoc|].
  by destruct q'.
Qed.

(** Pushing a run with no interior cut behind a sealed boundary. *)
Lemma push_all_tight b keys :
  tight (lb_pending b ++ keys) -> closed_run (lb_pending b) = false ->
  shape (push_all b keys) =
  (if closed_run (lb_pending b ++ keys)
   then (map leaf_keys (lb_leaves b) ++ [lb_pending b ++ keys], [])
   else (map leaf_keys (lb_leaves b), lb_pending b ++ keys)).
Proof.
  induction keys as [|key keys IH] using rev_ind; intros Ht Hc.
  { rewrite !app_nil_r, Hc. done. }
  rewrite push_all_app. change (push_all ?x [key]) with (push x key).
  rewrite shape_push_eq. rewrite app_assoc in *. pose proof (tight_prefix _ _ Ht) as Ht'.
  specialize (IH Ht' Hc).
  assert (closed_run (lb_pending b ++ keys) = false) as Ho.
  { destruct keys as [|k keys] using rev_ind; [by rewrite app_nil_r|].
    rewrite app_assoc, closed_run_snoc. rewrite app_assoc in Ht.
    apply (Ht _ k [key]); [by rewrite <- app_assoc|done]. }
  rewrite Ho in IH. unfold shape in IH. injection IH as -> ->. by rewrite closed_run_snoc.
Qed.

(** What a fresh build cuts. *)
Lemma chunks_runs keys :
  let '(L, p) := chunks keys in
  Forall (fun l => tight l /\ closed_run l = true) L /\ tight p /\ closed_run p = false.
Proof.
  induction keys as [|key keys IH] using rev_ind.
  { unfold chunks; simpl. split_and!; [done| |done]. intros p k q E. by destruct p. }
  unfold chunks in *. rewrite push_all_app. change (push_all ?x [key]) with (push x key).
  rewrite shape_push_eq. set (b := push_all _ keys) in *.
  change (shape b) with (map leaf_keys (lb_leaves b), lb_pending b) in IH. cbn beta iota zeta in IH.
  destruct IH as (HL & Hp & Hc).
  assert (tight (lb_pending b ++ [key])) as Ht.
  { intros p k q E Hq. destruct q as [|x q _] using rev_ind; [done|].
    rewrite app_comm_cons, app_assoc in E. apply app_inj_tail in E as [E ->].
    destruct q as [|y q]; [|by apply (Hp p k (y :: q))].
    rewrite E in Hc. by rewrite closed_run_snoc in Hc. }
  destruct (cut_after _ _) eqn:E; cbv beta iota zeta; split_and!; try done.
  - apply Forall_app. split; [done|]. apply List.Forall_cons; [|done].
    split; [done|]. by rewrite closed_run_snoc.
  - intros p k q Ep. by destruct p.
  - by rewrite closed_run_snoc.
Qed.

(** A leaf list as a fresh build leaves it: all but the last leaf closed. *)
Fixpoint canonical (ls : list Leaf) : Prop :=
  match ls with
  | [] => True
  | l :: ls => leaf_keys l <> [] /\ tight (leaf_keys l) /\
               (ls <> [] -> is_closed l = true) /\ canonical ls
  end.

Definition as_rebuilt (s : Segment) : Prop :=
  map leaf_keys (leaves s) = map leaf_keys (leaves (from_keys (segment_keys s) 0).1).

Lemma fin_canonical (ls : list Leaf) L p :
  map leaf_keys ls = fin (L, p) ->
  Forall (fun l => tight l /\ closed_run l = true) L -> tight p -> canonical ls.
Proof.
  intros E HL Hp. revert L E HL. induction ls as [|l ls IH]; intros L E HL; [done|].
  destruct L as [|x L].
  - unfold fin in E. simpl in E. destruct p as [|y p]; [done|]. injection E as E1 E2.
    destruct ls; [|done]. simpl. rewrite E1. done.
  - apply Forall_cons in HL as [[Hx Hc] HL].
    assert (fin (x :: L, p) = x :: fin (L, p)) as Hf by (unfold fin; by destruct p).
    rewrite Hf in E. injection E as E1 E2. simpl. rewrite is_closed_run, E1.
    split_and!; [by intros ->|done|done|by apply (IH L)].
Qed.

Lemma as_rebuilt_canonical s : as_rebuilt s -> canonical (leaves s).
Proof.
  unfold as_rebuilt, from_keys. rewrite fin_shape. intros E.
  pose proof (chunks_runs (segment_keys s)) as Hr.
  change (shape _) with (chunks (segment_keys s)) in E.
  destruct (chunks (segment_keys s)) as [L p]. destruct Hr as (HL & Hp & _).
  by eapply fin_canonical.
Qed.

Lemma canon_carry_closed b l :
  canon b -> lb_pending b = [] -> tight (leaf_keys l) -> is_closed l = true -> canon (carry b l).
Proof.
  unfold canon, chunks. intros Hb Hp Ht Hc. rewrite built_carry, push_all_app.
  set (b0 := push_all (builder_default 0) (built b)) in *.
  unfold shape in Hb. injection Hb as HL HP. rewrite Hp in HP.
  rewrite push_all_tight; rewrite <- ?HP; [|done..].
  cbn [app]. rewrite <- is_closed_run, Hc, <- HL. unfold carry. rewrite Hp. unfold shape. simpl.
  by rewrite map_app.
Qed.

(** Sealed for good: nothing more will be pushed, so an open last leaf is as it should be. *)
Definition fcanon (b : LeafBuilder) : Prop := fin (shape b) = fin (chunks (built b)).

Lemma fcanon_carry_open b l :
  canon b -> lb_pending b = [] -> leaf_keys l <> [] -> tight (leaf_keys l) -> fcanon (carry b l).
Proof.
  destruct (is_closed l) eqn:Hc.
  { intros. unfold fcanon. f_equal. by apply canon_carry_closed. }
  unfold fcanon, canon, chunks. intros Hb Hp Hn Ht. rewrite built_carry, push_all_app.
  set (b0 := push_all (builder_default 0) (built b)) in *.
  unfold shape in Hb. injection Hb as HL HP. rewrite Hp in HP.
  rewrite push_all_tight; rewrite <- ?HP; [|done..].
  cbn [app]. rewrite <- is_closed_run, Hc, <- HL. unfold carry. rewrite Hp. unfold shape, fin. simpl.
  rewrite map_app. simpl. by destruct (leaf_keys l).
Qed.

Lemma push_spilled b key : lb_spilled (push b key) = lb_spilled b.
Proof. unfold push, seal. destruct (cut_after _ _); [|done]. simpl. by destruct (_ ++ _). Qed.

Lemma push_all_spilled b keys : lb_spilled (push_all b keys) = lb_spilled b.
Proof.
  unfold push_all. revert b. induction keys as [|k keys IH]; intros b; simpl; [done|].
  by rewrite IH, push_spilled.
Qed.

Lemma canon_begin_dirty b : canon b -> canon (begin_dirty b).
Proof. done. Qed.

(** The state after the leaves are walked: in step with a fresh build, or finished. *)
Definition in_step (b : LeafBuilder) (ps : list change) : Prop :=
  canon b \/ (fcanon b /\ existsb (fun p => is_some p.2) ps = false).

Lemma apply_leaves_in_step ls b ps b' ps' :
  canonical ls -> canon b -> (lb_spilled b + length ls <= RESYNC_LEAF_LIMIT)%nat ->
  apply_leaves ls b ps = (b', ps') -> in_step b' ps'.
Proof.
  revert b ps. induction ls as [|l ls IH]; intros b ps Hls Hb Hsp; cbn [apply_leaves].
  { intros [= <- <-]. by left. }
  destruct Hls as (Hne & Ht & Hcl & Hls). simpl in Hsp.
  destruct (leaf_keys l) as [|first keys] eqn:Ek; [done|]. cbn [head].
  destruct (last (first :: keys)) as [final|] eqn:El; [|by apply last_None in El].
  destruct (drain _ b ps) as [b1 ps1] eqn:Hd. apply drain_pushes in Hd as [ks1 ->]. cbn zeta.
  pose proof (canon_push_all b ks1 Hb) as Hb1. pose proof (push_all_spilled b ks1) as Hs1.
  set (b1 := push_all b ks1) in *. destruct (_ && _) eqn:Ec.
  - apply andb_true_iff in Ec as [_ Hc]. destruct (lb_pending b1) eqn:Hp.
    + destruct (is_closed l) eqn:Hcl'.
      * apply IH; [done|apply canon_carry_closed; by rewrite ?Ek|].
        unfold carry. rewrite Hp. simpl. lia.
      * destruct ls; [|by rewrite Hcl in Hcl'].
        intros [= <- <-]. right. split; [apply fcanon_carry_open; by rewrite ?Ek|].
        by destruct (existsb _ ps1).
    + assert (carry b1 l = push_all (mk_builder (lb_leaves b1) (lb_pending b1)
        (S (lb_spilled b1)) (lb_alloc b1)) (leaf_keys l)) as ->.
      { unfold carry. rewrite Hp. destruct (Nat.leb_spec RESYNC_LEAF_LIMIT (lb_spilled b1)); [lia|done]. }
      apply IH; [done|by apply canon_push_all|]. rewrite push_all_spilled. simpl. lia.
  - destruct (rebuild _ _ ps1) as [b2 ps2] eqn:Hr. apply rebuild_pushes in Hr as [ks2 ->].
    apply IH; [done|by apply canon_push_all, canon_begin_dirty|]. rewrite push_all_spilled. simpl. lia.
Qed.

Lemma push_no_assertions (ps : list change) b :
  existsb (fun p => is_some p.2) ps = false -> fold_left (fun b p => push_change b p.2) ps b = b.
Proof.
  induction ps as [|[f [k|]] ps IH]; simpl; [done..|]. done.
Qed.

Lemma apply_borrowed_as_rebuilt s order ds alloc :
  as_rebuilt s -> (length (leaves s) <= RESYNC_LEAF_LIMIT)%nat ->
  as_rebuilt (apply_borrowed s order ds alloc).1.
Proof.
  intros Hs Hlen. unfold apply_borrowed. destruct (fold_changes order ds) as [|p ps]; [done|].
  destruct (apply_leaves _ _ _) as [b rest] eqn:Ha.
  apply apply_leaves_in_step in Ha; [|by apply as_rebuilt_canonical|done|simpl; lia].
  unfold as_rebuilt, from_keys. rewrite keys_finish, !fin_shape.
  change (shape (push_all _ ?k)) with (chunks k).
  destruct Ha as [Ha|[Ha Hrest]].
  - destruct (push_changes_pushes rest b) as [ks ->].
    by rewrite (canon_push_all b ks Ha) at 1.
  - rewrite push_no_assertions by done. done.
Qed.

(** ** Sorted key streams *)

Lemma os_wf_app (l k : list bytes) :
  os_wf (l ++ k) -> os_wf l /\ os_wf k /\ (forall x y, In x l -> In y k -> cmp x y = Lt).
Proof.
  unfold os_wf. induction l as [|a l IH]; cbn [app].
  - intros Hk. split_and!; [constructor|done|by intros ? ? []].
  - inversion 1 as [|? ? Hs Ha]; subst. apply IH in Hs as (H1 & H2 & H3).
    rewrite List.Forall_forall in Ha. split_and!; [|done|].
    + constructor; [done|]. apply List.Forall_forall. intros x Hx. apply Ha, in_app_iff. by left.
    + intros x y [<-|Hx] Hy; [apply Ha, in_app_iff; by right|by apply H3].
Qed.

Lemma os_wf_last (l : list bytes) final k :
  os_wf l -> last l = Some final -> In k l -> cmp k final <> Gt.
Proof.
  intros Hl [l' ->]%last_Some Hk. apply os_wf_app in Hl as (_ & _ & Hl).
  apply in_app_iff in Hk as [Hk|[<-|[]]]; [|by rewrite cmp_refl].
  rewrite (Hl k final); [done|done|by left].
Qed.

Lemma by_key_wf keys : os_wf keys <-> om_wf (by_key keys).
Proof.
  unfold os_wf, om_wf, placed. induction keys as [|k ks IH]; simpl; [by split; constructor|].
  split; inversion 1 as [|? ? Hs Hk]; subst; constructor; try by apply IH.
  - rewrite List.Forall_forall in *. intros q (x & <- & Hx)%in_map_iff. by apply Hk.
  - rewrite List.Forall_forall in *. intros x Hx. apply (Hk (x, x)), in_map_iff. by exists x.
Qed.

Lemma insert_history_overlay s order ds alloc :
  os_wf (segment_keys s) ->
  segment_keys (insert_history_ref s order ds alloc).1 =
  map snd (om_overlay (by_key (segment_keys s))
    (inserts (os_of_list (map (fun d => datom_key d order) ds)))).
Proof.
  intros Hs. unfold insert_history_ref.
  pose proof (os_of_list_wf (map (fun d => datom_key d order) ds)) as Hw.
  destruct (os_of_list _) as [|p ps].
  { change (inserts []) with (@nil change). by rewrite om_overlay_nil_r, placed_snd. }
  destruct (history_leaves _ _ _) as [b rest] eqn:Ha.
  apply history_leaves_outlook in Ha; [|by apply by_key_wf|done].
  by rewrite keys_finish, built_push_all, Ha.
Qed.

Lemma overlay_by_key keys ps :
  by_key (map snd (om_overlay (by_key keys) (inserts ps))) = om_overlay (by_key keys) (inserts ps).
Proof.
  rewrite <- (map_id (om_overlay _ _)) at 2. unfold placed at 1.
  rewrite map_map. apply map_ext_in. intros [f key] [Hin|(p & Hp & Hin)]%om_overlay_In; simpl.
  - unfold placed in Hin. apply in_map_iff in Hin as (x & Hx & _). naive_solver.
  - unfold inserts in Hp. apply in_map_iff in Hp as (x & <- & _). simpl in Hin. naive_solver.
Qed.

Lemma by_key_In keys key : In (key, key) (by_key keys) <-> In key keys.
Proof.
  unfold placed. rewrite in_map_iff. split; [intros (x & [= -> _] & Hx); done|by exists key].
Qed.

Lemma insert_history_union s order ds alloc :
  os_wf (segment_keys s) ->
  let s' := (insert_history_ref s order ds alloc).1 in
  os_wf (segment_keys s') /\
  (forall key, In key (segment_keys s') <->
    In key (segment_keys s) \/ exists d, In d ds /\ key = datom_key d order).
Proof.
  intros Hs s'. subst s'. rewrite insert_history_overlay by done.
  set (ps := os_of_list _).
  assert (om_wf (by_key (segment_keys s))) as Hk by (by apply by_key_wf).
  assert (om_wf (inserts ps)) as Hp by apply inserts_wf, os_of_list_wf.
  split; [apply by_key_wf; rewrite overlay_by_key; by apply om_overlay_wf|].
  intros key. rewrite <- by_key_In, overlay_by_key, om_In_iff by (by apply om_overlay_wf).
  rewrite om_get_overlay by done.
  assert (In key ps <-> exists d, In d ds /\ key = datom_key d order) as <-.
  { unfold ps. rewrite os_of_list_In, in_map_iff. naive_solver. }
  rewrite <- by_key_In, om_In_iff by done.
  assert (In key ps <-> om_get key (inserts ps) = Some (Some key)) as ->.
  { rewrite <- om_In_iff by done. unfold inserts. rewrite in_map_iff. naive_solver. }
  assert (forall c, om_get key (inserts ps) = Some c -> c = Some key) as Hc.
  { intros c Hc%om_get_In. unfold inserts in Hc. apply in_map_iff in Hc as (x & [= -> <-] & _). done. }
  destruct (om_get key (inserts ps)) as [c|]; [rewrite (Hc c) by done|]; naive_solver.
Qed.

Lemma seek_leaf key (l : list bytes) :
  os_wf l ->
  drop (partition_point (fun entry => (entry <? key)%corium) l) l =
  List.filter (fun k => (key <=? k)%corium) l.
Proof.
  intros Hl. rewrite (drop_partition_point_filter _ olt) by
    (done || (unfold olt; intros x y Hxy Hy; destruct (cmp y key) eqn:E; try done;
      by rewrite (cmp_lt_trans _ _ _ Hxy E))).
  apply List.filter_ext. intros k. rewrite (cmp_antisym k key). by destruct (cmp k key).
Qed.

Lemma shared_keys_cons x l y k :
  shared_keys (x :: l) (y :: k) =
  match cmp x y with
  | Lt => shared_keys l (y :: k)
  | Gt => shared_keys (x :: l) k
  | Eq => S (shared_keys l k)
  end.
Proof. done. Qed.

Lemma os_mem_lt x (k : list bytes) : (forall y, In y k -> cmp x y = Lt) -> os_mem x k = false.
Proof.
  intros Hk. destruct (os_mem x k) eqn:E; [|done]. apply os_mem_In, Hk in E. by ord_norm.
Qed.

Lemma shared_keys_count (l k : list bytes) :
  os_wf l -> os_wf k -> shared_keys l k = length (List.filter (fun x => os_mem x k) l).
Proof.
  intros Hl. revert k. induction Hl as [|x l Hl IHl Hx]; intros k Hk; [by destruct k|].
  rewrite List.Forall_forall in Hx.
  induction Hk as [|y k Hk IHk Hy].
  { simpl. by rewrite filter_all_false. }
  rewrite List.Forall_forall in Hy. rewrite shared_keys_cons.
  assert (forall z, cmp y z = Lt -> os_mem z (y :: k) = os_mem z k) as Hskip.
  { intros z Hz. simpl. by rewrite (proj2 (cmp_gt_lt z y) Hz). }
  destruct (cmp x y) eqn:E.
  - apply cmp_eq_iff in E as ->. cbn [List.filter os_mem]. rewrite cmp_refl. cbn [length]. f_equal.
    rewrite IHl by done. f_equal. apply filter_ext_in. intros z Hz. symmetry. by apply Hskip, Hx.
  - cbn [List.filter]. rewrite os_mem_lt, IHl; [done|by constructor; [|apply List.Forall_forall]|].
    intros z [<-|Hz]; [done|]. eapply cmp_lt_trans; [exact E|by apply Hy].
  - rewrite IHk. f_equal. apply filter_ext_in. intros z Hz. symmetry. apply Hskip.
    apply cmp_gt_lt in E. destruct Hz as [<-|Hz]; [done|]. eapply cmp_lt_trans; [exact E|by apply Hx].
Qed.

(** ** Theorems *)

(** [Segment::apply] is the current-value fold: walking the leaves with a cursor and
    rebuilding only those the tail touches gives exactly the fact map obtained by
    inserting each asserted datom's key and removing each retracted fact, one datom at a
    time, and the result is again sorted with one key per fact.  Leaf sizes stay within
    [1 .. CHUNK_MAX_ENTRIES]. *)
Theorem apply_borrowed_spec s order ds alloc :
  om_wf (by_fact (segment_keys s)) -> Forall leaf_sized (leaves s) ->
  let s' := (apply_borrowed s order ds alloc).1 in
  by_fact (segment_keys s') = fold_left (fold_fact order) ds (by_fact (segment_keys s)) /\
  om_wf (by_fact (segment_keys s')) /\
  Forall leaf_sized (leaves s').
Proof.
  intros Hs Hl s'. subst s'. rewrite apply_borrowed_fold by done.
  split_and!; [done|by apply fold_facts_wf|by apply apply_borrowed_sized].
Qed.

Definition sample_tail : list Datom :=
  [ mk_datom 1 10 (Value.Long 5) 2 false; mk_datom 1 10 (Value.Long 6) 2 true;
    mk_datom 3 10 (Value.Long 7) 2 true ].
Definition sample_segment : Segment :=
  (from_sorted Eavt [ mk_datom 1 10 (Value.Long 5) 1 true; mk_datom 2 10 (Value.Long 9) 1 true ] 0).1.

Lemma sample_sized : Forall leaf_sized (leaves sample_segment).
Proof.
  assert (exists l, leaves sample_segment = [l] /\ length (leaf_keys l) = 2%nat)
    as (l & -> & Hl) by (eexists; by vm_compute).
  apply List.Forall_cons; [|constructor]. unfold leaf_sized, CHUNK_MAX_ENTRIES. rewrite Hl. lia.
Qed.

Lemma apply_borrowed_spec_witness :
  let s' := (apply_borrowed sample_segment Eavt sample_tail 1).1 in
  by_fact (segment_keys s') =
    fold_left (fold_fact Eavt) sample_tail (by_fact (segment_keys sample_segment)) /\
  om_wf (by_fact (segment_keys s')) /\ Forall leaf_sized (leaves s').
Proof.
  apply apply_borrowed_spec.
  - vm_compute. repeat constructor.
  - apply sample_sized.
Defined.

(** Incremental chunking agrees with a rebuild: starting from leaves cut as a fresh
    build cuts them, applying a tail gives the leaves a fresh build of the resulting keys
    would cut, as long as the segment has no more leaves than a rebuilt run may spill
    through ([RESYNC_LEAF_LIMIT]), so the published chunks depend on the keys alone. *)
Theorem apply_borrowed_chunks s order ds alloc :
  as_rebuilt s -> (length (leaves s) <= RESYNC_LEAF_LIMIT)%nat ->
  as_rebuilt (apply_borrowed s order ds alloc).1.
Proof. apply apply_borrowed_as_rebuilt. Qed.

Lemma apply_borrowed_chunks_witness :
  as_rebuilt (apply_borrowed sample_segment Eavt sample_tail 1).1.
Proof. apply apply_borrowed_chunks; [by vm_compute|vm_compute; lia]. Defined.

(** Leaf identity is sound for reuse: every leaf of the new segment is either one of
    the old leaves, carried by handle, or freshly allocated; ids stay distinct; hence a new
    leaf whose id matches an old leaf's is that leaf, with the same keys. *)
Theorem apply_leaf_identity s order ds alloc s' alloc' :
  ids_ok s alloc -> apply_borrowed s order ds alloc = (s', alloc') ->
  alloc <= alloc' /\ ids_ok s' alloc' /\
  (forall l l0, In l (leaves s') -> In l0 (leaves s) -> leaf_id l = leaf_id l0 -> l = l0).
Proof.
  intros Hs Ha. pose proof Hs as [Hn Hb].
  apply (apply_borrowed_carrying s) in Ha as (? & ? & Hor); [|done]. split_and!; [done..|].
  intros l l0 Hl Hl0 E. apply Hor in Hl as [Hl|Hl].
  - clear -Hn Hl Hl0 E. induction (leaves s) as [|x ls IH]; [done|]. simpl in Hn.
    apply NoDup_cons in Hn as [Hx Hn]. rewrite list_elem_of_In, in_map_iff in Hx.
    destruct Hl as [->|Hl], Hl0 as [->|Hl0]; [done|exfalso; eauto..|by apply IH].
  - rewrite List.Forall_forall in Hb. specialize (Hb _ Hl0). lia.
Qed.

Lemma apply_leaf_identity_witness :
  let '(s', alloc') := apply_borrowed sample_segment Eavt sample_tail 1 in
  1 <= alloc' /\ ids_ok s' alloc' /\
  (forall l l0, In l (leaves s') -> In l0 (leaves sample_segment) ->
    leaf_id l = leaf_id l0 -> l = l0).
Proof.
  destruct (apply_borrowed sample_segment Eavt sample_tail 1) as [s' alloc'] eqn:E.
  eapply apply_leaf_identity; [|exact E].
  split; [|vm_compute; repeat constructor]. vm_compute. constructor; [|constructor].
  by intros Hin%elem_of_nil.
Defined.

(** [insert_history_ref] is the sorted union of the segment's keys with the keys of the
    new datoms: nothing is lost, a later statement of a fact is a further entry, and
    re-inserting the same datoms changes nothing. *)
Theorem insert_history_spec s order ds alloc :
  os_wf (segment_keys s) ->
  let s' := (insert_history_ref s order ds alloc).1 in
  os_wf (segment_keys s') /\
  (forall key, In key (segment_keys s') <->
    In key (segment_keys s) \/ exists d, In d ds /\ key = datom_key d order) /\
  (forall alloc', segment_keys (insert_history_ref s' order ds alloc').1 = segment_keys s').
Proof.
  assert (forall s alloc, os_wf (segment_keys s) ->
    let s' := (insert_history_ref s order ds alloc).1 in
    os_wf (segment_keys s') /\
    (forall key, In key (segment_keys s') <->
      In key (segment_keys s) \/ exists d, In d ds /\ key = datom_key d order)) as Hmain.
  { clear s alloc. intros s alloc Hs s'. by apply insert_history_union. }
  intros Hs. cbn zeta. destruct (Hmain s alloc Hs) as [Hw Hin]. split_and!; [done..|].
  intros alloc'. destruct (Hmain _ alloc' Hw) as [Hw' Hin'].
  apply os_ext; [done..|]. intros key. rewrite Hin', Hin. naive_solver.
Qed.

Lemma insert_history_spec_witness :
  let s' := (insert_history_ref sample_segment Eavt sample_tail 1).1 in
  os_wf (segment_keys s') /\
  (forall key, In key (segment_keys s') <->
    In key (segment_keys sample_segment) \/
    exists d, In d sample_tail /\ key = datom_key d Eavt) /\
  (forall alloc', segment_keys (insert_history_ref s' Eavt sample_tail alloc').1 = segment_keys s').
Proof. apply insert_history_spec. vm_compute. repeat constructor. Defined.

(** [seek] positions by two binary searches and yields exactly the keys at or above the
    bound, in order. *)
Theorem seek_spec s key :
  os_wf (segment_keys s) -> Forall leaf_sized (leaves s) ->
  seek s key = List.filter (fun k => (key <=? k)%corium) (segment_keys s).
Proof.
  unfold seek, segment_keys. induction (leaves s) as [|l ls IH]; intros Hs Hl; [done|].
  apply Forall_cons in Hl as [[Hne _] Hl]. cbn [map concat partition_point] in *.
  pose proof (os_wf_app _ _ Hs) as (Hs1 & Hs2 & Hs12). rewrite List.filter_app.
  destruct (last (leaf_keys l)) as [final|] eqn:El.
  2: { apply last_None in El. rewrite El in Hne. simpl in Hne. lia. }
  cbn [is_none_or]. destruct (cmp final key) eqn:Ec; cbn [drop lookup list_lookup].
  1,3: rewrite (seek_leaf key (leaf_keys l)) by done; f_equal; symmetry; apply filter_all_true;
    intros k Hk; apply last_Some in El as [ks El];
    assert (cmp final k = Lt) as Hlt by (apply Hs12; [rewrite El, in_app_iff; right; by left|done]);
    assert (cmp key k = Lt) as ->; [|done]; ord_norm; subst; try done; by eapply cmp_lt_trans.
  rewrite (filter_all_false _ (leaf_keys l)).
  - rewrite <- IH by done. done.
  - intros k Hk. assert (cmp k key = Lt) as Hlt.
    { eapply cmp_le_lt_trans; [|exact Ec]. by apply (os_wf_last (leaf_keys l)). }
    by rewrite (proj2 (cmp_gt_lt key k) Hlt).
Qed.

Lemma seek_spec_witness :
  seek sample_segment (datom_key (mk_datom 2 0 (Value.Long 0) 0 false) Eavt) =
  List.filter (fun k => (datom_key (mk_datom 2 0 (Value.Long 0) 0 false) Eavt <=? k)%corium)
    (segment_keys sample_segment) /\
  length (seek sample_segment (datom_key (mk_datom 2 0 (Value.Long 0) 0 false) Eavt)) = 1%nat.
Proof.
  split; [apply seek_spec; [vm_compute; repeat constructor|apply sample_sized]|by vm_compute].
Defined.

(** [shared_key_count]'s single pass over two sorted streams counts the common keys. *)
Theorem shared_key_count_spec s older :
  os_wf (segment_keys s) -> os_wf (segment_keys older) ->
  shared_key_count s older =
  length (List.filter (fun k => os_mem k (segment_keys older)) (segment_keys s)).
Proof. apply shared_keys_count. Qed.

Lemma shared_key_count_spec_witness :
  let s' := (apply_borrowed sample_segment Eavt sample_tail 1).1 in
  shared_key_count s' sample_segment =
    length (List.filter (fun k => os_mem k (segment_keys sample_segment)) (segment_keys s')) /\
  shared_key_count s' sample_segment = 1%nat.
Proof. split; [apply shared_key_count_spec|]; vm_compute; repeat constructor. Defined.
