(* ===== verification/Schema.v ===== *)
(** * The schema cache (corium-core/src/schema.rs)

    Attribute records, protection classes and timelines, documentation and retirement,
    each in its own ordered map.  [ValueType] is in [Values]. *)

From stdpp Require Import base list strings sorting.
From Stdlib Require Import ZArith Lia.
From S2P Require Import Prelude OrdMap Machine Ids Values.
Local Open Scope Z_scope.

Module Cardinality.
Inductive Cardinality := One | Many.
End Cardinality.
Notation Cardinality := Cardinality.Cardinality.

Module Unique.
Inductive Unique := Identity | Value.
End Unique.
Notation Unique := Unique.Unique.

#[global] Instance cardinality_eq_dec : EqDecision Cardinality.
Proof. solve_decision. Defined.
#[global] Instance unique_eq_dec : EqDecision Unique.
Proof. solve_decision. Defined.

Record Attribute := mk_attribute {
  at_id : AttrId;
  value_type : ValueType;
  cardinality : Cardinality;
  unique : option Unique;
  is_component : bool;
  indexed : bool;
  no_history : bool }.

#[global] Instance attribute_eq_dec : EqDecision Attribute.
Proof. solve_decision. Defined.

Inductive SealAlgorithm := Aes256GcmSiv.

Module ProtectionScope.
Inductive ProtectionScope := Attribute | Entity.
End ProtectionScope.
Notation ProtectionScope := ProtectionScope.ProtectionScope.

Module MissingKeyPolicy.
Inductive MissingKeyPolicy := Redact | Hide | Error.
End MissingKeyPolicy.
Notation MissingKeyPolicy := MissingKeyPolicy.MissingKeyPolicy.

Module LegacyPlaintextPolicy.
Inductive LegacyPlaintextPolicy := Redact | PassThrough.
End LegacyPlaintextPolicy.
Notation LegacyPlaintextPolicy := LegacyPlaintextPolicy.LegacyPlaintextPolicy.

Definition FIRST_KEY_EPOCH : Z := 1.

Record ProtectionClass := mk_class {
  pc_id : EntityId;
  key_id : string;
  algorithm : SealAlgorithm;
  scope : ProtectionScope;
  padding : option Z;
  on_missing_key : MissingKeyPolicy;
  legacy_plaintext : LegacyPlaintextPolicy;
  current_epoch : Z }.

(** ** Protection timelines: [(t, class)] pairs *)

Notation ProtectionTimeline := (list (Z * option EntityId)).

Definition UNPROTECTED : ProtectionTimeline := [].
Definition protected_from (t : Z) (class : EntityId) : ProtectionTimeline := [(t, Some class)].

Definition last_class (entries : ProtectionTimeline) : option EntityId :=
  '(_, class) ← last entries; class.

Definition timeline_current (tl : ProtectionTimeline) : option EntityId := last_class tl.

Definition timeline_at (tl : ProtectionTimeline) (t : Z) : option EntityId :=
  last_class (take_while (fun '(entry_t, _) => (entry_t <=? t)%Z) tl).

Definition ever_protected (tl : ProtectionTimeline) : bool :=
  existsb (fun '(_, class) => is_some class) tl.

Definition timeline_classes (tl : ProtectionTimeline) : list EntityId :=
  filter_map (fun '(_, class) => class) tl.

Definition timeline_is_empty (tl : ProtectionTimeline) : bool :=
  match tl with [] => true | _ => false end.

(** ** The schema *)

Record Schema := mk_schema {
  sc_attrs : list (AttrId * Attribute);
  sc_classes : list (EntityId * ProtectionClass);
  sc_protection : list (AttrId * ProtectionTimeline);
  sc_docs : list (AttrId * string);
  sc_retired : list AttrId }.

Definition schema_default : Schema := mk_schema [] [] [] [] [].

Definition schema_insert (s : Schema) (attr : Attribute) : Schema :=
  mk_schema (om_insert (at_id attr) attr (sc_attrs s)) (sc_classes s) (sc_protection s)
    (sc_docs s) (sc_retired s).

Definition schema_get (s : Schema) (id : AttrId) : option Attribute := om_get id (sc_attrs s).

Definition schema_iter (s : Schema) : list (AttrId * Attribute) := sc_attrs s.

Definition insert_class (s : Schema) (class : ProtectionClass) : Schema :=
  mk_schema (sc_attrs s) (om_insert (pc_id class) class (sc_classes s)) (sc_protection s)
    (sc_docs s) (sc_retired s).

Definition schema_class (s : Schema) (id : EntityId) : option ProtectionClass :=
  om_get id (sc_classes s).

Definition set_protection (s : Schema) (attr : AttrId) (timeline : ProtectionTimeline) : Schema :=
  mk_schema (sc_attrs s) (sc_classes s)
    (if timeline_is_empty timeline then om_remove attr (sc_protection s)
     else om_insert attr timeline (sc_protection s))
    (sc_docs s) (sc_retired s).

Definition protection (s : Schema) (attr : AttrId) : ProtectionTimeline :=
  unwrap_or (om_get attr (sc_protection s)) UNPROTECTED.

Definition protection_class (s : Schema) (attr : AttrId) : option ProtectionClass :=
  c ← timeline_current (protection s attr); schema_class s c.

Definition is_protected (s : Schema) (attr : AttrId) : bool :=
  is_some (timeline_current (protection s attr)).

Definition set_doc (s : Schema) (attr : AttrId) (doc : option string) : Schema :=
  mk_schema (sc_attrs s) (sc_classes s) (sc_protection s)
    (match doc with
     | Some doc => om_insert attr doc (sc_docs s)
     | None => om_remove attr (sc_docs s)
     end) (sc_retired s).

Definition doc (s : Schema) (attr : AttrId) : option string := om_get attr (sc_docs s).

Definition set_retired (s : Schema) (attr : AttrId) (retired : bool) : Schema :=
  mk_schema (sc_attrs s) (sc_classes s) (sc_protection s) (sc_docs s)
    (if retired then os_insert attr (sc_retired s)
     else List.filter (fun a => negb (bool_decide (a = attr))) (sc_retired s)).

Definition is_retired (s : Schema) (attr : AttrId) : bool := os_mem attr (sc_retired s).

(** ** Facts *)

Definition ascending (tl : ProtectionTimeline) : Prop :=
  StronglySorted (fun p q => p.1 <= q.1) tl.

Lemma last_class_snoc tl t c : last_class (tl ++ [(t, c)]) = c.
Proof. unfold last_class. by rewrite last_snoc. Qed.

Lemma take_while_all {A} (p : A -> bool) l :
  (forall x, In x l -> p x = true) -> take_while p l = l.
Proof.
  induction l as [|x l IH]; intros Hl; [done|]. simpl. rewrite Hl by (by left).
  f_equal. apply IH. intros y Hy. apply Hl. by right.
Qed.

Lemma take_while_app_stop {A} (p : A -> bool) l x r :
  p x = false -> take_while p (l ++ x :: r) = take_while p l.
Proof.
  intros Hx. induction l as [|y l IH]; simpl; [by rewrite Hx|]. destruct (p y); [by f_equal|done].
Qed.

(** Appending at [t] leaves every earlier basis alone and becomes the answer from [t] on. *)
Lemma timeline_at_snoc tl t c t' :
  Forall (fun p => p.1 <= t) tl ->
  timeline_at (tl ++ [(t, c)]) t' = if (t <=? t')%Z then c else timeline_at tl t'.
Proof.
  intros Htl. unfold timeline_at. destruct (Z.leb_spec t t').
  - rewrite take_while_all; [by apply last_class_snoc|]. intros [u d] Hin.
    apply in_app_iff in Hin as [Hin|[[= <- <-]|[]]]; apply Z.leb_le; [|lia].
    rewrite List.Forall_forall in Htl. specialize (Htl _ Hin). simpl in Htl. lia.
  - f_equal. rewrite take_while_app_stop; [done|]. apply Z.leb_gt. lia.
Qed.

Lemma protection_set s a tl b :
  protection (set_protection s a tl) b = if bool_decide (b = a) then tl else protection s b.
Proof.
  unfold protection, set_protection. simpl. case_bool_decide as E.
  - subst. destruct tl; simpl; [by rewrite om_get_remove_eq|by rewrite om_get_insert_eq].
  - destruct tl; simpl; [by rewrite om_get_remove_ne|by rewrite om_get_insert_ne].
Qed.

Lemma schema_get_insert s attr id :
  schema_get (schema_insert s attr) id =
  if bool_decide (id = at_id attr) then Some attr else schema_get s id.
Proof.
  unfold schema_get, schema_insert. simpl. rewrite om_get_insert.
  case_bool_decide as E; [subst; by rewrite cmp_refl|].
  destruct (cmp id (at_id attr)) eqn:Ec; [|done..]. by apply cmp_eq_iff in Ec.
Qed.
