(* ===== verification/Bootstrap.v ===== *)
(** * Engine attributes (corium-db/src/bootstrap.rs)

    The vocabulary every database installs, the predicates that recognise it, and the
    [:db/txInstant] datom.  [Idents] (corium-db/src/lib.rs) is here because installation
    registers names in it. *)

From stdpp Require Import base list strings.
From Stdlib Require Import ZArith Lia.
From S2P Require Import Prelude OrdMap Machine Ids Keyword Values Encoding Datoms Schema.
Local Open Scope Z_scope.

(** ** [:db/ident] names *)

Record Idents := mk_idents {
  id_by_keyword : list (Keyword * EntityId);
  id_by_id : list (EntityId * Keyword) }.

Definition idents_default : Idents := mk_idents [] [].

Definition idents_insert (i : Idents) (keyword : Keyword) (id : EntityId) : Idents :=
  mk_idents (om_insert keyword id (id_by_keyword i)) (om_insert id keyword (id_by_id i)).

Definition entid (i : Idents) (keyword : Keyword) : option EntityId :=
  om_get keyword (id_by_keyword i).
Definition ident (i : Idents) (id : EntityId) : option Keyword := om_get id (id_by_id i).
Definition idents_iter (i : Idents) : list (Keyword * EntityId) := id_by_keyword i.

(** ** Ids of the engine attributes *)

Definition IDENT : AttrId := entity_new (partition_id Partition.Db) 10.
Definition VALUE_TYPE : AttrId := entity_new (partition_id Partition.Db) 40.
Definition CARDINALITY : AttrId := entity_new (partition_id Partition.Db) 41.
Definition UNIQUE : AttrId := entity_new (partition_id Partition.Db) 42.
Definition IS_COMPONENT : AttrId := entity_new (partition_id Partition.Db) 43.
Definition INDEX : AttrId := entity_new (partition_id Partition.Db) 44.
Definition NO_HISTORY : AttrId := entity_new (partition_id Partition.Db) 45.
Definition TX_INSTANT : AttrId := entity_new (partition_id Partition.Db) 50.
Definition DOC : AttrId := entity_new (partition_id Partition.Db) 62.
Definition SAGA_ID : AttrId := entity_new (partition_id Partition.Db) 63.
Definition SAGA_STATUS : AttrId := entity_new (partition_id Partition.Db) 64.
Definition SAGA_BASIS_T : AttrId := entity_new (partition_id Partition.Db) 65.
Definition SAGA_DESCRIPTION : AttrId := entity_new (partition_id Partition.Db) 66.
Definition SAGA_OWNER : AttrId := entity_new (partition_id Partition.Db) 67.
Definition SAGA_EXPIRES_AT : AttrId := entity_new (partition_id Partition.Db) 68.
Definition SAGA_ID_GRANTS : AttrId := entity_new (partition_id Partition.Db) 69.
Definition SAGA_FOOTPRINT : AttrId := entity_new (partition_id Partition.Db) 70.
Definition SAGA_RESERVES : AttrId := entity_new (partition_id Partition.Db) 71.
Definition SAGA_SEALED : AttrId := entity_new (partition_id Partition.Db) 72.
Definition SAGA_MERGED_TX : AttrId := entity_new (partition_id Partition.Db) 73.
Definition SAGA_STEPS : AttrId := entity_new (partition_id Partition.Db) 74.
Definition SAGA_CONFLICT_REPORT : AttrId := entity_new (partition_id Partition.Db) 75.
Definition SAGA_ON_ABORT_TX : AttrId := entity_new (partition_id Partition.Db) 76.
Definition SAGA_ON_ABORT_FN : AttrId := entity_new (partition_id Partition.Db) 77.
Definition SAGA_ON_ABORT_ERROR : AttrId := entity_new (partition_id Partition.Db) 78.
Definition SAGA_COMPENSATIONS : AttrId := entity_new (partition_id Partition.Db) 79.
Definition PROTECTION : AttrId := entity_new (partition_id Partition.Db) 80.
Definition RETIRED : AttrId := entity_new (partition_id Partition.Db) 81.
Definition SAGA_GUARD : AttrId := entity_new (partition_id Partition.Db) 82.
Definition SAGA_GRANT_PARTITION : AttrId := entity_new (partition_id Partition.Db) 83.
Definition SAGA_GRANT_START : AttrId := entity_new (partition_id Partition.Db) 84.
Definition SAGA_GRANT_LENGTH : AttrId := entity_new (partition_id Partition.Db) 85.
Definition SAGA_COMPENSATION_KEY : AttrId := entity_new (partition_id Partition.Db) 86.
Definition SAGA_COMPENSATION_STATUS : AttrId := entity_new (partition_id Partition.Db) 87.
Definition SAGA_COMPENSATION_DETAIL : AttrId := entity_new (partition_id Partition.Db) 88.
Definition SAGA_COMPENSATION_COMPLETED_AT : AttrId := entity_new (partition_id Partition.Db) 89.
Definition UPDATE_REQUESTER : AttrId := entity_new (partition_id Partition.Db) 90.
Definition UPDATE_DESIRED_DIGEST : AttrId := entity_new (partition_id Partition.Db) 91.
Definition UPDATE_PLAN_DIGEST : AttrId := entity_new (partition_id Partition.Db) 92.
Definition UPDATE_OBSERVED_BASIS : AttrId := entity_new (partition_id Partition.Db) 93.
Definition UPDATE_TOOL : AttrId := entity_new (partition_id Partition.Db) 94.
Definition UPDATE_CLASS : AttrId := entity_new (partition_id Partition.Db) 95.
Definition UPDATE_ACK : AttrId := entity_new (partition_id Partition.Db) 96.
Definition SAGA_COMPENSATION_ERROR : AttrId := entity_new (partition_id Partition.Db) 97.
Definition SAGA_TX_ID : AttrId := entity_new (partition_id Partition.Db) 98.
Definition SAGA_RETAIN_FOR : AttrId := entity_new (partition_id Partition.Db) 99.

(** ** The vocabulary *)

Definition tx_instant_ident : Keyword := keyword_new (Some "db"%string) "txInstant"%string.
Definition tx_instant_attribute : Attribute :=
  mk_attribute TX_INSTANT ValueType.Instant Cardinality.One None false true false.

(** [Keyword::new(Some(ns), name)]. *)
Definition kw (ns nm : string) : Keyword := keyword_new (Some ns) nm.

(** The [simple] closure and the functional updates of the table. *)
Definition simple (id : AttrId) (value_type : ValueType) : Attribute :=
  mk_attribute id value_type Cardinality.One None false false false.
Definition with_unique (u : Unique) (a : Attribute) : Attribute :=
  mk_attribute (at_id a) (value_type a) (cardinality a) (Some u) (is_component a) (indexed a) (no_history a).
Definition with_indexed (a : Attribute) : Attribute :=
  mk_attribute (at_id a) (value_type a) (cardinality a) (unique a) (is_component a) true (no_history a).
Definition with_many (a : Attribute) : Attribute :=
  mk_attribute (at_id a) (value_type a) Cardinality.Many (unique a) (is_component a) (indexed a) (no_history a).
Definition with_component (a : Attribute) : Attribute :=
  mk_attribute (at_id a) (value_type a) (cardinality a) (unique a) true (indexed a) (no_history a).

(** The table, in two parts. *)
Definition attributes_head : list (Keyword * Attribute) := [
  (kw "db" "ident", with_indexed (with_unique Unique.Identity (simple IDENT ValueType.Keyword)));
  (kw "db" "valueType", simple VALUE_TYPE ValueType.Keyword);
  (kw "db" "cardinality", simple CARDINALITY ValueType.Keyword);
  (kw "db" "unique", simple UNIQUE ValueType.Keyword);
  (kw "db" "isComponent", simple IS_COMPONENT ValueType.Bool);
  (kw "db" "index", simple INDEX ValueType.Bool);
  (kw "db" "noHistory", simple NO_HISTORY ValueType.Bool);
  (tx_instant_ident, tx_instant_attribute);
  (kw "db" "doc", simple DOC ValueType.Str);
  (kw "db.saga" "id", with_indexed (with_unique Unique.Identity (simple SAGA_ID ValueType.Uuid)));
  (kw "db.saga" "status", with_indexed (simple SAGA_STATUS ValueType.Keyword));
  (kw "db.saga" "basis-t", simple SAGA_BASIS_T ValueType.Long);
  (kw "db.saga" "description", simple SAGA_DESCRIPTION ValueType.Str);
  (kw "db.saga" "owner", simple SAGA_OWNER ValueType.Str);
  (kw "db.saga" "expires-at", with_indexed (simple SAGA_EXPIRES_AT ValueType.Instant));
  (kw "db.saga" "id-grants", with_component (with_many (simple SAGA_ID_GRANTS ValueType.Ref)));
  (kw "db.saga" "footprint", with_many (simple SAGA_FOOTPRINT ValueType.Ref));
  (kw "db.saga" "reserves", with_many (simple SAGA_RESERVES ValueType.Ref));
  (kw "db.saga" "sealed", simple SAGA_SEALED ValueType.Bool);
  (kw "db.saga" "merged-tx", simple SAGA_MERGED_TX ValueType.Ref);
  (kw "db.saga" "steps", simple SAGA_STEPS ValueType.Long);
  (kw "db.saga" "conflict-report", simple SAGA_CONFLICT_REPORT ValueType.Str);
  (kw "db.saga" "on-abort-tx", simple SAGA_ON_ABORT_TX ValueType.Str);
  (kw "db.saga" "on-abort-fn", simple SAGA_ON_ABORT_FN ValueType.Ref);
  (kw "db.saga" "on-abort-error", simple SAGA_ON_ABORT_ERROR ValueType.Str);
  (kw "db.saga" "compensations", with_component (with_many (simple SAGA_COMPENSATIONS ValueType.Ref)))
].

Definition attributes_tail : list (Keyword * Attribute) := [
  (kw "db" "protection", simple PROTECTION ValueType.Ref);
  (kw "db" "retired", simple RETIRED ValueType.Bool);
  (kw "db.saga" "guard", with_many (simple SAGA_GUARD ValueType.Str));
  (kw "db.saga" "tx-id", with_indexed (simple SAGA_TX_ID ValueType.Uuid));
  (kw "db.saga.grant" "partition", simple SAGA_GRANT_PARTITION ValueType.Long);
  (kw "db.saga.grant" "start", simple SAGA_GRANT_START ValueType.Long);
  (kw "db.saga.grant" "length", simple SAGA_GRANT_LENGTH ValueType.Long);
  (kw "db.saga.compensation" "key", simple SAGA_COMPENSATION_KEY ValueType.Str);
  (kw "db.saga.compensation" "status", simple SAGA_COMPENSATION_STATUS ValueType.Keyword);
  (kw "db.saga.compensation" "detail", simple SAGA_COMPENSATION_DETAIL ValueType.Str);
  (kw "db.saga.compensation" "completed-at", simple SAGA_COMPENSATION_COMPLETED_AT ValueType.Instant);
  (kw "db.schemaUpdate" "requester", simple UPDATE_REQUESTER ValueType.Str);
  (kw "db.schemaUpdate" "desiredDigest", simple UPDATE_DESIRED_DIGEST ValueType.Str);
  (kw "db.schemaUpdate" "planDigest", simple UPDATE_PLAN_DIGEST ValueType.Str);
  (kw "db.schemaUpdate" "observedBasis", simple UPDATE_OBSERVED_BASIS ValueType.Long);
  (kw "db.schemaUpdate" "tool", simple UPDATE_TOOL ValueType.Str);
  (kw "db.schemaUpdate" "class", with_many (simple UPDATE_CLASS ValueType.Str));
  (kw "db.schemaUpdate" "ack", with_many (simple UPDATE_ACK ValueType.Str));
  (kw "db.saga.compensation" "error", simple SAGA_COMPENSATION_ERROR ValueType.Str);
  (kw "db.saga" "retain-for", simple SAGA_RETAIN_FOR ValueType.Long)
].

Definition attributes : list (Keyword * Attribute) := attributes_head ++ attributes_tail.

Definition is_audit_attribute (a : AttrId) : bool :=
  bool_decide (a ∈ [UPDATE_REQUESTER; UPDATE_DESIRED_DIGEST; UPDATE_PLAN_DIGEST;
    UPDATE_OBSERVED_BASIS; UPDATE_TOOL; UPDATE_CLASS; UPDATE_ACK]).

Definition is_schema_attribute (a : AttrId) : bool :=
  bool_decide (a ∈ [IDENT; VALUE_TYPE; CARDINALITY; UNIQUE; IS_COMPONENT; INDEX; NO_HISTORY;
    DOC; PROTECTION; RETIRED]).

Definition install_schema (s : Schema) : Schema :=
  fold_left (fun s p => schema_insert s p.2) attributes s.

Definition install (s : Schema) (i : Idents) : Schema * Idents :=
  (install_schema s, fold_left (fun i p => idents_insert i p.1 (at_id p.2)) attributes i).

#[global] Arguments install_schema : simpl never.
#[global] Arguments install : simpl never.

(** ** Transaction instants *)

Definition tx_instant_datom (t : Z) (instant : Z) : Datom :=
  let tx := entity_new (partition_id Partition.Tx) t in
  mk_datom tx TX_INSTANT (Value.Instant instant) tx true.

Definition asserted_instant (t : Z) (datoms : list Datom) : option Z :=
  let tx := entity_new (partition_id Partition.Tx) t in
  fold_left (fun asserted d =>
    match d_v d with
    | Value.Instant instant =>
        if bool_decide (d_e d = tx) && bool_decide (d_a d = TX_INSTANT)
        then if d_added d then Some instant
             else if bool_decide (asserted = Some instant) then None else asserted
        else asserted
    | _ => asserted
    end) datoms None.

(** ** Facts *)

Record schema_wf (s : Schema) : Prop := {
  sw_attrs : om_wf (sc_attrs s);
  sw_ids : forall a attr, schema_get s a = Some attr -> at_id attr = a }.

Definition idents_wf (i : Idents) : Prop := om_wf (id_by_keyword i) /\ om_wf (id_by_id i).

Lemma schema_insert_wf s a : schema_wf s -> schema_wf (schema_insert s a).
Proof.
  intros [Hw Hi]. split; [by apply om_insert_wf|]. intros b attr.
  rewrite schema_get_insert. case_bool_decide as E; [by intros [= <-]|apply Hi].
Qed.

Lemma engine_ids_distinct : NoDup (map (fun p => at_id p.2) attributes).
Proof. apply (bool_decide_unpack _). by vm_compute. Qed.

Lemma engine_names_distinct : NoDup (map fst attributes).
Proof. apply (bool_decide_unpack _). by vm_compute. Qed.

Lemma install_schema_other l s id :
  id ∉ map (fun p => at_id p.2) l ->
  schema_get (fold_left (fun s (p : Keyword * Attribute) => schema_insert s p.2) l s) id = schema_get s id.
Proof.
  revert s. induction l as [|p l IH]; intros s Hid; [done|]. simpl in *.
  apply not_elem_of_cons in Hid as [Hne Hid]. rewrite IH by done.
  rewrite schema_get_insert. by case_bool_decide.
Qed.

Lemma install_schema_get l s p :
  NoDup (map (fun p => at_id p.2) l) -> In p l ->
  schema_get (fold_left (fun s (p : Keyword * Attribute) => schema_insert s p.2) l s) (at_id p.2) = Some p.2.
Proof.
  revert s. induction l as [|q l IH]; intros s Hn Hin; [done|]. simpl in *.
  apply NoDup_cons in Hn as [Hq Hn]. destruct Hin as [->|Hin]; [|by apply IH].
  rewrite install_schema_other by done. rewrite schema_get_insert. by rewrite bool_decide_true.
Qed.

Lemma install_schema_wf s : schema_wf s -> schema_wf (install_schema s).
Proof.
  unfold install_schema. generalize attributes. intros l. revert s.
  induction l as [|p l IH]; intros s Hs; simpl; [done|]. by apply IH, schema_insert_wf.
Qed.

Lemma install_schema_again s : schema_wf s -> install_schema (install_schema s) = install_schema s.
Proof.
  intros Hs. pose proof (install_schema_wf s Hs) as [Hw _].
  assert (forall p, In p attributes -> schema_get (install_schema s) (at_id p.2) = Some p.2) as Hall.
  { intros p Hp. by apply install_schema_get; [apply engine_ids_distinct|]. }
  revert Hall. generalize (install_schema s), Hw. unfold install_schema. generalize attributes.
  intros l s' Hs'. induction l as [|p l IH]; intros Hall; [done|]. simpl.
  rewrite <- IH at 2 by (intros; apply Hall; by right). f_equal.
  unfold schema_insert. rewrite om_insert_same; [by destruct s'|done|]. apply (Hall p). by left.
Qed.

Definition engine_names : list (Keyword * EntityId) := map (fun p => (p.1, at_id p.2)) attributes.
Definition engine_ids : list (EntityId * Keyword) := map (fun p => (at_id p.2, p.1)) attributes.

Lemma install_idents s i :
  (install s i).2 =
  mk_idents (fold_left (fun m p => om_insert p.1 p.2 m) engine_names (id_by_keyword i))
            (fold_left (fun m p => om_insert p.1 p.2 m) engine_ids (id_by_id i)).
Proof.
  unfold install, engine_names, engine_ids. cbn [snd]. generalize attributes. intros l. revert i.
  induction l as [|p l IH]; intros i; [by destruct i|]. simpl. by rewrite IH.
Qed.

Lemma engine_names_nodup : NoDup (map fst engine_names).
Proof. unfold engine_names. rewrite map_map. apply engine_names_distinct. Qed.
Lemma engine_ids_nodup : NoDup (map fst engine_ids).
Proof. unfold engine_ids. rewrite map_map. apply engine_ids_distinct. Qed.

Lemma engine_reserved k a :
  In (k, a) attributes -> partition (at_id a) = partition_id Partition.Db /\ sequence (at_id a) < 100.
Proof.
  intros Hin. assert (forallb (fun p => bool_decide (partition (at_id p.2) = partition_id Partition.Db) &&
    (sequence (at_id p.2) <? 100)%Z) attributes = true) as Hall by (by vm_compute).
  rewrite List.forallb_forall in Hall. apply Hall in Hin. cbn [snd] in Hin.
  apply andb_true_iff in Hin as [H1%bool_decide_eq_true H2%Z.ltb_lt]. done.
Qed.

Lemma engine_names_in k a : In (k, a) attributes -> In (k, at_id a) engine_names.
Proof. intros Hin. unfold engine_names. apply in_map_iff. by exists (k, a). Qed.
Lemma engine_ids_in k a : In (k, a) attributes -> In (at_id a, k) engine_ids.
Proof. intros Hin. unfold engine_ids. apply in_map_iff. by exists (k, a). Qed.

#[local] Opaque attributes engine_names engine_ids.

(** Installing the engine vocabulary: every engine attribute has its record and both
    directions of its name, in the reserved range of the db partition; every other
    attribute keeps its record; installing again changes nothing. *)
Theorem install_spec s i :
  schema_wf s -> idents_wf i ->
  let '(s', i') := install s i in
  schema_wf s' /\ install s' i' = (s', i') /\
  (forall k a, In (k, a) attributes ->
    schema_get s' (at_id a) = Some a /\ entid i' k = Some (at_id a) /\
    ident i' (at_id a) = Some k /\
    partition (at_id a) = partition_id Partition.Db /\ sequence (at_id a) < 100) /\
  (forall id, (forall k a, In (k, a) attributes -> at_id a <> id) ->
    schema_get s' id = schema_get s id).
Proof.
  intros Hs [Hk Hi]. rewrite (surjective_pairing (install s i)), install_idents. cbn [fst snd].
  set (m1 := fold_left _ engine_names _). set (m2 := fold_left _ engine_ids _).
  change (install s i).1 with (install_schema s).
  assert (forall k v, In (k, v) engine_names -> om_get k m1 = Some v) as H1.
  { intros. by apply om_get_fold_in; [apply engine_names_nodup|]. }
  assert (forall k v, In (k, v) engine_ids -> om_get k m2 = Some v) as H2.
  { intros. by apply om_get_fold_in; [apply engine_ids_nodup|]. }
  split_and!.
  - by apply install_schema_wf.
  - rewrite (surjective_pairing (install _ _)), install_idents. cbn [id_by_keyword id_by_id].
    change (install _ _).1 with (install_schema (install_schema s)).
    rewrite install_schema_again by done.
    rewrite !om_fold_again; [done|by apply om_fold_insert_wf|done|by apply om_fold_insert_wf|done].
  - intros k a Hin. split_and!; [| | |by eapply engine_reserved..].
    + apply (install_schema_get attributes s (k, a)); [apply engine_ids_distinct|done].
    + by apply H1, engine_names_in.
    + by apply H2, engine_ids_in.
  - intros id Hid. apply install_schema_other.
    intros (p & Hp & Hin)%list_elem_of_In%in_map_iff. destruct p as [k a]. by eapply Hid.
Qed.

Lemma install_spec_witness :
  let '(s', i') := install schema_default idents_default in
  schema_wf s' /\ install s' i' = (s', i') /\
  (forall k a, In (k, a) attributes ->
    schema_get s' (at_id a) = Some a /\ entid i' k = Some (at_id a) /\
    ident i' (at_id a) = Some k /\
    partition (at_id a) = partition_id Partition.Db /\ sequence (at_id a) < 100) /\
  (forall id, (forall k a, In (k, a) attributes -> at_id a <> id) ->
    schema_get s' id = schema_get schema_default id).
Proof. apply install_spec; split; try constructor. intros ? ? [=]. Defined.
