(* ===== verification/SchemaDatoms.v ===== *)
(** * Schema derived from datoms (corium-db/src/schemadatoms.rs)

    One transaction's schema datoms collapse to a final value per (entity, attribute)
    pair, and each pair updates the schema or the ident registry. *)

From stdpp Require Import base list strings sorting.
From Stdlib Require Import ZArith Lia.
From S2P Require Import Prelude OrdMap Machine Ids Keyword Values Encoding Datoms Schema.
From S2P Require Import Bootstrap.
Local Open Scope Z_scope.

Definition touches_naming (datoms : list Datom) : bool :=
  existsb (fun d => is_schema_attribute (d_a d)) datoms.

Definition changes_schema (datoms : list Datom) : bool :=
  existsb (fun d => is_schema_attribute (d_a d) &&
    bool_decide (partition (d_e d) = partition_id Partition.Db)) datoms.

Notation Resolved := (list ((EntityId * AttrId) * option Value)).

Definition resolve_step (resolved : Resolved) (d : Datom) : Resolved :=
  if negb (is_schema_attribute (d_a d)) then resolved
  else
    let slot := unwrap_or (om_get (d_e d, d_a d) resolved) None in
    let slot := if d_added d then Some (d_v d)
                else if bool_decide (slot = Some (d_v d)) then None else slot in
    om_insert (d_e d, d_a d) slot resolved.

Definition final_values (datoms : list Datom) : Resolved := fold_left resolve_step datoms [].

Definition value_type_of (keyword : Keyword) : option ValueType :=
  (if bool_decide (name keyword = "string") then Some ValueType.Str
   else if bool_decide (name keyword = "long") then Some ValueType.Long
   else if bool_decide (name keyword = "double") then Some ValueType.Double
   else if bool_decide (name keyword = "boolean") then Some ValueType.Bool
   else if bool_decide (name keyword = "instant") then Some ValueType.Instant
   else if bool_decide (name keyword = "uuid") then Some ValueType.Uuid
   else if bool_decide (name keyword = "keyword") then Some ValueType.Keyword
   else if bool_decide (name keyword = "bytes") then Some ValueType.Bytes
   else if bool_decide (name keyword = "ref") then Some ValueType.Ref
   else None)%string.

Definition cardinality_of (keyword : Keyword) : option Cardinality :=
  (if bool_decide (name keyword = "one") then Some Cardinality.One
   else if bool_decide (name keyword = "many") then Some Cardinality.Many
   else None)%string.

Definition unique_of (keyword : Keyword) : option Unique :=
  (if bool_decide (name keyword = "identity") then Some Unique.Identity
   else if bool_decide (name keyword = "value") then Some Unique.Value
   else None)%string.

(** The [keyword] closure of [derive]. *)
Definition keyword_value (interner : KeywordInterner) (value : Value) : option Keyword :=
  match value with Value.Keyword id => resolve interner id | _ => None end.

Definition is_true_value (value : option Value) : bool :=
  bool_decide (value = Some (Value.Bool true)).

(** The record a property is applied to when the entity has none yet. *)
Definition placeholder (entity : EntityId) : Attribute :=
  mk_attribute entity ValueType.Str Cardinality.One None false false false.

Definition set_value_type (r : Attribute) (t : ValueType) : Attribute :=
  mk_attribute (at_id r) t (cardinality r) (unique r) (is_component r) (indexed r) (no_history r).
Definition set_cardinality (r : Attribute) (c : Cardinality) : Attribute :=
  mk_attribute (at_id r) (value_type r) c (unique r) (is_component r) (indexed r) (no_history r).
Definition set_unique (r : Attribute) (u : option Unique) : Attribute :=
  mk_attribute (at_id r) (value_type r) (cardinality r) u (is_component r) (indexed r) (no_history r).
Definition set_component (r : Attribute) (b : bool) : Attribute :=
  mk_attribute (at_id r) (value_type r) (cardinality r) (unique r) b (indexed r) (no_history r).
Definition set_indexed (r : Attribute) (b : bool) : Attribute :=
  mk_attribute (at_id r) (value_type r) (cardinality r) (unique r) (is_component r) b (no_history r).
Definition set_no_history (r : Attribute) (b : bool) : Attribute :=
  mk_attribute (at_id r) (value_type r) (cardinality r) (unique r) (is_component r) (indexed r) b.

(** The record's part of the [match *attribute]: the record and whether it is installed. *)
Definition record_property (interner : KeywordInterner) (attribute : AttrId)
    (value : option Value) (record : Attribute) (installed : bool) : Attribute * bool :=
  if bool_decide (attribute = VALUE_TYPE) then
    match (value ≫= keyword_value interner) ≫= value_type_of with
    | Some value_type => (set_value_type record value_type, true)
    | None => (record, installed)
    end
  else if bool_decide (attribute = CARDINALITY) then
    match (value ≫= keyword_value interner) ≫= cardinality_of with
    | Some cardinality => (set_cardinality record cardinality, installed)
    | None => (record, installed)
    end
  else if bool_decide (attribute = UNIQUE) then
    (set_unique record
      (match value with
       | None => None
       | Some value =>
           match keyword_value interner value ≫= unique_of with
           | Some unique => Some unique
           | None => unique record
           end
       end), installed)
  else if bool_decide (attribute = INDEX) then (set_indexed record (is_true_value value), installed)
  else if bool_decide (attribute = IS_COMPONENT) then
    (set_component record (is_true_value value), installed)
  else if bool_decide (attribute = NO_HISTORY) then
    (set_no_history record (is_true_value value), installed)
  else (record, installed).

(** The schema tables' part of the same [match]. *)
Definition table_property (t : Z) (entity : EntityId) (attribute : AttrId)
    (value : option Value) (schema : Schema) : Schema :=
  if bool_decide (attribute = DOC) then
    set_doc schema entity (match value with Some (Value.Str doc) => Some doc | _ => None end)
  else if bool_decide (attribute = RETIRED) then set_retired schema entity (is_true_value value)
  else if bool_decide (attribute = PROTECTION) then
    let class := match value with Some (Value.Ref class) => Some class | _ => None end in
    let timeline := protection schema entity in
    if bool_decide (last_class timeline = class) then schema
    else set_protection schema entity (timeline ++ [(t, class)])
  else schema.

Definition derive_property (interner : KeywordInterner) (t : Z) (schema : Schema)
    (p : (EntityId * AttrId) * option Value) : Schema :=
  let '((entity, attribute), value) := p in
  if bool_decide (attribute = IDENT) then schema
  else
    let existing := schema_get schema entity in
    let record := unwrap_or existing (placeholder entity) in
    let '(record, installed) :=
      record_property interner attribute value record (is_some existing) in
    let schema := table_property t entity attribute value schema in
    let record := set_indexed record (indexed record || is_some (unique record)) in
    if installed then schema_insert schema record else schema.

Definition derive_name (interner : KeywordInterner) (idents : Idents)
    (p : (EntityId * AttrId) * option Value) : Idents :=
  let '((entity, attribute), value) := p in
  if bool_decide (attribute = IDENT) then
    match value ≫= keyword_value interner with
    | Some name => idents_insert idents name entity
    | None => idents
    end
  else idents.

Definition derive (schema : Schema) (idents : Idents) (interner : KeywordInterner) (t : Z)
    (datoms : list Datom) : Schema * Idents :=
  let resolved := final_values datoms in
  let idents := fold_left (derive_name interner) resolved idents in
  let schema := fold_left (derive_property interner t) resolved schema in
  (schema, idents).

#[global] Arguments derive_property : simpl never.
#[global] Arguments derive_name : simpl never.

(** ** Facts *)

Lemma resolve_step_wf m d : om_wf m -> om_wf (resolve_step m d).
Proof. intros Hm. unfold resolve_step. destruct (negb _); [done|]. by apply om_insert_wf. Qed.

Lemma final_values_wf datoms : om_wf (final_values datoms).
Proof.
  unfold final_values. assert (om_wf (K:=EntityId * AttrId) (V:=option Value) []) as Hm by apply om_wf_nil.
  revert Hm. generalize (@nil ((EntityId * AttrId) * option Value)).
  induction datoms as [|d ds IH]; intros m Hm; simpl; [done|]. by apply IH, resolve_step_wf.
Qed.

(** Every resolved pair comes from a schema datom. *)
Lemma final_values_from datoms e a v :
  In ((e, a), v) (final_values datoms) ->
  is_schema_attribute a = true /\ exists d, In d datoms /\ d_e d = e /\ d_a d = a.
Proof.
  unfold final_values.
  assert (forall m, In (e, a, v) (fold_left resolve_step datoms m) ->
    (exists v', In (e, a, v') m) \/
    (is_schema_attribute a = true /\ exists d, In d datoms /\ d_e d = e /\ d_a d = a)) as Hgen.
  { induction datoms as [|d ds IH]; intros m Hin; [left; by exists v|]. simpl in Hin.
    apply IH in Hin as [[v' Hin]|(Ha & d' & Hd' & ? & ?)].
    2: { right. split; [done|]. exists d'. split; [by right|done]. }
    unfold resolve_step in Hin. destruct (is_schema_attribute (d_a d)) eqn:Es; simpl in Hin.
    - apply In_om_insert in Hin as [[= -> -> _]|Hin]; [|left; by exists v'].
      right. split; [done|]. exists d. split; [by left|done].
    - left. by exists v'. }
  intros Hin. apply Hgen in Hin as [[? []]|Hin]. done.
Qed.

Lemma table_property_attrs t e a v s : sc_attrs (table_property t e a v s) = sc_attrs s.
Proof. unfold table_property. repeat case_bool_decide; done. Qed.

Lemma protection_insert s r a : protection (schema_insert s r) a = protection s a.
Proof. done. Qed.

(** *** Protection is forward-only *)

Definition class_of (value : option Value) : option EntityId :=
  match value with Some (Value.Ref class) => Some class | _ => None end.

Lemma table_property_protection t e a v s b :
  protection (table_property t e a v s) b =
  if bool_decide (a = PROTECTION) && bool_decide (b = e) then
    if bool_decide (last_class (protection s e) = class_of v) then protection s e
    else protection s e ++ [(t, class_of v)]
  else protection s b.
Proof.
  unfold table_property. case_bool_decide as E1; [subst; done|].
  case_bool_decide as E2; [subst; done|]. case_bool_decide as E3; [|done].
  fold (class_of v). case_bool_decide as E4; cbn [andb].
  - case_bool_decide as E5; [by subst|done].
  - rewrite protection_set. done.
Qed.

Lemma derive_property_protection i t s e a v b :
  protection (derive_property i t s ((e, a), v)) b =
  if bool_decide (a = PROTECTION) && bool_decide (b = e) then
    if bool_decide (last_class (protection s e) = class_of v) then protection s e
    else protection s e ++ [(t, class_of v)]
  else protection s b.
Proof.
  unfold derive_property. case_bool_decide as E; [subst; done|]. cbn zeta.
  destruct (record_property _ _ _ _ _) as [r []]; rewrite ?protection_insert;
    apply table_property_protection.
Qed.

Lemma ascending_snoc tl t c :
  Forall (fun p => p.1 <= t) tl -> Forall (fun p => p.1 <= t) (tl ++ [(t, c) : Z * option Z]).
Proof. intros Htl. apply Forall_app. split; [done|]. apply List.Forall_cons; [simpl; lia|done]. Qed.

(** What one step does to one attribute's timeline. *)
Record extends (t : Z) (old new : ProtectionTimeline) : Prop := {
  ex_prefix : old `prefix_of` new;
  ex_bound : Forall (fun p => p.1 <= t) new;
  ex_past : forall t', t' < t -> timeline_at new t' = timeline_at old t' }.

Lemma extends_refl t tl : Forall (fun p => p.1 <= t) tl -> extends t tl tl.
Proof. by split. Qed.

Lemma extends_trans t x y z : extends t x y -> extends t y z -> extends t x z.
Proof.
  intros [H1 _ H2] [H3 H4 H5]. split; [by etrans|done|].
  intros t' Ht'. by rewrite H5, H2.
Qed.

Lemma extends_snoc t tl c : Forall (fun p => p.1 <= t) tl -> extends t tl (tl ++ [(t, c)]).
Proof.
  intros Htl. split; [by exists [(t, c)]|by apply ascending_snoc|].
  intros t' Ht'. rewrite timeline_at_snoc by done. by rewrite (proj2 (Z.leb_gt t t')).
Qed.

Lemma derive_property_extends i t s p b :
  Forall (fun p => p.1 <= t) (protection s b) ->
  extends t (protection s b) (protection (derive_property i t s p) b).
Proof.
  destruct p as [[e a] v]. intros Hb. rewrite derive_property_protection.
  case_bool_decide; cbn [andb]; [|by apply extends_refl].
  case_bool_decide; [|by apply extends_refl]. subst e.
  case_bool_decide; [by apply extends_refl|by apply extends_snoc].
Qed.

Lemma derive_fold_extends i t l s b :
  Forall (fun p => p.1 <= t) (protection s b) ->
  extends t (protection s b) (protection (fold_left (derive_property i t) l s) b).
Proof.
  revert s. induction l as [|p l IH]; intros s Hb; simpl; [by apply extends_refl|].
  pose proof (derive_property_extends i t s p b Hb) as Hs.
  eapply extends_trans; [exact Hs|]. apply IH, Hs.
Qed.

Lemma derive_fold_protection_other i t l s b :
  ~ In (b, PROTECTION) (map fst l) ->
  protection (fold_left (derive_property i t) l s) b = protection s b.
Proof.
  revert s. induction l as [|[[e a] v] l IH]; intros s Hn; [done|]. simpl in *.
  rewrite IH by naive_solver. rewrite derive_property_protection.
  case_bool_decide; cbn [andb]; [|done]. case_bool_decide; [|done]. naive_solver.
Qed.

Lemma derive_fold_protection_current i t l s b v :
  NoDup (map fst l) -> In ((b, PROTECTION), v) l ->
  timeline_current (protection (fold_left (derive_property i t) l s) b) = class_of v.
Proof.
  revert s. induction l as [|[[e a] w] l IH]; intros s Hn Hin; [done|]. simpl in *.
  apply NoDup_cons in Hn as [Hx Hn]. destruct Hin as [[= -> -> ->]|Hin]; [|by apply IH].
  rewrite derive_fold_protection_other; [|by rewrite <- list_elem_of_In].
  rewrite derive_property_protection. rewrite !bool_decide_true by done. cbn [andb].
  unfold timeline_current. case_bool_decide as E; [done|by apply last_class_snoc].
Qed.

(** C38. Protection changes are forward-only: deriving a transaction at [t] keeps every
    attribute's timeline as a prefix, answers every earlier basis as before, and a
    transaction that states an attribute's protection leaves exactly that class (or none)
    current.  The timeline stays within the basis, so the next transaction can rely on
    the same. *)
Theorem derive_forward_only s i k t ds :
  (forall a, Forall (fun p => p.1 <= t) (protection s a)) ->
  let s' := (derive s i k t ds).1 in
  (forall a, protection s a `prefix_of` protection s' a /\
             Forall (fun p => p.1 <= t) (protection s' a) /\
             (forall t', t' < t -> timeline_at (protection s' a) t' = timeline_at (protection s a) t')) /\
  (forall a v, om_get (a, PROTECTION) (final_values ds) = Some v ->
     timeline_current (protection s' a) = class_of v) /\
  (forall a, om_get (a, PROTECTION) (final_values ds) = None -> protection s' a = protection s a).
Proof.
  intros Hs. cbn zeta. unfold derive. cbn [fst]. split_and!.
  - intros a. by destruct (derive_fold_extends k t (final_values ds) s a (Hs a)).
  - intros a v Hg. apply derive_fold_protection_current.
    + apply om_wf_NoDup, final_values_wf.
    + by apply om_get_In.
  - intros a Hg. apply derive_fold_protection_other. intros ([x v] & Hx & Hin)%in_map_iff.
    simpl in Hx. subst x. apply om_In_get in Hin; [|apply final_values_wf]. by rewrite Hg in Hin.
Qed.

Definition protect_tx : list Datom :=
  let a := entity_new (partition_id Partition.Db) 100 in
  [ mk_datom a PROTECTION (Value.Ref 7) 5 true ].

Lemma derive_forward_only_witness :
  let s' := (derive schema_default idents_default interner_default 5 protect_tx).1 in
  (forall a, protection schema_default a `prefix_of` protection s' a /\
             Forall (fun p => p.1 <= 5) (protection s' a) /\
             (forall t', t' < 5 ->
               timeline_at (protection s' a) t' = timeline_at (protection schema_default a) t')) /\
  (forall a v, om_get (a, PROTECTION) (final_values protect_tx) = Some v ->
     timeline_current (protection s' a) = class_of v) /\
  (forall a, om_get (a, PROTECTION) (final_values protect_tx) = None ->
     protection s' a = protection schema_default a).
Proof. apply derive_forward_only. intros a. constructor. Defined.

(** *** Order independence *)

Definition slot_step (acc : option (option Value)) (d : Datom) : option (option Value) :=
  let slot := unwrap_or acc None in
  Some (if d_added d then Some (d_v d) else if bool_decide (slot = Some (d_v d)) then None else slot).

Definition about (e : EntityId) (a : AttrId) (d : Datom) : bool :=
  bool_decide (d_e d = e) && bool_decide (d_a d = a).

Lemma final_values_slot ds e a :
  is_schema_attribute a = true ->
  om_get (e, a) (final_values ds) = fold_left slot_step (List.filter (about e a) ds) None.
Proof.
  intros Ha. unfold final_values.
  assert (forall m, om_get (e, a) (fold_left resolve_step ds m) =
    fold_left slot_step (List.filter (about e a) ds) (om_get (e, a) m)) as Hgen; [|apply Hgen].
  induction ds as [|d ds IH]; intros m; [done|]. cbn [fold_left List.filter]. rewrite IH. clear IH.
  assert (about e a d = false -> om_get (e, a) (resolve_step m d) = om_get (e, a) m) as Hother.
  { unfold resolve_step, about. destruct (is_schema_attribute (d_a d)); [|done]. cbn [negb].
    intros Hd. apply om_get_insert_ne. intros [= -> ->]. by rewrite !bool_decide_true in Hd. }
  destruct (about e a d) eqn:Eb; [|by rewrite Hother].
  apply andb_true_iff in Eb as [E1%bool_decide_eq_true E2%bool_decide_eq_true]. subst.
  cbn [fold_left]. f_equal. unfold resolve_step. rewrite Ha. cbn [negb]. by rewrite om_get_insert_eq.
Qed.

(** No pair is given two values, and no fact is both asserted and retracted. *)
Definition clean (ds : list Datom) : Prop :=
  forall d d', In d ds -> In d' ds -> d_e d = d_e d' -> d_a d = d_a d' -> d_added d = true ->
    if d_added d' then d_v d' = d_v d else d_v d' <> d_v d.

(** Assertion wins, otherwise the pair is cleared. *)
Definition pair_value (ds : list Datom) : option (option Value) :=
  match ds with
  | [] => None
  | _ => Some (match List.filter d_added ds with d :: _ => Some (d_v d) | [] => None end)
  end.

Lemma slot_fold_none ds acc :
  (forall d, In d ds -> d_added d = false) -> unwrap_or acc None = None ->
  unwrap_or (fold_left slot_step ds acc) None = None /\
  (ds <> [] -> fold_left slot_step ds acc <> None).
Proof.
  revert acc. induction ds as [|d ds IH]; intros acc Hd Hacc; [done|]. simpl.
  assert (unwrap_or (slot_step acc d) None = None) as Hs.
  { unfold slot_step. simpl. rewrite (Hd d) by (by left). rewrite Hacc. by case_bool_decide. }
  destruct (IH (slot_step acc d)) as [H1 H2]; [intros; apply Hd; by right|done|].
  split; [done|]. intros _. destruct ds; [done|by apply H2].
Qed.

Lemma slot_fold_some ds v acc :
  (forall d, In d ds -> if d_added d then d_v d = v else d_v d <> v) -> unwrap_or acc None = Some v ->
  unwrap_or (fold_left slot_step ds acc) None = Some v.
Proof.
  revert acc. induction ds as [|d ds IH]; intros acc Hd Hacc; [done|]. simpl.
  apply IH; [intros; apply Hd; by right|]. unfold slot_step. simpl. rewrite Hacc.
  specialize (Hd d (or_introl eq_refl)). destruct (d_added d); [by rewrite Hd|].
  case_bool_decide; [naive_solver|done].
Qed.

Lemma slot_fold_clean (ds : list Datom) :
  (forall d d', In d ds -> In d' ds -> d_added d = true ->
    if d_added d' then d_v d' = d_v d else d_v d' <> d_v d) ->
  fold_left slot_step ds None = pair_value ds.
Proof.
  intros Hc. destruct ds as [|d0 ds0]; [done|]. set (ds := d0 :: ds0) in *.
  assert (exists r, fold_left slot_step ds None = Some r) as [r Hr].
  { subst ds. clear Hc. simpl. generalize (slot_step None d0) (ex_intro (fun r => slot_step None d0 = Some r) _ eq_refl).
    induction ds0 as [|d ds IH]; intros o [r ->]; [by exists r|]. simpl. apply IH. by eexists. }
  rewrite Hr. unfold pair_value. fold ds. subst ds. cbn match. f_equal. set (ds := d0 :: ds0) in *.
  assert (r = unwrap_or (fold_left slot_step ds None) None) as -> by (by rewrite Hr).
  destruct (List.filter d_added ds) as [|d ds'] eqn:Ef.
  - apply (slot_fold_none ds None); [|done]. intros d Hd. destruct (d_added d) eqn:E; [|done].
    assert (In d (List.filter d_added ds)) by (by apply filter_In). by rewrite Ef in *.
  - assert (In d ds /\ d_added d = true) as [Hd Hda].
    { apply (filter_In d_added d ds). rewrite Ef. by left. }
    apply in_split in Hd as (l1 & l2 & E). rewrite E, fold_left_app. cbn [fold_left].
    apply slot_fold_some.
    + intros d' Hd'. apply (Hc d d'); [|rewrite E; apply in_app_iff; right; by right|done].
      rewrite E. apply in_app_iff. right. by left.
    + unfold slot_step. simpl. by rewrite Hda.
Qed.

Lemma clean_pair ds e a d d' :
  clean ds -> In d (List.filter (about e a) ds) -> In d' (List.filter (about e a) ds) ->
  d_added d = true -> if d_added d' then d_v d' = d_v d else d_v d' <> d_v d.
Proof.
  unfold about. intros Hc [Hd E1]%filter_In [Hd' E2]%filter_In Ha.
  apply andb_true_iff in E1 as [E1%bool_decide_eq_true E3%bool_decide_eq_true].
  apply andb_true_iff in E2 as [E2%bool_decide_eq_true E4%bool_decide_eq_true].
  apply (Hc d d'); congruence.
Qed.

Lemma pair_value_perm ds ds' :
  (forall d d', In d ds -> In d' ds -> d_added d = true ->
    if d_added d' then d_v d' = d_v d else d_v d' <> d_v d) ->
  Permutation ds ds' -> pair_value ds = pair_value ds'.
Proof.
  intros Hc Hp. unfold pair_value.
  destruct ds as [|d0 ds0]; [by apply Permutation_nil in Hp as ->|].
  destruct ds' as [|d1 ds1]; [by apply Permutation_sym, Permutation_nil in Hp|].
  f_equal. pose proof (filter_perm d_added _ _ Hp) as Hf.
  destruct (List.filter d_added (d0 :: ds0)) as [|x l] eqn:E1,
    (List.filter d_added (d1 :: ds1)) as [|y k] eqn:E2; try done.
  - by apply Permutation_nil in Hf.
  - by apply Permutation_sym, Permutation_nil in Hf.
  - f_equal. assert (In x (d0 :: ds0) /\ d_added x = true) as [Hx Hxa].
    { apply filter_In. rewrite E1. by left. }
    assert (In y (d0 :: ds0) /\ d_added y = true) as [Hy Hya].
    { apply filter_In. rewrite E1. eapply Permutation_in; [symmetry; exact Hf|by left]. }
    specialize (Hc x y Hx Hy Hxa). rewrite Hya in Hc. done.
Qed.

Lemma final_values_other ds e a :
  is_schema_attribute a = false -> om_get (e, a) (final_values ds) = None.
Proof.
  intros Ha. destruct (om_get _ _) as [v|] eqn:E; [|done].
  apply om_get_In, final_values_from in E as [E _]. congruence.
Qed.

Lemma final_values_perm ds ds' : clean ds -> Permutation ds ds' -> final_values ds = final_values ds'.
Proof.
  intros Hc Hp. apply om_ext; [apply final_values_wf..|]. intros [e a].
  destruct (is_schema_attribute a) eqn:Ea; [|by rewrite !final_values_other].
  rewrite !final_values_slot by done.
  pose proof (filter_perm (about e a) _ _ Hp) as Hf.
  rewrite !slot_fold_clean.
  - apply pair_value_perm; [|done]. intros d d'. by apply clean_pair.
  - intros d d' Hd Hd'. eapply (clean_pair ds e a d d'); [done|..];
      (eapply Permutation_in; [symmetry; exact Hf|done]).
  - intros d d'. by apply clean_pair.
Qed.

(** Schema derivation does not depend on the order a transaction lists its datoms in,
    for transactions that neither give one pair two values nor both assert and retract one
    fact. *)
Theorem derive_order_independent s i k t ds ds' :
  clean ds -> Permutation ds ds' -> derive s i k t ds = derive s i k t ds'.
Proof. intros Hc Hp. unfold derive. by rewrite (final_values_perm ds ds'). Qed.

Definition retype_tx : list Datom :=
  let a := entity_new (partition_id Partition.Db) 100 in
  [ mk_datom a DOC (Value.Str "old") 5 false; mk_datom a DOC (Value.Str "new") 5 true ].

Lemma derive_order_independent_witness :
  derive schema_default idents_default interner_default 5 retype_tx =
  derive schema_default idents_default interner_default 5 (rev retype_tx).
Proof.
  apply derive_order_independent.
  - intros d d' [<-|[<-|[]]] [<-|[<-|[]]]; vm_compute; intros; done.
  - apply Permutation_rev.
Defined.

(** Without that condition the order matters: stating and withdrawing one value in a
    transaction leaves it set or cleared according to which datom comes last. *)
Lemma derive_order_dependent :
  let a := entity_new (partition_id Partition.Db) 100 in
  let add := mk_datom a RETIRED (Value.Bool true) 5 true in
  let del := mk_datom a RETIRED (Value.Bool true) 5 false in
  is_retired (derive schema_default idents_default interner_default 5 [del; add]).1 a = true /\
  is_retired (derive schema_default idents_default interner_default 5 [add; del]).1 a = false.
Proof. by vm_compute. Qed.

(** *** Naming alone leaves the schema *)

(** Vocabulary other than [:db/ident] only on db-partition entities: what ordinary
    transactions are held to. *)
Definition vocabulary_placed (ds : list Datom) : Prop :=
  forall d, In d ds -> is_schema_attribute (d_a d) = true -> d_a d <> IDENT ->
    partition (d_e d) = partition_id Partition.Db.

Lemma derive_naming_only s i k t ds :
  vocabulary_placed ds -> changes_schema ds = false -> (derive s i k t ds).1 = s.
Proof.
  intros Hv Hc. unfold derive. cbn [fst].
  assert (forall p, In p (final_values ds) -> p.1.2 = IDENT) as Hid.
  { intros [[e a] v] (Ha & d & Hd & He & Hda)%final_values_from. simpl.
    destruct (decide (a = IDENT)) as [|Hne]; [done|exfalso].
    assert (changes_schema ds = true); [|congruence].
    apply existsb_exists. exists d. split; [done|]. subst. rewrite Ha. cbn [andb].
    by apply bool_decide_eq_true, Hv. }
  revert Hid. generalize (final_values ds). intros l. induction l as [|[[e a] v] l IH]; intros Hid; [done|].
  cbn [fold_left]. assert (derive_property k t s (e, a, v) = s) as ->.
  { unfold derive_property. rewrite bool_decide_true; [done|]. apply (Hid (e, a, v)). by left. }
  apply IH. intros p Hp. apply Hid. by right.
Qed.
