(* ===== verification/Db.v ===== *)
(** * Database values (corium-db/src/lib.rs)

    A [Db] holds every recorded datom, the schema and names at its basis, and a lazily
    filled cell with the four covering indexes of its time view.  [OnceLock] cells are
    [option]s: [None] until a read fills them ([force_indexes], [force_stats]).  The
    persistent containers come from the [Rpds] interface. *)

From stdpp Require Import base list strings sorting.
From Stdlib Require Import ZArith Lia.
From S2P Require Import Prelude OrdMap Machine Ids Keyword Values Encoding Datoms Schema.
From S2P Require Import Bootstrap SchemaDatoms.
Local Open Scope Z_scope.

Definition FIRST_ATTR_ID : Z := 100.
Definition FIRST_USER_ID : Z := 1000.

Module DbView.
Inductive DbView := Current | AsOf (t : Z) | Since (t : Z) | History.
End DbView.
Notation DbView := DbView.DbView.

#[global] Instance db_view_eq_dec : EqDecision DbView.
Proof. solve_decision. Defined.

(** ** Planner statistics *)

Record AttrStats := mk_attr_stats {
  st_count : Z;
  distinct_values : Z;
  distinct_entities : Z;
  st_protected : bool }.

Definition attr_stats_default : AttrStats := mk_attr_stats 0 0 0 false.

Record PlannerStats := mk_planner_stats {
  per_attr : list (AttrId * AttrStats);
  total_datoms : Z;
  entity_count : Z }.

Definition estimate (s : PlannerStats) (e_bound : bool) (a : option AttrId) (v_bound : bool) : Z :=
  let attr := a' ← a; om_get a' (per_attr s) in
  match e_bound, attr with
  | true, Some stats => Z.max (st_count stats / Z.max (distinct_entities stats) 1) 1
  | true, None => Z.max (total_datoms s / Z.max (entity_count s) 1) 1
  | false, Some stats =>
      if v_bound && negb (st_protected stats)
      then Z.max (st_count stats / Z.max (distinct_values stats) 1) 1
      else Z.max (st_count stats) 1
  | false, None => if is_some a then 1 else Z.max (total_datoms s) 1
  end.

(** ** Index keys *)

(** The components of an index order, in order. *)
Inductive KeyComponent := CE | CA | CV.

Definition components (order : IndexOrder) : list KeyComponent :=
  match order with
  | Eavt => [CE; CA; CV]
  | Aevt => [CA; CE; CV]
  | Avet => [CA; CV; CE]
  | Vaet => [CV; CA; CE]
  end.

Fixpoint prefix_loop (cs : list KeyComponent) (e : option EntityId) (a : option AttrId)
    (v : option Value) : bytes :=
  match cs with
  | [] => []
  | c :: cs =>
      match (match c with
             | CE => encode_entity <$> e
             | CA => encode_entity <$> a
             | CV => encode_value <$> v
             end) with
      | Some out => out ++ prefix_loop cs e a v
      | None => []
      end
  end.

Definition key_prefix (order : IndexOrder) (e : option EntityId) (a : option AttrId)
    (v : option Value) : bytes :=
  prefix_loop (components order) e a v.

Fixpoint starts_with (key prefix : bytes) : bool :=
  match prefix, key with
  | [], _ => true
  | _ :: _, [] => false
  | p :: prefix, k :: key => (p =? k)%Z && starts_with key prefix
  end.

(** ** Coverage *)

Definition avet_covered (schema : Schema) (a : AttrId) : bool :=
  is_some_and (schema_get schema a) (fun attr => indexed attr || is_some (unique attr)).

Definition is_ref (v : Value) : bool := match v with Value.Ref _ => true | _ => false end.

Definition covered (schema : Schema) (order : IndexOrder) (d : Datom) : bool :=
  match order with
  | Eavt | Aevt => true
  | Avet => avet_covered schema (d_a d)
  | Vaet => is_ref (d_v d)
  end.

Module RangeError.
Inductive RangeError := Protected (a : AttrId).
End RangeError.
Notation RangeError := RangeError.RangeError.

Section db.
Context {R : Rpds}.

Definition Index : Type := rb bytes Datom.

(** The array of four indexes, by [slot]. *)
Definition Indexes : Type := IndexOrder -> Index.
Definition indexes_default : Indexes := fun _ => rb_empty.
Definition index_set (ix : Indexes) (order : IndexOrder) (i : Index) : Indexes :=
  fun o => if bool_decide (o = order) then i else ix o.

Definition ORDERS : list IndexOrder := [Eavt; Aevt; Avet; Vaet].

(** ** Transaction instants *)

Record TxInstants := mk_instants { by_t : rb Z Z; by_instant : rb Z Z }.

Definition instants_default : TxInstants := mk_instants rb_empty rb_empty.

Definition instants_record (i : TxInstants) (t instant : Z) : TxInstants :=
  mk_instants (rb_insert t instant (by_t i))
    (if is_none_or (rb_get instant (by_instant i)) (fun held => (held <? t)%Z)
     then rb_insert instant t (by_instant i) else by_instant i).

Definition instants_instant (i : TxInstants) (t : Z) : option Z := rb_get t (by_t i).

Definition t_at (i : TxInstants) (instant : Z) : Z :=
  match last (rb_upto instant (by_instant i)) with Some (_, t) => t | None => 0 end.

Definition instants_len (i : TxInstants) : nat := length (rb_iter (by_t i)).

(** ** The value *)

Record Db := mk_db {
  basis_t : Z;
  next_user_sequence : Z;
  db_schema : Schema;
  recorded : vec Datom;
  db_idents : Idents;
  db_interner : KeywordInterner;
  schema_generation : Z;
  view : DbView;
  db_instants : TxInstants;
  indexes_cell : option Indexes;
  stats_cell : option PlannerStats;
  complete_history : bool }.

Definition db_default : Db :=
  mk_db 0 FIRST_USER_ID schema_default vec_empty idents_default interner_default 0
    DbView.Current instants_default None None true.

Definition db_new (schema : Schema) : Db :=
  mk_db 0 FIRST_USER_ID (install_schema schema) vec_empty idents_default interner_default 0
    DbView.Current instants_default None None true.

Definition recorded_datoms (db : Db) : list Datom := vec_iter (recorded db).

(** ** Covering indexes *)

Definition full_key (order : IndexOrder) (d : Datom) : bytes :=
  key_prefix order (Some (d_e d)) (Some (d_a d)) (Some (d_v d)).

Definition insert_datom (schema : Schema) (with_tx : bool) (ix : Indexes) (d : Datom) : Indexes :=
  fold_left (fun ix order =>
    if covered schema order d
    then index_set ix order
           (rb_insert (if with_tx then datom_key d order else full_key order d) d (ix order))
    else ix) ORDERS ix.

Definition remove_datom (schema : Schema) (ix : Indexes) (d : Datom) : Indexes :=
  fold_left (fun ix order =>
    if covered schema order d
    then index_set ix order (rb_remove (full_key order d) (ix order)) else ix) ORDERS ix.

Definition apply_current (schema : Schema) (ix : Indexes) (datoms : list Datom) : Indexes :=
  fold_left (fun ix d =>
    if d_added d then insert_datom schema false ix d else remove_datom schema ix d) datoms ix.

(** The live fold in EAVT. *)
Definition fold_live (cutoff : option Z) (datoms : list Datom) : Index :=
  fold_left (fun live d =>
    if is_some_and cutoff (fun t => (t <? sequence (d_tx d))%Z) then live
    else
      let key := full_key Eavt d in
      if d_added d then rb_insert key d live else rb_remove key live) datoms rb_empty.

Definition project_live (schema : Schema) (live : Index) : Indexes :=
  let ix := fold_left (fun ix d =>
      fold_left (fun ix order =>
        if covered schema order d
        then index_set ix order (rb_insert (full_key order d) d (ix order)) else ix)
        [Aevt; Avet; Vaet] ix)
    (map snd (rb_iter live)) indexes_default in
  index_set ix Eavt live.

(** The initialiser of the index cell. *)
Definition materialize (schema : Schema) (view : DbView) (datoms : list Datom) : Indexes :=
  match view with
  | DbView.History =>
      fold_left (fun ix d =>
        if is_some_and (schema_get schema (d_a d)) no_history then ix
        else insert_datom schema true ix d) datoms indexes_default
  | _ =>
      let cutoff := match view with DbView.AsOf t => Some t | _ => None end in
      let live := fold_live cutoff datoms in
      let live := match view with
        | DbView.Since t =>
            rb_collect (List.filter (fun p => (t <? sequence (d_tx p.2))%Z) (rb_iter live))
        | _ => live
        end in
      project_live schema live
  end.

Definition indexes (db : Db) : Indexes :=
  match indexes_cell db with
  | Some ix => ix
  | None => materialize (db_schema db) (view db) (recorded_datoms db)
  end.

Definition force_indexes (db : Db) : Db :=
  mk_db (basis_t db) (next_user_sequence db) (db_schema db) (recorded db) (db_idents db)
    (db_interner db) (schema_generation db) (view db) (db_instants db)
    (Some (indexes db)) (stats_cell db) (complete_history db).

(** ** Reads *)

Definition datoms_at (db : Db) (order : IndexOrder) : list Datom :=
  map snd (rb_iter (indexes db order)).

Definition datoms (db : Db) : list Datom := datoms_at db Eavt.

Definition datoms_prefix (db : Db) (order : IndexOrder) (prefix : bytes) : list Datom :=
  map snd (take_while (fun p => starts_with p.1 prefix) (rb_from prefix (indexes db order))).

Definition datoms_for_attribute (db : Db) (a : AttrId) : list Datom :=
  let prefix := key_prefix Aevt None (Some a) None in
  map snd (take_while (fun p => starts_with p.1 prefix) (rb_from prefix (indexes db Aevt))).

Definition seek_datoms (db : Db) (order : IndexOrder) (start : bytes) : list Datom :=
  map snd (rb_from start (indexes db order)).

Definition index_range (db : Db) (a : AttrId) (start end_ : option Value)
    : result RangeError (list Datom) :=
  if ever_protected (protection (db_schema db) a) then Err (RangeError.Protected a)
  else
    let a_prefix := key_prefix Avet None (Some a) None in
    let start_key := key_prefix Avet None (Some a) start in
    Ok (take_while (fun d => is_none_or end_ (fun v => (d_v d <? v)%corium))
         (map snd (take_while (fun p => starts_with p.1 a_prefix)
            (rb_from start_key (indexes db Avet))))).

Definition values (db : Db) (e : EntityId) (a : AttrId) : list Value :=
  map d_v (datoms_prefix db Eavt (key_prefix Eavt (Some e) (Some a) None)).

Definition lookup (db : Db) (a : AttrId) (v : Value) : option EntityId :=
  if avet_covered (db_schema db) a then
    d_e <$> head (datoms_prefix db Avet (key_prefix Avet None (Some a) (Some v)))
  else
    d_e <$> find (fun d => bool_decide (d_v d = v))
      (datoms_prefix db Aevt (key_prefix Aevt None (Some a) None)).

(** The backwards scan of [recorded_since]. *)
Fixpoint back_to (v : vec Datom) (t : Z) (start : nat) : nat :=
  match start with
  | O => O
  | S n => if is_some_and (vec_get v n) (fun d => (t <? sequence (d_tx d))%Z)
           then back_to v t n else start
  end.

Definition recorded_since (db : Db) (t : Z) : list Datom :=
  let len := vec_len (recorded db) in
  let start := back_to (recorded db) t len in
  filter_map (vec_get (recorded db)) (seq start (len - start)).

Definition tx_range (db : Db) (start : Z) (end_ : option Z) : list (Z * list Datom) :=
  fold_left (fun m d =>
    let t := sequence (d_tx d) in
    if (start <=? t)%Z && is_none_or end_ (fun e => (t <? e)%Z)
    then om_insert t (unwrap_or (om_get t m) [] ++ [d]) m else m) (recorded_datoms db) [].

(** ** Statistics *)

Definition bump (m : list (AttrId * AttrStats)) (a : AttrId) : list (AttrId * AttrStats) :=
  let s := unwrap_or (om_get a m) attr_stats_default in
  om_insert a (mk_attr_stats (st_count s + 1) (distinct_values s) (distinct_entities s)
    (st_protected s)) m.

Definition add_to {K V} `{Ord K, Ord V} (m : list (K * list V)) (k : K) (v : V) : list (K * list V) :=
  om_insert k (os_insert v (unwrap_or (om_get k m) [])) m.

Definition compute_stats (schema : Schema) (ds : list Datom) : PlannerStats :=
  let '(total, per, values, ents, entities) :=
    fold_left (fun '(total, per, values, ents, entities) d =>
      (total + 1, bump per (d_a d), add_to values (d_a d) (d_v d), add_to ents (d_a d) (d_e d),
       os_insert (d_e d) entities)) ds (0, [], [], [], []) in
  let len {V} (a : AttrId) (m : list (AttrId * list V)) : Z :=
    match om_get a m with Some s => Z.of_nat (length s) | None => 0 end in
  mk_planner_stats
    (map (fun '(a, entry) =>
       (a, mk_attr_stats (st_count entry) (len a values) (len a ents) (is_protected schema a))) per)
    total (Z.of_nat (length entities)).

Definition planner_stats (db : Db) : PlannerStats :=
  match stats_cell db with
  | Some s => s
  | None => compute_stats (db_schema db) (datoms_at db Eavt)
  end.

Definition force_stats (db : Db) : Db :=
  mk_db (basis_t db) (next_user_sequence db) (db_schema db) (recorded db) (db_idents db)
    (db_interner db) (schema_generation db) (view db) (db_instants db)
    (Some (indexes db)) (Some (planner_stats db)) (complete_history db).

(** ** Time views *)

Definition fold_class (db : Db) (v : DbView) : DbView :=
  match v with
  | DbView.AsOf t => if (basis_t db <=? t)%Z then DbView.Current else v
  | DbView.Since t => if (t =? 0)%Z then DbView.Current else v
  | _ => v
  end.

Definition with_view (db : Db) (v : DbView) : Db :=
  if bool_decide (v = view db) then db
  else
    let shared := bool_decide (fold_class db v = fold_class db (view db)) in
    mk_db (basis_t db) (next_user_sequence db) (db_schema db) (recorded db) (db_idents db)
      (db_interner db) (schema_generation db) v (db_instants db)
      (if shared then indexes_cell db else None) (if shared then stats_cell db else None)
      (complete_history db).

Definition as_of (db : Db) (t : Z) : Db := with_view db (DbView.AsOf t).
Definition since (db : Db) (t : Z) : Db := with_view db (DbView.Since t).
Definition history (db : Db) : Db := with_view db DbView.History.

Definition tx_instant (db : Db) (t : Z) : option Z := instants_instant (db_instants db) t.
Definition t_at_instant (db : Db) (instant : Z) : Z := t_at (db_instants db) instant.
Definition as_of_instant (db : Db) (instant : Z) : Db := as_of db (t_at_instant db instant).
Definition since_instant (db : Db) (instant : Z) : Db := since db (t_at_instant db instant).

(** ** Transactions *)

Definition bump_user (next : Z) (datoms : list Datom) : Z :=
  fold_left Z.max
    (map (fun d => sequence (d_e d) + 1)
      (List.filter (fun d => bool_decide (partition (d_e d) = partition_id Partition.User)) datoms))
    next.

Definition apply_transaction (db : Db) (t : Z) (datoms : list Datom) : Db :=
  let schema_changed := changes_schema datoms in
  let '(schema, idents, generation) :=
    if touches_naming datoms then
      let '(schema, idents) := derive (db_schema db) (db_idents db) (db_interner db) t datoms in
      (schema, idents, if schema_changed then schema_generation db + 1 else schema_generation db)
    else (db_schema db, db_idents db, schema_generation db) in
  let cell :=
    match indexes_cell db with
    | Some parent => if negb schema_changed
                     then Some (apply_current (db_schema db) parent datoms) else None
    | None => None
    end in
  mk_db t (bump_user (next_user_sequence db) datoms) schema
    (fold_left vec_push datoms (recorded db)) idents (db_interner db) generation (view db)
    (db_instants db) cell None (complete_history db).

Definition record_instant (db : Db) (t instant : Z) : Db :=
  mk_db (basis_t db) (next_user_sequence db) (db_schema db) (recorded db) (db_idents db)
    (db_interner db) (schema_generation db) (view db)
    (instants_record (db_instants db) t instant)
    (indexes_cell db) (stats_cell db) (complete_history db).

Definition with_transaction_at (db : Db) (t instant : Z) (datoms : list Datom) : Db :=
  let asserted := asserted_instant t datoms in
  let next := if is_some asserted then apply_transaction db t datoms
              else apply_transaction db t (datoms ++ [tx_instant_datom t instant]) in
  record_instant next t (unwrap_or asserted instant).

Definition with_transaction (db : Db) (t : Z) (datoms : list Datom) : Db :=
  match asserted_instant t datoms with
  | Some instant => with_transaction_at db t instant datoms
  | None => apply_transaction db t datoms
  end.

(** ** Snapshots *)

Definition snapshot_instants (datoms : list Datom) : TxInstants :=
  fold_left (fun i d =>
    match d_v d with
    | Value.Instant instant =>
        if d_added d && bool_decide (d_a d = TX_INSTANT) && bool_decide (d_e d = d_tx d) &&
           bool_decide (partition (d_tx d) = partition_id Partition.Tx)
        then instants_record i (sequence (d_tx d)) instant else i
    | _ => i
    end) datoms instants_default.

Definition bump_user_saturating (next : Z) (datoms : list Datom) : Z :=
  fold_left Z.max
    (map (fun d => saturating_add_u64 (sequence (d_e d)) 1)
      (List.filter (fun d => bool_decide (partition (d_e d) = partition_id Partition.User)) datoms))
    next.

Definition from_current_snapshot_with_next_user (basis next_user : Z) (schema : Schema)
    (idents : Idents) (interner : KeywordInterner) (datoms : list Datom) : Db :=
  let next := bump_user_saturating (Z.max next_user FIRST_USER_ID) datoms in
  let '(schema, idents) := install schema idents in
  mk_db basis next schema (vec_collect datoms) idents interner 0 DbView.Current
    (snapshot_instants datoms) None None false.

Definition from_current_snapshot (basis : Z) (schema : Schema) (idents : Idents)
    (interner : KeywordInterner) (datoms : list Datom) : Db :=
  from_current_snapshot_with_next_user basis FIRST_USER_ID schema idents interner datoms.

Definition from_history_snapshot_with_next_user (basis next_user : Z) (schema : Schema)
    (idents : Idents) (interner : KeywordInterner) (history current : list Datom) : Db :=
  let '(schema, idents) := install schema idents in
  let history := history ++
    List.filter (fun d => is_some_and (schema_get schema (d_a d)) no_history) current in
  let next := bump_user_saturating (Z.max next_user FIRST_USER_ID) history in
  mk_db basis next schema (vec_collect history) idents interner 0 DbView.Current
    (snapshot_instants history) None None true.

Definition from_history_snapshot (basis : Z) (schema : Schema) (idents : Idents)
    (interner : KeywordInterner) (history current : list Datom) : Db :=
  from_history_snapshot_with_next_user basis FIRST_USER_ID schema idents interner history current.

Definition with_naming (db : Db) (idents : Idents) (interner : KeywordInterner) : Db :=
  let '(schema, idents) := install (db_schema db) idents in
  mk_db (basis_t db) (next_user_sequence db) schema (recorded db) idents interner
    (schema_generation db) (view db) (db_instants db) (indexes_cell db) (stats_cell db)
    (complete_history db).

End db.

(** Convenience constructor for schema attributes. *)
Definition attribute (id : Z) (value_type : ValueType) (cardinality : Cardinality)
    (unique : option Unique) : Attribute :=
  mk_attribute (entity_new (partition_id Partition.Db) id) value_type cardinality unique false
    (is_some unique) false.
