(* ===== verification/DbFacts.v ===== *)
(** * What database values mean

    The theory of [Db]: the covering indexes of a time view hold exactly the datoms the
    view makes visible, whichever way they were built; the operations keep that so; and
    the reads are specified by it. *)

From stdpp Require Import base list strings sorting relations.
From Stdlib Require Import ZArith Lia.
From S2P Require Import Prelude OrdMap Machine Ids Keyword Values Encoding Datoms Schema.
From S2P Require Import Bootstrap SchemaDatoms Db.
Local Open Scope Z_scope.

(** ** Keys *)

Lemma full_key_fact o d : full_key o d = fact_bytes o (d_fact d).
Proof.
  destruct d as [e a v tx added]. unfold full_key, key_prefix.
  by destruct o; cbn -[encode_entity encode_value app]; rewrite app_nil_r.
Qed.

Lemma key_components_full o d : key_components (datom_key d o) = full_key o d.
Proof. by rewrite key_components_key, full_key_fact. Qed.

Definition covered_fact (schema : Schema) (order : IndexOrder) (f : Fact) : bool :=
  match order with
  | Eavt | Aevt => true
  | Avet => avet_covered schema f.1.2
  | Vaet => is_ref f.2
  end.

Lemma covered_by_fact sch o d : covered sch o d = covered_fact sch o (d_fact d).
Proof. by destruct o. Qed.

(** ** Liveness

    [status f ds] is the datom that leaves [f] live after [ds], if any. *)

Definition status_step (f : Fact) (acc : option Datom) (d : Datom) : option Datom :=
  if bool_decide (d_fact d = f) then (if d_added d then Some d else None) else acc.
Definition status (f : Fact) (ds : list Datom) : option Datom := fold_left (status_step f) ds None.

Lemma status_app f ds ds' : status f (ds ++ ds') = fold_left (status_step f) ds' (status f ds).
Proof. apply fold_left_app. Qed.

Lemma status_fold_cases f ds acc d :
  fold_left (status_step f) ds acc = Some d -> acc = Some d \/ (In d ds /\ d_fact d = f /\ d_added d = true).
Proof.
  revert acc. induction ds as [|x ds IH]; intros acc Hs; [by left|]. simpl in Hs.
  apply IH in Hs as [Hs|(Hin & Hf & Ha)]; [|right; split; [by right|done]].
  unfold status_step in Hs. case_bool_decide as E; [|by left].
  destruct (d_added x) eqn:Ea; [|done]. injection Hs as ->. right. split; [by left|done].
Qed.

Lemma status_Some f ds d : status f ds = Some d -> In d ds /\ d_fact d = f /\ d_added d = true.
Proof. intros [|]%status_fold_cases; done. Qed.

(** A datom is live in [ds]. *)
Definition live (ds : list Datom) (d : Datom) : Prop := status (d_fact d) ds = Some d.

#[global] Instance live_dec ds d : Decision (live ds d).
Proof. unfold live. apply _. Defined.

Lemma live_unique ds d d' : live ds d -> live ds d' -> d_fact d = d_fact d' -> d = d'.
Proof. unfold live. intros H1 H2 E. rewrite E in H1. congruence. Qed.

(** Only the datoms about a fact matter to it. *)
Lemma status_filter f (p : Datom -> bool) ds :
  (forall d, In d ds -> d_fact d = f -> p d = true) -> status f (List.filter p ds) = status f ds.
Proof.
  unfold status. generalize (@None Datom). induction ds as [|d ds IH]; intros acc Hp; [done|].
  simpl. destruct (p d) eqn:E; simpl; [by apply IH; intros; apply Hp; [right|]|].
  rewrite IH by (intros; apply Hp; [by right|done]). f_equal. unfold status_step.
  case_bool_decide; [|done]. by rewrite (Hp d) in E by (done || by left).
Qed.

Lemma status_none_about f ds acc :
  (forall d, In d ds -> d_fact d <> f) -> fold_left (status_step f) ds acc = acc.
Proof.
  revert acc. induction ds as [|d ds IH]; intros acc Hf; [done|]. simpl.
  rewrite IH by (intros; apply Hf; by right). unfold status_step.
  rewrite bool_decide_false; [done|]. apply Hf. by left.
Qed.

(** ** The reference fold, one order at a time *)

Definition step_order (sch : Schema) (o : IndexOrder) (m : list (bytes * Datom)) (d : Datom)
    : list (bytes * Datom) :=
  if covered sch o d
  then if d_added d then om_insert (full_key o d) d m else om_remove (full_key o d) m
  else m.
Definition fold_order (sch : Schema) (o : IndexOrder) (ds : list Datom) : list (bytes * Datom) :=
  fold_left (step_order sch o) ds [].

Lemma step_order_wf sch o m d : om_wf m -> om_wf (step_order sch o m d).
Proof.
  intros Hm. unfold step_order. destruct (covered sch o d); [|done].
  destruct (d_added d); [by apply om_insert_wf|by apply om_remove_wf].
Qed.

Lemma fold_step_order_wf sch o ds m : om_wf m -> om_wf (fold_left (step_order sch o) ds m).
Proof.
  revert m. induction ds as [|d ds IH]; intros m Hm; [done|]. by apply IH, step_order_wf.
Qed.

Lemma fold_order_wf sch o ds : om_wf (fold_order sch o ds).
Proof. apply fold_step_order_wf, om_wf_nil. Qed.

Lemma fold_order_app sch o ds ds' :
  fold_order sch o (ds ++ ds') = fold_left (step_order sch o) ds' (fold_order sch o ds).
Proof. apply fold_left_app. Qed.

Definition facts_wf (ds : list Datom) : Prop := Forall (fun d => fact_wf (d_fact d)) ds.

Lemma fold_order_get sch o ds f m :
  facts_wf ds -> fact_wf f ->
  om_get (fact_bytes o f) (fold_left (step_order sch o) ds m) =
  if covered_fact sch o f then fold_left (status_step f) ds (om_get (fact_bytes o f) m)
  else om_get (fact_bytes o f) m.
Proof.
  intros Hds Hf. revert m. induction Hds as [|d ds Hd Hds IH]; intros m; simpl.
  { by destruct (covered_fact sch o f). }
  rewrite IH. clear IH. unfold step_order, status_step. rewrite covered_by_fact.
  case_bool_decide as E.
  - rewrite E. destruct (covered_fact sch o f); [|done]. f_equal. rewrite full_key_fact, E.
    destruct (d_added d); [by rewrite om_get_insert_eq|by rewrite om_get_remove_eq].
  - assert (fact_bytes o f <> full_key o d) as Hne.
    { rewrite full_key_fact. intros Hk%fact_bytes_inj; [by apply E|done..]. }
    destruct (covered_fact sch o (d_fact d)); [|done].
    destruct (d_added d); [by rewrite om_get_insert_ne|by rewrite om_get_remove_ne].
Qed.

Lemma fold_order_keys sch o ds k d :
  In (k, d) (fold_order sch o ds) -> k = full_key o d /\ In d ds.
Proof.
  unfold fold_order.
  assert (forall m, In (k, d) (fold_left (step_order sch o) ds m) ->
    In (k, d) m \/ (k = full_key o d /\ In d ds)) as Hgen.
  { induction ds as [|x ds IH]; intros m Hin; [by left|]. simpl in Hin.
    apply IH in Hin as [Hin|[-> Hin]]; [|right; split; [done|by right]].
    unfold step_order in Hin. destruct (covered sch o x); [|by left].
    destruct (d_added x); [|apply In_om_remove in Hin; by left].
    apply In_om_insert in Hin as [[= -> ->]|Hin]; [right; split; [done|by left]|by left]. }
  intros [[]|?]%Hgen. done.
Qed.

(** The index of an order holds the live facts it covers, under their keys. *)
Lemma In_fold_order sch o ds k d :
  facts_wf ds ->
  In (k, d) (fold_order sch o ds) <-> k = full_key o d /\ covered sch o d = true /\ live ds d.
Proof.
  intros Hds. unfold live. split.
  - intros Hin. pose proof (fold_order_keys _ _ _ _ _ Hin) as [-> Hd]. split; [done|].
    assert (fact_wf (d_fact d)) as Hf by (unfold facts_wf in Hds; rewrite List.Forall_forall in Hds; auto).
    apply om_In_get in Hin; [|apply fold_order_wf]. unfold fold_order in Hin.
    rewrite full_key_fact, fold_order_get in Hin by done. rewrite covered_by_fact.
    by destruct (covered_fact sch o (d_fact d)).
  - intros (-> & Hc & Hs). apply om_get_In.
    assert (fact_wf (d_fact d)) as Hf.
    { unfold facts_wf in Hds; rewrite List.Forall_forall in Hds. by apply Hds, (status_Some _ _ _ Hs). }
    unfold fold_order. rewrite full_key_fact, fold_order_get by done.
    rewrite covered_by_fact in Hc. by rewrite Hc.
Qed.

(** ** The code's folds *)

Section indexes.
Context {R : Rpds} {HR : RpdsLaws R}.
Implicit Types (ix : Indexes) (db : Db).

Lemma index_set_fold (f : IndexOrder -> Index -> Index) (c : IndexOrder -> bool) l ix o :
  NoDup l ->
  fold_left (fun ix order => if c order then index_set ix order (f order (ix order)) else ix) l ix o =
  if bool_decide (o ∈ l) && c o then f o (ix o) else ix o.
Proof.
  revert ix. induction l as [|x l IH]; intros ix Hl; [done|]. simpl.
  apply NoDup_cons in Hl as [Hx Hl]. rewrite IH by done.
  destruct (decide (o = x)) as [->|Hne].
  - rewrite (bool_decide_false (x ∈ l)), (bool_decide_true (x ∈ x :: l)) by (done || by left).
    cbn [andb]. destruct (c x); [|done]. unfold index_set. by rewrite bool_decide_true.
  - assert (bool_decide (o ∈ x :: l) = bool_decide (o ∈ l)) as ->.
    { apply bool_decide_ext. rewrite elem_of_cons. naive_solver. }
    assert ((if c x then index_set ix x (f x (ix x)) else ix) o = ix o) as ->; [|done].
    destruct (c x); [|done]. unfold index_set. by rewrite bool_decide_false.
Qed.

Lemma orders_all o : bool_decide (o ∈ ORDERS) = true.
Proof. by destruct o. Qed.

Lemma insert_datom_iter sch w ix d o :
  rb_iter (insert_datom sch w ix d o) =
  if covered sch o d
  then om_insert (if w then datom_key d o else full_key o d) d (rb_iter (ix o))
  else rb_iter (ix o).
Proof.
  unfold insert_datom.
  rewrite (index_set_fold (fun o i => rb_insert (if w then datom_key d o else full_key o d) d i)
    (fun o => covered sch o d)) by (apply (bool_decide_unpack _); by vm_compute).
  rewrite orders_all. cbn [andb]. destruct (covered sch o d); [by rewrite rb_iter_insert|done].
Qed.

Lemma remove_datom_iter sch ix d o :
  rb_iter (remove_datom sch ix d o) =
  if covered sch o d then om_remove (full_key o d) (rb_iter (ix o)) else rb_iter (ix o).
Proof.
  unfold remove_datom.
  rewrite (index_set_fold (fun o i => rb_remove (full_key o d) i) (fun o => covered sch o d))
    by (apply (bool_decide_unpack _); by vm_compute).
  rewrite orders_all. cbn [andb]. destruct (covered sch o d); [by rewrite rb_iter_remove|done].
Qed.

Lemma apply_current_iter sch ix ds o :
  rb_iter (apply_current sch ix ds o) = fold_left (step_order sch o) ds (rb_iter (ix o)).
Proof.
  unfold apply_current. revert ix. induction ds as [|d ds IH]; intros ix; [done|]. simpl.
  rewrite IH. f_equal. unfold step_order. destruct (d_added d).
  - by rewrite insert_datom_iter.
  - by rewrite remove_datom_iter.
Qed.

Definition within (cutoff : option Z) (d : Datom) : bool :=
  is_none_or cutoff (fun t => (sequence (d_tx d) <=? t)%Z).

Lemma fold_live_iter sch cutoff ds :
  rb_iter (fold_live cutoff ds) = fold_order sch Eavt (List.filter (within cutoff) ds).
Proof.
  unfold fold_live, fold_order. rewrite <- rb_iter_empty. generalize (rb_empty (K:=bytes) (V:=Datom)).
  induction ds as [|d ds IH]; intros m; [done|]. simpl. rewrite IH. clear IH. unfold within at 2.
  assert (is_some_and cutoff (fun t => (t <? sequence (d_tx d))%Z) =
    negb (is_none_or cutoff (fun t => (sequence (d_tx d) <=? t)%Z))) as ->.
  { destruct cutoff as [t|]; [|done]. simpl. by rewrite Z.leb_antisym, negb_involutive. }
  destruct (is_none_or cutoff _); simpl; [|done]. f_equal. unfold step_order. simpl.
  destruct (d_added d); [by rewrite rb_iter_insert|by rewrite rb_iter_remove].
Qed.

Lemma project_live_eavt sch i : project_live sch i Eavt = i.
Proof. done. Qed.

Lemma project_live_iter sch i o :
  o <> Eavt ->
  rb_iter (project_live sch i o) =
  om_of_list (map (fun d => (full_key o d, d)) (List.filter (covered sch o) (map snd (rb_iter i)))).
Proof.
  intros Ho. unfold project_live, om_of_list. cbn zeta. unfold index_set at 1.
  rewrite bool_decide_false by done.
  assert (rb_iter (indexes_default o) = []) as Hd by (unfold indexes_default; by rewrite rb_iter_empty).
  revert Hd. generalize (indexes_default (R:=R)), (@nil (bytes * Datom)).
  induction (map snd (rb_iter i)) as [|d ds IH]; intros ix m Hm; [done|]. simpl.
  assert (fold_left (fun ix order => if covered sch order d
    then index_set ix order (rb_insert (full_key order d) d (ix order)) else ix) [Aevt; Avet; Vaet] ix o =
    if covered sch o d then rb_insert (full_key o d) d (ix o) else ix o) as Hix.
  { rewrite (index_set_fold (fun o i => rb_insert (full_key o d) d i) (fun o => covered sch o d))
      by (apply (bool_decide_unpack _); by vm_compute).
    by destruct o. }
  destruct (covered sch o d) eqn:Ec; simpl.
  - apply IH. etrans; [apply (f_equal rb_iter), Hix|]. by rewrite rb_iter_insert, Hm.
  - apply IH. etrans; [apply (f_equal rb_iter), Hix|done].
Qed.

(** A map of live facts: each entry under its EAVT key. *)
Definition live_map (L : list (bytes * Datom)) : Prop :=
  om_wf L /\ forall k d, In (k, d) L -> k = full_key Eavt d /\ fact_wf (d_fact d).

Lemma live_map_fold sch ds : facts_wf ds -> live_map (fold_order sch Eavt ds).
Proof.
  intros Hds. split; [apply fold_order_wf|]. intros k d [-> Hd]%fold_order_keys.
  unfold facts_wf in Hds; rewrite List.Forall_forall in Hds. auto.
Qed.

Lemma live_map_filter (p : bytes * Datom -> bool) L : live_map L -> live_map (List.filter p L).
Proof.
  intros [Hw Hk]. split; [by apply om_filter_wf|]. intros k d [Hin _]%filter_In. by apply Hk.
Qed.

Lemma live_map_same L d d' :
  live_map L -> In d (map snd L) -> In d' (map snd L) -> d_fact d = d_fact d' -> d = d'.
Proof.
  intros [Hw Hk] ([k x] & <- & H1)%in_map_iff ([k' x'] & <- & H2)%in_map_iff E. simpl in *.
  pose proof (Hk _ _ H1) as [-> _]. pose proof (Hk _ _ H2) as [-> _].
  apply om_In_get in H1; [|done]. apply om_In_get in H2; [|done].
  rewrite !full_key_fact, E in *. congruence.
Qed.

Lemma project_live_In sch i o k d :
  live_map (rb_iter i) ->
  om_wf (rb_iter (project_live sch i o)) /\
  (In (k, d) (rb_iter (project_live sch i o)) <->
   k = full_key o d /\ covered sch o d = true /\ In d (map snd (rb_iter i))).
Proof.
  intros HL. pose proof HL as [Hw Hk]. destruct (decide (o = Eavt)) as [->|Ho].
  { rewrite project_live_eavt. split; [done|]. split.
    - intros Hin. split_and!; [by apply (Hk k d Hin)|done|]. apply in_map_iff. by exists (k, d).
    - intros (-> & _ & ([k' d'] & E & Hin)%in_map_iff). simpl in E. subst d'.
      by destruct (Hk _ _ Hin) as [-> _]. }
  rewrite project_live_iter by done. split; [apply om_of_list_wf|].
  rewrite om_of_list_In.
  - rewrite in_map_iff. setoid_rewrite filter_In. split; [|naive_solver].
    intros (x & [= <- <-] & Hx & Hc). done.
  - intros k' v v' (x & [= Ek <-] & [Hx _]%filter_In)%in_map_iff
      (y & [= Ek' <-] & [Hy _]%filter_In)%in_map_iff.
    apply (live_map_same (rb_iter i)); [done..|].
    apply in_map_iff in Hx as ([kx dx] & Edx & Hx). simpl in Edx. subst dx.
    apply in_map_iff in Hy as ([ky dy] & Edy & Hy). simpl in Edy. subst dy.
    apply (fact_bytes_inj o); [by eapply Hk..|]. by rewrite <- !full_key_fact, Ek, Ek'.
Qed.

(** ** Views *)

(** What a view shows. *)
Definition visible (sch : Schema) (v : DbView) (ds : list Datom) (d : Datom) : Prop :=
  match v with
  | DbView.Current => live ds d
  | DbView.AsOf t => live (List.filter (within (Some t)) ds) d
  | DbView.Since t => live ds d /\ t < sequence (d_tx d)
  | DbView.History => In d ds /\ is_some_and (schema_get sch (d_a d)) no_history = false
  end.

Definition view_key (v : DbView) (o : IndexOrder) (d : Datom) : bytes :=
  match v with DbView.History => datom_key d o | _ => full_key o d end.

Definition datoms_wf (ds : list Datom) : Prop := Forall datom_wf ds.

Lemma datoms_wf_facts ds : datoms_wf ds -> facts_wf ds.
Proof. intros Hds. eapply Forall_impl; [exact Hds|]. by intros d [Hd _]. Qed.

Lemma facts_wf_filter p ds : facts_wf ds -> facts_wf (List.filter p ds).
Proof.
  unfold facts_wf. rewrite !List.Forall_forall. intros Hds d [Hd _]%filter_In. auto.
Qed.

Lemma In_live_eavt sch ds d :
  facts_wf ds -> In d (map snd (fold_order sch Eavt ds)) <-> live ds d.
Proof.
  intros Hds. rewrite in_map_iff. split.
  - intros ([k x] & <- & Hin). by apply In_fold_order in Hin as (_ & _ & ?).
  - intros Hd. exists (full_key Eavt d, d). split; [done|]. by apply In_fold_order.
Qed.

Lemma history_fold_iter sch ds o :
  rb_iter (materialize sch DbView.History ds o) =
  om_of_list (map (fun d => (datom_key d o, d))
    (List.filter (fun d => negb (is_some_and (schema_get sch (d_a d)) no_history) && covered sch o d) ds)).
Proof.
  unfold materialize, om_of_list.
  assert (rb_iter (indexes_default o) = []) as Hd by (unfold indexes_default; by rewrite rb_iter_empty).
  revert Hd. generalize (indexes_default (R:=R)), (@nil (bytes * Datom)).
  induction ds as [|d ds IH]; intros ix m Hm; [done|]. simpl.
  destruct (is_some_and _ _) eqn:En; simpl; [by apply IH|].
  destruct (covered sch o d) eqn:Ec; simpl; apply IH; rewrite insert_datom_iter, Ec; by rewrite Hm.
Qed.

Lemma materialize_In sch v ds o :
  datoms_wf ds ->
  om_wf (rb_iter (materialize sch v ds o)) /\
  (forall k d, In (k, d) (rb_iter (materialize sch v ds o)) <->
    k = view_key v o d /\ covered sch o d = true /\ visible sch v ds d).
Proof.
  intros Hds. pose proof (datoms_wf_facts _ Hds) as Hf. destruct v as [|t|t|].
  - assert (rb_iter (fold_live None ds) = fold_order sch Eavt ds) as Hi.
    { rewrite (fold_live_iter sch). f_equal. by apply filter_all_true. }
    assert (live_map (rb_iter (fold_live None ds))) as HL by (rewrite Hi; by apply live_map_fold).
    split; [by apply (project_live_In _ _ _ [] (mk_datom 0 0 (Value.Bool true) 0 true))|].
    intros k d. destruct (project_live_In sch _ o k d HL) as [_ ->].
    rewrite Hi, In_live_eavt by done. done.
  - pose proof (facts_wf_filter (within (Some t)) _ Hf) as Hf'.
    pose proof (fold_live_iter sch (Some t) ds) as Hi.
    assert (live_map (rb_iter (fold_live (Some t) ds))) as HL by (rewrite Hi; by apply live_map_fold).
    split; [by apply (project_live_In _ _ _ [] (mk_datom 0 0 (Value.Bool true) 0 true))|].
    intros k d. destruct (project_live_In sch _ o k d HL) as [_ ->].
    rewrite Hi, In_live_eavt by done. done.
  - set (L := List.filter (fun p : bytes * Datom => (t <? sequence (d_tx p.2))%Z) (fold_order sch Eavt ds)).
    assert (rb_iter (rb_collect (List.filter (fun p : bytes * Datom => (t <? sequence (d_tx p.2))%Z)
      (rb_iter (fold_live None ds)))) = L) as Hi.
    { rewrite rb_iter_collect, (fold_live_iter sch), (filter_all_true (within None)) by done.
      apply om_of_list_id, om_filter_wf, fold_order_wf. }
    assert (live_map L) as HL by (by apply live_map_filter, live_map_fold).
    rewrite <- Hi in HL.
    split; [by apply (project_live_In _ _ _ [] (mk_datom 0 0 (Value.Bool true) 0 true))|].
    intros k d. destruct (project_live_In sch _ o k d HL) as [_ ->]. rewrite Hi. simpl.
    rewrite <- (In_live_eavt sch) by done. unfold L. rewrite !in_map_iff. setoid_rewrite filter_In.
    split.
    + intros (-> & Hc & [k' x] & <- & Hin & Hlt%Z.ltb_lt). split_and!; try done. by exists (k', x).
    + intros (-> & Hc & ([k' x] & <- & Hin) & Hlt). split_and!; try done.
      exists (k', x). split; [done|]. split; [done|]. by apply Z.ltb_lt.
  - rewrite history_fold_iter. split; [apply om_of_list_wf|]. intros k d. rewrite om_of_list_In.
    + rewrite in_map_iff. setoid_rewrite filter_In. setoid_rewrite andb_true_iff.
      setoid_rewrite negb_true_iff. simpl. naive_solver.
    + intros k' x y (x' & [= <- <-] & [Hx _]%filter_In)%in_map_iff
        (y' & [= Ek <-] & [Hy _]%filter_In)%in_map_iff.
      unfold datoms_wf in Hds. rewrite List.Forall_forall in Hds. apply (datom_key_inj o); auto.
Qed.

(** ** The invariant of a database value *)

Notation rebuilt db := (materialize (db_schema db) (view db) (recorded_datoms db)).

Record db_ok (db : Db) : Prop := {
  ok_wf : datoms_wf (recorded_datoms db);
  ok_basis : Forall (fun d => 1 <= sequence (d_tx d) <= basis_t db) (recorded_datoms db);
  ok_next : Forall (fun d => partition (d_e d) = partition_id Partition.User ->
              sequence (d_e d) < next_user_sequence db) (recorded_datoms db);
  ok_cell : forall ix o, indexes_cell db = Some ix -> rb_iter (ix o) = rb_iter (rebuilt db o);
  ok_stats : forall st, stats_cell db = Some st ->
              st = compute_stats (db_schema db) (map snd (rb_iter (rebuilt db Eavt))) }.

(** The cell, filled or not, reads as a rebuild. *)
Lemma indexes_iter db o : db_ok db -> rb_iter (indexes db o) = rb_iter (rebuilt db o).
Proof. intros Hdb. unfold indexes. destruct (indexes_cell db) eqn:E; [by apply ok_cell|done]. Qed.

(** *** Views that select the same datoms *)

Lemma fold_class_visible db v d :
  db_ok db ->
  visible (db_schema db) (fold_class db v) (recorded_datoms db) d <->
  visible (db_schema db) v (recorded_datoms db) d.
Proof.
  intros [_ Hb _ _ _]. rewrite List.Forall_forall in Hb. destruct v as [|t|t|]; simpl; try done.
  - destruct (Z.leb_spec (basis_t db) t); [|done]. simpl.
    rewrite filter_all_true; [done|]. intros x Hx. unfold within. simpl.
    apply Z.leb_le. specialize (Hb _ Hx). lia.
  - destruct (Z.eqb_spec t 0) as [->|]; [|done]. simpl. unfold live. split; [|by intros [? _]].
    intros Hl. split; [done|]. apply status_Some in Hl as [Hin _]. specialize (Hb _ Hin). lia.
Qed.

Lemma fold_class_history db v : fold_class db v = DbView.History -> v = DbView.History.
Proof. destruct v; simpl; repeat case_match; done. Qed.

Lemma view_key_class db v o d : view_key (fold_class db v) o d = view_key v o d.
Proof. destruct v; simpl; repeat case_match; done. Qed.

Lemma rebuilt_ext sch v v' ds o :
  datoms_wf ds ->
  (forall d, visible sch v ds d <-> visible sch v' ds d) ->
  (forall d, view_key v o d = view_key v' o d) ->
  rb_iter (materialize sch v ds o) = rb_iter (materialize sch v' ds o).
Proof.
  intros Hds Hv Hk. destruct (materialize_In sch v ds o Hds) as [H1 H2].
  destruct (materialize_In sch v' ds o Hds) as [H3 H4].
  apply om_ext_In; [done..|]. intros [k d]. by rewrite H2, H4, Hv, Hk.
Qed.

Lemma fold_class_rebuilt db v v' o :
  db_ok db -> fold_class db v = fold_class db v' ->
  rb_iter (materialize (db_schema db) v (recorded_datoms db) o) =
  rb_iter (materialize (db_schema db) v' (recorded_datoms db) o).
Proof.
  intros Hdb E. apply rebuilt_ext; [by apply ok_wf| |].
  - intros d. rewrite <- (fold_class_visible db v), <- (fold_class_visible db v') by done. by rewrite E.
  - intros d. by rewrite <- (view_key_class db v), <- (view_key_class db v'), E.
Qed.

Lemma with_view_ok db v : db_ok db -> db_ok (with_view db v).
Proof.
  intros Hdb. unfold with_view. case_bool_decide as Ev; [done|].
  pose proof Hdb as [Hw Hb Hn Hc Hs]. case_bool_decide as E.
  - split; try done; simpl.
    + intros ix o Hix. rewrite (Hc ix o Hix). unfold recorded_datoms; simpl.
      symmetry. by apply fold_class_rebuilt.
    + intros st Hst. rewrite (Hs st Hst). f_equal. f_equal.
      unfold recorded_datoms; simpl. symmetry. by apply fold_class_rebuilt.
  - by split.
Qed.

Lemma with_view_view db v : view (with_view db v) = v.
Proof. unfold with_view. by case_bool_decide. Qed.

Lemma with_view_recorded db v : recorded_datoms (with_view db v) = recorded_datoms db.
Proof. unfold with_view. by case_bool_decide. Qed.

Lemma with_view_schema db v : db_schema (with_view db v) = db_schema db.
Proof. unfold with_view. by case_bool_decide. Qed.

Lemma with_view_basis db v : basis_t (with_view db v) = basis_t db.
Proof. unfold with_view. by case_bool_decide. Qed.

Lemma force_indexes_ok db : db_ok db -> db_ok (force_indexes db).
Proof.
  intros Hdb. pose proof Hdb as [Hw Hb Hn Hc Hs]. split; try done; simpl.
  intros ix o [= <-]. by apply (indexes_iter db).
Qed.

Lemma planner_stats_rebuilt db :
  db_ok db -> planner_stats db = compute_stats (db_schema db) (map snd (rb_iter (rebuilt db Eavt))).
Proof.
  intros Hdb. unfold planner_stats. destruct (stats_cell db) as [st|] eqn:E; [by apply ok_stats|].
  unfold datoms_at. by rewrite indexes_iter.
Qed.

Lemma force_stats_ok db : db_ok db -> db_ok (force_stats db).
Proof.
  intros Hdb. pose proof Hdb as [Hw Hb Hn Hc Hs]. split; try done; simpl.
  - intros ix o [= <-]. by apply (indexes_iter db).
  - intros st [= <-]. by apply (planner_stats_rebuilt db).
Qed.

(** *** Transactions *)

(** What a commit path hands to [with_transaction]: well-typed datoms stamped with a
    transaction at or before [t], with schema vocabulary only on db-partition entities. *)
Record tx_ok (t : Z) (ds : list Datom) : Prop := {
  tx_wf : datoms_wf ds;
  tx_basis : Forall (fun d => 1 <= sequence (d_tx d) <= t) ds;
  tx_vocabulary : vocabulary_placed ds }.

Lemma fold_push_iter (ds : list Datom) (v : vec Datom) :
  vec_iter (fold_left vec_push ds v) = vec_iter v ++ ds.
Proof.
  revert v. induction ds as [|d ds IH]; intros v; simpl; [by rewrite app_nil_r|].
  by rewrite IH, vec_iter_push, <- app_assoc.
Qed.

Lemma apply_transaction_recorded db t ds :
  recorded_datoms (apply_transaction db t ds) = recorded_datoms db ++ ds.
Proof.
  unfold apply_transaction, recorded_datoms. cbn zeta.
  destruct (touches_naming ds); [destruct (derive _ _ _ _ _)|]; apply fold_push_iter.
Qed.

Lemma apply_transaction_view db t ds : view (apply_transaction db t ds) = view db.
Proof.
  unfold apply_transaction. cbn zeta. destruct (touches_naming ds); [by destruct (derive _ _ _ _ _)|done].
Qed.

Lemma apply_transaction_basis db t ds : basis_t (apply_transaction db t ds) = t.
Proof.
  unfold apply_transaction. cbn zeta. destruct (touches_naming ds); [by destruct (derive _ _ _ _ _)|done].
Qed.

Lemma apply_transaction_next db t ds :
  next_user_sequence (apply_transaction db t ds) = bump_user (next_user_sequence db) ds.
Proof.
  unfold apply_transaction. cbn zeta. destruct (touches_naming ds); [by destruct (derive _ _ _ _ _)|done].
Qed.

Lemma apply_transaction_schema db t ds :
  db_schema (apply_transaction db t ds) =
  if touches_naming ds then (derive (db_schema db) (db_idents db) (db_interner db) t ds).1
  else db_schema db.
Proof.
  unfold apply_transaction. cbn zeta. destruct (touches_naming ds); [by destruct (derive _ _ _ _ _)|done].
Qed.

(** A transaction that does not change the schema leaves the schema. *)
Lemma apply_transaction_schema_kept db t ds :
  vocabulary_placed ds -> changes_schema ds = false ->
  db_schema (apply_transaction db t ds) = db_schema db.
Proof.
  intros Hv Hc. rewrite apply_transaction_schema. destruct (touches_naming ds); [|done].
  by apply derive_naming_only.
Qed.

Lemma apply_transaction_cell db t ds :
  indexes_cell (apply_transaction db t ds) =
  match indexes_cell db with
  | Some parent => if negb (changes_schema ds)
                   then Some (apply_current (db_schema db) parent ds) else None
  | None => None
  end.
Proof.
  unfold apply_transaction. cbn zeta. destruct (touches_naming ds); [by destruct (derive _ _ _ _ _)|done].
Qed.

Lemma fold_max_ge l n : n <= fold_left Z.max l n /\ forall x, In x l -> x <= fold_left Z.max l n.
Proof.
  revert n. induction l as [|y l IH]; intros n; simpl; [split; [lia|done]|].
  destruct (IH (Z.max n y)) as [H1 H2]. split; [lia|]. intros x [->|Hx]; [lia|by apply H2].
Qed.

Lemma bump_user_ge n ds :
  n <= bump_user n ds /\
  forall d, In d ds -> partition (d_e d) = partition_id Partition.User -> sequence (d_e d) < bump_user n ds.
Proof.
  unfold bump_user. set (l := map _ _). destruct (fold_max_ge l n) as [H1 H2]. split; [done|].
  intros d Hd Hp. assert (sequence (d_e d) + 1 <= fold_left Z.max l n); [|lia]. apply H2.
  unfold l. apply in_map_iff. exists d. split; [done|]. apply filter_In. split; [done|].
  by apply bool_decide_eq_true.
Qed.

(** The current view of a rebuild is the reference fold. *)
Lemma rebuilt_current sch ds o :
  datoms_wf ds -> rb_iter (materialize sch DbView.Current ds o) = fold_order sch o ds.
Proof.
  intros Hds. destruct (materialize_In sch DbView.Current ds o Hds) as [H1 H2].
  apply om_ext_In; [done|apply fold_order_wf|]. intros [k d].
  rewrite H2, In_fold_order by (by apply datoms_wf_facts). done.
Qed.

Lemma datoms_wf_app l k : datoms_wf l -> datoms_wf k -> datoms_wf (l ++ k).
Proof. intros. by apply Forall_app. Qed.

Lemma apply_transaction_ok db t ds :
  db_ok db -> view db = DbView.Current -> basis_t db <= t -> tx_ok t ds ->
  db_ok (apply_transaction db t ds).
Proof.
  intros Hdb Hv Ht [Hw Hb Hp]. pose proof Hdb as [Hw0 Hb0 Hn0 Hc0 _].
  assert (datoms_wf (recorded_datoms db ++ ds)) as Hwf by (by apply datoms_wf_app).
  split.
  - by rewrite apply_transaction_recorded.
  - rewrite apply_transaction_recorded, apply_transaction_basis. apply Forall_app. split; [|done].
    eapply Forall_impl; [exact Hb0|]. intros d [? ?]. lia.
  - rewrite apply_transaction_recorded, apply_transaction_next.
    destruct (bump_user_ge (next_user_sequence db) ds) as [H1 H2]. apply Forall_app. split.
    + eapply Forall_impl; [exact Hn0|]. intros d Hd Hu. specialize (Hd Hu). lia.
    + apply List.Forall_forall. intros d Hd. by apply H2.
  - intros ix o. rewrite apply_transaction_cell, apply_transaction_recorded, apply_transaction_view, Hv.
    destruct (indexes_cell db) as [parent|] eqn:Ec; [|done].
    destruct (changes_schema ds) eqn:Es; [done|]. cbn [negb]. intros [= <-].
    rewrite apply_transaction_schema_kept by done.
    rewrite apply_current_iter, (Hc0 _ _ eq_refl), Hv, !rebuilt_current by done.
    symmetry. apply fold_order_app.
  - intros st Hst. exfalso. revert Hst. unfold apply_transaction. cbn zeta.
    destruct (touches_naming ds); [by destruct (derive _ _ _ _ _)|done].
Qed.

Lemma record_instant_ok db t i : db_ok db -> db_ok (record_instant db t i).
Proof. intros [Hw Hb Hn Hc Hs]. by split. Qed.

Lemma tx_entity t :
  0 <= t < 2 ^ 42 ->
  let tx := entity_new (partition_id Partition.Tx) t in
  u64 tx /\ tx < 2 ^ 63 /\ sequence tx = t /\ partition tx = partition_id Partition.Tx.
Proof.
  intros Ht tx. assert (tx = 2 ^ 42 + t) as Htx.
  { unfold tx. rewrite entity_new_arith by done. simpl partition_id.
    rewrite (Z.mod_small t), (Z.mod_small 1) by lia. lia. }
  split_and!; [unfold u64; lia|lia| |].
  - unfold tx. rewrite sequence_new by done. by apply Z.mod_small.
  - unfold tx. by apply partition_new.
Qed.

Lemma tx_instant_ok t i : 1 <= t < 2 ^ 42 -> i64 i -> tx_ok t [tx_instant_datom t i].
Proof.
  intros Ht Hi. destruct (tx_entity t) as (Hu & Hs & Hq & _); [lia|].
  split.
  - apply List.Forall_cons; [|done]. split; [|unfold tx_instant_datom; cbn [d_tx]; unfold u64 in Hu; lia].
    split_and!; [done|by vm_compute|done].
  - apply List.Forall_cons; [|done]. unfold tx_instant_datom. cbn [d_tx]. rewrite Hq. lia.
  - intros d [<-|[]] Hd. exfalso. revert Hd. unfold tx_instant_datom. cbn [d_a]. by vm_compute.
Qed.

Lemma tx_ok_app t ds ds' : tx_ok t ds -> tx_ok t ds' -> tx_ok t (ds ++ ds').
Proof.
  intros [H1 H2 H3] [H4 H5 H6]. split; [by apply Forall_app|by apply Forall_app|].
  intros d [Hd|Hd]%in_app_iff; [by apply H3|by apply H6].
Qed.

(** The datoms a transaction leaves recorded. *)
Definition stamped (t i : Z) (ds : list Datom) : list Datom :=
  if is_some (asserted_instant t ds) then ds else ds ++ [tx_instant_datom t i].

Lemma with_transaction_at_unfold db t i ds :
  with_transaction_at db t i ds =
  record_instant (apply_transaction db t (stamped t i ds)) t (unwrap_or (asserted_instant t ds) i).
Proof. unfold with_transaction_at, stamped. by destruct (asserted_instant t ds). Qed.

Lemma stamped_ok t i ds : 1 <= t < 2 ^ 42 -> i64 i -> tx_ok t ds -> tx_ok t (stamped t i ds).
Proof.
  intros Ht Hi Hds. unfold stamped. destruct (is_some _); [done|].
  apply tx_ok_app; [done|by apply tx_instant_ok].
Qed.

(** ** Reachable values

    Everything the crate can do with a value it has: fill its cells, take a view of it,
    and (on a current view) apply the next transaction. *)
Inductive db_step : Db -> Db -> Prop :=
| step_force_indexes db : db_step db (force_indexes db)
| step_force_stats db : db_step db (force_stats db)
| step_view db v : db_step db (with_view db v)
| step_apply db t ds :
    view db = DbView.Current -> basis_t db < t -> tx_ok t ds ->
    db_step db (apply_transaction db t ds)
| step_transaction db t i ds :
    view db = DbView.Current -> basis_t db < t < 2 ^ 42 -> i64 i -> tx_ok t ds ->
    db_step db (with_transaction_at db t i ds).

Lemma db_new_ok sch : db_ok (db_new sch).
Proof.
  assert (recorded_datoms (db_new sch) = []) as E by apply vec_iter_empty.
  split; rewrite ?E; try constructor; done.
Qed.

Lemma db_step_basis db db' : 0 <= basis_t db -> db_step db db' -> 0 <= basis_t db'.
Proof.
  intros Hb Hs. destruct Hs; try done.
  - by rewrite with_view_basis.
  - rewrite apply_transaction_basis. lia.
  - rewrite with_transaction_at_unfold. unfold record_instant; simpl.
    rewrite apply_transaction_basis. lia.
Qed.

Lemma db_step_ok db db' : 0 <= basis_t db -> db_ok db -> db_step db db' -> db_ok db'.
Proof.
  intros Hb Hdb Hs. destruct Hs.
  - by apply force_indexes_ok.
  - by apply force_stats_ok.
  - by apply with_view_ok.
  - apply apply_transaction_ok; [done..|lia|done].
  - rewrite with_transaction_at_unfold. apply record_instant_ok, apply_transaction_ok; [done..|lia|].
    apply stamped_ok; [lia|done..].
Qed.

Definition reachable (sch : Schema) : Db -> Prop := rtc db_step (db_new sch).

Lemma reachable_inv sch db : reachable sch db -> 0 <= basis_t db /\ db_ok db.
Proof.
  unfold reachable. intros Hr.
  apply (rtc_ind_r (fun db => 0 <= basis_t db /\ db_ok db)) in Hr; [done| |].
  - split; [done|apply db_new_ok].
  - intros y z _ Hyz [Hb Hy]. split; [by eapply db_step_basis|by eapply db_step_ok].
Qed.

End indexes.
