(* ===== verification/DbReads.v ===== *)
(** * Reading database values

    The range scans, lookups and statistics of [Db], specified by what the view shows. *)

From stdpp Require Import base list strings sorting relations.
From Stdlib Require Import ZArith Lia.
From S2P Require Import Prelude OrdMap Machine Ids Keyword Values Encoding Datoms Schema.
From S2P Require Import Bootstrap SchemaDatoms Db DbFacts.
Local Open Scope Z_scope.

(** ** Prefix scans *)

Lemma starts_with_spec k p : starts_with k p = true <-> exists q, k = p ++ q.
Proof.
  revert k. induction p as [|x p IH]; intros k; [split; [by exists k|by destruct k]|].
  destruct k as [|y k]; simpl; [split; [done|by intros [q ?]]|].
  rewrite andb_true_iff, Z.eqb_eq, IH. split.
  - intros [-> [q ->]]. by exists q.
  - intros [q [= -> ->]]. split; [done|by exists q].
Qed.

Lemma starts_with_le k p : starts_with k p = true -> cmp p k <> Gt.
Proof.
  intros [q ->]%starts_with_spec. rewrite <- (app_nil_r p) at 1. rewrite cmp_app_same.
  by destruct q.
Qed.

(** Keys between a prefix and an extension of it extend it too. *)
Lemma starts_with_convex p x y :
  cmp p x <> Gt -> cmp x y = Lt -> starts_with y p = true -> starts_with x p = true.
Proof.
  revert x y. induction p as [|a p IH]; intros x y Hpx Hxy Hy; [by destruct x|].
  destruct y as [|b y]; [done|]. simpl in Hy. apply andb_true_iff in Hy as [->%Z.eqb_eq Hy].
  destruct x as [|c x]; [done|]. rewrite !cmp_cons in *. simpl.
  destruct (cmp b c) eqn:E1; simpl in Hpx; [..|done].
  - apply cmp_eq_iff in E1 as ->. rewrite cmp_refl in Hxy. simpl in Hxy.
    rewrite Z.eqb_refl. simpl. by apply (IH x y).
  - rewrite (cmp_antisym b c), E1 in Hxy. done.
Qed.

Lemma prefix_scan {V} (m : list (bytes * V)) p :
  om_wf m ->
  take_while (fun q => starts_with q.1 p) (om_from p m) = List.filter (fun q => starts_with q.1 p) m.
Proof.
  intros Hm. unfold om_from.
  rewrite (take_while_filter _ (fun q q' => cmp p q.1 <> Gt /\ olt q.1 q'.1)).
  - induction m as [|q m IH]; [done|]. apply om_wf_cons' in Hm as [Hm _]. simpl.
    destruct (cmp p q.1) eqn:E; simpl; rewrite IH by done; try done.
    destruct (starts_with q.1 p) eqn:Es; [|done]. by apply starts_with_le in Es.
  - induction m as [|q m IH]; simpl; [constructor|]. apply om_wf_cons' in Hm as [Hm Hq].
    destruct (cmp p q.1) eqn:E; try (apply IH; done); (constructor; [by apply IH|]);
      apply List.Forall_forall; intros q' [Hq' _]%filter_In; (split; [by rewrite E|by apply Hq]).
  - intros x y [Hpx Hxy] Hy. by eapply starts_with_convex.
Qed.

(** ** Component prefixes *)

Lemma starts_with_same_length a b r p :
  length a = length b -> starts_with (a ++ r) (b ++ p) = bool_decide (a = b) && starts_with r p.
Proof.
  revert b. induction a as [|x a IH]; intros [|y b] Hl; try done. simpl in *.
  rewrite IH by lia. destruct (Z.eqb_spec y x) as [->|]; simpl.
  - assert (bool_decide (x :: a = x :: b) = bool_decide (a = b)) as ->; [|done].
    apply bool_decide_ext. naive_solver.
  - by rewrite bool_decide_false by naive_solver.
Qed.

Lemma encode_entity_length e : length (encode_entity e) = 8%nat.
Proof. apply length_to_be_bytes. Qed.

Lemma starts_with_entity x e r p :
  u64 x -> u64 e ->
  starts_with (encode_entity x ++ r) (encode_entity e ++ p) = bool_decide (x = e) && starts_with r p.
Proof.
  intros Hx He. rewrite starts_with_same_length by (by rewrite !encode_entity_length).
  f_equal. apply bool_decide_ext. split; [|by intros ->].
  intros E%cmp_eq_iff. unfold encode_entity in E.
  by rewrite (order_enc_cmp _ _ _ _ u64_order), cmp_eq_iff in E.
Qed.

Lemma starts_with_value w v r p :
  value_wf w -> value_wf v ->
  starts_with (encode_value w ++ r) (encode_value v ++ p) = bool_decide (w = v) && starts_with r p.
Proof.
  intros Hw Hv. apply eq_true_iff_eq.
  rewrite andb_true_iff, bool_decide_eq_true, !starts_with_spec. split.
  - intros [q E]. rewrite <- app_assoc in E. pose proof E as E'.
    apply cmp_eq_iff in E'. rewrite value_order in E' by done.
    apply then_cmp_eq in E' as [->%cmp_eq_iff E']. split; [done|]. exists q. by apply cmp_eq_iff.
  - intros [-> [q ->]]. exists q. by rewrite app_assoc.
Qed.

Lemma starts_with_nil k : starts_with k [] = true.
Proof. by destruct k. Qed.

Lemma starts_with_view_key v o d :
  exists r, view_key v o d = fact_bytes o (d_fact d) ++ r.
Proof.
  destruct v; simpl; try (exists []; by rewrite full_key_fact, app_nil_r).
  eexists. apply datom_key_fact.
Qed.

Section reads.
Context {R : Rpds} {HR : RpdsLaws R}.
Implicit Types db : Db.

(** ** What a view's indexes hold *)

Lemma datoms_at_entries db o :
  db_ok db ->
  rb_iter (indexes db o) = map (fun d => (view_key (view db) o d, d)) (datoms_at db o).
Proof.
  intros Hdb. unfold datoms_at. rewrite map_map.
  rewrite <- (map_id (rb_iter (indexes db o))) at 1. apply map_ext_in. intros [k d] Hin.
  rewrite indexes_iter in Hin by done.
  apply (materialize_In _ _ _ _ (ok_wf _ Hdb)) in Hin as [-> _]. done.
Qed.

Lemma indexes_wf db o : db_ok db -> om_wf (rb_iter (indexes db o)).
Proof. intros Hdb. rewrite indexes_iter by done. by apply materialize_In, ok_wf. Qed.

Lemma datoms_at_In db o d :
  db_ok db ->
  In d (datoms_at db o) <->
  covered (db_schema db) o d = true /\ visible (db_schema db) (view db) (recorded_datoms db) d.
Proof.
  intros Hdb. unfold datoms_at. rewrite indexes_iter by done.
  destruct (materialize_In (db_schema db) (view db) (recorded_datoms db) o (ok_wf _ Hdb)) as [_ Hin].
  rewrite in_map_iff. split.
  - intros ([k x] & <- & Hx). by apply Hin in Hx as [_ ?].
  - intros Hd. exists (view_key (view db) o d, d). split; [done|]. by apply Hin.
Qed.

Lemma datoms_at_sorted db o :
  db_ok db ->
  StronglySorted (fun d d' => olt (view_key (view db) o d) (view_key (view db) o d')) (datoms_at db o).
Proof.
  intros Hdb. pose proof (indexes_wf db o Hdb) as Hw. rewrite datoms_at_entries in Hw by done.
  revert Hw. unfold om_wf. induction (datoms_at db o) as [|d ds IH]; simpl; [constructor|].
  inversion 1 as [|? ? Hs Hd]; subst. constructor; [by apply IH|].
  rewrite List.Forall_forall in *. intros d' Hd'.
  apply (Hd (view_key (view db) o d', d')), in_map_iff. by exists d'.
Qed.

Lemma visible_recorded sch v ds d : visible sch v ds d -> In d ds.
Proof.
  destruct v as [|t|t|]; simpl; [| |intros [H _]; revert H|by intros [? _]]; unfold live;
    intros [Hin _]%status_Some; [done| |done]. by apply filter_In in Hin as [? _].
Qed.

Lemma datoms_at_wf db o d : db_ok db -> In d (datoms_at db o) -> datom_wf d.
Proof.
  intros Hdb [_ Hv]%datoms_at_In; [|done]. apply visible_recorded in Hv.
  pose proof (ok_wf _ Hdb) as Hw. unfold datoms_wf in Hw. rewrite List.Forall_forall in Hw. auto.
Qed.

(** In a view other than history the order is the component order. *)
Lemma datoms_at_fact_sorted db o :
  db_ok db -> view db <> DbView.History ->
  StronglySorted (fun d d' => fact_cmp o (d_fact d) (d_fact d') = Lt) (datoms_at db o).
Proof.
  intros Hdb Hv. pose proof (datoms_at_sorted db o Hdb) as Hs.
  assert (forall d, In d (datoms_at db o) -> fact_wf (d_fact d)) as Hw.
  { intros d Hd. by apply datoms_at_wf in Hd as [? _]. }
  induction Hs as [|d ds Hs IH Hd]; constructor; [by apply IH; intros; apply Hw; right|].
  rewrite List.Forall_forall in *. intros d' Hd'. specialize (Hd d' Hd'). unfold olt in Hd.
  assert (view_key (view db) o d = full_key o d /\ view_key (view db) o d' = full_key o d') as [E E'].
  { by destruct (view db). }
  rewrite E, E', !full_key_fact, fact_bytes_cmp in Hd; [done|apply Hw; by left|apply Hw; by right].
Qed.

(** ** Range scans *)

Lemma map_snd_filter_entries (f : bytes -> bool) (g : Datom -> bytes) ds :
  map snd (List.filter (fun q => f q.1) (map (fun d => (g d, d)) ds)) =
  List.filter (fun d => f (g d)) ds.
Proof. induction ds as [|d ds IH]; [done|]. simpl. destruct (f (g d)); simpl; by rewrite IH. Qed.

Lemma datoms_prefix_filter db o p :
  db_ok db ->
  datoms_prefix db o p = List.filter (fun d => starts_with (view_key (view db) o d) p) (datoms_at db o).
Proof.
  intros Hdb. unfold datoms_prefix. rewrite rb_from_iter, prefix_scan by (by apply indexes_wf).
  rewrite datoms_at_entries by done.
  apply (map_snd_filter_entries (fun k => starts_with k p)).
Qed.

Lemma key_prefix_eavt e a d v :
  u64 e -> u64 a -> datom_wf d ->
  starts_with (view_key v Eavt d) (key_prefix Eavt (Some e) (Some a) None) = about e a d.
Proof.
  intros He Ha [(Hde & Hda & Hdv) _]. destruct (starts_with_view_key v Eavt d) as [r ->].
  destruct d as [de da dv dtx dadd]. unfold about, d_fact in *. cbn [d_e d_a d_v] in *.
  unfold key_prefix. cbn -[encode_entity encode_value app starts_with bool_decide].
  rewrite <- !app_assoc. rewrite starts_with_entity, starts_with_entity by done.
  by rewrite starts_with_nil, andb_true_r.
Qed.

Lemma key_prefix_aevt a d v :
  u64 a -> datom_wf d ->
  starts_with (view_key v Aevt d) (key_prefix Aevt None (Some a) None) = bool_decide (d_a d = a).
Proof.
  intros Ha [(Hde & Hda & Hdv) _]. destruct (starts_with_view_key v Aevt d) as [r ->].
  destruct d as [de da dv dtx dadd]. unfold d_fact in *. cbn [d_e d_a d_v] in *.
  unfold key_prefix. cbn -[encode_entity encode_value app starts_with bool_decide].
  rewrite <- !app_assoc. rewrite starts_with_entity by done.
  by rewrite starts_with_nil, andb_true_r.
Qed.

Lemma key_prefix_avet a d v :
  u64 a -> datom_wf d ->
  starts_with (view_key v Avet d) (key_prefix Avet None (Some a) None) = bool_decide (d_a d = a).
Proof.
  intros Ha [(Hde & Hda & Hdv) _]. destruct (starts_with_view_key v Avet d) as [r ->].
  destruct d as [de da dv dtx dadd]. unfold d_fact in *. cbn [d_e d_a d_v] in *.
  unfold key_prefix. cbn -[encode_entity encode_value app starts_with bool_decide].
  rewrite <- !app_assoc. rewrite starts_with_entity by done.
  by rewrite starts_with_nil, andb_true_r.
Qed.

Lemma key_prefix_avet_value a w d v :
  u64 a -> value_wf w -> datom_wf d ->
  starts_with (view_key v Avet d) (key_prefix Avet None (Some a) (Some w)) =
  bool_decide (d_a d = a) && bool_decide (d_v d = w).
Proof.
  intros Ha Hw [(Hde & Hda & Hdv) _]. destruct (starts_with_view_key v Avet d) as [r ->].
  destruct d as [de da dv dtx dadd]. unfold d_fact in *. cbn [d_e d_a d_v] in *.
  unfold key_prefix. cbn -[encode_entity encode_value app starts_with bool_decide].
  rewrite <- !app_assoc. rewrite starts_with_entity, starts_with_value by done.
  by rewrite starts_with_nil, andb_true_r.
Qed.

Lemma filter_wf_ext db o (f g : Datom -> bool) :
  db_ok db -> (forall d, datom_wf d -> f d = g d) ->
  List.filter f (datoms_at db o) = List.filter g (datoms_at db o).
Proof. intros Hdb Hfg. apply filter_ext_in. intros d Hd. apply Hfg. by eapply datoms_at_wf. Qed.

Lemma values_filter db e a :
  db_ok db -> u64 e -> u64 a -> values db e a = map d_v (List.filter (about e a) (datoms db)).
Proof.
  intros Hdb He Ha. unfold values, datoms. rewrite datoms_prefix_filter by done. f_equal.
  apply filter_wf_ext; [done|]. intros d Hd. by apply key_prefix_eavt.
Qed.

Lemma values_In db e a w :
  db_ok db -> u64 e -> u64 a ->
  In w (values db e a) <->
  exists d, visible (db_schema db) (view db) (recorded_datoms db) d /\ d_fact d = (e, a, w).
Proof.
  intros Hdb He Ha. rewrite values_filter by done. rewrite in_map_iff. setoid_rewrite filter_In.
  unfold datoms. setoid_rewrite datoms_at_In; [|done]. unfold about.
  setoid_rewrite andb_true_iff. setoid_rewrite bool_decide_eq_true. unfold d_fact. split.
  - intros (d & Ew & (_ & Hv) & Ee & Ea). exists d. split; [done|]. congruence.
  - intros (d & Hv & [= <- <- <-]). by exists d.
Qed.

(** ** Lookup *)

Lemma find_head_filter {A} (p : A -> bool) l : find p l = head (List.filter p l).
Proof. induction l as [|x l IH]; [done|]. simpl. by destruct (p x). Qed.

Lemma filter_filter_and {A} (p q : A -> bool) l :
  List.filter p (List.filter q l) = List.filter (fun x => q x && p x) l.
Proof.
  induction l as [|x l IH]; [done|]. simpl. destruct (q x); simpl; [by destruct (p x); rewrite IH|done].
Qed.

Definition carries (a : AttrId) (w : Value) (d : Datom) : bool :=
  bool_decide (d_a d = a) && bool_decide (d_v d = w).

Lemma lookup_filter db a w :
  db_ok db -> u64 a -> value_wf w ->
  lookup db a w =
  d_e <$> head (List.filter (carries a w)
    (datoms_at db (if avet_covered (db_schema db) a then Avet else Aevt))).
Proof.
  intros Hdb Ha Hw. unfold lookup. destruct (avet_covered _ _).
  - rewrite datoms_prefix_filter by done. f_equal. f_equal. apply filter_wf_ext; [done|].
    intros d Hd. by apply key_prefix_avet_value.
  - rewrite datoms_prefix_filter, find_head_filter, filter_filter_and by done. f_equal. f_equal.
    apply filter_wf_ext; [done|]. intros d Hd. unfold carries. f_equal. by apply key_prefix_aevt.
Qed.

Lemma head_filter_None {A} (p : A -> bool) l :
  head (List.filter p l) = None <-> forall x, In x l -> p x = false.
Proof.
  split.
  - intros Hh x Hx. destruct (p x) eqn:E; [|done].
    assert (In x (List.filter p l)) as Hin by (by apply filter_In). by destruct (List.filter p l).
  - intros Hp. by rewrite filter_all_false.
Qed.

Lemma head_filter_Some {A} (p : A -> bool) (Q : A -> A -> Prop) l x :
  StronglySorted Q l -> head (List.filter p l) = Some x ->
  In x l /\ p x = true /\ forall y, In y l -> p y = true -> y = x \/ Q x y.
Proof.
  induction 1 as [|z l Hs IH Hz]; [done|]. simpl. rewrite List.Forall_forall in Hz.
  destruct (p z) eqn:E; simpl.
  - intros [= ->]. split_and!; [by left|done|]. intros y [->|Hy] _; [by left|right; by apply Hz].
  - intros Hh. apply IH in Hh as (Hin & Hp & Hall). split_and!; [by right|done|].
    intros y [->|Hy] Hpy; [congruence|by apply Hall].
Qed.

(** What [lookup] finds: the entity is the least with the fact, and [None] means none. *)
Lemma lookup_least db a w :
  db_ok db -> u64 a -> value_wf w -> view db <> DbView.History ->
  match lookup db a w with
  | Some e => In w (values db e a) /\ forall e', u64 e' -> In w (values db e' a) -> e <= e'
  | None => forall e', u64 e' -> ~ In w (values db e' a)
  end.
Proof.
  intros Hdb Ha Hw Hv. rewrite lookup_filter by done.
  set (o := if avet_covered _ _ then Avet else Aevt).
  assert (forall d, d_a d = a -> covered (db_schema db) o d = true) as Hcov.
  { intros d <-. unfold o. destruct (avet_covered _ _) eqn:E; [exact E|done]. }
  pose proof (datoms_at_fact_sorted db o Hdb Hv) as Hs.
  assert (forall e', u64 e' -> In w (values db e' a) ->
    exists d, In d (datoms_at db o) /\ carries a w d = true /\ d_e d = e') as Hback.
  { intros e' He' (d & Hvis & [= <- Hda <-])%values_In; [|done..]. exists d.
    split; [apply datoms_at_In; [done|]; split; [by apply Hcov|done]|].
    unfold carries. by rewrite !bool_decide_true. }
  destruct (head _) as [d|] eqn:Eh; simpl.
  - eapply head_filter_Some in Eh as (Hd & Hc & Hall); [|exact Hs].
    apply andb_true_iff in Hc as [Hda%bool_decide_eq_true Hdv%bool_decide_eq_true]. split.
    + apply values_In; [done|by apply (datoms_at_wf db o d Hdb Hd)|done|].
      exists d. split; [by apply (datoms_at_In db o) in Hd as [_ ?]|]. unfold d_fact. by rewrite Hda, Hdv.
    + intros e' He' (d' & Hd' & Hc' & <-)%Hback; [|done].
      apply (Hall d') in Hc' as Hor; [|done]. destruct Hor as [->|Hlt]; [lia|].
      apply andb_true_iff in Hc' as [Hda'%bool_decide_eq_true Hdv'%bool_decide_eq_true].
      unfold d_fact in Hlt. rewrite Hda, Hdv, Hda', Hdv' in Hlt. unfold o in Hlt.
      destruct (avet_covered _ _); simpl in Hlt; rewrite !cmp_pair, !cmp_refl in Hlt; simpl in Hlt.
      * rewrite Zcmp_lt_iff in Hlt. lia.
      * rewrite then_cmp_eq_r in Hlt. rewrite Zcmp_lt_iff in Hlt. lia.
  - rewrite head_filter_None in Eh. intros e' He' (d & Hd & Hc & _)%Hback; [|done].
    by rewrite Eh in Hc.
Qed.

Lemma lookup_u64 db a w e : db_ok db -> u64 a -> value_wf w -> lookup db a w = Some e -> u64 e.
Proof.
  intros Hdb Ha Hw. rewrite lookup_filter by done. destruct (List.filter _ _) as [|d l] eqn:E; [done|].
  intros [= <-]. assert (In d (d :: l)) as Hd by (by left). rewrite <- E in Hd.
  apply filter_In in Hd as [Hd _]. by apply datoms_at_wf in Hd as [(? & _) _].
Qed.

(** ** Value ranges *)

Lemma take_while_map_filter {A B} (f : A -> B) (p : B -> bool) l :
  take_while p (map f l) = map f (take_while (fun x => p (f x)) l).
Proof. induction l as [|x l IH]; [done|]. simpl. destruct (p (f x)); simpl; by rewrite ?IH. Qed.

Definition in_range (a : AttrId) (start end_ : option Value) (d : Datom) : bool :=
  bool_decide (d_a d = a) && is_none_or start (fun v => (v <=? d_v d)%corium) &&
  is_none_or end_ (fun v => (d_v d <? v)%corium).

Lemma start_key_le a start d v :
  u64 a -> (forall w, start = Some w -> value_wf w) -> datom_wf d -> d_a d = a -> v <> DbView.History ->
  (match cmp (key_prefix Avet None (Some a) start) (view_key v Avet d) with Gt => false | _ => true end) =
  is_none_or start (fun w => (w <=? d_v d)%corium).
Proof.
  intros Ha Hst [(Hde & Hda & Hdv) _] Ea Hv.
  assert (view_key v Avet d = full_key Avet d) as -> by (by destruct v).
  rewrite full_key_fact. destruct d as [de da dv dtx dadd]. unfold d_fact in *. cbn [d_e d_a d_v] in *.
  subst da. unfold key_prefix. cbn -[encode_entity encode_value app cmp].
  destruct start as [w|]; cbn -[encode_entity encode_value app cmp].
  - rewrite app_nil_r, cmp_app_same. rewrite <- (app_nil_r (encode_value w)).
    rewrite value_order by auto. destruct (cmp w dv); [|done..]. simpl.
    by destruct (encode_entity de).
  - rewrite app_nil_r. rewrite <- (app_nil_r (encode_entity a)) at 1. rewrite cmp_app_same.
    by destruct (encode_value dv ++ _).
Qed.

Lemma prefix_scan_from {V} (m : list (bytes * V)) s p :
  om_wf m -> starts_with s p = true ->
  take_while (fun q => starts_with q.1 p) (om_from s m) =
  List.filter (fun q => starts_with q.1 p) (om_from s m).
Proof.
  intros Hm Hsp. apply starts_with_le in Hsp. unfold om_from.
  apply (take_while_filter _ (fun q q' => cmp p q.1 <> Gt /\ olt q.1 q'.1)).
  - induction m as [|q m IH]; simpl; [constructor|]. apply om_wf_cons' in Hm as [Hm Hq].
    assert (cmp s q.1 <> Gt -> cmp p q.1 <> Gt) as Hp.
    { intros Hs. destruct (cmp s q.1) eqn:E; [|by rewrite (cmp_le_lt_trans _ _ _ Hsp E)|done].
      by apply cmp_eq_iff in E as <-. }
    destruct (cmp s q.1) eqn:E; try (apply IH; done); (constructor; [by apply IH|]);
      apply List.Forall_forall; intros q' [Hq' _]%filter_In; (split; [by apply Hp|by apply Hq]).
  - intros x y [Hpx Hxy] Hy. by eapply starts_with_convex.
Qed.

Lemma filter_strongly_sorted {A} (Q : A -> A -> Prop) (p : A -> bool) l :
  StronglySorted Q l -> StronglySorted Q (List.filter p l).
Proof.
  induction 1 as [|x l Hs IH Hx]; simpl; [constructor|]. destruct (p x); [|done].
  constructor; [done|]. rewrite List.Forall_forall in *. intros y [Hy _]%filter_In. auto.
Qed.

Lemma strongly_sorted_and {A} (Q : A -> A -> Prop) (P : A -> Prop) l :
  StronglySorted Q l -> (forall x, In x l -> P x) ->
  StronglySorted (fun x y => Q x y /\ P x /\ P y) l.
Proof.
  induction 1 as [|x l Hs IH Hx]; intros HP; constructor.
  - apply IH. intros y Hy. apply HP. by right.
  - rewrite List.Forall_forall in *. intros y Hy.
    split; [by apply Hx|split; apply HP; [by left|by right]].
Qed.

Lemma index_range_filter db a start end_ :
  db_ok db -> view db <> DbView.History -> u64 a ->
  (forall w, start = Some w -> value_wf w) ->
  ever_protected (protection (db_schema db) a) = false ->
  index_range db a start end_ = Ok (List.filter (in_range a start end_) (datoms_at db Avet)).
Proof.
  intros Hdb Hv Ha Hst Hp. unfold index_range. rewrite Hp. cbn zeta. f_equal.
  rewrite rb_from_iter, prefix_scan_from; [|by apply indexes_wf|].
  2: { apply starts_with_spec. unfold key_prefix. cbn -[encode_entity encode_value app].
       rewrite app_nil_r. by eexists. }
  unfold om_from. rewrite filter_filter_and, datoms_at_entries by done.
  rewrite (map_snd_filter_entries (fun k => match cmp _ k with Gt => false | _ => true end && starts_with k _)).
  set (ds := List.filter _ (datoms_at db Avet)).
  assert (ds = List.filter (fun d => bool_decide (d_a d = a) &&
    is_none_or start (fun w => (w <=? d_v d)%corium)) (datoms_at db Avet)) as ->.
  { apply filter_wf_ext; [done|]. intros d Hd. rewrite key_prefix_avet by done.
    rewrite andb_comm. case_bool_decide as Ea; [|done]. cbn [andb]. by apply start_key_le. }
  rewrite (take_while_filter _ (fun d d' => fact_cmp Avet (d_fact d) (d_fact d') = Lt /\
    d_a d = a /\ d_a d' = a)).
  - by rewrite filter_filter_and.
  - apply strongly_sorted_and; [by apply filter_strongly_sorted, datoms_at_fact_sorted|].
    intros d [_ Hd]%filter_In. apply andb_true_iff in Hd as [Hd%bool_decide_eq_true _]. done.
  - intros d d' (Hlt & Hd & Hd') Hend. destruct end_ as [w|]; [|done]. simpl in *.
    unfold d_fact, fact_cmp in Hlt. rewrite Hd, Hd', !cmp_pair, cmp_refl in Hlt. simpl in Hlt.
    destruct (cmp (d_v d') w) eqn:E; try done.
    assert (cmp (d_v d) (d_v d') <> Gt) as Hle by (intros Hg; by rewrite Hg in Hlt).
    by rewrite (cmp_le_lt_trans _ _ _ Hle E).
Qed.

(** ** The recorded tail *)

Definition after (t : Z) (d : Datom) : bool := (t <? sequence (d_tx d))%Z.

Lemma back_to_app (v : vec Datom) t l1 l2 :
  vec_iter v = l1 ++ l2 ->
  Forall (fun d => after t d = false) l1 -> Forall (fun d => after t d = true) l2 ->
  forall n, (n <= length l2)%nat ->
  back_to v t (length l1 + n) = length l1.
Proof.
  intros Hv H1 H2. induction n as [|n IH]; intros Hn.
  - rewrite Nat.add_0_r. destruct l1 as [|d l1 _] using rev_ind; [done|].
    rewrite length_app, Nat.add_1_r. simpl. rewrite vec_get_iter, Hv, <- app_assoc.
    rewrite lookup_app_r, Nat.sub_diag by lia. simpl.
    apply Forall_app in H1 as [_ H1]. apply Forall_cons in H1 as [H1 _].
    unfold after in H1. by rewrite H1.
  - rewrite Nat.add_succ_r. cbn [back_to].
    rewrite vec_get_iter, Hv, lookup_app_r by lia.
    replace (length l1 + n - length l1)%nat with n by lia.
    destruct (lookup_lt_is_Some_2 l2 n) as [d Hd]; [lia|]. rewrite Hd. simpl.
    rewrite Forall_lookup in H2. specialize (H2 _ _ Hd). unfold after in H2. rewrite H2.
    apply IH. lia.
Qed.

Lemma filter_map_seq (v : vec Datom) l1 l2 :
  vec_iter v = l1 ++ l2 -> filter_map (vec_get v) (seq (length l1) (length l2)) = l2.
Proof.
  revert l1. induction l2 as [|d l2 IH]; intros l1 Hv; [done|]. simpl.
  rewrite vec_get_iter, Hv, lookup_app_r, Nat.sub_diag by lia. simpl. f_equal.
  specialize (IH (l1 ++ [d])). rewrite length_app, Nat.add_1_r in IH. apply IH.
  by rewrite <- app_assoc.
Qed.

(** ** Instants *)

(** The records of a value: [(t, instant)] pairs in commit order. *)
Definition instants_of (rs : list (Z * Z)) : TxInstants :=
  fold_left (fun i p => instants_record i p.1 p.2) rs instants_default.

(** The last commit at or before an instant. *)
Definition last_at (rs : list (Z * Z)) (instant : Z) : Z :=
  match last (List.filter (fun p => (p.2 <=? instant)%Z) rs) with Some (t, _) => t | None => 0 end.

Definition commits (rs : list (Z * Z)) : Prop :=
  StronglySorted (fun p q => p.1 < q.1 /\ p.2 <= q.2) rs.

Lemma commits_snoc rs p :
  commits (rs ++ [p]) <-> commits rs /\ Forall (fun q => q.1 < p.1 /\ q.2 <= p.2) rs.
Proof.
  unfold commits. induction rs as [|q rs IH]; simpl.
  - split; [split; constructor|intros _; repeat constructor].
  - split.
    + inversion 1 as [|? ? Hs Hq]; subst. apply IH in Hs as [Hs Hp].
      apply Forall_app in Hq as [Hq Hqp]. apply Forall_cons in Hqp as [Hqp _].
      split; [by constructor|by constructor].
    + intros [Hs Hp]. inversion Hs as [|? ? Hs' Hq]; subst. apply Forall_cons in Hp as [Hqp Hp].
      constructor; [by apply IH|]. apply Forall_app. split; [done|by constructor].
Qed.

Lemma instants_of_snoc rs p : instants_of (rs ++ [p]) = instants_record (instants_of rs) p.1 p.2.
Proof. unfold instants_of. by rewrite fold_left_app. Qed.

Lemma last_filter_snoc {A} (f : A -> bool) l x :
  last (List.filter f (l ++ [x])) = if f x then Some x else last (List.filter f l).
Proof. rewrite List.filter_app. simpl. destruct (f x); [apply last_snoc|by rewrite app_nil_r]. Qed.

Lemma last_In {A} (l : list A) x : last l = Some x -> In x l.
Proof. intros [l' ->]%last_Some. apply in_app_iff. right. by left. Qed.

Lemma by_instant_get rs k :
  commits rs ->
  om_get k (rb_iter (by_instant (instants_of rs))) =
  fst <$> last (List.filter (fun p => (p.2 =? k)%Z) rs).
Proof.
  induction rs as [|p rs IH] using rev_ind; intros Hc.
  { unfold instants_of. simpl. by rewrite rb_iter_empty. }
  apply commits_snoc in Hc as [Hc Hp]. specialize (IH Hc). rewrite List.Forall_forall in Hp.
  rewrite instants_of_snoc, last_filter_snoc. unfold instants_record. cbn [by_instant].
  assert (is_none_or (rb_get p.2 (by_instant (instants_of rs))) (fun held => (held <? p.1)%Z) = true) as ->.
  { rewrite rb_get_iter. destruct (om_get p.2 _) as [held|] eqn:Eg; [|done]. simpl.
    assert (exists q, In q rs /\ q.1 = held) as (q & Hq & <-).
    { clear IH. revert Hc Eg. clear Hp. induction rs as [|q rs IHr] using rev_ind; intros Hc Eg.
      - unfold instants_of in Eg. simpl in Eg. by rewrite rb_iter_empty in Eg.
      - rewrite instants_of_snoc in Eg. unfold instants_record in Eg. cbn [by_instant] in Eg.
        apply commits_snoc in Hc as [Hc _]. destruct (is_none_or _ _).
        + rewrite rb_iter_insert, om_get_insert in Eg. destruct (cmp p.2 q.2).
          * injection Eg as <-. exists q. split; [apply in_app_iff; right; by left|done].
          * apply IHr in Eg as (x & Hx & <-); [|done]. exists x. split; [apply in_app_iff; by left|done].
          * apply IHr in Eg as (x & Hx & <-); [|done]. exists x. split; [apply in_app_iff; by left|done].
        + apply IHr in Eg as (x & Hx & <-); [|done]. exists x. split; [apply in_app_iff; by left|done]. }
    apply Z.ltb_lt. by apply Hp. }
  rewrite rb_iter_insert, om_get_insert, IH.
  destruct (Z.eqb_spec p.2 k) as [<-|Hne]; [by rewrite cmp_refl|].
  destruct (cmp k p.2) eqn:E; [|done..]. by apply cmp_eq_iff in E.
Qed.

Lemma instants_iter_wf rs : om_wf (rb_iter (by_instant (instants_of rs))).
Proof.
  induction rs as [|p rs IH] using rev_ind.
  - unfold instants_of. simpl. rewrite rb_iter_empty. apply om_wf_nil.
  - rewrite instants_of_snoc. unfold instants_record. simpl. destruct (is_none_or _ _); [|done].
    rewrite rb_iter_insert. by apply om_insert_wf.
Qed.

(** The greatest key at or below a bound. *)
Lemma last_upto_spec (m : list (Z * Z)) i :
  om_wf m ->
  match last (om_upto i m) with
  | Some (k, v) => om_get k m = Some v /\ k <= i /\
                   forall k' v', om_get k' m = Some v' -> k' <= i -> k' <= k
  | None => forall k' v', om_get k' m = Some v' -> i < k'
  end.
Proof.
  intros Hm. pose proof (om_filter_wf (fun p => (p.1 <=? i)%corium) m Hm) as Hf.
  change (List.filter _ m) with (om_upto i m) in Hf.
  assert (forall k v, om_get k m = Some v -> k <= i -> In (k, v) (om_upto i m)) as Hin.
  { intros k v Hg Hk. unfold om_upto. apply filter_In. split; [by apply om_get_In|].
    simpl. destruct (cmp k i) eqn:E; [done..|]. rewrite Zcmp_gt_iff in E. lia. }
  destruct (last (om_upto i m)) as [[k v]|] eqn:El.
  - pose proof (last_In _ _ El) as Hl. apply filter_In in Hl as [Hl Hk].
    split_and!; [by apply om_In_get| |].
    + simpl in Hk. destruct (cmp k i) eqn:E; try done.
      * apply cmp_eq_iff in E. lia.
      * rewrite Zcmp_lt_iff in E. lia.
    + intros k' v' Hg Hk'. specialize (Hin _ _ Hg Hk'). apply last_Some in El as [l El].
      rewrite El in Hin, Hf. apply in_app_iff in Hin as [Hin|[[= <- <-]|[]]]; [|lia].
      assert (cmp k' k = Lt) as Hlt; [|rewrite Zcmp_lt_iff in Hlt; lia].
      clear -Hf Hin. induction l as [|q l IH]; [done|]. simpl in Hf. apply om_wf_cons' in Hf as [Hf Hq].
      destruct Hin as [->|Hin]; [|by apply IH]. apply (Hq (k, v)), in_app_iff. right. by left.
  - intros k' v' Hg. destruct (Z.lt_ge_cases i k') as [|Hk]; [done|].
    specialize (Hin _ _ Hg Hk). apply last_None in El. by rewrite El in Hin.
Qed.

Lemma commits_last_max rs f t k :
  commits rs -> last (List.filter f rs) = Some (t, k) ->
  forall q, In q rs -> f q = true -> q.2 <= k /\ q.1 <= t.
Proof.
  induction rs as [|p rs IH] using rev_ind; intros Hc Hl q Hq Hf; [done|].
  apply commits_snoc in Hc as [Hc Hp]. rewrite List.Forall_forall in Hp.
  rewrite last_filter_snoc in Hl. apply in_app_iff in Hq as [Hq|[->|[]]].
  - destruct (f p); [injection Hl as ->|by apply IH].
    specialize (Hp _ Hq). simpl in Hp. lia.
  - rewrite Hf in Hl. injection Hl as ->. simpl. lia.
Qed.

Lemma last_filter_some {A} (f : A -> bool) l x :
  In x l -> f x = true -> exists y, last (List.filter f l) = Some y /\ In y l /\ f y = true.
Proof.
  intros Hx Hf. destruct (last (List.filter f l)) as [y|] eqn:E.
  - exists y. split; [done|]. by apply last_In, filter_In in E.
  - apply last_None in E. assert (In x (List.filter f l)) as Hi by (by apply filter_In).
    by rewrite E in Hi.
Qed.

(** Every recorded instant is in the map, under its last transaction. *)
Lemma by_instant_present rs q :
  commits rs -> In q rs ->
  exists t, om_get q.2 (rb_iter (by_instant (instants_of rs))) = Some t /\ In (t, q.2) rs /\
            forall t', In (t', q.2) rs -> t' <= t.
Proof.
  intros Hc Hq. rewrite by_instant_get by done.
  destruct (last_filter_some (fun p => (p.2 =? q.2)%Z) rs q Hq) as ([t k] & E & Hin & Hk);
    [apply Z.eqb_refl|]. simpl in Hk. apply Z.eqb_eq in Hk. subst k.
  exists t. rewrite E. split_and!; [done..|]. intros t' Ht'.
  by apply (commits_last_max _ _ _ _ Hc E (t', q.2)); [|apply Z.eqb_refl].
Qed.

Lemma t_at_last rs i : commits rs -> t_at (instants_of rs) i = last_at rs i.
Proof.
  intros Hc. unfold t_at, last_at. rewrite rb_upto_iter.
  pose proof (last_upto_spec _ i (instants_iter_wf rs)) as Hs.
  destruct (last (List.filter (fun p => (p.2 <=? i)%Z) rs)) as [[t k]|] eqn:Ei.
  - pose proof (last_In _ _ Ei) as [Hin Hk]%filter_In. simpl in Hk. apply Z.leb_le in Hk.
    destruct (by_instant_present rs (t, k) Hc Hin) as (t1 & Hg & Hin1 & Hmax1). simpl in *.
    destruct (last (om_upto i _)) as [[k' v]|]; [|specialize (Hs _ _ Hg); lia].
    destruct Hs as (Hg' & Hk' & Hmax). assert (k <= k') as Hle by (by eapply Hmax).
    rewrite by_instant_get in Hg' by done.
    destruct (last (List.filter (fun p => (p.2 =? k')%Z) rs)) as [[v' k'']|] eqn:Ek; [|done].
    injection Hg' as ->. pose proof (last_In _ _ Ek) as [Hin' Hkk]%filter_In.
    simpl in Hkk. apply Z.eqb_eq in Hkk. subst k''.
    destruct (commits_last_max _ _ _ _ Hc Ei (v, k') Hin') as [H1 H2]; [by apply Z.leb_le|].
    simpl in H1, H2. assert (k' = k) as -> by lia.
    destruct (commits_last_max _ _ _ _ Hc Ek (t, k) Hin) as [_ H3]; [apply Z.eqb_refl|].
    simpl in H3. lia.
  - destruct (last (om_upto i _)) as [[k v]|]; [|done]. exfalso.
    destruct Hs as (Hg & Hk & _). rewrite by_instant_get in Hg by done.
    destruct (last (List.filter (fun p => (p.2 =? k)%Z) rs)) as [[v' k']|] eqn:Ek; [|done].
    pose proof (last_In _ _ Ek) as [Hin Hkk]%filter_In. simpl in Hkk. apply Z.eqb_eq in Hkk. subst k'.
    destruct (last_filter_some (fun p => (p.2 <=? i)%Z) rs (v', k) Hin) as (y & E & _);
      [by apply Z.leb_le|]. by rewrite Ei in E.
Qed.

End reads.
