(* ===== verification/DbTheorems.v ===== *)
(** * Theorems about database values

    The properties of [Db] (corium-db/src/lib.rs): what its reads return in every time
    view, that cached and incrementally derived indexes read as a rebuild, that a past
    basis can be revisited, and that a value can be reopened from a snapshot. *)

From stdpp Require Import base list strings sorting relations.
From Stdlib Require Import ZArith Lia.
From S2P Require Import Prelude OrdMap Machine Ids Keyword Values Encoding Datoms Schema.
From S2P Require Import Bootstrap SchemaDatoms Db DbFacts DbReads.
Local Open Scope Z_scope.

Section theorems.
Context {R : Rpds} {HR : RpdsLaws R}.
Implicit Types db : Db.

(** ** Values that agree now

    Two current values agree when they have the same schema and interner and leave the
    same datom live for every fact, however they got there. *)

Record same_now (db db' : Db) : Prop := {
  sn_schema : db_schema db = db_schema db';
  sn_interner : db_interner db = db_interner db';
  sn_view : view db = DbView.Current;
  sn_view' : view db' = DbView.Current;
  sn_status : forall f, status f (recorded_datoms db) = status f (recorded_datoms db') }.

Lemma same_now_datoms db db' o :
  db_ok db -> db_ok db' -> same_now db db' -> datoms_at db o = datoms_at db' o.
Proof.
  intros H H' [Hsch _ Hv Hv' Hst]. unfold datoms_at. f_equal.
  rewrite !indexes_iter, Hv, Hv', !rebuilt_current by (done || by apply ok_wf).
  apply om_ext_In; [apply fold_order_wf..|]. intros [k d].
  rewrite !In_fold_order by (apply datoms_wf_facts; by apply ok_wf).
  unfold live. by rewrite Hst, Hsch.
Qed.

Lemma apply_transaction_interner db t ds : db_interner (apply_transaction db t ds) = db_interner db.
Proof.
  unfold apply_transaction. cbn zeta. destruct (touches_naming ds); [by destruct (derive _ _ _ _ _)|done].
Qed.

Lemma derive_schema_idents s i i' k t ds : (derive s i k t ds).1 = (derive s i' k t ds).1.
Proof. done. Qed.

Lemma same_now_apply db db' t ds :
  same_now db db' -> same_now (apply_transaction db t ds) (apply_transaction db' t ds).
Proof.
  intros [Hsch Hint Hv Hv' Hst]. split.
  - rewrite !apply_transaction_schema, Hsch, Hint. destruct (touches_naming ds); [|done].
    apply derive_schema_idents.
  - by rewrite !apply_transaction_interner.
  - by rewrite apply_transaction_view.
  - by rewrite apply_transaction_view.
  - intros f. rewrite !apply_transaction_recorded, !status_app. by rewrite Hst.
Qed.

(** A run of transactions: [(t, instant, datoms)] in commit order. *)
Notation commit := (Z * Z * list Datom)%type.

Definition run (db : Db) (txs : list commit) : Db :=
  fold_left (fun db '(t, i, ds) => with_transaction_at db t i ds) txs db.

Lemma same_now_run db db' txs : same_now db db' -> same_now (run db txs) (run db' txs).
Proof.
  revert db db'. induction txs as [|[[t i] ds] txs IH]; intros db db' Hs; [done|]. simpl.
  apply IH. rewrite !with_transaction_at_unfold.
  destruct (same_now_apply db db' t (stamped t i ds) Hs). by split.
Qed.

(** Each commit is above the basis it lands on and is stamped with its own transaction. *)
Fixpoint run_ok (basis : Z) (txs : list commit) : Prop :=
  match txs with
  | [] => True
  | (t, i, ds) :: txs =>
      basis < t < 2 ^ 42 /\ i64 i /\ tx_ok t ds /\
      Forall (fun d => sequence (d_tx d) = t) ds /\ run_ok t txs
  end.

Lemma with_transaction_at_basis db t i ds : basis_t (with_transaction_at db t i ds) = t.
Proof. rewrite with_transaction_at_unfold. apply apply_transaction_basis. Qed.

Lemma with_transaction_at_view db t i ds : view (with_transaction_at db t i ds) = view db.
Proof. rewrite with_transaction_at_unfold. apply apply_transaction_view. Qed.

Lemma with_transaction_at_recorded db t i ds :
  recorded_datoms (with_transaction_at db t i ds) = recorded_datoms db ++ stamped t i ds.
Proof. rewrite with_transaction_at_unfold. apply apply_transaction_recorded. Qed.

Lemma with_transaction_at_ok db t i ds :
  0 <= basis_t db -> db_ok db -> view db = DbView.Current -> basis_t db < t < 2 ^ 42 -> i64 i ->
  tx_ok t ds -> db_ok (with_transaction_at db t i ds).
Proof.
  intros Hb Hdb Hv Ht Hi Hds. apply (db_step_ok db); [done..|]. by apply step_transaction.
Qed.

Lemma run_inv db txs :
  0 <= basis_t db -> db_ok db -> view db = DbView.Current -> run_ok (basis_t db) txs ->
  0 <= basis_t (run db txs) /\ db_ok (run db txs) /\ view (run db txs) = DbView.Current.
Proof.
  revert db. induction txs as [|[[t i] ds] txs IH]; intros db Hb Hdb Hv Hr; [done|].
  simpl in Hr. destruct Hr as (Ht & Hi & Hds & _ & Hr). simpl. apply IH.
  - rewrite with_transaction_at_basis. lia.
  - by apply with_transaction_at_ok.
  - by rewrite with_transaction_at_view.
  - by rewrite with_transaction_at_basis.
Qed.

(** What a run records lies after the basis it started from. *)
Lemma stamped_sequence t i ds :
  0 <= t < 2 ^ 42 -> Forall (fun d => sequence (d_tx d) = t) ds ->
  Forall (fun d => sequence (d_tx d) = t) (stamped t i ds).
Proof.
  intros Ht Hds. unfold stamped. destruct (is_some _); [done|]. apply Forall_app. split; [done|].
  apply List.Forall_cons; [|done]. unfold tx_instant_datom. cbn [d_tx].
  by destruct (tx_entity t Ht) as (_ & _ & ? & _).
Qed.

Lemma run_recorded db txs :
  0 <= basis_t db -> run_ok (basis_t db) txs ->
  exists tail, recorded_datoms (run db txs) = recorded_datoms db ++ tail /\
               Forall (fun d => basis_t db < sequence (d_tx d)) tail /\
               basis_t db <= basis_t (run db txs).
Proof.
  revert db. induction txs as [|[[t i] ds] txs IH]; intros db Hb Hr.
  { exists []. rewrite app_nil_r. split_and!; [done|constructor|done]. }
  simpl in Hr. destruct Hr as (Ht & Hi & Hds & Hq & Hr). simpl.
  destruct (IH (with_transaction_at db t i ds)) as (tail & E & Htail & Hle);
    [rewrite with_transaction_at_basis; lia|by rewrite with_transaction_at_basis|].
  rewrite with_transaction_at_basis in Htail, Hle.
  exists (stamped t i ds ++ tail). rewrite E, with_transaction_at_recorded, app_assoc.
  split_and!; [done| |lia]. apply Forall_app. split.
  - eapply Forall_impl; [apply (stamped_sequence t i ds); [lia|done]|]. simpl. lia.
  - eapply Forall_impl; [exact Htail|]. simpl. lia.
Qed.

(** ** Reads in every view *)

(** C2. In every reachable value and every time view, each covering index holds exactly the
    covered datoms the view shows (live now; live at the as-of basis; live and added after
    the since basis; all retained history), in strictly increasing key order, which outside
    history is the index's component order. *)
Theorem view_reads sch db o :
  reachable sch db ->
  (forall d, In d (datoms_at db o) <->
     covered (db_schema db) o d = true /\
     visible (db_schema db) (view db) (recorded_datoms db) d) /\
  StronglySorted (fun d d' => olt (view_key (view db) o d) (view_key (view db) o d')) (datoms_at db o) /\
  (view db <> DbView.History ->
   StronglySorted (fun d d' => fact_cmp o (d_fact d) (d_fact d') = Lt) (datoms_at db o)).
Proof.
  intros [_ Hdb]%reachable_inv. split_and!.
  - intros d. by apply datoms_at_In.
  - by apply datoms_at_sorted.
  - by apply datoms_at_fact_sorted.
Qed.

(** C5. Incremental maintenance equals a rebuild: after a transaction on any reachable
    current value, whether or not its indexes had been materialised and whether or not the
    transaction changes the schema, each index reads as the fold of the whole record under
    the new schema. *)
Theorem transaction_indexes sch db t i ds o :
  reachable sch db -> view db = DbView.Current -> basis_t db < t < 2 ^ 42 -> i64 i -> tx_ok t ds ->
  let db' := with_transaction_at db t i ds in
  rb_iter (indexes db' o) =
    rb_iter (materialize (db_schema db') DbView.Current (recorded_datoms db ++ stamped t i ds) o) /\
  (changes_schema (stamped t i ds) = false -> db_schema db' = db_schema db) /\
  db_ok db'.
Proof.
  intros [Hb Hdb]%reachable_inv Hv Ht Hi Hds. cbn zeta.
  assert (db_ok (with_transaction_at db t i ds)) as Hdb' by (by apply with_transaction_at_ok).
  split_and!; [| |done].
  - rewrite indexes_iter by done.
    by rewrite with_transaction_at_view, Hv, with_transaction_at_recorded.
  - intros Hc. rewrite with_transaction_at_unfold. apply apply_transaction_schema_kept; [|done].
    apply stamped_ok; [lia|done..].
Qed.

(** C27. The past stays readable. After any run of later transactions, the as-of view at the
    old basis has in each index the facts of the old value, and no others, that the schema
    as it is now covers there; so EAVT, AEVT and VAET read as they did in the old value, and
    so does AVET when the run changed the coverage of no old datom. *)
Theorem as_of_past sch db txs o :
  reachable sch db -> view db = DbView.Current -> run_ok (basis_t db) txs ->
  let db' := run db txs in
  let past := as_of db' (basis_t db) in
  (forall d, In d (datoms_at past o) <-> In d (datoms_at db Eavt) /\ covered (db_schema db') o d = true) /\
  ((forall d, In d (recorded_datoms db) -> covered (db_schema db') o d = covered (db_schema db) o d) ->
   datoms_at past o = datoms_at db o).
Proof.
  intros [Hb Hdb]%reachable_inv Hv Hr db' past.
  destruct (run_inv db txs Hb Hdb Hv Hr) as (Hb' & Hdb' & Hv').
  destruct (run_recorded db txs Hb Hr) as (tail & Erec & Htail & Hle).
  assert (db_ok past) as Ha by (by apply with_view_ok).
  assert (List.filter (within (Some (basis_t db))) (recorded_datoms db') = recorded_datoms db) as Ef.
  { unfold db'. rewrite Erec, List.filter_app, filter_all_true, filter_all_false, app_nil_r; [done| |].
    - intros d Hd. rewrite List.Forall_forall in Htail. specialize (Htail _ Hd).
      unfold within. simpl. apply Z.leb_gt. lia.
    - intros d Hd. pose proof (ok_basis _ Hdb) as Hbs. rewrite List.Forall_forall in Hbs.
      specialize (Hbs _ Hd). unfold within. simpl. apply Z.leb_le. lia. }
  assert (Hpast : om_wf (rb_iter (indexes past o)) /\ forall k d, In (k, d) (rb_iter (indexes past o)) <->
    k = view_key DbView.Current o d /\ covered (db_schema db') o d = true /\ visible (db_schema db) DbView.Current (recorded_datoms db) d).
  { rewrite indexes_iter by done. unfold past, as_of. rewrite with_view_view, with_view_recorded, with_view_schema.
    destruct (materialize_In (db_schema db') (DbView.AsOf (basis_t db)) (recorded_datoms db') o (ok_wf _ Hdb')) as [H1 H2].
    split; [done|]. intros k d. rewrite H2. unfold visible. by rewrite Ef. }
  assert (Hold : forall o, om_wf (rb_iter (indexes db o)) /\ forall k d, In (k, d) (rb_iter (indexes db o)) <->
    k = view_key DbView.Current o d /\ covered (db_schema db) o d = true /\ visible (db_schema db) DbView.Current (recorded_datoms db) d).
  { intros o'. rewrite indexes_iter, Hv by done. exact (materialize_In (db_schema db) DbView.Current (recorded_datoms db) o' (ok_wf _ Hdb)). }
  destruct Hpast as [Hw Hpast]. unfold datoms_at. split.
  - intros d. rewrite !in_map_iff. split.
    + intros ([k d'] & <- & (_ & Hc & Hd)%Hpast). split; [|done]. exists (view_key DbView.Current Eavt d', d'). split; [done|]. by apply (Hold Eavt).
    + intros [([k d'] & <- & (_ & _ & Hd)%(Hold Eavt)) Hc]. exists (view_key DbView.Current o d', d'). split; [done|]. by apply Hpast.
  - intros Hcov. f_equal. apply om_ext_In; [done|apply Hold|]. intros [k d]. rewrite Hpast, (proj2 (Hold o)).
    split; intros (Hk & Hc & Hl); (split_and!; [done| |done]);
      [rewrite <- Hcov|rewrite Hcov]; try done; by apply status_Some in Hl as [? _].
Qed.

(** Point reads: [values] lists exactly the values the view shows for the pair, in value
    order; [lookup] finds the least entity carrying the value and answers [None] exactly
    when there is none, through AVET or through AEVT alike. *)
Theorem point_reads sch db e a w :
  reachable sch db -> view db <> DbView.History -> u64 e -> u64 a -> value_wf w ->
  (In w (values db e a) <->
     exists d, visible (db_schema db) (view db) (recorded_datoms db) d /\ d_fact d = (e, a, w)) /\
  StronglySorted olt (values db e a) /\
  match lookup db a w with
  | Some e0 => In w (values db e0 a) /\ forall e', u64 e' -> In w (values db e' a) -> e0 <= e'
  | None => forall e', u64 e' -> ~ In w (values db e' a)
  end.
Proof.
  intros [_ Hdb]%reachable_inv Hv He Ha Hw. split_and!.
  - by apply values_In.
  - rewrite values_filter by done. pose proof (datoms_at_fact_sorted db Eavt Hdb Hv) as Hs.
    unfold datoms. induction Hs as [|d ds Hs IH Hd]; simpl; [constructor|].
    destruct (about e a d) eqn:E; [|done]. simpl. constructor; [done|].
    rewrite List.Forall_forall in *. intros v (d' & <- & [Hd' E']%filter_In)%in_map_iff.
    specialize (Hd d' Hd'). unfold about in E, E'.
    apply andb_true_iff in E as [E1%bool_decide_eq_true E2%bool_decide_eq_true].
    apply andb_true_iff in E' as [E3%bool_decide_eq_true E4%bool_decide_eq_true].
    unfold d_fact, fact_cmp in Hd. by rewrite E1, E2, E3, E4, !cmp_pair, !cmp_refl in Hd.
  - by apply lookup_least.
Qed.

(** [index_range] refuses an attribute that was ever protected, and otherwise returns
    exactly the indexed datoms of the attribute with [start <= v < end], in order. *)
Theorem index_range_spec sch db a start end_ :
  reachable sch db -> view db <> DbView.History -> u64 a ->
  (forall w, start = Some w -> value_wf w) ->
  index_range db a start end_ =
  if ever_protected (protection (db_schema db) a) then Err (RangeError.Protected a)
  else Ok (List.filter (in_range a start end_) (datoms_at db Avet)).
Proof.
  intros [_ Hdb]%reachable_inv Hv Ha Hs. destruct (ever_protected _) eqn:E.
  - unfold index_range. by rewrite E.
  - by apply index_range_filter.
Qed.

(** The backwards scan for the recorded tail finds exactly the datoms of transactions
    after [t], for a run over any prefix at or before [t] (a replayed history or a
    snapshot's live datoms). *)
Theorem recorded_since_spec db t l1 l2 :
  recorded_datoms db = l1 ++ l2 ->
  Forall (fun d => after t d = false) l1 -> Forall (fun d => after t d = true) l2 ->
  recorded_since db t = List.filter (after t) (recorded_datoms db) /\ recorded_since db t = l2.
Proof.
  intros E H1 H2. assert (recorded_since db t = l2) as Hr.
  { unfold recorded_since. rewrite vec_len_iter. fold (recorded_datoms db). rewrite E, length_app.
    rewrite (back_to_app _ t l1 l2 E H1 H2) by done.
    replace (length l1 + length l2 - length l1)%nat with (length l2) by lia.
    by apply filter_map_seq. }
  split; [|done]. rewrite Hr, E, List.filter_app.
  rewrite List.Forall_forall in H1, H2. by rewrite filter_all_false, filter_all_true.
Qed.

(** Naming a view by instant: with commits of increasing [t] and non-decreasing
    instants, [t_at] is the last transaction committed at or before the instant, and zero
    before the first. *)
Theorem t_at_spec rs i :
  commits rs -> t_at (instants_of rs) i = last_at rs i.
Proof. apply t_at_last. Qed.

(** Allocation is fresh: no entity recorded by a reachable value has a user-partition
    sequence at or above [next_user_sequence]. *)
Theorem next_user_fresh sch db n :
  reachable sch db -> next_user_sequence db <= n < 2 ^ 42 ->
  forall d, In d (recorded_datoms db) -> d_e d <> entity_new (partition_id Partition.User) n.
Proof.
  intros [_ Hdb]%reachable_inv Hn d Hd E. pose proof (ok_next _ Hdb) as Hx.
  rewrite List.Forall_forall in Hx. specialize (Hx d Hd). rewrite E in Hx.
  rewrite partition_new, sequence_new in Hx by done.
  destruct (Z.lt_ge_cases n 0) as [Hneg|Hpos].
  - specialize (Hx eq_refl). pose proof (Z.mod_pos_bound n (2 ^ 42)). lia.
  - specialize (Hx eq_refl). rewrite Z.mod_small in Hx by lia. lia.
Qed.

(** ** Reopening *)

Lemma status_of_set f (l : list Datom) :
  (forall x y, In x l -> In y l -> d_fact x = d_fact y -> x = y) ->
  (forall x, In x l -> d_added x = true) ->
  status f l = find (fun d => bool_decide (d_fact d = f)) l.
Proof.
  intros Hu Ha. unfold status. induction l as [|d l IH]; [done|]. simpl.
  unfold status_step at 2. case_bool_decide as E.
  - rewrite (Ha d) by (by left). destruct (find (fun d => bool_decide (d_fact d = f)) l) as [d'|] eqn:Ef.
    + apply find_some in Ef as [Hin Hf%bool_decide_eq_true].
      assert (d' = d) as -> by (apply Hu; [by right|by left|congruence]).
      clear -Hin E Hu Ha. assert (forall l0, (forall x, In x l0 -> d_fact x = f -> x = d) ->
        fold_left (status_step f) l0 (Some d) = Some d) as Hgen.
      { induction l0 as [|x l0 IH0]; intros Hx; [done|]. simpl. unfold status_step at 2.
        case_bool_decide as Ex; [|apply IH0; intros; apply Hx; [by right|done]].
        rewrite (Hx x) by (done || by left). rewrite (Ha d) by (by left).
        apply IH0. intros; apply Hx; [by right|done]. }
      apply Hgen. intros x Hx Efx. apply Hu; [by right|by left|congruence].
    + apply status_none_about. intros x Hx Efx. eapply find_none in Ef; [|exact Hx].
      by apply bool_decide_eq_false in Ef.
  - apply IH; [|intros; apply Ha; by right]. intros x y Hx Hy. apply Hu; by right.
Qed.

(** A snapshot of the live datoms leaves every fact as it was. *)
Lemma status_datoms db f :
  db_ok db -> view db = DbView.Current -> status f (datoms db) = status f (recorded_datoms db).
Proof.
  intros Hdb Hv.
  assert (forall d, In d (datoms db) <-> live (recorded_datoms db) d) as Hin.
  { intros d. unfold datoms. rewrite datoms_at_In by done. rewrite Hv. simpl. naive_solver. }
  rewrite status_of_set.
  - destruct (status f (recorded_datoms db)) as [d|] eqn:E.
    + pose proof E as (_ & Hf & _)%status_Some. subst f.
      destruct (find _ (datoms db)) as [d'|] eqn:Ef.
      * apply find_some in Ef as [Hd' Hf%bool_decide_eq_true]. f_equal.
        apply Hin in Hd'. by apply (live_unique (recorded_datoms db)).
      * eapply find_none in Ef; [|by apply (Hin d)]. by apply bool_decide_eq_false in Ef.
    + destruct (find _ (datoms db)) as [d'|] eqn:Ef; [|done].
      apply find_some in Ef as [Hd' Hf%bool_decide_eq_true]. apply Hin in Hd'.
      unfold live in Hd'. congruence.
  - intros x y Hx%Hin Hy%Hin. by apply (live_unique (recorded_datoms db)).
  - intros x Hx%Hin. by apply status_Some in Hx as (_ & _ & ?).
Qed.

Definition reopened db (idents : Idents) : Db :=
  from_current_snapshot_with_next_user (basis_t db) (next_user_sequence db) (db_schema db) idents
    (db_interner db) (datoms db).

Lemma reopened_recorded db idents : recorded_datoms (reopened db idents) = datoms db.
Proof. unfold reopened, from_current_snapshot_with_next_user, recorded_datoms. simpl. apply vec_iter_collect. Qed.

Lemma bump_saturating_ge n ds :
  n <= bump_user_saturating n ds /\
  forall d, In d ds -> partition (d_e d) = partition_id Partition.User ->
    sequence (d_e d) < bump_user_saturating n ds.
Proof.
  unfold bump_user_saturating. set (l := map _ _). destruct (fold_max_ge l n) as [H1 H2]. split; [done|].
  intros d Hd Hp. pose proof (sequence_bound (d_e d)) as Hs.
  assert (saturating_add_u64 (sequence (d_e d)) 1 <= fold_left Z.max l n) as Hle.
  { apply H2. unfold l. apply in_map_iff. exists d. split; [done|]. apply filter_In.
    split; [done|]. by apply bool_decide_eq_true. }
  unfold saturating_add_u64 in Hle. lia.
Qed.

Lemma reopened_ok db idents : db_ok db -> view db = DbView.Current -> db_ok (reopened db idents).
Proof.
  intros Hdb Hv. pose proof Hdb as [Hw Hb Hn _ _].
  unfold datoms_wf in Hw. rewrite List.Forall_forall in Hw, Hb, Hn.
  assert (forall d, In d (datoms db) -> In d (recorded_datoms db)) as Hin.
  { intros d Hd. unfold datoms in Hd. apply datoms_at_In in Hd as [_ Hd]; [|done].
    by eapply visible_recorded. }
  split; rewrite ?reopened_recorded; try done.
  - apply List.Forall_forall. auto.
  - apply List.Forall_forall. intros d Hd. apply Hb. auto.
  - apply List.Forall_forall. intros d Hd Hp.
    by apply (bump_saturating_ge (Z.max (next_user_sequence db) FIRST_USER_ID) (datoms db)).
Qed.

(** Reopening from a published current snapshot: the reopened value reads as the
    original in every index, at the snapshot and after replaying any log tail on both, and
    its allocator is not behind the original's. *)
Theorem reopen_current sch db idents txs o :
  reachable sch db -> view db = DbView.Current -> install_schema (db_schema db) = db_schema db ->
  run_ok (basis_t db) txs ->
  datoms_at (run (reopened db idents) txs) o = datoms_at (run db txs) o /\
  db_schema (run (reopened db idents) txs) = db_schema (run db txs) /\
  next_user_sequence db <= next_user_sequence (reopened db idents).
Proof.
  intros [Hb Hdb]%reachable_inv Hv Hinst Hr.
  assert (db_ok (reopened db idents)) as Hdb' by (by apply reopened_ok).
  assert (same_now (reopened db idents) db) as Hs.
  { split; [exact Hinst|done|done|done|]. intros f. rewrite reopened_recorded. by apply status_datoms. }
  pose proof (same_now_run _ _ txs Hs) as Hs'.
  split_and!; [|by apply sn_schema|].
  - apply same_now_datoms; [| |done].
    + apply (run_inv (reopened db idents)); done.
    + by apply (run_inv db).
  - unfold reopened, from_current_snapshot_with_next_user. simpl.
    destruct (bump_saturating_ge (Z.max (next_user_sequence db) FIRST_USER_ID) (datoms db)). lia.
Qed.

(** *** From a history snapshot *)

Definition retained (sch : Schema) (f : Fact) : bool :=
  negb (is_some_and (schema_get sch f.1.2) no_history).

Definition reopened_history db (next : Z) (idents : Idents) : Db :=
  from_history_snapshot_with_next_user (basis_t db) next (db_schema db) idents
    (db_interner db) (datoms (history db)) (datoms db).

(** Transactions in order, and no fact stated twice by one transaction. *)
Definition one_per_tx (ds : list Datom) : Prop :=
  StronglySorted (fun d d' => d_tx d <= d_tx d' /\ (d_fact d = d_fact d' -> d_tx d < d_tx d')) ds.

Definition about_fact (f : Fact) (d : Datom) : bool := bool_decide (d_fact d = f).

Lemma status_about f ds : status f (List.filter (about_fact f) ds) = status f ds.
Proof. apply status_filter. intros d _ E. by apply bool_decide_eq_true. Qed.

Lemma strictly_sorted_ext {A} (Q : A -> A -> Prop) l k :
  (forall x y, Q x y -> Q y x -> False) ->
  StronglySorted Q l -> StronglySorted Q k -> (forall x, In x l <-> In x k) -> l = k.
Proof.
  intros Hq Hl. revert k. induction Hl as [|a l Hl IH Ha]; intros k Hk Hin.
  { destruct k as [|b k]; [done|]. exfalso. apply (Hin b). by left. }
  destruct Hk as [|b k Hk Hb]; [exfalso; apply (Hin a); by left|].
  rewrite List.Forall_forall in Ha, Hb.
  assert (a = b) as <-.
  { destruct (proj1 (Hin a) (or_introl eq_refl)) as [->|Ha']; [done|].
    destruct (proj2 (Hin b) (or_introl eq_refl)) as [->|Hb']; [done|].
    exfalso. apply (Hq a b); auto. }
  f_equal. apply IH; [done|]. intros x. split; intros Hx.
  - destruct (proj1 (Hin x) (or_intror Hx)) as [->|?]; [exfalso; by apply (Hq x x); apply Ha|done].
  - destruct (proj2 (Hin x) (or_intror Hx)) as [->|?]; [exfalso; by apply (Hq x x); apply Hb|done].
Qed.

Lemma strongly_sorted_weaken {A} (Q Q' : A -> A -> Prop) l :
  (forall x y, In x l -> In y l -> Q x y -> Q' x y) -> StronglySorted Q l -> StronglySorted Q' l.
Proof.
  intros Hq Hl. induction Hl as [|x l Hl IH Hx]; constructor.
  - apply IH. intros y z Hy Hz. apply Hq; by right.
  - rewrite List.Forall_forall in *. intros y Hy. apply Hq; [by left|by right|by apply Hx].
Qed.

(** For a retained fact the history index lists the fact's datoms in recorded order. *)
Lemma history_about db f :
  db_ok db -> one_per_tx (recorded_datoms db) -> retained (db_schema db) f = true ->
  List.filter (about_fact f) (datoms (history db)) = List.filter (about_fact f) (recorded_datoms db).
Proof.
  intros Hdb Ho Hf. assert (db_ok (history db)) as Hh by (by apply with_view_ok).
  assert (forall d, d_fact d = f -> In d (datoms (history db)) <-> In d (recorded_datoms db)) as Hin.
  { intros d Hd. unfold datoms. rewrite datoms_at_In by done.
    unfold history. rewrite with_view_view, with_view_recorded, with_view_schema. simpl.
    unfold retained in Hf. subst f. simpl in Hf. apply negb_true_iff in Hf. rewrite Hf. naive_solver. }
  apply (strictly_sorted_ext (fun d d' => d_tx d < d_tx d')).
  - intros x y. lia.
  - eapply strongly_sorted_weaken;
      [|exact (filter_strongly_sorted _ _ _ (datoms_at_sorted (history db) Eavt Hh))].
    intros x y [Hx Ex]%filter_In [Hy Ey]%filter_In Hlt.
    apply bool_decide_eq_true in Ex, Ey. unfold olt, history in Hlt. rewrite with_view_view in Hlt.
    simpl in Hlt. rewrite datom_key_cmp in Hlt by (by apply (datoms_at_wf (history db) Eavt)).
    assert (fact_cmp Eavt (d_fact x) (d_fact y) = Eq) as Eq0 by (apply fact_cmp_eq; congruence).
    rewrite Eq0 in Hlt. simpl in Hlt.
    destruct (Z.lt_trichotomy (d_tx x) (d_tx y)) as [?|[E|Hgt]]; [done| |].
    + apply Hin in Hx, Hy; [|done..]. exfalso.
      assert (x = y) as ->; [|by rewrite cmp_refl in Hlt].
      clear -Ho Hx Hy E Ex Ey. induction Ho as [|z l Hl IH Hz]; [done|].
      rewrite List.Forall_forall in Hz. destruct Hx as [->|Hx], Hy as [->|Hy]; [done| | |by apply IH].
      * destruct (Hz y Hy) as [_ Hlt]. rewrite Ex, Ey in Hlt. specialize (Hlt eq_refl). lia.
      * destruct (Hz x Hx) as [_ Hlt]. rewrite Ex, Ey in Hlt. specialize (Hlt eq_refl). lia.
    + rewrite cmp_pair, (Zcmp_gt _ _ Hgt) in Hlt. done.
  - eapply strongly_sorted_weaken; [|exact (filter_strongly_sorted _ _ _ Ho)].
    intros x y [_ Ex]%filter_In [_ Ey]%filter_In [_ Hlt].
    apply bool_decide_eq_true in Ex, Ey. apply Hlt. congruence.
  - intros x. rewrite !filter_In. split; intros [Hx Ex]; (split; [|done]);
      apply bool_decide_eq_true in Ex; by apply Hin.
Qed.

Definition unretained db : list Datom :=
  List.filter (fun d => is_some_and (schema_get (db_schema db) (d_a d)) no_history) (datoms db).

Lemma reopened_history_recorded db next idents :
  install_schema (db_schema db) = db_schema db ->
  recorded_datoms (reopened_history db next idents) = datoms (history db) ++ unretained db.
Proof.
  intros Hi. unfold reopened_history, from_history_snapshot_with_next_user, install,
    recorded_datoms, unretained. cbv beta iota zeta. cbn [recorded].
  by rewrite vec_iter_collect, Hi.
Qed.

Lemma filter_comm {A} (p q : A -> bool) l :
  List.filter p (List.filter q l) = List.filter q (List.filter p l).
Proof.
  rewrite !filter_filter_and. apply List.filter_ext. intros x. apply andb_comm.
Qed.

Lemma reopened_history_retained db next idents f (p : Datom -> bool) :
  db_ok db -> one_per_tx (recorded_datoms db) -> install_schema (db_schema db) = db_schema db ->
  retained (db_schema db) f = true ->
  status f (List.filter p (recorded_datoms (reopened_history db next idents))) =
  status f (List.filter p (recorded_datoms db)).
Proof.
  intros Hdb Ho Hi Hf. rewrite <- (status_about f (List.filter p _)), <- (status_about f (List.filter p (recorded_datoms db))).
  rewrite !(filter_comm (about_fact f) p). do 2 f_equal.
  rewrite reopened_history_recorded, List.filter_app by done.
  rewrite (filter_all_false _ (unretained db)), app_nil_r; [by apply history_about|].
  intros d [_ Hd]%filter_In. unfold about_fact. apply bool_decide_eq_false. intros <-.
  unfold retained in Hf. simpl in Hf. by rewrite Hd in Hf.
Qed.

Lemma status_not_retained db next idents f :
  db_ok db -> view db = DbView.Current -> install_schema (db_schema db) = db_schema db ->
  retained (db_schema db) f = false ->
  status f (recorded_datoms (reopened_history db next idents)) = status f (recorded_datoms db).
Proof.
  intros Hdb Hv Hi Hf. rewrite reopened_history_recorded, status_app by done.
  unfold retained in Hf. apply negb_false_iff in Hf.
  assert (status f (datoms (history db)) = None) as ->.
  { apply status_none_about. intros d Hd E. unfold datoms in Hd.
    apply datoms_at_In in Hd as [_ Hd]; [|by apply with_view_ok].
    unfold history in Hd. rewrite with_view_view, with_view_schema in Hd. simpl in Hd.
    destruct Hd as [_ Hd]. subst f. simpl in Hf. congruence. }
  change (status f (unretained db) = status f (recorded_datoms db)).
  rewrite <- (status_datoms db f) by done. unfold unretained. apply status_filter.
  intros d _ <-. done.
Qed.

Lemma reopened_history_ok db next idents :
  db_ok db -> view db = DbView.Current -> install_schema (db_schema db) = db_schema db ->
  db_ok (reopened_history db next idents).
Proof.
  intros Hdb Hv Hi. pose proof Hdb as [Hw Hb _ _ _].
  unfold datoms_wf in Hw. rewrite List.Forall_forall in Hw, Hb.
  assert (forall d, In d (recorded_datoms (reopened_history db next idents)) -> In d (recorded_datoms db)) as Hin.
  { intros d. rewrite reopened_history_recorded by done. intros [Hd|[Hd _]%filter_In]%in_app_iff;
      unfold datoms in Hd; apply datoms_at_In in Hd as [_ Hd]; try done; try (by apply with_view_ok).
    - apply visible_recorded in Hd. unfold history in Hd. by rewrite with_view_recorded in Hd.
    - by eapply visible_recorded. }
  split; try done.
  - apply List.Forall_forall. auto.
  - apply List.Forall_forall. intros d Hd. apply Hb. auto.
  - apply List.Forall_forall. intros d Hd Hp.
    apply (bump_saturating_ge (Z.max next FIRST_USER_ID)
      (recorded_datoms (reopened_history db next idents))) in Hp; [|done].
    unfold reopened_history, from_history_snapshot_with_next_user, install, recorded_datoms in *.
    cbv beta iota zeta in *. cbn [recorded next_user_sequence] in *. by rewrite vec_iter_collect in Hp.
Qed.

Lemma reopened_history_now db next idents :
  db_ok db -> view db = DbView.Current -> install_schema (db_schema db) = db_schema db ->
  one_per_tx (recorded_datoms db) -> same_now (reopened_history db next idents) db.
Proof.
  intros Hdb Hv Hi Ho. split; [exact Hi|done|done|done|]. intros f. destruct (retained (db_schema db) f) eqn:Ef.
  - pose proof (reopened_history_retained db next idents f (fun _ => true) Hdb Ho Hi Ef) as E.
    by rewrite !filter_all_true in E.
  - by apply status_not_retained.
Qed.

(** C35. Reopening from a history snapshot: when no transaction states a fact twice, the
    reopened value reads as the original in every index, now and after any log tail, and
    its as-of views show the same retained facts, whatever allocation hint it is opened with. *)
Theorem reopen_history sch db next idents txs o :
  reachable sch db -> view db = DbView.Current -> install_schema (db_schema db) = db_schema db ->
  one_per_tx (recorded_datoms db) -> run_ok (basis_t db) txs ->
  datoms_at (run (reopened_history db next idents) txs) o = datoms_at (run db txs) o /\
  (forall t d, retained (db_schema db) (d_fact d) = true ->
     In d (datoms (as_of (reopened_history db next idents) t)) <-> In d (datoms (as_of db t))).
Proof.
  intros [Hb Hdb]%reachable_inv Hv Hi Ho Hr.
  assert (db_ok (reopened_history db next idents)) as Hdb' by (by apply reopened_history_ok).
  assert (same_now (reopened_history db next idents) db) as Hs by (by apply reopened_history_now).
  split.
  - apply same_now_datoms; [| |by apply same_now_run].
    + apply (run_inv (reopened_history db next idents)); done.
    + by apply (run_inv db).
  - intros t d Hd. unfold datoms, as_of. rewrite !datoms_at_In by (by apply with_view_ok).
    rewrite !with_view_view, !with_view_recorded. simpl. unfold live.
    by rewrite reopened_history_retained.
Qed.

End theorems.

(** ** Witnesses, over the list-backed containers *)

#[local] Existing Instance list_rpds.
#[local] Existing Instance list_rpds_laws.

Definition sample_attr : Attribute := attribute 100 ValueType.Long Cardinality.One (Some Unique.Value).
Definition sample_schema : Schema := schema_insert schema_default sample_attr.
Definition user (n : Z) : EntityId := entity_new (partition_id Partition.User) n.
Definition tx_id (t : Z) : TxId := entity_new (partition_id Partition.Tx) t.

(** Transaction 1 gives entity 1000 the value 5; transaction 2 replaces it by 6. *)
Definition sample_tx1 : list Datom :=
  [ mk_datom (user 1000) (at_id sample_attr) (Value.Long 5) (tx_id 1) true ].
Definition sample_tx2 : list Datom :=
  [ mk_datom (user 1000) (at_id sample_attr) (Value.Long 5) (tx_id 2) false;
    mk_datom (user 1000) (at_id sample_attr) (Value.Long 6) (tx_id 2) true ].

Definition sample_db1 : Db := with_transaction_at (db_new sample_schema) 1 1000 sample_tx1.
Definition sample_db2 : Db := with_transaction_at sample_db1 2 2000 sample_tx2.

Ltac wf_datoms :=
  repeat (apply List.Forall_cons; [split; [split_and!; unfold u64; try (by vm_compute)|by vm_compute]|]);
  try apply List.Forall_nil.

Lemma sample_tx1_ok : tx_ok 1 sample_tx1.
Proof.
  split.
  - wf_datoms.
  - apply List.Forall_cons; [by vm_compute|constructor].
  - intros d [<-|[]] H. vm_compute in H. done.
Qed.

Lemma sample_tx2_ok : tx_ok 2 sample_tx2.
Proof.
  split.
  - wf_datoms.
  - repeat (apply List.Forall_cons; [by vm_compute|]). constructor.
  - intros d [<-|[<-|[]]] H; vm_compute in H; done.
Qed.

Lemma sample_reachable1 : reachable sample_schema sample_db1.
Proof.
  apply rtc_once, step_transaction; [done|by vm_compute|by vm_compute|apply sample_tx1_ok].
Qed.

Lemma sample_run2 : run_ok (basis_t sample_db1) [(2, 2000, sample_tx2)].
Proof.
  split_and!; [by vm_compute|by vm_compute|by vm_compute|apply sample_tx2_ok| |done].
  repeat (apply List.Forall_cons; [by vm_compute|]). constructor.
Qed.

Lemma sample_reachable2 : reachable sample_schema sample_db2.
Proof.
  eapply rtc_r; [apply sample_reachable1|].
  apply step_transaction; [done|by vm_compute|by vm_compute|apply sample_tx2_ok].
Qed.

Lemma sample_schema_installed : install_schema (db_schema sample_db2) = db_schema sample_db2.
Proof. by vm_compute. Qed.

(** The view at basis 1 still shows 5, the current one 6. *)
Lemma view_reads_witness :
  let d := mk_datom (user 1000) (at_id sample_attr) (Value.Long 5) (tx_id 1) true in
  In d (datoms_at (as_of sample_db2 1) Avet) /\ ~ In d (datoms_at sample_db2 Avet).
Proof.
  assert (reachable sample_schema (as_of sample_db2 1)) as Hr.
  { eapply rtc_r; [apply sample_reachable2|apply step_view]. }
  split.
  - refine (proj2 (proj1 (view_reads sample_schema (as_of sample_db2 1) Avet Hr) _) _).
    split; by vm_compute.
  - rewrite (proj1 (view_reads sample_schema sample_db2 Avet sample_reachable2) _).
    intros [_ Hv]. vm_compute in Hv. done.
Defined.

Lemma transaction_indexes_witness :
  let db' := with_transaction_at (force_indexes sample_db1) 2 2000 sample_tx2 in
  rb_iter (indexes db' Avet) =
  rb_iter (materialize (db_schema db') DbView.Current
    (recorded_datoms (force_indexes sample_db1) ++ stamped 2 2000 sample_tx2) Avet).
Proof.
  assert (reachable sample_schema (force_indexes sample_db1)) as Hr.
  { eapply rtc_r; [apply sample_reachable1|apply step_force_indexes]. }
  destruct (transaction_indexes sample_schema (force_indexes sample_db1) 2 2000 sample_tx2 Avet Hr)
    as [H _]; [done|by vm_compute|by vm_compute|apply sample_tx2_ok|exact H].
Defined.

Lemma sample_view1 : view sample_db1 = DbView.Current.
Proof. by vm_compute. Qed.

Lemma sample_view2 : view sample_db2 = DbView.Current.
Proof. by vm_compute. Qed.

Lemma covered_eavt s s' d : covered s Eavt d = covered s' Eavt d.
Proof. done. Qed.

Lemma as_of_past_witness :
  datoms_at (as_of (run sample_db1 [(2, 2000, sample_tx2)]) (basis_t sample_db1)) Eavt =
  datoms_at sample_db1 Eavt.
Proof.
  exact (proj2 (as_of_past sample_schema sample_db1 [(2, 2000, sample_tx2)] Eavt
    sample_reachable1 sample_view1 sample_run2) (fun d _ => covered_eavt _ _ d)).
Defined.

Lemma point_reads_witness :
  lookup sample_db2 (at_id sample_attr) (Value.Long 6) = Some (user 1000) /\
  In (Value.Long 6) (values sample_db2 (user 1000) (at_id sample_attr)).
Proof.
  pose proof (point_reads sample_schema sample_db2 (user 1000) (at_id sample_attr) (Value.Long 6)) as H.
  assert (lookup sample_db2 (at_id sample_attr) (Value.Long 6) = Some (user 1000)) as E by (by vm_compute).
  rewrite E in H. split; [done|]. apply H; [apply sample_reachable2|done|by vm_compute..].
Defined.

Lemma index_range_spec_witness :
  index_range sample_db2 (at_id sample_attr) (Some (Value.Long 2)) (Some (Value.Long 9)) =
  Ok (List.filter (in_range (at_id sample_attr) (Some (Value.Long 2)) (Some (Value.Long 9)))
    (datoms_at sample_db2 Avet)).
Proof.
  rewrite (index_range_spec sample_schema sample_db2 (at_id sample_attr) (Some (Value.Long 2)) (Some (Value.Long 9)));
    [by vm_compute|apply sample_reachable2|done|by vm_compute|].
  intros w [= <-]. by vm_compute.
Defined.

Lemma recorded_since_spec_witness :
  recorded_since sample_db2 1 = List.filter (after 1) (recorded_datoms sample_db2).
Proof.
  apply (recorded_since_spec sample_db2 1 (recorded_datoms sample_db1) (stamped 2 2000 sample_tx2)).
  - by vm_compute.
  - repeat (apply List.Forall_cons; [by vm_compute|]). constructor.
  - repeat (apply List.Forall_cons; [by vm_compute|]). constructor.
Defined.

Lemma t_at_spec_witness :
  t_at (instants_of [(1, 1000); (2, 2000)]) 1500 = last_at [(1, 1000); (2, 2000)] 1500 /\
  last_at [(1, 1000); (2, 2000)] 1500 = 1.
Proof.
  split; [|done]. apply t_at_spec. repeat constructor; simpl; lia.
Defined.

Lemma next_user_fresh_witness :
  next_user_sequence sample_db2 <= 1001 /\
  (forall d, In d (recorded_datoms sample_db2) -> d_e d <> user 1001).
Proof.
  split; [by vm_compute|]. apply (next_user_fresh sample_schema sample_db2 1001); [apply sample_reachable2|by vm_compute].
Defined.

Lemma reopen_current_witness :
  datoms_at (run (reopened sample_db1 idents_default) [(2, 2000, sample_tx2)]) Avet =
  datoms_at (run sample_db1 [(2, 2000, sample_tx2)]) Avet.
Proof.
  refine (proj1 (reopen_current sample_schema sample_db1 idents_default [(2, 2000, sample_tx2)] Avet
    sample_reachable1 sample_view1 _ sample_run2)). by vm_compute.
Defined.

Lemma reopen_history_witness :
  datoms_at (run (reopened_history sample_db2 1000 idents_default) []) Avet =
  datoms_at (run sample_db2 []) Avet.
Proof.
  refine (proj1 (reopen_history sample_schema sample_db2 1000 idents_default [] Avet
    sample_reachable2 sample_view2 sample_schema_installed _ I)).
  vm_compute. repeat constructor; intros; congruence || lia || done.
Defined.

(** The condition is needed.  One transaction that asserts a fact and withdraws it leaves
    nothing live; the history index files the withdrawal before the assertion, so the
    reopened value shows the fact. *)
Definition add_then_retract : list Datom :=
  [ mk_datom (user 1000) (at_id sample_attr) (Value.Long 7) (tx_id 1) true;
    mk_datom (user 1000) (at_id sample_attr) (Value.Long 7) (tx_id 1) false ].

Lemma reopen_history_resurrects :
  let db := with_transaction_at (db_new sample_schema) 1 1000 add_then_retract in
  values db (user 1000) (at_id sample_attr) = [] /\
  values (reopened_history db 1000 idents_default) (user 1000) (at_id sample_attr) = [Value.Long 7].
Proof. by vm_compute. Qed.
