(* ===== verification/SagaDb.v ===== *)
(** * The saga registry as a read model (corium-db/src/saga.rs) *)

From stdpp Require Import base list strings sorting.
From Stdlib Require Import ZArith Lia Ascii.
From S2P Require Import Prelude OrdMap Machine Ids Keyword Values Encoding Datoms Schema.
From S2P Require Import Bootstrap SchemaDatoms Db.
Local Open Scope Z_scope.

Definition STATUS_NAMESPACE : string := "db.saga.status".
Definition COMPENSATION_STATUS_NAMESPACE : string := "db.saga.compensation.status".
Definition DEFAULT_ID_BLOCK : Z := Z.shiftl 1 20.
Definition BRANCH_INFIX : string := ".saga.".

(** ** Saga ids and branch names *)

Definition hex_digit (n : Z) : ascii :=
  ascii_of_N (Z.to_N (if (n <? 10)%Z then 48 + n else 87 + n)).

(** [n] hex digits, most significant first. *)
Fixpoint to_hex (n : nat) (x : Z) : string :=
  match n with
  | O => EmptyString
  | S n => String (hex_digit (Z.shiftr x (4 * Z.of_nat n) mod 16)) (to_hex n x)
  end.

Definition format_id (id : Z) : string := to_hex 32 id.

(** [char::to_digit(16)]. *)
Definition from_digit (c : ascii) : option Z :=
  let n := Z.of_N (N_of_ascii c) in
  if (48 <=? n)%Z && (n <=? 57)%Z then Some (n - 48)
  else if (97 <=? n)%Z && (n <=? 102)%Z then Some (n - 87)
  else if (65 <=? n)%Z && (n <=? 70)%Z then Some (n - 55)
  else None.

Fixpoint radix_loop (s : string) (acc : Z) : option Z :=
  match s with
  | EmptyString => Some acc
  | String c s => d ← from_digit c; if (acc * 16 + d <? 2 ^ 128)%Z then radix_loop s (acc * 16 + d) else None
  end.

(** [u128::from_str_radix(_, 16).ok()]: one leading [+] is allowed. *)
Definition from_str_radix16 (s : string) : option Z :=
  match s with
  | EmptyString => None
  | String c rest =>
      if bool_decide (c = "+"%char)
      then match rest with EmptyString => None | _ => radix_loop rest 0 end
      else radix_loop s 0
  end.

Fixpoint filter_chars (p : ascii -> bool) (s : string) : string :=
  match s with
  | EmptyString => EmptyString
  | String c s => if p c then String c (filter_chars p s) else filter_chars p s
  end.

Definition parse_id (text : string) : option Z :=
  let compact := filter_chars (fun c => negb (bool_decide (c = "-"%char))) text in
  if negb (String.length compact =? 32)%nat then None else from_str_radix16 compact.

Definition branch_name (parent : string) (saga : Z) : string :=
  (parent +:+ BRANCH_INFIX +:+ format_id saga)%string.

Fixpoint strip_prefix (sep s : string) : option string :=
  match sep, s with
  | EmptyString, _ => Some s
  | String a sep, String b s => if bool_decide (a = b) then strip_prefix sep s else None
  | String _ _, EmptyString => None
  end.

(** [str::rsplit_once]: split at the last occurrence. *)
Fixpoint rsplit_once (sep s : string) : option (string * string) :=
  match s with
  | EmptyString => None
  | String c s' =>
      match rsplit_once sep s' with
      | Some (a, b) => Some (String c a, b)
      | None => match strip_prefix sep s with Some b => Some (EmptyString, b) | None => None end
      end
  end.

Definition parse_branch_name (name : string) : option (string * Z) :=
  '(parent, id) ← rsplit_once BRANCH_INFIX name;
  if str_is_empty parent || negb (String.length id =? 32)%nat then None
  else n ← from_str_radix16 id; Some (parent, n).

Definition is_branch_name (name : string) : bool := is_some (parse_branch_name name).

(** ** Status *)

Module SagaStatus.
Inductive SagaStatus := Open | Committed | Aborted | Expired | Unknown (keyword : Keyword).
End SagaStatus.
Notation SagaStatus := SagaStatus.SagaStatus.

#[global] Instance saga_status_eq_dec : EqDecision SagaStatus.
Proof. solve_decision. Defined.

Definition status_name (s : SagaStatus) : string :=
  match s with
  | SagaStatus.Open => "open"
  | SagaStatus.Committed => "committed"
  | SagaStatus.Aborted => "aborted"
  | SagaStatus.Expired => "expired"
  | SagaStatus.Unknown keyword => name keyword
  end.

Definition status_keyword (s : SagaStatus) : Keyword :=
  match s with
  | SagaStatus.Unknown keyword => keyword
  | other => keyword_new (Some STATUS_NAMESPACE) (status_name other)
  end.

Definition from_keyword (k : Keyword) : SagaStatus :=
  if bool_decide (namespace k = Some STATUS_NAMESPACE) then
    if bool_decide (name k = "open"%string) then SagaStatus.Open
    else if bool_decide (name k = "committed"%string) then SagaStatus.Committed
    else if bool_decide (name k = "aborted"%string) then SagaStatus.Aborted
    else if bool_decide (name k = "expired"%string) then SagaStatus.Expired
    else SagaStatus.Unknown k
  else SagaStatus.Unknown k.

Definition is_terminal (s : SagaStatus) : bool :=
  match s with
  | SagaStatus.Committed | SagaStatus.Aborted | SagaStatus.Expired => true
  | _ => false
  end.

Definition is_open_status (s : SagaStatus) : bool :=
  match s with SagaStatus.Open => true | _ => false end.

Definition may_become (s next : SagaStatus) : bool := is_open_status s && is_terminal next.

(** ** Registry records *)

Record IdGrant := mk_grant {
  g_entity : EntityId;
  g_partition : option Z;
  g_start : option Z;
  g_length : option Z }.

Definition grant_end (g : IdGrant) : option Z :=
  start ← g_start g; length ← g_length g; checked_add_i64 start length.

Definition grant_contains (g : IdGrant) (partition sequence : Z) : bool :=
  bool_decide (g_partition g = Some partition) &&
  is_some_and (g_start g) (fun start => (start <=? sequence)%Z) &&
  is_some_and (grant_end g) (fun end_ => (sequence <? end_)%Z).

Definition holds (g : IdGrant) (entity : EntityId) : bool :=
  match try_i64 (sequence entity) with
  | Some seq => grant_contains g (partition entity) seq
  | None => false
  end.

Record Compensation := mk_compensation {
  c_entity : EntityId;
  c_key : option string;
  c_status : option Keyword;
  c_detail : option string;
  c_completed_at : option Z;
  c_error : option string }.

Record SagaEntry := mk_entry {
  s_entity : EntityId;
  s_id : Z;
  s_status : option SagaStatus;
  s_basis_t : option Z;
  s_description : option string;
  s_owner : option string;
  s_expires_at : option Z;
  s_grants : list IdGrant;
  s_footprint : list EntityId;
  s_reserves : list EntityId;
  s_sealed : bool;
  s_merged_tx : option EntityId;
  s_steps : option Z;
  s_conflict_report : option string;
  s_on_abort_tx : option string;
  s_on_abort_fn : option EntityId;
  s_on_abort_error : option string;
  s_retain_for : option Z;
  s_finished_at : option Z;
  s_compensations : list Compensation }.

Definition is_open (s : SagaEntry) : bool := is_some_and (s_status s) is_open_status.
Definition is_finished (s : SagaEntry) : bool := is_some_and (s_status s) is_terminal.

Definition is_overdue (s : SagaEntry) (now : Z) : bool :=
  is_open s && is_none_or (s_expires_at s) (fun expires_at => (expires_at <=? now)%Z).

Definition retention_deadline (s : SagaEntry) (default_ms : Z) : option Z :=
  if negb (is_finished s) then None
  else
    let window := Z.max (unwrap_or (s_retain_for s) default_ms) 0 in
    (fun finished_at => saturating_add_i64 finished_at window) <$> s_finished_at s.

Definition is_retention_expired (s : SagaEntry) (now default_ms : Z) : bool :=
  is_some_and (retention_deadline s default_ms) (fun deadline => (deadline <=? now)%Z).

(** ** Vocabulary *)

Definition is_saga_attribute (a : AttrId) : bool :=
  bool_decide (a ∈ [SAGA_ID; SAGA_STATUS; SAGA_BASIS_T; SAGA_DESCRIPTION; SAGA_OWNER;
    SAGA_EXPIRES_AT; SAGA_ID_GRANTS; SAGA_FOOTPRINT; SAGA_RESERVES; SAGA_SEALED; SAGA_MERGED_TX;
    SAGA_STEPS; SAGA_CONFLICT_REPORT; SAGA_ON_ABORT_TX; SAGA_ON_ABORT_FN; SAGA_ON_ABORT_ERROR;
    SAGA_COMPENSATIONS; SAGA_RETAIN_FOR]).

Definition is_grant_attribute (a : AttrId) : bool :=
  bool_decide (a ∈ [SAGA_GRANT_PARTITION; SAGA_GRANT_START; SAGA_GRANT_LENGTH]).

Definition is_compensation_attribute (a : AttrId) : bool :=
  bool_decide (a ∈ [SAGA_COMPENSATION_KEY; SAGA_COMPENSATION_STATUS; SAGA_COMPENSATION_DETAIL;
    SAGA_COMPENSATION_COMPLETED_AT; SAGA_COMPENSATION_ERROR]).

Definition is_registry_attribute (a : AttrId) : bool :=
  is_saga_attribute a || is_grant_attribute a || is_compensation_attribute a.

(** ** Value readers *)

Definition uuid (v : Value) : option Z := match v with Value.Uuid id => Some id | _ => None end.
Definition long (v : Value) : option Z := match v with Value.Long n => Some n | _ => None end.
Definition instant (v : Value) : option Z := match v with Value.Instant n => Some n | _ => None end.
Definition text (v : Value) : option string := match v with Value.Str s => Some s | _ => None end.
Definition boolean (v : Value) : option bool := match v with Value.Bool b => Some b | _ => None end.
Definition reference (v : Value) : option EntityId := match v with Value.Ref e => Some e | _ => None end.

Section registry.
Context {R : Rpds}.
Implicit Types db : Db.

Definition keyword db (v : Value) : option Keyword := keyword_value (db_interner db) v.

Definition field {T} db (e : EntityId) (a : AttrId) (parse : Value -> option T) : option T :=
  head (values db e a) ≫= parse.

Definition refs db (e : EntityId) (a : AttrId) : list EntityId :=
  merge_sort Z.le (filter_map reference (values db e a)).

Definition grant_at db (entity : EntityId) : IdGrant :=
  mk_grant entity (field db entity SAGA_GRANT_PARTITION long)
    (field db entity SAGA_GRANT_START long) (field db entity SAGA_GRANT_LENGTH long).

Definition compensation_at db (entity : EntityId) : Compensation :=
  mk_compensation entity (field db entity SAGA_COMPENSATION_KEY text)
    (field db entity SAGA_COMPENSATION_STATUS (keyword db))
    (field db entity SAGA_COMPENSATION_DETAIL text)
    (field db entity SAGA_COMPENSATION_COMPLETED_AT instant)
    (field db entity SAGA_COMPENSATION_ERROR text).

Definition finished_at db (entity : EntityId) : option Z :=
  status ← head (datoms_prefix db Eavt (key_prefix Eavt (Some entity) (Some SAGA_STATUS) None));
  if is_some_and (keyword db (d_v status)) (fun k => is_terminal (from_keyword k))
  then field db (d_tx status) TX_INSTANT instant
  else None.

Definition entry_at db (entity : EntityId) : option SagaEntry :=
  id ← field db entity SAGA_ID uuid;
  Some (mk_entry entity id
    (from_keyword <$> field db entity SAGA_STATUS (keyword db))
    (field db entity SAGA_BASIS_T long)
    (field db entity SAGA_DESCRIPTION text)
    (field db entity SAGA_OWNER text)
    (field db entity SAGA_EXPIRES_AT instant)
    (map (grant_at db) (refs db entity SAGA_ID_GRANTS))
    (refs db entity SAGA_FOOTPRINT)
    (refs db entity SAGA_RESERVES)
    (unwrap_or (field db entity SAGA_SEALED boolean) false)
    (field db entity SAGA_MERGED_TX reference)
    (field db entity SAGA_STEPS long)
    (field db entity SAGA_CONFLICT_REPORT text)
    (field db entity SAGA_ON_ABORT_TX text)
    (field db entity SAGA_ON_ABORT_FN reference)
    (field db entity SAGA_ON_ABORT_ERROR text)
    (field db entity SAGA_RETAIN_FOR long)
    (finished_at db entity)
    (map (compensation_at db) (refs db entity SAGA_COMPENSATIONS))).

Definition saga_entity db (id : Z) : option EntityId := lookup db SAGA_ID (Value.Uuid id).
Definition saga_entry db (id : Z) : option SagaEntry := e ← saga_entity db id; entry_at db e.

(** [sort_unstable] then [dedup]. *)
Definition sorted_entities (ds : list Datom) : list EntityId := os_of_list (map d_e ds).

Definition entries db : list SagaEntry :=
  filter_map (entry_at db) (sorted_entities (datoms_for_attribute db SAGA_ID)).

Definition open_entries db : list SagaEntry := List.filter is_open (entries db).
Definition overdue_entries db (now : Z) : list SagaEntry :=
  List.filter (fun e => is_overdue e now) (entries db).
Definition finished_entries db : list SagaEntry := List.filter is_finished (entries db).

Definition declaring db (entity : EntityId) : list SagaEntry :=
  List.filter (fun s => bool_decide (entity ∈ s_footprint s) || bool_decide (entity ∈ s_reserves s))
    (open_entries db).

Definition grants db : list IdGrant :=
  map (grant_at db) (sorted_entities (datoms_for_attribute db SAGA_GRANT_START)).

Definition live_grants db : list IdGrant := flat_map s_grants (open_entries db).

Definition grant_ceiling db (part : Z) : Z :=
  fold_left Z.max
    (map (fun e => unwrap_or (try_u64 e) 0)
      (filter_map grant_end
        (List.filter (fun g => bool_decide (g_partition g = Some part)) (grants db)))) 0.

Definition asserted_status db (e : EntityId) (datoms : list Datom) : option SagaStatus :=
  d ← last (List.filter (fun d => bool_decide (d_e d = e) && bool_decide (d_a d = SAGA_STATUS) &&
              d_added d) datoms);
  from_keyword <$> keyword db (d_v d).

End registry.
