(* ===== verification/TxSaga.v ===== *)
(** * Registry invariants of ordinary transactions (corium-tx/src/saga.rs) *)

From stdpp Require Import base list strings sorting.
From Stdlib Require Import ZArith Lia.
From S2P Require Import Prelude OrdMap Machine Ids Keyword Values Encoding Datoms Schema.
From S2P Require Import Bootstrap SchemaDatoms Db SagaDb.
Local Open Scope Z_scope.

Module SagaViolation.
Inductive SagaViolation :=
| NotASaga (e : EntityId)
| IncompleteOpen (field : string)
| OpensFinished (s : SagaStatus)
| IllegalTransition (from to : SagaStatus)
| StatusCleared
| StatusMissing (e : EntityId)
| ImmutableField (field : string)
| Finished (status : SagaStatus) (attribute : string)
| SealedReservation
| MergeRecordWithoutCommit (field : string)
| GrantNotLeased
| GrantedId (e : EntityId).
End SagaViolation.
Notation SagaViolation := SagaViolation.SagaViolation.

#[global] Instance saga_violation_eq_dec : EqDecision SagaViolation.
Proof. solve_decision. Defined.

Definition name_of (a : AttrId) : string :=
  (if bool_decide (a = SAGA_ID) then ":db.saga/id"
   else if bool_decide (a = SAGA_STATUS) then ":db.saga/status"
   else if bool_decide (a = SAGA_BASIS_T) then ":db.saga/basis-t"
   else if bool_decide (a = SAGA_DESCRIPTION) then ":db.saga/description"
   else if bool_decide (a = SAGA_OWNER) then ":db.saga/owner"
   else if bool_decide (a = SAGA_EXPIRES_AT) then ":db.saga/expires-at"
   else if bool_decide (a = SAGA_ID_GRANTS) then ":db.saga/id-grants"
   else if bool_decide (a = SAGA_FOOTPRINT) then ":db.saga/footprint"
   else if bool_decide (a = SAGA_RESERVES) then ":db.saga/reserves"
   else if bool_decide (a = SAGA_SEALED) then ":db.saga/sealed"
   else if bool_decide (a = SAGA_MERGED_TX) then ":db.saga/merged-tx"
   else if bool_decide (a = SAGA_STEPS) then ":db.saga/steps"
   else if bool_decide (a = SAGA_CONFLICT_REPORT) then ":db.saga/conflict-report"
   else if bool_decide (a = SAGA_ON_ABORT_TX) then ":db.saga/on-abort-tx"
   else if bool_decide (a = SAGA_ON_ABORT_FN) then ":db.saga/on-abort-fn"
   else if bool_decide (a = SAGA_ON_ABORT_ERROR) then ":db.saga/on-abort-error"
   else if bool_decide (a = SAGA_COMPENSATIONS) then ":db.saga/compensations"
   else if bool_decide (a = SAGA_RETAIN_FOR) then ":db.saga/retain-for"
   else "a saga registry attribute")%string.

Definition check_merge_record (writes : list Datom) (status : option SagaStatus)
    : result SagaViolation unit :=
  if bool_decide (status = Some SagaStatus.Committed) then Ok tt
  else
    for_each [(SAGA_MERGED_TX, ":db.saga/merged-tx"%string); (SAGA_STEPS, ":db.saga/steps"%string)]
      (fun '(attribute, nm) =>
        ensure (negb (existsb (fun d => bool_decide (d_a d = attribute) && d_added d) writes))
          (SagaViolation.MergeRecordWithoutCommit nm)).

(** The closures over one entity's registry writes. *)
Definition asserted (writes : list Datom) (a : AttrId) : bool :=
  existsb (fun d => bool_decide (d_a d = a) && d_added d) writes.
Definition retracted (writes : list Datom) (a : AttrId) : bool :=
  existsb (fun d => bool_decide (d_a d = a) && negb (d_added d)) writes.

Definition registry_writes (entity : EntityId) (datoms : list Datom) : list Datom :=
  List.filter (fun d => bool_decide (d_e d = entity) && is_saga_attribute (d_a d)) datoms.

Section validate.
Context {R : Rpds}.
Implicit Types db : Db.

(** The two places an ordinary write may name an entity. *)
Definition named_entities (d : Datom) : list EntityId :=
  d_e d :: (match d_v d with
            | Value.Ref e => if negb (is_registry_attribute (d_a d)) then [e] else []
            | _ => []
            end).

Definition guarded_grants db (datoms : list Datom) : list IdGrant :=
  flat_map s_grants
    (List.filter (fun entry =>
       is_none_or (asserted_status db (s_entity entry) datoms)
         (fun status => negb (bool_decide (status = SagaStatus.Committed))))
      (open_entries db)).

Definition validate_granted_ids db (datoms : list Datom) : result SagaViolation unit :=
  match guarded_grants db datoms with
  | [] => Ok tt
  | gs =>
      for_each datoms (fun d =>
        for_each (named_entities d) (fun entity =>
          ensure (negb (existsb (fun g => holds g entity) gs)) (SagaViolation.GrantedId entity)))
  end.

Definition validate_new_entry (entity : EntityId) (writes : list Datom) (status : option SagaStatus)
    : result SagaViolation unit :=
  _ ← ensure (asserted writes SAGA_ID) (SagaViolation.NotASaga entity);
  _ ← match status with
      | Some SagaStatus.Open => Ok tt
      | Some other => Err (SagaViolation.OpensFinished other)
      | None => Err (SagaViolation.IncompleteOpen ":db.saga/status")
      end;
  _ ← for_each [(asserted writes SAGA_BASIS_T, ":db.saga/basis-t"%string);
                (asserted writes SAGA_OWNER, ":db.saga/owner"%string);
                (asserted writes SAGA_EXPIRES_AT, ":db.saga/expires-at"%string)]
        (fun '(present, nm) => ensure present (SagaViolation.IncompleteOpen nm));
  check_merge_record writes status.

Definition validate_transition (entity : EntityId) (prior : SagaEntry) (writes : list Datom)
    (status : option SagaStatus) : result SagaViolation unit :=
  _ ← ensure (negb (asserted writes SAGA_ID || retracted writes SAGA_ID))
        (SagaViolation.ImmutableField ":db.saga/id");
  _ ← for_each [(SAGA_BASIS_T, ":db.saga/basis-t"%string); (SAGA_OWNER, ":db.saga/owner"%string);
                (SAGA_SEALED, ":db.saga/sealed"%string)]
        (fun '(attribute, nm) =>
          ensure (negb (asserted writes attribute || retracted writes attribute))
            (SagaViolation.ImmutableField nm));
  current ← ok_or (s_status prior) (SagaViolation.StatusMissing entity);
  _ ← match status with
      | Some next =>
          ensure (may_become current next) (SagaViolation.IllegalTransition current next)
      | None =>
          _ ← ensure (negb (retracted writes SAGA_STATUS)) SagaViolation.StatusCleared;
          match find (fun d => negb (bool_decide (d_a d = SAGA_COMPENSATIONS))) writes with
          | Some d => ensure (is_open_status current) (SagaViolation.Finished current (name_of (d_a d)))
          | None => Ok tt
          end
      end;
  _ ← ensure (negb (s_sealed prior && asserted writes SAGA_RESERVES)) SagaViolation.SealedReservation;
  check_merge_record writes status.

Definition validate_entity db (entity : EntityId) (datoms : list Datom) : result SagaViolation unit :=
  let writes := registry_writes entity datoms in
  let status := asserted_status db entity datoms in
  match entry_at db entity with
  | None => validate_new_entry entity writes status
  | Some prior => validate_transition entity prior writes status
  end.

Definition saga_validate db (datoms : list Datom) : result SagaViolation unit :=
  _ ← ensure (negb (existsb (fun d => is_grant_attribute (d_a d) || bool_decide (d_a d = SAGA_ID_GRANTS)) datoms))
        SagaViolation.GrantNotLeased;
  _ ← validate_granted_ids db datoms;
  for_each (os_of_list (map d_e (List.filter (fun d => is_saga_attribute (d_a d)) datoms)))
    (fun entity => validate_entity db entity datoms).

End validate.
