(* ===== verification/Branch.v ===== *)
(** * What a saga branch's pipeline refuses (corium-tx/src/branch.rs) *)

From stdpp Require Import base list strings sorting.
From Stdlib Require Import ZArith Lia.
From S2P Require Import Prelude OrdMap Machine Ids Keyword Values Encoding Datoms Schema.
From S2P Require Import Bootstrap SchemaDatoms Db SagaDb.
Local Open Scope Z_scope.

Record BranchRules := mk_rules { r_grants : list IdGrant; r_reserves : list EntityId }.

Definition rules_of (entry : SagaEntry) : BranchRules := mk_rules (s_grants entry) (s_reserves entry).

Fixpoint list_min (d : Z) (l : list Z) : Z :=
  match l with [] => d | x :: l => Z.min x (list_min d l) end.

(** The lowest sequence any leased block covers; [u64::MAX] when there is none. *)
Definition grant_floor (r : BranchRules) : Z :=
  list_min (2 ^ 64 - 1) (filter_map try_u64 (filter_map g_start (r_grants r))).

Definition is_branch_entity (r : BranchRules) (entity : EntityId) : bool :=
  existsb (fun g => holds g entity) (r_grants r).

Definition is_pre_existing (r : BranchRules) (entity : EntityId) : bool :=
  bool_decide (partition entity = partition_id Partition.User) &&
  (sequence entity <? grant_floor r)%Z && negb (is_branch_entity r entity).

Definition reserves (r : BranchRules) (e : EntityId) (a : AttrId) : bool :=
  bool_decide (e ∈ r_reserves r) || bool_decide (a ∈ r_reserves r).

Module StepViolation.
Inductive StepViolation :=
| NoGrant
| UngrantedId (e : EntityId)
| Unreserved (entity : EntityId) (attribute : AttrId)
| UnreservedRef (entity : EntityId) (attribute : AttrId) (target : EntityId)
| RegistryWrite (a : AttrId)
| SchemaEntity (e : EntityId).
End StepViolation.
Notation StepViolation := StepViolation.StepViolation.

#[global] Instance step_violation_eq_dec : EqDecision StepViolation.
Proof. solve_decision. Defined.

Definition is_user (e : EntityId) : bool := bool_decide (partition e = partition_id Partition.User).

(** Both positions of a datom must lie in the branch's blocks or below them. *)
Definition allocated (r : BranchRules) (e : EntityId) : bool :=
  negb (is_user e && negb (is_branch_entity r e) && negb (is_pre_existing r e)).

Definition validate_step_datom (r : BranchRules) (d : Datom) : result StepViolation unit :=
  let reserved := match r_reserves r with [] => false | _ => true end in
  _ ← ensure (negb (is_registry_attribute (d_a d))) (StepViolation.RegistryWrite (d_a d));
  _ ← ensure (negb (bool_decide (partition (d_e d) = partition_id Partition.Db)))
        (StepViolation.SchemaEntity (d_e d));
  let target := match d_v d with Value.Ref entity => Some entity | _ => None end in
  _ ← ensure (allocated r (d_e d)) (StepViolation.UngrantedId (d_e d));
  _ ← match target with
      | Some target => ensure (allocated r target) (StepViolation.UngrantedId target)
      | None => Ok tt
      end;
  if negb reserved then Ok tt
  else
    _ ← ensure (negb (is_pre_existing r (d_e d) && negb (reserves r (d_e d) (d_a d))))
          (StepViolation.Unreserved (d_e d) (d_a d));
    match target with
    | Some target =>
        ensure (negb (is_pre_existing r target && negb (reserves r target (d_a d))))
          (StepViolation.UnreservedRef (d_e d) (d_a d) target)
    | None => Ok tt
    end.

Definition validate_step (datoms : list Datom) (rules : BranchRules) : result StepViolation unit :=
  match r_grants rules with
  | [] => Err StepViolation.NoGrant
  | _ => for_each datoms (validate_step_datom rules)
  end.
