(* ===== verification/Tx.v ===== *)
(** * Preparing a transaction (corium-tx/src/lib.rs)

    [prepare] expands transaction data into operations, resolves temporary ids, and runs
    the operations one by one against a working copy of the database, so that each
    operation sees what the ones before it did.  Reads fill the working copy's index
    cell, hence [force_indexes] where the loop applies an operation. *)

From stdpp Require Import base list strings sorting.
From Stdlib Require Import ZArith Lia.
From S2P Require Import Prelude OrdMap Machine Ids Keyword Values Encoding Datoms Schema.
From S2P Require Import Bootstrap SchemaDatoms Db SagaDb TxSaga Branch.
Local Open Scope Z_scope.

Notation TempId := string (only parsing).

Definition TX_TEMPID : TempId := "datomic.tx"%string.

Module EntityRef.
Inductive EntityRef :=
| Id (e : EntityId)
| Temp (t : TempId)
| Lookup (a : EntityId) (v : Value).
End EntityRef.
Notation EntityRef := EntityRef.EntityRef.

Module TxOp.
Inductive TxOp :=
| Add (e : EntityRef) (a : EntityId) (v : Value)
| AddRef (e : EntityRef) (a : EntityId) (target : EntityRef)
| Retract (e : EntityRef) (a : EntityId) (v : Value)
| Cas (e : EntityRef) (a : EntityId) (old : option Value) (new : Value)
| RetractEntity (e : EntityRef).
End TxOp.
Notation TxOp := TxOp.TxOp.

Record EntityMap := mk_entity_map {
  em_entity : EntityRef;
  em_attributes : list (EntityId * list Value) }.

Module TxItem.
Inductive TxItem := Op (op : TxOp) | Map (m : EntityMap).
End TxItem.
Notation TxItem := TxItem.TxItem.

Record PreparedTx := mk_prepared {
  p_datoms : list Datom;
  p_tempids : list (TempId * EntityId) }.

Module TxError.
Inductive TxError :=
| UnknownAttribute (a : EntityId)
| TypeMismatch (a : EntityId)
| LookupNotFound
| LookupNotUnique
| UniqueConflict
| CasFailed
| CasCardinality
| TxInstantNotMonotonic (supplied last : Z)
| InvalidTxInstantOperation
| UnprotectedValue (a : EntityId)
| UnexpectedProtection (a : EntityId)
| StaleProtectionForm (attr expected_class : EntityId) (expected_epoch : Z) (class : EntityId) (epoch : Z)
| SchemaAttribute (a : EntityId)
| RetiredAttribute (a : EntityId)
| Saga (v : SagaViolation)
| Step (v : StepViolation)
| ForeignProtectionClass (attr class : EntityId).
End TxError.
Notation TxError := TxError.TxError.

(** How a call can end other than with a value: the error it returns, the panic of
    indexing [tempids] with an absent key, or a recursion deeper than the fuel. *)
Module Fault.
Inductive Fault := Fails (e : TxError) | Panics | Diverges.
End Fault.
Notation Fault := Fault.Fault.

Notation fails e := (Err (Fault.Fails e)).

Section tx.
Context {R : Rpds}.
Implicit Types db working : Db.

(** ** Checks *)

Definition validate_assertion_form db (a : EntityId) (value : Value) : result Fault unit :=
  let schema := db_schema db in
  match timeline_current (protection schema a), value with
  | Some expected_class, Value.Sealed sealed =>
      let expected_epoch :=
        match schema_class schema expected_class with
        | Some c => current_epoch c
        | None => epoch sealed
        end in
      ensure (bool_decide (class sealed = expected_class) &&
              (epoch sealed =? expected_epoch)%Z)
        (Fault.Fails (TxError.StaleProtectionForm a expected_class expected_epoch
           (class sealed) (epoch sealed)))
  | Some _, _ => fails (TxError.UnprotectedValue a)
  | None, Value.Sealed _ => fails (TxError.UnexpectedProtection a)
  | None, _ => Ok tt
  end.

Definition validate_historical_form db (a : EntityId) (value : Value) : result Fault unit :=
  match value with
  | Value.Sealed sealed =>
      ensure (existsb (fun c => bool_decide (c = class sealed))
                (timeline_classes (protection (db_schema db) a)))
        (Fault.Fails (TxError.ForeignProtectionClass a (class sealed)))
  | _ => Ok tt
  end.

Definition writable_by_transaction (e a : EntityId) : bool :=
  if is_audit_attribute a then false
  else if negb (is_schema_attribute a) then true
  else bool_decide (a = IDENT) && negb (bool_decide (partition e = partition_id Partition.Db)).

Definition validate db (e a : EntityId) (value : Value) : result Fault unit :=
  _ ← ensure (writable_by_transaction e a) (Fault.Fails (TxError.SchemaAttribute a));
  attr ← ok_or (schema_get (db_schema db) a) (Fault.Fails (TxError.UnknownAttribute a));
  ensure (has_type value (value_type attr)) (Fault.Fails (TxError.TypeMismatch a)).

Definition validate_not_retired db (a : EntityId) : result Fault unit :=
  ensure (negb (is_retired (db_schema db) a)) (Fault.Fails (TxError.RetiredAttribute a)).

(** ** Entity retraction *)

Definition component_child (schema : Schema) (d : Datom) : option EntityId :=
  if is_some_and (schema_get schema (d_a d)) is_component
  then match d_v d with Value.Ref child => Some child | _ => None end
  else None.

(** [facts] and [seen]. *)
Notation collected := (list Fact * list EntityId)%type.

(** One iteration of the scan for [e]; [self] is the recursive call. *)
Definition collect_datom (self : EntityId -> collected -> option collected) (schema : Schema)
    (e : EntityId) (st : option collected) (d : Datom) : option collected :=
  st ← st;
  if bool_decide (d_e d = e) then
    st ← match component_child schema d with Some child => self child st | None => Some st end;
    Some (os_insert (d_fact d) st.1, st.2)
  else if bool_decide (d_v d = Value.Ref e) then Some (os_insert (d_fact d) st.1, st.2)
  else Some st.

Fixpoint collect_entity_retractions (fuel : nat) db (e : EntityId) (st : collected)
    : option collected :=
  if os_mem e st.2 then Some st
  else
    match fuel with
    | O => None
    | S fuel =>
        fold_left (collect_datom (collect_entity_retractions fuel db) (db_schema db) e)
          (datoms db) (Some (st.1, os_insert e st.2))
    end.

(** Every call but the first is for the child named by a datom, and a call that does not
    return at once is for an entity not seen before. *)
Definition retraction_fuel db : nat := S (length (datoms db)).

(** ** Expansion and temporary ids *)

Definition expand_item (item : TxItem) : list TxOp :=
  match item with
  | TxItem.Op op => [op]
  | TxItem.Map m =>
      flat_map (fun '(a, values) => map (fun value => TxOp.Add (em_entity m) a value) values)
        (em_attributes m)
  end.

Definition expand (items : list TxItem) : list TxOp := flat_map expand_item items.

Definition identity_step db (tempids : list (TempId * EntityId)) (op : TxOp) : list (TempId * EntityId) :=
  match op with
  | TxOp.Add (EntityRef.Temp temp) a value =>
      if negb (bool_decide (temp = TX_TEMPID)) &&
         bool_decide ((attr ← schema_get (db_schema db) a; unique attr) = Some Unique.Identity)
      then match lookup db a value with Some e => om_insert temp e tempids | None => tempids end
      else tempids
  | _ => tempids
  end.

Definition unify_identities db (ops : list TxOp) : list (TempId * EntityId) :=
  fold_left (identity_step db) ops [].

Definition entity_positions (op : TxOp) : list EntityRef :=
  match op with
  | TxOp.Add e _ _ | TxOp.Retract e _ _ | TxOp.Cas e _ _ _ | TxOp.RetractEntity e => [e]
  | TxOp.AddRef e _ target => [e; target]
  end.

Definition allocate_step (tx : EntityId) (st : list (TempId * EntityId) * Z) (entity : EntityRef)
    : list (TempId * EntityId) * Z :=
  let '(tempids, next) := st in
  match entity with
  | EntityRef.Temp temp =>
      if bool_decide (temp = TX_TEMPID) then (om_insert temp tx tempids, next)
      else match om_get temp tempids with
           | Some _ => (tempids, next)
           | None => (om_insert temp (entity_new (partition_id Partition.User) next) tempids, next + 1)
           end
  | _ => st
  end.

Definition allocate (tx : EntityId) (ops : list TxOp) (tempids : list (TempId * EntityId))
    (next : Z) : list (TempId * EntityId) * Z :=
  fold_left (allocate_step tx) (flat_map entity_positions ops) (tempids, next).

Definition resolve db (tempids : list (TempId * EntityId)) (entity : EntityRef)
    : result Fault EntityId :=
  match entity with
  | EntityRef.Id e => Ok e
  | EntityRef.Temp t => ok_or (om_get t tempids) Fault.Panics
  | EntityRef.Lookup a v =>
      attr ← ok_or (schema_get (db_schema db) a) (Fault.Fails (TxError.UnknownAttribute a));
      _ ← ensure (is_some (unique attr)) (Fault.Fails TxError.LookupNotUnique);
      ok_or (lookup db a v) (Fault.Fails TxError.LookupNotFound)
  end.

(** ** Operations

    Each returns the datoms it pushes; [None] is [continue]. *)

Section ops.
Context (db : Db) (tempids : list (TempId * EntityId)) (tx : EntityId).

Definition retraction (e a : EntityId) (v : Value) : Datom := mk_datom e a v tx false.
Definition assertion (e a : EntityId) (v : Value) : Datom := mk_datom e a v tx true.

Definition add_op working (tx_instant_asserted : bool) (entity : EntityRef) (a : EntityId) (v : Value)
    : result Fault (option (list Datom) * bool) :=
  e ← resolve db tempids entity;
  tx_instant_asserted ←
    (if bool_decide (a = TX_INSTANT)
     then if negb (bool_decide (e = tx)) || tx_instant_asserted
          then fails TxError.InvalidTxInstantOperation else Ok true
     else Ok tx_instant_asserted);
  _ ← validate working e a v;
  _ ← validate_not_retired working a;
  _ ← validate_assertion_form working a v;
  match schema_get (db_schema working) a with
  | Some attr =>
      if is_some (unique attr) && is_some_and (lookup working a v) (fun owner => negb (bool_decide (owner = e)))
      then fails TxError.UniqueConflict
      else
        let current := values working e a in
        if bool_decide (v ∈ current) then Ok (None, tx_instant_asserted)
        else
          let olds := if bool_decide (cardinality attr = Cardinality.One)
                      then map (retraction e a) current else [] in
          Ok (Some (olds ++ [assertion e a v]), tx_instant_asserted)
  | None => Ok (Some [assertion e a v], tx_instant_asserted)
  end.

Definition retract_op working (entity : EntityRef) (a : EntityId) (v : Value)
    : result Fault (list Datom) :=
  if bool_decide (a = TX_INSTANT) then fails TxError.InvalidTxInstantOperation
  else
    e ← resolve db tempids entity;
    _ ← validate working e a v;
    _ ← validate_historical_form working a v;
    Ok (if bool_decide (v ∈ values working e a) then [retraction e a v] else []).

Definition cas_op working (entity : EntityRef) (a : EntityId) (old : option Value) (new : Value)
    : result Fault (list Datom) :=
  if bool_decide (a = TX_INSTANT) then fails TxError.InvalidTxInstantOperation
  else
    e ← resolve db tempids entity;
    _ ← validate working e a new;
    _ ← validate_not_retired working a;
    _ ← validate_assertion_form working a new;
    _ ← match old with Some old => validate_historical_form working a old | None => Ok tt end;
    if is_none_or (schema_get (db_schema working) a)
         (fun x => negb (bool_decide (cardinality x = Cardinality.One)))
    then fails TxError.CasCardinality
    else
      let current := head (values working e a) in
      if negb (bool_decide (current = old)) then fails TxError.CasFailed
      else Ok (match current with
               | Some value => [retraction e a value; assertion e a new]
               | None => [assertion e a new]
               end).

Definition retract_entity_op working (entity : EntityRef) : result Fault (list Datom) :=
  e ← resolve db tempids entity;
  '(facts, _) ← ok_or (collect_entity_retractions (retraction_fuel working) working e ([], []))
                  Fault.Diverges;
  if existsb (fun f : Fact => bool_decide (f.1.2 = TX_INSTANT)) facts
  then fails TxError.InvalidTxInstantOperation
  else
    match find (fun f : Fact => negb (writable_by_transaction f.1.1 f.1.2)) facts with
    | Some f => fails (TxError.SchemaAttribute f.1.2)
    | None => Ok (map (fun f : Fact => retraction f.1.1 f.1.2 f.2) facts)
    end.

Definition run_op working (tx_instant_asserted : bool) (op : TxOp)
    : result Fault (option (list Datom) * bool) :=
  match op with
  | TxOp.AddRef entity a target =>
      target ← resolve db tempids target;
      add_op working tx_instant_asserted entity a (Value.Ref target)
  | TxOp.Add entity a v => add_op working tx_instant_asserted entity a v
  | TxOp.Retract entity a v =>
      ds ← retract_op working entity a v; Ok (Some ds, tx_instant_asserted)
  | TxOp.Cas entity a old new =>
      ds ← cas_op working entity a old new; Ok (Some ds, tx_instant_asserted)
  | TxOp.RetractEntity entity =>
      ds ← retract_entity_op working entity; Ok (Some ds, tx_instant_asserted)
  end.

(** The loop over the operations: the working value, whether the transaction's instant
    was asserted, and the datoms so far. *)
Fixpoint run_ops (ops : list TxOp) working (tx_instant_asserted : bool) (datoms : list Datom)
    : result Fault (list Datom) :=
  match ops with
  | [] => Ok datoms
  | op :: ops =>
      '(pushed, tx_instant_asserted) ← run_op working tx_instant_asserted op;
      match pushed with
      | None => run_ops ops working tx_instant_asserted datoms
      | Some ds =>
          run_ops ops (with_transaction (force_indexes working) (basis_t working + 1) ds)
            tx_instant_asserted (datoms ++ ds)
      end
  end.
End ops.

Definition prepare db (items : list TxItem) (tx : EntityId) (next_user_sequence : Z)
    : result Fault PreparedTx :=
  let ops := expand items in
  let '(tempids, _) := allocate tx ops (unify_identities db ops)
                         (Z.max next_user_sequence FIRST_USER_ID) in
  datoms ← run_ops db tempids tx ops db false [];
  match saga_validate db datoms with
  | Err v => fails (TxError.Saga v)
  | Ok _ => Ok (mk_prepared datoms tempids)
  end.

End tx.
