(* ===== verification/TxSpec.v ===== *)
(** * What a transaction means (specification for corium-tx/src/lib.rs)

    The abstract state of a current database is the set of facts that are live in it.
    [post] says what each operation does to that set and [pre] when the operation is
    accepted; [run_spec] chains them.  The invariants of accepted transactions are proved
    here once, against the specification. *)

From stdpp Require Import base list strings sorting.
From Stdlib Require Import ZArith Lia.
From S2P Require Import Prelude OrdMap Machine Ids Keyword Values Encoding Datoms Schema.
From S2P Require Import Bootstrap SchemaDatoms Db Tx.
Local Open Scope Z_scope.

Notation facts := (Fact -> Prop).

(** An operation whose entity positions are resolved. *)
Module ROp.
Inductive ROp :=
| Add (e a : EntityId) (v : Value)
| Retract (e a : EntityId) (v : Value)
| Cas (e a : EntityId) (old : option Value) (new : Value)
| RetractEntity (e : EntityId).
End ROp.
Notation ROp := ROp.ROp.

Definition single (sch : Schema) (a : AttrId) : Prop :=
  exists attr, schema_get sch a = Some attr /\ cardinality attr = Cardinality.One.

Definition keyed (sch : Schema) (a : AttrId) : Prop :=
  exists attr, schema_get sch a = Some attr /\ is_some (unique attr) = true.

(** The entities [e] owns through component references, itself included. *)
Inductive owned (sch : Schema) (S : facts) (e : EntityId) : EntityId -> Prop :=
| owned_self : owned sch S e e
| owned_child x a c :
    owned sch S e x -> S (x, a, Value.Ref c) ->
    is_some_and (schema_get sch a) is_component = true -> owned sch S e c.

Definition mentions (x : EntityId) (f : Fact) : Prop := f.1.1 = x \/ f.2 = Value.Ref x.

Definition post (sch : Schema) (S : facts) (o : ROp) : facts :=
  match o with
  | ROp.Add e a v => fun f =>
      f = (e, a, v) \/ (S f /\ (S (e, a, v) \/ ~ (single sch a /\ f.1 = (e, a))))
  | ROp.Retract e a v => fun f => S f /\ f <> (e, a, v)
  | ROp.Cas e a old new => fun f =>
      f = (e, a, new) \/ (S f /\ forall o, old = Some o -> f <> (e, a, o))
  | ROp.RetractEntity e => fun f => S f /\ forall x, owned sch S e x -> ~ mentions x f
  end.

(** A value asserted on [a] has the form the schema asks for now: sealed under the
    current class and epoch of a protected attribute, plain otherwise. *)
Definition current_form (sch : Schema) (a : AttrId) (v : Value) : Prop :=
  match timeline_current (protection sch a), v with
  | Some c, Value.Sealed s =>
      class s = c /\ forall pc, schema_class sch c = Some pc -> epoch s = current_epoch pc
  | Some _, _ => False
  | None, Value.Sealed _ => False
  | None, _ => True
  end.

(** A value named by a retraction has a form the attribute has had. *)
Definition historical_form (sch : Schema) (a : AttrId) (v : Value) : Prop :=
  forall s, v = Value.Sealed s -> In (class s) (timeline_classes (protection sch a)).

Definition typed (sch : Schema) (a : AttrId) (v : Value) : Prop :=
  exists attr, schema_get sch a = Some attr /\ has_type v (value_type attr) = true.

Definition assertable (sch : Schema) (e a : EntityId) (v : Value) : Prop :=
  writable_by_transaction e a = true /\ typed sch a v /\ is_retired sch a = false /\
  current_form sch a v.

(** When an operation is accepted in state [S]; [stamped] says whether the transaction's
    instant was already asserted. *)
Definition pre (sch : Schema) (tx : EntityId) (S : facts) (stamped : bool) (o : ROp) : Prop :=
  match o with
  | ROp.Add e a v =>
      (a = TX_INSTANT -> e = tx /\ stamped = false) /\ assertable sch e a v /\
      (keyed sch a -> forall e', S (e', a, v) -> S (e, a, v) /\ e <= e')
  | ROp.Retract e a v =>
      a <> TX_INSTANT /\ writable_by_transaction e a = true /\ typed sch a v /\ historical_form sch a v
  | ROp.Cas e a old new =>
      a <> TX_INSTANT /\ assertable sch e a new /\ single sch a /\
      match old with
      | Some o => historical_form sch a o /\ S (e, a, o) /\ forall w, S (e, a, w) -> cmp o w <> Gt
      | None => forall w, ~ S (e, a, w)
      end
  | ROp.RetractEntity e =>
      forall f x, S f -> owned sch S e x -> mentions x f ->
        f.1.2 <> TX_INSTANT /\ writable_by_transaction f.1.1 f.1.2 = true
  end.

Definition stamps (stamped : bool) (o : ROp) : bool :=
  match o with ROp.Add _ a _ => stamped || bool_decide (a = TX_INSTANT) | _ => stamped end.

Inductive run_spec (sch : Schema) (tx : EntityId) : facts -> bool -> list ROp -> facts -> Prop :=
| run_nil S S' b : (forall f, S f <-> S' f) -> run_spec sch tx S b [] S'
| run_cons S S' S'' b o os :
    pre sch tx S b o -> (forall f, S' f <-> post sch S o f) ->
    run_spec sch tx S' (stamps b o) os S'' -> run_spec sch tx S b (o :: os) S''.

(** ** Invariants *)

Definition single_valued (sch : Schema) (S : facts) : Prop :=
  forall e a v w, single sch a -> S (e, a, v) -> S (e, a, w) -> v = w.

Definition unique_valued (sch : Schema) (S : facts) : Prop :=
  forall e e' a v, keyed sch a -> S (e, a, v) -> S (e', a, v) -> e = e'.

Definition all_typed (sch : Schema) (S : facts) : Prop := forall e a v, S (e, a, v) -> typed sch a v.

(** The operation is not a compare-and-swap on a unique attribute. *)
Definition no_keyed_cas (sch : Schema) (o : ROp) : Prop :=
  match o with ROp.Cas _ a _ _ => ~ keyed sch a | _ => True end.

Section spec.
Context (sch : Schema) (tx : EntityId).

Lemma run_spec_invariant (I : facts -> Prop) (C : ROp -> Prop) :
  (forall S S', (forall f, S f <-> S' f) -> I S -> I S') ->
  (forall S b o, I S -> C o -> pre sch tx S b o -> I (post sch S o)) ->
  forall S b os S', run_spec sch tx S b os S' -> Forall C os -> I S -> I S'.
Proof.
  intros Hext Hstep S b os S' Hr. induction Hr as [S S' b HS|S S' S'' b o os Hpre Hpost Hr IH];
    intros HC HI; [by eapply Hext|].
  apply Forall_cons in HC as [Ho HC]. apply IH; [done|].
  eapply (Hext (post sch S o)); [intros f; symmetry; apply Hpost|]. by eapply Hstep.
Qed.

Lemma post_single_valued S b o :
  single_valued sch S -> pre sch tx S b o -> single_valued sch (post sch S o).
Proof.
  intros HI Hp e a v w Ha. destruct o as [e0 a0 v0|e0 a0 v0|e0 a0 old new|e0]; simpl.
  - intros [Hv|[Hv Hc]] [Hw|[Hw Hc']]; simplify_eq; try done.
    + destruct Hc' as [Hc'|Hc']; [by eapply HI|]. destruct Hc'. by split.
    + destruct Hc as [Hc|Hc]; [by eapply HI|]. destruct Hc. by split.
    + by eapply HI.
  - intros [Hv _] [Hw _]. by eapply HI.
  - destruct Hp as (_ & _ & _ & Hold).
    intros [Hv|[Hv Hc]] [Hw|[Hw Hc']]; simplify_eq; try done.
    + destruct old as [o|]; [|by destruct (Hold w)]. destruct Hold as (_ & Ho & _).
      destruct (Hc' o eq_refl). f_equal. by eapply HI.
    + destruct old as [o|]; [|by destruct (Hold v)]. destruct Hold as (_ & Ho & _).
      destruct (Hc o eq_refl). f_equal. by eapply HI.
    + by eapply HI.
  - intros [Hv _] [Hw _]. by eapply HI.
Qed.

Lemma post_unique_valued S b o :
  unique_valued sch S -> no_keyed_cas sch o -> pre sch tx S b o -> unique_valued sch (post sch S o).
Proof.
  intros HI Hc Hp e e' a v Ha. destruct o as [e0 a0 v0|e0 a0 v0|e0 a0 old new|e0]; simpl in *.
  - destruct Hp as (_ & _ & Hu).
    intros [Hv|[Hv _]] [Hw|[Hw _]]; simplify_eq; try done.
    + destruct (Hu Ha e' Hw) as [Hs _]. by eapply HI.
    + destruct (Hu Ha e Hv) as [Hs _]. by eapply HI.
    + by eapply HI.
  - intros [Hv _] [Hw _]. by eapply HI.
  - intros [Hv|[Hv _]] [Hw|[Hw _]]; simplify_eq; try done. by eapply HI.
  - intros [Hv _] [Hw _]. by eapply HI.
Qed.

(** What a step adds was assertable, and on the transaction entity if it is an instant. *)
Lemma post_new S b o f :
  pre sch tx S b o -> post sch S o f -> S f \/ assertable sch f.1.1 f.1.2 f.2.
Proof.
  destruct o as [e a v|e a v|e a old new|e]; simpl.
  - intros (_ & Ha & _) [->|[? _]]; [by right|by left].
  - intros _ [? _]. by left.
  - intros (_ & Ha & _) [->|[? _]]; [by right|by left].
  - intros _ [? _]. by left.
Qed.

Lemma run_spec_new S b os S' f :
  run_spec sch tx S b os S' -> S' f -> S f \/ assertable sch f.1.1 f.1.2 f.2.
Proof.
  intros Hr. induction Hr as [S S' b HS|S S' S'' b o os Hpre Hpost Hr IH]; intros Hf.
  - left. by apply HS.
  - apply IH in Hf as [Hf|Hf]; [|by right]. apply Hpost in Hf. by eapply post_new.
Qed.

(** Facts a transaction may not write are as they were. *)
Lemma post_protected S b o f :
  writable_by_transaction f.1.1 f.1.2 = false -> pre sch tx S b o -> (post sch S o f <-> S f).
Proof.
  intros Hw. destruct o as [e a v|e a v|e a old new|e]; simpl.
  - intros (_ & (Ha & _) & _). split.
    + intros [->|[? _]]; [simpl in Hw; congruence|done].
    + intros Hf. right. split; [done|]. right. intros [_ E]. destruct f as [[fe fa] fv].
      simpl in *. injection E as -> ->. congruence.
  - intros (_ & Ha & _). split; [by intros [? _]|]. intros Hf. split; [done|]. intros ->. simpl in Hw.
    congruence.
  - intros (_ & (Ha & _) & _). split.
    + intros [->|[? _]]; [simpl in Hw; congruence|done].
    + intros Hf. right. split; [done|]. intros o _ ->. simpl in Hw. congruence.
  - intros Hp. split; [by intros [? _]|]. intros Hf. split; [done|]. intros x Hx Hm.
    destruct (Hp f x Hf Hx Hm) as [_ ?]. congruence.
Qed.

Lemma run_spec_protected S b os S' f :
  writable_by_transaction f.1.1 f.1.2 = false -> run_spec sch tx S b os S' -> (S' f <-> S f).
Proof.
  intros Hw Hr. induction Hr as [S S' b HS|S S' S'' b o os Hpre Hpost Hr IH]; [by rewrite HS|].
  rewrite IH, Hpost. by eapply post_protected.
Qed.

(** Instants are asserted on the transaction itself and never retracted. *)
Lemma run_spec_instants S b os S' f :
  f.1.2 = TX_INSTANT -> f.1.1 <> tx -> run_spec sch tx S b os S' -> (S' f <-> S f).
Proof.
  intros Ha He Hr. induction Hr as [S S' b HS|S S' S'' b o os Hpre Hpost Hr IH]; [by rewrite HS|].
  rewrite IH, Hpost. clear IH Hpost Hr. destruct f as [[fe fa] fv]. simpl in Ha, He. subst fa.
  destruct o as [e a v|e a v|e a old new|e]; cbn [pre post] in *.
  - destruct Hpre as (Hi & _). split.
    + intros [[= -> <- ->]|[? _]]; [|done]. by destruct (Hi eq_refl).
    + intros Hf. right. split; [done|]. right. intros [_ [= -> <-]]. by destruct (Hi eq_refl).
  - destruct Hpre as (Hi & _). split; [by intros [? _]|]. intros Hf. split; [done|]. by intros [= _ <- _].
  - destruct Hpre as (Hi & _). split.
    + intros [[= _ <- _]|[? _]]; [done|done].
    + intros Hf. right. split; [done|]. by intros o _ [= _ <- _].
  - split; [by intros [? _]|]. intros Hf. split; [done|]. intros x Hx Hm.
    by destruct (Hpre _ x Hf Hx Hm) as [? _].
Qed.

End spec.
