(* ===== verification/TxFacts.v ===== *)
(** * The transaction loop refines its specification

    Each operation of [prepare], run against a working copy whose live facts are [S],
    pushes datoms that leave [post sch S o] live, and only when [pre] holds. *)

From stdpp Require Import base list strings sorting.
From Stdlib Require Import ZArith Lia.
From S2P Require Import Prelude OrdMap Machine Ids Keyword Values Encoding Datoms Schema.
From S2P Require Import Bootstrap SchemaDatoms Db DbFacts DbReads SagaDb TxSaga Branch Tx TxSpec.
Local Open Scope Z_scope.

(** ** Live facts of a list of datoms *)

Definition has (ds : list Datom) : facts := fun f => is_some (status f ds) = true.

#[global] Instance has_dec ds f : Decision (has ds f).
Proof. unfold has. apply _. Defined.

Lemma has_live ds f : has ds f <-> exists d, live ds d /\ d_fact d = f.
Proof.
  unfold has, live. split.
  - destruct (status f ds) as [d|] eqn:E; [|done]. intros _. exists d.
    pose proof (status_Some _ _ _ E) as (_ & <- & _). done.
  - intros (d & Hd & <-). by rewrite Hd.
Qed.

Lemma has_snoc ds d f :
  has (ds ++ [d]) f <-> if bool_decide (d_fact d = f) then d_added d = true else has ds f.
Proof.
  unfold has. rewrite status_app. simpl. unfold status_step. case_bool_decide; [|done].
  by destruct (d_added d).
Qed.

Lemma has_retractions ds rs f :
  Forall (fun d => d_added d = false) rs ->
  has (ds ++ rs) f <-> has ds f /\ ~ In f (map d_fact rs).
Proof.
  induction rs as [|d rs IH] using rev_ind; intros Hr.
  { rewrite app_nil_r. simpl. tauto. }
  apply Forall_app in Hr as [Hr Hd]. apply Forall_cons in Hd as [Hd _].
  rewrite app_assoc, has_snoc, map_app, in_app_iff. simpl. case_bool_decide as E.
  - rewrite Hd. split; [done|]. intros [_ Hn]. destruct Hn. auto.
  - rewrite IH by done. tauto.
Qed.

Lemma has_assertion ds d f :
  d_added d = true -> has (ds ++ [d]) f <-> f = d_fact d \/ has ds f.
Proof. intros Hd. rewrite has_snoc. case_bool_decide as E; [|naive_solver]. rewrite Hd. naive_solver. Qed.

(** A list of datoms each of which changes what is live when it is applied. *)
Definition effective (ds0 ds : list Datom) : Prop :=
  forall l d r, ds = l ++ d :: r -> (has (ds0 ++ l) (d_fact d) <-> d_added d = false).

Lemma effective_nil ds0 : effective ds0 [].
Proof. by intros [|] ? ?. Qed.

Lemma effective_app ds0 l k : effective ds0 l -> effective (ds0 ++ l) k -> effective ds0 (l ++ k).
Proof.
  intros Hl Hk l' d r E. apply app_eq_app in E as [m [[-> E]|[-> E]]].
  - destruct m as [|x m]; simpl in E.
    + rewrite <- (app_nil_r l'). rewrite !app_nil_r in Hk.
      specialize (Hk [] d r (eq_sym E)). by rewrite app_nil_r in *.
    + injection E as <- ->. by apply (Hl l' d m).
  - rewrite app_assoc. by apply (Hk m d r).
Qed.

Lemma effective_retractions ds0 rs :
  Forall (fun d => d_added d = false) rs -> NoDup (map d_fact rs) ->
  (forall d, In d rs -> has ds0 (d_fact d)) -> effective ds0 rs.
Proof.
  intros Hr Hn Hh l d r ->. split; [|intros _].
  - intros _. rewrite List.Forall_forall in Hr. apply Hr, in_app_iff. right. by left.
  - apply Forall_app in Hr as [Hr _]. apply has_retractions; [done|].
    split; [apply Hh, in_app_iff; right; by left|].
    rewrite map_app in Hn. simpl in Hn. apply NoDup_app in Hn as (_ & Hd & _).
    intros Hi. apply list_elem_of_In in Hi. apply (Hd _ Hi). left.
Qed.

Lemma effective_assertion ds0 d :
  d_added d = true -> ~ has ds0 (d_fact d) -> effective ds0 [d].
Proof.
  intros Hd Hn [|x l] y r E; [|by destruct l]. injection E as <- _. rewrite app_nil_r, Hd.
  split; [done|]. done.
Qed.

Section facts.
Context {R : Rpds} {HR : RpdsLaws R}.
Implicit Types db working : Db.

Definition facts_of db : facts := has (recorded_datoms db).

Lemma datoms_facts db d :
  db_ok db -> view db = DbView.Current -> In d (datoms db) <-> live (recorded_datoms db) d.
Proof. intros Hdb Hv. unfold datoms. rewrite datoms_at_In by done. rewrite Hv. simpl. tauto. Qed.

Lemma fact_in_datoms db f :
  db_ok db -> view db = DbView.Current ->
  facts_of db f <-> exists d, In d (datoms db) /\ d_fact d = f.
Proof.
  intros Hdb Hv. unfold facts_of. rewrite has_live. by setoid_rewrite datoms_facts.
Qed.

Lemma values_has db e a w :
  db_ok db -> view db = DbView.Current -> u64 e -> u64 a ->
  In w (values db e a) <-> facts_of db (e, a, w).
Proof.
  intros Hdb Hv He Ha. rewrite values_In, Hv by done. unfold facts_of. by rewrite has_live.
Qed.

Lemma live_fact_wf db f : db_ok db -> facts_of db f -> fact_wf f.
Proof.
  intros Hdb (d & Hd & <-)%has_live. apply status_Some in Hd as (Hin & _).
  pose proof (datoms_wf_facts _ (ok_wf _ Hdb)) as Hw. unfold facts_wf in Hw.
  rewrite List.Forall_forall in Hw. auto.
Qed.

(** The values of an entity's attribute come in strictly ascending order. *)
Lemma values_sorted db e a :
  db_ok db -> view db = DbView.Current -> u64 e -> u64 a -> StronglySorted olt (values db e a).
Proof.
  intros Hdb Hv He Ha. rewrite values_filter by done.
  assert (StronglySorted (fun d d' => fact_cmp Eavt (d_fact d) (d_fact d') = Lt)
            (List.filter (about e a) (datoms db))) as Hs.
  { apply filter_strongly_sorted, datoms_at_fact_sorted; [done|congruence]. }
  assert (forall d, In d (List.filter (about e a) (datoms db)) -> d_e d = e /\ d_a d = a) as Hab.
  { intros d [_ Hd]%filter_In. unfold about in Hd.
    by apply andb_true_iff in Hd as [?%bool_decide_eq_true ?%bool_decide_eq_true]. }
  induction Hs as [|d l Hs IH Hd]; simpl; constructor; [apply IH; intros; apply Hab; by right|].
  rewrite List.Forall_forall in *. intros w (d' & <- & Hd')%in_map_iff. specialize (Hd d' Hd').
  destruct (Hab d (or_introl eq_refl)) as [E1 E2]. destruct (Hab d' (or_intror Hd')) as [E3 E4].
  unfold fact_cmp, d_fact in Hd. cbn [fst snd] in Hd. rewrite E1, E2, E3, E4 in Hd.
  by rewrite !cmp_pair, !cmp_refl in Hd.
Qed.

Lemma sorted_NoDup {A} `{OrdLaws A} (l : list A) : StronglySorted olt l -> NoDup l.
Proof.
  induction 1 as [|x l Hs IH Hx]; constructor; [|done]. rewrite List.Forall_forall in Hx.
  intros Hin. apply list_elem_of_In in Hin. specialize (Hx x Hin). unfold olt in Hx.
  by rewrite cmp_refl in Hx.
Qed.

(** ** Entity retraction *)

Notation collected := (list Fact * list EntityId)%type.

Lemma owned_trans sch S e c x : owned sch S e c -> owned sch S c x -> owned sch S e x.
Proof. intros Hc Hx. induction Hx as [|x a c' Hx IH HS Ha]; [done|]. by eapply owned_child. Qed.

Section collect.
Context (db : Db) (Hdb : db_ok db) (Hview : view db = DbView.Current).
Notation S := (facts_of db).
Notation sch := (db_schema db).

Definition grows (st st' : collected) : Prop := incl st.1 st'.1 /\ incl st.2 st'.2.

(** The scan for [x] has dealt with [d]. *)
Definition handled (x : EntityId) (st : collected) (d : Datom) : Prop :=
  (mentions x (d_fact d) -> In (d_fact d) st.1) /\
  (d_e d = x -> forall c, component_child sch d = Some c -> In c st.2).

Definition complete (x : EntityId) (st : collected) : Prop :=
  forall d, In d (datoms db) -> handled x st d.

(** What a call for [e] adds to the state it is given. *)
Record collects (e : EntityId) (st st' : collected) : Prop := {
  cl_grows : grows st st';
  cl_seen : forall x, In x st'.2 -> In x st.2 \/ (owned sch S e x /\ complete x st');
  cl_facts : forall f, In f st'.1 ->
    In f st.1 \/ (S f /\ exists x, owned sch S e x /\ mentions x f) }.

Lemma grows_refl st : grows st st.
Proof. split; apply incl_refl. Qed.

Lemma grows_trans st1 st2 st3 : grows st1 st2 -> grows st2 st3 -> grows st1 st3.
Proof. intros [H1 H2] [H3 H4]. split; eauto using incl_tran. Qed.

Lemma handled_grows x st st' d : grows st st' -> handled x st d -> handled x st' d.
Proof. intros [H1 H2] [H3 H4]. split; [auto|]. intros E c Hc. eapply H2, H4; eauto. Qed.

Lemma complete_grows x st st' : grows st st' -> complete x st -> complete x st'.
Proof. intros Hg Hc d Hd. eapply handled_grows; eauto. Qed.

Lemma component_child_spec d c :
  component_child sch d = Some c ->
  d_v d = Value.Ref c /\ is_some_and (schema_get sch (d_a d)) is_component = true.
Proof.
  unfold component_child. destruct (is_some_and _ _); [|done]. destruct (d_v d); try done.
  by intros [= ->].
Qed.

Lemma child_owned e d c :
  In d (datoms db) -> d_e d = e -> component_child sch d = Some c -> owned sch S e c.
Proof.
  intros Hd He (Hv & Hc)%component_child_spec. eapply (owned_child _ _ _ e); [constructor| |done].
  apply fact_in_datoms; [done..|]. exists d. split; [done|]. unfold d_fact. by rewrite He, Hv.
Qed.

(** The scan for [e] has read the datoms [l]. *)
Record scanned (e : EntityId) (st st' : collected) (l : list Datom) : Prop := {
  sc_grows : grows st st';
  sc_seen : forall x, In x st'.2 ->
    x = e \/ In x st.2 \/ (owned sch S e x /\ complete x st');
  sc_facts : forall f, In f st'.1 ->
    In f st.1 \/ (S f /\ exists x, owned sch S e x /\ mentions x f);
  sc_handled : forall d, In d l -> handled e st' d;
  sc_self : In e st'.2 }.

Lemma grows_add_fact f st : grows st (os_insert f st.1, st.2).
Proof. split; [|apply incl_refl]. intros x Hx. apply os_In_insert. by right. Qed.

(** Recording a fact that mentions [e] finishes with its datom. *)
Lemma scanned_fact e st st1 l d :
  scanned e st st1 l -> In d (datoms db) -> mentions e (d_fact d) ->
  (d_e d = e -> forall c, component_child sch d = Some c -> In c st1.2) ->
  scanned e st (os_insert (d_fact d) st1.1, st1.2) (l ++ [d]).
Proof.
  intros [H1 H2 H3 H4 H5] Hd Hm Hc. pose proof (grows_add_fact (d_fact d) st1) as Hg. split; simpl.
  - by eapply grows_trans.
  - intros x Hx. destruct (H2 x Hx) as [|[|[Ho Hx']]]; [auto..|].
    right. right. split; [done|]. by eapply complete_grows.
  - intros f [->|Hf]%os_In_insert; [|by apply H3]. right. split.
    + apply fact_in_datoms; [done..|]. by exists d.
    + exists e. split; [constructor|done].
  - intros d' [Hd'|[<-|[]]]%in_app_iff; [by eapply handled_grows, H4|].
    split; [|done]. intros _. apply os_In_insert. by left.
  - done.
Qed.

Lemma scanned_skip e st st1 l d :
  scanned e st st1 l -> ~ mentions e (d_fact d) -> scanned e st st1 (l ++ [d]).
Proof.
  intros [H1 H2 H3 H4 H5] Hm. split; [done..| |done].
  intros d' [Hd'|[<-|[]]]%in_app_iff; [by apply H4|]. split; [done|].
  intros He. destruct Hm. by left.
Qed.

(** A recursive call for an owned child. *)
Lemma scanned_call e c st st1 st2 l :
  scanned e st st1 l -> owned sch S e c -> collects c st1 st2 -> scanned e st st2 l.
Proof.
  intros [H1 H2 H3 H4 H5] Hc [G1 G2 G3]. split.
  - by eapply grows_trans.
  - intros x Hx. destruct (G2 x Hx) as [Hx'|[Ho Hx']].
    + destruct (H2 x Hx') as [|[|[Ho Hc']]]; [auto..|]. right. right. split; [done|].
      by eapply complete_grows.
    + right. right. split; [by eapply owned_trans|done].
  - intros f Hf. destruct (G3 f Hf) as [Hf'|(HS & x & Hx & Hm)]; [by apply H3|].
    right. split; [done|]. exists x. split; [by eapply owned_trans|done].
  - intros d Hd. by eapply handled_grows, H4.
  - by apply G1.
Qed.

(** Entities of [U] the walk has not seen. *)
Definition unseen (U seen : list EntityId) : nat :=
  length (List.filter (fun x => negb (os_mem x seen)) U).

Lemma filter_length_mono {A} (p q : A -> bool) l :
  (forall x, In x l -> p x = true -> q x = true) ->
  (length (List.filter p l) <= length (List.filter q l))%nat.
Proof.
  induction l as [|x l IH]; intros Hpq; [done|]. simpl.
  specialize (IH (fun y Hy => Hpq y (or_intror Hy))). pose proof (Hpq x (or_introl eq_refl)) as Hx.
  destruct (p x), (q x); simpl; lia || by specialize (Hx eq_refl).
Qed.

Lemma filter_length_lt {A} (p q : A -> bool) l x :
  (forall y, In y l -> p y = true -> q y = true) -> In x l -> p x = false -> q x = true ->
  (length (List.filter p l) < length (List.filter q l))%nat.
Proof.
  intros Hpq (l1 & l2 & ->)%in_split Hp Hq. rewrite !List.filter_app, !length_app. simpl.
  rewrite Hp, Hq. simpl.
  assert (forall y, In y l1 -> p y = true -> q y = true) as H1%filter_length_mono.
  { intros y Hy. apply Hpq, in_app_iff. by left. }
  assert (forall y, In y l2 -> p y = true -> q y = true) as H2%filter_length_mono.
  { intros y Hy. apply Hpq, in_app_iff. right. by right. }
  lia.
Qed.

Lemma unseen_mono U s s' : incl s s' -> (unseen U s' <= unseen U s)%nat.
Proof.
  intros Hs. apply filter_length_mono. intros x _. rewrite !negb_true_iff.
  destruct (os_mem x s) eqn:E; [|done]. intros E'.
  apply os_mem_In, Hs, os_mem_In in E. congruence.
Qed.

Lemma unseen_insert U s e :
  In e U -> os_mem e s = false -> (unseen U (os_insert e s) < unseen U s)%nat.
Proof.
  intros He Hs. unfold unseen. apply (filter_length_lt _ _ _ e); [|done| |by rewrite Hs].
  - intros x _. rewrite !negb_true_iff. destruct (os_mem x s) eqn:E; [|done].
    intros E'. assert (os_mem x (os_insert e s) = true); [|congruence].
    apply os_mem_In, os_In_insert. right. by apply os_mem_In.
  - apply negb_false_iff, os_mem_In, os_In_insert. by left.
Qed.

(** One scan, given that the recursive calls do their part. *)
Lemma scan_loop self e st (U : list EntityId) n :
  (forall c st, In c U -> (unseen U st.2 <= n)%nat -> exists st', self c st = Some st' /\
    collects c st st' /\ In c st'.2) ->
  (forall d c, In d (datoms db) -> component_child sch d = Some c -> In c U) ->
  (unseen U (os_insert e st.2) <= n)%nat ->
  forall l, incl l (datoms db) ->
  exists st', fold_left (collect_datom self sch e) l (Some (st.1, os_insert e st.2)) = Some st' /\
              scanned e st st' l.
Proof.
  intros Hself HU Hn. induction l as [|d l IH] using rev_ind; intros Hl.
  { eexists. split; [done|]. split; simpl; [|intros x [->|Hx]%os_In_insert; auto|auto|done|].
    - split; [apply incl_refl|]. intros x Hx. apply os_In_insert. by right.
    - apply os_In_insert. by left. }
  destruct IH as (st1 & E & Hs); [intros x Hx; apply Hl, in_app_iff; by left|].
  assert (In d (datoms db)) as Hd by (apply Hl, in_app_iff; right; by left).
  rewrite fold_left_app, E. cbn [fold_left]. unfold collect_datom. cbn [mbind option_bind].
  case_bool_decide as He.
  - destruct (component_child sch d) as [c|] eqn:Ec.
    + pose proof (child_owned e d c Hd He Ec) as Ho.
      destruct (Hself c st1) as (st2 & E2 & Hc & Hin); [by eapply HU| |].
      { etransitivity; [|exact Hn]. apply unseen_mono. intros x [->|Hx]%os_In_insert.
        - apply (sc_self _ _ _ _ Hs).
        - by apply (sc_grows _ _ _ _ Hs). }
      rewrite E2. eexists. split; [done|]. apply scanned_fact; [by eapply scanned_call|done|by left|].
      intros _ c' [= <-]%(eq_trans (eq_sym Ec)). done.
    + eexists. split; [done|]. apply scanned_fact; [done..|by left|]. intros _ c'. by rewrite Ec.
  - case_bool_decide as Hv.
    + eexists. split; [done|]. apply scanned_fact; [done..|by right|done].
    + eexists. split; [done|]. apply scanned_skip; [done|]. by intros [?|?].
Qed.

Lemma scanned_all e st st' : scanned e st st' (datoms db) -> collects e st st' /\ In e st'.2.
Proof.
  intros [H1 H2 H3 H4 H5]. split; [|done]. split; [done| |done].
  intros x Hx. destruct (H2 x Hx) as [->|[?|?]]; [|by left|by right].
  right. split; [constructor|]. intros d Hd. by apply H4.
Qed.

Lemma collects_refl e st : collects e st st.
Proof. split; [apply grows_refl|auto|auto]. Qed.

Lemma collect_fuel (U : list EntityId) :
  (forall d c, In d (datoms db) -> component_child sch d = Some c -> In c U) ->
  forall fuel e st, In e U -> (unseen U st.2 <= fuel)%nat ->
  exists st', collect_entity_retractions fuel db e st = Some st' /\ collects e st st' /\ In e st'.2.
Proof.
  intros HU. induction fuel as [|fuel IH]; intros e st He Hn; simpl;
    destruct (os_mem e st.2) eqn:Em;
    try (exists st; split_and!; [done|apply collects_refl|by apply os_mem_In]).
  - pose proof (unseen_insert U st.2 e He Em). lia.
  - pose proof (unseen_insert U st.2 e He Em).
    destruct (scan_loop (collect_entity_retractions fuel db) e st U fuel) with (l := datoms db)
      as (st' & E & Hs); [|done|lia|apply incl_refl|].
    { intros c st1 Hc Hn1. by apply IH. }
    exists st'. split; [done|]. by apply scanned_all.
Qed.

Lemma filter_map_length {A B} (f : A -> option B) l : (length (filter_map f l) <= length l)%nat.
Proof. induction l as [|x l IH]; simpl; [lia|]. destruct (f x); simpl; lia. Qed.

(** The walk ends, and collects the live facts that mention an owned entity. *)
Lemma collect_spec e :
  exists fs seen,
    collect_entity_retractions (retraction_fuel db) db e ([], []) = Some (fs, seen) /\
    (forall x, In x seen <-> owned sch S e x) /\
    (forall f, In f fs <-> S f /\ exists x, owned sch S e x /\ mentions x f).
Proof.
  set (U := e :: filter_map (component_child sch) (datoms db)).
  destruct (collect_fuel U) with (fuel := retraction_fuel db) (e := e) (st := (@nil Fact, @nil EntityId))
    as ([fs seen] & E & [[_ _] Hseen Hfs] & He); simpl in *.
  - intros d c Hd Hc. right. apply In_filter_map. by exists d.
  - by left.
  - unfold unseen, retraction_fuel. etransitivity; [apply List.filter_length_le|].
    simpl. pose proof (filter_map_length (component_child sch) (datoms db)). lia.
  - assert (forall x, owned sch S e x -> In x seen /\ complete x (fs, seen)) as Hown.
    { intros x Hx. induction Hx as [|x a c Hx [IHx IHc] HS Ha].
      - split; [done|]. by destruct (Hseen e He) as [[]|[_ ?]].
      - apply fact_in_datoms in HS as (d & Hd & Ed); [|done..].
        assert (In c seen) as Hc.
        { destruct (IHc d Hd) as [_ Hch]. unfold d_fact in Ed. injection Ed as E1 E2 E3.
          apply Hch; [done|]. unfold component_child. by rewrite E2, Ha, E3. }
        split; [done|]. by destruct (Hseen c Hc) as [[]|[_ ?]]. }
    exists fs, seen. split_and!; [done|..].
    + intros x. split; [intros Hx|intros Hx; by apply Hown]. by destruct (Hseen x Hx) as [[]|[? _]].
    + intros f. split; [intros Hf; by destruct (Hfs f Hf) as [[]|?]|].
      intros (HS & x & Hx & Hm). apply fact_in_datoms in HS as (d & Hd & <-); [|done..].
      destruct (Hown x Hx) as [_ Hc]. by apply (Hc d Hd).
Qed.

End collect.

(** ** Checks *)

Lemma validate_ok db e a v u :
  validate db e a v = Ok u <-> writable_by_transaction e a = true /\ typed (db_schema db) a v.
Proof.
  unfold validate, typed. rewrite bind_ok. setoid_rewrite bind_ok. split.
  - intros ([] & Hw%ensure_ok & attr & Ha & Ht%ensure_ok). split; [done|]. exists attr.
    destruct (schema_get _ a); [|done]. by injection Ha as ->.
  - intros (Hw & attr & Ha & Ht). exists tt. split; [by apply ensure_ok|]. exists attr.
    rewrite Ha. split; [done|]. destruct u. by apply ensure_ok.
Qed.

Lemma validate_not_retired_ok db a u :
  validate_not_retired db a = Ok u <-> is_retired (db_schema db) a = false.
Proof. unfold validate_not_retired. by rewrite ensure_ok, negb_true_iff. Qed.

Lemma validate_assertion_form_ok db a v u :
  validate_assertion_form db a v = Ok u <-> current_form (db_schema db) a v.
Proof.
  unfold validate_assertion_form, current_form.
  destruct (timeline_current _) as [c|], v, u; try done.
  cbn zeta. rewrite ensure_ok, andb_true_iff, bool_decide_eq_true, Z.eqb_eq.
  destruct (schema_class _ c) as [pc|]; naive_solver.
Qed.

Lemma validate_historical_form_ok db a v u :
  validate_historical_form db a v = Ok u <-> historical_form (db_schema db) a v.
Proof.
  unfold validate_historical_form, historical_form. destruct v, u; try (split; [|done]; by intros _ ?).
  rewrite ensure_ok, existsb_exists. split.
  - intros (c & Hc & ->%bool_decide_eq_true) s' [= <-]. done.
  - intros Hs. eexists. split; [by apply Hs|]. by apply bool_decide_eq_true.
Qed.

Lemma keyed_iff sch a attr :
  schema_get sch a = Some attr -> keyed sch a <-> is_some (unique attr) = true.
Proof. intros Ha. unfold keyed. rewrite Ha. naive_solver. Qed.

Lemma single_iff sch a attr :
  schema_get sch a = Some attr -> single sch a <-> cardinality attr = Cardinality.One.
Proof. intros Ha. unfold single. rewrite Ha. naive_solver. Qed.

(** The conflict check of an assertion: the value's least owner is the entity itself. *)
Lemma owner_check db e a v :
  db_ok db -> view db = DbView.Current -> u64 e -> u64 a -> value_wf v ->
  is_some_and (lookup db a v) (fun owner => negb (bool_decide (owner = e))) = false <->
  forall e', facts_of db (e', a, v) -> facts_of db (e, a, v) /\ e <= e'.
Proof.
  intros Hdb Hv He Ha Hw. pose proof (lookup_least db a v Hdb Ha Hw) as Hl.
  rewrite Hv in Hl. specialize (Hl ltac:(done)).
  assert (forall e', facts_of db (e', a, v) -> u64 e' /\ In v (values db e' a)) as Hin.
  { intros e' Hf. pose proof (live_fact_wf _ _ Hdb Hf) as (Hu & _). split; [done|].
    by apply values_has. }
  pose proof (fun o => lookup_u64 db a v o Hdb Ha Hw) as Hu64.
  destruct (lookup db a v) as [o|]; simpl.
  - specialize (Hu64 o eq_refl).
    destruct Hl as [Ho Hle]. rewrite negb_false_iff, bool_decide_eq_true. split.
    + intros -> e' [Hu Hf]%Hin. split; [by apply values_has|]. by apply Hle.
    + intros Hall. apply values_has in Ho; [|done..]. apply Hall in Ho as [Ho Hoe].
      apply values_has in Ho; [|done..]. apply Hle in Ho; [lia|done].
  - split; [|done]. intros _ e' [Hu Hf]%Hin. by destruct (Hl e' Hu).
Qed.

(** ** Operations *)

Definition resolve_op db (tempids : list (TempId * EntityId)) (op : TxOp) : result Fault ROp :=
  match op with
  | TxOp.Add entity a v => e ← resolve db tempids entity; Ok (ROp.Add e a v)
  | TxOp.AddRef entity a target =>
      target ← resolve db tempids target; e ← resolve db tempids entity;
      Ok (ROp.Add e a (Value.Ref target))
  | TxOp.Retract entity a v => e ← resolve db tempids entity; Ok (ROp.Retract e a v)
  | TxOp.Cas entity a old new => e ← resolve db tempids entity; Ok (ROp.Cas e a old new)
  | TxOp.RetractEntity entity => e ← resolve db tempids entity; Ok (ROp.RetractEntity e)
  end.

Definition rop_wf (o : ROp) : Prop :=
  match o with
  | ROp.Add e a v | ROp.Retract e a v => fact_wf (e, a, v)
  | ROp.Cas e a old new => fact_wf (e, a, new) /\ forall o, old = Some o -> value_wf o
  | ROp.RetractEntity e => u64 e
  end.

(** The datoms an accepted operation pushes. *)
Record pushes (tx : EntityId) working (o : ROp) (ds : list Datom) : Prop := {
  pu_post : forall f, has (recorded_datoms working ++ ds) f <->
    post (db_schema working) (facts_of working) o f;
  pu_tx : Forall (fun d => d_tx d = tx) ds;
  pu_wf : facts_wf ds;
  pu_writable : Forall (fun d => writable_by_transaction (d_e d) (d_a d) = true) ds;
  pu_effective : single_valued (db_schema working) (facts_of working) ->
    effective (recorded_datoms working) ds }.

Section ops.
Context (tx : EntityId) (working : Db).
Context (Hdb : db_ok working) (Hview : view working = DbView.Current).
Notation S := (facts_of working).
Notation sch := (db_schema working).

Lemma retractions_shape e a vs :
  Forall (fun d => d_added d = false) (map (retraction tx e a) vs) /\
  map d_fact (map (retraction tx e a) vs) = map (fun w => (e, a, w)) vs.
Proof.
  split; [|by rewrite map_map]. apply List.Forall_forall. by intros d (w & <- & _)%in_map_iff.
Qed.

Lemma has_values e a vs f :
  vs = values working e a -> u64 e -> u64 a ->
  has (recorded_datoms working ++ map (retraction tx e a) vs) f <-> S f /\ f.1 <> (e, a).
Proof.
  intros -> He Ha. destruct (retractions_shape e a (values working e a)) as [Hr Hm].
  rewrite has_retractions, Hm by done. unfold facts_of. split.
  - intros [Hf Hn]. split; [done|]. intros E. destruct f as [ea w]. simpl in E. subst ea.
    destruct Hn. apply in_map_iff. exists w. split; [done|]. by apply values_has.
  - intros [Hf Hn]. split; [done|]. by intros (w & <- & _)%in_map_iff.
Qed.

Lemma effective_values e a vs :
  vs = values working e a -> u64 e -> u64 a ->
  effective (recorded_datoms working) (map (retraction tx e a) vs).
Proof.
  intros -> He Ha. destruct (retractions_shape e a (values working e a)) as [Hr Hm].
  apply effective_retractions; [done| |].
  - rewrite Hm. apply NoDup_fmap_2; [by intros ?? [= ->]|]. by apply sorted_NoDup, values_sorted.
  - intros d (w & <- & Hw)%in_map_iff. by apply values_has in Hw.
Qed.

(** An assertion that replaces the values [olds] of the attribute. *)
Lemma pushes_add e a v attr olds :
  fact_wf (e, a, v) -> schema_get sch a = Some attr -> writable_by_transaction e a = true ->
  ~ S (e, a, v) ->
  olds = (if bool_decide (cardinality attr = Cardinality.One) then values working e a else []) ->
  pushes tx working (ROp.Add e a v) (map (retraction tx e a) olds ++ [assertion tx e a v]).
Proof.
  intros (He & Ha & Hv) Hattr Hw Hn Holds.
  assert (forall w, In w olds -> In w (values working e a)) as Hin.
  { intros w. rewrite Holds. by case_bool_decide. }
  assert (forall f, has (recorded_datoms working ++ map (retraction tx e a) olds) f <->
    S f /\ ~ (single sch a /\ f.1 = (e, a))) as Hhas.
  { intros f. rewrite (single_iff _ _ attr) by done. rewrite Holds. case_bool_decide as E.
    - rewrite has_values by done. naive_solver.
    - simpl. rewrite app_nil_r. unfold facts_of. naive_solver. }
  split.
  - intros f. rewrite app_assoc, has_assertion, Hhas by done. simpl. naive_solver.
  - apply Forall_app. split; [|by constructor]. apply List.Forall_forall. by intros d (w & <- & _)%in_map_iff.
  - apply Forall_app. split; [|by apply List.Forall_cons]. apply List.Forall_forall.
    intros d (w & <- & Hw')%in_map_iff. apply Hin, values_has in Hw'; [|done..].
    by apply (live_fact_wf working).
  - apply Forall_app. split; [|by constructor]. apply List.Forall_forall. by intros d (w & <- & _)%in_map_iff.
  - intros _. apply effective_app.
    + rewrite Holds. case_bool_decide; [by apply effective_values|apply effective_nil].
    + apply effective_assertion; [done|]. rewrite Hhas. naive_solver.
Qed.

(** Pushing nothing leaves everything. *)
Lemma pushes_nothing o :
  (forall f, S f <-> post sch S o f) -> pushes tx working o [].
Proof.
  intros Hp. split; [|constructor..|intros _; apply effective_nil].
  intros f. rewrite app_nil_r. apply Hp.
Qed.

Lemma pushes_retract e a v :
  fact_wf (e, a, v) -> writable_by_transaction e a = true ->
  pushes tx working (ROp.Retract e a v)
    (if bool_decide (v ∈ values working e a) then [retraction tx e a v] else []).
Proof.
  intros (He & Ha & Hv) Hw. case_bool_decide as E; rewrite list_elem_of_In, values_has in E by done.
  - assert (Forall (fun d => d_added d = false) [retraction tx e a v]) as Hr by (by repeat constructor).
    split; [|by apply List.Forall_cons..|].
    + intros f. rewrite has_retractions by done. simpl. unfold facts_of, d_fact. simpl. naive_solver.
    + intros _. apply effective_retractions; [done|apply NoDup_singleton|].
      by intros d [<-|[]].
  - apply pushes_nothing. simpl. naive_solver.
Qed.

Lemma head_sorted {A} `{OrdLaws A} (l : list A) x :
  StronglySorted olt l ->
  head l = Some x <-> In x l /\ forall y, In y l -> cmp x y <> Gt.
Proof.
  destruct 1 as [|z l Hs Hz]; simpl; [split; [done|by intros [[] _]]|].
  rewrite List.Forall_forall in Hz. split.
  - intros [= ->]. split; [by left|]. intros y [->|Hy]; [by rewrite cmp_refl|].
    specialize (Hz y Hy). unfold olt in Hz. by rewrite Hz.
  - intros [[->|Hx] Hall]; [done|]. destruct (Hall z (or_introl eq_refl)).
    specialize (Hz x Hx). unfold olt in Hz. rewrite cmp_antisym, Hz. done.
Qed.

(** The first value, as [Cas] reads it. *)
Lemma head_values e a old :
  u64 e -> u64 a ->
  head (values working e a) = old <->
  match old with
  | Some o => S (e, a, o) /\ forall w, S (e, a, w) -> cmp o w <> Gt
  | None => forall w, ~ S (e, a, w)
  end.
Proof.
  intros He Ha. destruct old as [o|].
  - rewrite head_sorted by (by apply values_sorted). rewrite values_has by done.
    by setoid_rewrite values_has.
  - setoid_rewrite <- values_has; [|done..]. destruct (values working e a) as [|w l]; simpl.
    + naive_solver.
    + split; [done|]. intros Hn. destruct (Hn w). by left.
Qed.

Lemma pushes_cas e a old new :
  fact_wf (e, a, new) -> writable_by_transaction e a = true -> single sch a ->
  head (values working e a) = old ->
  pushes tx working (ROp.Cas e a old new)
    (match old with
     | Some value => [retraction tx e a value; assertion tx e a new]
     | None => [assertion tx e a new]
     end).
Proof.
  intros (He & Ha & Hv) Hw Hs Hold%head_values; [|done..]. destruct old as [o|].
  - destruct Hold as [Ho _]. pose proof (live_fact_wf _ _ Hdb Ho) as Hwf.
    assert (forall f, has (recorded_datoms working ++ [retraction tx e a o]) f <-> S f /\ f <> (e, a, o)) as Hh.
    { intros f. rewrite has_retractions by (by apply List.Forall_cons). simpl. unfold facts_of, d_fact. simpl.
      naive_solver. }
    split; [|by repeat apply List.Forall_cons..|].
    + intros f. rewrite cons_middle, app_assoc. rewrite has_assertion, Hh by done. simpl. naive_solver.
    + intros HI. apply (effective_app _ [_] [_]).
      * apply effective_retractions; [by apply List.Forall_cons|apply NoDup_singleton|].
        by intros d [<-|[]].
      * apply effective_assertion; [done|]. rewrite Hh. intros [Hn Hne]. destruct Hne. unfold d_fact.
        simpl. f_equal. by eapply HI.
  - split; [|by apply List.Forall_cons..|].
    + intros f. rewrite has_assertion by done. simpl. unfold facts_of. naive_solver.
    + intros _. apply effective_assertion; [done|]. apply Hold.
Qed.

Lemma collect_datom_wf self e st d st' :
  (forall c st st', self c st = Some st' -> os_wf st.1 -> os_wf st'.1) ->
  collect_datom self sch e (Some st) d = Some st' -> os_wf st.1 -> os_wf st'.1.
Proof.
  intros Hself. unfold collect_datom. cbn [mbind option_bind]. case_bool_decide.
  - destruct (component_child sch d) as [c|]; simpl.
    + destruct (self c st) as [st1|] eqn:E; simpl; [|done]. intros [= <-] Hw. simpl.
      apply os_insert_wf. by eapply Hself.
    + intros [= <-] Hw. by apply os_insert_wf.
  - case_bool_decide; intros [= <-] Hw; [by apply os_insert_wf|done].
Qed.

Lemma collect_wf fuel e st st' :
  collect_entity_retractions fuel working e st = Some st' -> os_wf st.1 -> os_wf st'.1.
Proof.
  revert e st st'. induction fuel as [|fuel IH]; intros e st st'; simpl;
    (destruct (os_mem e st.2); [by intros [= <-]|]); [done|].
  generalize (os_insert e st.2). intros seen. destruct st as [fs sn]. simpl.
  assert (forall l o, (forall st, o = Some st -> os_wf st.1) ->
    forall st', fold_left (collect_datom (collect_entity_retractions fuel working) sch e) l o = Some st' ->
    os_wf st'.1) as Hl.
  { intros l. induction l as [|d l IHl]; intros o Ho st1; simpl; [intros E1; by apply (Ho st1 E1)|]. apply IHl.
    intros st2 E2. destruct o as [st0|]; [|done]. eapply collect_datom_wf; [exact IH|exact E2|]. by apply Ho. }
  intros E Hw. eapply Hl, E. by intros ? [= <-].
Qed.

Lemma pushes_retract_entity e fs seen :
  collect_entity_retractions (retraction_fuel working) working e ([], []) = Some (fs, seen) ->
  Forall (fun f : Fact => writable_by_transaction f.1.1 f.1.2 = true) fs ->
  pushes tx working (ROp.RetractEntity e) (map (fun f : Fact => retraction tx f.1.1 f.1.2 f.2) fs).
Proof.
  intros E Hw. destruct (collect_spec working Hdb Hview e) as (fs' & seen' & E' & _ & Hfs).
  rewrite E in E'. injection E' as <- <-.
  assert (os_wf fs) as Hso by (eapply collect_wf in E; [exact E|constructor]).
  set (g := fun f : Fact => retraction tx f.1.1 f.1.2 f.2).
  assert (map d_fact (map g fs) = fs) as Hm.
  { rewrite map_map. rewrite <- (map_id fs) at 2. apply map_ext. by intros [[? ?] ?]. }
  assert (forall d, In d (map g fs) -> d_added d = false /\ d_tx d = tx /\ In (d_fact d) fs) as Hd.
  { intros d ([[fe fa] fv] & <- & Hf)%in_map_iff. done. }
  assert (Forall (fun d => d_added d = false) (map g fs)) as Hr.
  { apply List.Forall_forall. intros d Hx. by apply Hd. }
  rewrite List.Forall_forall in Hw. split.
  - intros f. rewrite has_retractions, Hm, Hfs by done. simpl. unfold facts_of. naive_solver.
  - apply List.Forall_forall. intros d Hx. by apply Hd.
  - apply List.Forall_forall. intros d (_ & _ & Hf)%Hd. apply Hfs in Hf as [Hf _].
    by apply (live_fact_wf working).
  - apply List.Forall_forall. intros d (_ & _ & Hf)%Hd. apply (Hw _ Hf).
  - intros _. apply effective_retractions; [done|rewrite Hm; by apply sorted_NoDup|].
    intros d (_ & _ & Hf)%Hd. by apply Hfs in Hf as [Hf _].
Qed.

(** *** Acceptance *)

Context (base : Db) (tempids : list (TempId * EntityId)).

(** An operation [run] is accepted exactly when [pre] holds, and then pushes what [post] says. *)
Definition accepts (b : bool) (o : ROp) (run : result Fault (option (list Datom) * bool)) : Prop :=
  (forall r, run = Ok r -> pre sch tx S b o) /\
  (pre sch tx S b o ->
   exists pushed, run = Ok (pushed, stamps b o) /\ pushes tx working o (unwrap_or pushed [])).

Lemma instant_check (b : bool) (e a : EntityId) b' :
  (if bool_decide (a = TX_INSTANT)
   then if negb (bool_decide (e = tx)) || b
        then fails TxError.InvalidTxInstantOperation else Ok true
   else Ok b) = Ok b' <->
  (a = TX_INSTANT -> e = tx /\ b = false) /\ b' = b || bool_decide (a = TX_INSTANT).
Proof.
  case_bool_decide as Ea; [|rewrite orb_false_r; naive_solver].
  case_bool_decide as Ee; destruct b; simpl; naive_solver.
Qed.

Lemma add_op_accepts b entity e a v :
  resolve base tempids entity = Ok e -> fact_wf (e, a, v) ->
  accepts b (ROp.Add e a v) (add_op base tempids tx working b entity a v).
Proof.
  intros Hres (He & Ha & Hv). unfold add_op. rewrite Hres. cbn [mbind result_bind].
  assert (forall attr, schema_get sch a = Some attr ->
    is_some (unique attr) &&
      is_some_and (lookup working a v) (fun owner => negb (bool_decide (owner = e))) = false <->
    (keyed sch a -> forall e', S (e', a, v) -> S (e, a, v) /\ e <= e')) as Hkey.
  { intros attr Hattr. rewrite (keyed_iff _ _ attr) by done. rewrite <- owner_check by done.
    destruct (is_some (unique attr)); simpl; naive_solver. }
  split.
  - intros r (b' & [Hi _]%instant_check & Hr)%bind_ok.
    apply bind_ok in Hr as (? & [Hw Ht]%validate_ok & Hr).
    apply bind_ok in Hr as (? & Hret%validate_not_retired_ok & Hr).
    apply bind_ok in Hr as (? & Hf%validate_assertion_form_ok & Hr).
    split; [done|]. split; [done|]. destruct Ht as (attr & Hattr & _). rewrite Hattr in Hr.
    apply (Hkey attr Hattr). by destruct (is_some (unique attr) && _).
  - intros (Hi & (Hw & Ht & Hret & Hf) & Hu).
    rewrite (proj2 (instant_check b e a _) (conj Hi eq_refl)).
    rewrite (proj2 (validate_ok working e a v tt) (conj Hw Ht)).
    rewrite (proj2 (validate_not_retired_ok working a tt) Hret).
    rewrite (proj2 (validate_assertion_form_ok working a v tt) Hf).
    destruct Ht as (attr & Hattr & _). rewrite Hattr, (proj2 (Hkey attr Hattr) Hu).
    case_bool_decide as Hc; rewrite list_elem_of_In, values_has in Hc by done.
    + exists None. split; [done|]. apply pushes_nothing. simpl. naive_solver.
    + eexists. split; [done|]. simpl.
      assert ((if bool_decide (cardinality attr = Cardinality.One)
               then map (retraction tx e a) (values working e a) else []) =
              map (retraction tx e a) (if bool_decide (cardinality attr = Cardinality.One)
               then values working e a else [])) as -> by (by case_bool_decide).
      by eapply pushes_add.
Qed.

Lemma retract_op_accepts b entity e a v :
  resolve base tempids entity = Ok e -> fact_wf (e, a, v) ->
  accepts b (ROp.Retract e a v)
    (ds ← retract_op base tempids tx working entity a v; Ok (Some ds, b)).
Proof.
  intros Hres Hwf. unfold retract_op. split.
  - intros r (ds & Hds & _)%bind_ok. case_bool_decide as Ea; [done|]. rewrite Hres in Hds. cbn [mbind result_bind] in Hds.
    apply bind_ok in Hds as (? & [Hw Ht]%validate_ok & Hds).
    by apply bind_ok in Hds as (? & Hf%validate_historical_form_ok & _).
  - intros (Hi & Hw & Ht & Hf). rewrite bool_decide_false, Hres by done. cbn [mbind result_bind].
    rewrite (proj2 (validate_ok working e a v tt) (conj Hw Ht)).
    rewrite (proj2 (validate_historical_form_ok working a v tt) Hf).
    eexists. split; [done|]. by apply pushes_retract.
Qed.

Lemma cas_op_accepts b entity e a old new :
  resolve base tempids entity = Ok e -> fact_wf (e, a, new) ->
  accepts b (ROp.Cas e a old new)
    (ds ← cas_op base tempids tx working entity a old new; Ok (Some ds, b)).
Proof.
  intros Hres Hwf. pose proof Hwf as (He & Ha & Hv). unfold cas_op. split.
  - intros r (ds & Hds & _)%bind_ok. case_bool_decide as Ea; [done|]. rewrite Hres in Hds. cbn [mbind result_bind] in Hds.
    apply bind_ok in Hds as (? & [Hw Ht]%validate_ok & Hds).
    apply bind_ok in Hds as (? & Hret%validate_not_retired_ok & Hds).
    apply bind_ok in Hds as (? & Hf%validate_assertion_form_ok & Hds).
    apply bind_ok in Hds as (? & Hold & Hds). pose proof Ht as (attr & Hattr & _).
    rewrite Hattr in Hds. simpl in Hds. case_bool_decide as Hc; [|done]. simpl in Hds.
    case_bool_decide as Hcur; [|done]. split_and!; [done..|by exists attr|].
    apply head_values in Hcur; [|done..]. destruct old as [o|]; [|done].
    by apply validate_historical_form_ok in Hold.
  - intros (Hi & (Hw & Ht & Hret & Hf) & Hs & Hold). rewrite bool_decide_false, Hres by done.
    cbn [mbind result_bind].
    rewrite (proj2 (validate_ok working e a new tt) (conj Hw Ht)).
    rewrite (proj2 (validate_not_retired_ok working a tt) Hret).
    rewrite (proj2 (validate_assertion_form_ok working a new tt) Hf).
    assert (match old with Some old => validate_historical_form working a old | None => Ok tt end = Ok tt) as ->.
    { destruct old as [o|]; [|done]. destruct Hold as [? _]. by apply validate_historical_form_ok. }
    assert (head (values working e a) = old) as Hcur.
    { apply head_values; [done..|]. destruct old as [o|]; [by destruct Hold as [_ ?]|done]. }
    pose proof Hs as (attr & Hattr & Hc). rewrite Hattr. simpl.
    rewrite !bool_decide_true by done. simpl. rewrite Hcur.
    eexists. split; [done|]. by apply pushes_cas.
Qed.

Lemma retract_entity_op_accepts b entity e :
  resolve base tempids entity = Ok e ->
  accepts b (ROp.RetractEntity e)
    (ds ← retract_entity_op base tempids tx working entity; Ok (Some ds, b)).
Proof.
  intros Hres. unfold retract_entity_op. rewrite Hres. cbn [mbind result_bind].
  destruct (collect_spec working Hdb Hview e) as (fs & seen & E & _ & Hfs). rewrite E.
  cbn [mbind result_bind ok_or].
  assert (pre sch tx S b (ROp.RetractEntity e) <->
    forall f, In f fs -> f.1.2 <> TX_INSTANT /\ writable_by_transaction f.1.1 f.1.2 = true) as Hpre.
  { simpl. setoid_rewrite Hfs. naive_solver. }
  split.
  - intros r (ds & Hds & _)%bind_ok. apply Hpre. intros f Hf.
    destruct (existsb _ fs) eqn:Ex; [done|]. rewrite <- not_true_iff_false, existsb_exists in Ex.
    destruct (find _ fs) eqn:Ef; [done|]. split.
    + intros Ea. destruct Ex. exists f. split; [done|]. by apply bool_decide_eq_true.
    + apply negb_false_iff, (find_none _ _ Ef f Hf).
  - rewrite Hpre. intros Hall.
    assert (existsb (fun f : Fact => bool_decide (f.1.2 = TX_INSTANT)) fs = false) as ->.
    { rewrite <- not_true_iff_false, existsb_exists.
      intros (f & Hf & ?%bool_decide_eq_true). by destruct (Hall f Hf). }
    destruct (find _ fs) as [f|] eqn:Ef.
    { apply find_some in Ef as [Hf Hn]. destruct (Hall f Hf) as [_ Hw]. by rewrite Hw in Hn. }
    eexists. split; [done|]. apply (pushes_retract_entity e fs seen E).
    apply List.Forall_forall. intros f Hf. by apply Hall.
Qed.

End ops.
End facts.
