(* ===== verification/TxLoop.v ===== *)
(** * The transaction loop and temporary ids

    [run_ops] against [run_spec], and what [unify_identities] and [allocate] leave in the
    tempid map. *)

From stdpp Require Import base list strings sorting.
From Stdlib Require Import ZArith Lia.
From S2P Require Import Prelude OrdMap Machine Ids Keyword Values Encoding Datoms Schema.
From S2P Require Import Bootstrap SchemaDatoms Db DbFacts DbReads SagaDb TxSaga Branch Tx TxSpec.
From S2P Require Import TxFacts.
Local Open Scope Z_scope.

(** ** Well-formed transaction data: identifiers and values in their types *)

Definition entity_ref_wf (r : EntityRef) : Prop :=
  match r with
  | EntityRef.Id e => u64 e
  | EntityRef.Temp _ => True
  | EntityRef.Lookup a v => u64 a /\ value_wf v
  end.

Definition op_wf (op : TxOp) : Prop :=
  match op with
  | TxOp.Add e a v | TxOp.Retract e a v => entity_ref_wf e /\ u64 a /\ value_wf v
  | TxOp.AddRef e a target => entity_ref_wf e /\ u64 a /\ entity_ref_wf target
  | TxOp.Cas e a old new => entity_ref_wf e /\ u64 a /\ value_wf new /\ forall o, old = Some o -> value_wf o
  | TxOp.RetractEntity e => entity_ref_wf e
  end.

Definition item_wf (item : TxItem) : Prop :=
  match item with
  | TxItem.Op op => op_wf op
  | TxItem.Map m => entity_ref_wf (em_entity m) /\
      forall a vs, In (a, vs) (em_attributes m) -> u64 a /\ Forall value_wf vs
  end.

Lemma expand_wf items : Forall item_wf items -> Forall op_wf (expand items).
Proof.
  intros Hi. rewrite List.Forall_forall in *. intros op (item & Hit & Hop)%in_flat_map.
  apply Hi in Hit. destruct item as [o|m]; simpl in Hop; [by destruct Hop as [<-|[]]|].
  destruct Hit as [He Hm]. apply in_flat_map in Hop as ([a vs] & Ha & (v & <- & Hv)%in_map_iff).
  apply Hm in Ha as [Ha Hvs]. rewrite List.Forall_forall in Hvs. split_and!; auto.
Qed.

(** The id of transaction [t]. *)
Definition tx_of (t : Z) : EntityId := entity_new (partition_id Partition.Tx) t.

Section loop.
Context {R : Rpds} {HR : RpdsLaws R}.
Implicit Types db base working : Db.

(** What [prepare] relies on: a current value with room for one more transaction. *)
Record ready db : Prop := {
  rd_ok : db_ok db;
  rd_view : view db = DbView.Current;
  rd_basis : 0 <= basis_t db;
  rd_room : basis_t db + 1 < 2 ^ 42 }.

Lemma resolve_u64 db tempids entity e :
  db_ok db -> entity_ref_wf entity -> Forall (fun p => u64 p.2) tempids ->
  resolve db tempids entity = Ok e -> u64 e.
Proof.
  intros Hdb Hw Ht. destruct entity as [e'|t|a v]; simpl in *.
  - by intros [= <-].
  - destruct (om_get t tempids) as [x|] eqn:E; [|done]. intros [= <-].
    apply om_get_In in E. rewrite List.Forall_forall in Ht. apply (Ht _ E).
  - intros (attr & _ & H)%bind_ok. apply bind_ok in H as (? & _ & H).
    destruct (lookup db a v) as [y|] eqn:E; [|done]. injection H as <-.
    destruct Hw. by eapply lookup_u64.
Qed.

Lemma resolve_op_wf db tempids op o :
  db_ok db -> op_wf op -> Forall (fun p => u64 p.2) tempids ->
  resolve_op db tempids op = Ok o -> rop_wf o.
Proof.
  intros Hdb Hw Ht. destruct op as [r a v|r a t|r a v|r a old new|r]; simpl in *.
  - intros (e & He & [= <-])%bind_ok. destruct Hw as (Hr & ? & ?). split; [by eapply resolve_u64|done].
  - intros (x & Hx & H)%bind_ok. apply bind_ok in H as (e & He & [= <-]). destruct Hw as (Hr & ? & ?).
    split_and!; [by apply (resolve_u64 db tempids r)|done|]. simpl. by apply (resolve_u64 db tempids t).
  - intros (e & He & [= <-])%bind_ok. destruct Hw as (Hr & ? & ?). split; [by eapply resolve_u64|done].
  - intros (e & He & [= <-])%bind_ok. destruct Hw as (Hr & ? & ? & ?). simpl.
    split_and!; [by eapply resolve_u64|done..].
  - intros (e & He & [= <-])%bind_ok. by eapply resolve_u64.
Qed.

Lemma run_op_resolves base tempids tx working b op r :
  run_op base tempids tx working b op = Ok r -> exists o, resolve_op base tempids op = Ok o.
Proof.
  assert (forall r a v x, add_op base tempids tx working b r a v = Ok x ->
    exists e, resolve base tempids r = Ok e) as Hadd.
  { intros r0 a v x (e & He & _)%bind_ok. by exists e. }
  destruct op as [e a v|e a t|e a v|e a old new|e]; simpl.
  - intros [x Hx]%Hadd. rewrite Hx. by eexists.
  - intros (y & Hy & [x Hx]%Hadd)%bind_ok. rewrite Hx, Hy. by eexists.
  - intros (ds & H & _)%bind_ok. unfold retract_op in H. case_bool_decide; [done|].
    apply bind_ok in H as (x & Hx & _). rewrite Hx. by eexists.
  - intros (ds & H & _)%bind_ok. unfold cas_op in H. case_bool_decide; [done|].
    apply bind_ok in H as (x & Hx & _). rewrite Hx. by eexists.
  - intros (ds & H & _)%bind_ok. apply bind_ok in H as (x & Hx & _). rewrite Hx. by eexists.
Qed.

Lemma run_op_accepts base tempids tx working b op o :
  db_ok working -> view working = DbView.Current ->
  resolve_op base tempids op = Ok o -> rop_wf o ->
  accepts tx working b o (run_op base tempids tx working b op).
Proof.
  intros Hdb Hv. destruct op as [r a v|r a t|r a v|r a old new|r]; simpl.
  - intros (e & He & [= <-])%bind_ok Hw. by apply add_op_accepts.
  - intros (x & Hx & H)%bind_ok Hw. apply bind_ok in H as (e & He & [= <-]). rewrite Hx. simpl.
    by apply add_op_accepts.
  - intros (e & He & [= <-])%bind_ok Hw. by apply retract_op_accepts.
  - intros (e & He & [= <-])%bind_ok [Hw _]. by apply cas_op_accepts.
  - intros (e & He & [= <-])%bind_ok Hw. by apply retract_entity_op_accepts.
Qed.

(** ** The working value *)

Lemma writable_vocabulary ds :
  Forall (fun d => writable_by_transaction (d_e d) (d_a d) = true) ds ->
  vocabulary_placed ds /\ changes_schema ds = false.
Proof.
  intros Hw. rewrite List.Forall_forall in Hw.
  assert (forall d, In d ds -> is_schema_attribute (d_a d) = true ->
    d_a d = IDENT /\ partition (d_e d) <> partition_id Partition.Db) as Hs.
  { intros d Hd Ha. apply Hw in Hd. unfold writable_by_transaction in Hd. rewrite Ha in Hd.
    destruct (is_audit_attribute _); [done|]. cbn [negb] in Hd. apply andb_true_iff in Hd as [H1 H2].
    apply bool_decide_eq_true in H1. by apply negb_true_iff, bool_decide_eq_false in H2. }
  split.
  - intros d Hd Ha Hne. by destruct (Hs d Hd Ha).
  - apply not_true_iff_false. intros (d & Hd & [Ha Hp%bool_decide_eq_true]%andb_true_iff)%existsb_exists.
    by destruct (Hs d Hd Ha).
Qed.

Lemma tx_of_spec t : 0 <= t < 2 ^ 42 -> 0 <= tx_of t < 2 ^ 63 /\ sequence (tx_of t) = t.
Proof. intros Ht. destruct (tx_entity t Ht) as (? & ? & ? & _). unfold u64, tx_of in *. lia. Qed.

Lemma pushed_ok t t' ds :
  1 <= t < 2 ^ 42 -> t <= t' -> Forall (fun d => d_tx d = tx_of t) ds -> facts_wf ds ->
  Forall (fun d => writable_by_transaction (d_e d) (d_a d) = true) ds -> tx_ok t' ds.
Proof.
  intros Ht Ht' Htx Hf Hw. destruct (tx_of_spec t) as [Hu Hs]; [lia|].
  unfold facts_wf in Hf. rewrite List.Forall_forall in Htx, Hf. split.
  - apply List.Forall_forall. intros d Hd. split; [by apply Hf|]. by rewrite Htx.
  - apply List.Forall_forall. intros d Hd. rewrite Htx, Hs by done. lia.
  - by apply writable_vocabulary.
Qed.

Lemma with_transaction_shape db t ds :
  with_transaction db t ds = apply_transaction db t ds \/
  exists i, with_transaction db t ds = record_instant (apply_transaction db t ds) t i.
Proof.
  unfold with_transaction. destruct (asserted_instant t ds) as [i|] eqn:E; [right|by left].
  exists i. unfold with_transaction_at. by rewrite E.
Qed.

(** The working value after the datoms [ds] of the transaction. *)
Record working_ok base (ds : list Datom) working : Prop := {
  wk_ok : db_ok working;
  wk_view : view working = DbView.Current;
  wk_schema : db_schema working = db_schema base;
  wk_recorded : recorded_datoms working = recorded_datoms base ++ ds;
  wk_basis : basis_t base <= basis_t working }.

Lemma working_start db : ready db -> working_ok db [] db.
Proof. intros [? ? ? ?]. split; [done..|by rewrite app_nil_r|lia]. Qed.

Lemma working_step base ds working o new :
  ready base -> working_ok base ds working -> pushes (tx_of (basis_t base + 1)) working o new ->
  working_ok base (ds ++ new) (with_transaction (force_indexes working) (basis_t working + 1) new).
Proof.
  intros [_ _ Hb Hroom] [Hok Hv Hsch Hrec Hbas] [_ Htx Hf Hw _].
  destruct (writable_vocabulary new Hw) as [Hvoc Hch].
  assert (tx_ok (basis_t working + 1) new) as Htxok by (apply (pushed_ok (basis_t base + 1)); [lia|lia|done..]).
  set (w := apply_transaction (force_indexes working) (basis_t working + 1) new).
  assert (working_ok base (ds ++ new) w) as Hwok.
  { split.
    - apply apply_transaction_ok; [by apply force_indexes_ok|done|simpl; lia|done].
    - unfold w. by rewrite apply_transaction_view.
    - unfold w. by rewrite apply_transaction_schema_kept.
    - unfold w. rewrite apply_transaction_recorded. change (recorded_datoms (force_indexes working))
        with (recorded_datoms working). by rewrite Hrec, app_assoc.
    - unfold w. rewrite apply_transaction_basis. lia. }
  destruct (with_transaction_shape (force_indexes working) (basis_t working + 1) new) as [->|[i ->]]; [done|].
  destruct Hwok as [H1 H2 H3 H4 H5]. split; [by apply record_instant_ok|done..].
Qed.

(** ** The loop *)

(** What the loop adds to the datoms. *)
Record emitted base working (new : list Datom) : Prop := {
  em_tx : Forall (fun d => d_tx d = tx_of (basis_t base + 1)) new;
  em_wf : facts_wf new;
  em_writable : Forall (fun d => writable_by_transaction (d_e d) (d_a d) = true) new;
  em_effective : single_valued (db_schema base) (facts_of working) ->
    effective (recorded_datoms working) new }.

Lemma emitted_nil base working : emitted base working [].
Proof. split; [constructor..|intros _; apply effective_nil]. Qed.

Lemma has_with_transaction working t new f :
  has (recorded_datoms (with_transaction (force_indexes working) t new)) f <->
  has (recorded_datoms working ++ new) f.
Proof.
  destruct (with_transaction_shape (force_indexes working) t new) as [->|[i ->]];
    unfold record_instant; [|change (recorded_datoms (mk_db _ _ _ _ _ _ _ _ _ _ _ _)) with
      (recorded_datoms (apply_transaction (force_indexes working) t new))];
    by rewrite apply_transaction_recorded.
Qed.

Lemma run_spec_ext sch tx S T b os S' :
  (forall f, S f <-> T f) -> run_spec sch tx S b os S' -> run_spec sch tx T b os S'.
Proof.
  intros HST Hr. revert T HST. induction Hr as [S S' b HS|S S' S'' b o os Hpre Hpost Hr IH]; intros T HST.
  - constructor. intros f. by rewrite <- HST.
  - assert (forall e x, owned sch S e x <-> owned sch T e x) as Hown.
    { intros e x. split; induction 1; try constructor; eapply owned_child; eauto; by apply HST. }
    apply (run_cons _ _ T S' S''); [| |done].
    + destruct o; simpl in *; try setoid_rewrite <- HST; try setoid_rewrite <- Hown; try done.
      destruct old; [|by setoid_rewrite <- HST]. setoid_rewrite <- HST. done.
    + intros f. rewrite Hpost. destruct o; simpl; try rewrite !HST; try done.
      by setoid_rewrite Hown.
Qed.

Section run.
Context (base : Db) (tempids : list (TempId * EntityId)).
Context (Hbase : ready base) (Htemp : Forall (fun p => u64 p.2) tempids).
Notation tx := (tx_of (basis_t base + 1)).
Notation sch := (db_schema base).
Notation resolves := (Forall2 (fun op o => resolve_op base tempids op = Ok o)).

(** The facts an operation leaves live, in the working value it is applied to. *)
Lemma working_facts ds working o new f :
  working_ok base ds working -> pushes tx working o new ->
  facts_of (with_transaction (force_indexes working) (basis_t working + 1) new) f <->
  post sch (facts_of working) o f.
Proof.
  intros Hw [Hp _ _ _ _]. unfold facts_of at 1. rewrite has_with_transaction, Hp.
  by rewrite (wk_schema _ _ _ Hw).
Qed.

Lemma emitted_step ds working b o pushed new :
  working_ok base ds working -> pre sch tx (facts_of working) b o -> pushes tx working o pushed ->
  emitted base (with_transaction (force_indexes working) (basis_t working + 1) pushed) new ->
  emitted base working (pushed ++ new).
Proof.
  intros Hw Hpre Hp [H1 H2 H3 H4]. pose proof Hp as [Hpost P1 P2 P3 P4].
  split; [by apply Forall_app|by apply Forall_app|by apply Forall_app|].
  intros HI. rewrite (wk_schema _ _ _ Hw) in P4. apply effective_app; [by apply P4|].
  assert (recorded_datoms (with_transaction (force_indexes working) (basis_t working + 1) pushed) =
    recorded_datoms working ++ pushed) as <-.
  { pose proof (wk_recorded _ _ _ (working_step _ _ _ _ _ Hbase Hw Hp)) as ->.
    by rewrite (wk_recorded _ _ _ Hw), app_assoc. }
  apply H4. intros e a v w Ha Hv Hv'.
  apply (working_facts ds working o) in Hv; [|done..]. apply (working_facts ds working o) in Hv'; [|done..].
  eapply (post_single_valued sch tx); eauto.
Qed.

(** Accepted runs meet the specification. *)
Lemma run_ops_sound ops ds working b ds0 ds' :
  working_ok base ds working -> Forall op_wf ops ->
  run_ops base tempids tx ops working b ds0 = Ok ds' ->
  exists new os, ds' = ds0 ++ new /\ resolves ops os /\ emitted base working new /\
    run_spec sch tx (facts_of working) b os (has (recorded_datoms working ++ new)).
Proof.
  revert ds working b ds0. induction ops as [|op ops IH]; intros ds working b ds0 Hw Hwf; simpl.
  { intros [= <-]. exists [], []. split_and!; [by rewrite app_nil_r|constructor|apply emitted_nil|].
    constructor. intros f. by rewrite app_nil_r. }
  apply Forall_cons in Hwf as [Hop Hops].
  intros ([pushed b'] & Hrun & Hrest)%bind_ok.
  destruct (run_op_resolves _ _ _ _ _ _ _ Hrun) as [o Ho].
  assert (rop_wf o) as Hrop by (eapply resolve_op_wf; [apply rd_ok, Hbase|exact Hop|exact Htemp|exact Ho]).
  destruct (run_op_accepts _ _ tx _ b _ _ (wk_ok _ _ _ Hw) (wk_view _ _ _ Hw) Ho Hrop) as [Hpre Hacc].
  specialize (Hpre _ Hrun). destruct (Hacc Hpre) as (pushed' & E & Hp). rewrite (wk_schema _ _ _ Hw) in Hpre.
  rewrite Hrun in E. injection E as <- ->. destruct pushed as [new1|]; simpl in Hp.
  - apply (IH (ds ++ new1)) in Hrest as (new & os & -> & Hos & Hem & Hspec);
      [|by eapply working_step|done].
    exists (new1 ++ new), (o :: os). split_and!; [by rewrite app_assoc|by constructor|by eapply emitted_step|].
    eapply run_cons; [done|intros f; by eapply working_facts|].
    rewrite (wk_recorded _ _ _ (working_step _ _ _ _ _ Hbase Hw Hp)) in Hspec.
    rewrite (wk_recorded _ _ _ Hw). by rewrite !app_assoc in *.
  - apply (IH ds) in Hrest as (new & os & -> & Hos & Hem & Hspec); [|done..].
    exists new, (o :: os). split_and!; [done|by constructor|done|].
    eapply run_cons; [done| |exact Hspec]. intros f. pose proof (pu_post _ _ _ _ Hp f) as Hf.
    by rewrite app_nil_r, (wk_schema _ _ _ Hw) in Hf.
Qed.

(** Runs that meet the specification are accepted. *)
Lemma run_ops_complete ops os ds working b ds0 S' :
  working_ok base ds working -> Forall op_wf ops -> resolves ops os ->
  run_spec sch tx (facts_of working) b os S' ->
  exists ds', run_ops base tempids tx ops working b ds0 = Ok ds'.
Proof.
  intros Hw Hwf Hos. revert ds working b ds0 Hw. induction Hos as [|op o ops os Ho Hos IH];
    intros ds working b ds0 Hw Hspec; simpl; [by eexists|].
  apply Forall_cons in Hwf as [Hop Hops].
  assert (rop_wf o) as Hrop by (eapply resolve_op_wf; [apply rd_ok, Hbase|exact Hop|exact Htemp|exact Ho]).
  destruct (run_op_accepts _ _ tx _ b _ _ (wk_ok _ _ _ Hw) (wk_view _ _ _ Hw) Ho Hrop) as [_ Hacc].
  inversion Hspec as [|S1 S2 S3 b0 o0 os0 Hpre Hpost Hr]; subst. rewrite (wk_schema _ _ _ Hw) in Hacc.
  destruct (Hacc Hpre) as (pushed & -> & Hp). cbn [mbind result_bind].
  destruct pushed as [new|]; simpl in Hp.
  - eapply (IH Hops (ds ++ new)); [by eapply working_step|].
    eapply run_spec_ext; [|exact Hr]. intros f. rewrite Hpost. symmetry. by eapply working_facts.
  - eapply (IH Hops ds); [done|]. eapply run_spec_ext; [|exact Hr]. intros f. rewrite Hpost.
    pose proof (pu_post _ _ _ _ Hp f) as Hf. by rewrite app_nil_r, (wk_schema _ _ _ Hw) in Hf.
Qed.

End run.
(** ** Temporary ids *)

Lemma om_get_insert_dec {V} (k k' : string) (v : V) m :
  om_get k' (om_insert k v m) = if bool_decide (k' = k) then Some v else om_get k' m.
Proof.
  case_bool_decide as E; [by rewrite E, om_get_insert_eq|by apply om_get_insert_ne].
Qed.

(** The tempid map while ids are handed out from [n0], starting from [ids0]. *)
Record id_allocation (tx : EntityId) (ids0 : list (TempId * EntityId)) (n0 : Z)
    (ids : list (TempId * EntityId)) (next : Z) : Prop := {
  al_next : n0 <= next;
  al_from : forall t e, om_get t ids = Some e ->
    (t = TX_TEMPID /\ e = tx) \/ (t <> TX_TEMPID /\ om_get t ids0 = Some e) \/
    (t <> TX_TEMPID /\ om_get t ids0 = None /\
     exists n, n0 <= n < next /\ e = entity_new (partition_id Partition.User) n);
  al_keep : forall t e, t <> TX_TEMPID -> om_get t ids0 = Some e -> om_get t ids = Some e;
  al_once : forall t t' n, n0 <= n < next -> t <> TX_TEMPID -> t' <> TX_TEMPID ->
    om_get t ids0 = None -> om_get t' ids0 = None ->
    om_get t ids = Some (entity_new (partition_id Partition.User) n) ->
    om_get t' ids = Some (entity_new (partition_id Partition.User) n) -> t = t' }.

Definition tempid_of (r : EntityRef) : option TempId :=
  match r with EntityRef.Temp t => Some t | _ => None end.

Lemma allocate_step_spec tx ids0 n0 st r :
  0 <= n0 -> st.2 < 2 ^ 42 -> id_allocation tx ids0 n0 st.1 st.2 ->
  let st' := allocate_step tx st r in
  id_allocation tx ids0 n0 st'.1 st'.2 /\ st'.2 <= st.2 + 1 /\
  (forall t, is_Some (om_get t st.1) \/ tempid_of r = Some t -> is_Some (om_get t st'.1)).
Proof.
  intros Hn0 Hroom Ha. destruct st as [ids next]. simpl in *. destruct r as [e|t|a v]; simpl;
    try (split_and!; [done|lia|intros t [?|?]; done]).
  pose proof Ha as [H1 H2 H3 H4]. case_bool_decide as Et; simpl.
  - subst t. split_and!; [|lia|].
    + split; [done|..].
      * intros t e. rewrite om_get_insert_dec. case_bool_decide as E; [intros [= <-]; by left|apply H2].
      * intros t e Ht Hg. rewrite om_get_insert_dec, (bool_decide_false (t = _)) by done. by apply H3.
      * intros t t' n Hn Ht Ht'. rewrite !om_get_insert_dec, !bool_decide_false by done. by apply H4.
    + intros t Ht. rewrite om_get_insert_dec. case_bool_decide; [by eexists|].
      destruct Ht as [?|Ht]; [done|congruence].
  - destruct (om_get t ids) as [e|] eqn:Eg; simpl.
    { split_and!; [done|lia|]. intros t' [?|[= <-]]; [done|by eexists]. }
    assert (om_get t ids0 = None) as E0.
    { destruct (om_get t ids0) as [x|] eqn:E0; [|done]. apply H3 in E0; congruence. }
    split_and!; [|lia|].
    + split; [lia|..].
      * intros t' e. rewrite om_get_insert_dec. case_bool_decide as E.
        -- intros [= <-]. subst t'. right. right. split_and!; [done..|]. exists next. split; [lia|done].
        -- intros [?|[?|(? & ? & n & ? & ?)]]%H2; [auto..|]. right. right. split_and!; [done..|].
           exists n. split; [lia|done].
      * intros t' e Ht' Hg. rewrite om_get_insert_dec, bool_decide_false by congruence. by apply H3.
      * assert (forall t' n, n0 <= n < next + 1 -> om_get t' ids0 = None -> t' <> TX_TEMPID ->
          om_get t' (om_insert t (entity_new (partition_id Partition.User) next) ids) =
            Some (entity_new (partition_id Partition.User) n) ->
          (t' = t /\ n = next) \/ (n < next /\ om_get t' ids = Some (entity_new (partition_id Partition.User) n))) as Hc.
        { intros t' n Hn E0' Ht' . rewrite om_get_insert_dec. case_bool_decide as E.
          - intros [= Ee]. left. split; [done|]. apply (f_equal sequence) in Ee.
            rewrite !sequence_new, !Z.mod_small in Ee by (done || lia). done.
          - intros Hg. right. split; [|done].
            apply H2 in Hg as [[? _]|[[_ ?]|(_ & _ & m & Hm & Ee)]]; [done|congruence|].
            apply (f_equal sequence) in Ee. rewrite !sequence_new, !Z.mod_small in Ee by (done || lia). lia. }
        intros t1 t2 n Hn Ht1 Ht2 E1 E2 G1 G2.
        destruct (Hc t1 n) as [[-> ->]|[Hl1 G1']]; [done..| |].
        -- destruct (Hc t2 next) as [[-> _]|[? _]]; [done..|lia].
        -- destruct (Hc t2 n) as [[-> ->]|[_ G2']]; [done..|lia|]. apply (H4 t1 t2 n); done || lia.
    + intros t' Ht. rewrite om_get_insert_dec. case_bool_decide; [by eexists|].
      destruct Ht as [?|Ht]; [done|congruence].
Qed.

Lemma allocate_spec tx ops ids0 n0 ids next :
  0 <= n0 -> n0 + Z.of_nat (length (flat_map entity_positions ops)) <= 2 ^ 42 ->
  allocate tx ops ids0 n0 = (ids, next) ->
  om_get TX_TEMPID ids0 = None ->
  id_allocation tx ids0 n0 ids next /\ next <= 2 ^ 42 /\
  (forall t op, In op ops -> In (EntityRef.Temp t) (entity_positions op) -> is_Some (om_get t ids)).
Proof.
  intros Hn0 Hroom Hal H0.
  assert (forall rs st, st.2 + Z.of_nat (length rs) <= 2 ^ 42 -> id_allocation tx ids0 n0 st.1 st.2 ->
    let st' := fold_left (allocate_step tx) rs st in
    id_allocation tx ids0 n0 st'.1 st'.2 /\ st'.2 <= st.2 + Z.of_nat (length rs) /\
    (forall t, is_Some (om_get t st.1) \/ In (EntityRef.Temp t) rs -> is_Some (om_get t st'.1))) as Hgen.
  { induction rs as [|r rs IH]; intros st Hl Ha; simpl; [split_and!; [done|lia|by intros t [?|[]]]|].
    simpl in Hl. destruct (allocate_step_spec tx ids0 n0 st r Hn0) as (A1 & A2 & A3); [lia|done|].
    destruct (IH (allocate_step tx st r)) as (B1 & B3 & B2); [lia|done|]. split_and!; [done|lia|].
    intros t Ht. apply B2. destruct Ht as [Ht|[->|Ht]]; [left; by apply A3; left|left; by apply A3; right|by right]. }
  unfold allocate in Hal. destruct (Hgen (flat_map entity_positions ops) (ids0, n0)) as (G1 & G3 & G2).
  - done.
  - split; simpl; [lia| |done|].
    + intros t e Ht. right. left. split; [|done]. intros ->. by rewrite H0 in Ht.
    + intros t t' n. lia.
  - rewrite Hal in G1, G2, G3. simpl in G3. split_and!; [done|lia|]. intros t op Hop Ht. apply G2. right. apply in_flat_map. by exists op.
Qed.

(** A tempid unified before allocation names the owner of an identity value. *)
Lemma unify_identities_spec db ops t e :
  om_get t (unify_identities db ops) = Some e ->
  t <> TX_TEMPID /\ exists a v attr,
    In (TxOp.Add (EntityRef.Temp t) a v) ops /\ lookup db a v = Some e /\
    schema_get (db_schema db) a = Some attr /\ unique attr = Some Unique.Identity.
Proof.
  unfold unify_identities.
  induction ops as [|op ops IH] using rev_ind; [done|]. rewrite fold_left_app. simpl.
  set (ids := fold_left _ ops []) in *. intros Hg.
  assert (om_get t ids = Some e \/ exists a v attr, op = TxOp.Add (EntityRef.Temp t) a v /\
    t <> TX_TEMPID /\ lookup db a v = Some e /\ schema_get (db_schema db) a = Some attr /\
    unique attr = Some Unique.Identity) as [Hi|(a & v & attr & -> & Ht & H)].
  { destruct op as [[x|u|x y] a v| | | |]; simpl in Hg; try by left.
    case_bool_decide as Eu; simpl in Hg; [by left|]. case_bool_decide as Ea; [|by left].
    destruct (lookup db a v) as [o|] eqn:El; [|by left]. rewrite om_get_insert_dec in Hg.
    case_bool_decide as Etu; [|by left]. injection Hg as ->. subst u. right.
    destruct (schema_get (db_schema db) a) as [attr|] eqn:Es; [|done]. by exists a, v, attr. }
  - destruct (IH Hi) as (Ht & a & v & attr & Hin & H). split; [done|]. exists a, v, attr.
    split; [apply in_app_iff; by left|done].
  - split; [done|]. exists a, v, attr. split; [apply in_app_iff; right; by left|done].
Qed.

Lemma unify_identities_tx db ops : om_get TX_TEMPID (unify_identities db ops) = None.
Proof.
  destruct (om_get _ _) as [e|] eqn:E; [|done]. by apply unify_identities_spec in E as [? _].
Qed.

Lemma tempids_wf db ops ids tx n0 next :
  db_ok db -> Forall op_wf ops -> u64 tx -> id_allocation tx (unify_identities db ops) n0 ids next ->
  forall t e, om_get t ids = Some e -> u64 e.
Proof.
  intros Hdb Hops Htx [_ Hfrom _ _] t e [[_ ->]|[[_ Hg]|(_ & _ & n & _ & ->)]]%Hfrom; [done| |].
  - apply unify_identities_spec in Hg as (_ & a & v & attr & Hin & Hl & _).
    rewrite List.Forall_forall in Hops. apply Hops in Hin as (_ & Ha & Hv). by eapply lookup_u64.
  - by apply entity_new_u64.
Qed.

Lemma tempids_om_wf db tx ops n0 ids next :
  allocate tx ops (unify_identities db ops) n0 = (ids, next) -> om_wf ids.
Proof.
  assert (forall rs st, om_wf st.1 -> om_wf (fold_left (allocate_step tx) rs st).1) as Hal.
  { induction rs as [|r rs IH]; intros [m n] Hm; [done|]. simpl. apply IH. simpl.
    destruct r; [done| |done]. simpl. case_bool_decide; [by apply om_insert_wf|].
    destruct (om_get _ _); [done|by apply om_insert_wf]. }
  assert (om_wf (unify_identities db ops)) as Hid.
  { unfold unify_identities. assert (om_wf (@nil (string * EntityId))) as H0 by constructor.
    revert H0. generalize (@nil (string * EntityId)). 
    induction ops as [|op l IH]; intros m Hm; [done|]. simpl. apply IH.
    destruct op as [[x|u|x y] a v| | | |]; simpl; try done. destruct (_ && _); [|done].
    destruct (lookup db a v); [by apply om_insert_wf|done]. }
  intros E. unfold allocate in E. specialize (Hal (flat_map entity_positions ops) (unify_identities db ops, n0) Hid).
  by rewrite E in Hal.
Qed.

End loop.
