(* ===== verification/TxTheorems.v ===== *)
(** * Theorems about [prepare] (corium-tx/src/lib.rs)

    Preparation is total, accepts exactly the transactions the specification accepts, and
    its datoms leave live exactly the facts the specification says.  Cardinality, typing,
    protection and the schema follow from the specification's invariants. *)

From stdpp Require Import base list strings sorting relations.
From Stdlib Require Import ZArith Lia.
From S2P Require Import Prelude OrdMap Machine Ids Keyword Values Encoding Datoms Schema.
From S2P Require Import Bootstrap SchemaDatoms Db DbFacts DbReads DbTheorems SagaDb TxSaga Branch.
From S2P Require Import Tx TxSpec TxFacts TxLoop.
Local Open Scope Z_scope.

(** ** Ways a call must not end *)

(** An operation of the loop fails only with its own errors, not with a panic, an
    unfinished recursion or a registry violation. *)
Definition plain (e : TxError) : Prop :=
  match e with TxError.Saga _ | TxError.Step _ => False | _ => True end.

Definition clean {A} (r : result Fault A) : Prop :=
  match r with Ok _ => True | Err (Fault.Fails e) => plain e | Err _ => False end.

Lemma clean_ok {A} (x : A) : clean (Ok x).
Proof. done. Qed.
Lemma clean_fails {A} e : plain e -> clean (A:=A) (fails e).
Proof. done. Qed.
Lemma clean_bind {A B} (m : result Fault A) (k : A -> result Fault B) :
  clean m -> (forall x, m = Ok x -> clean (k x)) -> clean (m ≫= k).
Proof. intros Hm Hk. destruct m as [x|e]; simpl; [by apply Hk|done]. Qed.
Lemma clean_ensure b e : plain e -> clean (ensure b (Fault.Fails e)).
Proof. by destruct b. Qed.
Lemma clean_ok_or {A} (o : option A) e : plain e -> clean (ok_or o (Fault.Fails e)).
Proof. by destruct o. Qed.

Create HintDb clean.
#[export] Hint Resolve clean_ok clean_fails clean_ensure clean_ok_or : clean.
#[export] Hint Extern 1 (plain _) => exact I : clean.

Ltac clean_step :=
  match goal with
  | |- clean (_ ≫= _) => apply clean_bind; [|intros ? ?]
  | |- clean (if ?b then _ else _) => destruct b eqn:?
  | |- clean (match ?x with _ => _ end) => destruct x eqn:?
  | |- clean _ => solve [eauto with clean]
  end.

Section theorems.
Context {R : Rpds} {HR : RpdsLaws R}.
Implicit Types db working base : Db.

Lemma validate_clean db e a v : clean (validate db e a v).
Proof. unfold validate. repeat clean_step. Qed.
Lemma validate_not_retired_clean db a : clean (validate_not_retired db a).
Proof. unfold validate_not_retired. repeat clean_step. Qed.
Lemma validate_assertion_form_clean db a v : clean (validate_assertion_form db a v).
Proof. unfold validate_assertion_form. repeat clean_step. Qed.
Lemma validate_historical_form_clean db a v : clean (validate_historical_form db a v).
Proof. unfold validate_historical_form. repeat clean_step. Qed.

#[local] Hint Resolve validate_clean validate_not_retired_clean validate_assertion_form_clean
  validate_historical_form_clean : clean.

Lemma resolve_clean db tempids r :
  (forall t, r = EntityRef.Temp t -> is_Some (om_get t tempids)) -> clean (resolve db tempids r).
Proof.
  intros Ht. destruct r as [e|t|a v]; simpl; [done| |repeat clean_step].
  by destruct (Ht t eq_refl) as [e ->].
Qed.

Lemma add_op_clean base tempids tx working b r a v :
  clean (resolve base tempids r) -> clean (add_op base tempids tx working b r a v).
Proof. intros Hr. unfold add_op. clean_step; [done|]. repeat clean_step. Qed.

(** Every tempid of the operation is in the map. *)
Definition bound (tempids : list (TempId * EntityId)) (op : TxOp) : Prop :=
  forall t, In (EntityRef.Temp t) (entity_positions op) -> is_Some (om_get t tempids).

Lemma run_op_clean base tempids tx working b op :
  db_ok working -> view working = DbView.Current -> bound tempids op ->
  clean (run_op base tempids tx working b op).
Proof.
  intros Hdb Hv Hb.
  assert (forall r, In r (entity_positions op) -> clean (resolve base tempids r)) as Hr.
  { intros r Hr. apply resolve_clean. intros t ->. by apply Hb. }
  destruct op as [r a v|r a t|r a v|r a old new|r]; simpl in *.
  - apply add_op_clean. auto.
  - clean_step; [auto|]. apply add_op_clean. auto.
  - clean_step; [|done]. unfold retract_op. clean_step; [done|]. clean_step; [by auto|]. repeat clean_step.
  - clean_step; [|done]. unfold cas_op. clean_step; [done|]. clean_step; [by auto|]. repeat clean_step.
  - clean_step; [|done]. unfold retract_entity_op. clean_step; [by auto|].
    destruct (collect_spec working Hdb Hv x) as (fs & seen & -> & _). cbn [ok_or mbind result_bind].
    repeat clean_step.
Qed.

Lemma run_ops_clean base tempids ops ds working b ds0 :
  ready base -> Forall (fun p => u64 p.2) tempids -> working_ok base ds working ->
  Forall op_wf ops -> Forall (bound tempids) ops ->
  clean (run_ops base tempids (tx_of (basis_t base + 1)) ops working b ds0).
Proof.
  intros Hb Ht. revert ds working b ds0. induction ops as [|op ops IH]; intros ds working b ds0 Hw Hwf Hbo;
    [done|].
  apply Forall_cons in Hwf as [Hop Hops]. apply Forall_cons in Hbo as [Hb1 Hbo]. simpl.
  apply clean_bind; [apply run_op_clean; [apply Hw..|done]|].
  intros [pushed b'] Hrun. destruct pushed as [new|]; [|by apply (IH ds)].
  destruct (run_op_resolves _ _ _ _ _ _ _ Hrun) as [o Ho].
  assert (rop_wf o) as Hrop by (eapply resolve_op_wf; [apply rd_ok, Hb|exact Hop|exact Ht|exact Ho]).
  destruct (run_op_accepts _ _ (tx_of (basis_t base + 1)) _ b _ _ (wk_ok _ _ _ Hw) (wk_view _ _ _ Hw) Ho Hrop)
    as [Hpre Hacc].
  destruct (Hacc (Hpre _ Hrun)) as (pushed' & E & Hp). rewrite Hrun in E. injection E as <- _.
  apply (IH (ds ++ new)); [by eapply working_step|done..].
Qed.

(** ** Inputs of [prepare] *)

(** A current database with room, well-formed data, and room for the ids it may allocate. *)
Record input_ok db (items : list TxItem) (next : Z) : Prop := {
  in_ready : ready db;
  in_wf : Forall item_wf items;
  in_next : 0 <= next;
  in_room : Z.max next FIRST_USER_ID +
    Z.of_nat (length (flat_map entity_positions (expand items))) <= 2 ^ 42 }.

Definition next_tx db : EntityId := tx_of (basis_t db + 1).

(** The tempid map [prepare] builds. *)
Definition tempids_of db (items : list TxItem) (next : Z) : list (TempId * EntityId) :=
  (allocate (next_tx db) (expand items) (unify_identities db (expand items))
    (Z.max next FIRST_USER_ID)).1.

Lemma tempids_of_spec db items next :
  input_ok db items next ->
  let ids := tempids_of db items next in
  (exists n, id_allocation (next_tx db) (unify_identities db (expand items)) (Z.max next FIRST_USER_ID) ids n /\ n <= 2 ^ 42) /\
  Forall (fun p => u64 p.2) ids /\ Forall (bound ids) (expand items) /\ om_wf ids.
Proof.
  intros [Hr Hwf Hn Hroom] ids.
  destruct (allocate (next_tx db) (expand items) (unify_identities db (expand items))
    (Z.max next FIRST_USER_ID)) as [ids' n] eqn:E.
  assert (ids = ids') as -> by (unfold ids, tempids_of; by rewrite E).
  pose proof (tempids_om_wf _ _ _ _ _ _ E) as Hom.
  apply allocate_spec in E as (Hal & Hn42 & Hbo); [|unfold FIRST_USER_ID; lia|done|apply unify_identities_tx].
  split_and!; [by exists n| | |done].
  - apply List.Forall_forall. intros [t e] Hin. apply om_In_get in Hin; [|done].
    eapply (tempids_wf db (expand items)); [apply Hr|by apply expand_wf| |exact Hal|exact Hin].
    destruct (tx_of_spec (basis_t db + 1)) as [Hu _]; [destruct Hr; lia|]. unfold next_tx, u64. lia.
  - apply List.Forall_forall. intros op Hop t Ht. by eapply Hbo.
Qed.

Lemma prepare_unfold db items next :
  prepare db items (next_tx db) next =
  datoms ← run_ops db (tempids_of db items next) (next_tx db) (expand items) db false [];
  match saga_validate db datoms with
  | Err v => fails (TxError.Saga v)
  | Ok _ => Ok (mk_prepared datoms (tempids_of db items next))
  end.
Proof. unfold prepare, tempids_of. by destruct (allocate _ _ _ _). Qed.

(** The operations of [items], resolved. *)
Definition resolved db items next (os : list ROp) : Prop :=
  Forall2 (fun op o => resolve_op db (tempids_of db items next) op = Ok o) (expand items) os.

Lemma prepare_sound db items next p :
  input_ok db items next -> prepare db items (next_tx db) next = Ok p ->
  p_tempids p = tempids_of db items next /\ saga_validate db (p_datoms p) = Ok tt /\
  emitted db db (p_datoms p) /\
  exists os, resolved db items next os /\
    run_spec (db_schema db) (next_tx db) (facts_of db) false os (has (recorded_datoms db ++ p_datoms p)).
Proof.
  intros Hin. destruct (tempids_of_spec db items next Hin) as (_ & Hu & _ & _).
  rewrite prepare_unfold. intros (ds & Hrun & Hs)%bind_ok.
  destruct (saga_validate db ds) as [[]|v] eqn:Ev; [|done]. injection Hs as <-.
  eapply run_ops_sound in Hrun as (new & os & -> & Hos & Hem & Hspec);
    [|apply Hin|done|apply working_start, Hin|apply expand_wf, Hin].
  cbn [p_datoms p_tempids app] in *. split_and!; [done..|]. by exists os.
Qed.

(** The database a prepared transaction leads to. *)
Definition after db (p : PreparedTx) : Db := with_transaction db (basis_t db + 1) (p_datoms p).

Lemma after_recorded db p : recorded_datoms (after db p) = recorded_datoms db ++ p_datoms p.
Proof.
  unfold after. destruct (with_transaction_shape db (basis_t db + 1) (p_datoms p)) as [->|[i ->]];
    unfold record_instant; [|change (recorded_datoms (mk_db _ _ _ _ _ _ _ _ _ _ _ _)) with
      (recorded_datoms (apply_transaction db (basis_t db + 1) (p_datoms p)))];
    by rewrite apply_transaction_recorded.
Qed.

Lemma emitted_tx_ok db ds : ready db -> emitted db db ds -> tx_ok (basis_t db + 1) ds.
Proof.
  intros [? ? ? ?] [H1 H2 H3 _]. apply (pushed_ok (basis_t db + 1)); [lia|lia|done..].
Qed.

Lemma after_ok db p :
  ready db -> emitted db db (p_datoms p) ->
  db_ok (after db p) /\ view (after db p) = DbView.Current /\ db_schema (after db p) = db_schema db.
Proof.
  intros Hr Hem. pose proof (emitted_tx_ok db _ Hr Hem) as Htx. destruct Hem as [_ _ Hw _].
  destruct (writable_vocabulary _ Hw) as [Hvoc Hch].
  assert (db_ok (apply_transaction db (basis_t db + 1) (p_datoms p))) as Hok.
  { apply apply_transaction_ok; [apply Hr|apply Hr|lia|done]. }
  pose proof (apply_transaction_view db (basis_t db + 1) (p_datoms p)) as Hv.
  pose proof (apply_transaction_schema_kept db (basis_t db + 1) _ Hvoc Hch) as Hs.
  rewrite (rd_view _ Hr) in Hv. unfold after.
  destruct (with_transaction_shape db (basis_t db + 1) (p_datoms p)) as [->|[i ->]]; [done|].
  split_and!; [by apply record_instant_ok|done..].
Qed.

(** C30. Preparation always returns: on a current database and well-formed transaction
    data it neither panics (every tempid is in the map when it is indexed) nor recurses
    forever (the walk of [:db/retractEntity] ends on cyclic component graphs too). *)
Theorem prepare_total db items next :
  input_ok db items next ->
  prepare db items (next_tx db) next <> Err Fault.Panics /\
  prepare db items (next_tx db) next <> Err Fault.Diverges.
Proof.
  intros Hin. destruct (tempids_of_spec db items next Hin) as (_ & Hu & Hb & _).
  pose proof (run_ops_clean db _ (expand items) [] db false [] (in_ready _ _ _ Hin) Hu
    (working_start _ (in_ready _ _ _ Hin)) (expand_wf _ (in_wf _ _ _ Hin)) Hb) as Hc.
  rewrite prepare_unfold. unfold next_tx. destruct (run_ops _ _ _ _ _ _ _) as [ds|f]; simpl.
  - by destruct (saga_validate db ds).
  - by destruct f.
Qed.

Lemma prepare_run db items next p :
  input_ok db items next -> prepare db items (next_tx db) next = Ok p ->
  exists os, resolved db items next os /\
    run_spec (db_schema db) (next_tx db) (facts_of db) false os (facts_of (after db p)).
Proof.
  intros Hin Hp. destruct (prepare_sound db items next p Hin Hp) as (_ & _ & _ & Hos).
  unfold facts_of at 2. by rewrite after_recorded.
Qed.

(** C1. Refinement of [prepare]: an accepted transaction runs its operations, resolved, one
    after the other from the facts live in the database, each one allowed in the state it
    finds; the facts live after the transaction are the ones the specification leaves. *)
Theorem prepare_refines db items next p :
  input_ok db items next -> prepare db items (next_tx db) next = Ok p ->
  exists os, resolved db items next os /\
    run_spec (db_schema db) (next_tx db) (facts_of db) false os (facts_of (after db p)).
Proof. apply prepare_run. Qed.

(** C4. Acceptance is exact: [prepare] gets past its operations exactly when they resolve
    and the specification can run them; what it can still refuse is the saga registry. The
    specification is the code's on retired attributes: it lets a retraction through and no
    compare-and-swap, which asserts its new value. *)
Theorem prepare_accepts db items next :
  input_ok db items next ->
  (exists os S, resolved db items next os /\
     run_spec (db_schema db) (next_tx db) (facts_of db) false os S) <->
  ((exists p, prepare db items (next_tx db) next = Ok p) \/
   (exists v, prepare db items (next_tx db) next = fails (TxError.Saga v))).
Proof.
  intros Hin. destruct (tempids_of_spec db items next Hin) as (_ & Hu & Hb & _).
  pose proof (run_ops_clean db _ (expand items) [] db false [] (in_ready _ _ _ Hin) Hu
    (working_start _ (in_ready _ _ _ Hin)) (expand_wf _ (in_wf _ _ _ Hin)) Hb) as Hc.
  rewrite prepare_unfold. fold (next_tx db) in Hc. split.
  - intros (os & S & Hos & Hspec).
    destruct (run_ops_complete db (tempids_of db items next) (in_ready _ _ _ Hin) Hu (expand items) os
      [] db false [] S) as [ds E]; [apply working_start, Hin|apply expand_wf, Hin|done..|].
    fold (next_tx db) in E. rewrite E. cbn [mbind result_bind]. destruct (saga_validate db ds) as [?|v]; [left|right]; by eexists.
  - intros Hor. destruct (run_ops db _ _ _ _ _ _) as [ds|e] eqn:E.
    + eapply run_ops_sound in E as (new & os & _ & Hos & _ & Hspec);
        [|apply Hin|done|apply working_start, Hin|apply expand_wf, Hin]. by eexists _, _.
    + cbn [mbind result_bind] in Hor. by destruct Hor as [[p ?]|[v [= ->]]].
Qed.

(** Every datom [prepare] returns takes effect: applied in order, an assertion makes
    live a fact that was not, and a retraction removes one that was. *)
Theorem prepare_effective db items next p :
  input_ok db items next -> prepare db items (next_tx db) next = Ok p ->
  single_valued (db_schema db) (facts_of db) ->
  effective (recorded_datoms db) (p_datoms p).
Proof.
  intros Hin Hp HI. destruct (prepare_sound db items next p Hin Hp) as (_ & _ & Hem & _).
  by apply (em_effective _ _ _ Hem).
Qed.

Lemma after_single_valued db items next p :
  input_ok db items next -> prepare db items (next_tx db) next = Ok p ->
  single_valued (db_schema db) (facts_of db) -> single_valued (db_schema db) (facts_of (after db p)).
Proof.
  intros Hin Hp HI. destruct (prepare_run db items next p Hin Hp) as (os & _ & Hr).
  eapply (run_spec_invariant (db_schema db) (next_tx db) (single_valued (db_schema db)) (fun _ => True));
    [| |exact Hr|by apply Forall_true|done].
  - intros S S' HS H e a v w Hs Hv' Hw'. apply HS in Hv', Hw'. by eapply H.
  - intros S b o H _ Hpre. by eapply post_single_valued.
Qed.

(** C28. Cardinality one is an invariant: if no entity has two values of a
    cardinality-one attribute before a transaction, none has after it. *)
Theorem prepare_single_valued db items next p :
  input_ok db items next -> prepare db items (next_tx db) next = Ok p ->
  single_valued (db_schema db) (facts_of db) ->
  forall e a v w, single (db_schema db) a -> u64 e -> u64 a ->
    In v (values (after db p) e a) -> In w (values (after db p) e a) -> v = w.
Proof.
  intros Hin Hp HI e a v w Hs He Ha.
  destruct (prepare_sound db items next p Hin Hp) as (_ & _ & Hem & _).
  destruct (after_ok db p (in_ready _ _ _ Hin) Hem) as (Hok & Hv & _).
  rewrite !values_has by done. intros Hv1 Hv2.
  by eapply (after_single_valued db items next p Hin Hp HI).
Qed.

(** The transaction data has no compare-and-swap on a unique attribute. *)
Definition no_unique_cas db (items : list TxItem) : Prop :=
  forall e a old new, In (TxOp.Cas e a old new) (expand items) -> ~ keyed (db_schema db) a.

Lemma resolved_no_cas db items next os :
  resolved db items next os -> no_unique_cas db items -> Forall (no_keyed_cas (db_schema db)) os.
Proof.
  unfold resolved, no_unique_cas. induction 1 as [|op o ops os Ho Hos IH]; intros Hc; constructor.
  - destruct op as [r a v|r a t|r a v|r a old new|r]; simpl in Ho;
      apply bind_ok in Ho as (x & _ & Ho); try (by injection Ho as <-).
    + by apply bind_ok in Ho as (y & _ & [= <-]).
    + injection Ho as <-. simpl. eapply Hc. by left.
  - apply IH. intros. eapply Hc. by right.
Qed.

Lemma after_unique_valued db items next p :
  input_ok db items next -> prepare db items (next_tx db) next = Ok p -> no_unique_cas db items ->
  unique_valued (db_schema db) (facts_of db) -> unique_valued (db_schema db) (facts_of (after db p)).
Proof.
  intros Hin Hp Hc HI. destruct (prepare_run db items next p Hin Hp) as (os & Hos & Hr).
  eapply (run_spec_invariant (db_schema db) (next_tx db) (unique_valued (db_schema db))
    (no_keyed_cas (db_schema db))); [| |exact Hr|by eapply resolved_no_cas|done].
  - intros S S' HS H e1 e2 a1 v1 Hs Hv' Hw'. apply HS in Hv', Hw'. by eapply H.
  - intros S b o H Ho Hpre. by eapply post_unique_valued.
Qed.

(** C29. Uniqueness is an invariant of transactions without compare-and-swap on a unique
    attribute: a value of a unique attribute has at most one owner afterwards if it had
    at most one before, and [lookup] finds that owner. *)
Theorem prepare_unique_valued db items next p :
  input_ok db items next -> prepare db items (next_tx db) next = Ok p -> no_unique_cas db items ->
  unique_valued (db_schema db) (facts_of db) ->
  forall e a v, keyed (db_schema db) a -> u64 e -> u64 a -> value_wf v ->
    In v (values (after db p) e a) <-> lookup (after db p) a v = Some e.
Proof.
  intros Hin Hp Hc HI e a v Hk He Ha Hw.
  destruct (prepare_sound db items next p Hin Hp) as (_ & _ & Hem & _).
  destruct (after_ok db p (in_ready _ _ _ Hin) Hem) as (Hok & Hv & Hsch).
  pose proof (after_unique_valued db items next p Hin Hp Hc HI) as HI'.
  pose proof (lookup_least (after db p) a v Hok Ha Hw) as Hl. rewrite Hv in Hl. specialize (Hl ltac:(done)).
  pose proof (fun o => lookup_u64 (after db p) a v o Hok Ha Hw) as Hlu.
  destruct (lookup (after db p) a v) as [o|].
  - destruct Hl as [Ho _]. specialize (Hlu o eq_refl). split; [|by intros [= ->]]. intros Hv'.
    f_equal. rewrite values_has in Ho, Hv' by done. by eapply HI'.
  - split; [intros Hv'; by destruct (Hl e He)|done].
Qed.

(** C32. What a transaction makes live it was entitled to assert: an attribute of the
    schema that is not retired, a value of its type, in the protection form the attribute
    has now (sealed under the current class and epoch, or plain), and never schema or
    audit vocabulary. *)
Theorem prepare_assertable db items next p :
  input_ok db items next -> prepare db items (next_tx db) next = Ok p ->
  forall f, facts_of (after db p) f -> facts_of db f \/ assertable (db_schema db) f.1.1 f.1.2 f.2.
Proof.
  intros Hin Hp f Hf. destruct (prepare_run db items next p Hin Hp) as (os & _ & Hr).
  exact (run_spec_new _ _ _ _ _ _ _ Hr Hf).
Qed.

(** Ordinary transactions leave the schema alone: the schema of the database after
    one is the schema before it, and so are all facts in schema or audit vocabulary
    (retractions of whole entities included). *)
Theorem prepare_schema_kept db items next p :
  input_ok db items next -> prepare db items (next_tx db) next = Ok p ->
  db_schema (after db p) = db_schema db /\
  forall f, writable_by_transaction f.1.1 f.1.2 = false -> (facts_of (after db p) f <-> facts_of db f).
Proof.
  intros Hin Hp. destruct (prepare_sound db items next p Hin Hp) as (_ & _ & Hem & _).
  split; [by apply after_ok; [apply Hin|]|]. intros f Hf.
  destruct (prepare_run db items next p Hin Hp) as (os & _ & Hr). exact (run_spec_protected _ _ _ _ _ _ _ Hf Hr).
Qed.

(** C36. Temporary ids: the reserved one names the transaction; one unified by identity
    names the owner of the value; any other gets an id no recorded datom is about, and no
    two of those share an id. Allocation starts at or past the database's own
    [next_user_sequence]. *)
Theorem prepare_tempids db items next p :
  input_ok db items next -> prepare db items (next_tx db) next = Ok p ->
  next_user_sequence db <= next ->
  let fresh t e := t <> TX_TEMPID /\ om_get t (unify_identities db (expand items)) = None /\
    partition e = partition_id Partition.User /\ forall d, In d (recorded_datoms db) -> d_e d <> e in
  (forall t e, om_get t (p_tempids p) = Some e ->
    (t = TX_TEMPID /\ e = next_tx db) \/
    (exists a v attr, In (TxOp.Add (EntityRef.Temp t) a v) (expand items) /\ lookup db a v = Some e /\
       schema_get (db_schema db) a = Some attr /\ unique attr = Some Unique.Identity) \/
    fresh t e) /\
  (forall t t' e, fresh t e -> fresh t' e ->
    om_get t (p_tempids p) = Some e -> om_get t' (p_tempids p) = Some e -> t = t').
Proof.
  intros Hin Hp Hnext fresh. destruct (prepare_sound db items next p Hin Hp) as (-> & _ & _ & _).
  destruct (tempids_of_spec db items next Hin) as ((n & Hal & Hn42) & _ & _ & _).
  pose proof Hal as [Hn Hfrom _ Honce]. split.
  - intros t e [[-> ->]|[[Ht Hg]|(Ht & Hg & m & Hm & ->)]]%Hfrom; [by left| |].
    + right. left. apply unify_identities_spec in Hg as (_ & a & v & attr & H). by exists a, v, attr.
    + right. right. split_and!; [done|done|by apply partition_new|]. intros d Hd E.
      pose proof (ok_next _ (rd_ok _ (in_ready _ _ _ Hin))) as Hok. rewrite List.Forall_forall in Hok.
      specialize (Hok d Hd). rewrite E, partition_new, sequence_new in Hok by done.
      specialize (Hok eq_refl). rewrite Z.mod_small in Hok by (unfold FIRST_USER_ID in *; lia). lia.
  - intros t t' e (Ht & Hg & _) (Ht' & Hg' & _) E E'.
    apply Hfrom in E as H; destruct H as [[? _]|[[_ ?]|(_ & _ & m & Hm & ->)]]; [done|congruence|].
    by apply (Honce t t' m).
Qed.

(** [:db/retractEntity] ends, cycles of component references included, and collects
    exactly the live facts that mention the entity or anything it owns through component
    references: the owned entities' own facts and the references to them. *)
Theorem retract_entity_facts db e :
  db_ok db -> view db = DbView.Current ->
  exists facts seen,
    collect_entity_retractions (retraction_fuel db) db e ([], []) = Some (facts, seen) /\
    (forall x, In x seen <-> owned (db_schema db) (facts_of db) e x) /\
    (forall f, In f facts <->
      facts_of db f /\ exists x, owned (db_schema db) (facts_of db) e x /\ mentions x f).
Proof. intros Hdb Hv. exact (collect_spec db Hdb Hv e). Qed.

(** A prepared transaction is what the database layer expects of one: committing it on
    a reachable value gives a reachable value, so every theorem about reachable values
    (reads, past bases, snapshots) applies to databases built by [prepare]. *)
Theorem prepare_commits sch db items next p instant :
  reachable sch db -> input_ok db items next -> i64 instant ->
  prepare db items (next_tx db) next = Ok p ->
  reachable sch (with_transaction_at db (basis_t db + 1) instant (p_datoms p)).
Proof.
  intros Hr Hin Hi Hp. destruct (prepare_sound db items next p Hin Hp) as (_ & _ & Hem & _).
  eapply rtc_r; [exact Hr|]. pose proof (in_ready _ _ _ Hin) as Hrd. pose proof Hrd as [? ? ? ?].
  apply step_transaction; [done|lia|done|by apply emitted_tx_ok].
Qed.

End theorems.

(** ** Witnesses *)

#[local] Existing Instance list_rpds.
#[local] Existing Instance list_rpds_laws.

Definition NAME : AttrId := entity_new (partition_id Partition.Db) 100.
Definition AGE : AttrId := entity_new (partition_id Partition.Db) 101.
Definition CHILD : AttrId := entity_new (partition_id Partition.Db) 102.

Definition people : Schema :=
  schema_insert (schema_insert (schema_insert schema_default
    (attribute 100 ValueType.Str Cardinality.One (Some Unique.Identity)))
    (attribute 101 ValueType.Long Cardinality.One None))
    (mk_attribute CHILD ValueType.Ref Cardinality.Many None true false false).

Definition people0 : Db := db_new people.

(** Two entities that are each other's component. *)
Definition items0 : list TxItem :=
  [ TxItem.Map (mk_entity_map (EntityRef.Temp "a")
      [(NAME, [Value.Str "A"]); (AGE, [Value.Long 5])]);
    TxItem.Op (TxOp.Add (EntityRef.Temp "b") NAME (Value.Str "B"));
    TxItem.Op (TxOp.AddRef (EntityRef.Temp "a") CHILD (EntityRef.Temp "b"));
    TxItem.Op (TxOp.AddRef (EntityRef.Temp "b") CHILD (EntityRef.Temp "a")) ].

Definition prepared0 : PreparedTx :=
  match prepare people0 items0 (next_tx people0) 1000 with
  | Ok p => p | Err _ => mk_prepared [] [] end.

Definition people1 : Db := after people0 prepared0.

(** An upsert by name, a replacement of a cardinality-one value, and a new entity. *)
Definition items1 : list TxItem :=
  [ TxItem.Op (TxOp.Add (EntityRef.Temp "x") NAME (Value.Str "A"));
    TxItem.Op (TxOp.Add (EntityRef.Temp "x") AGE (Value.Long 6));
    TxItem.Op (TxOp.Add (EntityRef.Temp "y") AGE (Value.Long 7)) ].

Definition prepared1 : PreparedTx :=
  match prepare people1 items1 (next_tx people1) 1002 with
  | Ok p => p | Err _ => mk_prepared [] [] end.

Lemma prepared0_ok : prepare people0 items0 (next_tx people0) 1000 = Ok prepared0.
Proof. by vm_compute. Qed.
Lemma prepared1_ok : prepare people1 items1 (next_tx people1) 1002 = Ok prepared1.
Proof. by vm_compute. Qed.
Lemma prepared1_datoms :
  p_datoms prepared1 =
  [ mk_datom (user 1000) AGE (Value.Long 5) (tx_of 2) false;
    mk_datom (user 1000) AGE (Value.Long 6) (tx_of 2) true;
    mk_datom (user 1002) AGE (Value.Long 7) (tx_of 2) true ].
Proof. by vm_compute. Qed.

Lemma names_u64 : u64 NAME /\ u64 AGE /\ u64 CHILD.
Proof. split_and!; by vm_compute. Qed.

Lemma people0_ready : ready people0.
Proof. split; [apply db_new_ok|by vm_compute..]. Qed.

Lemma input0 : input_ok people0 items0 1000.
Proof.
  destruct names_u64 as (? & ? & ?). split; [apply people0_ready| |by vm_compute..].
  repeat (apply List.Forall_cons); [..|apply List.Forall_nil].
  - split; [done|]. intros a vs [[= <- <-]|[[= <- <-]|[]]];
      (split; [done|apply List.Forall_cons; [by vm_compute|apply List.Forall_nil]]).
  - by split_and!.
  - by split_and!.
  - by split_and!.
Qed.

Lemma emitted0 : emitted people0 people0 (p_datoms prepared0).
Proof. apply (prepare_sound people0 items0 1000 prepared0 input0 prepared0_ok). Qed.

Lemma people1_ready : ready people1.
Proof.
  destruct (after_ok people0 prepared0 people0_ready emitted0) as (? & ? & _).
  split; [done|done|by vm_compute..].
Qed.

Lemma input1 : input_ok people1 items1 1002.
Proof.
  destruct names_u64 as (? & ? & ?). split; [apply people1_ready| |by vm_compute..].
  repeat (apply List.Forall_cons); [..|apply List.Forall_nil]; split_and!; done || by vm_compute.
Qed.

Lemma people1_schema : db_schema people1 = db_schema people0.
Proof. by destruct (after_ok people0 prepared0 people0_ready emitted0) as (_ & _ & ?). Qed.

Lemma people1_single : single_valued (db_schema people1) (facts_of people1).
Proof.
  rewrite people1_schema. apply (after_single_valued people0 items0 1000 prepared0 input0 prepared0_ok).
  intros e a v w _ H. by vm_compute in H.
Qed.

Lemma people1_unique : unique_valued (db_schema people1) (facts_of people1).
Proof.
  rewrite people1_schema. apply (after_unique_valued people0 items0 1000 prepared0 input0 prepared0_ok).
  - intros e a old new Hin. repeat (destruct Hin as [Hin|Hin]; [done|]). done.
  - intros e e' a v _ H. by vm_compute in H.
Qed.

Lemma items1_no_cas : no_unique_cas people1 items1.
Proof. intros e a old new Hin. repeat (destruct Hin as [Hin|Hin]; [done|]). done. Qed.

Lemma name_keyed : keyed (db_schema people1) NAME.
Proof. eexists. split; by vm_compute. Qed.

Lemma age_single : single (db_schema people1) AGE.
Proof. eexists. split; by vm_compute. Qed.

Lemma user_u64 n : u64 (user n).
Proof. by apply entity_new_u64. Qed.

Lemma prepare_total_witness :
  prepare people1 items1 (next_tx people1) 1002 <> Err Fault.Panics /\
  prepare people1 items1 (next_tx people1) 1002 <> Err Fault.Diverges.
Proof. exact (prepare_total people1 items1 1002 input1). Defined.

Lemma prepare_refines_witness :
  exists os, resolved people1 items1 1002 os /\
    run_spec (db_schema people1) (next_tx people1) (facts_of people1) false os
      (facts_of (after people1 prepared1)).
Proof. exact (prepare_refines people1 items1 1002 prepared1 input1 prepared1_ok). Defined.

Lemma prepare_accepts_witness :
  exists os S, resolved people1 items1 1002 os /\
    run_spec (db_schema people1) (next_tx people1) (facts_of people1) false os S.
Proof.
  exact (proj2 (prepare_accepts people1 items1 1002 input1)
    (or_introl (ex_intro _ prepared1 prepared1_ok))).
Defined.

Lemma prepare_effective_witness :
  effective (recorded_datoms people1) (p_datoms prepared1).
Proof.
  exact (prepare_effective people1 items1 1002 prepared1 input1 prepared1_ok people1_single).
Defined.

Lemma age_six : In (Value.Long 6) (values (after people1 prepared1) (user 1000) AGE).
Proof. by vm_compute; left. Qed.

Lemma prepare_single_valued_witness :
  In (Value.Long 6) (values (after people1 prepared1) (user 1000) AGE) /\
  (forall w, In w (values (after people1 prepared1) (user 1000) AGE) -> Value.Long 6 = w).
Proof.
  split; [exact age_six|]. intros w Hw.
  exact (prepare_single_valued people1 items1 1002 prepared1 input1 prepared1_ok people1_single
    (user 1000) AGE (Value.Long 6) w age_single (user_u64 1000) (proj1 (proj2 names_u64)) age_six Hw).
Defined.

Lemma name_a : In (Value.Str "A") (values (after people1 prepared1) (user 1000) NAME).
Proof. by vm_compute; left. Qed.

Lemma prepare_unique_valued_witness :
  lookup (after people1 prepared1) NAME (Value.Str "A") = Some (user 1000).
Proof.
  exact (proj1 (prepare_unique_valued people1 items1 1002 prepared1 input1 prepared1_ok items1_no_cas
    people1_unique (user 1000) NAME (Value.Str "A") name_keyed (user_u64 1000) (proj1 names_u64)
    (eq_refl true)) name_a).
Defined.

Lemma age_seven : facts_of (after people1 prepared1) (user 1002, AGE, Value.Long 7).
Proof. by vm_compute. Qed.

Lemma prepare_assertable_witness :
  facts_of people1 (user 1002, AGE, Value.Long 7) \/
  assertable (db_schema people1) (user 1002) AGE (Value.Long 7).
Proof.
  exact (prepare_assertable people1 items1 1002 prepared1 input1 prepared1_ok _ age_seven).
Defined.

Lemma prepare_schema_kept_witness : db_schema (after people1 prepared1) = db_schema people1.
Proof. exact (proj1 (prepare_schema_kept people1 items1 1002 prepared1 input1 prepared1_ok)). Defined.

Lemma tempid_y : om_get "y"%string (p_tempids prepared1) = Some (user 1002).
Proof. by vm_compute. Qed.

Lemma next_1002 : next_user_sequence people1 <= 1002.
Proof. by vm_compute. Qed.

Lemma prepare_tempids_witness :
  ("y"%string = TX_TEMPID /\ user 1002 = next_tx people1) \/
  (exists a v attr, In (TxOp.Add (EntityRef.Temp "y") a v) (expand items1) /\
     lookup people1 a v = Some (user 1002) /\
     schema_get (db_schema people1) a = Some attr /\ unique attr = Some Unique.Identity) \/
  ("y"%string <> TX_TEMPID /\ om_get "y"%string (unify_identities people1 (expand items1)) = None /\
   partition (user 1002) = partition_id Partition.User /\
   forall d, In d (recorded_datoms people1) -> d_e d <> user 1002).
Proof.
  exact (proj1 (prepare_tempids people1 items1 1002 prepared1 input1 prepared1_ok next_1002) _ _ tempid_y).
Defined.

(** On the two entities that own each other. *)
Lemma retract_entity_facts_witness :
  exists facts seen,
    collect_entity_retractions (retraction_fuel people1) people1 (user 1000) ([], []) = Some (facts, seen) /\
    (forall x, In x seen <-> owned (db_schema people1) (facts_of people1) (user 1000) x) /\
    (forall f, In f facts <-> facts_of people1 f /\
       exists x, owned (db_schema people1) (facts_of people1) (user 1000) x /\ mentions x f).
Proof. exact (retract_entity_facts people1 (user 1000) (rd_ok _ people1_ready) (rd_view _ people1_ready)). Defined.

Lemma people0_reachable : reachable people people0.
Proof. apply rtc_refl. Qed.

Lemma instant_1000 : i64 1000.
Proof. by vm_compute. Qed.

Lemma prepare_commits_witness :
  reachable people (with_transaction_at people0 (basis_t people0 + 1) 1000 (p_datoms prepared0)).
Proof.
  exact (prepare_commits people people0 items0 1000 prepared0 1000 people0_reachable input0 instant_1000
    prepared0_ok).
Defined.

(** ** Compare-and-swap does not check uniqueness

    [Add] refuses a value of a unique attribute that another entity owns; [Cas] takes it. *)

Definition items_cas : list TxItem :=
  [ TxItem.Op (TxOp.Cas (EntityRef.Id (user 1001)) NAME (Some (Value.Str "B")) (Value.Str "A")) ].
Definition items_add : list TxItem :=
  [ TxItem.Op (TxOp.Add (EntityRef.Id (user 1001)) NAME (Value.Str "A")) ].

Lemma cas_breaks_uniqueness :
  prepare people1 items_add (next_tx people1) 1002 = fails TxError.UniqueConflict /\
  exists p, prepare people1 items_cas (next_tx people1) 1002 = Ok p /\
    In (Value.Str "A") (values (after people1 p) (user 1000) NAME) /\
    In (Value.Str "A") (values (after people1 p) (user 1001) NAME).
Proof.
  split; [by vm_compute|]. eexists. split; [by vm_compute|]. split; vm_compute; by left.
Qed.

(** ** Retired attributes

    The comment on [validate_not_retired] says that retracting a fact of a retired attribute
    stays legal, also through a compare-and-swap. A retraction is; a compare-and-swap is
    refused before it compares. *)

Definition retired1 : Db := after (db_new (set_retired people AGE true)) prepared0.

Lemma retired_compare_and_swap :
  (match prepare retired1 [TxItem.Op (TxOp.Retract (EntityRef.Id (user 1000)) AGE (Value.Long 5))] (next_tx retired1) 1002 with
   | Ok p => p_datoms p = [mk_datom (user 1000) AGE (Value.Long 5) (tx_of 2) false] | Err _ => False end) /\
  forall new, prepare retired1 [TxItem.Op (TxOp.Cas (EntityRef.Id (user 1000)) AGE (Some (Value.Long 5)) (Value.Long new))]
    (next_tx retired1) 1002 = fails (TxError.RetiredAttribute AGE).
Proof. split; [by vm_compute|]. intros new. by vm_compute. Qed.
