(* ===== verification/SagaTheorems.v ===== *)
(** * Theorems about sagas

    Saga ids and branch names (corium-db/src/saga.rs) round-trip; what an accepted
    transaction can do to the registry (corium-tx/src/saga.rs), and what an accepted step
    of a branch can touch (corium-tx/src/branch.rs). *)

From stdpp Require Import base list strings sorting.
From Stdlib Require Import ZArith Lia Ascii.
From S2P Require Import Prelude OrdMap Machine Ids Keyword Values Encoding Datoms Schema.
From S2P Require Import Bootstrap SchemaDatoms Db DbFacts DbReads DbTheorems SagaDb TxSaga Branch.
From S2P Require Import Tx TxSpec TxFacts TxLoop TxTheorems.
Local Open Scope Z_scope.

(** ** Ids and names *)

Lemma hex_digit_spec n :
  0 <= n < 16 ->
  from_digit (hex_digit n) = Some n /\ hex_digit n <> "."%char /\ hex_digit n <> "-"%char /\
  hex_digit n <> "+"%char /\ hex_digit n <> "s"%char.
Proof.
  intros Hn. assert (In (Z.to_nat n) (seq 0 16)) as Hin by (apply in_seq; lia).
  rewrite <- (Z2Nat.id n) by lia. generalize dependent (Z.to_nat n). intros k Hk.
  repeat (destruct Hk as [<-|Hk]; [by vm_compute|]). done.
Qed.

Lemma hex_nibble x n : 0 <= Z.shiftr x (4 * Z.of_nat n) mod 16 < 16.
Proof. apply Z.mod_pos_bound. lia. Qed.

Lemma to_hex_length n x : String.length (to_hex n x) = n.
Proof. induction n; simpl; congruence. Qed.

Lemma to_hex_filter n x : filter_chars (fun c => negb (bool_decide (c = "-"%char))) (to_hex n x) = to_hex n x.
Proof.
  induction n as [|n IH]; [done|]. cbn [to_hex filter_chars].
  destruct (hex_digit_spec _ (hex_nibble x n)) as (_ & _ & Hne & _).
  rewrite bool_decide_false by done. cbn [negb]. by rewrite IH.
Qed.

Lemma radix_to_hex n x acc :
  0 <= x -> 0 <= acc -> (acc + 1) * 16 ^ Z.of_nat n <= 2 ^ 128 ->
  radix_loop (to_hex n x) acc = Some (acc * 16 ^ Z.of_nat n + x mod 16 ^ Z.of_nat n).
Proof.
  revert acc. induction n as [|n IH]; intros acc Hx Hacc Hb.
  { cbn [to_hex radix_loop]. f_equal. change (16 ^ Z.of_nat 0) with 1. rewrite Z.mod_1_r. lia. }
  cbn [to_hex radix_loop]. destruct (hex_digit_spec _ (hex_nibble x n)) as (-> & _).
  cbn [mbind option_bind]. set (d := Z.shiftr x (4 * Z.of_nat n) mod 16).
  pose proof (hex_nibble x n) as Hd. fold d in Hd.
  rewrite Nat2Z.inj_succ, Z.pow_succ_r in * by lia.
  assert (0 < 16 ^ Z.of_nat n) as Hp by (apply Z.pow_pos_nonneg; lia).
  rewrite (proj2 (Z.ltb_lt _ _)) by nia. rewrite IH by nia. f_equal.
  assert (d = x / 16 ^ Z.of_nat n mod 16) as ->.
  { unfold d. rewrite Z.shiftr_div_pow2 by lia. rewrite Z.pow_mul_r by lia. done. }
  rewrite (Z.mul_comm 16 (16 ^ Z.of_nat n)), Z.rem_mul_r by lia. lia.
Qed.

Lemma from_str_to_hex x : u128 x -> from_str_radix16 (to_hex 32 x) = Some x.
Proof.
  intros Hx. unfold from_str_radix16. destruct (to_hex 32 x) as [|c rest] eqn:E; [done|].
  assert (c = hex_digit (Z.shiftr x (4 * Z.of_nat 31) mod 16)) as ->.
  { cbn [to_hex] in E. by injection E as <- _. }
  destruct (hex_digit_spec _ (hex_nibble x 31)) as (_ & _ & _ & Hne & _).
  rewrite bool_decide_false by done. rewrite <- E. unfold u128 in Hx.
  rewrite radix_to_hex by (try lia; by vm_compute). f_equal.
  change (16 ^ Z.of_nat 32) with (2 ^ 128). rewrite Z.mod_small by lia. lia.
Qed.

(** A saga id survives being written and read: for every 128-bit id, parsing its
    formatted text gives the id back. *)
Theorem parse_format_id id : u128 id -> parse_id (format_id id) = Some id.
Proof.
  intros Hid. unfold parse_id, format_id. rewrite to_hex_filter, to_hex_length. cbn [Nat.eqb negb].
  by apply from_str_to_hex.
Qed.

Lemma parse_format_id_witness :
  u128 (2 ^ 127 + 3) /\ parse_id (format_id (2 ^ 127 + 3)) = Some (2 ^ 127 + 3).
Proof.
  assert (u128 (2 ^ 127 + 3)) as H by (unfold u128; lia).
  split; [exact H|exact (parse_format_id (2 ^ 127 + 3) H)].
Defined.

Lemma rsplit_once_prefix sep p s a b :
  rsplit_once sep s = Some (a, b) -> rsplit_once sep (p +:+ s) = Some (p +:+ a, b)%string.
Proof. intros Hs. induction p as [|c p IH]; [done|]. simpl. by rewrite IH. Qed.

Lemma rsplit_once_to_hex n x : rsplit_once BRANCH_INFIX (to_hex n x) = None.
Proof.
  induction n as [|n IH]; [done|]. cbn [to_hex rsplit_once]. rewrite IH.
  destruct (hex_digit_spec _ (hex_nibble x n)) as (_ & Hne & _). unfold BRANCH_INFIX. cbn [strip_prefix].
  by rewrite bool_decide_false.
Qed.

Lemma rsplit_after c h :
  rsplit_once BRANCH_INFIX h = None -> strip_prefix BRANCH_INFIX (String c h) = None ->
  rsplit_once BRANCH_INFIX (String c h) = None.
Proof. intros H1 H2. cbn [rsplit_once]. by rewrite H1, H2. Qed.

Lemma rsplit_branch x : rsplit_once BRANCH_INFIX (BRANCH_INFIX +:+ to_hex 32 x) = Some (""%string, to_hex 32 x).
Proof.
  pose proof (rsplit_once_to_hex 32 x) as Hh.
  assert (strip_prefix BRANCH_INFIX (String "." (to_hex 32 x)) = None) as Hs.
  { cbn [to_hex strip_prefix BRANCH_INFIX]. rewrite bool_decide_true by done.
    destruct (hex_digit_spec _ (hex_nibble x 31)) as (_ & _ & _ & _ & Hne).
    by rewrite bool_decide_false by congruence. }
  revert Hh Hs. generalize (to_hex 32 x). intros h Hh Hs.
  assert (rsplit_once BRANCH_INFIX ("saga." +:+ h) = None) as Ht.
  { do 4 (apply rsplit_after; [|done]). by apply rsplit_after. }
  change (BRANCH_INFIX +:+ h) with (String "." ("saga." +:+ h)). cbn [rsplit_once]. rewrite Ht.
  done.
Qed.

(** A branch name determines its saga: splitting the name of the branch of saga [id] of
    database [parent] gives back [parent] and [id], whatever characters the parent's name
    has (also when it looks like a branch name itself); only the empty name has no
    branches. *)
Theorem parse_branch_name_roundtrip parent id :
  u128 id -> parent <> ""%string -> parse_branch_name (branch_name parent id) = Some (parent, id).
Proof.
  intros Hid Hp. unfold parse_branch_name, branch_name, format_id.
  rewrite (rsplit_once_prefix _ parent _ _ _ (rsplit_branch id)). cbn [mbind option_bind].
  rewrite to_hex_length, from_str_to_hex by done. 
  assert (forall s : string, (s +:+ "")%string = s) as ->.
  { intros s. induction s as [|c s IH]; [done|]. change (String c (s +:+ "") = String c s). by rewrite IH. }
  by destruct parent.
Qed.

Lemma parse_branch_name_roundtrip_witness :
  parse_branch_name (branch_name "a.saga." 7) = Some ("a.saga."%string, 7).
Proof. apply (parse_branch_name_roundtrip "a.saga." 7); [by vm_compute|done]. Defined.

(** ** The registry after an accepted transaction *)

Section registry.
Context {R : Rpds} {HR : RpdsLaws R}.
Implicit Types db : Db.

Lemma filter_map_snd {K V} (p : V -> bool) (m : list (K * V)) :
  List.filter p (map snd m) = map snd (List.filter (fun q => p q.2) m).
Proof. induction m as [|[k v] m IH]; [done|]. simpl. destruct (p v); simpl; by rewrite IH. Qed.

(** Datoms that say nothing about [(e, a)] leave what is read of it. *)
Lemma untouched_prefix db db' ds e a :
  db_ok db -> db_ok db' -> view db = DbView.Current -> view db' = DbView.Current ->
  db_schema db' = db_schema db -> recorded_datoms db' = recorded_datoms db ++ ds -> u64 e -> u64 a ->
  (forall d, In d ds -> about e a d = false) ->
  datoms_prefix db' Eavt (key_prefix Eavt (Some e) (Some a) None) =
  datoms_prefix db Eavt (key_prefix Eavt (Some e) (Some a) None).
Proof.
  intros Hdb Hdb' Hv Hv' Hsch Hrec He Ha Hds. rewrite !datoms_prefix_filter by done.
  rewrite (filter_wf_ext db' Eavt _ (about e a)), (filter_wf_ext db Eavt _ (about e a))
    by (done || intros; by apply key_prefix_eavt).
  unfold datoms_at. rewrite !filter_map_snd. f_equal.
  rewrite !indexes_iter, Hv, Hv', !rebuilt_current by (done || by apply ok_wf). rewrite Hsch, Hrec.
  apply om_ext_In; [apply om_filter_wf, fold_order_wf..|]. intros [k d]. rewrite !filter_In.
  assert (datoms_wf (recorded_datoms db ++ ds)) as Hw by (rewrite <- Hrec; by apply ok_wf).
  rewrite !In_fold_order by (apply datoms_wf_facts; done || by apply ok_wf). simpl.
  destruct (about e a d) eqn:Eab; [|naive_solver].
  assert (live (recorded_datoms db ++ ds) d <-> live (recorded_datoms db) d) as ->; [|done].
  unfold live. rewrite status_app, status_none_about; [done|]. intros x Hx E.
  specialize (Hds x Hx). unfold about, d_fact in *. injection E as E1 E2 _. rewrite E1, E2 in Hds. congruence.
Qed.

Section accepted.
Context (db : Db) (items : list TxItem) (next : Z) (p : PreparedTx).
Context (Hin : input_ok db items next) (Hp : prepare db items (next_tx db) next = Ok p).
Notation db' := (after db p).

Lemma accepted_prefix e a :
  u64 e -> u64 a -> (forall d, In d (p_datoms p) -> about e a d = false) ->
  datoms_prefix db' Eavt (key_prefix Eavt (Some e) (Some a) None) =
  datoms_prefix db Eavt (key_prefix Eavt (Some e) (Some a) None).
Proof.
  destruct (prepare_sound db items next p Hin Hp) as (_ & _ & Hem & _).
  destruct (after_ok db p (in_ready _ _ _ Hin) Hem) as (Hok & Hv & Hsch).
  destruct (in_ready _ _ _ Hin) as [? ? _ _].
  apply untouched_prefix; try done. apply after_recorded.
Qed.

Lemma accepted_values e a :
  u64 e -> u64 a -> (forall d, In d (p_datoms p) -> about e a d = false) -> values db' e a = values db e a.
Proof. intros He Ha Hd. unfold values. by rewrite accepted_prefix. Qed.

Lemma accepted_interner : db_interner db' = db_interner db.
Proof.
  unfold after. destruct (with_transaction_shape db (basis_t db + 1) (p_datoms p)) as [->|[i ->]];
    simpl; apply apply_transaction_interner.
Qed.

Lemma accepted_field {T} e a (parse : Value -> option T) :
  u64 e -> u64 a -> (forall d, In d (p_datoms p) -> about e a d = false) ->
  field db' e a parse = field db e a parse.
Proof. intros He Ha Hd. unfold field. by rewrite accepted_values. Qed.

Lemma accepted_saga : saga_validate db (p_datoms p) = Ok tt.
Proof. by destruct (prepare_sound db items next p Hin Hp) as (_ & ? & _ & _). Qed.

End accepted.

(** *** What [saga_validate] accepts *)

Lemma saga_validate_ok db ds :
  saga_validate db ds = Ok tt ->
  (forall d, In d ds -> is_grant_attribute (d_a d) = false /\ d_a d <> SAGA_ID_GRANTS) /\
  validate_granted_ids db ds = Ok tt /\
  (forall d, In d ds -> is_saga_attribute (d_a d) = true -> validate_entity db (d_e d) ds = Ok tt).
Proof.
  unfold saga_validate. intros ([] & Hg%ensure_ok & H)%bind_ok.
  apply bind_ok in H as ([] & Hids & H). rewrite for_each_ok in H. split_and!; [|done|].
  - intros d Hd. apply negb_true_iff in Hg. rewrite <- not_true_iff_false, existsb_exists in Hg.
    split; [apply not_true_iff_false|]; intros E; apply Hg; exists d; (split; [done|]);
      apply orb_true_iff; [by left|right; by apply bool_decide_eq_true].
  - intros d Hd Ha. apply H. apply os_of_list_In, in_map_iff. exists d. split; [done|].
    by apply filter_In.
Qed.

Lemma touched_writes ds d a :
  In d ds -> about (d_e d) a d = true -> is_saga_attribute a = true ->
  asserted (registry_writes (d_e d) ds) a || retracted (registry_writes (d_e d) ds) a = true.
Proof.
  intros Hd [_ Ea%bool_decide_eq_true]%andb_true_iff Ha.
  assert (In d (registry_writes (d_e d) ds)) as Hw.
  { apply filter_In. split; [done|]. rewrite bool_decide_true by done. by rewrite Ea. }
  apply orb_true_iff. unfold asserted, retracted. rewrite !existsb_exists.
  destruct (d_added d) eqn:Eadd; [left|right]; exists d; (split; [done|]);
    by rewrite Ea, bool_decide_true, Eadd.
Qed.

(** The attributes fixed when a saga opens. *)
Definition FIXED : list AttrId := [SAGA_ID; SAGA_BASIS_T; SAGA_OWNER; SAGA_SEALED].

Lemma transition_ok e prior writes st :
  validate_transition e prior writes st = Ok tt ->
  (forall a, In a FIXED -> asserted writes a || retracted writes a = false) /\
  exists current, s_status prior = Some current /\
    match st with
    | Some next => may_become current next = true
    | None => retracted writes SAGA_STATUS = false /\
        (is_open_status current = false -> forall d, In d writes -> d_a d = SAGA_COMPENSATIONS)
    end /\
    (s_sealed prior = true -> asserted writes SAGA_RESERVES = false).
Proof.
  unfold validate_transition. intros ([] & H1%ensure_ok & H)%bind_ok.
  apply bind_ok in H as ([] & H2 & H). rewrite for_each_ok in H2.
  apply bind_ok in H as (current & Hc & H). apply bind_ok in H as ([] & H3 & H).
  apply bind_ok in H as ([] & H4%ensure_ok & _). split.
  - intros a [<-|Ha]; [by apply negb_true_iff|].
    assert (exists nm, In (a, nm) [(SAGA_BASIS_T, ":db.saga/basis-t"%string);
      (SAGA_OWNER, ":db.saga/owner"%string); (SAGA_SEALED, ":db.saga/sealed"%string)]) as [nm Hnm].
    { destruct Ha as [<-|[<-|[<-|[]]]]; eexists; [by left|by right; left|by right; right; left]. }
    apply H2, ensure_ok in Hnm. by apply negb_true_iff.
  - exists current. destruct (s_status prior); [|done]. injection Hc as ->. split_and!; [done| |].
    + destruct st as [nx|]; [by apply ensure_ok in H3|]. apply bind_ok in H3 as ([] & Hr%ensure_ok & H3).
      split; [by apply negb_true_iff|]. intros Ho d Hd.
      destruct (find _ writes) as [d'|] eqn:Ef; [apply ensure_ok in H3; congruence|].
      apply (find_none _ _ Ef) in Hd. by apply negb_false_iff, bool_decide_eq_true in Hd.
    + intros Hs. rewrite Hs in H4. by apply negb_true_iff in H4.
Qed.

Lemma entry_checked db ds e s d :
  saga_validate db ds = Ok tt -> entry_at db e = Some s -> In d ds -> d_e d = e ->
  is_saga_attribute (d_a d) = true ->
  validate_transition e s (registry_writes e ds) (asserted_status db e ds) = Ok tt.
Proof.
  intros (_ & _ & Hv)%saga_validate_ok Hs Hd He Ha. specialize (Hv d Hd Ha). rewrite He in Hv.
  unfold validate_entity in Hv. by rewrite Hs in Hv.
Qed.

(** An attribute the transition check lets nobody write is untouched. *)
Lemma entry_untouched db ds e s a :
  saga_validate db ds = Ok tt -> entry_at db e = Some s -> is_saga_attribute a = true ->
  (validate_transition e s (registry_writes e ds) (asserted_status db e ds) = Ok tt ->
   asserted (registry_writes e ds) a || retracted (registry_writes e ds) a = false) ->
  forall d, In d ds -> about e a d = false.
Proof.
  intros Hv Hs Ha Hno d Hd. apply not_true_iff_false. intros Hab. pose proof Hab as H.
  unfold about in H. apply andb_true_iff in H as [He%bool_decide_eq_true Eda%bool_decide_eq_true].
  assert (asserted (registry_writes e ds) a || retracted (registry_writes e ds) a = true) as Ht.
  { subst e. by apply touched_writes. }
  rewrite Hno in Ht; [done|]. eapply entry_checked; try done. by rewrite Eda.
Qed.

Lemma fixed_untouched db ds e s a :
  saga_validate db ds = Ok tt -> entry_at db e = Some s -> In a FIXED ->
  forall d, In d ds -> about e a d = false.
Proof.
  intros Hv Hs Ha. apply (entry_untouched db ds e s a Hv Hs).
  - destruct Ha as [<-|[<-|[<-|[<-|[]]]]]; by vm_compute.
  - intros [Hf _]%transition_ok. by apply Hf.
Qed.

Lemma grants_untouched db ds e a :
  saga_validate db ds = Ok tt -> is_grant_attribute a = true \/ a = SAGA_ID_GRANTS ->
  forall d, In d ds -> about e a d = false.
Proof.
  intros (Hg & _)%saga_validate_ok Ha d Hd. apply not_true_iff_false.
  intros [_ <-%bool_decide_eq_true]%andb_true_iff. destruct (Hg d Hd). destruct Ha; congruence.
Qed.

Lemma reference_u64 db e a g :
  db_ok db -> view db = DbView.Current -> u64 e -> u64 a -> In g (refs db e a) -> u64 g.
Proof.
  intros Hdb Hv He Ha Hg. unfold refs in Hg. apply list_elem_of_In in Hg.
  rewrite merge_sort_Permutation in Hg. apply list_elem_of_In, In_filter_map in Hg as (v & Hval & Hr).
  apply values_has, live_fact_wf in Hval as (_ & _ & Hw); [|done..]. simpl in Hw.
  destruct v; try done. by injection Hr as ->.
Qed.

Lemma accepted_grants db items next p e :
  input_ok db items next -> prepare db items (next_tx db) next = Ok p -> u64 e ->
  map (grant_at (after db p)) (refs (after db p) e SAGA_ID_GRANTS) =
  map (grant_at db) (refs db e SAGA_ID_GRANTS).
Proof.
  intros Hin Hp He. pose proof (accepted_saga db items next p Hin Hp) as Hv.
  assert (u64 SAGA_ID_GRANTS) as Hu by (by vm_compute).
  assert (refs (after db p) e SAGA_ID_GRANTS = refs db e SAGA_ID_GRANTS) as ->.
  { unfold refs. rewrite (accepted_values db items next p Hin Hp) by
      (done || (eapply grants_untouched; [done|by right])). done. }
  destruct (in_ready _ _ _ Hin) as [Hok Hvw _ _].
  apply map_ext_in. intros g Hg. apply reference_u64 in Hg; [|done..]. unfold grant_at.
  rewrite !(accepted_field db items next p Hin Hp);
    try done; try (eapply grants_untouched; [done|left; by vm_compute]); by vm_compute.
Qed.

(** What identifies a saga is fixed when it opens: after any accepted transaction an
    existing registry entry still exists, with the same id, opening basis, owner, sealed
    flag and leased id blocks. *)
Theorem saga_identity_kept db items next p e s :
  input_ok db items next -> prepare db items (next_tx db) next = Ok p -> u64 e ->
  entry_at db e = Some s ->
  exists s', entry_at (after db p) e = Some s' /\
    s_entity s' = s_entity s /\ s_id s' = s_id s /\ s_basis_t s' = s_basis_t s /\
    s_owner s' = s_owner s /\ s_sealed s' = s_sealed s /\ s_grants s' = s_grants s.
Proof.
  intros Hin Hp He Hs. pose proof (accepted_saga db items next p Hin Hp) as Hv.
  assert (forall T a (parse : Value -> option T), In a FIXED ->
    field (after db p) e a parse = field db e a parse) as Hf.
  { intros T a parse Ha. apply (accepted_field db items next p Hin Hp); [done| |].
    - destruct Ha as [<-|[<-|[<-|[<-|[]]]]]; by vm_compute.
    - by eapply fixed_untouched. }
  unfold entry_at in *. rewrite (Hf _ SAGA_ID) by (by left).
  destruct (field db e SAGA_ID uuid) as [id|]; [|done]. cbn [mbind option_bind] in *.
  injection Hs as <-. eexists. split; [done|]. cbn [s_entity s_id s_basis_t s_owner s_sealed s_grants].
  rewrite (Hf _ SAGA_BASIS_T), (Hf _ SAGA_OWNER), (Hf _ SAGA_SEALED) by (unfold FIXED; simpl; tauto).
  by rewrite (accepted_grants db items next p e).
Qed.

(** *** Finished sagas *)

Lemma finished_untouched db ds e s a :
  saga_validate db ds = Ok tt -> entry_at db e = Some s -> is_open s = false ->
  is_saga_attribute a = true -> a <> SAGA_COMPENSATIONS ->
  forall d, In d ds -> about e a d = false.
Proof.
  intros Hv Hs Ho Ha Hne. apply (entry_untouched db ds e s a Hv Hs Ha).
  intros (_ & current & Hc & Hst & _)%transition_ok. unfold is_open in Ho. rewrite Hc in Ho. simpl in Ho.
  destruct (asserted_status db e ds) as [nx|].
  - unfold may_become in Hst. by rewrite Ho in Hst.
  - destruct Hst as [_ Hw]. specialize (Hw Ho). apply orb_false_iff. unfold asserted, retracted.
    split; apply not_true_iff_false; rewrite existsb_exists;
      intros (d & Hd & [Hda%bool_decide_eq_true _]%andb_true_iff); apply Hw in Hd; congruence.
Qed.

Lemma accepted_instant db items next p x :
  input_ok db items next -> prepare db items (next_tx db) next = Ok p -> u64 x ->
  sequence x <= basis_t db -> values (after db p) x TX_INSTANT = values db x TX_INSTANT.
Proof.
  intros Hin Hp Hx Hseq. destruct (prepare_sound db items next p Hin Hp) as (_ & _ & Hem & _).
  destruct (after_ok db p (in_ready _ _ _ Hin) Hem) as (Hok & Hv & _).
  destruct (in_ready _ _ _ Hin) as [Hok0 Hv0 Hb0 Hroom].
  destruct (prepare_run db items next p Hin Hp) as (os & _ & Hr).
  assert (u64 TX_INSTANT) as Hu by (by vm_compute).
  apply os_ext; [by apply values_sorted..|]. intros w. rewrite !values_has by done.
  apply (run_spec_instants _ _ _ _ _ _ (x, TX_INSTANT, w) eq_refl) in Hr; [done|]. simpl. intros ->.
  unfold next_tx in Hseq. destruct (tx_of_spec (basis_t db + 1)) as [_ Hs]; [lia|]. lia.
Qed.

Lemma prefix_datom db o k d :
  ready db -> In d (datoms_prefix db o k) -> u64 (d_tx d) /\ sequence (d_tx d) <= basis_t db.
Proof.
  intros [Hok Hv _ _] Hd. rewrite datoms_prefix_filter in Hd by done. apply filter_In in Hd as [Hd _].
  pose proof (datoms_at_wf _ _ _ Hok Hd) as [_ Htx]. apply datoms_at_In in Hd as [_ Hd]; [|done].
  apply visible_recorded in Hd. pose proof (ok_basis _ Hok) as Hb. rewrite List.Forall_forall in Hb.
  specialize (Hb d Hd). unfold u64. lia.
Qed.

Lemma accepted_finished_at db items next p e s :
  input_ok db items next -> prepare db items (next_tx db) next = Ok p -> u64 e ->
  entry_at db e = Some s -> is_open s = false -> finished_at (after db p) e = finished_at db e.
Proof.
  intros Hin Hp He Hs Ho. pose proof (accepted_saga db items next p Hin Hp) as Hv. unfold finished_at.
  rewrite (accepted_prefix db items next p Hin Hp);
    [|done|by vm_compute|by eapply finished_untouched; try done; by vm_compute].
  destruct (head _) as [d|] eqn:Ed; [|done]. cbn [mbind option_bind]. unfold keyword.
  rewrite (accepted_interner db p). destruct (is_some_and _ _); [|done]. unfold field.
  assert (In d (datoms_prefix db Eavt (key_prefix Eavt (Some e) (Some SAGA_STATUS) None))) as Hd.
  { destruct (datoms_prefix _ _ _); [done|]. injection Ed as ->. by left. }
  destruct (prefix_datom db Eavt _ d (in_ready _ _ _ Hin) Hd) as [Hu Hq].
  by rewrite (accepted_instant db items next p).
Qed.

(** Everything of an entry but its compensation ledger. *)
Definition standing (s : SagaEntry) : SagaEntry :=
  mk_entry (s_entity s) (s_id s) (s_status s) (s_basis_t s) (s_description s) (s_owner s)
    (s_expires_at s) (s_grants s) (s_footprint s) (s_reserves s) (s_sealed s) (s_merged_tx s)
    (s_steps s) (s_conflict_report s) (s_on_abort_tx s) (s_on_abort_fn s) (s_on_abort_error s)
    (s_retain_for s) (s_finished_at s) [].

(** C26. A finished saga stays as it is: once an entry's status is not open, no accepted
    transaction changes anything of it but its compensation ledger -- not its status, its
    merge record, its reservations, nor the instant its retention is counted from. *)
Theorem saga_finished_frozen db items next p e s :
  input_ok db items next -> prepare db items (next_tx db) next = Ok p -> u64 e ->
  entry_at db e = Some s -> is_open s = false ->
  exists s', entry_at (after db p) e = Some s' /\ standing s' = standing s.
Proof.
  intros Hin Hp He Hs Ho. pose proof (accepted_saga db items next p Hin Hp) as Hv.
  pose proof (accepted_finished_at db items next p e s Hin Hp He Hs Ho) as Hfin.
  pose proof (accepted_grants db items next p e Hin Hp He) as Hgr.
  assert (forall a, is_saga_attribute a = true -> a <> SAGA_COMPENSATIONS -> u64 a ->
    values (after db p) e a = values db e a) as Hval.
  { intros a Ha Hne Hu. apply (accepted_values db items next p Hin Hp); [done..|].
    by eapply finished_untouched. }
  unfold entry_at, field, refs in *. unfold keyword in *. rewrite (accepted_interner db p) in *.
  rewrite (Hval SAGA_ID), !Hval by (by vm_compute). rewrite Hval in Hgr by (by vm_compute).
  destruct (head (values db e SAGA_ID) ≫= uuid) as [id|]; [|done]. cbn [mbind option_bind] in *.
  injection Hs as <-. eexists. split; [done|]. unfold standing.
  cbn [s_entity s_id s_status s_basis_t s_description s_owner s_expires_at s_grants s_footprint s_reserves
    s_sealed s_merged_tx s_steps s_conflict_report s_on_abort_tx s_on_abort_fn s_on_abort_error
    s_retain_for s_finished_at]. by rewrite Hfin, Hgr.
Qed.

(** *** Leased ids *)

Lemma granted_ids_ok db ds :
  validate_granted_ids db ds = Ok tt ->
  forall s g d x, In s (open_entries db) ->
    asserted_status db (s_entity s) ds <> Some SagaStatus.Committed -> In g (s_grants s) ->
    In d ds -> In x (named_entities d) -> holds g x = false.
Proof.
  intros Hv s g d x Hs Hst Hg Hd Hx.
  assert (In g (guarded_grants db ds)) as Hgg.
  { apply in_flat_map. exists s. split; [|done]. apply filter_In. split; [done|].
    destruct (asserted_status db (s_entity s) ds) as [st|]; [|done]. simpl.
    by rewrite bool_decide_false by congruence. }
  unfold validate_granted_ids in Hv. destruct (guarded_grants db ds) as [|g0 gs] eqn:E; [done|].
  rewrite for_each_ok in Hv. specialize (Hv d Hd). rewrite for_each_ok in Hv. specialize (Hv x Hx).
  apply ensure_ok, negb_true_iff in Hv. apply not_true_iff_false. intros Hh.
  rewrite <- not_true_iff_false, existsb_exists in Hv. apply Hv. by exists g.
Qed.

(** C33. Leased entity ids are out of reach: an accepted transaction writes no grant, and
    unless it commits the saga that holds the lease, none of its datoms is about an id in
    a block leased to an open saga nor, outside the registry, refers to one. *)
Theorem saga_grants_respected db items next p :
  input_ok db items next -> prepare db items (next_tx db) next = Ok p ->
  (forall d, In d (p_datoms p) -> is_grant_attribute (d_a d) = false /\ d_a d <> SAGA_ID_GRANTS) /\
  (forall s g d x, In s (open_entries db) ->
    asserted_status db (s_entity s) (p_datoms p) <> Some SagaStatus.Committed -> In g (s_grants s) ->
    In d (p_datoms p) -> x = d_e d \/ (d_v d = Value.Ref x /\ is_registry_attribute (d_a d) = false) ->
    holds g x = false).
Proof.
  intros Hin Hp. pose proof (accepted_saga db items next p Hin Hp) as (Hg & Hi & _)%saga_validate_ok.
  split; [done|]. intros s g d x Hs Hst Hgs Hd Hx.
  eapply granted_ids_ok; [done..|]. unfold named_entities.
  destruct Hx as [->|[-> ->]]; [by left|right; by left].
Qed.

(** *** Opening a saga *)

Lemma asserted_In e ds a :
  asserted (registry_writes e ds) a = true ->
  exists d, In d ds /\ d_e d = e /\ d_a d = a /\ d_added d = true.
Proof.
  unfold asserted. rewrite existsb_exists.
  intros (d & [Hd [He%bool_decide_eq_true _]%andb_true_iff]%filter_In & [Ha%bool_decide_eq_true Hadd]%andb_true_iff).
  by exists d.
Qed.

(** A saga is complete when it is created: a transaction that writes registry
    attributes on an entity that is not a saga asserts its id, an open status (and no
    other), its opening basis, its owner and its deadline, and no merge record. *)
Theorem saga_opens_complete db items next p d :
  input_ok db items next -> prepare db items (next_tx db) next = Ok p ->
  In d (p_datoms p) -> is_saga_attribute (d_a d) = true -> entry_at db (d_e d) = None ->
  asserted_status db (d_e d) (p_datoms p) = Some SagaStatus.Open /\
  (forall a, In a [SAGA_ID; SAGA_BASIS_T; SAGA_OWNER; SAGA_EXPIRES_AT] ->
    exists x, In x (p_datoms p) /\ d_e x = d_e d /\ d_a x = a /\ d_added x = true) /\
  (forall x, In x (p_datoms p) -> d_e x = d_e d -> d_added x = true ->
    d_a x <> SAGA_MERGED_TX /\ d_a x <> SAGA_STEPS).
Proof.
  intros Hin Hp Hd Ha Hnew. pose proof (accepted_saga db items next p Hin Hp) as (_ & _ & Hv)%saga_validate_ok.
  specialize (Hv d Hd Ha). unfold validate_entity in Hv. rewrite Hnew in Hv.
  apply bind_ok in Hv as ([] & Hid%ensure_ok & Hv). apply bind_ok in Hv as ([] & Hst & Hv).
  apply bind_ok in Hv as ([] & Hreq & Hm). rewrite for_each_ok in Hreq.
  set (st := asserted_status db (d_e d) (p_datoms p)) in *.
  assert (st = Some SagaStatus.Open) as Est by (by destruct st as [[]|]). rewrite Est in *.
  split_and!; [done| |].
  - intros a Hin'. apply asserted_In. destruct Hin' as [<-|Hin']; [done|].
    assert (exists nm, In (asserted (registry_writes (d_e d) (p_datoms p)) a, nm)
      [(asserted (registry_writes (d_e d) (p_datoms p)) SAGA_BASIS_T, ":db.saga/basis-t"%string);
       (asserted (registry_writes (d_e d) (p_datoms p)) SAGA_OWNER, ":db.saga/owner"%string);
       (asserted (registry_writes (d_e d) (p_datoms p)) SAGA_EXPIRES_AT, ":db.saga/expires-at"%string)])
      as [nm Hnm].
    { destruct Hin' as [<-|[<-|[<-|[]]]]; eexists; [by left|by right; left|by right; right; left]. }
    apply Hreq in Hnm. by apply ensure_ok in Hnm.
  - intros x Hx Hex Hax. unfold check_merge_record in Hm. rewrite bool_decide_false in Hm by done.
    assert (forall a nm, In (a, nm) [(SAGA_MERGED_TX, ":db.saga/merged-tx"%string); (SAGA_STEPS, ":db.saga/steps"%string)] ->
      is_saga_attribute a = true -> d_a x <> a) as Hno.
    { intros a nm Hnm Hsa E. rewrite for_each_ok in Hm. apply Hm, ensure_ok, negb_true_iff in Hnm.
      rewrite <- not_true_iff_false, existsb_exists in Hnm. apply Hnm. exists x. split.
      - apply filter_In. split; [done|]. by rewrite bool_decide_true, E by done.
      - by rewrite bool_decide_true, Hax. }
    split; [eapply Hno; [by left|by vm_compute]|eapply Hno; [by right; left|by vm_compute]].
Qed.

End registry.

(** ** Branch steps *)

Lemma list_min_le d l : list_min d l <= d /\ forall x, In x l -> list_min d l <= x.
Proof.
  induction l as [|y l [IH1 IH2]]; simpl; [by split|]. split; [lia|].
  intros x [->|Hx]; [lia|]. specialize (IH2 x Hx). lia.
Qed.

(** An id that predates the branch lies below every leased block. *)
Lemma pre_existing_below r e g start :
  is_pre_existing r e = true -> In g (r_grants r) -> g_start g = Some start -> 0 <= start ->
  partition e = partition_id Partition.User /\ sequence e < start.
Proof.
  unfold is_pre_existing. rewrite !andb_true_iff. intros [[Hp%bool_decide_eq_true Hs%Z.ltb_lt] _] Hg Est Hst.
  split; [done|]. unfold grant_floor in Hs. destruct (list_min_le (2 ^ 64 - 1)
    (filter_map try_u64 (filter_map g_start (r_grants r)))) as [_ Hle].
  specialize (Hle start). assert (In start (filter_map try_u64 (filter_map g_start (r_grants r)))) as Hin.
  { apply In_filter_map. exists start. split; [apply In_filter_map; by exists g|].
    unfold try_u64. by rewrite (proj2 (Z.leb_le _ _) Hst). }
  specialize (Hle Hin). lia.
Qed.

(** What an accepted step says of one user entity it names. *)
Definition in_bounds (r : BranchRules) (a : AttrId) (x : EntityId) : Prop :=
  partition x = partition_id Partition.User ->
  (exists g, In g (r_grants r) /\ holds g x = true) \/
  ((forall g start, In g (r_grants r) -> g_start g = Some start -> 0 <= start ->
      sequence x < start) /\
   (r_reserves r = [] \/ In x (r_reserves r) \/ In a (r_reserves r))).

Lemma allocated_in_bounds r a x :
  allocated r x = true ->
  (r_reserves r <> [] -> is_pre_existing r x && negb (reserves r x a) = false) -> in_bounds r a x.
Proof.
  intros Hal Hre Hu. unfold allocated, is_user in Hal. rewrite bool_decide_true in Hal by done.
  apply negb_true_iff in Hal. cbn [andb] in Hal. destruct (is_branch_entity r x) eqn:Eb.
  - left. apply existsb_exists in Eb as (g & ? & ?). by exists g.
  - right. destruct (is_pre_existing r x) eqn:Ep; [|done]. split.
    + intros g start Hg Hs Hb. by eapply pre_existing_below.
    + destruct (r_reserves r) as [|y l] eqn:Er; [by left|]. right. specialize (Hre ltac:(done)).
      cbn [andb] in Hre. apply negb_false_iff in Hre. unfold reserves in Hre. rewrite Er in Hre.
      apply orb_true_iff in Hre as [H|H]; apply bool_decide_eq_true, list_elem_of_In in H; auto.
Qed.

(** C34. An accepted step of a branch stays inside what its saga declared: it writes no
    registry attribute and no schema entity, and every user entity it names, as entity or
    as reference target, either lies in a block leased to the saga or lies below all of
    them and, if the saga reserves anything, is reserved (itself or the attribute). *)
Theorem validate_step_bounds datoms rules :
  validate_step datoms rules = Ok tt ->
  r_grants rules <> [] /\
  forall d, In d datoms ->
    is_registry_attribute (d_a d) = false /\
    partition (d_e d) <> partition_id Partition.Db /\
    in_bounds rules (d_a d) (d_e d) /\
    (forall x, d_v d = Value.Ref x -> in_bounds rules (d_a d) x).
Proof.
  unfold validate_step. destruct (r_grants rules) as [|g gs] eqn:Eg; [done|]. rewrite for_each_ok.
  intros Hall. split; [done|]. intros d Hd. specialize (Hall d Hd). unfold validate_step_datom in Hall.
  apply bind_ok in Hall as ([] & H1%ensure_ok & H). apply bind_ok in H as ([] & H2%ensure_ok & H).
  apply bind_ok in H as ([] & H3%ensure_ok & H). apply bind_ok in H as ([] & H4 & H).
  apply negb_true_iff in H1. apply negb_true_iff, bool_decide_eq_false in H2.
  assert (r_reserves rules <> [] ->
    is_pre_existing rules (d_e d) && negb (reserves rules (d_e d) (d_a d)) = false /\
    forall x, d_v d = Value.Ref x -> is_pre_existing rules x && negb (reserves rules x (d_a d)) = false) as Hres.
  { intros Hne. destruct (r_reserves rules) as [|y l]; [done|]. cbn [negb] in H.
    apply bind_ok in H as ([] & H5%ensure_ok & H6). apply negb_true_iff in H5. split; [done|].
    intros x Hx. rewrite Hx in H6. by apply ensure_ok, negb_true_iff in H6. }
  split_and!; [done|done| |].
  - apply allocated_in_bounds; [done|]. intros Hne. by destruct (Hres Hne).
  - intros x Hx. apply allocated_in_bounds.
    + rewrite Hx in H4. by apply ensure_ok in H4.
    + intros Hne. by destruct (Hres Hne) as [_ Hx']; apply Hx'.
Qed.

(** ** Witnesses *)

#[local] Existing Instance list_rpds.
#[local] Existing Instance list_rpds_laws.

Definition names : KeywordInterner :=
  (intern (intern interner_default (status_keyword SagaStatus.Open)).2
    (status_keyword SagaStatus.Committed)).2.
Definition OPEN : Value := Value.Keyword (intern interner_default (status_keyword SagaStatus.Open)).1.
Definition COMMITTED : Value :=
  Value.Keyword (intern (intern interner_default (status_keyword SagaStatus.Open)).2
    (status_keyword SagaStatus.Committed)).1.

Definition saga0 : Db := with_naming (db_new schema_default) idents_default names.

Definition open_saga : list TxItem :=
  [ TxItem.Map (mk_entity_map (EntityRef.Temp "s")
      [(SAGA_ID, [Value.Uuid 7]); (SAGA_STATUS, [OPEN]); (SAGA_BASIS_T, [Value.Long 0]);
       (SAGA_OWNER, [Value.Str "o"]); (SAGA_EXPIRES_AT, [Value.Instant 9])]) ].

Definition opened : PreparedTx :=
  match prepare saga0 open_saga (next_tx saga0) 1000 with Ok p => p | Err _ => mk_prepared [] [] end.
Definition saga1 : Db := after saga0 opened.

Lemma opened_ok : prepare saga0 open_saga (next_tx saga0) 1000 = Ok opened.
Proof. by vm_compute. Qed.

Definition commit_saga : list TxItem :=
  [ TxItem.Op (TxOp.Add (EntityRef.Lookup SAGA_ID (Value.Uuid 7)) SAGA_STATUS COMMITTED);
    TxItem.Op (TxOp.Add (EntityRef.Lookup SAGA_ID (Value.Uuid 7)) SAGA_STEPS (Value.Long 3)) ].

Definition closed : PreparedTx :=
  match prepare saga1 commit_saga (next_tx saga1) 1001 with Ok p => p | Err _ => mk_prepared [] [] end.
Definition saga2 : Db := after saga1 closed.

Lemma closed_ok : prepare saga1 commit_saga (next_tx saga1) 1001 = Ok closed.
Proof. by vm_compute. Qed.

(** A compensation for the finished saga. *)
Definition compensate : list TxItem :=
  [ TxItem.Op (TxOp.Add (EntityRef.Temp "c") SAGA_COMPENSATION_KEY (Value.Str "refund"));
    TxItem.Op (TxOp.AddRef (EntityRef.Id (user 1000)) SAGA_COMPENSATIONS (EntityRef.Temp "c")) ].

Definition compensated : PreparedTx :=
  match prepare saga2 compensate (next_tx saga2) 1001 with Ok p => p | Err _ => mk_prepared [] [] end.

Lemma compensated_ok : prepare saga2 compensate (next_tx saga2) 1001 = Ok compensated.
Proof. by vm_compute. Qed.

(** ** The status check can be passed over

    The datoms of one transaction can assert a status and take it back; the check reads
    the last asserted one.  The saga below is left with no status. *)

Definition clear_status : list TxItem :=
  [ TxItem.Op (TxOp.Add (EntityRef.Id (user 1000)) SAGA_STATUS COMMITTED);
    TxItem.Op (TxOp.Retract (EntityRef.Id (user 1000)) SAGA_STATUS COMMITTED) ].

Definition cleared : PreparedTx :=
  match prepare saga1 clear_status (next_tx saga1) 1001 with Ok p => p | Err _ => mk_prepared [] [] end.

Lemma status_can_be_cleared :
  (s_status <$> entry_at saga1 (user 1000)) = Some (Some SagaStatus.Open) /\
  prepare saga1 clear_status (next_tx saga1) 1001 = Ok cleared /\
  (s_status <$> entry_at (after saga1 cleared) (user 1000)) = Some None.
Proof. split_and!; by vm_compute. Qed.

(** The samples meet the hypotheses. *)

Lemma saga0_ready : ready saga0.
Proof.
  split; [|by vm_compute..].
  assert (recorded_datoms saga0 = []) as E by (by vm_compute).
  split; rewrite ?E; try constructor; done.
Qed.

Lemma after_ready db items next p :
  input_ok db items next -> prepare db items (next_tx db) next = Ok p ->
  0 <= basis_t (after db p) -> basis_t (after db p) + 1 < 2 ^ 42 -> ready (after db p).
Proof.
  intros Hin Hp H0 H1. destruct (prepare_sound db items next p Hin Hp) as (_ & _ & Hem & _).
  by destruct (after_ok db p (in_ready _ _ _ Hin) Hem) as (? & ? & _).
Qed.

Lemma input_open : input_ok saga0 open_saga 1000.
Proof.
  split; [apply saga0_ready| |by vm_compute..]. apply List.Forall_cons; [|apply List.Forall_nil].
  split; [done|]. intros a vs Hin.
  repeat (destruct Hin as [[= <- <-]|Hin];
    [split; [by vm_compute|apply List.Forall_cons; [by vm_compute|apply List.Forall_nil]]|]). done.
Qed.

Lemma saga1_ready : ready saga1.
Proof. apply (after_ready saga0 open_saga 1000 opened input_open opened_ok); by vm_compute. Qed.

Lemma input_commit : input_ok saga1 commit_saga 1001.
Proof.
  split; [apply saga1_ready| |by vm_compute..].
  repeat (apply List.Forall_cons); [..|apply List.Forall_nil]; split_and!; by vm_compute.
Qed.

Lemma saga2_ready : ready saga2.
Proof. apply (after_ready saga1 commit_saga 1001 closed input_commit closed_ok); by vm_compute. Qed.

Lemma input_compensate : input_ok saga2 compensate 1001.
Proof.
  split; [apply saga2_ready| |by vm_compute..].
  repeat (apply List.Forall_cons); [..|apply List.Forall_nil]; split_and!; by vm_compute.
Qed.

Definition entry1 : SagaEntry :=
  match entry_at saga1 (user 1000) with Some s => s | None => mk_entry 0 0 None None None None None [] [] [] false
    None None None None None None None None [] end.
Definition entry2 : SagaEntry :=
  match entry_at saga2 (user 1000) with Some s => s | None => mk_entry 0 0 None None None None None [] [] [] false
    None None None None None None None None [] end.

Lemma entry1_at : entry_at saga1 (user 1000) = Some entry1.
Proof. by vm_compute. Qed.
Lemma entry2_at : entry_at saga2 (user 1000) = Some entry2.
Proof. by vm_compute. Qed.
Lemma entry2_finished : is_open entry2 = false.
Proof. by vm_compute. Qed.

Lemma saga_identity_kept_witness :
  exists s', entry_at (after saga1 closed) (user 1000) = Some s' /\
    s_entity s' = s_entity entry1 /\ s_id s' = s_id entry1 /\ s_basis_t s' = s_basis_t entry1 /\
    s_owner s' = s_owner entry1 /\ s_sealed s' = s_sealed entry1 /\ s_grants s' = s_grants entry1.
Proof.
  exact (saga_identity_kept saga1 commit_saga 1001 closed (user 1000) entry1 input_commit closed_ok
    (user_u64 1000) entry1_at).
Defined.

Lemma saga_finished_frozen_witness :
  exists s', entry_at (after saga2 compensated) (user 1000) = Some s' /\ standing s' = standing entry2.
Proof.
  exact (saga_finished_frozen saga2 compensate 1001 compensated (user 1000) entry2 input_compensate
    compensated_ok (user_u64 1000) entry2_at entry2_finished).
Defined.

Definition opening_datom : Datom := mk_datom (user 1000) SAGA_ID (Value.Uuid 7) (next_tx saga0) true.

Lemma opening_datom_in : In opening_datom (p_datoms opened).
Proof. vm_compute. by left. Qed.
Lemma opening_new : entry_at saga0 (d_e opening_datom) = None.
Proof. by vm_compute. Qed.

Lemma saga_opens_complete_witness :
  asserted_status saga0 (user 1000) (p_datoms opened) = Some SagaStatus.Open.
Proof.
  exact (proj1 (saga_opens_complete saga0 open_saga 1000 opened opening_datom input_open opened_ok
    opening_datom_in eq_refl opening_new)).
Defined.

(** The transactor leases ids 2000 to 2099 to the saga. *)
Definition lease : list Datom :=
  [ mk_datom (user 1001) SAGA_GRANT_PARTITION (Value.Long 2) (tx_of 2) true;
    mk_datom (user 1001) SAGA_GRANT_START (Value.Long 2000) (tx_of 2) true;
    mk_datom (user 1001) SAGA_GRANT_LENGTH (Value.Long 100) (tx_of 2) true;
    mk_datom (user 1000) SAGA_ID_GRANTS (Value.Ref (user 1001)) (tx_of 2) true ].

Definition leased : Db := apply_transaction saga1 2 lease.

Lemma lease_ok : tx_ok 2 lease.
Proof.
  apply (pushed_ok 2); [lia|lia|by repeat apply List.Forall_cons| |].
  - repeat apply List.Forall_cons; [..|apply List.Forall_nil]; split_and!; by vm_compute.
  - repeat apply List.Forall_cons; [..|apply List.Forall_nil]; by vm_compute.
Qed.

Lemma leased_ready : ready leased.
Proof.
  destruct saga1_ready as [? ? ? ?]. split; [|by vm_compute..].
  apply apply_transaction_ok; [done|done|by vm_compute|apply lease_ok].
Qed.

Definition describe : list TxItem :=
  [ TxItem.Op (TxOp.Add (EntityRef.Id (user 1000)) SAGA_DESCRIPTION (Value.Str "d")) ].
Definition described : PreparedTx :=
  match prepare leased describe (next_tx leased) 1002 with Ok p => p | Err _ => mk_prepared [] [] end.

Lemma described_ok : prepare leased describe (next_tx leased) 1002 = Ok described.
Proof. by vm_compute. Qed.

Lemma input_describe : input_ok leased describe 1002.
Proof.
  split; [apply leased_ready| |by vm_compute..].
  repeat (apply List.Forall_cons); [..|apply List.Forall_nil]; split_and!; by vm_compute.
Qed.

Definition leased_entry : SagaEntry :=
  match open_entries leased with s :: _ => s | [] => entry1 end.
Definition leased_grant : IdGrant :=
  match s_grants leased_entry with g :: _ => g | [] => mk_grant 0 None None None end.
Definition described_datom : Datom :=
  mk_datom (user 1000) SAGA_DESCRIPTION (Value.Str "d") (next_tx leased) true.

Lemma leased_entry_in : In leased_entry (open_entries leased).
Proof. vm_compute. by left. Qed.
Lemma leased_grant_in : In leased_grant (s_grants leased_entry).
Proof. vm_compute. by left. Qed.
Lemma leased_holds : holds leased_grant (user 2050) = true.
Proof. by vm_compute. Qed.
Lemma described_in : In described_datom (p_datoms described).
Proof. vm_compute. by left. Qed.
Lemma described_open : asserted_status leased (s_entity leased_entry) (p_datoms described) <> Some SagaStatus.Committed.
Proof. by vm_compute. Qed.

Lemma saga_grants_respected_witness : holds leased_grant (user 1000) = false.
Proof.
  exact (proj2 (saga_grants_respected leased describe 1002 described input_describe described_ok)
    leased_entry leased_grant described_datom (user 1000) leased_entry_in described_open leased_grant_in
    described_in (or_introl eq_refl)).
Defined.

(** The same transaction aimed at a leased id is refused. *)
Lemma leased_id_refused :
  prepare leased [TxItem.Op (TxOp.Add (EntityRef.Id (user 2050)) SAGA_COMPENSATION_KEY (Value.Str "k"))]
    (next_tx leased) 1002 = fails (TxError.Saga (SagaViolation.GrantedId (user 2050))).
Proof. by vm_compute. Qed.

Definition branch_rules : BranchRules := mk_rules [leased_grant] [user 1000].
Definition step_datoms : list Datom :=
  [ mk_datom (user 2000) NAME (Value.Str "n") (tx_of 1) true;
    mk_datom (user 2000) CHILD (Value.Ref (user 1000)) (tx_of 1) true ].

Lemma step_accepted : validate_step step_datoms branch_rules = Ok tt.
Proof. by vm_compute. Qed.
Lemma step_datom_in : In (mk_datom (user 2000) CHILD (Value.Ref (user 1000)) (tx_of 1) true) step_datoms.
Proof. right. by left. Qed.

Lemma validate_step_bounds_witness : in_bounds branch_rules CHILD (user 1000).
Proof.
  exact (proj2 (proj2 (proj2 (proj2 (validate_step_bounds step_datoms branch_rules step_accepted) _ step_datom_in)))
    (user 1000) eq_refl).
Defined.
