(* ===== verification/Merge.v ===== *)
(** * Merging a saga branch (corium-tx/src/merge.rs)

    Both sides of a merge are squashed to their net effect on the state they started
    from; the scan compares the two, resolutions answer what collides, and the rest of
    the branch's novelty becomes transaction items (corium-transactor/src/merge.rs). *)

From stdpp Require Import base list strings sorting.
From Stdlib Require Import ZArith Lia.
From S2P Require Import Prelude OrdMap Machine Ids Keyword Values Encoding Datoms Schema.
From S2P Require Import Bootstrap SchemaDatoms Db SagaDb Tx.
Local Open Scope Z_scope.

Record Novelty := mk_novelty {
  asserts : list Fact;
  retracts : list Fact;
  n_steps : Z }.

Definition novelty_is_empty (n : Novelty) : bool :=
  match asserts n, retracts n with [], [] => true | _, _ => false end.

Definition novelty_len (n : Novelty) : nat := length (asserts n) + length (retracts n).

(** Every net fact with its direction, retractions first. *)
Definition novelty_facts (n : Novelty) : list (Fact * bool) :=
  map (fun f => (f, false)) (retracts n) ++ map (fun f => (f, true)) (asserts n).

(** The loop of [squash]: [first], [last] and the transactions seen. *)
Definition squash_step (st : list (Fact * bool) * list (Fact * bool) * list Z) (d : Datom)
    : list (Fact * bool) * list (Fact * bool) * list Z :=
  let '(first, last, transactions) := st in
  let transactions := os_insert (sequence (d_tx d)) transactions in
  if bool_decide (partition (d_e d) = partition_id Partition.Tx) then (first, last, transactions)
  else
    (match om_get (d_fact d) first with
     | Some _ => first
     | None => om_insert (d_fact d) (d_added d) first
     end,
     om_insert (d_fact d) (d_added d) last, transactions).

Definition squash (datoms : list Datom) : Novelty :=
  let '(first, last, transactions) := fold_left squash_step datoms ([], [], []) in
  fold_left (fun n '(fact, added) =>
      if negb (bool_decide (om_get fact first = Some added)) then n
      else if added : bool then mk_novelty (os_insert fact (asserts n)) (retracts n) (n_steps n)
      else mk_novelty (asserts n) (os_insert fact (retracts n)) (n_steps n))
    last (mk_novelty [] [] (Z.of_nat (length transactions))).

(** ** Conflicts *)

Module Scope.
Inductive Scope := Pair | Fact (v : Value).
End Scope.
Notation Scope := Scope.Scope.

#[global] Instance scope_eq_dec : EqDecision Scope.
Proof. solve_decision. Defined.

(** The derived order: [Pair] first. *)
#[global] Instance scope_ord : Ord Scope :=
  via_ord (fun s => match s with Scope.Pair => None | Scope.Fact v => Some v end).
#[global] Instance scope_ord_laws : OrdLaws Scope.
Proof. apply via_ord_laws. intros [|v] [|w] E; simplify_eq; done. Qed.

Notation Unit := (EntityId * (AttrId * Scope))%type.

Module ConflictKind.
Inductive ConflictKind :=
| WriteWrite
| Uniqueness (holder : EntityId)
| DanglingRef (target : EntityId)
| RetractionMiss.
End ConflictKind.
Notation ConflictKind := ConflictKind.ConflictKind.

#[global] Instance conflict_kind_eq_dec : EqDecision ConflictKind.
Proof. solve_decision. Defined.

Definition kind_name (k : ConflictKind) : string :=
  match k with
  | ConflictKind.WriteWrite => "write-write"
  | ConflictKind.Uniqueness _ => "uniqueness"
  | ConflictKind.DanglingRef _ => "dangling-ref"
  | ConflictKind.RetractionMiss => "retraction-miss"
  end.

Record Conflict := mk_conflict {
  cf_kind : ConflictKind;
  cf_entity : EntityId;
  cf_attribute : AttrId;
  cf_scope : Scope;
  cf_branch : option Value;
  cf_parent : option Value;
  cf_overridable : bool }.

#[global] Instance conflict_eq_dec : EqDecision Conflict.
Proof. solve_decision. Defined.

Definition conflict_unit (c : Conflict) : Unit := (cf_entity c, (cf_attribute c, cf_scope c)).

Module Take.
Inductive Take := Parent | Branch.
End Take.
Notation Take := Take.Take.

Record Resolution := mk_resolution {
  rs_entity : EntityId;
  rs_attribute : AttrId;
  rs_scope : Scope;
  rs_parent : option Value;
  rs_take : Take }.

Definition answers (r : Resolution) (c : Conflict) : bool :=
  bool_decide (rs_entity r = cf_entity c) && bool_decide (rs_attribute r = cf_attribute c) &&
  bool_decide (rs_scope r = cf_scope c) && bool_decide (rs_parent r = cf_parent c).

Module ResolutionError.
Inductive ResolutionError := Unmatched (r : Resolution) | NotOverridable (r : Resolution).
End ResolutionError.
Notation ResolutionError := ResolutionError.ResolutionError.

Record Resolved := mk_resolved {
  outstanding : list Conflict;
  accepted : list Unit;
  overridden : list Unit;
  rejected : list ResolutionError }.

(** ** The scan *)

Definition many (schema : Schema) (a : AttrId) : bool :=
  is_some_and (schema_get schema a) (fun attr => bool_decide (cardinality attr = Cardinality.Many)).

(** What the branch means each cardinality-one pair to hold. *)
Definition pair_step (schema : Schema) (pairs : list ((EntityId * AttrId) * option Value))
    (p : Fact * bool) : list ((EntityId * AttrId) * option Value) :=
  let '((e, a, v), added) := p in
  if many schema a then pairs
  else if added : bool then om_insert (e, a) (Some v) pairs
  else match om_get (e, a) pairs with
       | Some _ => pairs
       | None => om_insert (e, a) None pairs
       end.

Definition branch_pairs (schema : Schema) (branch : Novelty) : list ((EntityId * AttrId) * option Value) :=
  fold_left (pair_step schema) (novelty_facts branch) [].

Definition drifted_pairs (drift : Novelty) : list (EntityId * AttrId) :=
  os_of_list (map (fun p => p.1.1) (novelty_facts drift)).

Definition conflict_cmp (l r : Conflict) : comparison :=
  cmp (cf_entity l, (cf_attribute l, (cf_scope l, kind_name (cf_kind l))))
      (cf_entity r, (cf_attribute r, (cf_scope r, kind_name (cf_kind r)))).

Section scan.
Context {R : Rpds}.
Implicit Types parent : Db.

(** Whether the parent still holds any fact about [e]. *)
Definition exists_entity parent (e : EntityId) : bool :=
  match datoms_prefix parent Eavt (key_prefix Eavt (Some e) None None) with [] => false | _ => true end.

Definition emptied_entities parent (drift : Novelty) : list EntityId :=
  os_of_list (List.filter (fun e => negb (exists_entity parent e))
    (os_of_list (map (fun f : Fact => f.1.1) (retracts drift)))).

Definition pair_conflict parent (drifted : list (EntityId * AttrId))
    (p : (EntityId * AttrId) * option Value) : option Conflict :=
  let '((e, a), branch) := p in
  let held := head (values parent e a) in
  if negb (os_mem (e, a) drifted) || bool_decide (held = branch) then None
  else
    let kind := if is_some branch then ConflictKind.WriteWrite else ConflictKind.RetractionMiss in
    Some (mk_conflict kind e a Scope.Pair branch held (bool_decide (kind = ConflictKind.WriteWrite))).

Definition assert_conflicts parent (emptied : list EntityId) (f : Fact) : list Conflict :=
  let schema := db_schema parent in
  let '(e, a, v) := f in
  let scope := if many schema a then Scope.Fact v else Scope.Pair in
  (if is_some_and (schema_get schema a) (fun attr => is_some (unique attr)) then
     match lookup parent a v with
     | Some holder =>
         if negb (bool_decide (holder = e))
         then [mk_conflict (ConflictKind.Uniqueness holder) e a scope (Some v) (head (values parent e a)) false]
         else []
     | None => []
     end
   else []) ++
  (let target :=
     match v with
     | Value.Ref target =>
         if os_mem target emptied then Some target else if os_mem e emptied then Some e else None
     | _ => if os_mem e emptied then Some e else None
     end in
   match target with
   | Some target => [mk_conflict (ConflictKind.DanglingRef target) e a scope (Some v) None false]
   | None => []
   end).

Definition scan parent (branch drift : Novelty) : list Conflict :=
  let pairs := branch_pairs (db_schema parent) branch in
  let drifted := drifted_pairs drift in
  let emptied := emptied_entities parent drift in
  sort_by conflict_cmp
    (filter_map (pair_conflict parent drifted) pairs ++
     flat_map (assert_conflicts parent emptied) (asserts branch)).

(** ** Resolutions *)

Fixpoint position {A} (p : A -> bool) (l : list A) : option nat :=
  match l with
  | [] => None
  | x :: l => if p x then Some O else S <$> position p l
  end.

(** One conflict of the loop; [used] holds the indices of the resolutions that matched. *)
Definition resolve_conflict (resolutions : list Resolution) (st : Resolved * list nat) (c : Conflict)
    : Resolved * list nat :=
  let '(r, used) := st in
  match position (fun resolution => answers resolution c) resolutions with
  | None => (mk_resolved (outstanding r ++ [c]) (accepted r) (overridden r) (rejected r), used)
  | Some index =>
      let used := index :: used in
      match resolutions !! index with
      | None => (r, used)
      | Some resolution =>
          match rs_take resolution with
          | Take.Parent =>
              (mk_resolved (outstanding r) (os_insert (conflict_unit c) (accepted r)) (overridden r) (rejected r), used)
          | Take.Branch =>
              if cf_overridable c
              then (mk_resolved (outstanding r) (accepted r) (os_insert (conflict_unit c) (overridden r)) (rejected r), used)
              else (mk_resolved (outstanding r ++ [c]) (accepted r) (overridden r)
                      (rejected r ++ [ResolutionError.NotOverridable resolution]), used)
          end
      end
  end.

Definition resolve_conflicts (conflicts : list Conflict) (resolutions : list Resolution) : Resolved :=
  let '(r, used) := fold_left (resolve_conflict resolutions) conflicts (mk_resolved [] [] [] [], []) in
  let unmatched :=
    filter_map (fun '(index, resolution) =>
      if bool_decide (index ∈ used) then None else Some (ResolutionError.Unmatched resolution))
      (zip (seq 0 (length resolutions)) resolutions) in
  mk_resolved (outstanding r) (accepted r)
    (List.filter (fun u => negb (os_mem u (accepted r))) (overridden r))
    (rejected r ++ unmatched).

(** The unit a fact belongs to. *)
Definition fact_unit (schema : Schema) (f : Fact) : Unit :=
  (f.1.1, (f.1.2, if many schema f.1.2 then Scope.Fact f.2 else Scope.Pair)).

Definition apply_resolved (n : Novelty) (r : Resolved) parent : Novelty :=
  let unit := fact_unit (db_schema parent) in
  mk_novelty
    (List.filter (fun f => negb (os_mem (unit f) (accepted r))) (asserts n))
    (List.filter (fun f => negb (os_mem (unit f) (accepted r)) && negb (os_mem (unit f) (overridden r)))
      (retracts n))
    (n_steps n).

End scan.

(** ** Keyword names *)

Inductive UnnamedKeyword := mk_unnamed (id : KwId).

(** Rewrites one fact, interning into the parent's naming. *)
Definition translate_fact (branch : KeywordInterner) (parent : KeywordInterner) (f : Fact)
    : result UnnamedKeyword (Fact * KeywordInterner) :=
  match f.2 with
  | Value.Keyword id =>
      keyword ← ok_or (Keyword.resolve branch id) (mk_unnamed id);
      let '(id', parent) := intern parent keyword in
      Ok ((f.1, Value.Keyword id'), parent)
  | _ => Ok (f, parent)
  end.

Fixpoint translate_facts (branch parent : KeywordInterner) (fs out : list Fact)
    : result UnnamedKeyword (list Fact * KeywordInterner) :=
  match fs with
  | [] => Ok (out, parent)
  | f :: fs =>
      '(f', parent) ← translate_fact branch parent f;
      translate_facts branch parent fs (os_insert f' out)
  end.

Definition translate (n : Novelty) (branch parent : KeywordInterner)
    : result UnnamedKeyword (Novelty * KeywordInterner) :=
  '(asserts, parent) ← translate_facts branch parent (asserts n) [];
  '(retracts, parent) ← translate_facts branch parent (retracts n) [];
  Ok (mk_novelty asserts retracts (n_steps n), parent).

(** ** The transaction a merge applies *)

Definition novelty_items (n : Novelty) : list TxItem :=
  map (fun f : Fact => TxItem.Op (TxOp.Retract (EntityRef.Id f.1.1) f.1.2 f.2)) (retracts n) ++
  map (fun f : Fact => TxItem.Op (TxOp.Add (EntityRef.Id f.1.1) f.1.2 f.2)) (asserts n).

(** The items that commit the saga beside its novelty. *)
Definition commit_items (entry : SagaEntry) (saga : Z) (committed : KwId) (n : Novelty) : list TxItem :=
  [ TxItem.Op (TxOp.Add (EntityRef.Id (s_entity entry)) SAGA_STATUS (Value.Keyword committed));
    TxItem.Op (TxOp.AddRef (EntityRef.Id (s_entity entry)) SAGA_MERGED_TX (EntityRef.Temp TX_TEMPID));
    TxItem.Op (TxOp.Add (EntityRef.Id (s_entity entry)) SAGA_STEPS
      (Value.Long (Z.min (n_steps n) (2 ^ 63 - 1))));
    TxItem.Op (TxOp.Add (EntityRef.Temp TX_TEMPID) SAGA_TX_ID (Value.Uuid saga)) ] ++
  match s_conflict_report entry with
  | Some stale =>
      [TxItem.Op (TxOp.Retract (EntityRef.Id (s_entity entry)) SAGA_CONFLICT_REPORT (Value.Str stale))]
  | None => []
  end.

Definition merge_items (entry : SagaEntry) (saga : Z) (committed : KwId) (n : Novelty) : list TxItem :=
  novelty_items n ++ commit_items entry saga committed n.

(** ** Committing a saga (corium-transactor/src/node.rs, [saga_commit])

    The decision the handler takes under the commit locks, up to the items it prepares.
    Reading resolutions, evaluating guards and rendering the report work on EDN text and
    the query engine, and are arguments here. *)

Module CommitError.
Inductive CommitError :=
| UnknownSaga
| NotOpen (status : SagaStatus)
| NoStatus
| NoBasis
| Unnamed (id : KwId)
| BadResolutions (why : string).
End CommitError.
Notation CommitError := CommitError.CommitError.

Module Commit.
Inductive Commit :=
| Already (entry : SagaEntry)
| Refused (report : string) (items : list TxItem)
| Merged (merged : Novelty) (interner : KeywordInterner) (items : list TxItem).
End Commit.
Notation Commit := Commit.Commit.

Section commit.
Context {R : Rpds}.
Variable parse_resolutions : Db -> result string (list Resolution).
Variable failed_guards : Db -> Z -> list string.
Variable render_report : Db -> SagaEntry -> Novelty -> Resolved -> list string -> string.

Definition saga_commit (db branch_db : Db) (naming : KeywordInterner) (log : list Datom) (saga : Z)
    : result CommitError Commit :=
  entry ← ok_or (saga_entry db saga) CommitError.UnknownSaga;
  match s_status entry with
  | Some SagaStatus.Committed => Ok (Commit.Already entry)
  | Some SagaStatus.Open =>
      basis ← ok_or (s_basis_t entry ≫= try_u64) CommitError.NoBasis;
      let drift := squash (List.filter (fun d => (basis <? sequence (d_tx d))%Z) log) in
      '(novelty, interner) ←
        match translate (squash (recorded_since branch_db basis)) (db_interner branch_db) naming with
        | Ok p => Ok p
        | Err (mk_unnamed id) => Err (CommitError.Unnamed id)
        end;
      let against := with_naming db (db_idents db) interner in
      let conflicts := scan against novelty drift in
      resolutions ←
        match parse_resolutions against with
        | Ok rs => Ok rs
        | Err why => Err (CommitError.BadResolutions why)
        end;
      let resolved := resolve_conflicts conflicts resolutions in
      let failed := failed_guards against basis in
      match outstanding resolved, rejected resolved, failed with
      | [], [], [] =>
          let merged := apply_resolved novelty resolved against in
          let '(committed, interner) := intern interner (status_keyword SagaStatus.Committed) in
          Ok (Commit.Merged merged interner (merge_items entry saga committed merged))
      | _, _, _ =>
          let report := render_report against entry novelty resolved failed in
          Ok (Commit.Refused report
            [TxItem.Op (TxOp.Add (EntityRef.Id (s_entity entry)) SAGA_CONFLICT_REPORT (Value.Str report))])
      end
  | Some status => Err (CommitError.NotOpen status)
  | None => Err CommitError.NoStatus
  end.

End commit.
