(* ===== verification/MergeTheorems.v ===== *)
(** * What a merge does (theorems for Merge.v)

    [squash] is the net change a run of effective transactions made; a merge whose scan is
    answered leaves every unit as one of the two sides has it. *)

From stdpp Require Import base list strings sorting.
From Stdlib Require Import ZArith Lia.
From S2P Require Import Prelude OrdMap Machine Ids Keyword Values Encoding Datoms Schema.
From S2P Require Import Bootstrap SchemaDatoms Db DbFacts DbReads SagaDb TxSaga Branch Tx TxSpec.
From S2P Require Import DbTheorems TxFacts TxLoop TxTheorems SagaTheorems Merge.
Local Open Scope Z_scope.

Definition on_tx (f : Fact) : Prop := partition f.1.1 = partition_id Partition.Tx.

(** ** Squashing *)

(** What [first] and [last] know of [f] after the run [l]. *)
Definition words (ds0 l : list Datom) (first last : list (Fact * bool)) (f : Fact) : Prop :=
  (on_tx f /\ om_get f first = None /\ om_get f last = None) \/
  (~ on_tx f /\ om_get f first = None /\ om_get f last = None /\ (has (ds0 ++ l) f <-> has ds0 f)) \/
  (~ on_tx f /\ exists b c, om_get f first = Some b /\ om_get f last = Some c /\
    (has ds0 f <-> b = false) /\ (has (ds0 ++ l) f <-> c = true)).

Lemma fact_get_insert {V} (k k' : Fact) (v : V) m :
  om_get k' (om_insert k v m) = if bool_decide (k' = k) then Some v else om_get k' m.
Proof. case_bool_decide as E; [by rewrite E, om_get_insert_eq|by apply om_get_insert_ne]. Qed.

Lemma words_other ds0 l d first last f :
  d_fact d <> f -> words ds0 l first last f -> words ds0 (l ++ [d]) first last f.
Proof.
  intros Hd. unfold words.
  assert (has (ds0 ++ l ++ [d]) f <-> has (ds0 ++ l) f) as Hs.
  { rewrite app_assoc, has_snoc. by rewrite bool_decide_false. }
  intros [H|[H|(Ht & b & c & ? & ? & ? & ?)]]; [by left|right; left; tauto|].
  right; right. split; [done|]. exists b, c. tauto.
Qed.

Lemma squash_loop ds0 ds first last txs :
  effective ds0 ds -> fold_left squash_step ds ([], [], []) = (first, last, txs) ->
  om_wf last /\ forall f, words ds0 ds first last f.
Proof.
  revert first last txs. induction ds as [|d l IH] using rev_ind; intros first last txs He.
  { intros [= <- <- _]. split; [constructor|]. intros f. unfold words. rewrite app_nil_r.
    destruct (decide (partition f.1.1 = partition_id Partition.Tx)); [left|right; left]; done. }
  rewrite fold_left_app. destruct (fold_left squash_step l _) as [[f0 l0] t0] eqn:E.
  cbn [fold_left squash_step].
  assert (effective ds0 l) as Hl.
  { intros l1 x r ->. apply (He l1 x (r ++ [d])). by rewrite <- app_assoc. }
  destruct (IH _ _ _ Hl eq_refl) as [Hwf Hw]. specialize (He l d [] eq_refl).
  case_bool_decide as Htx; intros [= <- <- _].
  - split; [done|]. intros f. destruct (decide (d_fact d = f)) as [<-|Hn]; [|by apply words_other].
    left. destruct (Hw (d_fact d)) as [(?&?&?)|[[Hx _]|[Hx _]]]; [done|by destruct Hx..].
  - split; [by apply om_insert_wf|]. intros f. destruct (decide (d_fact d = f)) as [<-|Hn].
    + right; right. split; [done|].
      assert (has (ds0 ++ l ++ [d]) (d_fact d) <-> d_added d = true) as Hnow.
      { rewrite app_assoc, has_snoc. by rewrite bool_decide_true. }
      destruct (Hw (d_fact d)) as [(?&_)|[(_ & Hf & _ & Hs)|(_ & b & c & Hf & _ & Hb & _)]]; [done| |].
      * exists (d_added d), (d_added d). rewrite Hf, !om_get_insert_eq, <- Hs. done.
      * exists b, (d_added d). rewrite Hf, om_get_insert_eq. done.
    + apply words_other; [done|]. specialize (Hw f). unfold words in *.
      assert (om_get f (match om_get (d_fact d) f0 with
                        | Some _ => f0 | None => om_insert (d_fact d) (d_added d) f0 end)
              = om_get f f0) as ->.
      { destruct (om_get (d_fact d) f0); [done|]. rewrite fact_get_insert.
        by rewrite bool_decide_false by congruence. }
      rewrite fact_get_insert. by rewrite bool_decide_false by congruence.
Qed.

Lemma squash_collect (first l : list (Fact * bool)) n f :
  let n' := fold_left (fun n '(fact, added) =>
      if negb (bool_decide (om_get fact first = Some added)) then n
      else if added : bool then mk_novelty (os_insert fact (asserts n)) (retracts n) (n_steps n)
      else mk_novelty (asserts n) (os_insert fact (retracts n)) (n_steps n)) l n in
  (In f (asserts n') <-> In f (asserts n) \/ (In (f, true) l /\ om_get f first = Some true)) /\
  (In f (retracts n') <-> In f (retracts n) \/ (In (f, false) l /\ om_get f first = Some false)).
Proof.
  revert n. induction l as [|[g b] l IH]; intros n; cbn [fold_left In]; [naive_solver|].
  destruct (IH (if negb (bool_decide (om_get g first = Some b)) then n
      else if b then mk_novelty (os_insert g (asserts n)) (retracts n) (n_steps n)
      else mk_novelty (asserts n) (os_insert g (retracts n)) (n_steps n))) as [-> ->].
  case_bool_decide as E; cbn [negb]; [|naive_solver].
  destruct b; cbn [asserts retracts]; rewrite os_In_insert; naive_solver.
Qed.

Lemma squash_spec ds0 ds f :
  effective ds0 ds ->
  (In f (asserts (squash ds)) <-> ~ on_tx f /\ ~ has ds0 f /\ has (ds0 ++ ds) f) /\
  (In f (retracts (squash ds)) <-> ~ on_tx f /\ has ds0 f /\ ~ has (ds0 ++ ds) f).
Proof.
  intros He. unfold squash. destruct (fold_left squash_step ds _) as [[first last] txs] eqn:E.
  destruct (squash_loop _ _ _ _ _ He E) as [Hwf Hw].
  destruct (squash_collect first last (mk_novelty [] [] (Z.of_nat (length txs))) f) as [-> ->].
  cbn [asserts retracts In]. rewrite !om_In_iff by done.
  destruct (Hw f) as [(Ht & -> & ->)|[(Ht & -> & -> & Hs)|(Ht & b & c & -> & -> & Hb & Hc)]].
  - naive_solver.
  - rewrite Hs. naive_solver.
  - rewrite Hb, Hc. destruct b, c; naive_solver.
Qed.

(** ** Running the novelty as operations *)

Definition retract_rop (f : Fact) : ROp := ROp.Retract f.1.1 f.1.2 f.2.
Definition add_rop (f : Fact) : ROp := ROp.Add f.1.1 f.1.2 f.2.

Lemma single_dec sch a : single sch a \/ ~ single sch a.
Proof.
  unfold single. destruct (schema_get sch a) as [attr|]; [|right; by intros (? & ? & _)].
  destruct (decide (cardinality attr = Cardinality.One)); [left; eauto|right; naive_solver].
Qed.

Lemma single_many sch a v : typed sch a v -> many sch a = false -> single sch a.
Proof.
  intros (attr & Ha & _). unfold many, single. rewrite Ha. cbn [is_some_and].
  intros Hm. exists attr. split; [done|]. by destruct (cardinality attr).
Qed.

Lemma many_single sch a : many sch a = true -> ~ single sch a.
Proof.
  unfold many. intros Hm (attr & Ha & Hc). rewrite Ha in Hm. cbn [is_some_and] in Hm.
  apply bool_decide_eq_true in Hm. congruence.
Qed.

Section ops.
Context (sch : Schema) (tx : EntityId).

Lemma run_retracts S b rs os S' :
  run_spec sch tx S b (map retract_rop rs ++ os) S' ->
  exists S1, (forall f, S1 f <-> S f /\ ~ In f rs) /\ run_spec sch tx S1 b os S' /\
    Forall (fun f : Fact => typed sch f.1.2 f.2) rs.
Proof.
  revert S. induction rs as [|[[e a] v] rs IH]; intros S; cbn [map app].
  { intros Hr. exists S. split_and!; [|done|constructor]. intros f. simpl. tauto. }
  intros Hr. inversion Hr as [|? S2 ? ? ? ? Hpre Hpost Hr']; subst.
  destruct (IH _ Hr') as (S1 & H1 & Hr1 & Ht). exists S1. split_and!; [|done|].
  - intros f. rewrite H1, Hpost. simpl. naive_solver.
  - constructor; [apply Hpre|done].
Qed.

Lemma run_adds S b l os S' :
  single_valued sch S ->
  (forall f g, In f l -> In g l -> single sch f.1.2 -> f.1 = g.1 -> f = g) ->
  run_spec sch tx S b (map add_rop l ++ os) S' ->
  exists S1 b',
    (forall f, S1 f <-> In f l \/ (S f /\ ~ exists g, In g l /\ single sch g.1.2 /\ f.1 = g.1)) /\
    run_spec sch tx S1 b' os S' /\ Forall (fun f : Fact => typed sch f.1.2 f.2) l.
Proof.
  revert S b. induction l as [|g l IH]; intros S b HI Hl; cbn [map app].
  { intros Hr. exists S, b. split_and!; [|done|constructor]. intros f. simpl. naive_solver. }
  intros Hr. inversion Hr as [|? S2 ? ? ? ? Hpre Hpost Hr']; subst.
  assert (forall f, S2 f <-> f = g \/ (S f /\ ~ (single sch g.1.2 /\ f.1 = g.1))) as H2.
  { intros f. rewrite Hpost. destruct g as [[e a] v], f as [[e' a'] v']. simpl.
    destruct (single_dec sch a) as [Hs|Hs]; [|naive_solver]. split; [|naive_solver].
    intros [?|[Hf [Hg|Hn]]]; [by left| |by right].
    destruct (decide ((e', a') = (e, a))) as [[= -> ->]|Hne]; [|naive_solver].
    left. f_equal. by eapply HI. }
  assert (single_valued sch S2) as HI2.
  { intros e a v w Ha Hv Hw. apply Hpost in Hv, Hw.
    exact (post_single_valued sch tx S b _ HI Hpre e a v w Ha Hv Hw). }
  destruct (IH _ _ HI2 (fun f h Hf Hh => Hl f h (or_intror Hf) (or_intror Hh)) Hr')
    as (S1 & b' & H1 & Hr1 & Ht).
  exists S1, b'. split_and!; [|done|constructor; [apply Hpre|done]].
  intros f. rewrite H1, H2. simpl. split; [naive_solver|].
  intros [[<-|Hf]|[Hf Hn]]; [|by left|right; naive_solver].
  destruct (decide (g ∈ l)) as [Hg|Hg]; rewrite list_elem_of_In in Hg; [by left|right].
  split; [by left|]. intros (h & Hh & Hs & E). destruct Hg.
  rewrite (Hl g h); [done|by left|by right| |done]. by rewrite E.
Qed.

(** Operations on other entities leave a fact alone. *)
Definition on_entities (X : EntityId -> Prop) (o : ROp) : Prop :=
  match o with ROp.Add e _ _ | ROp.Retract e _ _ => X e | _ => False end.

Lemma run_elsewhere X S b os S' f :
  Forall (on_entities X) os -> ~ X f.1.1 -> run_spec sch tx S b os S' -> (S' f <-> S f).
Proof.
  intros Hos Hf Hr. induction Hr as [S S' b HS|S S' S'' b o os Hpre Hpost Hr IH]; [by rewrite HS|].
  apply Forall_cons in Hos as [Ho Hos]. rewrite IH, Hpost by done.
  destruct o as [e a v|e a v|e a old new|e]; simpl in *; [| |done..]; split.
  - intros [->|[? _]]; [by destruct Hf|done].
  - intros HS. right. split; [done|]. right. intros [_ E]. destruct Hf. by rewrite E.
  - by intros [? _].
  - intros HS. split; [done|]. intros ->. by destruct Hf.
Qed.

End ops.

(** ** Resolutions *)

Lemma position_Some {A} (p : A -> bool) l i :
  position p l = Some i -> exists x, l !! i = Some x /\ p x = true.
Proof.
  revert i. induction l as [|x l IH]; intros i; simpl; [done|].
  destruct (p x) eqn:E; [intros [= <-]; by exists x|].
  destruct (position p l) as [j|]; [|done]. intros [= <-]. by apply IH.
Qed.

(** A resolution takes the branch's side of [c]. *)
Definition overrides (rs : list Resolution) (c : Conflict) : Prop :=
  exists r, In r rs /\ answers r c = true /\ rs_take r = Take.Branch.

Definition accepts_parent (rs : list Resolution) (c : Conflict) : Prop :=
  exists r, In r rs /\ answers r c = true /\ rs_take r = Take.Parent.

Lemma resolve_loop rs cs r used :
  fold_left (resolve_conflict rs) cs (mk_resolved [] [] [] [], []) = (r, used) ->
  (outstanding r = [] -> forall c, In c cs ->
     In (conflict_unit c) (accepted r) \/
     (cf_overridable c = true /\ In (conflict_unit c) (overridden r))) /\
  (forall u, In u (accepted r) -> exists c, In c cs /\ conflict_unit c = u /\ accepts_parent rs c) /\
  (forall u, In u (overridden r) ->
     exists c, In c cs /\ conflict_unit c = u /\ cf_overridable c = true /\ overrides rs c).
Proof.
  revert r used. induction cs as [|c cs IH] using rev_ind; intros r used.
  { intros [= <- _]. split_and!; [by intros _ ? []|by intros ? []..]. }
  rewrite fold_left_app. destruct (fold_left _ cs _) as [r0 used0]. cbn [fold_left].
  destruct (IH _ _ eq_refl) as (Ho & Ha & Hv). clear IH. unfold resolve_conflict.
  assert (forall u, In u (accepted r0) ->
    exists d, In d (cs ++ [c]) /\ conflict_unit d = u /\ accepts_parent rs d) as Ha'.
  { intros u (d & ? & ?)%Ha. exists d. rewrite in_app_iff. auto. }
  assert (forall u, In u (overridden r0) -> exists d, In d (cs ++ [c]) /\ conflict_unit d = u /\
    cf_overridable d = true /\ overrides rs d) as Hv'.
  { intros u (d & ? & ?)%Hv. exists d. rewrite in_app_iff. auto. }
  assert (In c (cs ++ [c])) as Hc by (apply in_app_iff; right; by left).
  destruct (position _ rs) as [i|] eqn:Hi.
  2:{ intros [= <- _]. cbn [outstanding accepted overridden]. split_and!; [|done..].
      intros E. by apply app_eq_nil in E as [_ ?]. }
  apply position_Some in Hi as (x & Hx & Hans). rewrite Hx.
  pose proof (list_elem_of_lookup_2 _ _ _ Hx) as Hin. rewrite list_elem_of_In in Hin.
  destruct (rs_take x) eqn:Et; [|destruct (cf_overridable c) eqn:Eo]; intros [= <- _];
    cbn [outstanding accepted overridden]; [setoid_rewrite os_In_insert..|].
  - split_and!; [| |done].
    + intros E d [Hd|[<-|[]]]%in_app_iff; [|by left; left]. destruct (Ho E d Hd); tauto.
    + intros u [->|Hu]; [|by apply Ha']. exists c. split_and!; [done..|by exists x].
  - split_and!; [|done|].
    + intros E d [Hd|[<-|[]]]%in_app_iff; [|by right; split; [|left]]. destruct (Ho E d Hd); tauto.
    + intros u [->|Hu]; [|by apply Hv']. exists c. split_and!; [done..|by exists x].
  - split_and!; [|done..]. intros E. by apply app_eq_nil in E as [_ ?].
Qed.

Lemma resolve_spec rs cs :
  let r := resolve_conflicts cs rs in
  (outstanding r = [] -> forall c, In c cs ->
     In (conflict_unit c) (accepted r) \/
     (cf_overridable c = true /\ In (conflict_unit c) (overridden r))) /\
  (forall u, In u (accepted r) -> exists c, In c cs /\ conflict_unit c = u /\ accepts_parent rs c) /\
  (forall u, In u (overridden r) -> ~ In u (accepted r) /\
     exists c, In c cs /\ conflict_unit c = u /\ cf_overridable c = true /\ overrides rs c).
Proof.
  unfold resolve_conflicts. destruct (fold_left _ cs _) as [r used] eqn:E.
  destruct (resolve_loop _ _ _ _ E) as (Ho & Ha & Hv). cbn [outstanding accepted overridden].
  setoid_rewrite filter_In. setoid_rewrite negb_true_iff. setoid_rewrite <- not_true_iff_false.
  setoid_rewrite os_mem_In. split_and!; [|done|naive_solver].
  intros En c Hc. destruct (Ho En c Hc) as [?|[? ?]]; [by left|].
  destruct (os_mem (conflict_unit c) (accepted r)) eqn:Em; [left; by apply os_mem_In|right].
  split_and!; [done..|]. rewrite <- os_mem_In. by rewrite Em.
Qed.

(** ** The scan *)

Lemma pair_get_insert {V} (k k' : EntityId * AttrId) (v : V) m :
  om_get k' (om_insert k v m) = if bool_decide (k' = k) then Some v else om_get k' m.
Proof. case_bool_decide as E; [by rewrite E, om_get_insert_eq|by apply om_get_insert_ne]. Qed.

(** What [branch_pairs] holds for a pair of an attribute that is not cardinality-many. *)
Definition pair_word (l : list (Fact * bool)) (p : EntityId * AttrId)
    (x : option (option Value)) : Prop :=
  match x with
  | None => forall v b, ~ In ((p, v), b) l
  | Some None => (exists v, In ((p, v), false) l) /\ forall v, ~ In ((p, v), true) l
  | Some (Some v) => In ((p, v), true) l
  end.

Lemma pair_word_other l q v b p x :
  q <> p -> pair_word l p x -> pair_word (l ++ [((q, v), b)]) p x.
Proof.
  intros Hq. unfold pair_word.
  destruct x as [[w|]|]; setoid_rewrite in_app_iff; cbn [In]; naive_solver.
Qed.

Lemma pairs_loop sch l :
  om_wf (fold_left (pair_step sch) l []) /\
  (forall p, many sch p.2 = false -> pair_word l p (om_get p (fold_left (pair_step sch) l []))) /\
  (forall p, many sch p.2 = true -> om_get p (fold_left (pair_step sch) l []) = None).
Proof.
  induction l as [|[[[e a] v] b] l (Hwf & Hw & Hm)] using rev_ind.
  { split_and!; [constructor|by intros ? _ ? ? []|done]. }
  rewrite fold_left_app. cbn [fold_left pair_step]. set (m := fold_left _ l _) in *.
  destruct (many sch a) eqn:Ea.
  { split_and!; [done| |done]. intros p Hp. apply pair_word_other; [|by apply Hw].
    intros <-. simpl in Hp. congruence. }
  assert (forall x, om_wf (om_insert (e, a) x m) /\
    (forall p, many sch p.2 = true -> om_get p (om_insert (e, a) x m) = None)) as Hins.
  { intros x. split; [by apply om_insert_wf|]. intros p Hp. rewrite pair_get_insert.
    case_bool_decide as E; [subst; simpl in Hp; congruence|by apply Hm]. }
  assert (forall p m', (e, a) <> p -> many sch p.2 = false -> om_get p m' = om_get p m ->
    pair_word (l ++ [((e, a, v), b)]) p (om_get p m')) as Hother.
  { intros p m' Hne Hp ->. apply pair_word_other; [done|by apply Hw]. }
  assert (forall x p, (e, a) <> p -> om_get p (om_insert (e, a) x m) = om_get p m) as Hne.
  { intros x p Hp. rewrite pair_get_insert. by rewrite bool_decide_false by congruence. }
  specialize (Hw (e, a) Ea) as Hea.
  destruct b; [|destruct (om_get (e, a) m) as [x|] eqn:Ex].
  - split_and!; [apply Hins| |apply Hins]. intros p Hp.
    destruct (decide ((e, a) = p)) as [<-|Hp']; [|by apply Hother; auto].
    rewrite om_get_insert_eq. cbn. apply in_app_iff. right. by left.
  - split_and!; [done| |done]. intros p Hp.
    destruct (decide ((e, a) = p)) as [<-|Hp']; [|by apply Hother].
    rewrite Ex. unfold pair_word in *.
    destruct x as [w|]; setoid_rewrite in_app_iff; cbn [In]; naive_solver.
  - split_and!; [apply Hins| |apply Hins]. intros p Hp.
    destruct (decide ((e, a) = p)) as [<-|Hp']; [|by apply Hother; auto].
    rewrite om_get_insert_eq. unfold pair_word in *. setoid_rewrite in_app_iff. cbn [In].
    naive_solver.
Qed.

Lemma novelty_facts_true n f : In (f, true) (novelty_facts n) <-> In f (asserts n).
Proof.
  unfold novelty_facts. rewrite in_app_iff, !in_map_iff. split; [|intros H; right; by exists f].
  intros [(g & E & _)|(g & E & Hg)]; [done|by injection E as <-].
Qed.

Lemma novelty_facts_false n f : In (f, false) (novelty_facts n) <-> In f (retracts n).
Proof.
  unfold novelty_facts. rewrite in_app_iff, !in_map_iff. split; [|intros H; left; by exists f].
  intros [(g & E & Hg)|(g & E & _)]; [by injection E as <-|done].
Qed.

Lemma drifted_In d p :
  In p (drifted_pairs d) <-> exists v, In (p, v) (asserts d) \/ In (p, v) (retracts d).
Proof.
  unfold drifted_pairs. rewrite os_of_list_In, in_map_iff. split.
  - intros ([[q v] b] & <- & H). exists v. simpl.
    destruct b; [left; by apply novelty_facts_true|right; by apply novelty_facts_false].
  - intros (v & [H|H]).
    + exists ((p, v), true). split; [done|by apply novelty_facts_true].
    + exists ((p, v), false). split; [done|by apply novelty_facts_false].
Qed.

(** [n] is the net change from [S] to [S'], transaction entities apart. *)
Definition net (S S' : facts) (n : Novelty) : Prop := forall f,
  (In f (asserts n) <-> ~ on_tx f /\ ~ S f /\ S' f) /\
  (In f (retracts n) <-> ~ on_tx f /\ S f /\ ~ S' f).

(** The branch wrote a fact of the unit. *)
Definition wrote (sch : Schema) (n : Novelty) (u : Unit) : Prop :=
  exists f, (In f (asserts n) \/ In f (retracts n)) /\ fact_unit sch f = u.

Lemma fact_unit_pair sch f g :
  many sch f.1.2 = false -> fact_unit sch g = fact_unit sch f <-> g.1 = f.1.
Proof.
  destruct f as [[e a] v], g as [[e' a'] w]. unfold fact_unit. simpl. intros Hm. split.
  - intros [= -> -> _]. done.
  - intros [= -> ->]. by rewrite Hm.
Qed.

Lemma fact_unit_many sch f g :
  many sch f.1.2 = true -> fact_unit sch g = fact_unit sch f <-> g = f.
Proof.
  destruct f as [[e a] v], g as [[e' a'] w]. unfold fact_unit. simpl. intros Hm. split; [|by intros [= -> -> ->]].
  intros [= -> -> E]. rewrite Hm in E. by injection E as ->.
Qed.

Section merge.
Context {R : Rpds} {HR : RpdsLaws R}.
Implicit Types parent : Db.

Lemma scan_In parent n d c :
  In c (scan parent n d) <->
  (exists p, In p (branch_pairs (db_schema parent) n) /\
     pair_conflict parent (drifted_pairs d) p = Some c) \/
  (exists f, In f (asserts n) /\ In c (assert_conflicts parent (emptied_entities parent d) f)).
Proof.
  unfold scan. rewrite <- !list_elem_of_In, sort_by_perm, !list_elem_of_In, in_app_iff.
  by rewrite In_filter_map, in_flat_map.
Qed.

Lemma scan_pair parent n d e a x :
  om_get (e, a) (branch_pairs (db_schema parent) n) = Some x ->
  In (e, a) (drifted_pairs d) -> head (values parent e a) <> x ->
  exists c, In c (scan parent n d) /\ conflict_unit c = (e, (a, Scope.Pair)) /\
    cf_overridable c = is_some x /\ cf_parent c = head (values parent e a).
Proof.
  intros Hx Hd Hh. eexists. split_and!.
  - apply scan_In. left. exists ((e, a), x). split; [by apply om_get_In|].
    unfold pair_conflict. rewrite (proj2 (os_mem_In _ _) Hd), bool_decide_false by done. done.
  - done.
  - by destruct x.
  - done.
Qed.

Lemma assert_conflicts_fixed parent emptied f c :
  In c (assert_conflicts parent emptied f) -> cf_overridable c = false.
Proof.
  destruct f as [[e a] v]. unfold assert_conflicts. rewrite in_app_iff. intros [H|H].
  - destruct (is_some_and _ _); [|done]. destruct (lookup parent a v) as [h|]; [|done].
    destruct (negb _); [|done]. by destruct H as [<-|[]].
  - destruct (match v with Value.Ref _ => _ | _ => _ end); [|done]. by destruct H as [<-|[]].
Qed.

Lemma scan_overridable parent n d c :
  In c (scan parent n d) -> cf_overridable c = true ->
  exists e a v, conflict_unit c = (e, (a, Scope.Pair)) /\
    om_get (e, a) (branch_pairs (db_schema parent) n) = Some (Some v) /\
    cf_parent c = head (values parent e a).
Proof.
  intros [(((e, a), x) & Hp & Hc)|(f & _ & Hc)]%scan_In Ho.
  2:{ apply assert_conflicts_fixed in Hc. congruence. }
  unfold pair_conflict in Hc. destruct (_ || _); [done|]. injection Hc as <-.
  apply om_In_get in Hp; [|apply pairs_loop].
  destruct x as [v|]; [|done]. exists e, a, v. done.
Qed.

(** Both sides of a merge against [parent]: the branch holds [B], both started from [S0]. *)
Record merge_ok parent (S0 B : facts) (n d : Novelty) : Prop := {
  mg_ready : ready parent;
  mg_branch : net S0 B n;
  mg_drift : net S0 (facts_of parent) d;
  mg_dec : forall f, S0 f \/ ~ S0 f;
  mg_base_single : single_valued (db_schema parent) S0;
  mg_branch_single : single_valued (db_schema parent) B;
  mg_parent_single : single_valued (db_schema parent) (facts_of parent);
  mg_wf : forall f, wrote (db_schema parent) n (fact_unit (db_schema parent) f) ->
    u64 f.1.1 /\ u64 f.1.2;
  mg_schema : forall f, wrote (db_schema parent) n (fact_unit (db_schema parent) f) ->
    is_Some (schema_get (db_schema parent) f.1.2) }.

Lemma written_single parent S0 B n d f : merge_ok parent S0 B n d ->
  wrote (db_schema parent) n (fact_unit (db_schema parent) f) -> many (db_schema parent) f.1.2 = false -> single (db_schema parent) f.1.2.
Proof.
  intros Hm Hw. destruct (mg_schema _ _ _ _ _ Hm f Hw) as [attr Ha]. unfold many, single. rewrite Ha. simpl.
  intros Hc. exists attr. split; [done|]. by destruct (cardinality attr).
Qed.

Section outcome.
Context (parent : Db) (S0 B : facts) (n d : Novelty) (rs : list Resolution).
Context (Hm : merge_ok parent S0 B n d).
Notation sch := (db_schema parent).
Notation r := (resolve_conflicts (scan parent n d) rs).
Notation merged := (apply_resolved n r parent).
Context (Hout : outstanding r = []).

Lemma merged_asserts f :
  In f (asserts merged) <-> In f (asserts n) /\ ~ In (fact_unit sch f) (accepted r).
Proof.
  unfold apply_resolved. cbn [asserts]. rewrite filter_In, negb_true_iff, <- not_true_iff_false.
  by rewrite os_mem_In.
Qed.

Lemma merged_retracts f :
  In f (retracts merged) <-> In f (retracts n) /\ ~ In (fact_unit sch f) (accepted r) /\
    ~ In (fact_unit sch f) (overridden r).
Proof.
  unfold apply_resolved. cbn [retracts]. rewrite filter_In, andb_true_iff, !negb_true_iff.
  by rewrite <- !not_true_iff_false, !os_mem_In.
Qed.

Lemma pairs_word p :
  many sch p.2 = false -> pair_word (novelty_facts n) p (om_get p (branch_pairs sch n)).
Proof. apply pairs_loop. Qed.

(** Only a pair the branch gave a value is overridden. *)
Lemma overridden_asserts u :
  In u (overridden r) ->
  exists e a v, u = (e, (a, Scope.Pair)) /\ many sch a = false /\ In (e, a, v) (asserts n).
Proof.
  intros Hu. destruct (resolve_spec rs (scan parent n d)) as (_ & _ & Hv).
  destruct (Hv u Hu) as (_ & c & Hc & <- & Ho & _).
  destruct (scan_overridable _ _ _ _ Hc Ho) as (e & a & v & Eu & Eg & _).
  exists e, a, v. destruct (many sch a) eqn:Ea.
  - unfold branch_pairs in Eg.
    by rewrite (proj2 (proj2 (pairs_loop sch (novelty_facts n))) (e, a) Ea) in Eg.
  - split_and!; [done..|]. pose proof (pairs_word (e, a) Ea) as Hw.
    rewrite Eg in Hw. by apply novelty_facts_true.
Qed.

(** A pair the branch only cleared is cleared of all the parent holds there. *)
Lemma cleared_pair e a x w :
  single sch a -> many sch a = false -> In (e, a, x) (retracts n) ->
  (forall v, ~ In (e, a, v) (asserts n)) -> ~ In (fact_unit sch (e, a, x)) (accepted r) ->
  facts_of parent (e, a, w) -> In (e, a, w) (retracts merged).
Proof.
  intros Hs Ha Hx Hno Hacc Hw. destruct Hm as [Hr Hb Hd Hdec Hs0 _ _ Hwf _].
  assert (fact_unit sch (e, a, w) = fact_unit sch (e, a, x)) as Eu by (by apply fact_unit_pair).
  assert (fact_unit sch (e, a, x) = (e, (a, Scope.Pair))) as Ex by (unfold fact_unit; simpl; by rewrite Ha).
  destruct (Hwf (e, a, x)) as [He Hae]; [exists (e, a, x); tauto|].
  assert (om_get (e, a) (branch_pairs sch n) = Some None) as Hp.
  { pose proof (pairs_word (e, a) Ha) as H. destruct (om_get _ _) as [[v|]|]; simpl in H; [|done|].
    - apply novelty_facts_true in H. by destruct (Hno v).
    - destruct (H x false). by apply novelty_facts_false. }
  assert (head (values parent e a) <> None) as Hh.
  { pose proof (proj2 (values_has parent e a w (rd_ok _ Hr) (rd_view _ Hr) He Hae) Hw) as Hin.
    by destruct (values parent e a). }
  assert (~ In (e, a) (drifted_pairs d)) as Hnd.
  { intros Hdr. destruct (scan_pair parent n d e a None Hp Hdr Hh) as (c & Hc & Ec & Eo & _).
    destruct (resolve_spec rs (scan parent n d)) as (Hall & _ & _).
    destruct (Hall Hout c Hc) as [H|[H _]]; [|by rewrite Eo in H].
    rewrite Ec, <- Ex in H. done. }
  apply Hb in Hx as Hx'. destruct Hx' as (Htx & Hx0 & _).
  assert (S0 (e, a, w)) as Hw0.
  { destruct (Hdec (e, a, w)) as [?|H0]; [done|]. destruct Hnd. apply drifted_In. exists w. left.
    apply Hd. split_and!; [exact Htx|done..]. }
  rewrite (Hs0 e a w x Hs Hw0 Hx0). apply merged_retracts. split_and!; [done..|].
  intros (e' & a' & v & E & _ & Hv)%overridden_asserts. rewrite Ex in E. injection E as <- <-.
  by destruct (Hno v).
Qed.

(** The outcome on one member of a cardinality-many attribute. *)
Lemma unit_many f :
  many sch f.1.2 = true -> wrote sch n (fact_unit sch f) -> ~ In (fact_unit sch f) (accepted r) ->
  (In f (asserts merged) \/ ((facts_of parent f /\ ~ In f (retracts merged)) /\
     ~ exists g, In g (asserts merged) /\ single sch g.1.2 /\ f.1 = g.1)) <-> B f.
Proof.
  intros Ha (g & Hg & E) Hacc. apply fact_unit_many in E as ->; [|done].
  destruct Hg as [Hg|Hg]; apply (mg_branch _ _ _ _ _ Hm) in Hg as Hb.
  - destruct Hb as (_ & _ & Hb). split; [done|]. intros _. left. by apply merged_asserts.
  - destruct Hb as (_ & Hs0 & Hb). split; [|done]. intros [Hin|[[_ Hin] _]].
    + apply merged_asserts in Hin as [Hin _]. by apply (mg_branch _ _ _ _ _ Hm) in Hin as (_ & ? & _).
    + destruct Hin. apply merged_retracts. split_and!; [done..|].
      intros (e & a & v & E & Hma & _)%overridden_asserts. unfold fact_unit in E.
      injection E as _ Ea _. congruence.
Qed.

(** The outcome on a pair: the branch's value, or nothing where the branch cleared it. *)
Lemma unit_pair f :
  many sch f.1.2 = false -> wrote sch n (fact_unit sch f) -> ~ In (fact_unit sch f) (accepted r) ->
  single sch f.1.2 ->
  (In f (asserts merged) \/ ((facts_of parent f /\ ~ In f (retracts merged)) /\
     ~ exists g, In g (asserts merged) /\ single sch g.1.2 /\ f.1 = g.1)) <-> B f.
Proof.
  destruct f as [[e a] v]. cbn [fst snd]. intros Ha Hw Hacc Hs.
  assert (forall w, fact_unit sch (e, a, w) = fact_unit sch (e, a, v)) as Eu.
  { intros w. by apply fact_unit_pair. }
  destruct (existsb (fun g : Fact => bool_decide (g.1 = (e, a))) (asserts n)) eqn:Ex.
  - apply existsb_exists in Ex as ([[e' a'] w] & Hg & E). apply bool_decide_eq_true in E.
    simpl in E. injection E as -> ->.
    assert (In (e, a, w) (asserts merged)) as Hgm by (apply merged_asserts; by rewrite Eu).
    apply (mg_branch _ _ _ _ _ Hm) in Hg as (_ & _ & Hb). split.
    + intros [Hf|[_ Hn]]; [|destruct Hn; by exists (e, a, w)].
      apply merged_asserts in Hf as [Hf _]. by apply (mg_branch _ _ _ _ _ Hm) in Hf as (_ & _ & ?).
    + intros Hf. left. by rewrite (mg_branch_single _ _ _ _ _ Hm e a v w Hs Hf Hb).
  - assert (forall w, ~ In (e, a, w) (asserts n)) as Hno.
    { intros w Hw'. apply not_true_iff_false in Ex. destruct Ex. apply existsb_exists.
      exists (e, a, w). split; [done|]. by apply bool_decide_eq_true. }
    destruct Hw as ([[e' a'] x] & Hx & E). apply fact_unit_pair in E; [|done]. simpl in E.
    injection E as -> ->. destruct Hx as [Hx|Hx]; [by destruct (Hno x)|].
    split.
    + intros [Hf|[[Hf Hn] _]]; [apply merged_asserts in Hf as [Hf _]; by destruct (Hno v)|].
      destruct Hn. eapply cleared_pair; [done..|by rewrite Eu|done].
    + intros Hf. apply (mg_branch _ _ _ _ _ Hm) in Hx as (Htx & Hx0 & Hxb).
      destruct (mg_dec _ _ _ _ _ Hm (e, a, v)) as [Hv|Hv].
      * by rewrite (mg_base_single _ _ _ _ _ Hm e a v x Hs Hv Hx0) in Hf.
      * destruct (Hno v). by apply (mg_branch _ _ _ _ _ Hm).
Qed.

(** Every unit ends as the branch has it where the branch wrote it and no resolution gave
    it up, and as the parent has it elsewhere. *)
Lemma merged_units tx b X tail S' f :
  run_spec sch tx (facts_of parent) b
    (map retract_rop (retracts merged) ++ map add_rop (asserts merged) ++ tail) S' ->
  Forall (on_entities X) tail -> ~ X f.1.1 ->
  (wrote sch n (fact_unit sch f) -> ~ In (fact_unit sch f) (accepted r) -> (S' f <-> B f)) /\
  (~ wrote sch n (fact_unit sch f) \/ In (fact_unit sch f) (accepted r) ->
     (S' f <-> facts_of parent f)).
Proof.
  intros Hrun Ht HX.
  apply run_retracts in Hrun as (S1 & H1 & Hrun & Htr).
  apply run_adds in Hrun as (S2 & b' & H2 & Hrun & Hta).
  2:{ intros e a v w Ha Hv Hw. apply H1 in Hv as [Hv _], Hw as [Hw _].
      by eapply (mg_parent_single _ _ _ _ _ Hm). }
  2:{ intros [[e a] v] [[e' a'] w] [Hf _]%merged_asserts [Hg _]%merged_asserts Hs. simpl.
      intros [= <- <-]. f_equal. apply (mg_branch _ _ _ _ _ Hm) in Hf as (_ & _ & Hf), Hg as (_ & _ & Hg).
      by eapply (mg_branch_single _ _ _ _ _ Hm). }
  rewrite (run_elsewhere _ _ X _ _ _ _ f Ht HX Hrun), H2, H1. clear H1 H2 Hrun Ht HX.
  split.
  - intros Hw Hacc. destruct (many sch f.1.2) eqn:Ha; [by apply unit_many|].
    apply unit_pair; [done..|]. by eapply written_single.
  - intros Hno.
    assert (forall g, fact_unit sch g = fact_unit sch f ->
      ~ In g (asserts merged) /\ ~ In g (retracts merged)) as Hg.
    { intros g Eg. rewrite merged_asserts, merged_retracts, Eg. destruct Hno as [Hno|?]; [|tauto].
      split; intros [Hin _]; destruct Hno; exists g; tauto. }
    destruct (Hg f eq_refl) as [Hfa Hfr]. split; [tauto|]. intros Hf. right. split; [done|].
    intros (g & Hin & Hs & E). destruct (Hg g) as [Hga _]; [|done].
    apply fact_unit_pair; [|done]. destruct (many sch f.1.2) eqn:Ef; [|done].
    apply many_single in Ef. by rewrite E in Ef.
Qed.

End outcome.

(** ** The transaction *)

Lemma expand_ops (ops : list TxOp) : expand (map TxItem.Op ops) = ops.
Proof. induction ops as [|o ops IH]; [done|]. unfold expand in *. simpl. by rewrite IH. Qed.

Definition merge_ops (entry : SagaEntry) (saga : Z) (committed : KwId) (n : Novelty) : list TxOp :=
  expand (commit_items entry saga committed n).

Lemma expand_merge entry saga committed n :
  expand (merge_items entry saga committed n) =
  map (fun f : Fact => TxOp.Retract (EntityRef.Id f.1.1) f.1.2 f.2) (retracts n) ++
  map (fun f : Fact => TxOp.Add (EntityRef.Id f.1.1) f.1.2 f.2) (asserts n) ++
  merge_ops entry saga committed n.
Proof.
  unfold merge_items, novelty_items, merge_ops, expand. rewrite !flat_map_app, <- app_assoc.
  f_equal; [|f_equal].
  - rewrite <- (map_map (fun f : Fact => TxOp.Retract _ _ _) TxItem.Op). apply expand_ops.
  - rewrite <- (map_map (fun f : Fact => TxOp.Add _ _ _) TxItem.Op). apply expand_ops.
Qed.

Lemma tx_tempid db items next e :
  input_ok db items next -> om_get TX_TEMPID (tempids_of db items next) = Some e -> e = next_tx db.
Proof.
  intros Hin He. destruct (tempids_of_spec db items next Hin) as ((k & Hal & _) & _).
  by destruct (al_from _ _ _ _ _ Hal _ _ He) as [[_ ?]|[[? _]|[? _]]].
Qed.

Lemma resolved_on X db ids ops os :
  Forall2 (fun op o => resolve_op db ids op = Ok o) ops os ->
  (forall op o, In op ops -> resolve_op db ids op = Ok o -> on_entities X o) ->
  Forall (on_entities X) os.
Proof.
  induction 1 as [|op o ops os Ho Hos IH]; intros H; constructor.
  - apply (H op); [by left|done].
  - apply IH. intros. eapply H; [by right|done].
Qed.

(** The operations that commit the saga write its entry and the transaction only. *)
Lemma commit_ops_on db items next entry saga committed n os :
  input_ok db items next ->
  Forall2 (fun op o => resolve_op db (tempids_of db items next) op = Ok o)
    (merge_ops entry saga committed n) os ->
  Forall (on_entities (fun e => e = s_entity entry \/ e = next_tx db)) os.
Proof.
  intros Hin Hos. eapply resolved_on; [exact Hos|]. clear Hos os.
  unfold merge_ops, commit_items. cbn [app expand flat_map expand_item].
  intros op o [<-|[<-|[<-|[<-|Hop]]]]; cbn [resolve_op resolve].
  - intros [= <-]. by left.
  - destruct (om_get _ _) as [t|]; [|done]. intros [= <-]. by left.
  - intros [= <-]. by left.
  - destruct (om_get _ _) as [t|] eqn:Et; [|done]. intros [= <-]. right. by eapply tx_tempid.
  - destruct (s_conflict_report entry); [|done]. destruct Hop as [<-|[]]. intros [= <-]. by left.
Qed.

Lemma resolved_retracts db ids fs os :
  Forall2 (fun op o => resolve_op db ids op = Ok o)
    (map (fun f : Fact => TxOp.Retract (EntityRef.Id f.1.1) f.1.2 f.2) fs) os ->
  os = map retract_rop fs.
Proof.
  revert os. induction fs as [|f fs IH]; intros os H; inversion H as [|? ? ? ? E H']; subst; [done|].
  injection E as <-. simpl. by rewrite (IH _ H').
Qed.

Lemma resolved_adds db ids fs os :
  Forall2 (fun op o => resolve_op db ids op = Ok o)
    (map (fun f : Fact => TxOp.Add (EntityRef.Id f.1.1) f.1.2 f.2) fs) os ->
  os = map add_rop fs.
Proof.
  revert os. induction fs as [|f fs IH]; intros os H; inversion H as [|? ? ? ? E H']; subst; [done|].
  injection E as <-. simpl. by rewrite (IH _ H').
Qed.

(** C20. What a merge leaves: when every conflict is answered and the merge transaction is
    accepted, each unit (a cardinality-one pair, or one member of a cardinality-many
    attribute) ends as the branch has it where the branch wrote it and no resolution
    accepted the parent's side, and exactly as the parent has it otherwise.  The saga's own
    entry and the merge transaction's entity are written beside the novelty. *)
Theorem merge_outcome parent S0 B n d rs entry saga committed next p f :
  merge_ok parent S0 B n d ->
  let r := resolve_conflicts (scan parent n d) rs in
  let items := merge_items entry saga committed (apply_resolved n r parent) in
  let u := fact_unit (db_schema parent) f in
  outstanding r = [] -> input_ok parent items next ->
  prepare parent items (next_tx parent) next = Ok p ->
  f.1.1 <> s_entity entry -> f.1.1 <> next_tx parent ->
  (wrote (db_schema parent) n u -> ~ In u (accepted r) -> (facts_of (after parent p) f <-> B f)) /\
  (~ wrote (db_schema parent) n u \/ In u (accepted r) ->
     (facts_of (after parent p) f <-> facts_of parent f)).
Proof.
  intros Hm r items u Hout Hin Hp He Htx.
  destruct (prepare_run parent items next p Hin Hp) as (os & Hos & Hrun).
  unfold resolved in Hos. unfold items at 2 in Hos. rewrite expand_merge in Hos.
  apply Forall2_app_inv_l in Hos as (os1 & os' & H1 & Hos & ->).
  apply Forall2_app_inv_l in Hos as (os2 & os3 & H2 & H3 & ->).
  apply resolved_retracts in H1 as ->. apply resolved_adds in H2 as ->.
  apply commit_ops_on in H3; [|done].
  eapply merged_units; [exact Hm|exact Hout|exact Hrun|exact H3|]. intros [?|?]; done.
Qed.

(** ** Both sides of a unit *)

(** What the parent holds in a pair is what the scan reads there. *)
Lemma held_spec parent S0 B n d e a w : merge_ok parent S0 B n d -> single (db_schema parent) a -> u64 e -> u64 a ->
  head (values parent e a) = Some w <-> facts_of parent (e, a, w).
Proof.
  intros Hm Hs He Ha. pose proof (mg_ready _ _ _ _ _ Hm) as Hr.
  pose proof (fun v => values_has parent e a v (rd_ok _ Hr) (rd_view _ Hr) He Ha) as Hv. split.
  - intros Hh. apply Hv. destruct (values parent e a); [done|]. injection Hh as ->. by left.
  - intros Hw. pose proof (proj2 (Hv w) Hw) as Hin. destruct (values parent e a) as [|x l] eqn:Ev; [done|]. simpl. f_equal.
    apply (mg_parent_single _ _ _ _ _ Hm e a x w Hs); [|done]. apply Hv. by left.
Qed.

(** What the branch holds in a pair it wrote is what [branch_pairs] says. *)
Lemma word_spec parent S0 B n d e a y w : merge_ok parent S0 B n d -> single (db_schema parent) a -> many (db_schema parent) a = false ->
  om_get (e, a) (branch_pairs (db_schema parent) n) = Some y -> y = Some w <-> B (e, a, w).
Proof.
  intros Hm Hs Ha Hy. pose proof (pairs_word parent n (e, a) Ha) as Hp. rewrite Hy in Hp.
  pose proof (mg_branch _ _ _ _ _ Hm) as Hb. destruct y as [v|]; cbn [pair_word] in Hp.
  - apply novelty_facts_true, Hb in Hp as (_ & _ & Hv). split; [by intros [= <-]|]. intros Hw. f_equal.
    by apply (mg_branch_single _ _ _ _ _ Hm e a).
  - destruct Hp as [(x & Hx) Hno]. apply novelty_facts_false, Hb in Hx as (Htx & Hx0 & Hxb). split; [done|]. intros Hw.
    destruct (mg_dec _ _ _ _ _ Hm (e, a, w)) as [Hw0|Hw0].
    + by rewrite (mg_base_single _ _ _ _ _ Hm e a w x Hs Hw0 Hx0) in Hw.
    + destruct (Hno w). apply novelty_facts_true, Hb. done.
Qed.

(** [f] is a fact of one of the two only. *)
Definition changed (S S' : facts) (f : Fact) : Prop := (S f /\ ~ S' f) \/ (~ S f /\ S' f).

(** A member of a cardinality-many attribute that both sides changed is the same on both. *)
Lemma changed_member parent S0 B n d f : merge_ok parent S0 B n d -> many (db_schema parent) f.1.2 = true ->
  wrote (db_schema parent) n (fact_unit (db_schema parent) f) -> changed S0 (facts_of parent) f ->
  forall g, fact_unit (db_schema parent) g = fact_unit (db_schema parent) f -> (B g <-> facts_of parent g).
Proof.
  intros Hm Ha (h & Hh & E) Hc g Eg. apply fact_unit_many in E as ->; [|done]. apply fact_unit_many in Eg as ->; [|done].
  destruct Hh as [Hh|Hh]; apply (mg_branch _ _ _ _ _ Hm) in Hh; unfold changed in Hc; tauto.
Qed.

(** An override names what the parent holds. *)
Lemma overridden_names parent n d rs e a : In (e, (a, Scope.Pair)) (overridden (resolve_conflicts (scan parent n d) rs)) ->
  exists x, In x rs /\ rs_take x = Take.Branch /\ (rs_entity x, (rs_attribute x, rs_scope x)) = (e, (a, Scope.Pair)) /\
    rs_parent x = head (values parent e a).
Proof.
  intros H. destruct (resolve_spec rs (scan parent n d)) as (_ & _ & Hov).
  destruct (Hov _ H) as (_ & c & Hc & Ec & Ho & z & Hz & Hans & Ht).
  destruct (scan_overridable _ _ _ _ Hc Ho) as (e1 & a1 & v1 & Eq & _ & Hpar). rewrite Ec in Eq. injection Eq as <- <-.
  unfold answers in Hans. rewrite !andb_true_iff, !bool_decide_eq_true in Hans. injection Ec as E1 E2 E3.
  exists z. destruct Hans as [[[? ?] ?] ?]. split_and!; [done|done| |congruence]. congruence.
Qed.

(** C21. A merge loses no update of the parent silently. Where both sides changed a unit
    since the branch started (the value of a cardinality-one pair, set, replaced or
    retracted, or one member of a cardinality-many attribute) and every conflict is
    answered, the two sides hold the same there, or the branch's write is dropped, or a
    resolution that names what the parent holds there now, nothing included, overrides it. *)
Theorem merge_no_lost_update parent S0 B n d rs f :
  merge_ok parent S0 B n d ->
  let sch := db_schema parent in
  let r := resolve_conflicts (scan parent n d) rs in
  let u := fact_unit sch f in
  outstanding r = [] -> wrote sch n u -> changed S0 (facts_of parent) f ->
  (forall g, fact_unit sch g = u -> (B g <-> facts_of parent g)) \/
  In u (accepted r) \/
  (In u (overridden r) /\ exists x, In x rs /\ rs_take x = Take.Branch /\
     (rs_entity x, (rs_attribute x, rs_scope x)) = u /\ forall w, rs_parent x = Some w <-> facts_of parent (f.1, w)).
Proof.
  destruct f as [[e a] v]. intros Hm sch r u Hout Hw Hc. destruct (many sch a) eqn:Ha; [left; by eapply changed_member|].
  assert (Hs : single sch a) by (exact (written_single _ _ _ _ _ (e, a, v) Hm Hw Ha)).
  destruct (mg_wf _ _ _ _ _ Hm (e, a, v) Hw) as [He Hae]. cbn [fst snd] in He, Hae.
  assert (Eu : u = (e, (a, Scope.Pair))) by (unfold u, fact_unit; simpl; by rewrite Ha).
  pose proof (fun w => held_spec parent S0 B n d e a w Hm Hs He Hae) as Hheld.
  destruct Hw as ([[e' a'] x] & Hx & E). apply fact_unit_pair in E; [|done]. simpl in E. injection E as -> ->.
  assert (exists y, om_get (e, a) (branch_pairs sch n) = Some y) as [y Hy].
  { pose proof (pairs_word parent n (e, a) Ha) as Hp. fold sch in Hp. destruct (om_get _ _) as [y|]; [by exists y|]. exfalso.
    destruct Hx as [Hx|Hx]; [apply novelty_facts_true in Hx|apply novelty_facts_false in Hx]; by apply Hp in Hx. }
  destruct (decide (head (values parent e a) = y)) as [Eh|Hne].
  { left. intros [[e1 a1] w] Eg. apply fact_unit_pair in Eg; [|done]. simpl in Eg. injection Eg as -> ->.
    by rewrite <- Hheld, <- (word_spec parent S0 B n d e a y w Hm Hs Ha Hy), Eh. }
  right. assert (~ on_tx (e, a, v)) as Htx by (destruct Hx as [Hx|Hx]; by apply (mg_branch _ _ _ _ _ Hm) in Hx as [? _]).
  destruct (scan_pair parent n d e a y Hy) as (c & Hin & Ec & _); [|done|].
  { apply drifted_In. exists v. destruct Hc as [Hc|Hc]; [right|left]; by apply (mg_drift _ _ _ _ _ Hm). }
  destruct (resolve_spec rs (scan parent n d)) as (Hall & _). destruct (Hall Hout c Hin) as [H|[_ H]]; rewrite Ec, <- Eu in H; [by left|right].
  split; [done|]. rewrite Eu in *. destruct (overridden_names _ _ _ _ _ _ H) as (z & Hz & Ht & Ez & Hpar).
  exists z. split_and!; [done|done|done|]. intros w. by rewrite Hpar.
Qed.

(** What a branch hands to a merge is the net effect of its steps: for a database whose
    log holds [l1] up to [t] and after it [l2], each datom of which changed what was live,
    squashing the datoms recorded since [t] gives as assertions exactly the facts live now
    and not at [t], and as retractions those live at [t] and not now, transaction entities
    apart. *)
Theorem squash_net db t l1 l2 f :
  recorded_datoms db = l1 ++ l2 ->
  Forall (fun x => sequence (d_tx x) <= t) l1 -> Forall (fun x => t < sequence (d_tx x)) l2 ->
  effective l1 l2 ->
  let n := squash (recorded_since db t) in
  (In f (asserts n) <-> ~ on_tx f /\ ~ has l1 f /\ facts_of db f) /\
  (In f (retracts n) <-> ~ on_tx f /\ has l1 f /\ ~ facts_of db f).
Proof.
  intros E H1 H2 He n. unfold n, facts_of. rewrite E.
  assert (recorded_since db t = l2) as ->; [|by apply squash_spec].
  apply (recorded_since_spec db t l1 l2 E).
  - eapply Forall_impl; [exact H1|]. intros x Hx. by apply Z.ltb_ge.
  - eapply Forall_impl; [exact H2|]. intros x Hx. by apply Z.ltb_lt.
Qed.

End merge.

(** ** Names *)

(** [f'] says in the naming [parent] what [f] says in the naming [branch]. *)
Definition renamed (branch parent : KeywordInterner) (f f' : Fact) : Prop :=
  f'.1 = f.1 /\
  match f.2 with
  | Value.Keyword id => exists id' k, f'.2 = Value.Keyword id' /\
      Keyword.resolve branch id = Some k /\ Keyword.resolve parent id' = Some k
  | v => f'.2 = v
  end.

Definition extends_names (i i' : KeywordInterner) : Prop :=
  forall id k, Keyword.resolve i id = Some k -> Keyword.resolve i' id = Some k.

Lemma renamed_extends branch i i' f f' :
  extends_names i i' -> renamed branch i f f' -> renamed branch i' f f'.
Proof.
  intros Hi [H1 H2]. split; [done|]. destruct (f.2); try done.
  destruct H2 as (id' & k & ? & ? & ?). exists id', k. auto.
Qed.

Lemma intern_next i k : next (intern i k).2 <= next i + 1.
Proof. unfold intern. destruct (om_get k (by_keyword i)); simpl; lia. Qed.

Lemma translate_fact_spec branch i f f' i' :
  interner_wf i -> next i < FIRST_LOCAL_KW_ID -> translate_fact branch i f = Ok (f', i') ->
  interner_wf i' /\ next i' <= next i + 1 /\ extends_names i i' /\ renamed branch i' f f'.
Proof.
  intros Hwf Hn. destruct f as [p v]. unfold translate_fact, renamed. cbn [fst snd].
  destruct v; try (intros [= <- <-]; split_and!; [done|lia|by intros ? ?|done|done]).
  intros (k & Hk & E)%bind_ok. destruct (Keyword.resolve branch id) as [k'|] eqn:Ek; [|done].
  injection Hk as ->. pose proof (intern_wf i k Hwf Hn). pose proof (intern_next i k).
  pose proof (intern_resolves i k Hwf Hn). pose proof (intern_resolve_stable i k) as Hst.
  destruct (intern i k) as [id' j]. injection E as <- <-. cbn [fst snd] in *.
  split_and!; [done|done| |done|]; [by intros ? ?; apply Hst|]. by exists id', k.
Qed.

Lemma translate_facts_spec branch i fs out out' i' :
  interner_wf i -> next i + Z.of_nat (length fs) <= FIRST_LOCAL_KW_ID ->
  translate_facts branch i fs out = Ok (out', i') ->
  interner_wf i' /\ next i' <= next i + Z.of_nat (length fs) /\ extends_names i i' /\
  (forall f', In f' out' -> In f' out \/ exists f, In f fs /\ renamed branch i' f f') /\
  (forall f', In f' out -> In f' out') /\
  (forall f, In f fs -> exists f', In f' out' /\ renamed branch i' f f').
Proof.
  revert i out. induction fs as [|f fs IH]; intros i out Hwf Hn; cbn [translate_facts length] in *.
  { intros [= <- <-]. split_and!; [done|lia|by intros ? ?|by left|done|by intros ? []]. }
  intros ([f' j] & Hf & Hrest)%bind_ok.
  destruct (translate_fact_spec branch i f f' j Hwf) as (Hj & Hnj & Hij & Hren); [lia|done|].
  destruct (IH j _ Hj ltac:(lia) Hrest) as (Hi' & Hni & Hji & Hfrom & Hkeep & Hto).
  assert (renamed branch i' f f') as Hf' by (by eapply renamed_extends).
  split_and!; [done|lia|by intros ? ? ?; apply Hji, Hij| | |].
  - intros g [Hg|(h & Hh & ?)]%Hfrom; [|right; exists h; split; [by right|done]].
    apply os_In_insert in Hg as [->|Hg]; [right; exists f; split; [by left|done]|by left].
  - intros g Hg. apply Hkeep, os_In_insert. by right.
  - intros g [<-|Hg]; [|by apply Hto]. exists f'. split; [|done]. apply Hkeep, os_In_insert. by left.
Qed.

(** Translating a branch's novelty keeps what it says: every fact is handed over with
    the same entity, attribute and value, a keyword under an id that names the same keyword
    in the parent's naming, none is added or lost, and every name the parent had still
    resolves to the same keyword. *)
Theorem translate_names n branch parent n' parent' :
  interner_wf parent -> next parent + Z.of_nat (novelty_len n) <= FIRST_LOCAL_KW_ID ->
  translate n branch parent = Ok (n', parent') ->
  interner_wf parent' /\ extends_names parent parent' /\ n_steps n' = n_steps n /\
  (forall f', In f' (asserts n') -> exists f, In f (asserts n) /\ renamed branch parent' f f') /\
  (forall f, In f (asserts n) -> exists f', In f' (asserts n') /\ renamed branch parent' f f') /\
  (forall f', In f' (retracts n') -> exists f, In f (retracts n) /\ renamed branch parent' f f') /\
  (forall f, In f (retracts n) -> exists f', In f' (retracts n') /\ renamed branch parent' f f').
Proof.
  unfold translate, novelty_len. intros Hwf Hn ([l j] & Ha & H)%bind_ok.
  apply bind_ok in H as ([l' j'] & Hr & E). injection E as <- <-. cbn [asserts retracts n_steps].
  destruct (translate_facts_spec branch parent (asserts n) [] l j Hwf ltac:(lia) Ha) as (Hj & Hnj & Hij & Hfrom & _ & Hto).
  destruct (translate_facts_spec branch j (retracts n) [] l' j' Hj ltac:(lia) Hr) as (Hj' & _ & Hjj & Hfrom' & _ & Hto').
  split_and!; [done|by intros ? ? ?; apply Hjj, Hij|done|..].
  - intros g [[]|(f & Hf & ?)]%Hfrom. exists f. split; [done|by eapply renamed_extends].
  - intros f (g & Hg & ?)%Hto. exists g. split; [done|by eapply renamed_extends].
  - intros g [[]|(f & Hf & ?)]%Hfrom'. by exists f.
  - done.
Qed.

(** ** A merge where both sides wrote the same pair

    A saga is open on entity 1000; entity 1001 has age 5.  The branch makes it 6, the parent
    meanwhile 7, and the owner overrides. *)

#[local] Existing Instance list_rpds.
#[local] Existing Instance list_rpds_laws.

Definition base_items : list TxItem :=
  open_saga ++ [TxItem.Op (TxOp.Add (EntityRef.Temp "p") AGE (Value.Long 5))].
Definition set_age (n : Z) : list TxItem :=
  [TxItem.Op (TxOp.Add (EntityRef.Id (user 1001)) AGE (Value.Long n))].

Definition prepared_or_empty (r : result Fault PreparedTx) : PreparedTx :=
  match r with Ok p => p | Err _ => mk_prepared [] [] end.

Definition merge0 : Db := with_naming (db_new people) idents_default names.
Definition base_tx : PreparedTx := prepared_or_empty (prepare merge0 base_items (next_tx merge0) 1000).
Definition base : Db := after merge0 base_tx.
Definition branch_tx : PreparedTx := prepared_or_empty (prepare base (set_age 6) (next_tx base) 1002).
Definition branch_db : Db := after base branch_tx.
Definition parent_tx : PreparedTx := prepared_or_empty (prepare base (set_age 7) (next_tx base) 1002).
Definition parent_db : Db := after base parent_tx.

Definition branch_novelty : Novelty := squash (recorded_since branch_db 1).
Definition parent_drift : Novelty := squash (recorded_since parent_db 1).
Definition override : Resolution :=
  mk_resolution (user 1001) AGE Scope.Pair (Some (Value.Long 7)) Take.Branch.

Lemma base_tx_ok : prepare merge0 base_items (next_tx merge0) 1000 = Ok base_tx.
Proof. by vm_compute. Qed.
Lemma branch_tx_ok : prepare base (set_age 6) (next_tx base) 1002 = Ok branch_tx.
Proof. by vm_compute. Qed.
Lemma parent_tx_ok : prepare base (set_age 7) (next_tx base) 1002 = Ok parent_tx.
Proof. by vm_compute. Qed.

Lemma novelty_value : branch_novelty =
  mk_novelty [(user 1001, AGE, Value.Long 6)] [(user 1001, AGE, Value.Long 5)] 1.
Proof. by vm_compute. Qed.
Lemma drift_value : parent_drift =
  mk_novelty [(user 1001, AGE, Value.Long 7)] [(user 1001, AGE, Value.Long 5)] 1.
Proof. by vm_compute. Qed.
Lemma unanswered : length (scan parent_db branch_novelty parent_drift) = 1%nat.
Proof. by vm_compute. Qed.
Lemma answered :
  outstanding (resolve_conflicts (scan parent_db branch_novelty parent_drift) [override]) = [].
Proof. by vm_compute. Qed.

Lemma merge0_ready : ready merge0.
Proof.
  split; [|by vm_compute..].
  assert (recorded_datoms merge0 = []) as E by (by vm_compute).
  split; rewrite ?E; try constructor; done.
Qed.

Lemma input_base : input_ok merge0 base_items 1000.
Proof.
  split; [apply merge0_ready| |by vm_compute..]. apply Forall_app. split; [apply input_open|].
  apply List.Forall_cons; [|apply List.Forall_nil]. split_and!; by vm_compute.
Qed.

Lemma base_ready : ready base.
Proof. apply (after_ready merge0 base_items 1000 base_tx input_base base_tx_ok); by vm_compute. Qed.

Lemma input_age6 : input_ok base (set_age 6) 1002.
Proof.
  split; [apply base_ready| |by vm_compute..].
  apply List.Forall_cons; [|apply List.Forall_nil]. split_and!; by vm_compute.
Qed.

Lemma input_age7 : input_ok base (set_age 7) 1002.
Proof.
  split; [apply base_ready| |by vm_compute..].
  apply List.Forall_cons; [|apply List.Forall_nil]. split_and!; by vm_compute.
Qed.

Lemma after_schema db items next p :
  input_ok db items next -> prepare db items (next_tx db) next = Ok p -> db_schema (after db p) = db_schema db.
Proof.
  intros Hin Hp. destruct (prepare_sound db items next p Hin Hp) as (_ & _ & Hem & _).
  by destruct (after_ok db p (in_ready _ _ _ Hin) Hem) as (_ & _ & ?).
Qed.

Lemma base_single : single_valued (db_schema base) (facts_of base).
Proof.
  unfold base. rewrite (after_schema _ _ _ _ input_base base_tx_ok).
  apply (after_single_valued merge0 base_items 1000 base_tx input_base base_tx_ok).
  intros e a v w _ H. by vm_compute in H.
Qed.

(** Squashing one accepted transaction. *)
Lemma one_step_net db items next p :
  input_ok db items next -> prepare db items (next_tx db) next = Ok p ->
  single_valued (db_schema db) (facts_of db) -> net (facts_of db) (facts_of (after db p)) (squash (p_datoms p)).
Proof.
  intros Hin Hp HI f. destruct (prepare_sound db items next p Hin Hp) as (_ & _ & Hem & _).
  unfold facts_of. rewrite after_recorded. apply squash_spec. by apply (em_effective _ _ _ Hem).
Qed.

Lemma branch_schema : db_schema branch_db = db_schema base.
Proof. apply (after_schema _ _ _ _ input_age6 branch_tx_ok). Qed.
Lemma parent_schema : db_schema parent_db = db_schema base.
Proof. apply (after_schema _ _ _ _ input_age7 parent_tx_ok). Qed.
Lemma parent_ready : ready parent_db.
Proof. apply (after_ready base (set_age 7) 1002 parent_tx input_age7 parent_tx_ok); by vm_compute. Qed.

Lemma branch_squash : branch_novelty = squash (p_datoms branch_tx).
Proof. by vm_compute. Qed.
Lemma drift_squash : parent_drift = squash (p_datoms parent_tx).
Proof. by vm_compute. Qed.

(** The one pair the branch wrote. *)
Lemma sample_wrote u :
  wrote (db_schema parent_db) branch_novelty u -> u = (user 1001, (AGE, Scope.Pair)).
Proof.
  rewrite novelty_value. intros (f & Hf & <-). cbn [asserts retracts In] in Hf.
  destruct Hf as [[<-|[]]|[<-|[]]]; by vm_compute.
Qed.

Lemma sample_pair f :
  wrote (db_schema parent_db) branch_novelty (fact_unit (db_schema parent_db) f) ->
  f.1.1 = user 1001 /\ f.1.2 = AGE.
Proof.
  intros Hw%sample_wrote. split; [exact (f_equal fst Hw)|exact (f_equal (fun u => u.2.1) Hw)].
Qed.

Lemma sample_age : is_Some (schema_get (db_schema parent_db) AGE).
Proof. apply is_Some_alt. by vm_compute. Qed.

Lemma sample_merge : merge_ok parent_db (facts_of base) (facts_of branch_db) branch_novelty parent_drift.
Proof.
  split.
  - apply parent_ready.
  - rewrite branch_squash. by apply (one_step_net _ _ _ _ input_age6 branch_tx_ok), base_single.
  - rewrite drift_squash. by apply (one_step_net _ _ _ _ input_age7 parent_tx_ok), base_single.
  - intros f. destruct (decide (has (recorded_datoms base) f)); [by left|by right].
  - rewrite parent_schema. apply base_single.
  - rewrite parent_schema. apply (after_single_valued _ _ _ _ input_age6 branch_tx_ok), base_single.
  - rewrite parent_schema. apply (after_single_valued _ _ _ _ input_age7 parent_tx_ok), base_single.
  - intros f [-> ->]%sample_pair. split; by vm_compute.
  - intros f [_ ->]%sample_pair. by apply sample_age.
Qed.

Definition merge_entry : SagaEntry :=
  match saga_entry parent_db 7 with Some s => s | None => entry1 end.
Definition committed_id : KwId := (intern names (status_keyword SagaStatus.Committed)).1.
Definition sample_items : list TxItem :=
  merge_items merge_entry 7 committed_id
    (apply_resolved branch_novelty
      (resolve_conflicts (scan parent_db branch_novelty parent_drift) [override]) parent_db).
Definition merge_tx : PreparedTx :=
  prepared_or_empty (prepare parent_db sample_items (next_tx parent_db) 1002).

Lemma merge_tx_ok : prepare parent_db sample_items (next_tx parent_db) 1002 = Ok merge_tx.
Proof. by vm_compute. Qed.

Lemma input_merge : input_ok parent_db sample_items 1002.
Proof.
  split; [apply parent_ready| |by vm_compute..].
  assert (sample_items = ltac:(let x := eval vm_compute in sample_items in exact x)) as -> by (by vm_compute).
  repeat (apply List.Forall_cons; [split_and!; by vm_compute|]). apply List.Forall_nil.
Qed.

Lemma sample_written : wrote (db_schema parent_db) branch_novelty
  (fact_unit (db_schema parent_db) (user 1001, AGE, Value.Long 6)).
Proof. exists (user 1001, AGE, Value.Long 6). rewrite novelty_value. split; [left; by left|done]. Qed.

Lemma merge_outcome_witness :
  facts_of (after parent_db merge_tx) (user 1001, AGE, Value.Long 6) /\
  ~ facts_of (after parent_db merge_tx) (user 1001, AGE, Value.Long 7).
Proof.
  split; [|by vm_compute].
  refine (proj2 (proj1 (merge_outcome parent_db _ _ _ _ [override] merge_entry 7 committed_id 1002
    merge_tx (user 1001, AGE, Value.Long 6) sample_merge answered input_merge merge_tx_ok _ _)
    sample_written _) _); by vm_compute.
Defined.

Lemma merge_no_lost_update_witness :
  let r := resolve_conflicts (scan parent_db branch_novelty parent_drift) [override] in
  let u := (user 1001, (AGE, Scope.Pair)) in
  changed (facts_of base) (facts_of parent_db) (user 1001, AGE, Value.Long 7) /\
  (In u (accepted r) \/
   (In u (overridden r) /\ exists x, In x [override] /\ rs_take x = Take.Branch /\
      (rs_entity x, (rs_attribute x, rs_scope x)) = u /\
      forall w, rs_parent x = Some w <-> facts_of parent_db (user 1001, AGE, w))).
Proof.
  assert (Hc : changed (facts_of base) (facts_of parent_db) (user 1001, AGE, Value.Long 7)) by (right; by vm_compute).
  split; [exact Hc|].
  destruct (merge_no_lost_update parent_db _ _ _ _ [override] (user 1001, AGE, Value.Long 7) sample_merge answered sample_written Hc) as [H|H]; [|exact H].
  exfalso. assert (Hb : facts_of branch_db (user 1001, AGE, Value.Long 7)) by (apply H; [reflexivity|by vm_compute]). by vm_compute in Hb.
Defined.

Lemma branch_recorded : recorded_datoms branch_db = recorded_datoms base ++ p_datoms branch_tx.
Proof. apply after_recorded. Qed.

Lemma branch_effective : effective (recorded_datoms base) (p_datoms branch_tx).
Proof.
  destruct (prepare_sound _ _ _ _ input_age6 branch_tx_ok) as (_ & _ & Hem & _).
  apply (em_effective _ _ _ Hem), base_single.
Qed.

Lemma squash_net_witness :
  In (user 1001, AGE, Value.Long 6) (asserts (squash (recorded_since branch_db 1))) /\
  In (user 1001, AGE, Value.Long 5) (retracts (squash (recorded_since branch_db 1))).
Proof.
  assert (Forall (fun x => sequence (d_tx x) <= 1) (recorded_datoms base)) as H1.
  { apply (bool_decide_unpack _). by vm_compute. }
  assert (Forall (fun x => 1 < sequence (d_tx x)) (p_datoms branch_tx)) as H2.
  { apply (bool_decide_unpack _). by vm_compute. }
  split.
  - apply (proj1 (squash_net branch_db 1 _ _ (user 1001, AGE, Value.Long 6) branch_recorded H1 H2
      branch_effective)). split_and!; by vm_compute.
  - apply (proj2 (squash_net branch_db 1 _ _ (user 1001, AGE, Value.Long 5) branch_recorded H1 H2
      branch_effective)). split_and!; by vm_compute.
Defined.

(** A branch that named a keyword the parent has not seen, under an id the parent uses for
    another one. *)
Definition branch_names : KeywordInterner := (intern interner_default (keyword_new None "x")).2.
Definition parent_names : KeywordInterner := (intern interner_default (keyword_new None "y")).2.
Definition named : Novelty := mk_novelty [(user 1001, AGE, Value.Keyword 0)] [] 1.

Lemma parent_names_wf : interner_wf parent_names.
Proof. apply intern_wf; [apply interner_default_wf|by vm_compute]. Qed.

Definition translated : Novelty := mk_novelty [(user 1001, AGE, Value.Keyword 1)] [] 1.
Definition parent_names' : KeywordInterner := (intern parent_names (keyword_new None "x")).2.

Lemma translate_names_witness :
  translate named branch_names parent_names = Ok (translated, parent_names') /\
  exists f, In f (asserts named) /\
    renamed branch_names parent_names' f (user 1001, AGE, Value.Keyword 1).
Proof.
  assert (translate named branch_names parent_names = Ok (translated, parent_names')) as E
    by (by vm_compute).
  split; [exact E|].
  refine (proj1 (proj2 (proj2 (proj2 (translate_names named branch_names parent_names translated
    parent_names' parent_names_wf _ E)))) _ _); [by vm_compute|by left].
Defined.

(** ** An override refused on one conflict stays on the other

    [resolve] says an override refused on one conflict of a unit does not survive on
    another; a unit in a write-write and a uniqueness conflict stays overridden.  The merge
    is refused all the same, since the second conflict is outstanding. *)

Definition two_conflicts : list Conflict :=
  [ mk_conflict (ConflictKind.Uniqueness (user 1000)) (user 1001) NAME Scope.Pair
      (Some (Value.Str "a")) (Some (Value.Str "b")) false;
    mk_conflict ConflictKind.WriteWrite (user 1001) NAME Scope.Pair
      (Some (Value.Str "a")) (Some (Value.Str "b")) true ].

Lemma refused_override_survives :
  let take := mk_resolution (user 1001) NAME Scope.Pair (Some (Value.Str "b")) Take.Branch in
  let r := resolve_conflicts two_conflicts [take] in
  rejected r = [ResolutionError.NotOverridable take] /\
  In (user 1001, (NAME, Scope.Pair)) (overridden r) /\ length (outstanding r) = 1%nat.
Proof. split_and!; [by vm_compute|left; by vm_compute|by vm_compute]. Qed.
