(* ===== verification/Authz.v ===== *)
(** * Authorization checks (corium-authz: model.rs, policy.rs, view.rs, eval.rs, authorizer.rs)

    A policy compiled from the authorization database is a set of ordered indexes.  A check
    walks relationship goals breadth first from each target, within a depth and a visit
    budget, and narrows what it grants by the views bound to the relations it found. *)

From stdpp Require Import base list strings sorting.
From Stdlib Require Import ZArith Lia Ascii.
From S2P Require Import Prelude OrdMap Machine Keyword.

Definition WILDCARD : string := "*".

(** ** Vocabulary *)

Record ObjectRef := mk_object { o_kind : string; o_id : string }.

#[global] Instance object_ref_eq_dec : EqDecision ObjectRef.
Proof. solve_decision. Defined.
#[global] Instance object_ref_ord : Ord ObjectRef := via_ord (fun o => (o_kind o, o_id o)).
#[global] Instance object_ref_ord_laws : OrdLaws ObjectRef.
Proof. apply via_ord_laws. intros [k i] [k' i'] E. by simplify_eq/=. Qed.

Definition object_parse (text : string) : ObjectRef :=
  match split_once ":"%char text with
  | Some (kind, id) =>
      if negb (bool_decide (kind = EmptyString)) && negb (bool_decide (id = EmptyString)) then mk_object kind id
      else mk_object "user" text
  | None => mk_object "user" text
  end.

Definition object_text (o : ObjectRef) : string := (o_kind o ++ ":" ++ o_id o)%string.

Definition wildcard_of_type (o : ObjectRef) : ObjectRef := mk_object (o_kind o) WILDCARD.
Definition is_wildcard (o : ObjectRef) : bool := bool_decide (o_id o = WILDCARD).

Record SubjectRef := mk_subject { sr_object : ObjectRef; sr_relation : option string }.

#[global] Instance subject_ref_eq_dec : EqDecision SubjectRef.
Proof. solve_decision. Defined.

Definition subject_parse (text : string) : SubjectRef :=
  match split_once "#"%char text with
  | Some (object, relation) =>
      if negb (bool_decide (relation = EmptyString)) then mk_subject (object_parse object) (Some relation)
      else mk_subject (object_parse text) None
  | None => mk_subject (object_parse text) None
  end.

Record Rewrite := mk_rewrite {
  rw_relation : string;
  rw_via_relation : string;
  rw_on_relation : string;
  rw_object_type : option string }.

Module Action.
Inductive Action :=
| Query | Pull | Datoms | TxRange | Subscribe | Inspect | Transact | CreateDatabase
| DeleteDatabase | ForkDatabase | ListDatabases | GarbageCollect | ManageIndex | ManageKeys
| AlterSchema.
End Action.
Notation Action := Action.Action.

Module ActionClass.
Inductive ActionClass := Read | Write | Admin.
End ActionClass.
Notation ActionClass := ActionClass.ActionClass.

#[global] Instance action_eq_dec : EqDecision Action.
Proof. solve_decision. Defined.
#[global] Instance action_class_eq_dec : EqDecision ActionClass.
Proof. solve_decision. Defined.

Definition is_write (a : Action) : bool := match a with Action.Transact => true | _ => false end.

Definition is_admin (a : Action) : bool :=
  match a with
  | Action.CreateDatabase | Action.DeleteDatabase | Action.ForkDatabase | Action.GarbageCollect
  | Action.ManageIndex | Action.ManageKeys | Action.AlterSchema => true
  | _ => false
  end.

Definition action_class_of (a : Action) : ActionClass :=
  if is_admin a then ActionClass.Admin else if is_write a then ActionClass.Write else ActionClass.Read.

Definition action_name (a : Action) : string :=
  match a with
  | Action.Query => "query" | Action.Pull => "pull" | Action.Datoms => "datoms"
  | Action.TxRange => "tx-range" | Action.Subscribe => "subscribe" | Action.Inspect => "inspect"
  | Action.Transact => "transact" | Action.CreateDatabase => "create-database"
  | Action.DeleteDatabase => "delete-database" | Action.ForkDatabase => "fork-database"
  | Action.ListDatabases => "list-databases" | Action.GarbageCollect => "garbage-collect"
  | Action.ManageIndex => "manage-index" | Action.ManageKeys => "manage-keys"
  | Action.AlterSchema => "alter-schema"
  end.

Definition action_class_name (c : ActionClass) : string :=
  match c with
  | ActionClass.Read => "read" | ActionClass.Write => "write" | ActionClass.Admin => "admin"
  end.

(** ** Views and key grants *)

Definition normalize_attribute (attribute : string) : string :=
  match attribute with String ":"%char _ => attribute | _ => (":" ++ attribute)%string end.

Module ViewFilter.
Inductive ViewFilter :=
| AttributeAllowlist (name : string) (allowed : list string)
| AttributeDenylist (name : string) (denied : list string)
| IntersectionView (parts : list ViewFilter).
End ViewFilter.
Notation ViewFilter := ViewFilter.ViewFilter.

Fixpoint attribute_visible (f : ViewFilter) (attribute : string) : bool :=
  match f with
  | ViewFilter.AttributeAllowlist _ allowed => os_mem (normalize_attribute attribute) allowed
  | ViewFilter.AttributeDenylist _ denied => negb (os_mem (normalize_attribute attribute) denied)
  | ViewFilter.IntersectionView parts => forallb (fun part => attribute_visible part attribute) parts
  end.

Module FilterKind.
Inductive FilterKind := AttributeAllowlist | AttributeDenylist.
End FilterKind.
Notation FilterKind := FilterKind.FilterKind.

Record ViewDef := mk_view_def {
  vd_name : string;
  vd_kind : option FilterKind;
  vd_attributes : list string;
  vd_keys : list string }.

Definition build_view (definition : ViewDef) : option ViewFilter :=
  kind ← vd_kind definition;
  let attributes := os_of_list (map normalize_attribute (vd_attributes definition)) in
  match kind with
  | FilterKind.AttributeAllowlist => Some (ViewFilter.AttributeAllowlist (vd_name definition) attributes)
  | FilterKind.AttributeDenylist => Some (ViewFilter.AttributeDenylist (vd_name definition) attributes)
  end.

Module KeyGrant.
Inductive KeyGrant := Unrestricted | Only (key_ids : list string).
End KeyGrant.
Notation KeyGrant := KeyGrant.KeyGrant.

Definition is_unrestricted (g : KeyGrant) : bool :=
  match g with KeyGrant.Unrestricted => true | _ => false end.

Definition key_allows (g : KeyGrant) (key_id : string) : bool :=
  match g with KeyGrant.Unrestricted => true | KeyGrant.Only allowed => os_mem key_id allowed end.

Definition intersect (mine theirs : KeyGrant) : KeyGrant :=
  match mine, theirs with
  | KeyGrant.Unrestricted, other | other, KeyGrant.Unrestricted => other
  | KeyGrant.Only mine, KeyGrant.Only theirs => KeyGrant.Only (List.filter (fun k => os_mem k theirs) mine)
  end.

Definition key_grant (definition : ViewDef) : KeyGrant :=
  match vd_keys definition with
  | [] => KeyGrant.Unrestricted
  | keys => KeyGrant.Only (os_of_list keys)
  end.

Definition combine (views : list ViewFilter) : option ViewFilter :=
  match views with
  | [] => None
  | [view] => Some view
  | _ => Some (ViewFilter.IntersectionView views)
  end.

Record ReadGrant := mk_read_grant { rg_view : option ViewFilter; rg_keys : KeyGrant }.

(** ** The compiled policy *)

Record CompiledView := mk_compiled { cv_filter : option ViewFilter; cv_keys : KeyGrant }.

Record Binding := mk_binding {
  b_relation : string;
  b_object : ObjectRef;
  b_view : option string;
  b_unfiltered : bool }.

(** The indexes a check reads; the principal registrations and statistics are left out. *)
Record Policy := mk_policy {
  by_object : list ((ObjectRef * string) * list SubjectRef);
  rewrites : list (string * list Rewrite);
  permissions : list ((string * string) * list string);
  views : list (string * CompiledView);
  bindings : list ((string * ObjectRef) * Binding);
  objects_by_database : list (string * list ObjectRef) }.

Definition relations_for (p : Policy) (object_type : string) (action : Action) : list string :=
  fold_left (fun relations key =>
      match om_get key (permissions p) with
      | Some found => fold_left (fun s r => os_insert r s) found relations
      | None => relations
      end)
    (flat_map (fun name => map (fun kind => (kind, name)) [object_type; WILDCARD])
      [action_name action; action_class_name (action_class_of action); WILDCARD]) [].

Definition subjects_for (p : Policy) (object : ObjectRef) (relation : string) : list SubjectRef :=
  let found key := unwrap_or (om_get (key, relation) (by_object p)) [] in
  if is_wildcard object then found object else found object ++ found (wildcard_of_type object).

Definition rewrites_for (p : Policy) (relation object_type : string) : list Rewrite :=
  List.filter (fun rule => is_none_or (rw_object_type rule) (fun kind => bool_decide (kind = object_type)))
    (unwrap_or (om_get relation (rewrites p)) []).

Definition binding_for (p : Policy) (relation : string) (object : ObjectRef) : option Binding :=
  match om_get (relation, object) (bindings p) with
  | Some b => Some b
  | None => om_get (relation, wildcard_of_type object) (bindings p)
  end.

Definition policy_view (p : Policy) (name : string) : option CompiledView := om_get name (views p).

Definition objects_for_database (p : Policy) (name : string) : list ObjectRef :=
  unwrap_or (om_get name (objects_by_database p)) [].

(** ** The search *)

Record Limits := mk_limits { max_depth : nat; max_visited : nat }.

Definition limits_default : Limits := mk_limits 8 (Z.to_nat 10000).

Record PathStep := mk_step { ps_relation : string; ps_object : ObjectRef }.

Record Match := mk_match {
  m_relation : string;
  m_object : ObjectRef;
  m_subject : SubjectRef;
  m_path : list PathStep }.

Module Denial.
Inductive Denial :=
| NoPermission (object_type action : string)
| NoPath (relations objects : list string)
| Exhausted (visited : nat).
End Denial.
Notation Denial := Denial.Denial.

Module Outcome.
Inductive Outcome :=
| Allow (matches : list Match)
| AllowFiltered (matches : list Match) (grant : ReadGrant) (views : list string)
| Deny (denial : Denial).
End Outcome.
Notation Outcome := Outcome.Outcome.

Definition is_allowed (o : Outcome) : bool := match o with Outcome.Deny _ => false | _ => true end.

Definition outcome_matches (o : Outcome) : list Match :=
  match o with Outcome.Allow ms | Outcome.AllowFiltered ms _ _ => ms | Outcome.Deny _ => [] end.

Record Query := mk_query {
  q_subjects : list ObjectRef;
  q_relations : list string;
  q_action : string;
  q_objects : list ObjectRef;
  q_expand_relations : list string;
  q_limits : Limits }.

Module Search.
Inductive Search := Found (m : Match) | NotFound | Exhausted.
End Search.
Notation Search := Search.Search.

Record Node := mk_node { n_step : PathStep; n_parent : option nat; n_depth : nat }.

Record Walk := mk_walk {
  w_nodes : list Node;
  w_queue : list nat;
  w_visited : list (string * ObjectRef) }.

Definition walk_new : Walk := mk_walk [] [] [].

Section search.
Context (p : Policy) (q : Query).

Definition subject_holds (subject : SubjectRef) : bool :=
  os_mem (sr_object subject) (q_subjects q) ||
  (is_wildcard (sr_object subject) &&
   existsb (fun held => bool_decide (o_kind held = o_kind (sr_object subject))) (q_subjects q)).

Definition push_goal (w : Walk) (relation : string) (object : ObjectRef) (parent : option nat)
    (depth : nat) : Walk :=
  if bool_decide (max_depth (q_limits q) < depth)%nat then w
  else if os_mem (relation, object) (w_visited w) then w
  else mk_walk (w_nodes w ++ [mk_node (mk_step relation object) parent depth])
         (w_queue w ++ [length (w_nodes w)]) (os_insert (relation, object) (w_visited w)).

(** The loop follows parent pointers; [fuel] bounds it, and [None] is an index out of range
    or a chain longer than that. *)
Fixpoint path_loop (fuel : nat) (nodes : list Node) (index : nat) (path : list PathStep)
    : option (list PathStep) :=
  match fuel with
  | O => None
  | S fuel =>
      node ← nodes !! index;
      let path := path ++ [n_step node] in
      match n_parent node with
      | Some parent => path_loop fuel nodes parent path
      | None => Some path
      end
  end.

Definition path_of (w : Walk) (index : nat) : option (list PathStep) :=
  @rev PathStep <$> path_loop (S index) (w_nodes w) index [].

(** The tuples on a goal: [inr] is the subject that ends the search. *)
Fixpoint try_subjects (w : Walk) (index depth : nat) (subjects : list SubjectRef)
    : Walk + (Walk * SubjectRef) :=
  match subjects with
  | [] => inl w
  | subject :: subjects =>
      match sr_relation subject with
      | Some userset =>
          try_subjects (push_goal w userset (sr_object subject) (Some index) (depth + 1)) index depth subjects
      | None =>
          if subject_holds subject then inr (w, subject)
          else try_subjects
                 (fold_left (fun w expansion => push_goal w expansion (sr_object subject) (Some index) (depth + 1))
                   (q_expand_relations q) w) index depth subjects
      end
  end.

Definition push_rewrites (w : Walk) (index depth : nat) (goal : PathStep) : Walk :=
  fold_left (fun w rewrite =>
      fold_left (fun w parent => push_goal w (rw_on_relation rewrite) parent (Some index) (depth + 1))
        (map sr_object (subjects_for p (ps_object goal) (rw_via_relation rewrite))) w)
    (rewrites_for p (ps_relation goal) (o_kind (ps_object goal))) w.

(** The loop of [run_walk].  [budget] is the number of goals the check may still visit; it
    decreases at each goal taken from the queue, and the result carries the rest. *)
Fixpoint walk_loop (relation : string) (object : ObjectRef) (budget : nat) (w : Walk)
    : option (Search * nat) :=
  match w_queue w with
  | [] => Some (Search.NotFound, budget)
  | index :: queue =>
      match budget with
      | O => Some (Search.Exhausted, O)
      | S budget =>
          node ← w_nodes w !! index;
          let w := mk_walk (w_nodes w) queue (w_visited w) in
          let goal := n_step node in
          match try_subjects w index (n_depth node) (subjects_for p (ps_object goal) (ps_relation goal)) with
          | inr (w, subject) =>
              path ← path_of w index;
              Some (Search.Found (mk_match relation object subject path), budget)
          | inl w => walk_loop relation object budget (push_rewrites w index (n_depth node) goal)
          end
      end
  end.

Definition run_walk (relation : string) (object : ObjectRef) (budget : nat) : option (Search * nat) :=
  walk_loop relation object budget (push_goal walk_new relation object None 0).

(** The roots in order; [true] when the budget ran out. *)
Fixpoint check_roots (roots : list (ObjectRef * string)) (budget : nat) (matches : list Match)
    : option (list Match * bool * nat) :=
  match roots with
  | [] => Some (matches, false, budget)
  | (object, relation) :: roots =>
      '(search, budget) ← run_walk relation object budget;
      match search with
      | Search.Found found => check_roots roots budget (matches ++ [found])
      | Search.NotFound => check_roots roots budget matches
      | Search.Exhausted => Some (matches, true, budget)
      end
  end.

(** [None] stops at an unfiltered binding. *)
Fixpoint collect_views (matches : list Match) (filters : list ViewFilter) (names : list string)
    (keys : KeyGrant) : option (list ViewFilter * list string * KeyGrant) :=
  match matches with
  | [] => Some (filters, names, keys)
  | found :: matches =>
      match binding_for p (m_relation found) (m_object found) with
      | None => collect_views matches filters names keys
      | Some binding =>
          if b_unfiltered binding then None
          else
            match (name ← b_view binding; compiled ← policy_view p name; Some (name, compiled)) with
            | Some (name, compiled) =>
                collect_views matches
                  (match cv_filter compiled with Some filter => filters ++ [filter] | None => filters end)
                  (names ++ [name]) (intersect keys (cv_keys compiled))
            | None => collect_views matches filters names keys
            end
      end
  end.

Definition combine_views (matches : list Match) : Outcome :=
  match collect_views matches [] [] KeyGrant.Unrestricted with
  | None => Outcome.Allow matches
  | Some (filters, names, keys) =>
      match combine filters, is_unrestricted keys with
      | None, true => Outcome.Allow matches
      | filter, _ => Outcome.AllowFiltered matches (mk_read_grant filter keys) names
      end
  end.

Definition check : option Outcome :=
  match q_relations q with
  | [] => Some (Outcome.Deny (Denial.NoPermission
            (from_option o_kind WILDCARD (head (q_objects q))) (q_action q)))
  | _ =>
      '(matches, exhausted, budget) ←
        check_roots (flat_map (fun object => map (fun relation => (object, relation)) (q_relations q))
          (q_objects q)) (max_visited (q_limits q)) [];
      Some match matches with
           | [] => Outcome.Deny
               (if exhausted : bool then Denial.Exhausted (max_visited (q_limits q) - budget)
                else Denial.NoPath (q_relations q) (map object_text (q_objects q)))
           | _ => combine_views matches
           end
  end.

End search.

(** ** The query an access asks ([SystemDbAuthorizer::decide], [target_objects]) *)

Definition target_objects (p : Policy) (catalog_object : ObjectRef) (database : option string)
    (action : Action) : list ObjectRef :=
  match database with
  | Some database =>
      mk_object "database" database :: objects_for_database p database ++
      (if bool_decide (action_class_of action = ActionClass.Admin) then [catalog_object] else [])
  | None => [catalog_object]
  end.

Definition access_query (p : Policy) (catalog_object : ObjectRef) (expand_relations : list string)
    (limits : Limits) (subjects : list ObjectRef) (database : option string) (action : Action) : Query :=
  let objects := target_objects p catalog_object database action in
  let relations := fold_left (fun relations object =>
      fold_left (fun s r => os_insert r s) (relations_for p (o_kind object) action) relations) objects [] in
  mk_query subjects relations (action_name action) objects expand_relations limits.
