(* ===== verification/AuthzTheorems.v ===== *)
(** * What a check grants (theorems for Authz.v)

    [leads] and [direct] say what a policy means, apart from any search; the breadth-first
    walk is sound and, within its bounds, complete for them. *)

From stdpp Require Import base list strings sorting.
From Stdlib Require Import ZArith Lia.
From S2P Require Import Prelude OrdMap Machine Keyword Authz.
Local Open Scope nat_scope.

Section search.
Context (p : Policy) (q : Query).
Implicit Types g : PathStep.

(** ** What the policy means *)

(** A tuple on the goal names a subject of the request. *)
Definition direct g (s : SubjectRef) : Prop :=
  In s (subjects_for p (ps_object g) (ps_relation g)) /\ sr_relation s = None /\ subject_holds q s = true.

(** Whoever satisfies the second goal satisfies the first. *)
Inductive leads g : PathStep -> Prop :=
| leads_userset s userset :
    In s (subjects_for p (ps_object g) (ps_relation g)) -> sr_relation s = Some userset ->
    leads g (mk_step userset (sr_object s))
| leads_expand s expansion :
    In s (subjects_for p (ps_object g) (ps_relation g)) -> sr_relation s = None ->
    In expansion (q_expand_relations q) -> leads g (mk_step expansion (sr_object s))
| leads_rewrite rule s :
    In rule (rewrites_for p (ps_relation g) (o_kind (ps_object g))) ->
    In s (subjects_for p (ps_object g) (rw_via_relation rule)) ->
    leads g (mk_step (rw_on_relation rule) (sr_object s)).

(** [s] satisfies [g] through [n] hops. *)
Inductive reaches : nat -> PathStep -> SubjectRef -> Prop :=
| reaches_direct g s : direct g s -> reaches 0 g s
| reaches_hop n g g' s : leads g g' -> reaches n g' s -> reaches (S n) g s.

(** Goals that follow one another. *)
Fixpoint linked (path : list PathStep) : Prop :=
  match path with
  | g :: (g' :: _) as rest => leads g g' /\ linked rest
  | _ => True
  end.

Lemma linked_snoc path g g' : last path = Some g -> linked path -> leads g g' -> linked (path ++ [g']).
Proof.
  induction path as [|x path IH]; [done|]. destruct path as [|y path].
  - intros [= ->] _ H. by split.
  - intros Hl [Hx Hp] H. split; [done|]. by apply IH.
Qed.

(** ** Goals pushed by one goal *)

Definition subject_goals (s : SubjectRef) : list PathStep :=
  match sr_relation s with
  | Some userset => [mk_step userset (sr_object s)]
  | None => map (fun x => mk_step x (sr_object s)) (q_expand_relations q)
  end.

Definition rewrite_goals g : list PathStep :=
  flat_map (fun rule => map (fun s => mk_step (rw_on_relation rule) (sr_object s))
      (subjects_for p (ps_object g) (rw_via_relation rule)))
    (rewrites_for p (ps_relation g) (o_kind (ps_object g))).

Definition goals g : list PathStep :=
  flat_map subject_goals (subjects_for p (ps_object g) (ps_relation g)) ++ rewrite_goals g.

Lemma subject_goals_leads g s g' :
  In s (subjects_for p (ps_object g) (ps_relation g)) -> In g' (subject_goals s) -> leads g g'.
Proof.
  unfold subject_goals. intros Hs. destruct (sr_relation s) as [u|] eqn:E.
  - intros [<-|[]]. by apply leads_userset.
  - intros (x & <- & Hx)%in_map_iff. by apply leads_expand.
Qed.

Lemma goals_leads g g' : In g' (goals g) <-> leads g g'.
Proof.
  unfold goals, rewrite_goals. rewrite in_app_iff, !in_flat_map. split.
  - intros [(s & Hs & Hg)|(rule & Hr & Hg)]; [by eapply subject_goals_leads|].
    apply in_map_iff in Hg as (s & <- & Hs). by apply leads_rewrite.
  - intros [s u Hs E|s x Hs E Hx|rule s Hr Hs].
    + left. exists s. split; [done|]. unfold subject_goals. rewrite E. by left.
    + left. exists s. split; [done|]. unfold subject_goals. rewrite E. apply in_map_iff. by exists x.
    + right. exists rule. split; [done|]. apply in_map_iff. by exists s.
Qed.

Definition push_goals (w : Walk) (index depth : nat) (gs : list PathStep) : Walk :=
  fold_left (fun w g => push_goal q w (ps_relation g) (ps_object g) (Some index) (depth + 1)) gs w.

Lemma push_goals_app w index depth gs gs' :
  push_goals w index depth (gs ++ gs') = push_goals (push_goals w index depth gs) index depth gs'.
Proof. apply fold_left_app. Qed.

Lemma push_goals_map {A} (f : A -> PathStep) w index depth l :
  fold_left (fun w x => push_goal q w (ps_relation (f x)) (ps_object (f x)) (Some index) (depth + 1)) l w =
  push_goals w index depth (map f l).
Proof. revert w. induction l as [|x l IH]; intros w; [done|]. apply IH. Qed.

Lemma push_rewrites_goals w index depth g :
  push_rewrites p q w index depth g = push_goals w index depth (rewrite_goals g).
Proof.
  unfold push_rewrites, rewrite_goals. generalize (rewrites_for p (ps_relation g) (o_kind (ps_object g))).
  intros rules. revert w. induction rules as [|rule rules IH]; intros w; [done|].
  cbn [fold_left flat_map]. rewrite push_goals_app, <- IH. f_equal.
  rewrite <- push_goals_map. generalize (subjects_for p (ps_object g) (rw_via_relation rule)).
  intros l. revert w. clear IH. induction l as [|s l IH]; intros w; [done|]. apply IH.
Qed.

Lemma try_subjects_goals w index depth l :
  (Forall (fun s => sr_relation s = None -> subject_holds q s = false) l /\
   try_subjects q w index depth l = inl (push_goals w index depth (flat_map subject_goals l))) \/
  (exists l1 s l2, l = l1 ++ s :: l2 /\ sr_relation s = None /\ subject_holds q s = true /\
   try_subjects q w index depth l = inr (push_goals w index depth (flat_map subject_goals l1), s)).
Proof.
  revert w. induction l as [|s l IH]; intros w; [by left|]. cbn [try_subjects flat_map].
  assert (forall w', w' = push_goals w index depth (subject_goals s) ->
    (sr_relation s = None -> subject_holds q s = false) ->
    (Forall (fun s => sr_relation s = None -> subject_holds q s = false) (s :: l) /\
     try_subjects q w' index depth l =
       inl (push_goals w index depth (subject_goals s ++ flat_map subject_goals l))) \/
    (exists l1 t l2, s :: l = l1 ++ t :: l2 /\ sr_relation t = None /\ subject_holds q t = true /\
     try_subjects q w' index depth l = inr (push_goals w index depth (flat_map subject_goals l1), t))) as Hgo.
  { intros w' -> Hs. rewrite push_goals_app.
    destruct (IH (push_goals w index depth (subject_goals s))) as [[Hl ->]|(l1 & t & l2 & -> & Et & Hh & ->)].
    - left. split; [by constructor|done].
    - right. exists (s :: l1), t, l2. cbn [flat_map]. by rewrite push_goals_app. }
  destruct (sr_relation s) as [u|] eqn:E; [|destruct (subject_holds q s) eqn:Eh].
  - apply Hgo; [|done]. unfold subject_goals. by rewrite E.
  - right. by exists [], s, l.
  - apply Hgo; [|done]. unfold subject_goals. rewrite E. by rewrite <- push_goals_map.
Qed.

(** ** The walk

    [i] goals have been taken from the queue, the last of them at depth [d]. *)
Record core (root : PathStep) (i d : nat) (w : Walk) : Prop := {
  c_queue : w_queue w = seq i (length (w_nodes w) - i);
  c_len : i <= length (w_nodes w);
  c_visited : forall g, In (ps_relation g, ps_object g) (w_visited w) <->
    exists k nd, w_nodes w !! k = Some nd /\ n_step nd = g;
  c_root : w_nodes w !! 0 = Some (mk_node root None 0);
  c_parent : forall k nd, w_nodes w !! k = Some nd ->
    n_depth nd <= max_depth (q_limits q) /\
    match n_parent nd with
    | None => n_step nd = root /\ n_depth nd = 0
    | Some j => j < k /\ exists pn, w_nodes w !! j = Some pn /\ n_depth nd = n_depth pn + 1 /\
        leads (n_step pn) (n_step nd)
    end;
  c_mono : forall j k nd nd', j <= k -> w_nodes w !! j = Some nd -> w_nodes w !! k = Some nd' ->
    n_depth nd <= n_depth nd';
  c_bound : forall k nd, w_nodes w !! k = Some nd -> n_depth nd <= d + 1 }.

Definition covers (w : Walk) (d : nat) g : Prop :=
  d + 1 <= max_depth (q_limits q) ->
  exists k nd, w_nodes w !! k = Some nd /\ n_step nd = g /\ n_depth nd <= d + 1.

Lemma covers_prefix w w' d g : w_nodes w `prefix_of` w_nodes w' -> covers w d g -> covers w' d g.
Proof.
  intros [l E] H Hd. destruct (H Hd) as (k & nd & Hk & ?). exists k, nd. split; [|done].
  rewrite E. by apply lookup_app_l_Some.
Qed.

(** A goal not seen before, at the depth below the goal being expanded. *)
Lemma core_snoc root i d w index nd g :
  core root i d w -> w_nodes w !! index = Some nd -> n_depth nd = d -> index < i ->
  leads (n_step nd) g -> d + 1 <= max_depth (q_limits q) ->
  core root i d (mk_walk (w_nodes w ++ [mk_node g (Some index) (d + 1)])
    (w_queue w ++ [length (w_nodes w)]) (os_insert (ps_relation g, ps_object g) (w_visited w))).
Proof.
  intros [Hq Hl Hv Hr Hp Hm Hb] Hnd Hd Hi Hg HD.
  assert (forall k x, (w_nodes w ++ [mk_node g (Some index) (d + 1)]) !! k = Some x ->
    w_nodes w !! k = Some x \/ (k = length (w_nodes w) /\ x = mk_node g (Some index) (d + 1))) as Hcase.
  { intros k x [?|[? Hx]]%lookup_app_Some; [by left|right].
    apply list_lookup_singleton_Some in Hx as [? <-]. split; [lia|done]. }
  split; cbn [w_nodes w_queue w_visited]; rewrite ?length_app; cbn [length].
  - rewrite Hq. replace (length (w_nodes w) + 1 - i) with (S (length (w_nodes w) - i)) by lia.
    rewrite seq_S. do 2 f_equal. lia.
  - lia.
  - intros g'. rewrite os_In_insert, Hv. split.
    + intros [E|(k & x & Hk & Hx)].
      * exists (length (w_nodes w)), (mk_node g (Some index) (d + 1)).
        rewrite lookup_app_r, Nat.sub_diag by lia. split; [done|]. destruct g, g'. by simplify_eq/=.
      * exists k, x. split; [by apply lookup_app_l_Some|done].
    + intros (k & x & [Hk|[_ ->]]%Hcase & <-); [right; by exists k, x|by left].
  - by apply lookup_app_l_Some.
  - intros k x [Hk|[-> ->]]%Hcase.
    + destruct (Hp k x Hk) as [? H]. split; [done|]. destruct (n_parent x) as [j|]; [|done].
      destruct H as (? & pn & ? & ?). split; [done|]. exists pn. split; [by apply lookup_app_l_Some|done].
    + split; [done|]. simpl. split; [lia|]. exists nd.
      split_and!; [by apply lookup_app_l_Some|lia|done].
  - intros j k x y Hjk [Hj|[-> ->]]%Hcase [Hk|[-> ->]]%Hcase; simpl; [by eapply Hm| |..].
    + by eapply Hb.
    + apply lookup_lt_Some in Hk. lia.
    + done.
  - intros k x [Hk|[_ ->]]%Hcase; [by eapply Hb|done].
Qed.

Lemma push_core root i d w index nd g :
  core root i d w -> w_nodes w !! index = Some nd -> n_depth nd = d -> index < i ->
  leads (n_step nd) g ->
  let w' := push_goal q w (ps_relation g) (ps_object g) (Some index) (d + 1) in
  core root i d w' /\ w_nodes w `prefix_of` w_nodes w' /\ covers w' d g.
Proof.
  intros Hc Hnd Hd Hi Hg w'. unfold w', push_goal. case_bool_decide as HD.
  { split_and!; [done..|]. intros ?. lia. }
  destruct (os_mem _ _) eqn:Ev.
  - split_and!; [done..|]. intros _. apply os_mem_In, (c_visited _ _ _ _ Hc) in Ev as (k & x & Hk & Hx).
    exists k, x. split_and!; [done..|]. by eapply c_bound.
  - assert (mk_step (ps_relation g) (ps_object g) = g) as -> by (by destruct g).
    split_and!; [eapply core_snoc; (done || lia)|by eexists|].
    intros _. exists (length (w_nodes w)), (mk_node g (Some index) (d + 1)). cbn [w_nodes].
    by rewrite lookup_app_r, Nat.sub_diag by lia.
Qed.

Lemma push_goals_core root i d w index nd gs :
  core root i d w -> w_nodes w !! index = Some nd -> n_depth nd = d -> index < i ->
  (forall g, In g gs -> leads (n_step nd) g) ->
  let w' := push_goals w index d gs in
  core root i d w' /\ w_nodes w `prefix_of` w_nodes w' /\ forall g, In g gs -> covers w' d g.
Proof.
  revert w. induction gs as [|g gs IH]; intros w Hc Hnd Hd Hi Hg.
  { split_and!; [done..|by intros ? []]. }
  destruct (push_core root i d w index nd g) as (Hc' & Hpre & Hcov); [done..|by apply Hg; left|].
  destruct (IH (push_goal q w (ps_relation g) (ps_object g) (Some index) (d + 1))) as (Hc2 & Hpre2 & Hcov2);
    [done| |done|done|by intros; apply Hg; right|].
  { destruct Hpre as [l ->]. by apply lookup_app_l_Some. }
  split_and!; [done|by etrans|]. intros g' [<-|Hg']; [|by apply Hcov2]. by eapply covers_prefix.
Qed.

(** ** Paths *)

Lemma path_loop_core root i d w k nd fuel acc :
  core root i d w -> w_nodes w !! k = Some nd -> k < fuel ->
  exists l, path_loop fuel (w_nodes w) k acc = Some (acc ++ l) /\ last l = Some root /\
    head l = Some (n_step nd) /\ linked (rev l) /\ length l = n_depth nd + 1.
Proof.
  intros Hc. revert k nd acc. induction fuel as [|fuel IH]; intros k nd acc Hk Hf; [lia|].
  cbn [path_loop]. rewrite Hk. cbn. destruct (c_parent _ _ _ _ Hc k nd Hk) as [_ Hp].
  destruct (n_parent nd) as [j|].
  - destruct Hp as (Hj & pn & Hpn & Hd & Hl).
    destruct (IH j pn (acc ++ [n_step nd]) Hpn) as (l & -> & Hlast & Hhead & Hlink & Hlen); [lia|].
    exists (n_step nd :: l). rewrite <- app_assoc. split_and!; [done| |done| |simpl; lia].
    + by destruct l.
    + simpl. eapply linked_snoc; [|done|done]. destruct l as [|x l]; [done|]. injection Hhead as ->.
      simpl. by rewrite last_snoc.
  - destruct Hp as [-> Hd]. exists [root]. by rewrite Hd.
Qed.

Lemma path_of_core root i d w k nd :
  core root i d w -> w_nodes w !! k = Some nd ->
  exists path, path_of w k = Some path /\ head path = Some root /\ last path = Some (n_step nd) /\
    linked path /\ length path = n_depth nd + 1.
Proof.
  intros Hc Hk. destruct (path_loop_core root i d w k nd (S k) [] Hc Hk) as (l & E & Hl & Hh & Hlk & Hn); [lia|].
  exists (rev l). unfold path_of. rewrite E. split_and!; [done|..|done|by rewrite length_rev].
  - destruct l as [|x l] using rev_ind; [done|]. rewrite last_snoc in Hl. by rewrite rev_app_distr.
  - destruct l as [|x l]; [done|]. simpl. by rewrite last_snoc.
Qed.

(** ** The loop *)

(** The first [i] goals name no subject of the request and their successors are queued. *)
Definition expanded (i : nat) (w : Walk) : Prop := forall j nd,
  j < i -> w_nodes w !! j = Some nd ->
  (forall s, ~ direct (n_step nd) s) /\ forall g, leads (n_step nd) g -> covers w (n_depth nd) g.

(** The evidence a match carries. *)
Definition evidence (m : Match) : Prop := exists g,
  head (m_path m) = Some (mk_step (m_relation m) (m_object m)) /\ last (m_path m) = Some g /\
  linked (m_path m) /\ direct g (m_subject m) /\ length (m_path m) <= max_depth (q_limits q) + 1.

Lemma core_pop root i d w nd rest :
  core root i d w -> w_queue w = i :: rest -> w_nodes w !! i = Some nd -> d <= n_depth nd ->
  core root (S i) (n_depth nd) (mk_walk (w_nodes w) rest (w_visited w)).
Proof.
  intros [Hq Hl Hv Hr Hp Hm Hb] E Hnd Hd. pose proof (lookup_lt_Some _ _ _ Hnd) as Hi.
  split; cbn [w_nodes w_queue w_visited]; try done.
  - rewrite Hq in E. replace (length (w_nodes w) - i) with (S (length (w_nodes w) - S i)) in E by lia.
    by injection E as <-.
  - intros k x Hk. specialize (Hb k x Hk). lia.
Qed.

(** A walk that emptied its queue saw all that can be reached within the depth. *)
Lemma expanded_complete root d w n g s k nd :
  core root (length (w_nodes w)) d w -> expanded (length (w_nodes w)) w ->
  w_nodes w !! k = Some nd -> n_step nd = g -> n_depth nd + n <= max_depth (q_limits q) ->
  ~ reaches n g s.
Proof.
  intros Hc He Hk Hg Hn Hr. revert k nd Hk Hg Hn.
  induction Hr as [g s Hs|n g g' s Hl Hr IH]; intros k nd Hk Hg Hn; subst g;
    destruct (He k nd (lookup_lt_Some _ _ _ Hk) Hk) as [Hno Hcov].
  - by destruct (Hno s).
  - destruct (Hcov g' Hl) as (k' & nd' & Hk' & Hg' & Hd'); [lia|]. apply (IH k' nd'); [done..|lia].
Qed.

Lemma expanded_step i w w' nd :
  expanded i w -> w_nodes w !! i = Some nd -> w_nodes w `prefix_of` w_nodes w' ->
  (forall s, ~ direct (n_step nd) s) -> (forall g, leads (n_step nd) g -> covers w' (n_depth nd) g) ->
  expanded (S i) w'.
Proof.
  intros He Hnd Hpre Hno Hcov j x Hj Hx. pose proof Hpre as [l Hl].
  destruct (decide (j = i)) as [->|Hji].
  - rewrite Hl, (lookup_app_l_Some _ _ _ _ Hnd) in Hx. by injection Hx as <-.
  - assert (w_nodes w !! j = Some x) as Hx'.
    { rewrite Hl, lookup_app_l in Hx; [done|]. apply lookup_lt_Some in Hnd. lia. }
    destruct (He j x) as [? Hcj]; [lia|done|]. split; [done|]. intros g' Hg'.
    by eapply (covers_prefix w), Hcj.
Qed.

Definition search_ok (root : PathStep) (budget : nat) (r : option (Search * nat)) : Prop :=
  match r with
  | None => False
  | Some (Search.Found m, _) =>
      mk_step (m_relation m) (m_object m) = root /\ evidence m
  | Some (Search.NotFound, _) =>
      forall n s, n <= max_depth (q_limits q) -> ~ reaches n root s
  | Some (Search.Exhausted, b) => b = 0
  end.

Lemma walk_loop_ok relation object budget w i d :
  let root := mk_step relation object in
  core root i d w -> expanded i w -> (forall nd, w_nodes w !! i = Some nd -> d <= n_depth nd) ->
  search_ok root budget (walk_loop p q relation object budget w).
Proof.
  intros root. revert w i d. induction budget as [|budget IH]; intros w i d Hc He Hd;
    cbn [walk_loop]; destruct (w_queue w) as [|index rest] eqn:Eq.
  1,3: cbn; assert (i = length (w_nodes w)) as ->
    by (pose proof (c_queue _ _ _ _ Hc) as H; pose proof (c_len _ _ _ _ Hc); rewrite Eq in H;
        destruct (length (w_nodes w) - i) eqn:E; [lia|done]);
    intros n s Hn; by eapply expanded_complete; [done..|apply Hc|done|].
  { done. }
  assert (index = i) as ->.
  { pose proof (c_queue _ _ _ _ Hc) as H. rewrite Eq in H. by destruct (length _ - i); simplify_eq/=. }
  destruct (lookup_lt_is_Some_2 (w_nodes w) i) as [nd Hnd].
  { pose proof (c_queue _ _ _ _ Hc) as H. rewrite Eq in H.
    destruct (length (w_nodes w) - i) eqn:E; [done|lia]. }
  rewrite Hnd. cbn [mbind option_bind]. set (g := n_step nd). set (w0 := mk_walk (w_nodes w) rest (w_visited w)).
  pose proof (core_pop root i d w nd rest Hc Eq Hnd (Hd nd Hnd)) as Hc0. fold w0 in Hc0.
  destruct (try_subjects_goals w0 i (n_depth nd) (subjects_for p (ps_object g) (ps_relation g)))
    as [[Hno ->]|(l1 & s & l2 & El & Es & Hs & ->)].
  - rewrite push_rewrites_goals, <- push_goals_app. fold (goals g).
    destruct (push_goals_core root (S i) (n_depth nd) w0 i nd (goals g)) as (Hc1 & [l Hl] & Hcov);
      [done|done|done|lia|by intros ? ?%goals_leads|].
    apply (IH _ (S i) (n_depth nd)); [done| |].
    + eapply (expanded_step i w _ nd); [done|done|by exists l| |by intros ? ?%goals_leads%Hcov].
      intros s (Hin & Hr & Hh). rewrite List.Forall_forall in Hno. by rewrite (Hno s Hin Hr) in Hh.
    + intros x Hx. eapply (c_mono _ _ _ _ Hc1 i (S i)); [lia| |done].
      rewrite Hl. by apply lookup_app_l_Some.
  - destruct (push_goals_core root (S i) (n_depth nd) w0 i nd (flat_map subject_goals l1))
      as (Hc1 & [l Hl] & _); [done|done|done|lia| |].
    { intros g' (t & Ht & Hg')%in_flat_map. eapply subject_goals_leads; [|done].
      fold g. rewrite El. apply in_app_iff. by left. }
    destruct (path_of_core root (S i) (n_depth nd) _ i nd Hc1) as (path & -> & Hh & Hla & Hlk & Hlen).
    { rewrite Hl. by apply lookup_app_l_Some. }
    split; [done|]. exists g. cbn [m_path m_relation m_object m_subject].
    split_and!; [done..| |].
    + split_and!; [|done..]. rewrite El. apply in_app_iff. right. by left.
    + destruct (c_parent _ _ _ _ Hc i nd Hnd) as [? _]. lia.
Qed.

Lemma core_start root : core root 0 0 (push_goal q walk_new (ps_relation root) (ps_object root) None 0).
Proof.
  unfold push_goal. rewrite bool_decide_false by lia. destruct root as [relation object].
  cbn [walk_new w_visited os_mem w_nodes w_queue app length ps_relation ps_object os_insert].
  assert (forall k nd, [mk_node (mk_step relation object) None 0] !! k = Some nd ->
    k = 0 /\ nd = mk_node (mk_step relation object) None 0) as Hone.
  { intros k nd [? <-]%list_lookup_singleton_Some. done. }
  split; cbn [w_nodes w_queue w_visited length]; try done.
  - lia.
  - intros [r o]. cbn [ps_relation ps_object In]. split.
    + intros [[= -> ->]|[]]. by exists 0, (mk_node (mk_step r o) None 0).
    + intros (k & nd & [_ ->]%Hone & [= -> ->]). by left.
  - intros k nd [_ ->]%Hone. simpl. split; [lia|done].
  - intros j k nd nd' _ [_ ->]%Hone [_ ->]%Hone. done.
  - intros k nd [_ ->]%Hone. simpl. lia.
Qed.

Lemma run_walk_ok relation object budget :
  search_ok (mk_step relation object) budget (run_walk p q relation object budget).
Proof.
  apply (walk_loop_ok relation object budget _ 0 0).
  - apply (core_start (mk_step relation object)).
  - intros j nd Hj. lia.
  - intros nd _. lia.
Qed.

(** ** The check *)

Lemma linked_reaches path root g s :
  head path = Some root -> last path = Some g -> linked path -> direct g s ->
  reaches (length path - 1) root s.
Proof.
  revert root. induction path as [|x path IH]; intros root Hh Hl Hk Hd; [done|].
  injection Hh as ->. destruct path as [|y path].
  - injection Hl as ->. by constructor.
  - destruct Hk as [Hxy Hk]. specialize (IH y eq_refl Hl Hk Hd). simpl in *. rewrite Nat.sub_0_r in *.
    by eapply reaches_hop.
Qed.

(** A target relation the request satisfies within the depth. *)
Definition granted (root : ObjectRef * string) : Prop := exists n s,
  n <= max_depth (q_limits q) /\ reaches n (mk_step root.2 root.1) s.

Definition match_root (m : Match) : ObjectRef * string := (m_object m, m_relation m).

Lemma evidence_granted m : evidence m -> granted (match_root m).
Proof.
  intros (g & Hh & Hl & Hk & Hd & Hn). exists (length (m_path m) - 1), (m_subject m).
  split; [lia|]. by eapply linked_reaches.
Qed.

Lemma check_roots_ok roots budget matches :
  exists found exhausted b, check_roots p q roots budget matches = Some (matches ++ found, exhausted, b) /\
    (forall m, In m found -> In (match_root m) roots /\ evidence m) /\
    (exhausted = true -> b = 0) /\
    (exhausted = false -> forall root, In root roots -> granted root -> In root (map match_root found)).
Proof.
  revert budget matches. induction roots as [|[object relation] roots IH]; intros budget matches;
    cbn [check_roots].
  { exists [], false, budget. rewrite app_nil_r. split_and!; [done|by intros ? []|done|by intros _ ? []]. }
  pose proof (run_walk_ok relation object budget) as Hr.
  destruct (run_walk p q relation object budget) as [[[m| |] b]|]; [| | |done]; cbn [mbind option_bind].
  - destruct Hr as [Hroot Hev]. injection Hroot as Hrel Hobj.
    destruct (IH b (matches ++ [m])) as (found & ex & b' & -> & Hs & Hb & Hc).
    exists (m :: found), ex, b'. rewrite <- app_assoc. split_and!; [done| |done|].
    + intros x [<-|Hx]; [|destruct (Hs x Hx); split; [by right|done]].
      split; [left; unfold match_root; congruence|done].
    + intros E root [<-|Hroot] Hg; [left; unfold match_root; congruence|right; by apply Hc].
  - destruct (IH b matches) as (found & ex & b' & -> & Hs & Hb & Hc).
    exists found, ex, b'. split_and!; [done| |done|].
    + intros x Hx. destruct (Hs x Hx). split; [by right|done].
    + intros E root [<-|Hroot] Hg; [|by apply Hc]. destruct Hg as (n & s & Hn & Hre).
      by destruct (Hr n s Hn).
  - exists [], true, b. rewrite app_nil_r. split_and!; [done|by intros ? []|done|done].
Qed.

Definition roots : list (ObjectRef * string) :=
  flat_map (fun object => map (fun relation => (object, relation)) (q_relations q)) (q_objects q).

Lemma combine_views_matches ms : outcome_matches (combine_views p ms) = ms /\ is_allowed (combine_views p ms) = true.
Proof.
  unfold combine_views. destruct (collect_views _ _ _ _) as [[[fs ns] ks]|]; [|done].
  by destruct (combine fs), (is_unrestricted ks).
Qed.

(** C22. A check always answers, and answers what the policy means: every match it reports
    is a target relation with a path of related goals to a tuple that names a subject of the
    request; it grants exactly when some target relation can be satisfied within the depth
    bound, unless it says that the visit budget ran out, which it says only after spending
    all of it. *)
Theorem check_exact :
  exists out, check p q = Some out /\
    (forall m, In m (outcome_matches out) -> In (match_root m) roots /\ evidence m) /\
    ((exists v, out = Outcome.Deny (Denial.Exhausted v) /\ v = max_visited (q_limits q)) \/
     (is_allowed out = true <-> exists root, In root roots /\ granted root)).
Proof.
  unfold check. fold roots. destruct (q_relations q) as [|rel rels] eqn:Er.
  { eexists. split; [done|]. split; [by intros ? []|]. right. split; [done|].
    intros (root & Hin & _). unfold roots in Hin. rewrite Er in Hin.
    by apply in_flat_map in Hin as (? & _ & []). }
  destruct (check_roots_ok roots (max_visited (q_limits q)) []) as (found & ex & b & -> & Hs & Hb & Hc).
  cbn [mbind option_bind app]. eexists. split; [done|]. destruct found as [|m found].
  - split; [by intros ? []|]. destruct ex; [left; exists (max_visited (q_limits q))|right].
    + rewrite (Hb eq_refl), Nat.sub_0_r. done.
    + split; [done|]. intros (root & Hin & Hg). by destruct (Hc eq_refl root Hin Hg).
  - destruct (combine_views_matches (m :: found)) as [Hms Hal]. rewrite Hms, Hal. split; [done|].
    right. split; [intros _|done]. destruct (Hs m) as [Hin Hev]; [by left|].
    exists (match_root m). split; [done|by apply evidence_granted].
Qed.

(** ** Views *)

Definition unfiltered (m : Match) : bool :=
  is_some_and (binding_for p (m_relation m) (m_object m)) b_unfiltered.

(** The compiled view bound to the relation a match satisfied. *)
Definition match_view (m : Match) : option CompiledView :=
  binding ← binding_for p (m_relation m) (m_object m); name ← b_view binding; policy_view p name.

Definition filter_visible (f : option ViewFilter) (a : string) : bool :=
  match f with Some f => attribute_visible f a | None => true end.

Definition view_shows (m : Match) (a : string) : bool :=
  match match_view m with Some v => filter_visible (cv_filter v) a | None => true end.

Definition view_opens (m : Match) (k : string) : bool :=
  match match_view m with Some v => key_allows (cv_keys v) k | None => true end.

(** What an outcome lets the reader see and hydrate. *)
Definition shows (o : Outcome) (a : string) : bool :=
  match o with
  | Outcome.Allow _ => true
  | Outcome.AllowFiltered _ g _ => filter_visible (rg_view g) a
  | Outcome.Deny _ => false
  end.

Definition opens (o : Outcome) (k : string) : bool :=
  match o with
  | Outcome.Allow _ => true
  | Outcome.AllowFiltered _ g _ => key_allows (rg_keys g) k
  | Outcome.Deny _ => false
  end.

Lemma combine_visible fs a : filter_visible (combine fs) a = forallb (fun f => attribute_visible f a) fs.
Proof. destruct fs as [|f [|f' fs]]; [done| |done]. simpl. by rewrite andb_true_r. Qed.

Lemma intersect_allows (x y : KeyGrant) k : key_allows (intersect x y) k = key_allows x k && key_allows y k.
Proof.
  destruct x as [|l], y as [|l']; simpl; rewrite ?andb_true_r; [done..|].
  apply eq_true_iff_eq. rewrite andb_true_iff, !os_mem_In, filter_In, os_mem_In. done.
Qed.

Lemma collect_views_spec ms fs ns ks :
  match collect_views p ms fs ns ks with
  | None => existsb unfiltered ms = true
  | Some (fs', _, ks') => existsb unfiltered ms = false /\
      (forall a, forallb (fun f => attribute_visible f a) fs' =
         forallb (fun f => attribute_visible f a) fs && forallb (fun m => view_shows m a) ms) /\
      (forall k, key_allows ks' k = key_allows ks k && forallb (fun m => view_opens m k) ms)
  end.
Proof.
  revert fs ns ks. induction ms as [|m ms IH]; intros fs ns ks; cbn [collect_views existsb forallb].
  { split_and!; [done|intros; by rewrite andb_true_r..]. }
  assert (unfiltered m = false -> match_view m = None -> forall fs ns ks,
    match collect_views p ms fs ns ks with
    | None => unfiltered m || existsb unfiltered ms = true
    | Some (fs', _, ks') => unfiltered m || existsb unfiltered ms = false /\
        (forall a, forallb (fun f => attribute_visible f a) fs' =
           forallb (fun f => attribute_visible f a) fs &&
           (view_shows m a && forallb (fun m => view_shows m a) ms)) /\
        (forall k, key_allows ks' k =
           key_allows ks k && (view_opens m k && forallb (fun m => view_opens m k) ms))
    end) as Hskip.
  { unfold view_shows at 1, view_opens at 1. intros -> -> fs0 ns0 ks0. apply IH. }
  destruct (binding_for p (m_relation m) (m_object m)) as [b|] eqn:Eb;
    [|apply Hskip; [unfold unfiltered|unfold match_view]; by rewrite Eb].
  destruct (b_unfiltered b) eqn:Eu; [unfold unfiltered at 1; by rewrite Eb; simpl; rewrite Eu|].
  assert (unfiltered m = false) as Hm by (unfold unfiltered; by rewrite Eb).
  destruct (b_view b) as [name|] eqn:En; cbn [mbind option_bind];
    [|apply Hskip; [done|]; unfold match_view; rewrite Eb; simpl; by rewrite En].
  assert (match_view m = policy_view p name) as Hv by (unfold match_view; rewrite Eb; simpl; by rewrite En).
  destruct (policy_view p name) as [v|] eqn:Ev; cbn [mbind option_bind]; [|by apply Hskip].
  specialize (IH (match cv_filter v with Some f => fs ++ [f] | None => fs end) (ns ++ [name])
    (intersect ks (cv_keys v))).
  destruct (collect_views p ms _ _ _) as [[[fs' ns'] ks']|]; [|by rewrite Hm].
  destruct IH as (Hu & Hf & Hk). unfold view_shows at 1, view_opens at 1. rewrite Hm, Hv.
  split_and!; [done| |].
  - intros a. rewrite Hf. destruct (cv_filter v); simpl; [|done].
    rewrite forallb_app. simpl. by rewrite andb_true_r, andb_assoc.
  - intros k. by rewrite Hk, intersect_allows, andb_assoc.
Qed.

Lemma combine_views_exact ms a k :
  (existsb unfiltered ms = true -> combine_views p ms = Outcome.Allow ms) /\
  (existsb unfiltered ms = false ->
     shows (combine_views p ms) a = forallb (fun m => view_shows m a) ms /\
     opens (combine_views p ms) k = forallb (fun m => view_opens m k) ms).
Proof.
  unfold combine_views. pose proof (collect_views_spec ms [] [] KeyGrant.Unrestricted) as H.
  destruct (collect_views _ _ _ _) as [[[fs ns] ks]|].
  - destruct H as (Hu & Hf & Hk). split; [congruence|]. intros _. specialize (Hf a). specialize (Hk k).
    simpl in Hf, Hk. rewrite <- Hf, <- Hk, <- combine_visible.
    destruct (combine fs) as [f|] eqn:Ec; [done|]. by destruct ks.
  - split; [done|]. intros E. congruence.
Qed.

(** C23. A granted check narrows by every view bound to a relation it found: unless one of
    those relations is marked unfiltered, an attribute is visible exactly when the view of
    each match shows it, and a key can be used exactly when the view of each match grants
    it. *)
Theorem check_views out a k :
  check p q = Some out -> is_allowed out = true ->
  (existsb unfiltered (outcome_matches out) = true -> out = Outcome.Allow (outcome_matches out)) /\
  (existsb unfiltered (outcome_matches out) = false ->
     shows out a = forallb (fun m => view_shows m a) (outcome_matches out) /\
     opens out k = forallb (fun m => view_opens m k) (outcome_matches out)).
Proof.
  unfold check. destruct (q_relations q); [by intros [= <-]|].
  destruct (check_roots _ _ _ _ _) as [[[ms ex] b]|]; [|done]. cbn [mbind option_bind].
  destruct ms as [|m ms]; intros [= <-]; [done|]. intros _.
  rewrite (proj1 (combine_views_matches (m :: ms))). apply combine_views_exact.
Qed.

End search.

(** ** A policy with a narrowed relation

    Alice subject_holds two relations on one database; the view bound to the second shows one
    attribute. *)

Definition alice : ObjectRef := object_parse "user:alice".
Definition music : ObjectRef := object_parse "database:music".
Definition only_name : ViewDef :=
  mk_view_def "names" (Some FilterKind.AttributeAllowlist) ["person/name"] [].

Definition two_relations : Policy :=
  mk_policy
    (om_insert (music, "reader") [mk_subject alice None]
      (om_insert (music, "viewer") [mk_subject alice None] []))
    [] [] [("names", mk_compiled (build_view only_name) (key_grant only_name))]
    [(("viewer", music), mk_binding "viewer" music (Some "names") false)] [].

Definition ask (visits : nat) : Query :=
  mk_query [alice] ["reader"; "viewer"] "query" [music] ["member"] (mk_limits 8 visits).

Definition asked (visits : nat) : Outcome :=
  match check two_relations (ask visits) with
  | Some out => out
  | None => Outcome.Deny (Denial.Exhausted 0)
  end.

Lemma check_views_witness :
  shows (asked 10) ":person/ssn" =
    forallb (fun m => view_shows two_relations m ":person/ssn") (outcome_matches (asked 10)) /\
  shows (asked 10) ":person/name" = true /\ shows (asked 10) ":person/ssn" = false.
Proof.
  split; [|split; by vm_compute].
  refine (proj1 (proj2 (check_views two_relations (ask 10) (asked 10) ":person/ssn" "k" _ _) _));
    by vm_compute.
Defined.

(** A check that runs out of budget after its first match leaves out the views of the
    relations it did not get to: with one visit Alice sees what two visits hide. *)
Lemma exhaustion_widens :
  shows (asked 1) ":person/ssn" = true /\ shows (asked 2) ":person/ssn" = false.
Proof. split; by vm_compute. Qed.

(** A permission for one object type grants on objects of another: the relations of all
    targets are pooled before they are looked for on each. *)
Definition tenant_members : Policy :=
  mk_policy [((music, "member"), [mk_subject alice None])] [] [(("tenant", "query"), ["member"])] [] []
    [("music", [object_parse "tenant:acme"])].

Lemma permission_crosses_types :
  relations_for tenant_members "database" Action.Query = [] /\
  is_allowed <$> check tenant_members
    (access_query tenant_members (mk_object "catalog" WILDCARD) ["member"] limits_default [alice]
      (Some "music") Action.Query) = Some true.
Proof. split; by vm_compute. Qed.
