(* ===== verification/Text.v ===== *)
(** * Text as the standard library reads and prints it

    Decimal integers ([to_string], [parse]), [str::lines], and affixes, for the records and
    file names kept as text. A string is its UTF-8 bytes. *)

From stdpp Require Import base list strings.
From Stdlib Require Import Ascii ZArith Lia.
From S2P Require Import Prelude OrdMap Machine Keyword.
Local Open Scope Z_scope.

Definition LF : ascii := ascii_of_nat 10.
Definition CR : ascii := ascii_of_nat 13.

(** ** Decimal integers *)

Definition dec_char (d : Z) : ascii := ascii_of_N (Z.to_N (48 + d)).

Definition dec_value (c : ascii) : option Z :=
  let b := ascii_byte c in if Machine.in_range 48 57 b then Some (b - 48) else None.

Fixpoint dec_loop (fuel : nat) (x : Z) (acc : string) : string :=
  let acc := String (dec_char (x mod 10)) acc in
  if x <? 10 then acc
  else match fuel with O => acc | S fuel => dec_loop fuel (x / 10) acc end.

(** [u64::to_string]: twenty digits are enough. *)
Definition u64_to_string (x : Z) : string := dec_loop 20 x EmptyString.
Definition i64_to_string (x : Z) : string :=
  if x <? 0 then String "-"%char (u64_to_string (- x)) else u64_to_string x.

(** The digits of an integer of at most [max], an overflow being an error. *)
Fixpoint parse_digits (max : Z) (s : string) (acc : Z) : option Z :=
  match s with
  | EmptyString => Some acc
  | String c s =>
      d ← dec_value c;
      let acc := 10 * acc + d in
      if max <? acc then None else parse_digits max s acc
  end.

Definition parse_unsigned (max : Z) (s : string) : option Z :=
  match s with
  | EmptyString => None
  | String c rest =>
      if bool_decide (c = "+"%char) then
        if str_is_empty rest then None else parse_digits max rest 0
      else parse_digits max s 0
  end.

Definition parse_u64 : string -> option Z := parse_unsigned (2 ^ 64 - 1).
Definition parse_u32 : string -> option Z := parse_unsigned (2 ^ 32 - 1).

Definition parse_i64 (s : string) : option Z :=
  match s with
  | String c rest =>
      if bool_decide (c = "-"%char) then
        if str_is_empty rest then None else Z.opp <$> parse_digits (2 ^ 63) rest 0
      else parse_unsigned (2 ^ 63 - 1) s
  | EmptyString => None
  end.

(** ** Lines and affixes *)

Fixpoint strip_cr (s : string) : string :=
  match s with
  | EmptyString => EmptyString
  | String c s => if (bool_decide (c = CR) && str_is_empty s)%bool then EmptyString else String c (strip_cr s)
  end.

Fixpoint lines_loop (s line : string) : list string :=
  match s with
  | EmptyString => if str_is_empty line then [] else [line]
  | String c s =>
      if bool_decide (c = LF) then strip_cr line :: lines_loop s EmptyString
      else lines_loop s (line +:+ String c EmptyString)
  end.

Definition lines (s : string) : list string := lines_loop s EmptyString.

Fixpoint str_strip_prefix (p s : string) : option string :=
  match p, s with
  | EmptyString, _ => Some s
  | String a p, String b s => if bool_decide (a = b) then str_strip_prefix p s else None
  | String _ _, EmptyString => None
  end.

Fixpoint str_strip_suffix (p s : string) : option string :=
  if bool_decide (s = p) then Some EmptyString
  else match s with
       | EmptyString => None
       | String c s => rest ← str_strip_suffix p s; Some (String c rest)
       end.

(** ** Facts *)

Lemma str_app_cons c s t : String c s +:+ t = String c (s +:+ t).
Proof. reflexivity. Qed.

Lemma str_app_assoc a b c : (a +:+ b) +:+ c = a +:+ (b +:+ c).
Proof. induction a as [|d a IH]; [done|]. rewrite !str_app_cons. by f_equal. Qed.

Lemma dec_char_value d : 0 <= d < 10 -> dec_value (dec_char d) = Some d.
Proof.
  intros H. unfold dec_value, dec_char, ascii_byte. rewrite N_ascii_embedding by lia.
  rewrite Z2N.id by lia. unfold Machine.in_range. rewrite !(proj2 (Z.leb_le _ _)) by lia.
  cbn [andb]. f_equal. lia.
Qed.

Lemma dec_char_not d c : 0 <= d < 10 -> dec_value c = None -> dec_char d <> c.
Proof. intros H Hc E. subst c. by rewrite dec_char_value in Hc. Qed.

Lemma parse_digits_app max s t acc :
  parse_digits max (s +:+ t) acc = (x ← parse_digits max s acc; parse_digits max t x).
Proof.
  revert acc. induction s as [|c s IH]; intros acc; [done|]. rewrite str_app_cons. cbn [parse_digits].
  destruct (dec_value c) as [d|]; [|done]. cbn [mbind option_bind].
  destruct (max <? 10 * acc + d); [done|apply IH].
Qed.

(** The digits printed for [x] before [acc], read from zero. *)
Lemma dec_loop_app fuel x acc : dec_loop fuel x acc = dec_loop fuel x EmptyString +:+ acc.
Proof.
  revert x acc. induction fuel as [|fuel IH]; intros x acc; cbn [dec_loop]; destruct (x <? 10); try done.
  rewrite (IH _ (String (dec_char (x mod 10)) acc)), (IH _ (String (dec_char (x mod 10)) EmptyString)).
  by rewrite str_app_assoc.
Qed.

Lemma parse_dec_loop max fuel x : 0 <= x <= max -> x < 10 ^ (Z.of_nat fuel + 1) ->
  parse_digits max (dec_loop fuel x EmptyString) 0 = Some x.
Proof.
  revert x. induction fuel as [|fuel IH]; intros x Hx Hf; cbn [dec_loop].
  - rewrite (proj2 (Z.ltb_lt _ _)) by lia. cbn [parse_digits]. rewrite Z.mod_small by lia.
    rewrite dec_char_value by lia. cbn [mbind option_bind]. by rewrite (proj2 (Z.ltb_ge _ _)) by lia.
  - destruct (Z.ltb_spec x 10) as [Hl|Hl].
    + cbn [parse_digits]. rewrite Z.mod_small, dec_char_value by lia. cbn [mbind option_bind].
      by rewrite (proj2 (Z.ltb_ge _ _)) by lia.
    + rewrite dec_loop_app, parse_digits_app. pose proof (Z.div_mod x 10 ltac:(lia)) as E.
      pose proof (Z.mod_pos_bound x 10 ltac:(lia)) as Hm.
      rewrite IH; [| |].
      * cbn [mbind option_bind parse_digits]. rewrite dec_char_value by lia. cbn [mbind option_bind].
        rewrite (proj2 (Z.ltb_ge _ _)) by lia. f_equal. lia.
      * lia.
      * apply Z.div_lt_upper_bound; [lia|]. rewrite <- Z.pow_succ_r by lia.
        replace (Z.succ (Z.of_nat fuel + 1)) with (Z.of_nat (S fuel) + 1) by lia. done.
Qed.

Lemma dec_loop_head fuel x acc : 0 <= x -> exists d s, 0 <= d < 10 /\ dec_loop fuel x acc = String (dec_char d) s.
Proof.
  revert x acc. induction fuel as [|fuel IH]; intros x acc Hx; cbn [dec_loop];
    pose proof (Z.mod_pos_bound x 10 ltac:(lia)); destruct (x <? 10); eauto.
  apply IH. apply Z.div_pos; lia.
Qed.

Lemma parse_unsigned_to_string max x : 0 <= x <= max -> x < 10 ^ 21 ->
  parse_unsigned max (u64_to_string x) = Some x.
Proof.
  intros Hx Hb. unfold u64_to_string. pose proof (parse_dec_loop max 20 x Hx Hb) as H.
  destruct (dec_loop_head 20 x EmptyString ltac:(lia)) as (d & s & Hd & E). rewrite E in *.
  unfold parse_unsigned. rewrite bool_decide_false by (by apply dec_char_not). done.
Qed.

Lemma parse_u64_to_string x : u64 x -> parse_u64 (u64_to_string x) = Some x.
Proof. unfold u64. intros H. apply parse_unsigned_to_string; lia. Qed.

Lemma parse_u32_to_string x : u32 x -> parse_u32 (u64_to_string x) = Some x.
Proof. unfold u32. intros H. apply parse_unsigned_to_string; lia. Qed.

Lemma parse_i64_to_string x : i64 x -> parse_i64 (i64_to_string x) = Some x.
Proof.
  unfold i64, i64_to_string. intros H. destruct (Z.ltb_spec x 0) as [Hn|Hn].
  - unfold parse_i64. rewrite bool_decide_true by done.
    destruct (dec_loop_head 20 (- x) EmptyString ltac:(lia)) as (d & s & Hd & E).
    unfold u64_to_string. rewrite E. cbn [str_is_empty]. rewrite <- E, parse_dec_loop by lia.
    cbn [fmap option_fmap option_map]. f_equal. lia.
  - pose proof (parse_unsigned_to_string (2 ^ 63 - 1) x ltac:(lia) ltac:(lia)) as E.
    unfold u64_to_string in *. destruct (dec_loop_head 20 x EmptyString ltac:(lia)) as (d & s & Hd & E').
    rewrite E' in *. unfold parse_i64. by rewrite bool_decide_false by (by apply dec_char_not).
Qed.

(** *** Lines *)

Fixpoint str_forall (p : ascii -> bool) (s : string) : bool :=
  match s with EmptyString => true | String c s => p c && str_forall p s end.

(** A text that is one line of its own: no line feed, and no final carriage return that
    the reader would take for part of the line's end. *)
Definition one_line (s : string) : Prop :=
  str_forall (fun c => negb (bool_decide (c = LF))) s = true /\ strip_cr s = s.

Lemma str_forall_app p s t : str_forall p (s +:+ t) = (str_forall p s && str_forall p t)%bool.
Proof. induction s as [|c s IH]; [done|]. rewrite str_app_cons. cbn [str_forall]. by rewrite IH, andb_assoc. Qed.

Lemma lines_loop_app s t line : str_forall (fun c => negb (bool_decide (c = LF))) s = true ->
  lines_loop (s +:+ t) line = lines_loop t (line +:+ s).
Proof.
  revert line. induction s as [|c s IH]; intros line; rewrite ?str_app_cons; cbn [str_forall lines_loop].
  - intros _. f_equal. induction line as [|d line IHl]; [done|]. rewrite str_app_cons. by rewrite <- IHl.
  - intros [Hc Hs]%andb_true_iff. apply negb_true_iff in Hc. rewrite Hc, IH by done.
    by rewrite str_app_assoc.
Qed.

Lemma lines_cons s t : one_line s -> lines (s +:+ String LF t) = s :: lines t.
Proof.
  intros [Hs Hc]. unfold lines. rewrite lines_loop_app by done. cbn [lines_loop].
  rewrite bool_decide_true by done. by rewrite (eq_refl : EmptyString +:+ s = s), Hc.
Qed.

Lemma strip_prefix_app p s : str_strip_prefix p (p +:+ s) = Some s.
Proof.
  induction p as [|c p IH]; [done|]. rewrite str_app_cons. cbn [str_strip_prefix]. by rewrite bool_decide_true.
Qed.

Lemma strip_cr_safe s : str_forall (fun c => negb (bool_decide (c = CR))) s = true -> strip_cr s = s.
Proof.
  induction s as [|c s IH]; [done|]. cbn [str_forall strip_cr]. intros [Hc Hs]%andb_true_iff.
  apply negb_true_iff in Hc. rewrite Hc. cbn [andb]. by rewrite IH.
Qed.

Lemma str_forall_impl (p q : ascii -> bool) s : (forall c, p c = true -> q c = true) ->
  str_forall p s = true -> str_forall q s = true.
Proof.
  intros H. induction s as [|c s IH]; [done|]. cbn [str_forall]. rewrite !andb_true_iff. naive_solver.
Qed.

(** Printed integers are made of digits and a sign. *)
Definition number_char (c : ascii) : bool := (is_some (dec_value c) || bool_decide (c = "-"%char))%bool.

Lemma dec_loop_chars fuel x acc : 0 <= x -> str_forall number_char acc = true ->
  str_forall number_char (dec_loop fuel x acc) = true.
Proof.
  revert x acc. induction fuel as [|fuel IH]; intros x acc Hx Ha; cbn [dec_loop];
    pose proof (Z.mod_pos_bound x 10 ltac:(lia)) as Hm;
    assert (str_forall number_char (String (dec_char (x mod 10)) acc) = true) as H
      by (cbn [str_forall]; unfold number_char at 1; rewrite dec_char_value by lia; done);
    destruct (x <? 10); try done.
  apply IH; [apply Z.div_pos; lia|done].
Qed.

Lemma number_chars_line s : str_forall number_char s = true -> one_line s.
Proof.
  intros H. split; [|apply strip_cr_safe]; eapply str_forall_impl; [|exact H| |exact H]; intros c Hc;
    apply negb_true_iff, bool_decide_eq_false; intros ->; vm_compute in Hc; done.
Qed.

Lemma u64_to_string_chars x : 0 <= x -> str_forall number_char (u64_to_string x) = true.
Proof. intros H. by apply dec_loop_chars. Qed.

Lemma i64_to_string_chars x : str_forall number_char (i64_to_string x) = true.
Proof.
  unfold i64_to_string. destruct (Z.ltb_spec x 0); [|by apply u64_to_string_chars].
  cbn [str_forall]. rewrite u64_to_string_chars by lia. reflexivity.
Qed.

Lemma u64_to_string_line x : 0 <= x -> one_line (u64_to_string x).
Proof. intros H. by apply number_chars_line, u64_to_string_chars. Qed.

Lemma i64_to_string_line x : one_line (i64_to_string x).
Proof. apply number_chars_line, i64_to_string_chars. Qed.
