(* ===== verification/Crypt.v ===== *)
(** * Stored encryption formats and key resolution (corium-crypt/src/lib.rs)

    AES-256-GCM, AES-256-GCM-SIV and BLAKE3 are third-party: they are the operations of
    the class [Crypto], with what the formats rely on as [CryptoLaws]. The operating
    system's random source is the argument [rand] ([None] when it is unavailable), and the
    files and environment variables keys are read from are the class [KeySources].
    A [SecretKey] is its 32 bytes. *)

From stdpp Require Import base list strings.
From Stdlib Require Import Ascii ZArith Lia.
From S2P Require Import Prelude OrdMap Machine Keyword.
Local Open Scope Z_scope.

(** Bytes [i..j] of a slice whose length has been checked. *)
Definition slice (l : bytes) (i j : nat) : bytes := take (j - i) (drop i l).

Definition BLOB_MAGIC : bytes := as_bytes "CORIUMB1".
Definition LOG_MAGIC : bytes := as_bytes "CORIUML1".
Definition ALGORITHM_AES_256_GCM_SIV : Z := 1.
Definition ALGORITHM_AES_256_GCM : Z := 2.
Definition AEAD_TAG_LEN : nat := 16.
Definition NONCE_LEN : nat := 12.
Definition BLOB_HEADER_LEN : nat := length BLOB_MAGIC + 1 + 4 + 8.
Definition LOG_HEADER_LEN : nat := length LOG_MAGIC + 1 + 4 + 8 + NONCE_LEN.

Definition SecretKey : Type := bytes.
Definition KeyId : Type := string.

Record BlobHeader := mk_blob_header { bh_epoch : Z; bh_plaintext_len : Z }.
Record LogHeader := mk_log_header { lh_epoch : Z; lh_t : Z }.

Module CryptError.
Inductive CryptError :=
| InvalidKeyLength
| RandomnessUnavailable
| InvalidBlobHeader
| InvalidLogHeader
| UnsupportedAlgorithm (algorithm : Z)
| InvalidBlobLength
| EncryptionFailed
| AuthenticationFailed
| PlaintextTooLarge.
End CryptError.
Notation CryptError := CryptError.CryptError.

Module KeyError.
Inductive KeyError :=
| InvalidId
| MissingKey (id : KeyId) (epoch : Z)
| MissingCurrentEpoch (id : KeyId)
| InvalidWrappedKey
| UnsupportedScheme (id : KeyId)
| Unreadable (id : KeyId) (reason : string)
| InvalidMaterial (id : KeyId)
| WrappedEpochMismatch (expected actual : Z)
| Crypt (error : CryptError).
End KeyError.
Notation KeyError := KeyError.KeyError.

(** ** Primitives *)

(** [gcm_*] and [siv_*] take the key, the nonce, the additional data and the message, as
    [Aead::encrypt] and [Aead::decrypt] do; [blake3_keyed] hashes the concatenation of
    what a keyed hasher is updated with. *)
Class Crypto := {
  gcm_encrypt : bytes -> bytes -> bytes -> bytes -> option bytes;
  gcm_decrypt : bytes -> bytes -> bytes -> bytes -> option bytes;
  siv_encrypt : bytes -> bytes -> bytes -> bytes -> option bytes;
  siv_decrypt : bytes -> bytes -> bytes -> bytes -> option bytes;
  blake3_hash : bytes -> bytes;
  blake3_keyed : bytes -> bytes -> bytes;
}.

(** Both modes append a 16-byte tag, decrypt what they encrypted, and accept only what
    encrypting the plaintext they return produces; digests are 32 bytes. *)
Class CryptoLaws (C : Crypto) : Prop := {
  gcm_inverse : forall k n a m c, gcm_decrypt k n a c = Some m <-> gcm_encrypt k n a m = Some c;
  gcm_length : forall k n a m c, gcm_encrypt k n a m = Some c ->
    length c = (length m + AEAD_TAG_LEN)%nat;
  siv_inverse : forall k n a m c, siv_decrypt k n a c = Some m <-> siv_encrypt k n a m = Some c;
  siv_length : forall k n a m c, siv_encrypt k n a m = Some c ->
    length c = (length m + AEAD_TAG_LEN)%nat;
  blake3_keyed_length : forall k m, length (blake3_keyed k m) = 32%nat;
  blake3_hash_length : forall m, length (blake3_hash m) = 32%nat;
  blake3_hash_wf : forall m, bytes_wf (blake3_hash m);
}.

(** What key identities name outside the process. *)
Class KeySources := {
  fs_read : string -> result string bytes;
  env_var : string -> option string;
}.

(** ** Keys and key identities *)

Definition secret_key_from_slice (b : bytes) : result CryptError SecretKey :=
  if (length b =? 32)%nat then Ok b else Err CryptError.InvalidKeyLength.

Definition secret_key_generate (rand : option bytes) : result CryptError SecretKey :=
  ok_or rand CryptError.RandomnessUnavailable.

Definition key_id_new (value : string) : result KeyError KeyId :=
  if str_is_empty value then Err KeyError.InvalidId else Ok value.

Definition key_id_scheme (id : KeyId) : option (string * string) := split_once ":"%char id.

(** UTF-8 encodings of the characters [char::is_whitespace] accepts. *)
Definition WHITESPACE : list bytes :=
  [[0x09]; [0x0A]; [0x0B]; [0x0C]; [0x0D]; [0x20]; [0xC2; 0x85]; [0xC2; 0xA0];
   [0xE1; 0x9A; 0x80]; [0xE2; 0x80; 0xA8]; [0xE2; 0x80; 0xA9]; [0xE2; 0x80; 0xAF];
   [0xE2; 0x81; 0x9F]; [0xE3; 0x80; 0x80]] ++
  map (fun b => [0xE2; 0x80; 0x80 + Z.of_nat b]) (seq 0 11).

Definition bytes_starts_with (l p : bytes) : bool := bool_decide (take (length p) l = p).
Definition ends_with (l p : bytes) : bool :=
  ((length p <=? length l)%nat && bool_decide (drop (length l - length p) l = p))%bool.

(** The two halves of [str::trim]; every round removes a character, so the length of the
    text bounds the rounds. *)
Fixpoint trim_start (fuel : nat) (l : bytes) : bytes :=
  match fuel with
  | O => l
  | S fuel =>
      match List.find (bytes_starts_with l) WHITESPACE with
      | Some w => trim_start fuel (drop (length w) l)
      | None => l
      end
  end.

Fixpoint trim_end (fuel : nat) (l : bytes) : bytes :=
  match fuel with
  | O => l
  | S fuel =>
      match List.find (ends_with l) WHITESPACE with
      | Some w => trim_end fuel (take (length l - length w) l)
      | None => l
      end
  end.

Definition trim (l : bytes) : bytes :=
  let l := trim_start (length l) l in trim_end (length l) l.

(** [char::to_digit(16)] on a byte. *)
Definition hex_value (b : Z) : option Z :=
  if Machine.in_range 0x30 0x39 b then Some (b - 0x30)
  else if Machine.in_range 0x61 0x66 b then Some (b - 0x61 + 10)
  else if Machine.in_range 0x41 0x46 b then Some (b - 0x41 + 10)
  else None.

(** [u8::from_str_radix] with radix 16 on two bytes: the standard library accepts a
    leading plus sign. *)
Definition hex_byte (b c : Z) : option Z :=
  if (b =? 0x2B) then hex_value c
  else x ← hex_value b; y ← hex_value c; Some (16 * x + y).

Fixpoint hex_bytes (l : bytes) : option bytes :=
  match l with
  | b :: c :: l =>
      x ← (if utf8_valid [b; c] then hex_byte b c else None); xs ← hex_bytes l; Some (x :: xs)
  | _ => Some []
  end.

Definition decode_key_material (material : bytes) : option SecretKey :=
  match secret_key_from_slice material with
  | Ok key => Some key
  | Err _ =>
      if utf8_valid material then
        let trimmed := trim material in
        if negb (length trimmed =? 64)%nat then None else hex_bytes trimmed
      else None
  end.

Definition load_key `{KeySources} (id : KeyId) : result KeyError SecretKey :=
  match key_id_scheme id with
  | None => Err (KeyError.UnsupportedScheme id)
  | Some (scheme, rest) =>
      material ←
        (if bool_decide (scheme = "file"%string) then
           map_err (fun error => KeyError.Unreadable id
             ("cannot read " +:+ rest +:+ ": " +:+ error)) (fs_read rest)
         else if bool_decide (scheme = "env"%string) then
           value ← ok_or (env_var rest) (KeyError.Unreadable id
             ("environment variable " +:+ rest +:+ " is not set"));
           Ok (as_bytes value)
         else Err (KeyError.UnsupportedScheme id));
      ok_or (decode_key_material material) (KeyError.InvalidMaterial id)
  end.

(** ** Formats *)

Section formats.
Context `{C : Crypto}.

Definition derive_key (parent : SecretKey) (context : bytes) : SecretKey :=
  blake3_keyed parent (as_bytes "corium/derived-key" ++ context).

(** [KeyInit::new_from_slice]: it fails only on a key of the wrong length. *)
Definition new_cipher (key : SecretKey) : result CryptError unit :=
  ensure (length key =? 32)%nat CryptError.InvalidKeyLength.

Definition checked_add_usize (x y : Z) : option Z := if x + y <? 2 ^ 64 then Some (x + y) else None.

Definition parse_blob_header (object : bytes) : result CryptError BlobHeader :=
  if ((length object <? BLOB_HEADER_LEN)%nat ||
      negb (bool_decide (take (length BLOB_MAGIC) object = BLOB_MAGIC)))%bool
  then Err CryptError.InvalidBlobHeader
  else
    let algorithm := from_be_bytes (slice object 8 9) in
    if negb (algorithm =? ALGORITHM_AES_256_GCM_SIV)
    then Err (CryptError.UnsupportedAlgorithm algorithm)
    else
      let epoch := from_be_bytes (slice object 9 13) in
      let plaintext_len := from_be_bytes (slice object 13 BLOB_HEADER_LEN) in
      expected_len ← ok_or
        (n ← checked_add_usize (Z.of_nat BLOB_HEADER_LEN) (Z.of_nat NONCE_LEN);
         n ← checked_add_usize n plaintext_len;
         checked_add_usize n (Z.of_nat AEAD_TAG_LEN)) CryptError.InvalidBlobLength;
      if negb (Z.of_nat (length object) =? expected_len) then Err CryptError.InvalidBlobLength
      else Ok (mk_blob_header epoch plaintext_len).

Definition blob_header (epoch plaintext_len : Z) : bytes :=
  BLOB_MAGIC ++ [ALGORITHM_AES_256_GCM_SIV] ++ to_be_bytes 4 epoch ++ to_be_bytes 8 plaintext_len.

Definition encrypt_blob (key : SecretKey) (epoch : Z) (plaintext : bytes) : result CryptError bytes :=
  let header := blob_header epoch (Z.of_nat (length plaintext)) in
  let nonce_digest :=
    blake3_keyed key (as_bytes "corium/blob-nonce" ++ header ++ blake3_hash plaintext) in
  let nonce_bytes := take NONCE_LEN nonce_digest in
  _ ← new_cipher key;
  ciphertext ← ok_or (siv_encrypt key nonce_bytes header plaintext) CryptError.EncryptionFailed;
  Ok (header ++ nonce_bytes ++ ciphertext).

Definition decrypt_blob (key : SecretKey) (object : bytes) : result CryptError bytes :=
  _ ← parse_blob_header object;
  let header := take BLOB_HEADER_LEN object in
  let nonce_end := (BLOB_HEADER_LEN + NONCE_LEN)%nat in
  let nonce := slice object BLOB_HEADER_LEN nonce_end in
  let ciphertext := drop nonce_end object in
  _ ← new_cipher key;
  ok_or (siv_decrypt key nonce header ciphertext) CryptError.AuthenticationFailed.

Definition zero_nonce : bytes := repeat 0 NONCE_LEN.

Definition seal_deterministic (key : SecretKey) (aad plaintext : bytes) : result CryptError bytes :=
  _ ← new_cipher key;
  ok_or (siv_encrypt key zero_nonce aad plaintext) CryptError.EncryptionFailed.

Definition open_deterministic (key : SecretKey) (aad body : bytes) : result CryptError bytes :=
  if (length body <? AEAD_TAG_LEN)%nat then Err CryptError.AuthenticationFailed
  else
    _ ← new_cipher key;
    ok_or (siv_decrypt key zero_nonce aad body) CryptError.AuthenticationFailed.

Definition is_encrypted_log_record (payload : bytes) : bool :=
  ((length LOG_MAGIC <=? length payload)%nat &&
   bool_decide (take (length LOG_MAGIC) payload = LOG_MAGIC))%bool.

Definition parse_log_header (payload : bytes) : result CryptError LogHeader :=
  if (negb (is_encrypted_log_record payload) ||
      (length payload <? LOG_HEADER_LEN + AEAD_TAG_LEN)%nat)%bool
  then Err CryptError.InvalidLogHeader
  else
    let algorithm := from_be_bytes (slice payload 8 9) in
    if negb (algorithm =? ALGORITHM_AES_256_GCM)
    then Err (CryptError.UnsupportedAlgorithm algorithm)
    else
      let epoch := from_be_bytes (slice payload 9 13) in
      let t := from_be_bytes (slice payload 13 21) in
      Ok (mk_log_header epoch t).

Definition log_header_and_aad (epoch : Z) (lineage : bytes) (log_version t : Z) (nonce : bytes)
  : bytes * bytes :=
  let header := LOG_MAGIC ++ [ALGORITHM_AES_256_GCM] ++ to_be_bytes 4 epoch ++ to_be_bytes 8 t ++ nonce in
  let aad := as_bytes "corium/log-v1" ++ to_be_bytes 8 (Z.of_nat (length lineage)) ++ lineage ++
    to_be_bytes 8 log_version ++ header in
  (header, aad).

Definition encrypt_log_record (rand : option bytes) (key : SecretKey) (epoch : Z) (lineage : bytes)
  (log_version t : Z) (plaintext : bytes) : result CryptError bytes :=
  nonce_bytes ← ok_or rand CryptError.RandomnessUnavailable;
  let (header, aad) := log_header_and_aad epoch lineage log_version t nonce_bytes in
  _ ← new_cipher key;
  ciphertext ← ok_or (gcm_encrypt key nonce_bytes aad plaintext) CryptError.EncryptionFailed;
  Ok (header ++ ciphertext).

Definition decrypt_log_record (key : SecretKey) (lineage : bytes) (log_version : Z) (payload : bytes)
  : result CryptError bytes :=
  h ← parse_log_header payload;
  let header := take LOG_HEADER_LEN payload in
  let nonce_bytes := drop (LOG_HEADER_LEN - NONCE_LEN) header in
  let (_, aad) := log_header_and_aad (lh_epoch h) lineage log_version (lh_t h) nonce_bytes in
  _ ← new_cipher key;
  ok_or (gcm_decrypt key nonce_bytes aad (drop LOG_HEADER_LEN payload)) CryptError.AuthenticationFailed.

(** ** The static keyring *)

Record StaticKeyring := mk_keyring {
  keys : list ((KeyId * Z) * SecretKey);
  current_epochs : list (KeyId * Z);
  key_ids : list KeyId;
}.

Definition keyring_default : StaticKeyring := mk_keyring [] [] [].
Definition STATIC_KEY_EPOCH : Z := 1.

Definition keyring_insert (k : StaticKeyring) (id : KeyId) (epoch : Z) (key : SecretKey) (current : bool)
  : StaticKeyring :=
  let ks := om_insert (id, epoch) key (keys k) in
  mk_keyring ks
    (if current then om_insert id epoch (current_epochs k) else current_epochs k)
    (os_of_list (map (fun p => p.1.1) ks)).

Fixpoint keyring_add `{KeySources} (k : StaticKeyring) (ids : list KeyId) : result KeyError StaticKeyring :=
  match ids with
  | [] => Ok k
  | id :: ids =>
      key ← load_key id;
      keyring_add (keyring_insert k id STATIC_KEY_EPOCH key true) ids
  end.

Definition keyring_resolve `{KeySources} (ids : list KeyId) : result KeyError StaticKeyring :=
  keyring_add keyring_default ids.

Definition keyring_key (k : StaticKeyring) (id : KeyId) (epoch : Z) : result KeyError SecretKey :=
  ok_or (om_get (id, epoch) (keys k)) (KeyError.MissingKey id epoch).

Definition keyring_current_epoch (k : StaticKeyring) (id : KeyId) : result KeyError Z :=
  ok_or (om_get id (current_epochs k)) (KeyError.MissingCurrentEpoch id).

Definition keyring_wrap (k : StaticKeyring) (id : KeyId) (epoch : Z) (dek : SecretKey)
  : result KeyError bytes :=
  kek ← keyring_key k id epoch;
  let wrapping_key := derive_key kek (as_bytes "corium/key-wrap") in
  map_err KeyError.Crypt (encrypt_blob wrapping_key epoch dek).

Definition keyring_unwrap (k : StaticKeyring) (id : KeyId) (epoch : Z) (wrapped : bytes)
  : result KeyError SecretKey :=
  kek ← keyring_key k id epoch;
  let wrapping_key := derive_key kek (as_bytes "corium/key-wrap") in
  header ← map_err KeyError.Crypt (parse_blob_header wrapped);
  if negb (bh_epoch header =? epoch)
  then Err (KeyError.WrappedEpochMismatch epoch (bh_epoch header))
  else
    plaintext ← map_err KeyError.Crypt (decrypt_blob wrapping_key wrapped);
    map_err (fun _ => KeyError.InvalidWrappedKey) (secret_key_from_slice plaintext).
End formats.

(** ** Slices of concatenations *)

Lemma slice_mid a b c i j : length a = i -> (i + length b)%nat = j -> slice (a ++ b ++ c) i j = b.
Proof.
  intros <- <-. unfold slice. rewrite drop_app_length. apply take_app_length'. lia.
Qed.

Lemma slice_app_l l r i j : (j <= length l)%nat -> slice (l ++ r) i j = slice l i j.
Proof.
  intros Hj. unfold slice. destruct (decide (i <= length l)%nat).
  - rewrite drop_app_le by lia. apply take_app_le. rewrite length_drop. lia.
  - by replace (j - i)%nat with 0%nat by lia.
Qed.

Lemma slice_all l n : length l = n -> slice l 0 n = l.
Proof. intros <-. unfold slice. rewrite drop_0, Nat.sub_0_r. apply firstn_all. Qed.

Lemma length_slice l i j : (j <= length l)%nat -> length (slice l i j) = (j - i)%nat.
Proof. intros ?. unfold slice. rewrite length_take, length_drop. lia. Qed.

Lemma slice_split l i j k : (i <= j)%nat -> (j <= k)%nat -> slice l i k = slice l i j ++ slice l j k.
Proof.
  intros ??. unfold slice. replace (k - i)%nat with ((j - i) + (k - j))%nat by lia.
  rewrite <- take_take_drop, drop_drop. do 3 f_equal. lia.
Qed.

Lemma take_slice l n : take n l = slice l 0 n.
Proof. unfold slice. by rewrite drop_0, Nat.sub_0_r. Qed.

Lemma bytes_wf_slice l i j : bytes_wf l -> bytes_wf (slice l i j).
Proof. intros H. by apply Forall_take, Forall_drop. Qed.

Lemma be_slice l i j : bytes_wf l -> (j <= length l)%nat ->
  to_be_bytes (j - i) (from_be_bytes (slice l i j)) = slice l i j.
Proof.
  intros Hl Hj. rewrite <- (length_slice l i j) at 1 by done.
  by apply to_from_be_bytes, bytes_wf_slice.
Qed.

Lemma be_slice_bound l i j n : bytes_wf l -> (j <= length l)%nat -> (j - i)%nat = n ->
  0 <= from_be_bytes (slice l i j) < 256 ^ Z.of_nat n.
Proof.
  intros Hl Hj <-. rewrite <- (length_slice l i j) by done.
  by apply from_be_bytes_bound, bytes_wf_slice.
Qed.

(** ** Log records *)

Section log_records.
Context `{CL : CryptoLaws}.

Notation log_header epoch t nonce :=
  (LOG_MAGIC ++ [ALGORITHM_AES_256_GCM] ++ to_be_bytes 4 epoch ++ to_be_bytes 8 t ++ nonce).

Lemma is_encrypted_magic rest : is_encrypted_log_record (LOG_MAGIC ++ rest) = true.
Proof.
  unfold is_encrypted_log_record. rewrite length_app, (proj2 (Nat.leb_le _ _)) by lia.
  by rewrite take_app_length, bool_decide_true.
Qed.

Lemma length_log_header epoch t nonce :
  length nonce = NONCE_LEN -> length (log_header epoch t nonce) = LOG_HEADER_LEN.
Proof. intros H. rewrite !length_app, !length_to_be_bytes, H. reflexivity. Qed.

Lemma log_header_fields epoch t nonce rest : length nonce = NONCE_LEN ->
  let l := log_header epoch t nonce ++ rest in
  slice l 8 9 = [ALGORITHM_AES_256_GCM] /\ slice l 9 13 = to_be_bytes 4 epoch /\
  slice l 13 21 = to_be_bytes 8 t /\ slice l 21 LOG_HEADER_LEN = nonce /\
  take LOG_HEADER_LEN l = log_header epoch t nonce /\ drop LOG_HEADER_LEN l = rest.
Proof.
  intros Hn l. pose proof (length_log_header epoch t nonce Hn) as Hl.
  assert (E : forall k, slice l k LOG_HEADER_LEN = slice (log_header epoch t nonce) k LOG_HEADER_LEN)
    by (intros; apply slice_app_l; lia).
  split_and!.
  - unfold l. rewrite <- !app_assoc. apply slice_mid; reflexivity.
  - unfold l. rewrite <- !app_assoc, (app_assoc LOG_MAGIC).
    apply slice_mid; [reflexivity|by rewrite length_to_be_bytes].
  - unfold l. rewrite <- !app_assoc, (app_assoc LOG_MAGIC), (app_assoc (LOG_MAGIC ++ _)).
    apply slice_mid; rewrite ?length_app, ?length_to_be_bytes; reflexivity.
  - rewrite E. rewrite !app_assoc.
    rewrite <- (app_nil_r (((_ ++ _) ++ _) ++ _)), <- app_assoc.
    apply slice_mid; rewrite ?length_app, ?length_to_be_bytes, ?Hn; reflexivity.
  - by apply take_app_length'.
  - by apply drop_app_length'.
Qed.

Lemma parse_log_header_app epoch t nonce rest :
  u32 epoch -> u64 t -> length nonce = NONCE_LEN -> (AEAD_TAG_LEN <= length rest)%nat ->
  parse_log_header (log_header epoch t nonce ++ rest) = Ok (mk_log_header epoch t).
Proof.
  intros He Ht Hn Hr. destruct (log_header_fields epoch t nonce rest Hn) as (Ha & Hep & Hti & _).
  unfold parse_log_header. rewrite Ha, Hep, Hti.
  rewrite <- app_assoc at 1. rewrite is_encrypted_magic, length_app, length_log_header by done.
  rewrite (proj2 (Nat.ltb_ge _ _)) by lia.
  rewrite !from_to_be_bytes by (unfold u32, u64 in *; simpl; lia). reflexivity.
Qed.

(** A payload whose header parses is a header of the parsed fields, a nonce and a body. *)
Lemma parse_log_header_ok payload h : bytes_wf payload -> parse_log_header payload = Ok h ->
  u32 (lh_epoch h) /\ u64 (lh_t h) /\
  length (slice payload 21 LOG_HEADER_LEN) = NONCE_LEN /\
  payload = log_header (lh_epoch h) (lh_t h) (slice payload 21 LOG_HEADER_LEN) ++
    drop LOG_HEADER_LEN payload.
Proof.
  intros Hw. unfold parse_log_header, is_encrypted_log_record.
  destruct (Nat.ltb_spec (length payload) (LOG_HEADER_LEN + AEAD_TAG_LEN)) as [|Hl];
    [by rewrite orb_true_r|rewrite orb_false_r].
  case_bool_decide as Hm; [|by rewrite andb_false_r].
  destruct (length LOG_MAGIC <=? length payload)%nat; [|done].
  cbn [negb andb]. destruct (Z.eqb_spec (from_be_bytes (slice payload 8 9)) ALGORITHM_AES_256_GCM)
    as [Ha|]; [|done]. intros [= <-]. cbn [lh_epoch lh_t].
  change (LOG_HEADER_LEN + AEAD_TAG_LEN)%nat with 49%nat in Hl.
  split; [apply (be_slice_bound _ _ _ 4); done || lia|].
  split; [apply (be_slice_bound _ _ _ 8); done || lia|].
  split; [apply length_slice; change LOG_HEADER_LEN with 33%nat; lia|].
  rewrite <- (take_drop LOG_HEADER_LEN payload) at 1. f_equal.
  rewrite take_slice, (slice_split _ 0 8), (slice_split _ 8 9), (slice_split _ 9 13), (slice_split _ 13 21)
    by (change LOG_HEADER_LEN with 33%nat; lia).
  rewrite <- take_slice. change 8%nat with (length LOG_MAGIC) at 1. rewrite Hm.
  rewrite <- (be_slice payload 8 9), Ha by (done || lia).
  rewrite <- (be_slice payload 9 13) at 1 by (done || lia).
  rewrite <- (be_slice payload 13 21) at 1 by (done || lia). reflexivity.
Qed.

Lemma new_cipher_ok key : length key = 32%nat -> new_cipher key = Ok tt.
Proof. intros H. unfold new_cipher. by rewrite H. Qed.

Lemma encrypt_log_record_ok nonce key epoch lineage v t m payload : length key = 32%nat ->
  encrypt_log_record (Some nonce) key epoch lineage v t m = Ok payload <->
  exists c, gcm_encrypt key nonce (log_header_and_aad epoch lineage v t nonce).2 m = Some c /\
    payload = log_header epoch t nonce ++ c.
Proof.
  intros Hk. unfold encrypt_log_record. cbn [mbind result_bind ok_or log_header_and_aad].
  rewrite new_cipher_ok by done. cbn [mbind result_bind log_header_and_aad snd].
  destruct (gcm_encrypt _ _ _ _) as [c|]; cbn [mbind result_bind ok_or].
  - split; [intros [= <-]; by exists c|]. intros (c' & [= ->] & ->). done.
  - split; [done|]. by intros (c' & ? & _).
Qed.

Lemma log_nonce payload :
  drop (LOG_HEADER_LEN - NONCE_LEN) (take LOG_HEADER_LEN payload) = slice payload 21 LOG_HEADER_LEN.
Proof. unfold slice. by rewrite take_drop_commute. Qed.

Lemma decrypt_log_record_eq key lineage v payload h : length key = 32%nat ->
  parse_log_header payload = Ok h ->
  let nonce := slice payload 21 LOG_HEADER_LEN in
  decrypt_log_record key lineage v payload =
    ok_or (gcm_decrypt key nonce (log_header_and_aad (lh_epoch h) lineage v (lh_t h) nonce).2
      (drop LOG_HEADER_LEN payload)) CryptError.AuthenticationFailed.
Proof.
  intros Hk Hh nonce. unfold decrypt_log_record. rewrite Hh. cbn [mbind result_bind].
  rewrite log_nonce. fold nonce. unfold log_header_and_aad.
  rewrite new_cipher_ok by done. reflexivity.
Qed.

Lemma decrypt_encrypt_log nonce key epoch lineage v t m payload :
  length key = 32%nat -> u32 epoch -> u64 t -> length nonce = NONCE_LEN ->
  encrypt_log_record (Some nonce) key epoch lineage v t m = Ok payload ->
  parse_log_header payload = Ok (mk_log_header epoch t) /\
  decrypt_log_record key lineage v payload = Ok m.
Proof.
  intros Hk He Ht Hn (c & Hc & ->)%encrypt_log_record_ok; [|done].
  pose proof (gcm_length _ _ _ _ _ Hc) as Hlen.
  assert (Hh := parse_log_header_app epoch t nonce c He Ht Hn ltac:(lia)). split; [done|].
  rewrite (decrypt_log_record_eq _ _ _ _ _ Hk Hh).
  destruct (log_header_fields epoch t nonce c Hn) as (_ & _ & _ & -> & _ & ->).
  cbn [lh_epoch lh_t]. by rewrite (proj2 (gcm_inverse _ _ _ _ _) Hc).
Qed.

(** A record opens as [m] exactly when sealing [m] under the same key, lineage and log
    version, at the epoch and number its header carries, produces it. *)
Lemma decrypt_log_record_iff key lineage v payload m : length key = 32%nat -> bytes_wf payload ->
  decrypt_log_record key lineage v payload = Ok m <->
  exists epoch t nonce, u32 epoch /\ u64 t /\ length nonce = NONCE_LEN /\
    encrypt_log_record (Some nonce) key epoch lineage v t m = Ok payload.
Proof.
  intros Hk Hw. split.
  - intros H. assert (exists h, parse_log_header payload = Ok h) as [h Hh].
    { unfold decrypt_log_record in H. apply bind_ok in H as (h & ? & _). by exists h. }
    rewrite (decrypt_log_record_eq _ _ _ _ _ Hk Hh) in H.
    destruct (parse_log_header_ok _ _ Hw Hh) as (He & Ht & Hn & E).
    exists (lh_epoch h), (lh_t h), (slice payload 21 LOG_HEADER_LEN). split_and!; try done.
    apply encrypt_log_record_ok; [done|]. exists (drop LOG_HEADER_LEN payload). split; [|done].
    destruct (gcm_decrypt _ _ _ _) as [m'|] eqn:D; [|done]. injection H as ->. by apply gcm_inverse.
  - intros (epoch & t & nonce & He & Ht & Hn & H). by eapply decrypt_encrypt_log.
Qed.

(** The additional data determines the lineage, the log version, the epoch and the
    transaction number: the length of the lineage is part of it, so no two lineages and
    versions run together to the same bytes. *)
Lemma log_aad_inj epoch epoch' lineage lineage' v v' t t' nonce nonce' :
  u32 epoch -> u32 epoch' -> u64 v -> u64 v' -> u64 t -> u64 t' ->
  Z.of_nat (length lineage) < 2 ^ 64 -> Z.of_nat (length lineage') < 2 ^ 64 ->
  (log_header_and_aad epoch lineage v t nonce).2 = (log_header_and_aad epoch' lineage' v' t' nonce').2 ->
  epoch = epoch' /\ lineage = lineage' /\ v = v' /\ t = t' /\ nonce = nonce'.
Proof.
  intros He He' Hv Hv' Ht Ht' Hl Hl'. cbn [log_header_and_aad snd]. intros H%app_inv_head.
  assert (forall n x y r s, 0 <= x < 256 ^ Z.of_nat n -> 0 <= y < 256 ^ Z.of_nat n ->
    to_be_bytes n x ++ r = to_be_bytes n y ++ s -> x = y /\ r = s) as be_inj.
  { intros n x y r s Hx Hy E. apply app_inj_1 in E as [E1 E2]; [|by rewrite !length_to_be_bytes].
    split; [|done]. by rewrite <- (from_to_be_bytes n x), <- (from_to_be_bytes n y), E1. }
  unfold u32, u64 in *.
  apply (be_inj 8%nat) in H as [Hlen H]; [|cbn; lia|cbn; lia].
  apply app_inj_1 in H as [-> H]; [|lia].
  apply (be_inj 8%nat) in H as [-> H]; [|cbn; lia|cbn; lia]. apply app_inv_head, app_inv_head in H.
  apply (be_inj 4%nat) in H as [-> H]; [|cbn; lia|cbn; lia].
  by apply (be_inj 8%nat) in H as [-> ->]; [|cbn; lia|cbn; lia].
Qed.
End log_records.

(** ** Blobs and wrapped keys *)

Section blobs.
Context `{CL : CryptoLaws}.

Lemma length_blob_header epoch n : length (blob_header epoch n) = BLOB_HEADER_LEN.
Proof. unfold blob_header. rewrite !length_app, !length_to_be_bytes. reflexivity. Qed.

Lemma blob_header_fields epoch n rest :
  let l := blob_header epoch n ++ rest in
  take (length BLOB_MAGIC) l = BLOB_MAGIC /\
  slice l 8 9 = [ALGORITHM_AES_256_GCM_SIV] /\ slice l 9 13 = to_be_bytes 4 epoch /\
  slice l 13 BLOB_HEADER_LEN = to_be_bytes 8 n.
Proof.
  unfold blob_header. rewrite <- !app_assoc. split_and!.
  - by rewrite take_app_length.
  - apply slice_mid; reflexivity.
  - rewrite (app_assoc BLOB_MAGIC). apply slice_mid; [reflexivity|by rewrite length_to_be_bytes].
  - rewrite (app_assoc BLOB_MAGIC), (app_assoc (BLOB_MAGIC ++ _)).
    apply slice_mid; rewrite ?length_app, ?length_to_be_bytes; reflexivity.
Qed.

Lemma parse_blob_header_app epoch n rest : u32 epoch -> 0 <= n < 2 ^ 63 ->
  Z.of_nat (length rest) = 28 + n ->
  parse_blob_header (blob_header epoch n ++ rest) = Ok (mk_blob_header epoch n).
Proof.
  intros He Hn Hr. destruct (blob_header_fields epoch n rest) as (Hm & Ha & Hep & Hle).
  unfold parse_blob_header. rewrite Hm, Ha, Hep, Hle, length_app, length_blob_header.
  rewrite (proj2 (Nat.ltb_ge _ _)) by lia. rewrite bool_decide_true by done. cbn [negb orb].
  rewrite !from_to_be_bytes by (unfold u32 in *; cbn; lia).
  change (negb (from_be_bytes [ALGORITHM_AES_256_GCM_SIV] =? ALGORITHM_AES_256_GCM_SIV)) with false.
  cbv iota. unfold checked_add_usize.
  change (Z.of_nat BLOB_HEADER_LEN + Z.of_nat NONCE_LEN) with 33.
  change (Z.of_nat AEAD_TAG_LEN) with 16.
  rewrite !Nat2Z.inj_add, Hr. change (Z.of_nat BLOB_HEADER_LEN) with 21.
  change (33 <? 2 ^ 64) with true. cbn [mbind option_bind].
  rewrite (proj2 (Z.ltb_lt (33 + n) _)) by lia. cbn [mbind option_bind].
  rewrite (proj2 (Z.ltb_lt _ _)) by lia. cbn [mbind result_bind ok_or].
  by rewrite (proj2 (Z.eqb_eq _ _)) by lia.
Qed.

Lemma blob_nonce_length key m : length (take NONCE_LEN (blake3_keyed key m)) = NONCE_LEN.
Proof. by rewrite length_take, blake3_keyed_length. Qed.

(** A blob decrypts, under its key, to the plaintext it encrypts, and its header carries
    the epoch and the plaintext's length. *)
Lemma decrypt_encrypt_blob key epoch m object : length key = 32%nat -> u32 epoch ->
  Z.of_nat (length m) < 2 ^ 63 -> encrypt_blob key epoch m = Ok object ->
  parse_blob_header object = Ok (mk_blob_header epoch (Z.of_nat (length m))) /\
  decrypt_blob key object = Ok m.
Proof.
  intros Hk He Hm. unfold encrypt_blob. set (h := blob_header epoch _).
  set (nonce := take NONCE_LEN _). rewrite new_cipher_ok by done. cbn [mbind result_bind].
  destruct (siv_encrypt key nonce h m) as [c|] eqn:Hc; [|done].
  cbn [mbind result_bind ok_or]. intros H. assert (object = h ++ nonce ++ c) as -> by congruence. clear H.
  assert (Hn : length nonce = NONCE_LEN) by apply blob_nonce_length.
  pose proof (siv_length _ _ _ _ _ Hc) as Hlc. change AEAD_TAG_LEN with 16%nat in Hlc.
  assert (Hp : parse_blob_header (h ++ nonce ++ c) = Ok (mk_blob_header epoch (Z.of_nat (length m)))).
  { apply parse_blob_header_app; [done|lia|]. rewrite length_app, Hn, Hlc.
    change NONCE_LEN with 12%nat. lia. }
  split; [done|]. unfold decrypt_blob. rewrite Hp, new_cipher_ok by done. cbn [mbind result_bind].
  assert (Hh : length h = BLOB_HEADER_LEN) by apply length_blob_header.
  rewrite slice_mid by (rewrite ?Hh, ?Hn; reflexivity).
  rewrite take_app_length' by done.
  rewrite app_assoc, drop_app_length' by (by rewrite length_app, Hh, Hn).
  by rewrite (proj2 (siv_inverse _ _ _ _ _) Hc).
Qed.

Lemma open_seal_deterministic key aad m body : seal_deterministic key aad m = Ok body ->
  open_deterministic key aad body = Ok m.
Proof.
  unfold seal_deterministic, open_deterministic. intros ([] & Hk & H)%bind_ok.
  destruct (siv_encrypt _ _ _ _) as [c|] eqn:Hc; [|done]. injection H as <-.
  rewrite (siv_length _ _ _ _ _ Hc), (proj2 (Nat.ltb_ge _ _)) by lia.
  rewrite Hk. cbn [mbind result_bind]. by rewrite (proj2 (siv_inverse _ _ _ _ _) Hc).
Qed.

(** ** The keyring *)

(** Every epoch a keyring would write under has its key, and the identities listed are
    those with material. *)
Record keyring_ok (k : StaticKeyring) : Prop := {
  ko_keys : om_wf (keys k);
  ko_ids : key_ids k = os_of_list (map (fun p => p.1.1) (keys k));
  ko_current : forall id epoch, keyring_current_epoch k id = Ok epoch ->
    exists key, keyring_key k id epoch = Ok key;
  ko_length : forall id epoch key, keyring_key k id epoch = Ok key -> length key = 32%nat;
}.

Lemma ok_or_ok {E A} (o : option A) (e : E) a : ok_or o e = Ok a <-> o = Some a.
Proof. destruct o; simpl; split; congruence. Qed.

Lemma keyring_default_ok : keyring_ok keyring_default.
Proof. split; try done. constructor. Qed.

Lemma keyring_insert_ok k id epoch key current : keyring_ok k -> length key = 32%nat ->
  keyring_ok (keyring_insert k id epoch key current).
Proof.
  intros [Hw Hi Hc Hl] Hk. unfold keyring_current_epoch, keyring_key in *.
  setoid_rewrite ok_or_ok in Hc. setoid_rewrite ok_or_ok in Hl.
  split; unfold keyring_current_epoch, keyring_key; cbn [keyring_insert keys current_epochs key_ids];
    [by apply om_insert_wf|done|setoid_rewrite ok_or_ok|setoid_rewrite ok_or_ok].
  - intros id' epoch' H.
    assert (H' : (id', epoch') = (id, epoch) \/ om_get id' (current_epochs k) = Some epoch').
    { destruct current; [|by right]. rewrite om_get_insert in H. destruct (cmp id' id) eqn:E; [|by right|by right].
      apply cmp_eq_iff in E as ->. left. congruence. }
    destruct H' as [->|H']; [exists key; apply om_get_insert_eq|].
    destruct (decide ((id', epoch') = (id, epoch))) as [->|Hne]; [exists key; apply om_get_insert_eq|].
    rewrite om_get_insert_ne by done. by apply Hc.
  - intros id' epoch' key'. rewrite om_get_insert. destruct (cmp _ _); [congruence|apply Hl|apply Hl].
Qed.

Lemma hex_bytes_length l key : hex_bytes l = Some key ->
  (2 * length key <= length l <= 2 * length key + 1)%nat.
Proof.
  revert l key. fix IH 1. intros [|b [|c l]] key; [intros [= <-]; simpl; lia|intros [= <-]; simpl; lia|].
  cbn [hex_bytes]. destruct (if utf8_valid [b; c] then hex_byte b c else None) as [x|]; [|done].
  cbn [mbind option_bind]. destruct (hex_bytes l) as [xs|] eqn:E; [|done].
  cbn [mbind option_bind]. intros [= <-]. apply IH in E. cbn [length]. lia.
Qed.

Lemma decode_key_material_length material key :
  decode_key_material material = Some key -> length key = 32%nat.
Proof.
  unfold decode_key_material, secret_key_from_slice.
  destruct (Nat.eqb_spec (length material) 32) as [H|]; [by intros [= <-]|].
  destruct (utf8_valid material); [|done].
  destruct (Nat.eqb_spec (length (trim material)) 64) as [H|]; [|done]. cbn [negb].
  intros E%hex_bytes_length. lia.
Qed.

Lemma load_key_length `{KeySources} id key : load_key id = Ok key -> length key = 32%nat.
Proof.
  unfold load_key. destruct (key_id_scheme id) as [[scheme rest]|]; [|done].
  intros (material & _ & H0)%bind_ok. apply ok_or_ok in H0. by eapply decode_key_material_length.
Qed.

Lemma keyring_add_ok `{KeySources} ids k k' : keyring_ok k -> keyring_add k ids = Ok k' -> keyring_ok k'.
Proof.
  revert k. induction ids as [|id ids IH]; intros k Hk; [by intros [= <-]|].
  cbn [keyring_add]. intros (key & Hl & H0)%bind_ok. eapply IH; [|done].
  apply keyring_insert_ok; [done|]. by eapply load_key_length.
Qed.

(** A data key wrapped under a key of the keyring unwraps to itself. *)
Lemma unwrap_wrap k id epoch dek wrapped : keyring_ok k -> u32 epoch -> length dek = 32%nat ->
  keyring_wrap k id epoch dek = Ok wrapped -> keyring_unwrap k id epoch wrapped = Ok dek.
Proof.
  intros Hk He Hd. unfold keyring_wrap, keyring_unwrap. intros (kek & Hkek & H)%bind_ok.
  rewrite Hkek. cbn [mbind result_bind]. set (wk := derive_key kek _) in *.
  destruct (encrypt_blob wk epoch dek) as [object|] eqn:E; [|done]. injection H as <-.
  apply decrypt_encrypt_blob in E as [Hp Hdec]; [|apply blake3_keyed_length|done|rewrite Hd; lia].
  rewrite Hp, Hdec. cbn [mbind result_bind map_err bh_epoch]. rewrite Z.eqb_refl. cbn [negb].
  unfold secret_key_from_slice. by rewrite Hd.
Qed.
End blobs.

(** ** Key material *)

Definition hex_char (d : Z) : Z := if d <? 10 then 0x30 + d else 0x61 + (d - 10).
Definition hex_encode (key : bytes) : bytes :=
  flat_map (fun b => [hex_char (b / 16); hex_char (b mod 16)]) key.
Definition whitespace (ws : list bytes) : Prop := Forall (fun w => In w WHITESPACE) ws.

Definition no_affix (f : bytes -> bytes -> bool) : bool :=
  forallb (fun w => forallb (fun p => implb (f w p) (bool_decide (p = w))) WHITESPACE) WHITESPACE.

(** No whitespace character's bytes begin or end another's. *)
Lemma whitespace_affix w p : In w WHITESPACE -> In p WHITESPACE ->
  (bytes_starts_with w p = true -> p = w) /\ (ends_with w p = true -> p = w).
Proof.
  intros Hw Hp.
  assert (no_affix bytes_starts_with = true) as Hs by (vm_compute; reflexivity).
  assert (no_affix ends_with = true) as He by (vm_compute; reflexivity).
  unfold no_affix in *. rewrite forallb_forall in Hs, He.
  specialize (Hs w Hw). specialize (He w Hw). rewrite forallb_forall in Hs, He.
  specialize (Hs p Hp). specialize (He p Hp).
  split; intros E; rewrite E in *; by apply bool_decide_eq_true in Hs || apply bool_decide_eq_true in He.
Qed.

Lemma bytes_starts_with_spec l p : bytes_starts_with l p = true <-> exists r, l = p ++ r.
Proof.
  unfold bytes_starts_with. rewrite bool_decide_eq_true. split.
  - intros H. exists (drop (length p) l). by rewrite <- H at 1; rewrite take_drop.
  - intros [r ->]. by rewrite take_app_length.
Qed.

Lemma ends_with_spec l p : ends_with l p = true <-> exists r, l = r ++ p.
Proof.
  unfold ends_with. rewrite andb_true_iff, bool_decide_eq_true, Nat.leb_le. split.
  - intros [H E]. exists (take (length l - length p) l). by rewrite <- E at 2; rewrite take_drop.
  - intros [r ->]. rewrite length_app. split; [lia|]. apply drop_app_length'. lia.
Qed.

Lemma find_unique {A} (f : A -> bool) l x :
  In x l -> f x = true -> (forall y, In y l -> f y = true -> y = x) -> List.find f l = Some x.
Proof.
  intros Hx Hf Hu. destruct (List.find f l) as [y|] eqn:E.
  - apply List.find_some in E as [Hy Hfy]. by rewrite (Hu y Hy Hfy).
  - pose proof (List.find_none _ _ E _ Hx). congruence.
Qed.

Lemma find_starts w l : In w WHITESPACE -> List.find (bytes_starts_with (w ++ l)) WHITESPACE = Some w.
Proof.
  intros Hw. apply find_unique; [done|apply bytes_starts_with_spec; eauto|].
  intros p Hp [r H]%bytes_starts_with_spec. apply app_eq_inv in H as [(k & H & _)|(k & H & _)].
  - apply (proj1 (whitespace_affix w p Hw Hp)), bytes_starts_with_spec. eauto.
  - symmetry. apply (proj1 (whitespace_affix p w Hp Hw)), bytes_starts_with_spec. eauto.
Qed.

Lemma find_ends w l : In w WHITESPACE -> List.find (ends_with (l ++ w)) WHITESPACE = Some w.
Proof.
  intros Hw. apply find_unique; [done|apply ends_with_spec; eauto|].
  intros p Hp [r H]%ends_with_spec. apply app_eq_inv in H as [(k & _ & H)|(k & _ & H)].
  - symmetry. apply (proj2 (whitespace_affix p w Hp Hw)), ends_with_spec. eauto.
  - apply (proj2 (whitespace_affix w p Hw Hp)), ends_with_spec. eauto.
Qed.

Lemma trim_start_ws ws l fuel : whitespace ws -> (length ws <= fuel)%nat ->
  List.find (bytes_starts_with l) WHITESPACE = None -> trim_start fuel (concat ws ++ l) = l.
Proof.
  intros Hws Hf Hl. revert fuel Hf.
  induction Hws as [|w ws Hw _ IH]; intros [|fuel] Hf; cbn [concat length app] in *.
  - done.
  - cbn [trim_start]. by rewrite Hl.
  - lia.
  - cbn [trim_start]. rewrite <- app_assoc, find_starts, drop_app_length by done. apply IH. lia.
Qed.

Lemma trim_end_ws ws l fuel : whitespace ws -> (length ws <= fuel)%nat ->
  List.find (ends_with l) WHITESPACE = None -> trim_end fuel (l ++ concat ws) = l.
Proof.
  intros Hws Hf Hl. revert fuel Hf.
  induction ws as [|w ws IH] using rev_ind; intros [|fuel] Hf.
  - by rewrite app_nil_r.
  - cbn [trim_end concat]. by rewrite app_nil_r, Hl.
  - rewrite length_app in Hf. simpl in Hf. lia.
  - apply Forall_app in Hws as [Hws Hw]. apply Forall_inv in Hw.
    rewrite concat_app. cbn [concat]. rewrite app_nil_r, app_assoc. cbn [trim_end].
    rewrite find_ends by exact Hw. rewrite take_app_length' by (rewrite !length_app; lia).
    apply IH; [done|]. rewrite length_app in Hf. simpl in Hf. lia.
Qed.

Lemma whitespace_length ws : whitespace ws -> (length ws <= length (concat ws))%nat.
Proof.
  induction 1 as [|w ws Hw _ IH]; [done|]. cbn [concat length]. rewrite length_app.
  enough (length w <> 0)%nat by lia. intros E%length_zero_iff_nil. subst w. by repeat destruct Hw as [?|Hw].
Qed.

Lemma utf8_valid_ws ws l : whitespace ws -> utf8_valid (concat ws ++ l) = utf8_valid l.
Proof.
  induction 1 as [|w ws Hw _ IH]; [done|]. cbn [concat]. rewrite <- app_assoc, <- IH.
  generalize (concat ws ++ l). intros k. clear -Hw. simpl in Hw.
  repeat destruct Hw as [<-|Hw]; [reflexivity..|done].
Qed.

Lemma hex_char_digit d : 0 <= d < 16 -> hex_value (hex_char d) = Some d /\
  0x30 <= hex_char d < 0x67 /\ hex_char d <> 0x2B.
Proof.
  intros H. unfold hex_value, hex_char, Machine.in_range.
  destruct (Z.ltb_spec d 10); repeat case_match; rewrite ?andb_true_iff, ?andb_false_iff, ?Z.leb_le, ?Z.leb_gt in *;
    split_and?; try lia; f_equal; lia.
Qed.

Lemma utf8_valid_ascii b l : 0 <= b < 0x80 -> utf8_valid (b :: l) = utf8_valid l.
Proof. intros H. cbn [utf8_valid]. unfold Machine.in_range. by rewrite !(proj2 (Z.leb_le _ _)) by lia. Qed.

Lemma hex_bytes_encode key : bytes_wf key -> hex_bytes (hex_encode key) = Some key.
Proof.
  induction 1 as [|b key Hb _ IH]; [done|]. unfold u8 in Hb.
  assert (0 <= b / 16 < 16) as H1 by (split; [apply Z.div_pos|apply Z.div_lt_upper_bound]; lia).
  assert (0 <= b mod 16 < 16) as H2 by (apply Z.mod_pos_bound; lia).
  destruct (hex_char_digit _ H1) as (D1 & R1 & N1), (hex_char_digit _ H2) as (D2 & R2 & N2).
  cbn [hex_encode flat_map app hex_bytes]. fold (hex_encode key).
  rewrite utf8_valid_ascii, utf8_valid_ascii by lia. unfold hex_byte.
  rewrite (proj2 (Z.eqb_neq _ _)), D1, D2, IH by done. cbn [mbind option_bind utf8_valid].
  do 2 f_equal. rewrite <- Z.div_mod by lia. done.
Qed.

Lemma hex_encode_chars key : bytes_wf key -> Forall (fun c => 0x30 <= c < 0x67) (hex_encode key).
Proof.
  induction 1 as [|b key Hb _ IH]; [constructor|]. unfold u8 in Hb. cbn [hex_encode flat_map app].
  constructor; [|constructor; [|apply IH]]; apply hex_char_digit.
  - split; [apply Z.div_pos|apply Z.div_lt_upper_bound]; lia.
  - apply Z.mod_pos_bound. lia.
Qed.

Lemma length_hex_encode key : length (hex_encode key) = (2 * length key)%nat.
Proof. induction key as [|b key IH]; [done|]. cbn [hex_encode flat_map app length]. fold (hex_encode key). lia. Qed.

(** No whitespace character begins or ends with a hexadecimal digit. *)
Lemma find_hex_none (f : bytes -> bytes -> bool) (at_ : bytes -> option Z) l c :
  (forall p, f l p = true -> at_ p <> None -> at_ p = Some c) -> 0x30 <= c < 0x67 ->
  forallb (fun p => match at_ p with
                    | Some b => negb ((0x30 <=? b) && (b <? 0x67))
                    | None => false
                    end) WHITESPACE = true ->
  List.find (f l) WHITESPACE = None.
Proof.
  intros Hf Hc H. destruct (List.find (f l) WHITESPACE) as [p|] eqn:E; [|done].
  apply List.find_some in E as [Hp E]. rewrite forallb_forall in H. specialize (H p Hp).
  destruct (at_ p) as [b|] eqn:B; [|done].
  assert (Some b = Some c) as [= ->] by (rewrite <- B; apply Hf; [done|congruence]).
  rewrite (proj2 (Z.leb_le _ _)), (proj2 (Z.ltb_lt _ _)) in H by lia. done.
Qed.

Lemma trim_hex ws l ws' : whitespace ws -> whitespace ws' ->
  l <> [] -> Forall (fun c => 0x30 <= c < 0x67) l -> trim (concat ws ++ l ++ concat ws') = l.
Proof.
  intros Hw Hw' Hne Hl. unfold trim.
  rewrite trim_start_ws; [|done|rewrite length_app; pose proof (whitespace_length ws Hw); lia|].
  - apply trim_end_ws; [done|rewrite length_app; pose proof (whitespace_length ws' Hw'); lia|].
    destruct (exists_last Hne) as (q & c & ->). apply Forall_app in Hl as [_ Hc%Forall_inv].
    apply (find_hex_none ends_with last _ c); [|done|reflexivity].
    intros p [r E]%ends_with_spec Hp. destruct p as [|b p _] using rev_ind; [done|].
    rewrite app_assoc in E. apply app_inj_tail in E as [_ ->]. by rewrite last_snoc.
  - destruct l as [|c l]; [done|]. apply Forall_cons in Hl as [Hc _].
    apply (find_hex_none bytes_starts_with head _ c); [|done|reflexivity].
    intros [|b p] [r E]%bytes_starts_with_spec Hp; [done|]. cbn [app head] in *. congruence.
Qed.

Lemma utf8_valid_hex l r : Forall (fun c => 0x30 <= c < 0x67) l -> utf8_valid (l ++ r) = utf8_valid r.
Proof. induction 1 as [|c l Hc _ IH]; [done|]. cbn [app]. by rewrite utf8_valid_ascii by lia. Qed.

(** Key material is read from its 32 raw bytes, and from its 64 hexadecimal digits with any
    whitespace before and after them. *)
Lemma decode_key_material_spec key ws ws' : bytes_wf key -> length key = 32%nat ->
  whitespace ws -> whitespace ws' ->
  decode_key_material key = Some key /\
  decode_key_material (concat ws ++ hex_encode key ++ concat ws') = Some key.
Proof.
  intros Hb Hk Hw Hw'. unfold decode_key_material, secret_key_from_slice. split; [by rewrite Hk|].
  rewrite !length_app, length_hex_encode, Hk.
  destruct (Nat.eqb_spec (length (concat ws) + (2 * 32 + length (concat ws')))%nat 32); [lia|].
  pose proof (hex_encode_chars key Hb) as Hc.
  rewrite utf8_valid_ws, utf8_valid_hex by done.
  rewrite <- (app_nil_r (concat ws')) at 1. rewrite utf8_valid_ws by done. cbn [utf8_valid].
  rewrite trim_hex; [|done|done|by destruct key|done].
  rewrite length_hex_encode, Hk. by apply hex_bytes_encode.
Qed.

(** The digits are read in pairs by the integer parser, which takes a leading plus sign. *)
Lemma key_material_signs :
  decode_key_material (concat (repeat (as_bytes "+f") 32)) = Some (repeat 15 32).
Proof. vm_compute. reflexivity. Qed.

(** ** A concrete instance *)

Definition toy_tag (k n a m : bytes) : bytes :=
  to_be_bytes 16 (from_be_bytes k + from_be_bytes n + from_be_bytes a + from_be_bytes m).
Definition toy_encrypt (k n a m : bytes) : option bytes := Some (m ++ toy_tag k n a m).
Definition toy_decrypt (k n a c : bytes) : option bytes :=
  let m := take (length c - AEAD_TAG_LEN) c in
  if bool_decide (c = m ++ toy_tag k n a m) then Some m else None.

Definition toy_crypto : Crypto := {|
  gcm_encrypt := toy_encrypt; gcm_decrypt := toy_decrypt;
  siv_encrypt := toy_encrypt; siv_decrypt := toy_decrypt;
  blake3_hash m := to_be_bytes 32 (from_be_bytes m);
  blake3_keyed k m := to_be_bytes 32 (from_be_bytes k + from_be_bytes m);
|}.

Lemma toy_inverse k n a m c : toy_decrypt k n a c = Some m <-> toy_encrypt k n a m = Some c.
Proof.
  unfold toy_decrypt, toy_encrypt. split.
  - case_bool_decide as E; [|done]. intros [= <-]. by rewrite <- E.
  - intros [= <-].
    assert (take (length (m ++ toy_tag k n a m) - AEAD_TAG_LEN) (m ++ toy_tag k n a m) = m) as E.
    { apply take_app_length'. unfold toy_tag. rewrite length_app, length_to_be_bytes.
      unfold AEAD_TAG_LEN. lia. }
    rewrite E. by rewrite bool_decide_true.
Qed.

Lemma toy_length k n a m c : toy_encrypt k n a m = Some c -> length c = (length m + AEAD_TAG_LEN)%nat.
Proof. intros [= <-]. unfold toy_tag. by rewrite length_app, length_to_be_bytes. Qed.

Lemma toy_crypto_laws : CryptoLaws toy_crypto.
Proof.
  split; cbn [toy_crypto gcm_encrypt gcm_decrypt siv_encrypt siv_decrypt blake3_keyed blake3_hash];
    eauto using toy_inverse, toy_length, length_to_be_bytes, to_be_bytes_wf.
Qed.
