(* ===== verification/LogRecord.v ===== *)
(** * Transaction log records and frames (corium-log/src/lib.rs)

    A record is encoded to a payload, sealed or in the clear, and framed with a length word
    and a CRC32C. The checksum is third-party (class [Crc32c]); randomness for sealing is
    the argument [rand]. Lengths and offsets in memory are [nat]; a length read from a
    frame stays in [Z] until it has been compared with the bytes at hand. *)

From stdpp Require Import base list strings.
From Stdlib Require Import ZArith Lia.
From S2P Require Import Prelude OrdMap Machine Values Encoding Datoms Crypt.
Local Open Scope Z_scope.

Definition CHECKSUMMED_FRAME : Z := Z.shiftl 1 63.
Definition FRAME_CHECKSUM_LEN : nat := 4.

Record TxRecord := mk_tx_record { r_t : Z; r_tx_instant : Z; r_datoms : list Datom }.

Record FramedRecord := mk_framed { fr_t : Z; fr_log_version : Z; fr_frame : bytes }.

(** What an input or output operation reports. *)
Module IoError.
Inductive IoError :=
| UnexpectedEof
| PermissionDenied
| NotFound
| Other (message : string).
End IoError.
Notation IoError := IoError.IoError.

Module LogError.
Inductive LogError :=
| Io (error : IoError)
| Corrupt
| Native (message : string)
| AsyncOnly
| Encrypted
| Unencrypted
| MissingKeyEpoch (epoch : Z)
| FramesOnly
| Crypt (error : CryptError).
End LogError.
Notation LogError := LogError.LogError.

(** ** Record payloads *)

Definition encode_datom (d : Datom) : bytes :=
  let v := encode_value (d_v d) in
  to_be_bytes 8 (d_e d) ++ to_be_bytes 8 (d_a d) ++ to_be_bytes 8 (d_tx d) ++
  [if d_added d then 1 else 0] ++ to_be_bytes 8 (Z.of_nat (length v)) ++ v.

Definition encode_record (record : TxRecord) : bytes :=
  to_be_bytes 8 (r_t record) ++ to_be_bytes 8 (i64_as_u64 (r_tx_instant record)) ++
  to_be_bytes 8 (Z.of_nat (length (r_datoms record))) ++ flat_map encode_datom (r_datoms record).

(** [take] removes [n] bytes from the front of the input. *)
Definition take_bytes (l : bytes) (n : Z) : result LogError (bytes * bytes) :=
  if n <=? Z.of_nat (length l) then Ok (take (Z.to_nat n) l, drop (Z.to_nat n) l)
  else Err LogError.Corrupt.

Definition u64_be (l : bytes) : result LogError (Z * bytes) :=
  p ← take_bytes l 8; Ok (from_be_bytes p.1, p.2).

Definition decode_datom (l : bytes) : result LogError (Datom * bytes) :=
  '(e, l) ← u64_be l;
  '(a, l) ← u64_be l;
  '(tx, l) ← u64_be l;
  '(added, l) ← take_bytes l 1;
  '(len, l) ← u64_be l;
  '(raw, l) ← take_bytes l len;
  '(v, used) ← map_err (fun _ => LogError.Corrupt) (decode_value raw);
  if negb (Z.of_nat used =? len) then Err LogError.Corrupt
  else Ok (mk_datom e a v tx (negb (from_be_bytes added =? 0)), l).

(** The loop over [count] datoms. Every datom takes bytes, so it ends within as many rounds
    as there are bytes: with none left the next datom is corrupt. *)
Fixpoint decode_datoms (fuel : nat) (count : Z) (l : bytes) : result LogError (list Datom * bytes) :=
  if count <=? 0 then Ok ([], l)
  else
    match fuel with
    | O => Err LogError.Corrupt
    | S fuel =>
        '(d, l) ← decode_datom l;
        '(ds, l) ← decode_datoms fuel (count - 1) l;
        Ok (d :: ds, l)
    end.

Definition decode_record (l : bytes) : result LogError TxRecord :=
  '(t, l) ← u64_be l;
  '(instant, l) ← u64_be l;
  '(count, l) ← u64_be l;
  '(datoms, l) ← decode_datoms (length l) count l;
  match l with
  | [] => Ok (mk_tx_record t (u64_as_i64 instant) datoms)
  | _ => Err LogError.Corrupt
  end.

(** ** Sealing *)

Record KeySnapshot := mk_snapshot { current_epoch : Z; snapshot_keys : list (Z * SecretKey) }.

Definition snapshot_new (current_epoch : Z) (keys : list (Z * SecretKey)) : result LogError KeySnapshot :=
  let keys := om_of_list keys in
  if is_none (om_get current_epoch keys) then Err (LogError.MissingKeyEpoch current_epoch)
  else Ok (mk_snapshot current_epoch keys).

Definition snapshot_key (s : KeySnapshot) (epoch : Z) : result LogError SecretKey :=
  ok_or (om_get epoch (snapshot_keys s)) (LogError.MissingKeyEpoch epoch).

Record LogCipher := mk_cipher { lineage : bytes; cipher_keys : KeySnapshot }.

Definition cipher_new (lineage : bytes) (current_epoch : Z) (keys : list (Z * SecretKey))
  : result LogError LogCipher :=
  s ← snapshot_new current_epoch keys; Ok (mk_cipher lineage s).

Definition cipher_with_key (lineage : bytes) (epoch : Z) (key : SecretKey) : LogCipher :=
  mk_cipher lineage (mk_snapshot epoch [(epoch, key)]).

Definition cipher_install (c : LogCipher) (current_epoch : Z) (keys : list (Z * SecretKey))
  : result LogError LogCipher :=
  s ← snapshot_new current_epoch keys; Ok (mk_cipher (lineage c) s).

Module RecordMode.
Inductive RecordMode :=
| Plain
| Sealed (cipher : LogCipher)
| Opaque.
End RecordMode.
Notation RecordMode := RecordMode.RecordMode.

Record RecordCodec := mk_codec { mode : RecordMode; log_version : Z }.

Definition codec_plaintext : RecordCodec := mk_codec RecordMode.Plain 0.

Definition codec_new (cipher : option LogCipher) (log_version : Z) : RecordCodec :=
  mk_codec (match cipher with Some c => RecordMode.Sealed c | None => RecordMode.Plain end) log_version.

Section codec.
Context `{C : Crypto}.

Definition cipher_seal (rand : option bytes) (c : LogCipher) (log_version t : Z) (plaintext : bytes)
  : result LogError bytes :=
  let snapshot := cipher_keys c in
  key ← snapshot_key snapshot (current_epoch snapshot);
  map_err LogError.Crypt
    (encrypt_log_record rand key (current_epoch snapshot) (lineage c) log_version t plaintext).

Definition cipher_open (c : LogCipher) (log_version : Z) (header : LogHeader) (payload : bytes)
  : result LogError bytes :=
  key ← snapshot_key (cipher_keys c) (lh_epoch header);
  map_err LogError.Crypt (decrypt_log_record key (lineage c) log_version payload).

Definition codec_encode (rand : option bytes) (codec : RecordCodec) (record : TxRecord)
  : result LogError bytes :=
  let encoded := encode_record record in
  match mode codec with
  | RecordMode.Sealed cipher => cipher_seal rand cipher (log_version codec) (r_t record) encoded
  | RecordMode.Plain => Ok encoded
  | RecordMode.Opaque => Err LogError.FramesOnly
  end.

Definition codec_decode (codec : RecordCodec) (payload : bytes) : result LogError TxRecord :=
  cipher ← (match mode codec with
            | RecordMode.Sealed cipher => Ok (Some cipher)
            | RecordMode.Plain => Ok None
            | RecordMode.Opaque => Err LogError.FramesOnly
            end);
  match cipher, is_encrypted_log_record payload with
  | Some cipher, true =>
      header ← map_err LogError.Crypt (parse_log_header payload);
      plaintext ← cipher_open cipher (log_version codec) header payload;
      record ← decode_record plaintext;
      if negb (r_t record =? lh_t header) then Err LogError.Corrupt else Ok record
  | None, true => Err LogError.Encrypted
  | Some _, false => Err LogError.Unencrypted
  | None, false => decode_record payload
  end.

Definition frame_t (codec : RecordCodec) (payload : bytes) : result LogError Z :=
  match mode codec with
  | RecordMode.Opaque =>
      if is_encrypted_log_record payload
      then h ← map_err LogError.Crypt (parse_log_header payload); Ok (lh_t h)
      else r ← decode_record payload; Ok (r_t r)
  | _ => r ← codec_decode codec payload; Ok (r_t r)
  end.
End codec.

(** ** Frames *)

Class Crc32c := { crc32c : bytes -> Z; crc32c_append : Z -> bytes -> Z }.
Class Crc32cLaws (K : Crc32c) : Prop := {
  crc32c_append_u32 : forall crc l, u32 (crc32c_append crc l);
}.

Definition frame_header (payload_len : nat) : result LogError bytes :=
  let payload_len := Z.of_nat payload_len in
  if negb (Z.land payload_len CHECKSUMMED_FRAME =? 0) then Err LogError.Corrupt
  else Ok (to_be_bytes 8 (Z.lor payload_len CHECKSUMMED_FRAME)).

Definition frame_payload_len (header : bytes) : Z * bool :=
  let encoded := from_be_bytes header in
  (Z.land encoded (not64 CHECKSUMMED_FRAME), negb (Z.land encoded CHECKSUMMED_FRAME =? 0)).

(** The length of a frame: its length word, its payload and its checksum. *)
Definition frame_len (payload_len : Z) (checksummed : bool) : option Z :=
  n ← checked_add_usize 8 payload_len;
  checked_add_usize n (if checksummed then Z.of_nat FRAME_CHECKSUM_LEN else 0).

Record FrameIndex := mk_frame_index { fi_t : Z; fi_offset : Z; fi_len : Z }.

Section frames.
Context `{C : Crypto} `{K : Crc32c}.

Definition frame_checksum (header payload : bytes) : Z := crc32c_append (crc32c header) payload.

Definition append_framed_payload (out payload : bytes) : result LogError bytes :=
  header ← frame_header (length payload);
  Ok (out ++ header ++ payload ++ to_be_bytes 4 (frame_checksum header payload)).

Definition append_framed_record (out : bytes) (record : TxRecord) : result LogError bytes :=
  append_framed_payload out (encode_record record).

Definition append_framed_record_sealed (rand : option bytes) (out : bytes) (record : TxRecord)
  (cipher : option LogCipher) (log_version : Z) : result LogError bytes :=
  payload ← codec_encode rand (codec_new cipher log_version) record;
  append_framed_payload out payload.

(** One round of [split_frames]: the frame, its payload and the bytes after it. *)
Definition split_frame (l : bytes) : result LogError ((bytes * bytes) * bytes) :=
  if (length l <? 8)%nat then Err LogError.Corrupt
  else
    let header := take 8 l in
    let (payload_len, checksummed) := frame_payload_len header in
    len ← ok_or (frame_len payload_len checksummed) LogError.Corrupt;
    if Z.of_nat (length l) <? len then Err LogError.Corrupt
    else
      let frame := take (Z.to_nat len) l in
      let payload_end := (8 + Z.to_nat payload_len)%nat in
      let payload := slice frame 8 payload_end in
      if (checksummed &&
          negb (from_be_bytes (drop payload_end frame) =? frame_checksum header payload))%bool
      then Err LogError.Corrupt
      else Ok ((frame, payload), drop (Z.to_nat len) l).

(** Every frame takes at least eight bytes, so the length of the input bounds the rounds. *)
Fixpoint split_frames_loop (fuel : nat) (l : bytes) : result LogError (list (bytes * bytes)) :=
  match l with
  | [] => Ok []
  | _ =>
      match fuel with
      | O => Err LogError.Corrupt
      | S fuel =>
          '(f, l) ← split_frame l;
          fs ← split_frames_loop fuel l;
          Ok (f :: fs)
      end
  end.

Definition split_frames (l : bytes) : result LogError (list (bytes * bytes)) :=
  split_frames_loop (length l) l.

(** [Iterator::collect] into a [Result]: the first error, or every value. *)
Definition split_framed_records (l : bytes) : result LogError (list (Z * bytes)) :=
  frames ← split_frames l;
  try_map (fun f => t ← frame_t (mk_codec RecordMode.Opaque 0) f.2; Ok (t, f.1)) frames.

Definition decode_framed_payloads (l : bytes) (codec : RecordCodec) : result LogError (list TxRecord) :=
  frames ← split_frames l; try_map (fun f => codec_decode codec f.2) frames.

Definition decode_framed_records (l : bytes) : result LogError (list TxRecord) :=
  decode_framed_payloads l codec_plaintext.

Definition decode_framed_records_sealed (l : bytes) (cipher : option LogCipher) (log_version : Z)
  : result LogError (list TxRecord) :=
  decode_framed_payloads l (codec_new cipher log_version).

(** [read_exact_at] on a file's bytes. *)
Definition read_exact_at (file : bytes) (n offset : nat) : result LogError bytes :=
  if (offset + n <=? length file)%nat then Ok (slice file offset (offset + n))
  else Err (LogError.Io IoError.UnexpectedEof).

(** [scan_frames]: [fuel] bounds the rounds, each of which passes a frame. *)
Fixpoint scan_frames_loop (fuel : nat) (file : bytes) (codec : RecordCodec) (durable_len : nat)
  : result LogError (list FrameIndex * nat) :=
  match fuel with
  | O => Ok ([], durable_len)
  | S fuel =>
      if (length file - durable_len <? 8)%nat then Ok ([], durable_len)
      else
        len ← read_exact_at file 8 durable_len;
        let (payload_len, checksummed) := frame_payload_len len in
        flen ← ok_or (frame_len payload_len checksummed) LogError.Corrupt;
        if Z.of_nat (length file - durable_len) <? flen then Ok ([], durable_len)
        else
          let payload_offset := (durable_len + 8)%nat in
          payload ← read_exact_at file (Z.to_nat payload_len) payload_offset;
          _ ← (if checksummed then
                 stored ← read_exact_at file FRAME_CHECKSUM_LEN (payload_offset + Z.to_nat payload_len);
                 ensure (from_be_bytes stored =? frame_checksum len payload) LogError.Corrupt
               else Ok tt);
          t ← frame_t codec payload;
          '(frames, end_) ← scan_frames_loop fuel file codec (durable_len + Z.to_nat flen);
          Ok (mk_frame_index t (Z.of_nat durable_len) flen :: frames, end_)
  end.

Definition scan_frames (file : bytes) (offset : nat) (codec : RecordCodec)
  : result LogError (list FrameIndex * nat) :=
  scan_frames_loop (S (length file)) file codec offset.
End frames.

(** ** Payloads decode to the records they encode *)

Definition log_datom_wf (d : Datom) : Prop := fact_wf (d_fact d) /\ u64 (d_tx d).

(** A record the transactor can write: numbers in their ranges, a payload that fits in
    memory with its envelope, and a transaction number below the one whose bytes would read
    as the magic of a sealed record. *)
Record record_wf (r : TxRecord) : Prop := {
  rw_t : 0 <= r_t r < 2 ^ 62;
  rw_instant : i64 (r_tx_instant r);
  rw_datoms : Forall log_datom_wf (r_datoms r);
  rw_size : Z.of_nat (length (encode_record r)) < 2 ^ 62;
}.

Lemma take_bytes_app a b n : n = Z.of_nat (length a) -> take_bytes (a ++ b) n = Ok (a, b).
Proof.
  intros ->. unfold take_bytes. rewrite length_app, (proj2 (Z.leb_le _ _)) by lia.
  by rewrite Nat2Z.id, take_app_length, drop_app_length.
Qed.

Lemma u64_be_app x rest : u64 x -> u64_be (to_be_bytes 8 x ++ rest) = Ok (x, rest).
Proof.
  intros Hx. unfold u64_be. rewrite take_bytes_app by (by rewrite length_to_be_bytes).
  cbn [mbind result_bind fst snd]. by rewrite from_to_be_bytes.
Qed.

Lemma decode_datom_app d rest : log_datom_wf d -> Z.of_nat (length (encode_value (d_v d))) < 2 ^ 64 ->
  decode_datom (encode_datom d ++ rest) = Ok (d, rest).
Proof.
  destruct d as [e a v tx added]. intros [(He & Ha & Hv) Htx] Hl. cbn [d_fact d_e d_a d_v d_tx fst snd] in *.
  unfold decode_datom, encode_datom. cbn [d_e d_a d_v d_tx d_added]. rewrite <- !app_assoc.
  do 3 (rewrite u64_be_app by done; cbn [mbind result_bind]).
  rewrite take_bytes_app by reflexivity. cbn [mbind result_bind].
  rewrite u64_be_app by (unfold u64; lia). cbn [mbind result_bind].
  rewrite take_bytes_app by done. cbn [mbind result_bind].
  rewrite <- (app_nil_r (encode_value v)) at 1. rewrite decode_encode by done.
  cbn [mbind result_bind map_err]. rewrite Z.eqb_refl. cbn [negb]. by destruct added.
Qed.

Lemma decode_datoms_app ds rest fuel : Forall log_datom_wf ds ->
  Forall (fun d => Z.of_nat (length (encode_value (d_v d))) < 2 ^ 64) ds -> (length ds <= fuel)%nat ->
  decode_datoms fuel (Z.of_nat (length ds)) (flat_map encode_datom ds ++ rest) = Ok (ds, rest).
Proof.
  revert fuel. induction ds as [|d ds IH]; intros fuel Hw Hl Hf; [by destruct fuel|].
  apply Forall_cons in Hw as [Hd Hw], Hl as [Hdl Hl]. cbn [length] in *.
  destruct fuel as [|fuel]; [lia|]. cbn [decode_datoms flat_map].
  rewrite (proj2 (Z.leb_gt _ _)) by lia. rewrite <- app_assoc, decode_datom_app by done.
  cbn [mbind result_bind]. replace (Z.of_nat (S (length ds)) - 1) with (Z.of_nat (length ds)) by lia.
  rewrite IH by (done || lia). reflexivity.
Qed.

Lemma encode_datom_length d : (33 + length (encode_value (d_v d)) = length (encode_datom d))%nat.
Proof. unfold encode_datom. rewrite !length_app, !length_to_be_bytes. simpl. lia. Qed.

Lemma encode_datoms_length ds d : In d ds ->
  (length (encode_value (d_v d)) <= length (flat_map encode_datom ds))%nat.
Proof.
  induction ds as [|d' ds IH]; [done|]. cbn [flat_map]. rewrite length_app.
  intros [->|H]; [rewrite <- encode_datom_length; lia|]. specialize (IH H). lia.
Qed.

Lemma encode_datoms_count ds : (length ds <= length (flat_map encode_datom ds))%nat.
Proof.
  induction ds as [|d ds IH]; [done|]. cbn [flat_map length].
  rewrite length_app, <- encode_datom_length. lia.
Qed.

Lemma i64_u64 x : i64 x -> u64 (i64_as_u64 x) /\ u64_as_i64 (i64_as_u64 x) = x.
Proof.
  unfold i64, u64, i64_as_u64, u64_as_i64. intros H. split; [apply Z.mod_pos_bound; lia|].
  destruct (Z.ltb_spec (x mod 2 ^ 64) (2 ^ 63)) as [Hlt|Hge]; destruct (Z.neg_nonneg_cases x) as [Hn|Hn].
  - rewrite <- (Z.mod_unique x (2 ^ 64) (-1) (x + 2 ^ 64)) in Hlt by lia. lia.
  - apply Z.mod_small. lia.
  - rewrite <- (Z.mod_unique x (2 ^ 64) (-1) (x + 2 ^ 64)) by lia. lia.
  - rewrite Z.mod_small in Hge by lia. lia.
Qed.

Lemma decode_encode_record r : record_wf r -> decode_record (encode_record r) = Ok r.
Proof.
  destruct r as [t i ds]. intros [Ht Hi Hd Hs]. cbn [r_t r_tx_instant r_datoms] in *.
  unfold encode_record in *. cbn [r_t r_tx_instant r_datoms] in *.
  rewrite !length_app, !length_to_be_bytes in Hs. destruct (i64_u64 i Hi) as [Hu Hb].
  pose proof (encode_datoms_count ds) as Hc.
  unfold decode_record. rewrite u64_be_app by (unfold u64; lia). cbn [mbind result_bind].
  rewrite u64_be_app by done. cbn [mbind result_bind].
  rewrite u64_be_app by (unfold u64; lia). cbn [mbind result_bind].
  rewrite <- (app_nil_r (flat_map encode_datom ds)) at 2. rewrite decode_datoms_app; [|done| |lia].
  - cbn [mbind result_bind]. by rewrite Hb.
  - apply List.Forall_forall. intros d H%encode_datoms_length. lia.
Qed.

(** Rounds beyond the bytes at hand change nothing. *)
Lemma take_bytes_shrinks l n a r : take_bytes l n = Ok (a, r) ->
  length r = (length l - Z.to_nat n)%nat /\ n <= Z.of_nat (length l).
Proof.
  unfold take_bytes. destruct (Z.leb_spec n (Z.of_nat (length l))); [|done].
  intros [= <- <-]. by rewrite length_drop.
Qed.

Lemma u64_be_shrinks l x r : u64_be l = Ok (x, r) -> (length r < length l)%nat.
Proof.
  unfold u64_be. intros ([a r'] & H & [= <- <-])%bind_ok. apply take_bytes_shrinks in H.
  cbn [snd]. lia.
Qed.

Lemma decode_datom_shrinks l d r : decode_datom l = Ok (d, r) -> (length r < length l)%nat.
Proof.
  unfold decode_datom.
  intros ([e l1] & H1%u64_be_shrinks & ([a l2] & H2%u64_be_shrinks & ([tx l3] & H3%u64_be_shrinks & ([ad l4] & H4%take_bytes_shrinks &
    ([len l5] & H5%u64_be_shrinks & ([raw l6] & H6%take_bytes_shrinks & ([v used] & _ & H)%bind_ok)%bind_ok)%bind_ok)%bind_ok)%bind_ok)%bind_ok)%bind_ok.
  destruct (negb _); [done|]. injection H as <- <-. lia.
Qed.

Lemma decode_datoms_fuel l count fuel fuel' : (length l <= fuel)%nat -> (length l <= fuel')%nat ->
  decode_datoms fuel count l = decode_datoms fuel' count l.
Proof.
  revert l count fuel'. induction fuel as [|fuel IH]; intros l count [|fuel'] H H'; [done| | |].
  - destruct l; [|simpl in H; lia]. cbn [decode_datoms]. by destruct (count <=? 0).
  - destruct l; [|simpl in H'; lia]. cbn [decode_datoms]. by destruct (count <=? 0).
  - cbn [decode_datoms]. destruct (count <=? 0); [done|].
    destruct (decode_datom l) as [[d r]|e] eqn:E; [|done]. apply decode_datom_shrinks in E.
    cbn [mbind result_bind]. by rewrite (IH r (count - 1) fuel') by lia.
Qed.

(** ** The codec *)

Section codec_facts.
Context `{CL : CryptoLaws}.

(** A codec that can read and write: the keys are 256-bit and the epochs and the version
    are machine integers. *)
Record cipher_ok (c : LogCipher) : Prop := {
  ci_epoch : u32 (current_epoch (cipher_keys c));
  ci_current : is_some (om_get (current_epoch (cipher_keys c)) (snapshot_keys (cipher_keys c))) = true;
  ci_keys : forall epoch key, om_get epoch (snapshot_keys (cipher_keys c)) = Some key -> length key = 32%nat;
}.

Definition codec_ok (codec : RecordCodec) : Prop :=
  match mode codec with
  | RecordMode.Plain => True
  | RecordMode.Sealed c => cipher_ok c
  | RecordMode.Opaque => False
  end.

(** What the random source delivers when it delivers. *)
Definition rand_ok (rand : option bytes) : Prop := forall n, rand = Some n -> length n = NONCE_LEN.

(** A codec that reads what [codec] writes: the same mode and version over a key set that
    still has the key of every epoch. *)
Definition reads (codec codec' : RecordCodec) : Prop :=
  log_version codec' = log_version codec /\
  match mode codec, mode codec' with
  | RecordMode.Plain, RecordMode.Plain => True
  | RecordMode.Sealed c, RecordMode.Sealed c' =>
      lineage c' = lineage c /\
      forall epoch key, om_get epoch (snapshot_keys (cipher_keys c)) = Some key ->
        om_get epoch (snapshot_keys (cipher_keys c')) = Some key
  | _, _ => False
  end.

Lemma reads_refl codec : codec_ok codec -> reads codec codec.
Proof. unfold codec_ok, reads. destruct (mode codec); done. Qed.

Lemma plain_not_encrypted r : record_wf r -> is_encrypted_log_record (encode_record r) = false.
Proof.
  intros [Ht _ _ _]. unfold is_encrypted_log_record, encode_record.
  rewrite take_app_length' by (by rewrite length_to_be_bytes). rewrite bool_decide_false; [by rewrite andb_false_r|].
  intros E. assert (r_t r = from_be_bytes LOG_MAGIC) as E'
    by (by rewrite <- E, from_to_be_bytes by (simpl; lia)).
  assert (2 ^ 62 <= from_be_bytes LOG_MAGIC) by (vm_compute; discriminate). lia.
Qed.

Lemma encode_record_codec rand codec r p : codec_ok codec -> rand_ok rand -> record_wf r ->
  codec_encode rand codec r = Ok p ->
  (forall codec', reads codec codec' -> codec_decode codec' p = Ok r) /\
  (forall v, frame_t (mk_codec RecordMode.Opaque v) p = Ok (r_t r)) /\
  Z.of_nat (length p) < 2 ^ 63.
Proof.
  intros Hc Hr Hw. unfold codec_encode, reads. unfold codec_ok in Hc.
  destruct (mode codec) as [|c|] eqn:Hm; [| |done].
  - intros [= <-]. pose proof (plain_not_encrypted r Hw) as Hp. split; [|split].
    + intros [[] v] [_ Hm']; try done. unfold codec_decode. cbn [mode mbind result_bind]. rewrite Hp.
      by apply decode_encode_record.
    + intros v. unfold frame_t. cbn [mode]. rewrite Hp, decode_encode_record by done. done.
    + destruct Hw as [_ _ _ H]. lia.
  - unfold cipher_seal. intros (key & Hk & H)%bind_ok. apply ok_or_ok in Hk.
    destruct (encrypt_log_record _ _ _ _ _ _ _) as [q|] eqn:E; [|done]. injection H as ->.
    destruct rand as [nonce|]; [|done].
    assert (Hn := Hr nonce eq_refl). assert (Hlen := ci_keys _ Hc _ _ Hk).
    assert (u64 (r_t r)) as Ht by (destruct Hw as [? _ _ _]; unfold u64; lia).
    destruct (decrypt_encrypt_log _ _ _ _ _ _ _ _ Hlen (ci_epoch _ Hc) Ht Hn E) as [Hh Hd].
    assert (is_encrypted_log_record p = true) as He.
    { unfold parse_log_header in Hh. by destruct (is_encrypted_log_record p). }
    split; [|split].
    + intros [[|c'|] v] [Hv Hm']; try done. cbn [mode log_version] in *. destruct Hm' as [Hl Hks]. subst v.
      unfold codec_decode. cbn [mode log_version mbind result_bind]. rewrite He, Hh. cbn [map_err mbind result_bind].
      unfold cipher_open. cbn [lh_epoch]. unfold snapshot_key. rewrite (Hks _ _ Hk). cbn [ok_or mbind result_bind].
      rewrite Hl, Hd. cbn [map_err mbind result_bind]. rewrite decode_encode_record by done.
      cbn [mbind result_bind lh_t]. by rewrite Z.eqb_refl.
    + intros v. unfold frame_t. cbn [mode]. by rewrite He, Hh.
    + apply encrypt_log_record_ok in E as (ct & Hct & ->); [|done].
      rewrite length_app, length_log_header, (gcm_length _ _ _ _ _ Hct) by done.
      destruct Hw as [_ _ _ Hs]. change LOG_HEADER_LEN with 33%nat. unfold AEAD_TAG_LEN. lia.
Qed.

Lemma frame_t_encode rand codec codec' r p : codec_ok codec -> rand_ok rand -> record_wf r ->
  codec_encode rand codec r = Ok p -> reads codec codec' -> frame_t codec' p = Ok (r_t r).
Proof.
  intros Hc Hr Hw E Hrd. destruct (encode_record_codec _ _ _ _ Hc Hr Hw E) as (Hd & _).
  unfold frame_t. rewrite (Hd _ Hrd). destruct (mode codec') eqn:Hm; try done.
  destruct Hrd as [_ H]. rewrite Hm in H. by destruct (mode codec).
Qed.

(** Sealing never fails for want of a key. *)
Lemma codec_encode_plain rand codec r : mode codec = RecordMode.Plain ->
  codec_encode rand codec r = Ok (encode_record r).
Proof. intros H. unfold codec_encode. by rewrite H. Qed.

(** A storage-key rotation that keeps the old epochs leaves every written record readable,
    and a rotation without a key for its own epoch is refused. *)
Lemma install_reads c v epoch ks c' : cipher_install c epoch ks = Ok c' ->
  (forall e key, om_get e (snapshot_keys (cipher_keys c)) = Some key -> om_get e (om_of_list ks) = Some key) ->
  reads (mk_codec (RecordMode.Sealed c) v) (mk_codec (RecordMode.Sealed c') v).
Proof.
  unfold cipher_install, snapshot_new. intros (s & H & [= <-])%bind_ok Hk.
  destruct (is_none _); [done|]. injection H as <-. split; [done|]. by split.
Qed.
End codec_facts.

(** ** Frames *)

Section frame_facts.
Context `{K : Crc32c} `{KL : !Crc32cLaws K}.

(** The two frame formats: the legacy one is a length word and the payload. *)
Definition frame_of (legacy : bool) (payload : bytes) : bytes :=
  let n := Z.of_nat (length payload) in
  if legacy then to_be_bytes 8 n ++ payload
  else
    let header := to_be_bytes 8 (n + 2 ^ 63) in
    header ++ payload ++ to_be_bytes 4 (frame_checksum header payload).

Lemma land_checksummed n : 0 <= n < 2 ^ 63 ->
  Z.land n CHECKSUMMED_FRAME = 0 /\ Z.lor n CHECKSUMMED_FRAME = n + 2 ^ 63.
Proof.
  intros Hn. assert (E : Z.land n CHECKSUMMED_FRAME = 0).
  { apply Z.eqb_eq. change CHECKSUMMED_FRAME with (2 ^ 63). rewrite land_sign by (unfold u64; lia).
    apply Z.ltb_lt. lia. }
  split; [done|]. rewrite <- Z.lxor_lor by done. apply lxor_sign_low. done.
Qed.

Lemma frame_header_eq n : Z.of_nat n < 2 ^ 63 -> frame_header n = Ok (to_be_bytes 8 (Z.of_nat n + 2 ^ 63)).
Proof.
  intros Hn. unfold frame_header. destruct (land_checksummed (Z.of_nat n)) as [-> ->]; [lia|]. done.
Qed.

Lemma append_framed_eq out p : Z.of_nat (length p) < 2 ^ 63 ->
  append_framed_payload out p = Ok (out ++ frame_of false p).
Proof. intros Hp. unfold append_framed_payload. by rewrite frame_header_eq. Qed.

Lemma frame_payload_len_eq n : 0 <= n < 2 ^ 63 ->
  frame_payload_len (to_be_bytes 8 n) = (n, false) /\
  frame_payload_len (to_be_bytes 8 (n + 2 ^ 63)) = (n, true).
Proof.
  intros Hn. unfold frame_payload_len. rewrite !from_to_be_bytes by (simpl; lia).
  assert (forall m, Z.land m (not64 CHECKSUMMED_FRAME) = m mod 2 ^ 63) as Hland.
  { intros m. change (not64 CHECKSUMMED_FRAME) with (Z.ones 63). by rewrite Z.land_ones. }
  rewrite !Hland. change CHECKSUMMED_FRAME with (2 ^ 63).
  rewrite !land_sign by (unfold u64; lia). split; f_equal.
  - apply Z.mod_small. lia.
  - by rewrite (proj2 (Z.ltb_lt _ _)) by lia.
  - rewrite <- (Z.mul_1_l (2 ^ 63)) at 1. rewrite Z.mod_add, Z.mod_small by lia. done.
  - by rewrite (proj2 (Z.ltb_ge _ _)) by lia.
Qed.

Definition frame_size (legacy : bool) (p : bytes) : nat := (8 + length p + if legacy then 0 else 4)%nat.

Lemma length_frame_of legacy p : length (frame_of legacy p) = frame_size legacy p.
Proof.
  unfold frame_of, frame_size. destruct legacy; rewrite !length_app, !length_to_be_bytes; lia.
Qed.

Lemma frame_len_eq legacy n : 0 <= n < 2 ^ 63 ->
  frame_len n (negb legacy) = Some (8 + n + if legacy then 0 else 4).
Proof.
  intros Hn. unfold frame_len, checked_add_usize. rewrite (proj2 (Z.ltb_lt _ _)) by lia.
  cbn [mbind option_bind]. by destruct legacy; cbn [negb]; unfold FRAME_CHECKSUM_LEN;
    rewrite (proj2 (Z.ltb_lt _ _)) by lia.
Qed.

(** What a frame's bytes hold, at their places. *)
Lemma frame_parts legacy p rest : Z.of_nat (length p) < 2 ^ 63 ->
  let l := frame_of legacy p ++ rest in
  frame_payload_len (slice l 0 8) = (Z.of_nat (length p), negb legacy) /\
  slice l 8 (8 + length p) = p /\
  (legacy = false -> from_be_bytes (slice l (8 + length p) (8 + length p + 4)) = frame_checksum (slice l 0 8) p).
Proof.
  intros Hp. unfold frame_of. set (n := Z.of_nat (length p)).
  destruct (frame_payload_len_eq n) as [E1 E2]; [lia|].
  assert (forall x r, slice (to_be_bytes 8 x ++ p ++ r) 0 8 = to_be_bytes 8 x) as H0.
  { intros x r. rewrite slice_app_l by (by rewrite length_to_be_bytes). apply slice_all, length_to_be_bytes. }
  assert (forall x r, slice (to_be_bytes 8 x ++ p ++ r) 8 (8 + length p) = p) as H1.
  { intros x r. apply slice_mid; [apply length_to_be_bytes|done]. }
  destruct legacy; rewrite <- !app_assoc; rewrite H0, H1; [done|]. split; [done|]. split; [done|]. intros _.
  rewrite !app_assoc, <- (app_assoc _ _ rest), slice_mid;
    [|by rewrite length_app, length_to_be_bytes|by rewrite length_to_be_bytes].
  apply from_to_be_bytes. apply crc32c_append_u32.
Qed.

Lemma split_frame_app legacy p rest : Z.of_nat (length p) < 2 ^ 63 ->
  split_frame (frame_of legacy p ++ rest) = Ok ((frame_of legacy p, p), rest).
Proof.
  intros Hp. destruct (frame_parts legacy p [] Hp) as (_ & Hs & Hk).
  destruct (frame_parts legacy p rest Hp) as (Hh & _ & _).
  pose proof (length_frame_of legacy p) as Hl. rewrite app_nil_r in Hs, Hk.
  assert (H0 : slice (frame_of legacy p ++ rest) 0 8 = slice (frame_of legacy p) 0 8)
    by (apply slice_app_l; rewrite Hl; unfold frame_size; lia).
  unfold split_frame. rewrite length_app, Hl, (proj2 (Nat.ltb_ge _ _)) by (unfold frame_size; lia).
  rewrite take_slice, Hh, frame_len_eq by lia. cbn [ok_or mbind result_bind].
  replace (8 + Z.of_nat (length p) + (if legacy then 0 else 4)) with (Z.of_nat (frame_size legacy p))
    by (unfold frame_size; destruct legacy; lia).
  rewrite (proj2 (Z.ltb_ge _ _)) by lia. rewrite !Nat2Z.id.
  rewrite take_app_length', drop_app_length', Hs by done.
  destruct legacy; cbn [negb andb]; [done|].
  assert (drop (8 + length p) (frame_of false p) = slice (frame_of false p) (8 + length p) (8 + length p + 4)) as ->.
  { unfold slice. rewrite take_ge; [done|]. rewrite length_drop, Hl. unfold frame_size. lia. }
  rewrite H0, Hk by done. by rewrite Z.eqb_refl.
Qed.

(** Written frames in order, and what is left of one cut short by a crash. *)
Definition frames_bytes (fs : list (bool * bytes)) : bytes := flat_map (fun f => frame_of f.1 f.2) fs.
Definition frames_ok (fs : list (bool * bytes)) : Prop :=
  Forall (fun f => Z.of_nat (length f.2) < 2 ^ 63) fs.

Definition torn (tail : bytes) : Prop :=
  exists legacy p rest, Z.of_nat (length p) < 2 ^ 63 /\ rest <> [] /\ frame_of legacy p = tail ++ rest.

Lemma torn_nil : torn [].
Proof. exists true, [], (frame_of true []). done. Qed.

Lemma frame_size_pos legacy p : (8 <= frame_size legacy p)%nat.
Proof. unfold frame_size. lia. Qed.

Lemma split_frames_app fs tail fuel : frames_ok fs -> (length fs <= fuel)%nat ->
  split_frames_loop fuel (frames_bytes fs ++ tail) =
    (gs ← split_frames_loop (fuel - length fs) tail; Ok (map (fun f => (frame_of f.1 f.2, f.2)) fs ++ gs)).
Proof.
  revert fuel. induction fs as [|[legacy p] fs IH]; intros fuel Hok Hf.
  - cbn [frames_bytes flat_map app length map]. rewrite Nat.sub_0_r. by destruct (split_frames_loop fuel tail).
  - apply Forall_cons in Hok as [Hp Hok]. cbn [length] in *. destruct fuel as [|fuel]; [lia|].
    cbn [frames_bytes flat_map fst snd map]. rewrite <- app_assoc. fold (frames_bytes fs).
    pose proof (split_frame_app legacy p (frames_bytes fs ++ tail) Hp) as Hs.
    cbn [split_frames_loop]. destruct (frame_of legacy p ++ frames_bytes fs ++ tail) as [|b l] eqn:E.
    { apply (f_equal length) in E. rewrite length_app, length_frame_of in E.
      pose proof (frame_size_pos legacy p). simpl in E. lia. }
    rewrite Hs. cbn [mbind result_bind]. rewrite IH by (done || lia).
    cbn [Nat.sub]. by destruct (split_frames_loop (fuel - length fs) tail).
Qed.

Lemma frames_bytes_length fs : (8 * length fs <= length (frames_bytes fs))%nat.
Proof.
  induction fs as [|f fs IH]; [done|]. cbn [frames_bytes flat_map length].
  rewrite length_app, length_frame_of. fold (frames_bytes fs). pose proof (frame_size_pos f.1 f.2). lia.
Qed.

Lemma split_frames_bytes fs : frames_ok fs ->
  split_frames (frames_bytes fs) = Ok (map (fun f => (frame_of f.1 f.2, f.2)) fs).
Proof.
  intros Hok. unfold split_frames. pose proof (frames_bytes_length fs).
  rewrite <- (app_nil_r (frames_bytes fs)) at 2. rewrite split_frames_app by (done || lia).
  destruct (length (frames_bytes fs) - length fs)%nat; cbn [split_frames_loop mbind result_bind];
    by rewrite app_nil_r.
Qed.

(** What a crash leaves of a frame: too short for a length word, or with the frame's own
    length word and fewer bytes than it announces. *)
Lemma torn_short tail : torn tail ->
  (length tail < 8)%nat \/
  exists legacy n, 0 <= n < 2 ^ 63 /\ frame_payload_len (slice tail 0 8) = (n, negb legacy) /\
    (8 <= length tail)%nat /\ Z.of_nat (length tail) < 8 + n + if legacy then 0 else 4.
Proof.
  intros (legacy & p & rest & Hp & Hr & E). destruct (decide (length tail < 8)%nat); [by left|right].
  exists legacy, (Z.of_nat (length p)). split; [lia|].
  destruct (frame_parts legacy p [] Hp) as (Hh & _ & _).
  rewrite app_nil_r, E, slice_app_l in Hh by lia. split; [done|]. split; [lia|].
  apply (f_equal length) in E. rewrite length_app, length_frame_of in E. unfold frame_size in E.
  destruct rest; [done|]. cbn [length] in E. destruct legacy; lia.
Qed.

Lemma split_frame_torn tail : torn tail -> split_frame tail = Err LogError.Corrupt.
Proof.
  intros [H|(legacy & n & Hn & Hh & Hl & Hs)]%torn_short; unfold split_frame.
  - by rewrite (proj2 (Nat.ltb_lt _ _)).
  - rewrite (proj2 (Nat.ltb_ge _ _)) by lia.
    rewrite take_slice, Hh, frame_len_eq by done. cbn [ok_or mbind result_bind].
    by rewrite (proj2 (Z.ltb_lt _ _)).
Qed.
End frame_facts.

(** ** Scanning a file *)

Section scan.
Context `{C : Crypto} `{K : Crc32c} `{KL : !Crc32cLaws K}.

(** The index of frames written one after the other from [off]. *)
Fixpoint index_of (off : nat) (fs : list (Z * (bool * bytes))) : list FrameIndex :=
  match fs with
  | [] => []
  | (t, (legacy, p)) :: fs =>
      mk_frame_index t (Z.of_nat off) (Z.of_nat (frame_size legacy p)) ::
      index_of (off + frame_size legacy p) fs
  end.

Lemma slice_drop l off i j : slice (drop off l) i j = slice l (off + i) (off + j).
Proof. unfold slice. rewrite drop_drop. f_equal. lia. Qed.

Lemma read_exact_slice file n off : (off + n <= length file)%nat ->
  read_exact_at file n off = Ok (slice (drop off file) 0 n).
Proof.
  intros H. unfold read_exact_at. rewrite (proj2 (Nat.leb_le _ _)) by done.
  by rewrite slice_drop, Nat.add_0_r.
Qed.

Lemma scan_torn fuel file codec off : torn (drop off file) ->
  scan_frames_loop fuel file codec off = Ok ([], off).
Proof.
  intros H%torn_short. destruct fuel as [|fuel]; [done|]. cbn [scan_frames_loop].
  rewrite length_drop in H. destruct H as [H|(legacy & n & Hn & Hh & Hl & Hs)].
  - by rewrite (proj2 (Nat.ltb_lt _ _)).
  - rewrite (proj2 (Nat.ltb_ge _ _)), read_exact_slice by lia. cbn [mbind result_bind].
    rewrite Hh, frame_len_eq by done. cbn [ok_or mbind result_bind].
    by rewrite (proj2 (Z.ltb_lt _ _)).
Qed.

Lemma scan_frame fuel file codec off legacy p t rest :
  drop off file = frame_of legacy p ++ rest -> Z.of_nat (length p) < 2 ^ 63 -> frame_t codec p = Ok t ->
  scan_frames_loop (S fuel) file codec off =
    (r ← scan_frames_loop fuel file codec (off + frame_size legacy p);
     Ok (mk_frame_index t (Z.of_nat off) (Z.of_nat (frame_size legacy p)) :: r.1, r.2)).
Proof.
  intros Hd Hp Ht. destruct (frame_parts legacy p rest Hp) as (Hh & Hs & Hk).
  pose proof (f_equal length Hd) as Hlen. rewrite length_drop, length_app, length_frame_of in Hlen.
  cbn [scan_frames_loop]. rewrite (proj2 (Nat.ltb_ge _ _)) by (unfold frame_size in *; lia).
  rewrite read_exact_slice, Hd by (unfold frame_size in *; lia). cbn [mbind result_bind].
  rewrite Hh, frame_len_eq by lia. cbn [ok_or mbind result_bind].
  replace (8 + Z.of_nat (length p) + (if legacy then 0 else 4)) with (Z.of_nat (frame_size legacy p))
    by (unfold frame_size; destruct legacy; lia).
  rewrite (proj2 (Z.ltb_ge _ _)) by lia. rewrite !Nat2Z.id.
  rewrite (read_exact_slice file (length p)) by (unfold frame_size in *; lia).
  rewrite slice_drop, Nat.add_0_r, <- (Nat.add_assoc off 8), <- slice_drop, Hd, Hs.
  cbn [mbind result_bind]. rewrite Nat.add_assoc.
  assert ((if negb legacy then
     stored ← read_exact_at file FRAME_CHECKSUM_LEN (off + 8 + length p);
     ensure (from_be_bytes stored =? frame_checksum (slice (frame_of legacy p ++ rest) 0 8) p) LogError.Corrupt
     else Ok tt) = Ok tt) as Hc.
  { destruct legacy; [done|]. cbn [negb]. rewrite read_exact_slice
      by (unfold frame_size, FRAME_CHECKSUM_LEN in *; cbn [negb] in *; lia).
    rewrite slice_drop. replace (off + 8 + length p + 0)%nat with (off + (8 + length p))%nat by lia.
    replace (off + 8 + length p + FRAME_CHECKSUM_LEN)%nat with (off + (8 + length p + 4))%nat by (unfold FRAME_CHECKSUM_LEN; lia).
    rewrite <- slice_drop, Hd. cbn [mbind result_bind]. by rewrite Hk, Z.eqb_refl. }
  rewrite Hc. cbn [mbind result_bind]. rewrite Ht. cbn [mbind result_bind].
  by destruct (scan_frames_loop _ _ _ _) as [[frames end_]|].
Qed.

Definition frames_of (fs : list (Z * (bool * bytes))) : bytes := frames_bytes (map snd fs).

Definition indexed_by (codec : RecordCodec) (f : Z * (bool * bytes)) : Prop :=
  Z.of_nat (length f.2.2) < 2 ^ 63 /\ frame_t codec f.2.2 = Ok f.1.

Lemma scan_frames_app fuel file codec off fs tail : drop off file = frames_of fs ++ tail ->
  Forall (indexed_by codec) fs -> torn tail -> (length fs <= fuel)%nat ->
  scan_frames_loop fuel file codec off = Ok (index_of off fs, (off + length (frames_of fs))%nat).
Proof.
  revert fuel off. induction fs as [|[t [legacy p]] fs IH]; intros fuel off Hd Hi Ht Hf.
  - cbn [frames_of map frames_bytes flat_map app length index_of] in *. rewrite Nat.add_0_r.
    apply scan_torn. by rewrite Hd.
  - apply Forall_cons in Hi as [[Hp Hft] Hi]. cbn [fst snd length] in *. destruct fuel as [|fuel]; [lia|].
    unfold frames_of in Hd. cbn [map frames_bytes flat_map fst snd] in Hd. rewrite <- app_assoc in Hd.
    rewrite (scan_frame _ _ _ _ _ _ _ _ Hd Hp Hft), (IH fuel); [|..|done|done|lia].
    + cbn [mbind result_bind fst snd index_of]. do 2 f_equal. unfold frames_of.
      cbn [map frames_bytes flat_map fst snd]. rewrite length_app, length_frame_of.
      fold (frames_bytes (map snd fs)). lia.
    + rewrite <- drop_drop, Hd, drop_app_length' by (by rewrite length_frame_of). done.
Qed.
End scan.

Section fuel.
Context `{C : Crypto} `{K : Crc32c}.

(** Every round of a scan passes eight bytes of the file at least, so the rounds
    [scan_frames] allows are never exhausted. *)
Lemma frame_len_min n b len : 0 <= n -> frame_len n b = Some len -> 8 <= len.
Proof.
  intros Hn. unfold frame_len, checked_add_usize. destruct (8 + n <? 2 ^ 64); [|done].
  cbn [mbind option_bind]. destruct (_ <? _); [|done]. intros [= <-].
  destruct b; unfold FRAME_CHECKSUM_LEN; lia.
Qed.

Lemma frame_payload_len_nonneg h n b : frame_payload_len h = (n, b) -> 0 <= n.
Proof.
  intros [= <- _]. apply Z.land_nonneg. right.
  change (not64 CHECKSUMMED_FRAME) with (2 ^ 63 - 1). lia.
Qed.

Lemma scan_frames_fuel fuel fuel' file codec off :
  (length file - off < fuel)%nat -> (length file - off < fuel')%nat ->
  scan_frames_loop fuel file codec off = scan_frames_loop fuel' file codec off.
Proof.
  revert fuel' off. induction fuel as [|fuel IH]; intros [|fuel'] off H H'; [lia..|].
  cbn [scan_frames_loop]. destruct (Nat.ltb_spec (length file - off) 8) as [|H8]; [done|].
  rewrite read_exact_slice by lia. cbn [mbind result_bind].
  destruct (frame_payload_len (slice (drop off file) 0 8)) as [n b] eqn:Hn.
  apply frame_payload_len_nonneg in Hn.
  destruct (frame_len n b) as [len|] eqn:Hl; [|done]. apply frame_len_min in Hl; [|done].
  cbn [ok_or mbind result_bind].
  rewrite (IH fuel' (off + Z.to_nat len)%nat) by lia. done.
Qed.

Lemma split_frame_shrinks l f r : split_frame l = Ok (f, r) -> (length r < length l)%nat.
Proof.
  unfold split_frame. destruct (Nat.ltb_spec (length l) 8); [done|].
  destruct (frame_payload_len (take 8 l)) as [n b] eqn:Hn. apply frame_payload_len_nonneg in Hn.
  intros (len & Hl & H0)%bind_ok. apply ok_or_ok, frame_len_min in Hl; [|done].
  destruct (Z.ltb_spec (Z.of_nat (length l)) len); [done|].
  destruct (_ && _)%bool; [done|]. injection H0 as <- <-. rewrite length_drop. lia.
Qed.

Lemma split_frames_fuel fuel fuel' l : (length l <= fuel)%nat -> (length l <= fuel')%nat ->
  split_frames_loop fuel l = split_frames_loop fuel' l.
Proof.
  revert fuel' l. induction fuel as [|fuel IH]; intros [|fuel'] [|b l] H H';
    try done; [simpl in H; lia|simpl in H'; lia|].
  cbn [split_frames_loop]. destruct (split_frame (b :: l)) as [[f r]|] eqn:E; [|done].
  apply split_frame_shrinks in E. cbn [mbind result_bind]. by rewrite (IH fuel' r) by lia.
Qed.
End fuel.

(** ** Writing and reading framed records *)

Section framed.
Context `{CL : CryptoLaws} `{K : Crc32c} `{KL : !Crc32cLaws K}.

(** Records appended one after the other, each with what the random source gave it. *)
Fixpoint append_all (cipher : option LogCipher) (log_version : Z) (out : bytes)
  (l : list (option bytes * TxRecord)) : result LogError bytes :=
  match l with
  | [] => Ok out
  | (rand, r) :: l =>
      out ← append_framed_record_sealed rand out r cipher log_version;
      append_all cipher log_version out l
  end.

Definition writable_records (l : list (option bytes * TxRecord)) : Prop :=
  Forall (fun p => rand_ok p.1 /\ record_wf p.2) l.

(** The payloads behind the frames, and what they decode to. *)
Definition framed_as (codec : RecordCodec) (p : bytes) (r : TxRecord) : Prop :=
  Z.of_nat (length p) < 2 ^ 63 /\ codec_decode codec p = Ok r /\
  frame_t (mk_codec RecordMode.Opaque 0) p = Ok (r_t r).

Lemma append_all_frames cipher v l out out' : codec_ok (codec_new cipher v) -> writable_records l ->
  append_all cipher v out l = Ok out' ->
  exists ps, out' = out ++ frames_bytes (map (pair false) ps) /\
    Forall2 (framed_as (codec_new cipher v)) ps (map snd l).
Proof.
  intros Hc Hw. revert out. induction Hw as [|[rand r] l [Hr Hwf] Hw IH]; intros out; cbn [append_all].
  - intros [= <-]. exists []. split; [by rewrite app_nil_r|constructor].
  - unfold append_framed_record_sealed. intros (out1 & (p & Hp & H1)%bind_ok & H)%bind_ok.
    destruct (encode_record_codec _ _ _ _ Hc Hr Hwf Hp) as (Hd & Ho & Hl).
    rewrite append_framed_eq in H1 by done. injection H1 as <-.
    apply IH in H as (ps & -> & HF). exists (p :: ps). split.
    + cbn [map frames_bytes flat_map fst snd]. by rewrite app_assoc.
    + cbn [map snd]. constructor; [|done]. split_and!; [done|by apply Hd, reads_refl|apply Ho].
Qed.

Lemma framed_as_ok codec ps rs : Forall2 (framed_as codec) ps rs -> frames_ok (map (pair false) ps).
Proof. induction 1 as [|p r ps rs [H _] _ IH]; constructor; done. Qed.

Lemma try_map_frames {B} (g : bytes * bytes -> result LogError B) (h : TxRecord -> bytes -> B) codec ps rs :
  Forall2 (framed_as codec) ps rs ->
  (forall p r, framed_as codec p r -> g (frame_of false p, p) = Ok (h r (frame_of false p))) ->
  try_map g (map (fun f => (frame_of f.1 f.2, f.2)) (map (pair false) ps)) =
    Ok (zip_with h rs (map (frame_of false) ps)).
Proof.
  intros HF Hg. induction HF as [|p r ps rs Hp _ IH]; [done|]. cbn [map try_map fst snd zip_with].
  rewrite (Hg p r Hp). cbn [mbind result_bind]. by rewrite IH.
Qed.

Lemma zip_with_fst {A B} (l : list A) (k : list B) : length l = length k -> zip_with (fun a _ => a) l k = l.
Proof. revert k. induction l as [|a l IH]; intros [|b k] [=]; [done|]. cbn [zip_with]. by rewrite IH. Qed.

(** Records appended to a buffer, sealed under a storage key or in the clear, decode to
    exactly those records with the same key set, lineage and log version; and splitting the
    buffer without any key gives each record's transaction number with frames whose bytes
    put together are the buffer. *)
Theorem framed_records_roundtrip cipher v l out :
  codec_ok (codec_new cipher v) -> writable_records l -> append_all cipher v [] l = Ok out ->
  decode_framed_records_sealed out cipher v = Ok (map snd l) /\
  exists frames, split_framed_records out = Ok (zip (map (fun p => r_t p.2) l) frames) /\
    length frames = length l /\ concat frames = out.
Proof.
  intros Hc Hw (ps & -> & HF)%append_all_frames; [|done..].
  pose proof (framed_as_ok _ _ _ HF) as Hok. pose proof (Forall2_length _ _ _ HF) as Hlen.
  cbn [app]. rewrite length_map in Hlen. split.
  - unfold decode_framed_records_sealed, decode_framed_payloads.
    rewrite split_frames_bytes by done. cbn [mbind result_bind].
    rewrite (try_map_frames _ (fun r _ => r) (codec_new cipher v) ps (map snd l)); [|done|by intros p r (_ & ? & _)].
    by rewrite zip_with_fst by (rewrite !length_map; done).
  - exists (map (frame_of false) ps). rewrite length_map. split_and!; [|done|].
    + unfold split_framed_records. rewrite split_frames_bytes by done. cbn [mbind result_bind].
      rewrite (try_map_frames _ (fun r f => (r_t r, f)) (codec_new cipher v) ps (map snd l));
        [|done|by intros p r (_ & _ & H); cbn [fst snd]; rewrite H].
      f_equal. rewrite <- (map_map snd r_t). generalize (map snd l), (map (frame_of false) ps).
      clear. intros rs. induction rs as [|r rs IH]; intros [|f fs]; try done. cbn [map zip_with]. by rewrite IH.
    + clear. induction ps as [|p ps IH]; [done|]. cbn [map concat frames_bytes flat_map fst snd]. by rewrite IH.
Qed.

(** A buffer whose last frame is cut short is refused as corrupt, however many whole
    frames precede it: native stores publish whole values, so nothing of it is returned. *)
Theorem torn_buffer_refused cipher v l out tail :
  codec_ok (codec_new cipher v) -> writable_records l -> append_all cipher v [] l = Ok out ->
  torn tail -> tail <> [] ->
  decode_framed_records_sealed (out ++ tail) cipher v = Err LogError.Corrupt /\
  split_framed_records (out ++ tail) = Err LogError.Corrupt.
Proof.
  intros Hc Hw (ps & -> & HF)%append_all_frames Ht Hne; [|done..]. cbn [app].
  enough (split_frames (frames_bytes (map (pair false) ps) ++ tail) = Err LogError.Corrupt) as E.
  { unfold decode_framed_records_sealed, decode_framed_payloads, split_framed_records. by rewrite E. }
  unfold split_frames. pose proof (frames_bytes_length (map (pair false) ps)) as Hl.
  assert (1 <= length tail)%nat by (destruct tail; [done|simpl; lia]).
  rewrite split_frames_app; [|by eapply framed_as_ok|rewrite length_app; lia].
  rewrite length_app. destruct tail as [|b tail]; [done|].
  destruct (_ - _)%nat as [|fuel] eqn:E; [lia|]. cbn [split_frames_loop]. by rewrite split_frame_torn.
Qed.
End framed.

(** ** Concrete instances *)

(** CRC32C, bit by bit. *)
Definition crc_bit (crc : Z) : Z :=
  if Z.odd crc then Z.lxor (Z.shiftr crc 1) 0x82F63B78 else Z.shiftr crc 1.
Definition crc_byte (crc b : Z) : Z := Nat.iter 8 crc_bit (Z.lxor crc b).
Definition castagnoli_append (crc : Z) (l : bytes) : Z :=
  Z.lxor (fold_left crc_byte l (Z.lxor crc 0xFFFFFFFF)) 0xFFFFFFFF mod 2 ^ 32.
Definition castagnoli : Crc32c := {| crc32c := castagnoli_append 0; crc32c_append := castagnoli_append |}.

Lemma castagnoli_laws : Crc32cLaws castagnoli.
Proof. split. intros crc l. apply Z.mod_pos_bound. lia. Qed.

(** The check value of the algorithm's definition. *)
Lemma castagnoli_check : castagnoli_append 0 (as_bytes "123456789") = 0xE3069283.
Proof. vm_compute. reflexivity. Qed.

#[local] Existing Instance toy_crypto.
#[local] Existing Instance toy_crypto_laws.
#[local] Existing Instance castagnoli.
#[local] Existing Instance castagnoli_laws.

Definition sample_record (t : Z) : TxRecord :=
  mk_tx_record t (-5) [mk_datom 1000 64 (Value.Long t) t true; mk_datom 1001 65 (Value.Str "x") t false].

Lemma sample_record_wf t : In t [1; 2; 3; 4] -> record_wf (sample_record t).
Proof.
  intros H. repeat destruct H as [<-|H]; [..|done];
    (split; [cbn; lia|cbn; unfold i64; lia| |vm_compute; reflexivity]);
    repeat (apply List.Forall_cons); try apply List.Forall_nil;
    unfold log_datom_wf, fact_wf, d_fact, u64; cbn [d_e d_a d_v d_tx value_wf];
    unfold i64; split_and?; try lia; reflexivity.
Qed.

Definition sample_cipher : LogCipher := cipher_with_key (as_bytes "lineage") 3 (repeat 7 32).

Lemma sample_cipher_ok : cipher_ok sample_cipher.
Proof.
  split; [cbn; unfold u32; lia|reflexivity|]. intros epoch key. cbn [sample_cipher cipher_with_key cipher_keys snapshot_keys om_get].
  destruct (cmp epoch 3); [|done|done]. intros [= <-]. reflexivity.
Qed.

Definition sample_rand (b : Z) : option bytes := Some (repeat b NONCE_LEN).

Lemma sample_rand_ok b : rand_ok (sample_rand b).
Proof. intros n [= <-]. reflexivity. Qed.

Definition sample_writes : list (option bytes * TxRecord) :=
  [(sample_rand 1, sample_record 1); (sample_rand 2, sample_record 2)].

Lemma sample_writable : writable_records sample_writes.
Proof.
  apply List.Forall_forall. intros p [<-|[<-|[]]]; (split; [apply sample_rand_ok|]);
    apply sample_record_wf; simpl; auto.
Qed.

Definition sample_sealed : bytes :=
  match append_all (Some sample_cipher) 4 [] sample_writes with Ok out => out | Err _ => [] end.

Lemma framed_records_roundtrip_witness :
  decode_framed_records_sealed sample_sealed (Some sample_cipher) 4 =
    Ok [sample_record 1; sample_record 2] /\
  exists frames, split_framed_records sample_sealed = Ok (zip [1; 2] frames) /\
    length frames = 2%nat /\ concat frames = sample_sealed.
Proof.
  apply (framed_records_roundtrip (Some sample_cipher) 4 sample_writes sample_sealed).
  - apply sample_cipher_ok.
  - apply sample_writable.
  - vm_compute. reflexivity.
Defined.

Lemma torn_buffer_refused_witness :
  decode_framed_records_sealed (sample_sealed ++ take 20 sample_sealed) (Some sample_cipher) 4 =
    Err LogError.Corrupt /\
  split_framed_records (sample_sealed ++ take 20 sample_sealed) = Err LogError.Corrupt.
Proof.
  apply (torn_buffer_refused (Some sample_cipher) 4 sample_writes).
  - apply sample_cipher_ok.
  - apply sample_writable.
  - vm_compute. reflexivity.
  - exists false, (slice sample_sealed 8 (length sample_sealed / 2 - 4)), (slice sample_sealed 20 (length sample_sealed / 2)).
    split_and!; vm_compute; [reflexivity|discriminate|reflexivity].
  - vm_compute. discriminate.
Defined.
