(* ===== verification/FileLog.v ===== *)
(** * Indexed log files and the file log (corium-log/src/lib.rs)

    A file is its bytes. An [IndexedFile] is one handle on it: the operations that touch
    the disk take the file and return it, so that several handles, a crash and a reopening
    are sequences of calls on the same bytes. What the operating system makes of an append
    is the argument [WriteOutcome]. Cached descriptors are not part of the state. *)

From stdpp Require Import base list strings.
From Stdlib Require Import ZArith Lia.
From S2P Require Import Prelude OrdMap Machine Crypt LogRecord.
Local Open Scope Z_scope.

Definition RANGE_READ_CHUNK_BYTES : Z := 4 * 1024 * 1024.

Definition checked_add_u64 (x y : Z) : option Z := if x + y <? 2 ^ 64 then Some (x + y) else None.
Definition checked_sub_u64 (x y : Z) : option Z := if y <=? x then Some (x - y) else None.

(** What writing a frame and syncing it came to: [WriteFailed] with the bytes that reached
    the file before the error, or [SyncFailed] with all of them. *)
Inductive WriteOutcome :=
| Written
| WriteFailed (n : nat) (error : IoError)
| SyncFailed (error : IoError).

Record IndexedFile := mk_indexed {
  ix_writable : bool;
  ix_poisoned : bool;
  ix_frames : list FrameIndex;
  ix_durable_len : nat;
  ix_first_gap : option nat;
  ix_codec : RecordCodec;
}.

(** ** The index *)

Fixpoint validate_sorted_frames (frames : list FrameIndex) : result LogError unit :=
  match frames with
  | x :: ((y :: _) as rest) =>
      if fi_t y <=? fi_t x then Err LogError.Corrupt else validate_sorted_frames rest
  | _ => Ok tt
  end.

Definition validate_sorted_extension (existing appended : list FrameIndex) : result LogError unit :=
  _ ← validate_sorted_frames appended;
  match last existing, head appended with
  | Some previous, Some next => if fi_t next <=? fi_t previous then Err LogError.Corrupt else Ok tt
  | _, _ => Ok tt
  end.

(** [t.checked_add(1) != Some(u)]. *)
Definition not_next (t u : Z) : bool := negb (bool_decide (checked_add_u64 t 1 = Some u)).

(** The position in [windows(2)] of the first pair that is not consecutive. *)
Fixpoint gap_position (frames : list FrameIndex) : option nat :=
  match frames with
  | x :: ((y :: _) as rest) =>
      if not_next (fi_t x) (fi_t y) then Some O else S <$> gap_position rest
  | _ => None
  end.

Definition first_gap_index (frames : list FrameIndex) : option nat := S <$> gap_position frames.

Definition extension_first_gap (existing appended : list FrameIndex) : option nat :=
  match last existing, head appended with
  | Some previous, Some next =>
      if not_next (fi_t previous) (fi_t next) then Some O else first_gap_index appended
  | _, _ => first_gap_index appended
  end.

Definition frame_end (frame : FrameIndex) : result LogError Z :=
  ok_or (checked_add_u64 (fi_offset frame) (fi_len frame)) LogError.Corrupt.

Definition next_t (frames : list FrameIndex) : result LogError Z :=
  match last frames with
  | None => Ok 1
  | Some frame => ok_or (checked_add_u64 (fi_t frame) 1) LogError.Corrupt
  end.

Definition range_is_indexed (frames : list FrameIndex) (end_ : option Z) : result LogError bool :=
  match end_ with
  | None => Ok false
  | Some e => n ← next_t frames; Ok (e <=? n)
  end.

Section indexed.
Context `{C : Crypto} `{K : Crc32c}.

(** ** One handle *)

Definition open_index_file (file : option bytes) (writable : bool) : result LogError bytes :=
  match file with
  | Some b => Ok b
  | None => if writable then Ok [] else Err (LogError.Io IoError.NotFound)
  end.

Definition indexed_open (file : option bytes) (writable truncate_torn : bool) (codec : RecordCodec)
  : result LogError (IndexedFile * bytes) :=
  file ← open_index_file file writable;
  '(frames, durable_len) ← scan_frames file 0 codec;
  _ ← validate_sorted_frames frames;
  let file :=
    if (truncate_torn && (durable_len <? length file)%nat)%bool then take durable_len file else file in
  Ok (mk_indexed writable false frames durable_len (first_gap_index frames) codec, file).

Definition ensure_healthy (f : IndexedFile) : result LogError unit :=
  if ix_poisoned f then Err (LogError.Io (IoError.Other "transaction log handle is poisoned")) else Ok tt.

Definition indexed_refresh (f : IndexedFile) (file : bytes) : result LogError IndexedFile :=
  _ ← ensure_healthy f;
  let file_len := length file in
  if (file_len <? ix_durable_len f)%nat then
    '(frames, durable_len) ← scan_frames file 0 (ix_codec f);
    _ ← validate_sorted_frames frames;
    Ok (mk_indexed (ix_writable f) (ix_poisoned f) frames durable_len (first_gap_index frames) (ix_codec f))
  else if (ix_durable_len f <? file_len)%nat then
    '(new_frames, durable_len) ← scan_frames file (ix_durable_len f) (ix_codec f);
    _ ← validate_sorted_extension (ix_frames f) new_frames;
    let existing_len := length (ix_frames f) in
    let first_gap :=
      match ix_first_gap f with
      | None => Nat.add existing_len <$> extension_first_gap (ix_frames f) new_frames
      | Some gap => Some gap
      end in
    Ok (mk_indexed (ix_writable f) (ix_poisoned f) (ix_frames f ++ new_frames) durable_len first_gap (ix_codec f))
  else Ok f.

Definition poison (f : IndexedFile) : IndexedFile :=
  mk_indexed (ix_writable f) true (ix_frames f) (ix_durable_len f) (ix_first_gap f) (ix_codec f).

Definition indexed_append (rand : option bytes) (io : WriteOutcome) (f : IndexedFile) (file : bytes)
  (record : TxRecord) : IndexedFile * bytes * result LogError unit :=
  let prepared :=
    _ ← ensure_healthy f;
    _ ← ensure (ix_writable f) (LogError.Native "transaction log is read-only");
    _ ← ensure (length file =? ix_durable_len f)%nat LogError.Corrupt;
    payload ← codec_encode rand (ix_codec f) record;
    append_framed_payload [] payload in
  match prepared with
  | Err e => (f, file, Err e)
  | Ok frame =>
      match io with
      | WriteFailed n e => (poison f, file ++ take n frame, Err (LogError.Io e))
      | SyncFailed e => (poison f, file ++ frame, Err (LogError.Io e))
      | Written =>
          let first_gap :=
            if (is_none (ix_first_gap f) &&
                is_some_and (last (ix_frames f)) (fun previous => not_next (fi_t previous) (r_t record)))%bool
            then Some (length (ix_frames f)) else ix_first_gap f in
          let entry :=
            mk_frame_index (r_t record) (Z.of_nat (ix_durable_len f)) (Z.of_nat (length frame)) in
          (mk_indexed (ix_writable f) (ix_poisoned f) (ix_frames f ++ [entry])
             (ix_durable_len f + length frame) first_gap (ix_codec f),
           file ++ frame, Ok tt)
      end
  end.

(** *** Reading ranges *)

(** The frames after the first of a chunk, up to the chunk's bound, and those left. *)
Fixpoint chunk_rest (offset : Z) (frames : list FrameIndex)
  : result LogError (list FrameIndex * list FrameIndex) :=
  match frames with
  | [] => Ok ([], [])
  | frame :: rest =>
      candidate_end ← frame_end frame;
      size ← ok_or (checked_sub_u64 candidate_end offset) LogError.Corrupt;
      if RANGE_READ_CHUNK_BYTES <? size then Ok ([], frame :: rest)
      else '(taken, later) ← chunk_rest offset rest; Ok (frame :: taken, later)
  end.

(** The loop of [read_chunks] over the selected frames; every round reads one frame at
    least, so their number bounds the rounds. *)
Fixpoint read_chunks_loop {A} (fuel : nat) (file : bytes) (frames : list FrameIndex)
  (visit : A -> bytes -> list FrameIndex -> result LogError A) (acc : A) : result LogError A :=
  match fuel, frames with
  | S fuel, frame :: rest =>
      let offset := fi_offset frame in
      '(taken, later) ← chunk_rest offset rest;
      byte_end ← frame_end (List.last taken frame);
      byte_len ← ok_or (checked_sub_u64 byte_end offset) LogError.Corrupt;
      chunk ← (if byte_len <=? Z.of_nat (length file)
               then read_exact_at file (Z.to_nat byte_len) (Z.to_nat offset)
               else Err (LogError.Io IoError.UnexpectedEof));
      acc ← visit acc chunk (frame :: taken);
      read_chunks_loop fuel file later visit acc
  | _, _ => Ok acc
  end.

Definition read_chunks {A} (f : IndexedFile) (file : bytes) (start : Z) (end_ : option Z)
  (visit : A -> bytes -> list FrameIndex -> result LogError A) (acc : A) : result LogError A :=
  _ ← ensure_healthy f;
  let first := partition_point (fun frame => fi_t frame <? start) (ix_frames f) in
  let last :=
    match end_ with
    | None => length (ix_frames f)
    | Some e => partition_point (fun frame => fi_t frame <? e) (ix_frames f)
    end in
  if (last <=? first)%nat then Ok acc
  else
    let selected := take (last - first) (drop first (ix_frames f)) in
    read_chunks_loop (length selected) file selected visit acc.

Definition visit_decode (codec : RecordCodec) (records : list TxRecord) (chunk : bytes)
  (frames : list FrameIndex) : result LogError (list TxRecord) :=
  chunk ← decode_framed_payloads chunk codec;
  if (negb (length chunk =? length frames)%nat ||
      existsb (fun p => negb (r_t p.1 =? fi_t p.2)) (zip chunk frames))%bool
  then Err LogError.Corrupt
  else Ok (records ++ chunk).

Definition indexed_tx_range (f : IndexedFile) (file : bytes) (start : Z) (end_ : option Z)
  : result LogError (list TxRecord) :=
  read_chunks f file start end_ (visit_decode (ix_codec f)) [].

Fixpoint copy_frames (log_version : Z) (chunk : bytes) (cursor : nat) (frames : list FrameIndex)
  : result LogError (list FramedRecord) :=
  match frames with
  | [] => Ok []
  | frame :: frames =>
      bytes ← (if Z.of_nat cursor + fi_len frame <=? Z.of_nat (length chunk)
               then Ok (slice chunk cursor (cursor + Z.to_nat (fi_len frame)))
               else Err LogError.Corrupt);
      rest ← copy_frames log_version chunk (cursor + Z.to_nat (fi_len frame)) frames;
      Ok (mk_framed (fi_t frame) log_version bytes :: rest)
  end.

Definition visit_copy (log_version : Z) (records : list FramedRecord) (chunk : bytes)
  (frames : list FrameIndex) : result LogError (list FramedRecord) :=
  copied ← copy_frames log_version chunk 0 frames; Ok (records ++ copied).

Definition framed_range (f : IndexedFile) (file : bytes) (log_version start : Z) (end_ : option Z)
  : result LogError (list FramedRecord) :=
  read_chunks f file start end_ (visit_copy log_version) [].

Definition validate_contiguous_prefix (f : IndexedFile) (retained : nat) : result LogError unit :=
  if is_some_and (ix_first_gap f) (fun gap => (gap <? retained)%nat) then Err LogError.Corrupt else Ok tt.

(** ** The file log *)

Definition file_log_open (file : option bytes) (cipher : option LogCipher)
  : result LogError (IndexedFile * bytes) :=
  '(f, file) ← indexed_open file true true (codec_new cipher 0);
  _ ← validate_contiguous_prefix f (length (ix_frames f));
  Ok (f, file).

(** [refreshed_for]: the handle is brought up to date unless its index already covers the
    range. A refresh that fails leaves the handle as it was; one that succeeds is kept even
    when the contiguity check refuses the log. *)
Definition refreshed_for (f : IndexedFile) (file : bytes) (end_ : option Z)
  : IndexedFile * result LogError unit :=
  match range_is_indexed (ix_frames f) end_ with
  | Err e => (f, Err e)
  | Ok true => (f, Ok tt)
  | Ok false =>
      match indexed_refresh f file with
      | Err e => (f, Err e)
      | Ok f => (f, validate_contiguous_prefix f (length (ix_frames f)))
      end
  end.

Definition file_log_append (rand : option bytes) (io : WriteOutcome) (f : IndexedFile) (file : bytes)
  (record : TxRecord) : IndexedFile * bytes * result LogError unit :=
  match indexed_refresh f file with
  | Err e => (f, file, Err e)
  | Ok f =>
      let checked :=
        _ ← validate_contiguous_prefix f (length (ix_frames f));
        n ← next_t (ix_frames f);
        ensure (n =? r_t record) LogError.Corrupt in
      match checked with
      | Err e => (f, file, Err e)
      | Ok _ => indexed_append rand io f file record
      end
  end.

(** [end.is_some_and(|end| end <= start)]. *)
Definition range_empty (start : Z) (end_ : option Z) : bool := is_some_and end_ (fun e => e <=? start).

Definition file_log_tx_range (f : IndexedFile) (file : bytes) (start : Z) (end_ : option Z)
  : IndexedFile * result LogError (list TxRecord) :=
  if range_empty start end_ then (f, Ok [])
  else
    let (f, ready) := refreshed_for f file end_ in
    (f, _ ← ready; indexed_tx_range f file start end_).

Definition file_log_tx_range_framed (f : IndexedFile) (file : bytes) (start : Z) (end_ : option Z)
  : IndexedFile * result LogError (list FramedRecord) :=
  if range_empty start end_ then (f, Ok [])
  else
    let (f, ready) := refreshed_for f file end_ in
    (f, _ ← ready; framed_range f file 0 start end_).
End indexed.

(** ** The in-memory log *)

Definition memory_append (records : list TxRecord) (record : TxRecord)
  : result LogError (list TxRecord) :=
  let next := match last records with None => 1 | Some r => r_t r + 1 end in
  if negb (next =? r_t record) then Err LogError.Corrupt else Ok (records ++ [record]).

Definition in_tx_range (start : Z) (end_ : option Z) (t : Z) : bool :=
  (start <=? t) && is_none_or end_ (fun e => t <? e).

Definition memory_tx_range (records : list TxRecord) (start : Z) (end_ : option Z) : list TxRecord :=
  List.filter (fun r => in_tx_range start end_ (r_t r)) records.
