(* ===== verification/FileLogFacts.v ===== *)
(** * The index of a log file and the reads through it

    A handle's index mirrors the frames of its file, a range read in chunks is the filter
    of the records it covers, and appending and opening keep the two in step. *)

From stdpp Require Import base list strings.
From Stdlib Require Import ZArith Lia Sorted.
From S2P Require Import Prelude OrdMap Machine Values Datoms Crypt LogRecord FileLog.
Local Open Scope Z_scope.

(** ** Selecting a range of a sorted list *)

Section select.
Context {A : Type} (k : A -> Z).

Definition key_sorted (l : list A) : Prop := StronglySorted (fun x y => k x < k y) l.
Definition key_in (start : Z) (end_ : option Z) (x : A) : bool := in_tx_range start end_ (k x).

Lemma below_closed e x y : k x < k y -> (k y <? e) = true -> (k x <? e) = true.
Proof. rewrite !Z.ltb_lt. lia. Qed.

Lemma partition_split e l : key_sorted l ->
  l = List.filter (fun x => k x <? e) l ++ List.filter (fun x => negb (k x <? e)) l /\
  partition_point (fun x => k x <? e) l = length (List.filter (fun x => k x <? e) l).
Proof.
  intros Hs. induction Hs as [|x l Hs [IH1 IH2] Hx]; [done|]. cbn [List.filter partition_point].
  destruct (k x <? e) eqn:E; cbn [negb app length].
  - split; [by f_equal|by rewrite IH2].
  - assert (List.filter (fun x => k x <? e) l = []) as Hf.
    { apply filter_all_false. intros y Hy. rewrite List.Forall_forall in Hx. specialize (Hx y Hy).
      apply Z.ltb_ge in E. apply Z.ltb_ge. lia. }
    rewrite Hf in *. split; [|done]. cbn [app] in *. by f_equal.
Qed.

Lemma filter_filter (p q : A -> bool) l :
  List.filter p (List.filter q l) = List.filter (fun x => q x && p x)%bool l.
Proof.
  induction l as [|x l IH]; [done|]. cbn [List.filter]. destruct (q x); cbn [List.filter andb]; [|done].
  by destruct (p x); rewrite IH.
Qed.

Lemma key_sorted_filter p l : key_sorted l -> key_sorted (List.filter p l).
Proof.
  induction 1 as [|x l Hs IH Hx]; [constructor|]. cbn [List.filter]. destruct (p x); [|done].
  constructor; [done|]. rewrite List.Forall_forall in *. intros y [Hy _]%filter_In. auto.
Qed.

(** The elements between the two partition points are those whose key is in the range. *)
Lemma range_select start end_ l : key_sorted l ->
  let first := partition_point (fun x => k x <? start) l in
  let last := match end_ with
              | None => length l
              | Some e => partition_point (fun x => k x <? e) l
              end in
  (if (last <=? first)%nat then [] else take (last - first) (drop first l)) =
    List.filter (key_in start end_) l.
Proof.
  intros Hs first last. unfold key_in, in_tx_range.
  destruct (partition_split start l Hs) as [Hl Hp]. fold first in Hp.
  set (ge := List.filter (fun x => negb (k x <? start)) l) in *.
  assert (Hge : key_sorted ge) by (by apply key_sorted_filter).
  assert (Hd : drop first l = ge) by (rewrite Hl, Hp, drop_app_length; done).
  assert (Hlen : length l = (first + length ge)%nat) by (rewrite Hl at 1; rewrite length_app; lia).
  assert (Hrange : forall q, List.filter q ge = List.filter (fun x => (start <=? k x) && q x)%bool l).
  { intros q. unfold ge. rewrite filter_filter. apply filter_ext. intros x. by rewrite Z.leb_antisym. }
  destruct end_ as [e|]; cbn [is_none_or].
  - rewrite <- (Hrange (fun x => k x <? e)). destruct (partition_split e ge Hge) as [Hg _].
    destruct (partition_split e l Hs) as [_ He]. fold last in He.
    set (lt := List.filter (fun x => k x <? e) ge) in *.
    destruct (decide (start <= e)) as [Hse|Hse].
    + assert (last = first + length lt)%nat as Hlast.
      { rewrite He, Hp. unfold lt. rewrite Hrange. clear -Hse. induction l as [|x l IH]; [done|].
        cbn [List.filter]. destruct (Z.ltb_spec (k x) e), (Z.leb_spec start (k x)), (Z.ltb_spec (k x) start);
          cbn [andb length]; lia. }
      destruct (Nat.leb_spec last first).
      * destruct lt; [done|]. cbn [length] in Hlast. lia.
      * rewrite Hd, Hlast. replace (first + length lt - first)%nat with (length lt) by lia.
        rewrite Hg at 1. by rewrite take_app_length.
    + assert (lt = []) as ->.
      { apply filter_all_false. intros x [_ Hx]%filter_In. apply negb_true_iff, Z.ltb_ge in Hx.
        apply Z.ltb_ge. lia. }
      assert (last <= first)%nat as Hle.
      { rewrite He, Hp. clear -Hse. induction l as [|x l IH]; [done|].
        cbn [List.filter]. destruct (Z.ltb_spec (k x) e), (Z.ltb_spec (k x) start); cbn [length]; lia. }
      by rewrite (proj2 (Nat.leb_le _ _)).
  - transitivity ge.
    + unfold last. destruct (Nat.leb_spec (length l) first).
      * symmetry. apply length_zero_iff_nil. lia.
      * rewrite Hd. apply take_ge. lia.
    + unfold ge. apply filter_ext. intros x. by rewrite andb_true_r, Z.leb_antisym.
Qed.

(** They are a run of the list. *)
Lemma range_run start end_ l : key_sorted l ->
  exists pre post, l = pre ++ List.filter (key_in start end_) l ++ post /\
    List.filter (key_in start end_) pre = [] /\ List.filter (key_in start end_) post = [].
Proof.
  intros Hs.
  assert (exists pre post, l = pre ++ List.filter (key_in start end_) l ++ post) as (pre & post & E).
  { rewrite <- range_select by done. set (first := partition_point _ _). set (last := match end_ with None => _ | _ => _ end).
    destruct (last <=? first)%nat; [exists [], l; done|].
    exists (take first l), (drop (last - first) (drop first l)). by rewrite !take_drop. }
  exists pre, post. split; [done|]. assert (Hf := f_equal (List.filter (key_in start end_)) E).
  rewrite !List.filter_app, (filter_all_true _ (List.filter _ l)) in Hf by (by intros x [_ ?]%filter_In).
  apply (f_equal length) in Hf. rewrite !length_app in Hf.
  split; apply length_zero_iff_nil; lia.
Qed.
End select.

Lemma memory_range_empty rs start end_ : range_empty start end_ = true -> memory_tx_range rs start end_ = [].
Proof.
  unfold range_empty. destruct end_ as [e|]; [|done]. cbn [is_some_and]. intros He%Z.leb_le.
  apply filter_all_false. intros r _. unfold in_tx_range. cbn [is_none_or].
  destruct (Z.leb_spec start (r_t r)); [|done]. apply Z.ltb_ge. lia.
Qed.

(** ** Entries of a file and their index *)

Notation entry := (Z * (bool * bytes))%type.

Section index.
Context `{K : Crc32c}.

Lemma frames_of_app (a b : list entry) : frames_of (a ++ b) = frames_of a ++ frames_of b.
Proof. unfold frames_of, frames_bytes. by rewrite map_app, flat_map_app. Qed.

Lemma frames_of_cons (e : entry) l : frames_of (e :: l) = frame_of e.2.1 e.2.2 ++ frames_of l.
Proof. done. Qed.

Lemma index_of_app off (a b : list entry) :
  index_of off (a ++ b) = index_of off a ++ index_of (off + length (frames_of a)) b.
Proof.
  revert off. induction a as [|[t [legacy p]] a IH]; intros off.
  - cbn [app index_of]. by rewrite Nat.add_0_r.
  - rewrite <- app_comm_cons, frames_of_cons, length_app. cbn [index_of app fst snd].
    rewrite IH, length_frame_of. do 3 f_equal. lia.
Qed.

Lemma index_of_ts off (a : list entry) : map fi_t (index_of off a) = map fst a.
Proof. revert off. induction a as [|[t [legacy p]] a IH]; intros off; [done|]. cbn [index_of map fst fi_t]. by rewrite IH. Qed.

Lemma length_index_of off (a : list entry) : length (index_of off a) = length a.
Proof. rewrite <- (length_map fi_t), index_of_ts. apply length_map. Qed.

Lemma index_filter off (a : list entry) p :
  (forall e, In e a -> p e.1 = true) ->
  List.filter (fun x => p (fi_t x)) (index_of off a) = index_of off a.
Proof.
  intros H. apply filter_all_true. intros x Hx. apply (in_map fi_t) in Hx. rewrite index_of_ts in Hx.
  apply in_map_iff in Hx as (e & <- & He). auto.
Qed.

Lemma index_filter_none off (a : list entry) p :
  List.filter (fun e => p e.1) a = [] -> List.filter (fun x => p (fi_t x)) (index_of off a) = [].
Proof.
  intros H. apply filter_all_false. intros x Hx. apply (in_map fi_t) in Hx. rewrite index_of_ts in Hx.
  apply in_map_iff in Hx as (e & <- & He). destruct (p e.1) eqn:E; [|done].
  assert (In e (List.filter (fun e => p e.1) a)) as Hin by (by apply filter_In). by rewrite H in Hin.
Qed.

Lemma index_sorted off (a : list entry) : key_sorted fst a -> key_sorted fi_t (index_of off a).
Proof.
  intros Hs. revert off. induction Hs as [|[t [legacy p]] a Hs IH Hx]; intros off; [constructor|].
  cbn [index_of]. constructor; [apply IH|]. rewrite List.Forall_forall in *. intros x Hin.
  apply (in_map fi_t) in Hin. rewrite index_of_ts in Hin. apply in_map_iff in Hin as (e & <- & He).
  apply (Hx e He).
Qed.

(** The index entries of a range are the index of a run of the file's entries. *)
Lemma index_of_range (a : list entry) start end_ : key_sorted fst a ->
  exists pre post, a = pre ++ List.filter (key_in fst start end_) a ++ post /\
    List.filter (key_in fi_t start end_) (index_of 0 a) =
      index_of (length (frames_of pre)) (List.filter (key_in fst start end_) a).
Proof.
  intros Hs. destruct (range_run fst start end_ a Hs) as (pre & post & E & Hpre & Hpost).
  exists pre, post. split; [done|]. set (sel := List.filter (key_in fst start end_) a) in *.
  rewrite E, !index_of_app, !List.filter_app. unfold key_in in *.
  rewrite (index_filter_none _ pre (in_tx_range start end_) Hpre).
  rewrite (index_filter_none _ post (in_tx_range start end_) Hpost).
  rewrite (index_filter _ sel (in_tx_range start end_)) by (by intros e [_ ?]%filter_In).
  by rewrite app_nil_r.
Qed.

(** *** Reading a run in chunks *)

Definition fits (file : bytes) : Prop := Z.of_nat (length file) < 2 ^ 63.

Lemma frame_end_index o t legacy p : Z.of_nat (o + frame_size legacy p) < 2 ^ 64 ->
  frame_end (mk_frame_index t (Z.of_nat o) (Z.of_nat (frame_size legacy p))) =
    Ok (Z.of_nat (o + frame_size legacy p)).
Proof.
  intros H. unfold frame_end, checked_add_u64. cbn [fi_offset fi_len].
  rewrite <- Nat2Z.inj_add. by rewrite (proj2 (Z.ltb_lt _ _)).
Qed.

Lemma chunk_rest_index (offset : nat) o (l : list entry) : (offset <= o)%nat ->
  Z.of_nat (o + length (frames_of l)) < 2 ^ 64 ->
  exists a b, l = a ++ b /\
    chunk_rest (Z.of_nat offset) (index_of o l) =
      Ok (index_of o a, index_of (o + length (frames_of a)) b).
Proof.
  revert o. induction l as [|[t [legacy p]] l IH]; intros o Ho Hb.
  - exists [], []. split; [done|]. reflexivity.
  - rewrite frames_of_cons, length_app, length_frame_of in Hb. cbn [fst snd] in Hb.
    cbn [index_of chunk_rest].
    rewrite frame_end_index by lia. cbn [mbind result_bind].
    unfold checked_sub_u64. rewrite (proj2 (Z.leb_le _ _)) by lia. cbn [ok_or mbind result_bind].
    destruct (RANGE_READ_CHUNK_BYTES <? _).
    + exists [], ((t, (legacy, p)) :: l). split; [done|]. cbn [app index_of frames_of map frames_bytes flat_map length].
      by rewrite Nat.add_0_r.
    + destruct (IH (o + frame_size legacy p)%nat) as (a & b & -> & ->); [lia|lia|].
      exists ((t, (legacy, p)) :: a), b. split; [done|]. cbn [mbind result_bind index_of].
      rewrite frames_of_cons, length_app, length_frame_of. cbn [fst snd]. by rewrite Nat.add_assoc.
Qed.

Lemma frame_end_last o t legacy p (l : list entry) :
  Z.of_nat (o + length (frames_of ((t, (legacy, p)) :: l))) < 2 ^ 64 ->
  frame_end (List.last (index_of (o + frame_size legacy p) l)
    (mk_frame_index t (Z.of_nat o) (Z.of_nat (frame_size legacy p)))) =
    Ok (Z.of_nat (o + length (frames_of ((t, (legacy, p)) :: l)))).
Proof.
  revert o t legacy p. induction l as [|[t' [legacy' p']] l IH]; intros o t legacy p Hb.
  - rewrite frames_of_cons, app_nil_r, length_frame_of in *. by apply frame_end_index.
  - rewrite frames_of_cons, length_app, length_frame_of in *. cbn [index_of fst snd] in *.
    rewrite Nat.add_assoc, <- IH by lia. f_equal.
    destruct (index_of _ l) as [|x r]; [done|]. cbn [List.last].
    revert x. induction r as [|y r IHr]; intros x; [done|]. apply (IHr y).
Qed.
End index.

Section chunks.
Context `{C : Crypto} `{K : Crc32c} `{KL : !Crc32cLaws K}.

(** A visitor that turns every chunk of good entries into [g] of each of them turns the
    run into [g] of each of its entries, whatever the chunks were. *)
Lemma read_chunks_loop_run {B} (P : entry -> Prop) (g : entry -> B) visit file :
  (forall acc o ch, Forall P ch -> visit acc (frames_of ch) (index_of o ch) = Ok (acc ++ map g ch)) ->
  forall fuel off l rest acc, drop off file = frames_of l ++ rest -> fits file -> Forall P l ->
  (length l <= fuel)%nat ->
  read_chunks_loop fuel file (index_of off l) visit acc = Ok (acc ++ map g l).
Proof.
  intros Hv. induction fuel as [|fuel IH]; intros off l rest acc Hd Hb HP Hf.
  - destruct l; [|simpl in Hf; lia]. cbn [index_of read_chunks_loop map]. by rewrite app_nil_r.
  - destruct l as [|[t [legacy p]] l]; [cbn [index_of read_chunks_loop map]; by rewrite app_nil_r|].
    unfold fits in Hb. pose proof (f_equal length Hd) as Hlen. rewrite length_drop, length_app in Hlen.
    assert (Hpos : (0 < length (frames_of ((t, (legacy, p)) :: l)))%nat).
    { rewrite frames_of_cons, length_app, length_frame_of. pose proof (frame_size_pos legacy p). cbn [fst snd]. lia. }
    assert (Hoff : (off <= length file)%nat) by lia.
    cbn [index_of read_chunks_loop fi_offset].
    destruct (chunk_rest_index off (off + frame_size legacy p) l) as (a & b & -> & Ha); [lia| |].
    { rewrite frames_of_cons, length_app, length_frame_of in Hlen, Hpos. cbn [fst snd] in *. lia. }
    rewrite Ha. cbn [mbind result_bind].
    set (ch := (t, (legacy, p)) :: a). rewrite app_comm_cons in *. fold ch in Hd, HP, Hlen, Hpos |- *.
    rewrite frames_of_app in Hlen, Hd. rewrite length_app in Hlen. rewrite <- app_assoc in Hd.
    rewrite frame_end_last by (fold ch; lia). fold ch. cbn [mbind result_bind].
    unfold checked_sub_u64. rewrite (proj2 (Z.leb_le _ _)) by lia. cbn [ok_or mbind result_bind].
    replace (Z.of_nat (off + length (frames_of ch)) - Z.of_nat off) with (Z.of_nat (length (frames_of ch))) by lia.
    rewrite (proj2 (Z.leb_le _ _)), !Nat2Z.id, read_exact_slice by lia.
    rewrite Hd, slice_app_l, slice_all by lia. cbn [mbind result_bind].
    apply Forall_app in HP as [HPa HPb].
    assert (index_of off ch = mk_frame_index t (Z.of_nat off) (Z.of_nat (frame_size legacy p)) ::
      index_of (off + frame_size legacy p) a) as <- by done.
    rewrite Hv by done. cbn [mbind result_bind].
    replace (off + frame_size legacy p + length (frames_of a))%nat with (off + length (frames_of ch))%nat
      by (unfold ch; rewrite frames_of_cons, length_app, length_frame_of; cbn [fst snd]; lia).
    rewrite (IH _ b rest); [|..|done|done|].
    + by rewrite map_app, app_assoc.
    + by rewrite <- drop_drop, Hd, drop_app_length.
    + unfold ch in Hf. rewrite <- app_comm_cons in Hf. cbn [length] in Hf. rewrite length_app in Hf. lia.
Qed.

(** An entry whose payload decodes to a record of its number. *)
Definition decodes (codec : RecordCodec) (e : entry) (r : TxRecord) : Prop :=
  e.1 = r_t r /\ Z.of_nat (length e.2.2) < 2 ^ 63 /\ codec_decode codec e.2.2 = Ok r.

Definition decoded (codec : RecordCodec) (e : entry) : TxRecord :=
  match codec_decode codec e.2.2 with Ok r => r | Err _ => mk_tx_record 0 0 [] end.

Definition sound (codec : RecordCodec) (e : entry) : Prop :=
  Z.of_nat (length e.2.2) < 2 ^ 63 /\ exists r, codec_decode codec e.2.2 = Ok r /\ r_t r = e.1.

Lemma decodes_sound codec e r : decodes codec e r -> sound codec e /\ decoded codec e = r.
Proof. intros (Ht & Hl & Hd). unfold sound, decoded. rewrite Hd. split; [|done]. eauto. Qed.

Lemma sound_indexed codec e : mode codec <> RecordMode.Opaque -> sound codec e -> indexed_by codec e.
Proof.
  intros Hm (Hl & r & Hd & Ht). split; [done|]. unfold frame_t. rewrite Hd.
  destruct (mode codec); cbn [mbind result_bind]; congruence.
Qed.

Lemma try_map_decode codec (ch : list entry) : Forall (sound codec) ch ->
  try_map (fun f => codec_decode codec f.2) (map (fun f => (frame_of f.1 f.2, f.2)) (map snd ch)) =
    Ok (map (decoded codec) ch).
Proof.
  induction 1 as [|e ch (Hl & r & Hd & Ht) _ IH]; [done|]. cbn [map try_map snd].
  unfold decoded at 1. rewrite Hd. cbn [mbind result_bind]. by rewrite IH.
Qed.

Lemma visit_decode_run codec acc o ch : Forall (sound codec) ch ->
  visit_decode codec acc (frames_of ch) (index_of o ch) = Ok (acc ++ map (decoded codec) ch).
Proof.
  intros HP. unfold visit_decode, decode_framed_payloads, frames_of. rewrite split_frames_bytes.
  - cbn [mbind result_bind]. rewrite try_map_decode by done. cbn [mbind result_bind].
    rewrite length_map, length_index_of, Nat.eqb_refl. cbn [negb orb].
    assert (existsb (fun p => negb (r_t p.1 =? fi_t p.2)) (zip (map (decoded codec) ch) (index_of o ch)) = false) as ->;
      [|done].
    revert o. induction HP as [|[t [legacy p]] ch (Hl & r & Hd & Ht) _ IH]; intros o; [done|].
    cbn [map index_of zip_with existsb fst snd]. unfold decoded at 1. rewrite Hd. cbn [fi_t].
    rewrite Ht, IH. cbn [fst]. by rewrite Z.eqb_refl.
  - unfold frames_ok. rewrite List.Forall_map. eapply List.Forall_impl; [|done]. by intros e [? _].
Qed.

Definition copied (log_version : Z) (e : entry) : FramedRecord :=
  mk_framed e.1 log_version (frame_of e.2.1 e.2.2).

Lemma copy_frames_run v pre o (ch : list entry) :
  copy_frames v (pre ++ frames_of ch) (length pre) (index_of o ch) = Ok (map (copied v) ch).
Proof.
  revert pre o. induction ch as [|[t [legacy p]] ch IH]; intros pre o; [done|].
  cbn [index_of copy_frames fi_len fi_t map]. rewrite Nat2Z.id, length_app, frames_of_cons, length_app, length_frame_of.
  cbn [fst snd]. rewrite (proj2 (Z.leb_le _ _)) by lia.
  rewrite slice_mid by (rewrite ?length_frame_of; done). cbn [mbind result_bind].
  rewrite app_assoc, <- (length_frame_of legacy p), <- length_app, IH. done.
Qed.

Lemma visit_copy_run v acc o ch : Forall (fun _ : entry => True) ch ->
  visit_copy v acc (frames_of ch) (index_of o ch) = Ok (acc ++ map (copied v) ch).
Proof. intros _. unfold visit_copy. pose proof (copy_frames_run v [] o ch) as H. cbn [app length] in H. by rewrite H. Qed.

(** ** A handle and its file *)

(** The handle's index is the index of [fs]. *)
Record handle_at (f : IndexedFile) (fs : list entry) : Prop := {
  ha_frames : ix_frames f = index_of 0 fs;
  ha_durable : ix_durable_len f = length (frames_of fs);
  ha_gap : ix_first_gap f = first_gap_index (ix_frames f);
}.

Lemma read_chunks_run {B} (P : entry -> Prop) (g : entry -> B) visit f file fs rest start end_ :
  (forall acc o ch, Forall P ch -> visit acc (frames_of ch) (index_of o ch) = Ok (acc ++ map g ch)) ->
  handle_at f fs -> ix_poisoned f = false -> file = frames_of fs ++ rest -> fits file ->
  key_sorted fst fs -> Forall P fs ->
  read_chunks f file start end_ visit [] = Ok (map g (List.filter (key_in fst start end_) fs)).
Proof.
  intros Hv [Hfr _ _] Hp Hfile Hb Hs HP. unfold read_chunks, ensure_healthy. rewrite Hp, Hfr.
  cbn [mbind result_bind].
  pose proof (range_select fi_t start end_ (index_of 0 fs) (index_sorted 0 fs Hs)) as Hsel. cbv zeta in Hsel.
  destruct (index_of_range fs start end_ Hs) as (pre & post & E & Hi). rewrite Hi in Hsel.
  set (sel := List.filter (key_in fst start end_) fs) in *.
  destruct (_ <=? _)%nat; [by destruct sel as [|[? []]]|].
  rewrite Hsel, length_index_of. rewrite E, frames_of_app, <- app_assoc, frames_of_app, <- app_assoc in Hfile.
  rewrite (read_chunks_loop_run P g visit file Hv _ _ sel (frames_of post ++ rest)); [done| |done| |done].
  - by rewrite Hfile, drop_app_length.
  - rewrite E in HP. by apply Forall_app in HP as [_ [? _]%Forall_app].
Qed.
End chunks.

(** ** Consecutive numbers *)

Fixpoint run_from (t : Z) (ts : list Z) : Prop :=
  match ts with
  | [] => True
  | u :: ts => u = t /\ run_from (t + 1) ts
  end.

Lemma run_from_app t a b :
  run_from t (a ++ b) <-> run_from t a /\ run_from (t + Z.of_nat (length a)) b.
Proof.
  revert t. induction a as [|u a IH]; intros t; cbn [app run_from length].
  - rewrite Z.add_0_r. tauto.
  - rewrite IH. replace (t + Z.of_nat (S (length a))) with (t + 1 + Z.of_nat (length a)) by lia. tauto.
Qed.

Lemma run_from_In t ts u : run_from t ts -> In u ts <-> t <= u < t + Z.of_nat (length ts).
Proof.
  revert t. induction ts as [|v ts IH]; intros t; cbn [run_from length In]; [lia|].
  intros [-> H]. rewrite (IH (t + 1)) by done. lia.
Qed.

Lemma run_from_last t ts u : run_from t (ts ++ [u]) -> u = t + Z.of_nat (length ts).
Proof. rewrite run_from_app. cbn [run_from]. tauto. Qed.

Lemma run_sorted {A} (k : A -> Z) t l : run_from t (map k l) -> key_sorted k l.
Proof.
  revert t. induction l as [|x l IH]; intros t; cbn [map run_from]; [constructor|].
  intros [Hx H]. constructor; [by eapply IH|]. apply List.Forall_forall. intros y Hy%(in_map k).
  apply (run_from_In _ _ _ H) in Hy. lia.
Qed.

Lemma not_next_succ t : t < 2 ^ 62 -> not_next t (t + 1) = false.
Proof.
  intros H. unfold not_next, checked_add_u64. rewrite (proj2 (Z.ltb_lt _ _)) by lia.
  by rewrite bool_decide_true.
Qed.

Definition bounded (t : Z) {A} (l : list A) : Prop := t + Z.of_nat (length l) <= 2 ^ 62.

Lemma gap_position_cons x y l : gap_position (x :: y :: l) =
  if not_next (fi_t x) (fi_t y) then Some O else S <$> gap_position (y :: l).
Proof. done. Qed.

Lemma validate_sorted_cons x y l : validate_sorted_frames (x :: y :: l) =
  if fi_t y <=? fi_t x then Err LogError.Corrupt else validate_sorted_frames (y :: l).
Proof. done. Qed.

Lemma run_gap t frames : run_from t (map fi_t frames) -> bounded t frames -> first_gap_index frames = None.
Proof.
  unfold first_gap_index, bounded. intros H Hb. enough (gap_position frames = None) as -> by done.
  revert t H Hb. induction frames as [|x frames IH]; intros t; [done|]. cbn [map run_from length].
  intros [Hx H] Hb. destruct frames as [|y frames]; [done|].
  assert (fi_t y = t + 1) as Hy by apply H. rewrite gap_position_cons, Hx, Hy, not_next_succ by lia.
  rewrite (IH (t + 1)); [done|done|lia].
Qed.

Lemma run_validate t frames : run_from t (map fi_t frames) -> validate_sorted_frames frames = Ok tt.
Proof.
  revert t. induction frames as [|x frames IH]; intros t; [done|]. cbn [map run_from].
  intros [Hx H]. destruct frames as [|y frames]; [done|].
  assert (fi_t y = t + 1) as Hy by apply H. rewrite validate_sorted_cons, (proj2 (Z.leb_gt _ _)) by lia. by eapply IH.
Qed.

Lemma run_adjacent t a b x y : run_from t (map fi_t (a ++ b)) -> last a = Some x -> head b = Some y ->
  fi_t y = fi_t x + 1.
Proof.
  intros H Hx Hy. apply last_Some in Hx as [a' ->]. destruct b as [|z b]; [done|]. injection Hy as ->.
  rewrite !map_app, <- app_assoc in H. apply run_from_app in H as [_ H]. cbn [map app run_from] in H. lia.
Qed.

Lemma run_extension t a b : run_from t (map fi_t (a ++ b)) -> bounded t (a ++ b) ->
  validate_sorted_extension a b = Ok tt /\ extension_first_gap a b = None.
Proof.
  intros H Hb. unfold validate_sorted_extension, extension_first_gap, bounded in *.
  assert (Hr : run_from (t + Z.of_nat (length a)) (map fi_t b)).
  { rewrite map_app in H. apply run_from_app in H as [_ H]. by rewrite length_map in H. }
  rewrite (run_validate _ _ Hr). rewrite length_app in Hb.
  rewrite (run_gap _ _ Hr) by (unfold bounded; lia). cbn [mbind result_bind].
  destruct (last a) as [x|] eqn:Hx, (head b) as [y|] eqn:Hy; try done.
  pose proof (run_adjacent _ _ _ _ _ H Hx Hy) as E.
  assert (Hin : In (fi_t x) (map fi_t (a ++ b))).
  { apply in_map, in_app_iff. left. apply last_Some in Hx as [a' ->]. apply in_app_iff. right. by left. }
  apply (run_from_In _ _ _ H) in Hin. rewrite length_map, length_app in Hin.
  rewrite E, not_next_succ by lia. by rewrite (proj2 (Z.leb_gt _ _)) by lia.
Qed.

Lemma run_next_t frames : run_from 1 (map fi_t frames) -> bounded 1 frames ->
  next_t frames = Ok (1 + Z.of_nat (length frames)).
Proof.
  intros H Hb. unfold next_t, bounded in *. destruct (last frames) as [x|] eqn:Hx.
  - apply last_Some in Hx as [l ->]. rewrite map_app in H. apply run_from_last in H.
    rewrite length_map in H. rewrite length_app in *. cbn [length] in *. unfold checked_add_u64.
    rewrite (proj2 (Z.ltb_lt _ _)) by lia. cbn [ok_or]. f_equal. lia.
  - apply last_None in Hx as ->. done.
Qed.

(** ** Sorted indexes *)

Lemma key_sorted_app {A} (k : A -> Z) a b : key_sorted k (a ++ b) -> key_sorted k a /\ key_sorted k b.
Proof.
  induction a as [|x a IH]; [by split; [constructor|]|]. rewrite <- app_comm_cons.
  inversion_clear 1 as [|? ? Hs Hx]. destruct (IH Hs). split; [|done]. constructor; [done|].
  by apply Forall_app in Hx as [? _].
Qed.

Lemma key_sorted_adjacent {A} (k : A -> Z) a b x y : key_sorted k (a ++ b) -> last a = Some x -> head b = Some y ->
  k x < k y.
Proof.
  intros Hs Hx Hy. apply last_Some in Hx as [a' ->]. destruct b as [|z b]; [done|]. injection Hy as ->.
  rewrite <- app_assoc in Hs. apply key_sorted_app in Hs as [_ Hs]. inversion_clear Hs as [|? ? _ Hf].
  by apply Forall_inv in Hf.
Qed.

Lemma sorted_validate frames : key_sorted fi_t frames -> validate_sorted_frames frames = Ok tt.
Proof.
  induction frames as [|x frames IH]; [done|]. inversion_clear 1 as [|? ? Hs Hx].
  destruct frames as [|y frames]; [done|]. apply Forall_inv in Hx.
  rewrite validate_sorted_cons, (proj2 (Z.leb_gt _ _)) by lia. auto.
Qed.

Lemma sorted_extension a b : key_sorted fi_t (a ++ b) -> validate_sorted_extension a b = Ok tt.
Proof.
  intros Hs. unfold validate_sorted_extension. destruct (key_sorted_app _ _ _ Hs) as [_ Hb].
  rewrite (sorted_validate b Hb). cbn [mbind result_bind].
  destruct (last a) as [x|] eqn:Hx, (head b) as [y|] eqn:Hy; try done.
  pose proof (key_sorted_adjacent _ _ _ _ _ Hs Hx Hy). by rewrite (proj2 (Z.leb_gt _ _)) by lia.
Qed.

(** Extending an index finds the gap that scanning the whole of it would. *)
Lemma first_gap_app a b : first_gap_index (a ++ b) =
  match first_gap_index a with
  | Some gap => Some gap
  | None => Nat.add (length a) <$> extension_first_gap a b
  end.
Proof.
  unfold first_gap_index, extension_first_gap. induction a as [|x a IH].
  { cbn [app last]. unfold first_gap_index. by destruct (gap_position b). }
  destruct a as [|y a].
  - destruct b as [|y b]; [done|]. change ([x] ++ y :: b) with (x :: y :: b). rewrite gap_position_cons.
    change (gap_position [x]) with (@None nat). cbn [last head length fmap option_fmap option_map].
    destruct (not_next (fi_t x) (fi_t y)); [done|]. unfold first_gap_index. by destruct (gap_position (y :: b)).
  - rewrite <- !app_comm_cons, !gap_position_cons. rewrite <- app_comm_cons in IH.
    destruct (not_next (fi_t x) (fi_t y)); [done|]. rewrite last_cons_cons.
    destruct (gap_position (y :: a)) as [g|]; cbn [fmap option_fmap option_map] in IH |- *.
    + destruct (gap_position (y :: a ++ b)) as [g'|]; [|discriminate]. by injection IH as ->.
    + destruct (match last (y :: a) with Some _ => _ | None => _ end) as [e|],
        (gap_position (y :: a ++ b)) as [g'|]; cbn [fmap option_fmap option_map] in IH |- *;
        [|discriminate|discriminate|done].
      injection IH as IH. f_equal. cbn [length] in *. lia.
Qed.

(** ** The log as a handle and a file *)

Section log.
Context `{CL : CryptoLaws} `{K : Crc32c} `{KL : !Crc32cLaws K}.
Context (codec : RecordCodec) (Hcodec : codec_ok codec).

(** The file holds the frames [fs] of the records [rs], in the order of their numbers, and
    perhaps what a crash left of one more. *)
Record sorted_file (file : bytes) (fs : list entry) (rs : list TxRecord) (tail : bytes) : Prop := {
  sf_file : file = frames_of fs ++ tail;
  sf_torn : torn tail;
  sf_records : Forall2 (decodes codec) fs rs;
  sf_sorted : key_sorted r_t rs;
}.

(** Such a file whose records are numbered from one. *)
Record log_file (file : bytes) (fs : list entry) (rs : list TxRecord) (tail : bytes) : Prop := {
  lf_file : file = frames_of fs ++ tail;
  lf_torn : torn tail;
  lf_records : Forall2 (decodes codec) fs rs;
  lf_numbered : run_from 1 (map r_t rs);
  lf_bounded : bounded 1 rs;
}.

(** A usable handle, whose index may lag behind the file. *)
Record handle_on (f : IndexedFile) (fs : list entry) : Prop := {
  ho_at : exists n, handle_at f (take n fs);
  ho_codec : ix_codec f = codec;
  ho_healthy : ix_poisoned f = false;
}.

Definition handle_current (f : IndexedFile) (fs : list entry) : Prop := handle_on f fs /\ handle_at f fs.

Lemma codec_not_opaque : mode codec <> RecordMode.Opaque.
Proof. intros E. unfold codec_ok in Hcodec. by rewrite E in Hcodec. Qed.

Lemma lf_ts fs rs : Forall2 (decodes codec) fs rs -> map fst fs = map r_t rs.
Proof. induction 1 as [|e r fs rs (Ht & _) _ IH]; [done|]. cbn [map]. by rewrite Ht, IH. Qed.

Lemma lf_sound fs rs : Forall2 (decodes codec) fs rs ->
  Forall (sound codec) fs /\ map (decoded codec) fs = rs.
Proof.
  induction 1 as [|e r fs rs H _ [IH1 IH2]]; [done|]. apply decodes_sound in H as [H1 H2].
  split; [by constructor|]. cbn [map]. by rewrite H2, IH2.
Qed.

Lemma lf_indexed fs rs : Forall2 (decodes codec) fs rs -> Forall (indexed_by codec) fs.
Proof.
  intros [H _]%lf_sound. eapply List.Forall_impl; [|done]. intros e. apply sound_indexed, codec_not_opaque.
Qed.

Lemma sorted_decodes fs rs : Forall2 (decodes codec) fs rs -> key_sorted r_t rs -> key_sorted fst fs.
Proof.
  induction 1 as [|e r fs rs (He & _) Hr IH]; [constructor|]. inversion_clear 1 as [|? ? Hs Hx].
  constructor; [by apply IH|]. rewrite List.Forall_forall in *. intros e' He'%(in_map fst).
  rewrite (lf_ts _ _ Hr) in He'. apply in_map_iff in He' as (r' & <- & Hin). rewrite He. by apply Hx.
Qed.

Lemma frames_of_nil (l : list entry) : frames_of l = [] -> l = [].
Proof.
  destruct l as [|[t [legacy p]] l]; [done|]. intros E%(f_equal length).
  rewrite frames_of_cons, length_app, length_frame_of in E. pose proof (frame_size_pos legacy p).
  cbn [fst snd length] in E. lia.
Qed.

Lemma decoded_filter start end_ l rs' : Forall (sound codec) l -> map (decoded codec) l = rs' ->
  map (decoded codec) (List.filter (key_in fst start end_) l) = memory_tx_range rs' start end_.
Proof.
  intros Hs <-. unfold memory_tx_range. induction Hs as [|e l (_ & r & Hd & Ht) _ IH]; [done|].
  cbn [map List.filter]. unfold key_in at 1.
  assert (r_t (decoded codec e) = e.1) as -> by (unfold decoded; by rewrite Hd).
  destruct (in_tx_range start end_ e.1); cbn [map]; by rewrite IH.
Qed.

Section sorted_state.
Context (file : bytes) (fs : list entry) (rs : list TxRecord) (tail : bytes) (Hsf : sorted_file file fs rs tail).

Lemma sf_keys : key_sorted fst fs.
Proof. destruct Hsf as [_ _ Hr Hs]. by eapply sorted_decodes. Qed.

Lemma sf_split n : file = frames_of (take n fs) ++ (frames_of (drop n fs) ++ tail).
Proof. rewrite app_assoc, <- frames_of_app, take_drop. apply (sf_file _ _ _ _ Hsf). Qed.

(** Scanning from the end of any prefix of the frames indexes the rest of them. *)
Lemma sf_scan n : scan_frames file (length (frames_of (take n fs))) codec =
  Ok (index_of (length (frames_of (take n fs))) (drop n fs), length (frames_of fs)).
Proof.
  destruct Hsf as [Hfile Ht Hr _]. unfold scan_frames.
  assert (E : frames_of fs = frames_of (take n fs) ++ frames_of (drop n fs))
    by (by rewrite <- frames_of_app, take_drop).
  rewrite (scan_frames_app _ file codec _ (drop n fs) tail); [| |by apply Forall_drop, (lf_indexed _ rs)|done|].
  - do 2 f_equal. rewrite E, length_app. done.
  - by rewrite Hfile, E, <- app_assoc, drop_app_length.
  - pose proof (frames_bytes_length (map snd fs)) as H. rewrite length_map in H.
    rewrite Hfile, length_app, length_drop. unfold frames_of. lia.
Qed.

(** Refreshing brings the index up to the file's last whole frame. *)
Lemma refresh_current f : handle_on f fs -> exists f', indexed_refresh f file = Ok f' /\
  handle_current f' fs /\ ix_writable f' = ix_writable f.
Proof.
  intros [[n Hat] Hc Hh]. destruct Hat as [Hfr Hd Hg]. unfold indexed_refresh, ensure_healthy. rewrite Hh.
  cbn [mbind result_bind].
  assert (Hlen : length file = (ix_durable_len f + length (frames_of (drop n fs)) + length tail)%nat)
    by (rewrite (sf_split n), !length_app, Hd; lia).
  rewrite (proj2 (Nat.ltb_ge _ _)) by lia.
  destruct (Nat.ltb_spec (ix_durable_len f) (length file)) as [Hlt|Hge].
  - rewrite Hc, Hd, sf_scan. cbn [mbind result_bind].
    assert (Happ : index_of 0 (take n fs) ++ index_of (length (frames_of (take n fs))) (drop n fs) = index_of 0 fs)
      by (rewrite <- (take_drop n fs) at 4; by rewrite index_of_app).
    pose proof (index_sorted 0 fs sf_keys) as Hs. rewrite <- Happ in Hs.
    rewrite Hfr, (sorted_extension _ _ Hs). cbn [mbind result_bind].
    eexists. split; [done|]. split; [|done].
    assert (Hat' : forall w g, g = first_gap_index (index_of 0 fs) ->
      handle_at (mk_indexed w false (index_of 0 fs) (length (frames_of fs)) g codec) fs)
      by (by split).
    rewrite Hg, Hfr, Happ. split; [split|]; [exists (length fs); rewrite firstn_all| | |]; try done;
      apply Hat'; by rewrite <- Happ, first_gap_app.
  - exists f. split; [done|]. assert (drop n fs = []) as Hn by (apply frames_of_nil, length_zero_iff_nil; lia).
    assert (take n fs = fs) as Ht by (rewrite <- (take_drop n fs) at 2; by rewrite Hn, app_nil_r).
    rewrite Ht in *. split; [|done]. split; [split|]; [exists (length fs); by rewrite firstn_all| | |]; done.
Qed.

(** A handle answers from the frames it has indexed. *)
Lemma indexed_range_prefix f n start end_ : handle_on f fs -> handle_at f (take n fs) -> fits file ->
  indexed_tx_range f file start end_ = Ok (memory_tx_range (take n rs) start end_).
Proof.
  intros [_ Hc Hh] Hat Hb. destruct (lf_sound _ _ (sf_records _ _ _ _ Hsf)) as [Hs Hm].
  assert (Hsort : key_sorted fst (take n fs))
    by (pose proof sf_keys as H; rewrite <- (take_drop n fs) in H; by apply key_sorted_app in H as [? _]).
  unfold indexed_tx_range. rewrite Hc.
  rewrite (read_chunks_run _ _ _ f file _ _ start end_ (visit_decode_run codec) Hat Hh (sf_split n) Hb Hsort)
    by (by apply Forall_take).
  f_equal. apply decoded_filter; [by apply Forall_take|]. by rewrite <- firstn_map, Hm.
Qed.

Lemma framed_range_prefix f n v start end_ : handle_on f fs -> handle_at f (take n fs) -> fits file ->
  framed_range f file v start end_ =
    Ok (map (copied v) (List.filter (key_in fst start end_) (take n fs))).
Proof.
  intros [_ Hc Hh] Hat Hb.
  assert (Hsort : key_sorted fst (take n fs))
    by (pose proof sf_keys as H; rewrite <- (take_drop n fs) in H; by apply key_sorted_app in H as [? _]).
  unfold framed_range.
  apply (read_chunks_run (fun _ => True) _ _ f file _ _ start end_ (visit_copy_run v) Hat Hh (sf_split n) Hb Hsort).
  by apply List.Forall_forall.
Qed.

(** Opening a file indexes its whole frames, and drops the torn tail when asked to. *)
Lemma indexed_open_ok writable truncate : exists f,
  indexed_open (Some file) writable truncate codec = Ok (f, if truncate then frames_of fs else file) /\
  handle_current f fs /\ ix_writable f = writable.
Proof.
  unfold indexed_open. cbn [open_index_file mbind result_bind].
  pose proof (sf_scan 0) as Hs. rewrite take_0, drop_0 in Hs.
  change (length (frames_of [])) with 0%nat in Hs. rewrite Hs. cbn [mbind result_bind].
  rewrite (sorted_validate _ (index_sorted 0 fs sf_keys)). cbn [mbind result_bind].
  eexists. split; [do 2 f_equal|].
  - destruct truncate; [|done]. rewrite (sf_file _ _ _ _ Hsf), length_app. cbn [andb].
    destruct (Nat.ltb_spec (length (frames_of fs)) (length (frames_of fs) + length tail)).
    + by rewrite take_app_length.
    + assert (tail = []) as -> by (apply length_zero_iff_nil; lia). by rewrite app_nil_r.
  - split; [|done]. split; [split; [|done|done]|]; [exists (length fs); rewrite firstn_all|]; by split.
Qed.
End sorted_state.

Lemma log_file_sorted file fs rs tail : log_file file fs rs tail -> sorted_file file fs rs tail.
Proof. intros [? ? ? ? _]. split; try done. by eapply run_sorted. Qed.

Section state.
Context (file : bytes) (fs : list entry) (rs : list TxRecord) (tail : bytes) (Hlf : log_file file fs rs tail).

Lemma lf_run n : run_from 1 (map fi_t (index_of 0 (take n fs))).
Proof.
  destruct Hlf as [_ _ Hr Hn _]. rewrite index_of_ts, <- (lf_ts _ _ Hr) in *.
  rewrite <- (take_drop n fs), map_app in Hn. by apply run_from_app in Hn as [? _].
Qed.

Lemma lf_length : length fs = length rs.
Proof. destruct Hlf as [_ _ Hr _ _]. by apply Forall2_length in Hr. Qed.

Lemma lf_run_all : run_from 1 (map fi_t (index_of 0 fs)).
Proof. pose proof (lf_run (length fs)) as H. by rewrite firstn_all in H. Qed.

Lemma lf_bound_index : bounded 1 (index_of 0 fs).
Proof. destruct Hlf as [_ _ _ _ Hb]. unfold bounded in *. rewrite length_index_of, lf_length. done. Qed.

Lemma current_contiguous f : handle_current f fs ->
  validate_contiguous_prefix f (length (ix_frames f)) = Ok tt /\
  next_t (ix_frames f) = Ok (1 + Z.of_nat (length rs)).
Proof.
  intros [_ [Hfr _ Hg]]. unfold validate_contiguous_prefix. rewrite Hg, Hfr.
  rewrite (run_gap _ _ lf_run_all lf_bound_index). split; [done|].
  rewrite (run_next_t _ lf_run_all lf_bound_index). by rewrite length_index_of, lf_length.
Qed.

(** *** Ranges *)

Lemma key_filter_take {A} (k : A -> Z) l n start e : run_from 1 (map k l) ->
  e <= 1 + Z.of_nat (length (take n l)) ->
  List.filter (key_in k start (Some e)) (take n l) = List.filter (key_in k start (Some e)) l.
Proof.
  intros Hr He. rewrite <- (take_drop n l) at 2. rewrite List.filter_app.
  rewrite (filter_all_false _ (drop n l)); [by rewrite app_nil_r|].
  intros x Hx%(in_map k). rewrite <- (take_drop n l), map_app in Hr. apply run_from_app in Hr as [_ Hr].
  apply (run_from_In _ _ _ Hr) in Hx. rewrite length_map in Hx.
  unfold key_in, in_tx_range. cbn [is_none_or]. apply andb_false_iff. right. apply Z.ltb_ge. lia.
Qed.

(** What a handle is after [refreshed_for]: it has indexed every frame of the range. *)
Lemma refreshed_for_ok f end_ : handle_on f fs ->
  exists f' n, refreshed_for f file end_ = (f', Ok tt) /\ handle_on f' fs /\ handle_at f' (take n fs) /\
    ix_writable f' = ix_writable f /\
    (n = length fs \/ exists e, end_ = Some e /\ e <= 1 + Z.of_nat (length (take n fs))).
Proof.
  intros Ho. unfold refreshed_for.
  assert (Hrefresh : exists f' n,
    (match indexed_refresh f file with
     | Err e => (f, Err e)
     | Ok f => (f, validate_contiguous_prefix f (length (ix_frames f)))
     end) = (f', Ok tt) /\ handle_on f' fs /\ handle_at f' (take n fs) /\
    ix_writable f' = ix_writable f /\
    (n = length fs \/ exists e, end_ = Some e /\ e <= 1 + Z.of_nat (length (take n fs)))).
  { destruct (refresh_current _ _ _ _ (log_file_sorted _ _ _ _ Hlf) f Ho) as (f' & -> & Hcur & Hw). exists f', (length fs).
    rewrite (proj1 (current_contiguous f' Hcur)), firstn_all. destruct Hcur. split_and!; try done. by left. }
  destruct end_ as [e|]; cbn [range_is_indexed]; [|exact Hrefresh].
  destruct Ho as [[n Hat] Hc Hh]. assert (Ho : handle_on f fs) by (split; eauto).
  pose proof (ha_frames _ _ Hat) as Hfr. rewrite Hfr, run_next_t.
  - cbn [mbind result_bind]. destruct (Z.leb_spec e (1 + Z.of_nat (length (index_of 0 (take n fs))))) as [He|He].
    + exists f, n. rewrite length_index_of in He. eauto 10.
    + exact Hrefresh.
  - apply lf_run.
  - pose proof lf_bound_index as Hb. unfold bounded in *. rewrite length_index_of in *. rewrite length_take. lia.
Qed.

(** *** Appending *)

Definition pushed (f : IndexedFile) (r : TxRecord) (p : bytes) : IndexedFile :=
  mk_indexed (ix_writable f) (ix_poisoned f)
    (ix_frames f ++ [mk_frame_index (r_t r) (Z.of_nat (ix_durable_len f)) (Z.of_nat (frame_size false p))])
    (ix_durable_len f + frame_size false p) (ix_first_gap f) (ix_codec f).

Lemma current_gap f : handle_current f fs -> ix_first_gap f = None.
Proof. intros [_ [Hfr _ ->]]. rewrite Hfr. apply (run_gap 1); [apply lf_run_all|apply lf_bound_index]. Qed.

Lemma current_last f r : handle_current f fs -> r_t r = 1 + Z.of_nat (length rs) ->
  is_some_and (last (ix_frames f)) (fun previous => not_next (fi_t previous) (r_t r)) = false.
Proof.
  intros Hcur Hr. pose proof (proj2 (current_contiguous f Hcur)) as Hn. unfold next_t in Hn.
  destruct (last (ix_frames f)) as [x|]; [|done]. cbn [is_some_and]. unfold not_next.
  apply ok_or_ok in Hn. rewrite Hn, Hr. by rewrite bool_decide_true.
Qed.

(** Every append of the file log either refuses before it touches the file, or writes one
    whole frame with the outcome the operating system gives it. *)
Lemma file_log_append_cases rand io f r : handle_on f fs -> ix_writable f = true ->
  rand_ok rand -> record_wf r ->
  exists f1, handle_current f1 fs /\ ix_writable f1 = true /\
  ((exists e, file_log_append rand io f file r = (f1, file, Err e) /\
      (tail <> [] \/ r_t r <> 1 + Z.of_nat (length rs) \/ exists e', codec_encode rand codec r = Err e')) \/
   (tail = [] /\ r_t r = 1 + Z.of_nat (length rs) /\ exists p, codec_encode rand codec r = Ok p /\
      file_log_append rand io f file r =
        match io with
        | Written => (pushed f1 r p, file ++ frame_of false p, Ok tt)
        | WriteFailed n e => (poison f1, file ++ take n (frame_of false p), Err (LogError.Io e))
        | SyncFailed e => (poison f1, file ++ frame_of false p, Err (LogError.Io e))
        end)).
Proof.
  intros Ho Hw Hrand Hwf. destruct (refresh_current _ _ _ _ (log_file_sorted _ _ _ _ Hlf) f Ho) as (f1 & Href & Hcur & Hw1). rewrite Hw in Hw1.
  exists f1. split; [done|]. split; [done|]. unfold file_log_append. rewrite Href.
  destruct (current_contiguous f1 Hcur) as [-> ->]. cbn [mbind result_bind].
  destruct (Z.eqb_spec (1 + Z.of_nat (length rs)) (r_t r)) as [Ht|Ht]; cbn [ensure];
    [|left; eexists; split; [done|]; right; left; congruence].
  unfold indexed_append, ensure_healthy. destruct Hcur as [[_ Hc Hh] Hat]. rewrite Hh, Hw1, Hc.
  cbn [mbind result_bind ensure]. rewrite (ha_durable _ _ Hat).
  assert (Hlen : length file = (length (frames_of fs) + length tail)%nat)
    by (rewrite (lf_file _ _ _ _ Hlf), length_app; done).
  destruct (Nat.eqb_spec (length file) (length (frames_of fs))) as [E|E]; cbn [ensure mbind result_bind].
  2:{ left. eexists. split; [done|]. left. intros ->. simpl in Hlen. lia. }
  assert (tail = []) as Ht0 by (apply length_zero_iff_nil; lia).
  destruct (codec_encode rand codec r) as [p|e'] eqn:Hp; cbn [mbind result_bind];
    [|left; eexists; split; [done|]; right; right; eauto].
  right. split; [done|]. split; [done|]. exists p. split; [done|].
  destruct (encode_record_codec _ _ _ _ Hcodec Hrand Hwf Hp) as (_ & _ & Hl).
  rewrite append_framed_eq by done. cbn [app]. destruct io; [|done|done].
  assert (Hcur : handle_current f1 fs) by (split; [split; eauto|]; try done; exists (length fs); by rewrite firstn_all).
  rewrite (current_gap f1 Hcur). cbn [is_none is_some negb andb].
  rewrite (current_last f1 r Hcur) by done. unfold pushed.
  by rewrite length_frame_of, Hw1, Hh, Hc, (ha_durable _ _ Hat), (current_gap f1 Hcur).
Qed.
End state.

(** The file and the handle after a whole frame. *)
Lemma log_file_push file fs rs rand r p : log_file file fs rs [] -> rand_ok rand -> record_wf r ->
  r_t r = 1 + Z.of_nat (length rs) -> codec_encode rand codec r = Ok p ->
  log_file (file ++ frame_of false p) (fs ++ [(r_t r, (false, p))]) (rs ++ [r]) [].
Proof.
  intros Hlf Hrand Hwf Ht Hp. destruct (encode_record_codec _ _ _ _ Hcodec Hrand Hwf Hp) as (Hd & _ & Hl).
  destruct Hlf as [-> _ Hr Hn Hb]. split.
  - rewrite frames_of_app, frames_of_cons. cbn [fst snd]. by rewrite !app_nil_r.
  - apply torn_nil.
  - apply Forall2_app; [done|]. constructor; [|constructor]. split_and!; [done|done|]. by apply Hd, reads_refl.
  - rewrite map_app. apply run_from_app. rewrite length_map. split; [done|]. by split.
  - unfold bounded in *. rewrite length_app. cbn [length]. destruct Hwf as [Hb' _ _ _]. lia.
Qed.

Lemma handle_push file fs rs f rand r p : log_file file fs rs [] -> handle_current f fs ->
  rand_ok rand -> record_wf r -> r_t r = 1 + Z.of_nat (length rs) -> codec_encode rand codec r = Ok p ->
  handle_current (pushed f r p) (fs ++ [(r_t r, (false, p))]).
Proof.
  intros Hlf Hcur Hrand Hwf Ht Hp.
  pose proof (log_file_push _ _ _ _ _ _ Hlf Hrand Hwf Ht Hp) as Hlf'.
  assert (Hat' : handle_at (pushed f r p) (fs ++ [(r_t r, (false, p))])).
  { pose proof (current_gap _ _ _ _ Hlf f Hcur) as Hg. destruct Hcur as [_ [Hfr Hd _]].
    split; cbn [pushed ix_frames ix_durable_len ix_first_gap].
    - rewrite Hfr, Hd, index_of_app. done.
    - rewrite Hd, frames_of_app, length_app, frames_of_cons, length_app, length_frame_of. cbn. lia.
    - rewrite Hg, Hfr, Hd. symmetry.
      pose proof (index_of_app 0 fs [(r_t r, (false, p))]) as E. cbn [Nat.add index_of] in E. rewrite <- E.
      apply (run_gap 1); [apply (lf_run_all _ _ _ _ Hlf')|apply (lf_bound_index _ _ _ _ Hlf')]. }
  destruct Hcur as [[_ Hc Hh] _]. split; [|done]. split; [|done|done].
  exists (length (fs ++ [(r_t r, (false, p))])). by rewrite firstn_all.
Qed.

(** A part of a frame, or all of it, after a clean file. *)
Lemma log_file_torn file fs rs rand r p n : log_file file fs rs [] -> rand_ok rand -> record_wf r ->
  r_t r = 1 + Z.of_nat (length rs) -> codec_encode rand codec r = Ok p ->
  log_file (file ++ take n (frame_of false p)) fs rs (take n (frame_of false p)) \/
  log_file (file ++ take n (frame_of false p)) (fs ++ [(r_t r, (false, p))]) (rs ++ [r]) [].
Proof.
  intros Hlf Hrand Hwf Ht Hp. destruct (decide (length (frame_of false p) <= n)%nat) as [Hn|Hn].
  - right. rewrite take_ge by done. by eapply log_file_push.
  - left. destruct (encode_record_codec _ _ _ _ Hcodec Hrand Hwf Hp) as (_ & _ & Hl).
    destruct Hlf as [-> _ Hr Hnum Hb]. split; [by rewrite app_nil_r| |done|done|done].
    exists false, p, (drop n (frame_of false p)). split; [done|]. split; [|by rewrite take_drop].
    intros E%(f_equal length). rewrite length_drop in E. cbn [length] in E. lia.
Qed.

(** Opening a log: the torn tail goes, every whole frame is indexed. *)
Lemma file_log_open_ok file fs rs tail cipher : codec = codec_new cipher 0 -> log_file file fs rs tail ->
  exists f, file_log_open (Some file) cipher = Ok (f, frames_of fs) /\
    handle_current f fs /\ ix_writable f = true /\ log_file (frames_of fs) fs rs [].
Proof.
  intros Hc Hlf. unfold file_log_open. rewrite <- Hc.
  destruct (indexed_open_ok _ _ _ _ (log_file_sorted _ _ _ _ Hlf) true true) as (f & -> & Hcur & Hw).
  cbn [mbind result_bind]. rewrite (proj1 (current_contiguous _ _ _ _ Hlf f Hcur)). exists f.
  split_and!; [done|done|done|]. destruct Hlf as [_ _ Hr Hn Hb]. split; [by rewrite app_nil_r|apply torn_nil|done|done|done].
Qed.
End log.
