(* ===== verification/FileLogTheorems.v ===== *)
(** * What the file log guarantees

    The file log refines the in-memory one, and what it acknowledged survives other
    handles, failed writes, crashes and reopening. *)

From stdpp Require Import base list strings.
From Stdlib Require Import ZArith Lia Sorted.
From S2P Require Import Prelude OrdMap Machine Values Datoms Crypt LogRecord FileLog FileLogFacts.
Local Open Scope Z_scope.

(** ** The file log refines the in-memory log *)

Section refinement.
Context `{CL : CryptoLaws} `{K : Crc32c} `{KL : !Crc32cLaws K}.

Definition file_log_rel (codec : RecordCodec) (f : IndexedFile) (file : bytes) (rs : list TxRecord) : Prop :=
  exists fs tail, log_file codec file fs rs tail /\ handle_on codec f fs /\ ix_writable f = true.

Lemma memory_append_next rs r : run_from 1 (map r_t rs) ->
  memory_append rs r = if r_t r =? 1 + Z.of_nat (length rs) then Ok (rs ++ [r]) else Err LogError.Corrupt.
Proof.
  intros Hn. unfold memory_append.
  assert (match last rs with None => 1 | Some r => r_t r + 1 end = 1 + Z.of_nat (length rs)) as ->.
  { destruct (last rs) as [x|] eqn:E.
    - apply last_Some in E as [l ->]. rewrite map_app in Hn. apply run_from_last in Hn.
      rewrite length_map in Hn. rewrite length_app. cbn [length]. lia.
    - apply last_None in E as ->. done. }
  rewrite Z.eqb_sym. by destruct (r_t r =? 1 + Z.of_nat (length rs)).
Qed.

Lemma file_log_range codec f file rs start end_ : codec_ok codec -> file_log_rel codec f file rs -> fits file ->
  exists f', file_log_tx_range f file start end_ = (f', Ok (memory_tx_range rs start end_)) /\
    file_log_rel codec f' file rs.
Proof.
  intros Hc (fs & tail & Hlf & Ho & Hw) Hb. unfold file_log_tx_range.
  destruct (range_empty start end_) eqn:Hr.
  { exists f. rewrite memory_range_empty by done. split; [done|]. exists fs, tail. done. }
  destruct (refreshed_for_ok codec Hc file fs rs tail Hlf f end_ Ho) as (f' & n & -> & Ho' & Hat & Hw' & Hn).
  cbn [mbind result_bind]. exists f'. split; [|exists fs, tail; split_and!; [done|done|congruence]].
  rewrite (indexed_range_prefix codec file fs rs tail (log_file_sorted _ _ _ _ _ Hlf) f' n) by done. do 2 f_equal.
  pose proof (lf_length codec file fs rs tail Hlf) as Hl.
  destruct Hn as [->|(e & -> & He)]; [by rewrite Hl, firstn_all|].
  apply (key_filter_take r_t); [apply (lf_numbered _ _ _ _ _ Hlf)|].
  rewrite length_take. rewrite length_take in He. lia.
Qed.

(** Whether a file has a torn tail does not depend on how it is read. *)
Lemma clean_tail codec file fs rs tail gs qs : codec_ok codec ->
  log_file codec file fs rs tail -> log_file codec file gs qs [] -> tail = [].
Proof.
  intros Hc Hlf Hg. pose proof (sf_scan codec Hc _ _ _ _ (log_file_sorted _ _ _ _ _ Hlf) 0) as H1.
  pose proof (sf_scan codec Hc _ _ _ _ (log_file_sorted _ _ _ _ _ Hg) 0) as H2. rewrite !take_0, !drop_0 in *.
  rewrite H1 in H2. injection H2 as _ Hl. apply length_zero_iff_nil.
  pose proof (lf_file _ _ _ _ _ Hlf) as E. rewrite (lf_file _ _ _ _ _ Hg) in E.
  apply (f_equal length) in E. rewrite !length_app in E. cbn [length] in E. lia.
Qed.

(** C12. A handle on a log file behaves as the in-memory log. An append that is acknowledged
    is one the in-memory log accepts, and the file then holds one record more; an append
    that is refused leaves the file as it was; an append the in-memory log accepts is
    acknowledged when the file has no torn tail and the record can be sealed. Every range,
    read in chunks through an index that may lag behind other handles' appends, is the
    in-memory log's. *)
Theorem file_log_refines cipher f file rs : let codec := codec_new cipher 0 in
  codec_ok codec -> file_log_rel codec f file rs ->
  (forall rand r, rand_ok rand -> record_wf r ->
     let '(f', file', res) := file_log_append rand Written f file r in
     match res with
     | Ok _ => memory_append rs r = Ok (rs ++ [r]) /\ file_log_rel codec f' file' (rs ++ [r])
     | Err _ => file' = file /\ file_log_rel codec f' file rs /\
         ((exists fs, log_file codec file fs rs []) -> is_ok (codec_encode rand codec r) = true ->
          memory_append rs r = Err LogError.Corrupt)
     end) /\
  (forall start end_, fits file ->
     exists f', file_log_tx_range f file start end_ = (f', Ok (memory_tx_range rs start end_)) /\
       file_log_rel codec f' file rs).
Proof.
  intros codec Hc Hrel. split; [|intros; by apply file_log_range].
  intros rand r Hrand Hwf. destruct Hrel as (fs & tail & Hlf & Ho & Hw).
  destruct (file_log_append_cases codec Hc file fs rs tail Hlf rand Written f r Ho Hw Hrand Hwf)
    as (f1 & Hcur & Hw1 & [(e & -> & Hwhy)|(-> & Ht & p & Hp & ->)]).
  - split; [done|]. split; [exists fs, tail; destruct Hcur; done|]. intros (gs & Hg) Hok.
    rewrite memory_append_next by apply (lf_numbered _ _ _ _ _ Hlf).
    destruct Hwhy as [Htail|[Hne|[e' He]]]; [|by rewrite (proj2 (Z.eqb_neq _ _))|by rewrite He in Hok].
    by destruct Htail; eapply clean_tail.
  - rewrite memory_append_next by apply (lf_numbered _ _ _ _ _ Hlf). rewrite (proj2 (Z.eqb_eq _ _)) by done.
    split; [done|]. exists (fs ++ [(r_t r, (false, p))]), [].
    split; [by eapply log_file_push|]. split; [|done]. by eapply handle_push.
Qed.
End refinement.

(** ** Several handles, failed writes and crashes *)

Section crashes.
Context `{CL : CryptoLaws} `{K : Crc32c} `{KL : !Crc32cLaws K}.
Context (cipher : option LogCipher).
Notation codec := (codec_new cipher 0).

(** A file, how much of it is known to be on the disk, the handles open on it, and the
    records whose append was acknowledged. *)
Record world := mk_world {
  w_file : bytes;
  w_synced : nat;
  w_handles : list IndexedFile;
  w_acked : list TxRecord;
}.

(** Handles open, append and read in any order; an append may fail at any byte; a crash
    ends every handle and keeps the synced bytes and any prefix of the others. *)
Inductive log_step : world -> world -> Prop :=
| step_open w f file' :
    file_log_open (Some (w_file w)) cipher = Ok (f, file') ->
    log_step w (mk_world file'
      (if (length file' <? length (w_file w))%nat then length file' else w_synced w)
      (w_handles w ++ [f]) (w_acked w))
| step_append w i f rand io r f' file' res :
    w_handles w !! i = Some f -> rand_ok rand -> record_wf r ->
    file_log_append rand io f (w_file w) r = (f', file', res) ->
    log_step w (mk_world file'
      (if is_ok res then length file' else w_synced w)
      (<[i := f']> (w_handles w))
      (if is_ok res then w_acked w ++ [r] else w_acked w))
| step_read w i f start end_ f' res :
    w_handles w !! i = Some f -> file_log_tx_range f (w_file w) start end_ = (f', res) ->
    log_step w (mk_world (w_file w) (w_synced w) (<[i := f']> (w_handles w)) (w_acked w))
| step_crash w n :
    (w_synced w <= n)%nat ->
    log_step w (mk_world (take n (w_file w)) (w_synced w) [] (w_acked w)).

Inductive log_steps : world -> world -> Prop :=
| steps_refl w : log_steps w w
| steps_next w w' w'' : log_steps w w' -> log_step w' w'' -> log_steps w w''.

Definition world0 : world := mk_world [] 0 [] [].

(** A handle is dead or usable. *)
Definition handle_fit (fs : list entry) (f : IndexedFile) : Prop :=
  ix_writable f = true /\ (ix_poisoned f = true \/ handle_on codec f fs).

Record world_ok (w : world) (fs : list entry) (rs : list TxRecord) (tail : bytes) : Prop := {
  wo_file : log_file codec (w_file w) fs rs tail;
  wo_handles : Forall (handle_fit fs) (w_handles w);
  wo_synced : (w_synced w <= length (w_file w))%nat;
  wo_acked : exists k, (length (frames_of (take k fs)) <= w_synced w)%nat /\
    forall r, In r (w_acked w) -> In r (take k rs);
}.

Lemma handle_on_more f fs gs : handle_on codec f fs -> handle_on codec f (fs ++ gs).
Proof.
  intros [[n Hat] Hc Hh]. split; [|done|done]. exists (min n (length fs)).
  rewrite take_app_le by lia. assert (take (min n (length fs)) fs = take n fs) as ->; [|done].
  destruct (decide (n <= length fs)%nat); [by rewrite Nat.min_l|]. by rewrite Nat.min_r, firstn_all, take_ge by lia.
Qed.

Lemma handle_fit_more fs gs l : Forall (handle_fit fs) l -> Forall (handle_fit (fs ++ gs)) l.
Proof.
  apply List.Forall_impl. intros f [Hw [Hp|Ho]]; split; auto using handle_on_more.
Qed.

Lemma take_take_more {A} k (l : list A) m : take k l = take (min k (length l)) (l ++ m).
Proof.
  rewrite take_app_le by lia. destruct (decide (k <= length l)%nat); [by rewrite Nat.min_l|].
  by rewrite Nat.min_r, firstn_all, take_ge by lia.
Qed.

Lemma take_min_eq {A} (l : list A) m k : min m (length l) = min k (length l) -> take m l = take k l.
Proof.
  intros H. rewrite (take_take_more m l []), (take_take_more k l []), H. done.
Qed.

(** A poisoned handle does nothing. *)
Lemma poisoned_append rand io f file r : ix_poisoned f = true ->
  exists e, file_log_append rand io f file r = (f, file, Err e).
Proof.
  intros Hp. unfold file_log_append, indexed_refresh, ensure_healthy. rewrite Hp.
  cbn [mbind result_bind]. eauto.
Qed.

Lemma poisoned_read f file start end_ : ix_poisoned f = true ->
  exists res, file_log_tx_range f file start end_ = (f, res) /\ (res = Ok [] \/ exists e, res = Err e).
Proof.
  intros Hp. unfold file_log_tx_range, refreshed_for, indexed_refresh, indexed_tx_range, read_chunks, ensure_healthy.
  rewrite Hp. destruct (range_empty start end_); [eexists; split; [done|by left]|]. cbn [mbind result_bind].
  destruct (range_is_indexed _ _) as [[]|]; cbn [mbind result_bind]; rewrite ?Hp; eexists; (split; [reflexivity|]);
    right; eexists; reflexivity.
Qed.

(** Any prefix of a log file is a log file, with the frames that fit. *)
Lemma torn_take tail n : torn tail -> torn (take n tail).
Proof.
  intros (legacy & p & rest & Hp & Hr & E). exists legacy, p, (drop n tail ++ rest).
  split; [done|]. split; [by destruct (drop n tail)|]. by rewrite app_assoc, take_drop.
Qed.

Lemma frames_take fs n tail : Forall (fun e : entry => Z.of_nat (length e.2.2) < 2 ^ 63) fs -> torn tail ->
  exists m tail', take n (frames_of fs ++ tail) = frames_of (take m fs) ++ tail' /\ torn tail' /\
    forall k, (length (frames_of (take k fs)) <= n)%nat -> (k <= m)%nat \/ take k fs = take m fs.
Proof.
  intros Hf Ht. revert n. induction Hf as [|[t [legacy p]] fs Hp Hf IH]; intros n.
  - exists 0%nat, (take n tail). split; [done|]. split; [by apply torn_take|]. intros k _. right. by rewrite !take_nil.
  - rewrite frames_of_cons, <- app_assoc. cbn [fst snd] in *.
    destruct (decide (length (frame_of legacy p) <= n)%nat) as [Hn|Hn].
    + destruct (IH (n - length (frame_of legacy p))%nat) as (m & tail' & E & Ht' & Hk).
      exists (S m), tail'. split; [|split; [done|]].
      * rewrite take_app_ge by done. rewrite E. cbn [take]. by rewrite frames_of_cons, app_assoc.
      * intros [|k] H; [left; lia|]. cbn [take] in H. rewrite frames_of_cons, length_app in H. cbn [fst snd] in H.
        destruct (Hk k) as [?|E']; [lia|left; lia|]. right. cbn [take]. by rewrite E'.
    + exists 0%nat, (take n (frame_of legacy p)). split; [|split].
      * rewrite take_app_le by lia. done.
      * exists legacy, p, (drop n (frame_of legacy p)). split; [done|]. split; [|by rewrite take_drop].
        intros E%(f_equal length). rewrite length_drop in E. cbn [length] in E. lia.
      * intros [|k] H; [left; lia|]. cbn [take] in H. rewrite frames_of_cons, length_app in H. cbn [fst snd] in H. lia.
Qed.

Lemma log_file_take file fs rs tail n : log_file codec file fs rs tail ->
  exists m tail', log_file codec (take n file) (take m fs) (take m rs) tail' /\
    forall k, (length (frames_of (take k fs)) <= n)%nat -> (k <= m)%nat \/ take k fs = take m fs.
Proof.
  intros [-> Ht Hr Hn Hb].
  assert (Hsz : Forall (fun e : entry => Z.of_nat (length e.2.2) < 2 ^ 63) fs).
  { clear -Hr. induction Hr as [|e r fs rs (_ & ? & _) _ IH]; constructor; done. }
  destruct (frames_take fs n tail Hsz Ht) as (m & tail' & E & Ht' & Hk). exists m, tail'. split; [|done].
  split; [done|done|by apply Forall2_take| |].
  - rewrite <- (take_drop m rs), map_app in Hn. by apply run_from_app in Hn as [? _].
  - unfold bounded in *. rewrite length_take. lia.
Qed.

Hypothesis Hcodec : codec_ok codec.

Lemma world0_ok : world_ok world0 [] [] [].
Proof.
  split; [|constructor|done|exists 0%nat; done]. split; [done|apply torn_nil|constructor|done|unfold bounded; simpl; lia].
Qed.

Lemma acked_more w fs gs (rs qs : list TxRecord) : length fs = length rs ->
  (exists k, (length (frames_of (take k fs)) <= w_synced w)%nat /\ forall r, In r (w_acked w) -> In r (take k rs)) ->
  exists k, (length (frames_of (take k (fs ++ gs))) <= w_synced w)%nat /\
    forall r, In r (w_acked w) -> In r (take k (rs ++ qs)).
Proof.
  intros Hl (k & Hk & Ha). exists (min k (length fs)). rewrite <- (take_take_more k fs gs).
  rewrite Hl, <- (take_take_more k rs qs). done.
Qed.

Lemma append_ok w fs rs tail i f rand io r f' file' res :
  world_ok w fs rs tail -> w_handles w !! i = Some f -> rand_ok rand -> record_wf r ->
  file_log_append rand io f (w_file w) r = (f', file', res) ->
  exists fs' rs' tail', world_ok (mk_world file' (if is_ok res then length file' else w_synced w)
    (<[i := f']> (w_handles w)) (if is_ok res then w_acked w ++ [r] else w_acked w)) fs' rs' tail'.
Proof.
  intros [Hlf Hh Hs Ha] Hi Hrand Hwf E.
  destruct (Forall_lookup_1 _ _ _ _ Hh Hi) as [Hw [Hp|Ho]].
  { destruct (poisoned_append rand io f (w_file w) r Hp) as [e E']. rewrite E' in E. injection E as <- <- <-.
    exists fs, rs, tail. cbn [is_ok]. split; [done| |done|done]. apply Forall_insert; [done|]. split; auto. }
  destruct (file_log_append_cases codec Hcodec _ _ _ _ Hlf rand io f r Ho Hw Hrand Hwf)
    as (f1 & Hcur & Hw1 & [(e & E' & _)|(-> & Ht & p & Hp & E')]); rewrite E' in E.
  { injection E as <- <- <-. exists fs, rs, tail. cbn [is_ok]. split; [done| |done|done].
    apply Forall_insert; [done|]. split; [done|]. right. apply Hcur. }
  assert (Hlen := lf_length _ _ _ _ _ Hlf).
  assert (Hdead : forall gs, Forall (handle_fit (fs ++ gs)) (<[i := poison f1]> (w_handles w))).
  { intros gs. apply Forall_insert; [by apply handle_fit_more|]. split; [done|by left]. }
  assert (Hfail : forall n, file' = w_file w ++ take n (frame_of false p) -> f' = poison f1 ->
    exists fs' rs' tail', world_ok (mk_world file' (w_synced w) (<[i := f']> (w_handles w)) (w_acked w)) fs' rs' tail').
  { intros n -> ->.
    destruct (log_file_torn codec Hcodec _ _ _ _ _ _ n Hlf Hrand Hwf Ht Hp) as [H|H].
    - exists fs, rs, (take n (frame_of false p)). split; cbn [w_file w_synced w_handles w_acked]; [done| | |done].
      + specialize (Hdead []). by rewrite app_nil_r in Hdead.
      + rewrite length_app. lia.
    - eexists _, _, []. split; cbn [w_file w_synced w_handles w_acked]; [exact H|apply Hdead| |].
      + rewrite length_app. lia.
      + by apply (acked_more w). }
  destruct io as [|n e|e].
  - assert (f' = pushed f1 r p) as -> by congruence.
    assert (file' = w_file w ++ frame_of false p) as -> by congruence.
    assert (res = Ok tt) as -> by congruence. cbn [is_ok]. eexists _, _, []. split; cbn [w_file w_synced w_handles w_acked].
    + exact (log_file_push codec Hcodec _ _ _ _ _ _ Hlf Hrand Hwf Ht Hp).
    + apply Forall_insert; [by apply handle_fit_more|]. split; [done|]. right.
      apply (handle_push codec Hcodec _ _ _ _ _ _ _ Hlf Hcur Hrand Hwf Ht Hp).
    + done.
    + pose proof (log_file_push codec Hcodec _ _ _ _ _ _ Hlf Hrand Hwf Ht Hp) as H.
      exists (length (fs ++ [(r_t r, (false, p))])). rewrite firstn_all. split.
      * rewrite (lf_file _ _ _ _ _ H), length_app. lia.
      * rewrite take_ge by (rewrite !length_app, Hlen; done).
        destruct Ha as (k & _ & Ha). intros q [Hq|Hq]%in_app_iff; apply in_app_iff; [left|by right].
        apply Ha in Hq. rewrite <- (take_drop k rs). apply in_app_iff. by left.
  - assert (res = Err (LogError.Io e)) as -> by congruence. apply (Hfail n); congruence.
  - assert (res = Err (LogError.Io e)) as -> by congruence.
    apply (Hfail (length (frame_of false p))); rewrite ?firstn_all; congruence.
Qed.

Lemma log_step_ok w w' fs rs tail : world_ok w fs rs tail -> log_step w w' ->
  exists fs' rs' tail', world_ok w' fs' rs' tail'.
Proof.
  intros Hw Hs. destruct Hs as [w f file' E|w i f rand io r f' file' res Hi Hrand Hwf E|w i f start end_ f' res Hi E|w n Hn].
  - destruct Hw as [Hlf Hh Hsy Ha].
    destruct (file_log_open_ok codec Hcodec _ _ _ _ cipher eq_refl Hlf) as (f0 & E' & Hcur & Hwr & Hlf').
    rewrite E' in E. injection E as <- <-. exists fs, rs, []. split; cbn [w_file w_synced w_handles w_acked]; [done| | |].
    + apply Forall_app. split; [done|]. constructor; [|constructor]. split; [done|]. right. apply Hcur.
    + pose proof (lf_file _ _ _ _ _ Hlf) as E. apply (f_equal length) in E. rewrite length_app in E.
      destruct (Nat.ltb_spec (length (frames_of fs)) (length (w_file w))); lia.
    + destruct Ha as (k & Hk & Ha). exists k. split; [|done].
      destruct (_ <? _)%nat; [|done]. rewrite <- (take_drop k fs) at 2. rewrite frames_of_app, length_app. lia.
  - by eapply append_ok.
  - destruct Hw as [Hlf Hh Hsy Ha]. exists fs, rs, tail. split; [done| |done|done].
    cbn [w_handles]. apply Forall_insert; [done|].
    destruct (Forall_lookup_1 _ _ _ _ Hh Hi) as [Hw [Hp|Ho]].
    + destruct (poisoned_read f (w_file w) start end_ Hp) as (res' & E' & _). rewrite E' in E.
      injection E as <- _. split; auto.
    + unfold file_log_tx_range in E. destruct (range_empty start end_); [injection E as <- _; split; auto|].
      destruct (refreshed_for_ok codec Hcodec _ _ _ _ Hlf f end_ Ho) as (f1 & n & Er & Ho' & _ & Hw' & _).
      rewrite Er in E. injection E as <- _. split; [congruence|auto].
  - destruct Hw as [Hlf Hh Hsy (k & Hk & Ha)].
    destruct (log_file_take _ _ _ _ n Hlf) as (m & tail' & Hlf' & Hm).
    exists (take m fs), (take m rs), tail'. split; cbn [w_file w_synced w_handles w_acked]; [done|constructor| |].
    + rewrite length_take. lia.
    + destruct (Hm k) as [Hkm|Ekm]; [lia|exists k|exists m]; rewrite !take_take.
      * by rewrite Nat.min_l by lia.
      * rewrite Nat.min_id, <- Ekm. split; [done|]. intros r Hr. apply Ha in Hr.
        rewrite (take_min_eq rs m k); [done|]. rewrite <- (lf_length _ _ _ _ _ Hlf), <- !length_take. congruence.
Qed.

Lemma log_steps_ok w : log_steps world0 w -> exists fs rs tail, world_ok w fs rs tail.
Proof.
  intros H. remember world0 as w0 eqn:E0. induction H as [w|w w' w'' _ IH Hs]; subst.
  - exists [], [], []. apply world0_ok.
  - destruct (IH eq_refl) as (fs & rs & tail & Hw). by eapply log_step_ok.
Qed.

(** C9. Whatever handles open, append and read in whatever order, whichever appends fail at
    whichever byte and whenever the machine crashes: the log opens again, replays records
    numbered from one, and every acknowledged record is among them. The recovered log has
    no torn tail and accepts the next record. *)
Theorem acknowledged_survive w : log_steps world0 w -> fits (w_file w) ->
  exists f file' f' rs, file_log_open (Some (w_file w)) cipher = Ok (f, file') /\
    file_log_tx_range f file' 0 None = (f', Ok rs) /\
    run_from 1 (map r_t rs) /\ (forall r, In r (w_acked w) -> In r rs) /\
    forall rand r, rand_ok rand -> record_wf r -> r_t r = 1 + Z.of_nat (length rs) ->
      is_ok (codec_encode rand codec r) = true ->
      exists f'' file'', file_log_append rand Written f file' r = (f'', file'', Ok tt).
Proof.
  intros Hs Hb. destruct (log_steps_ok w Hs) as (fs & rs & tail & [Hlf _ _ (k & _ & Ha)]).
  destruct (file_log_open_ok codec Hcodec _ _ _ _ cipher eq_refl Hlf) as (f & Ho & Hcur & Hw & Hlf').
  assert (fits (frames_of fs)) as Hb'.
  { unfold fits in *. rewrite (lf_file _ _ _ _ _ Hlf), length_app in Hb. lia. }
  assert (file_log_rel codec f (frames_of fs) rs) as Hrel by (exists fs, []; destruct Hcur; done).
  destruct (file_log_range codec f (frames_of fs) rs 0 None Hcodec Hrel Hb') as (f' & Hr & _).
  exists f, (frames_of fs), f', rs. split; [done|]. split; [|split; [apply (lf_numbered _ _ _ _ _ Hlf)|split]].
  - rewrite Hr. do 2 f_equal. apply filter_all_true. intros r Hin%(in_map r_t).
    apply (run_from_In _ _ _ (lf_numbered _ _ _ _ _ Hlf)) in Hin. unfold in_tx_range. cbn [is_none_or].
    by rewrite (proj2 (Z.leb_le _ _)) by lia.
  - intros r Hin. apply Ha in Hin. rewrite <- (take_drop k rs). apply in_app_iff. by left.
  - intros rand r Hrand Hwf Ht Hok.
    destruct (file_log_append_cases codec Hcodec _ _ _ _ Hlf' rand Written f r (proj1 Hcur) Hw Hrand Hwf)
      as (f1 & _ & _ & [(e & _ & [?|[?|[e' He]]])|(_ & _ & p & _ & E)]); [done|done|by rewrite He in Hok|eauto].
Qed.
End crashes.

(** ** A failed write *)

Section failure.
Context `{CL : CryptoLaws} `{K : Crc32c} `{KL : !Crc32cLaws K}.

(** C25. A write that fails after any number of bytes reports the error and leaves its handle
    poisoned: no later append through it is acknowledged or changes the file, and no later
    read through it answers. Reopening the file recovers the records before the failed one,
    with the failed one only when all of its frame had reached the file. *)
Theorem failed_append cipher f file fs rs rand r p n e : let codec := codec_new cipher 0 in
  codec_ok codec -> log_file codec file fs rs [] -> handle_on codec f fs -> ix_writable f = true ->
  rand_ok rand -> record_wf r -> r_t r = 1 + Z.of_nat (length rs) -> codec_encode rand codec r = Ok p ->
  exists f' file', file_log_append rand (WriteFailed n e) f file r = (f', file', Err (LogError.Io e)) /\
    (forall rand' io r', exists e', file_log_append rand' io f' file' r' = (f', file', Err e')) /\
    (forall start, exists e', file_log_tx_range f' file' start None = (f', Err e')) /\
    exists g file'', file_log_open (Some file') cipher = Ok (g, file'') /\
      file_log_rel codec g file'' (if (length (frame_of false p) <=? n)%nat then rs ++ [r] else rs).
Proof.
  intros codec Hc Hlf Ho Hw Hrand Hwf Ht Hp.
  destruct (file_log_append_cases codec Hc _ _ _ _ Hlf rand (WriteFailed n e) f r Ho Hw Hrand Hwf)
    as (f1 & Hcur & Hw1 & [(e' & _ & [?|[?|[e'' He]]])|(_ & _ & p' & Hp' & E)]); [done|done|congruence|].
  assert (p' = p) as -> by congruence. exists (poison f1), (file ++ take n (frame_of false p)).
  split; [done|]. split; [intros; by apply poisoned_append|]. split.
  { intros start. destruct (poisoned_read (poison f1) (file ++ take n (frame_of false p)) start None eq_refl)
      as (res & Er & [->|[e' ->]]); [|eauto].
    exfalso. unfold file_log_tx_range in Er. cbn [range_empty is_some_and] in Er.
    unfold refreshed_for in Er. cbn [range_is_indexed] in Er. unfold indexed_refresh, ensure_healthy in Er. done. }
  assert (Hopen : forall gs qs tail, log_file codec (file ++ take n (frame_of false p)) gs qs tail ->
    exists g file'', file_log_open (Some (file ++ take n (frame_of false p))) cipher = Ok (g, file'') /\
      file_log_rel codec g file'' qs).
  { intros gs qs tail H. destruct (file_log_open_ok codec Hc _ _ _ _ cipher eq_refl H) as (g & Eg & Hg & Hgw & Hg').
    exists g, (frames_of gs). split; [done|]. exists gs, []. destruct Hg. done. }
  destruct (Nat.leb_spec (length (frame_of false p)) n) as [Hn|Hn].
  - rewrite (take_ge (frame_of false p)) in * by done. eapply Hopen. by eapply log_file_push.
  - destruct (log_file_torn codec Hc _ _ _ _ _ _ n Hlf Hrand Hwf Ht Hp) as [H|H]; [by eapply Hopen|].
    exfalso. pose proof (f_equal length (lf_file _ _ _ _ _ H)) as HL.
    rewrite (lf_file _ _ _ _ _ Hlf), !length_app, frames_of_app, length_app, frames_of_cons, length_app in HL.
    cbn [fst snd length frames_of map frames_bytes flat_map] in HL. rewrite length_take in HL. lia.
Qed.
End failure.

(** ** Samples *)

#[local] Existing Instance toy_crypto.
#[local] Existing Instance toy_crypto_laws.
#[local] Existing Instance castagnoli.
#[local] Existing Instance castagnoli_laws.

Definition sample_codec : RecordCodec := codec_new (Some sample_cipher) 0.

Lemma sample_codec_ok : codec_ok sample_codec.
Proof. apply sample_cipher_ok. Qed.

Definition sample_payload (t : Z) : bytes :=
  match codec_encode (sample_rand t) sample_codec (sample_record t) with Ok p => p | Err _ => [] end.
Definition sample_entry (t : Z) : entry := (t, (false, sample_payload t)).
Definition sample_file : bytes := frames_of [sample_entry 1; sample_entry 2].

Lemma sample_decodes t : In t [1; 2; 3] -> decodes sample_codec (sample_entry t) (sample_record t).
Proof.
  intros H. repeat destruct H as [<-|H]; [..|done]; (split_and!; vm_compute; reflexivity).
Qed.

Lemma sample_log_file : log_file sample_codec sample_file
  [sample_entry 1; sample_entry 2] [sample_record 1; sample_record 2] [].
Proof.
  split; [by rewrite app_nil_r|apply torn_nil| | |unfold bounded; cbn; lia].
  - repeat constructor; apply sample_decodes; simpl; auto.
  - repeat split.
Qed.

(** A handle opened on the first record, before the second was appended by another. *)
Definition sample_handle : IndexedFile :=
  match file_log_open (Some (frames_of [sample_entry 1])) (Some sample_cipher) with
  | Ok (f, _) => f
  | Err _ => mk_indexed true true [] 0 None sample_codec
  end.

Lemma sample_handle_on : handle_on sample_codec sample_handle [sample_entry 1; sample_entry 2].
Proof. split; [|vm_compute; reflexivity..]. exists 1%nat. split; vm_compute; reflexivity. Qed.

Lemma sample_rel : file_log_rel sample_codec sample_handle sample_file [sample_record 1; sample_record 2].
Proof.
  exists [sample_entry 1; sample_entry 2], []. split; [apply sample_log_file|].
  split; [apply sample_handle_on|vm_compute; reflexivity].
Qed.

Lemma file_log_refines_witness :
  let '(_, _, res) := file_log_append (sample_rand 3) Written sample_handle sample_file (sample_record 3) in
  match res with
  | Ok _ => memory_append [sample_record 1; sample_record 2] (sample_record 3) =
      Ok [sample_record 1; sample_record 2; sample_record 3]
  | Err _ => False
  end /\
  exists f', file_log_tx_range sample_handle sample_file 2 None = (f', Ok [sample_record 2]).
Proof.
  pose proof (file_log_refines (Some sample_cipher) sample_handle sample_file [sample_record 1; sample_record 2]
    sample_codec_ok sample_rel) as [Ha Hr].
  assert (fits sample_file) as Hb by (vm_compute; reflexivity).
  specialize (Ha (sample_rand 3) (sample_record 3) (sample_rand_ok 3) (sample_record_wf 3 ltac:(simpl; auto))).
  specialize (Hr 2 None Hb) as (f' & Hr & _).
  assert ((file_log_append (sample_rand 3) Written sample_handle sample_file (sample_record 3)).2 = Ok tt) as E
    by (vm_compute; reflexivity).
  destruct (file_log_append _ _ _ _ _) as [[f1 file1] res]. cbn [snd] in E. subst res.
  split; [exact (proj1 Ha)|exists f'; exact Hr].
Defined.

Lemma failed_append_witness :
  exists f' file', file_log_append (sample_rand 3) (WriteFailed 20 IoError.UnexpectedEof) sample_handle
      sample_file (sample_record 3) = (f', file', Err (LogError.Io IoError.UnexpectedEof)) /\
    exists g file'', file_log_open (Some file') (Some sample_cipher) = Ok (g, file'') /\
      file_log_rel sample_codec g file'' [sample_record 1; sample_record 2].
Proof.
  destruct (failed_append (Some sample_cipher) sample_handle sample_file [sample_entry 1; sample_entry 2]
    [sample_record 1; sample_record 2] (sample_rand 3) (sample_record 3) (sample_payload 3) 20 IoError.UnexpectedEof
    sample_codec_ok sample_log_file sample_handle_on) as (f' & file' & E & _ & _ & g & file'' & Hg & Hrel).
  - vm_compute. reflexivity.
  - apply sample_rand_ok.
  - apply sample_record_wf. simpl. auto.
  - reflexivity.
  - vm_compute. reflexivity.
  - exists f', file'. split; [exact E|]. exists g, file''. split; [exact Hg|]. exact Hrel.
Defined.

(** Open, append, fail twenty bytes into the next append, crash. *)
Definition sample_run (w : world) : Prop :=
  log_steps (Some sample_cipher) world0 w /\ w_acked w = [sample_record 1] /\ fits (w_file w) /\
  (length (w_file w) = length (frame_of false (sample_payload 1)) + 20)%nat.

Definition opened_handle : IndexedFile := mk_indexed true false [] 0 None sample_codec.

Lemma sample_run_exists : exists w, sample_run w.
Proof.
  eexists. split; [|].
  - eapply steps_next; [eapply steps_next; [eapply steps_next; [eapply steps_next; [apply steps_refl|]|]|]|].
    + apply (step_open _ world0 opened_handle []). vm_compute. reflexivity.
    + eapply (step_append _ _ 0 _ (sample_rand 1) Written (sample_record 1));
        [reflexivity|apply sample_rand_ok|apply sample_record_wf; simpl; auto|vm_compute; reflexivity].
    + eapply (step_append _ _ 0 _ (sample_rand 2) (WriteFailed 20 IoError.UnexpectedEof) (sample_record 2));
        [reflexivity|apply sample_rand_ok|apply sample_record_wf; simpl; auto|vm_compute; reflexivity].
    + apply (step_crash _ _ 1000). vm_compute. lia.
  - split_and!; vm_compute; reflexivity.
Qed.

Lemma acknowledged_survive_witness :
  exists w f file' f' rs, sample_run w /\ file_log_open (Some (w_file w)) (Some sample_cipher) = Ok (f, file') /\
    file_log_tx_range f file' 0 None = (f', Ok rs) /\ In (sample_record 1) rs.
Proof.
  destruct sample_run_exists as [w Hw]. pose proof Hw as (Hs & Ha & Hb & _).
  destruct (acknowledged_survive (Some sample_cipher) sample_codec_ok w Hs Hb)
    as (f & file' & f' & rs & Ho & Hr & _ & Hin & _).
  exists w, f, file', f', rs. split; [exact Hw|]. split; [exact Ho|]. split; [exact Hr|].
  apply Hin. rewrite Ha. left. reflexivity.
Defined.
