(* ===== verification/VersionedLog.v ===== *)
(** * Logs split by lease version (corium-log/src/lib.rs)

    A writer appends under its lease version only, and readers merge the versions. Three
    stores share the merge: files of a directory ([VersionedLog]), objects of a native store
    ([NativeVersionedLog]) and the records of a process ([MemVersionedLog]). A directory is its
    files by name. *)

From stdpp Require Import base list strings.
From Stdlib Require Import ZArith Lia.
From S2P Require Import Prelude OrdMap Machine Text Crypt LogRecord FileLog.
Local Open Scope Z_scope.

Definition U64_MAX : Z := 2 ^ 64 - 1.

(** ** The merge *)

(** Versions from the last to the first: the first transaction of the later ones, and what
    they retain. *)
Fixpoint merge_loop {T} (t : T -> Z) (per_version : list (list T)) : Z * list T :=
  match per_version with
  | [] => (U64_MAX, [])
  | records :: later =>
      let (cutoff, merged) := merge_loop t later in
      (match head records with Some first => Z.min cutoff (t first) | None => cutoff end,
       List.filter (fun r => t r <? cutoff) records ++ merged)
  end.

Definition merge_versions {T} (t : T -> Z) (per_version : list (list T)) : list T :=
  (merge_loop t per_version).2.

Fixpoint validate_merged_contiguity {T} (t : T -> Z) (merged : list T) : result LogError unit :=
  match merged with
  | x :: ((y :: _) as rest) =>
      if negb (t y =? t x + 1) then Err LogError.Corrupt else validate_merged_contiguity t rest
  | _ => Ok tt
  end.

(** ** Version files *)

Definition version_path (name : string) (version : Z) : string :=
  if version =? 0 then name +:+ ".log" else name +:+ ".v" +:+ u64_to_string version +:+ ".log".

Definition version_of_entry (name entry : string) : option Z :=
  rest ← str_strip_prefix (name +:+ ".v") entry;
  digits ← str_strip_suffix ".log" rest;
  version ← parse_u64 digits;
  if 0 <? version then Some version else None.

Notation Dir := (list (string * bytes)).

Definition by_version {A} (p q : Z * A) : comparison := Z.compare p.1 q.1.

Definition version_files (dir : Dir) (name : string) : list (Z * string) :=
  let legacy := version_path name 0 in
  let files := if is_some (om_get legacy dir) then [(0, legacy)] else [] in
  sort_by by_version
    (files ++ filter_map (fun e => v ← version_of_entry name e.1; Some (v, e.1)) dir).

Record VersionedFile := mk_versioned { vf_version : Z; vf_path : string; vf_file : IndexedFile }.

Record VersionedLog := mk_versioned_log {
  vl_name : string;
  vl_mode : RecordMode;
  vl_files : list VersionedFile;
  vl_write_version : option Z;
  vl_next_t : Z;
}.

Definition vf_frames (f : VersionedFile) : list FrameIndex := ix_frames (vf_file f).

(** The cutoff of each file, and of all of them. *)
Fixpoint cutoffs_loop (files : list VersionedFile) : Z * list Z :=
  match files with
  | [] => (U64_MAX, [])
  | file :: later =>
      let (cutoff, cutoffs) := cutoffs_loop later in
      (match head (vf_frames file) with Some first => Z.min cutoff (fi_t first) | None => cutoff end,
       cutoff :: cutoffs)
  end.

Definition version_cutoffs (files : list VersionedFile) : list Z := (cutoffs_loop files).2.

Definition retained (file : VersionedFile) (cutoff : Z) : nat :=
  partition_point (fun frame => fi_t frame <? cutoff) (vf_frames file).

Fixpoint validate_cutoffs (previous_t : option Z) (files : list (VersionedFile * Z)) : result LogError unit :=
  match files with
  | [] => Ok tt
  | (file, cutoff) :: files =>
      let kept := retained file cutoff in
      match head (vf_frames file), vf_frames file !! (kept - 1)%nat with
      | Some first, Some last_ =>
          if (kept =? 0)%nat then validate_cutoffs previous_t files
          else
            _ ← validate_contiguous_prefix (vf_file file) kept;
            if is_some_and previous_t (fun previous => not_next previous (fi_t first))
            then Err LogError.Corrupt
            else validate_cutoffs (Some (fi_t last_)) files
      | _, _ => validate_cutoffs previous_t files
      end
  end.

Definition validated_version_cutoffs (files : list VersionedFile) : result LogError (list Z) :=
  let cutoffs := version_cutoffs files in
  _ ← validate_cutoffs None (zip files cutoffs); Ok cutoffs.

Fixpoint last_retained (files : list (VersionedFile * Z)) : option Z :=
  match files with
  | [] => None
  | (file, cutoff) :: later =>
      match last_retained later with
      | Some t => Some t
      | None =>
          let kept := retained file cutoff in
          if (0 <? kept)%nat then fi_t <$> vf_frames file !! (kept - 1)%nat else None
      end
  end.

Definition merged_next_t (files : list VersionedFile) (cutoffs : list Z) : result LogError Z :=
  match last_retained (zip files cutoffs) with
  | Some t => ok_or (checked_add_u64 t 1) LogError.Corrupt
  | None => Ok 1
  end.

Definition range_is_merged_indexed (files : list VersionedFile) (cutoffs : list Z) (end_ : option Z)
  : result LogError bool :=
  match end_ with
  | None => Ok false
  | Some e => n ← merged_next_t files cutoffs; Ok (e <=? n)
  end.

Section versioned.
Context `{C : Crypto} `{K : Crc32c}.

(** The bytes of an open file; a file missing from the directory reads as not found. *)
Definition dir_file (dir : Dir) (path : string) : result LogError bytes :=
  ok_or (om_get path dir) (LogError.Io IoError.NotFound).

Definition open_file (dir : Dir) (mode : RecordMode) (version : Z) (path : string) (writable : bool)
  : result LogError (VersionedFile * Dir) :=
  '(f, b) ← indexed_open (om_get path dir) writable writable (mk_codec mode version);
  Ok (mk_versioned version path f, if writable then om_insert path b dir else dir).

Fixpoint open_files (dir : Dir) (mode : RecordMode) (write_version : option Z) (entries : list (Z * string))
  : result LogError (list VersionedFile * Dir) :=
  match entries with
  | [] => Ok ([], dir)
  | (version, path) :: entries =>
      let writable := bool_decide (write_version = Some version) in
      '(file, dir) ← open_file dir mode version path writable;
      '(files, dir) ← open_files dir mode write_version entries;
      Ok (file :: files, dir)
  end.

Definition vf_order (a b : VersionedFile) : comparison := Z.compare (vf_version a) (vf_version b).

Definition versioned_open (dir : Dir) (name : string) (write_version : Z) (cipher : option LogCipher)
  : result LogError (VersionedLog * Dir) :=
  let mode := mode (codec_new cipher 0) in
  '(files, dir) ← open_files dir mode (Some write_version) (version_files dir name);
  '(files, dir) ←
    (if negb (existsb (fun file => vf_version file =? write_version) files) then
       '(file, dir) ← open_file dir mode write_version (version_path name write_version) true;
       Ok (sort_by vf_order (files ++ [file]), dir)
     else Ok (files, dir));
  cutoffs ← validated_version_cutoffs files;
  next_t ← merged_next_t files cutoffs;
  Ok (mk_versioned_log name mode files (Some write_version) next_t, dir).

Definition versioned_open_read_only (dir : Dir) (name : string) (mode : RecordMode)
  : result LogError VersionedLog :=
  '(files, _) ← open_files dir mode None (version_files dir name);
  cutoffs ← validated_version_cutoffs files;
  next_t ← merged_next_t files cutoffs;
  Ok (mk_versioned_log name mode files None next_t).

Definition versioned_exists (dir : Dir) (name : string) : bool :=
  negb (bool_decide (version_files dir name = [])).

Definition versioned_delete_all (dir : Dir) (name : string) : Dir :=
  fold_left (fun dir e => om_remove e.2 dir) (version_files dir name) dir.

Definition with_files (l : VersionedLog) (files : list VersionedFile) (next_t : Z) : VersionedLog :=
  mk_versioned_log (vl_name l) (vl_mode l) files (vl_write_version l) next_t.

(** The first file of the writer's version, with its cutoff and what comes before and after. *)
Fixpoint find_writer (version : Z) (files : list VersionedFile) (cutoffs : list Z)
  : option (list VersionedFile * (VersionedFile * Z) * list VersionedFile) :=
  match files, cutoffs with
  | file :: files, cutoff :: cutoffs =>
      if vf_version file =? version then Some ([], (file, cutoff), files)
      else '(before, found, after) ← find_writer version files cutoffs; Some (file :: before, found, after)
  | _, _ => None
  end.

Definition versioned_append (rand : option bytes) (io : WriteOutcome) (l : VersionedLog) (dir : Dir)
  (record : TxRecord) : VersionedLog * Dir * result LogError unit :=
  let prepared :=
    _ ← ensure (vl_next_t l =? r_t record) LogError.Corrupt;
    version ← ok_or (vl_write_version l) (LogError.Native "transaction log is read-only");
    '(before, (file, cutoff), after) ←
      ok_or (find_writer version (vl_files l) (version_cutoffs (vl_files l))) LogError.Corrupt;
    _ ← (if ((cutoff =? U64_MAX) && negb (bool_decide (vf_frames file = [])))%bool
         then n ← next_t (vf_frames file); ensure (n =? r_t record) LogError.Corrupt
         else Ok tt);
    b ← dir_file dir (vf_path file);
    Ok (before, file, after, b) in
  match prepared with
  | Err e => (l, dir, Err e)
  | Ok (before, file, after, b) =>
      let '(f, b, res) := indexed_append rand io (vf_file file) b record in
      let files := before ++ mk_versioned (vf_version file) (vf_path file) f :: after in
      let dir := om_insert (vf_path file) b dir in
      match res with
      | Err e => (with_files l files (vl_next_t l), dir, Err e)
      | Ok _ =>
          match checked_add_u64 (vl_next_t l) 1 with
          | Some n => (with_files l files n, dir, Ok tt)
          | None => (with_files l files (vl_next_t l), dir, Err LogError.Corrupt)
          end
      end
  end.

(** Refreshing the open files in order; an error stops it, and what was refreshed stays so. *)
Fixpoint refresh_files (dir : Dir) (files : list VersionedFile) : list VersionedFile * result LogError unit :=
  match files with
  | [] => ([], Ok tt)
  | file :: files =>
      match (b ← dir_file dir (vf_path file); indexed_refresh (vf_file file) b) with
      | Err e => (file :: files, Err e)
      | Ok f =>
          let (files, res) := refresh_files dir files in
          (mk_versioned (vf_version file) (vf_path file) f :: files, res)
      end
  end.

Fixpoint open_new_files (dir : Dir) (mode : RecordMode) (files : list VersionedFile) (entries : list (Z * string))
  : list VersionedFile * result LogError unit :=
  match entries with
  | [] => (files, Ok tt)
  | (version, path) :: entries =>
      if forallb (fun file => negb (vf_version file =? version)) files then
        match open_file dir mode version path false with
        | Err e => (files, Err e)
        | Ok (file, _) => open_new_files dir mode (files ++ [file]) entries
        end
      else open_new_files dir mode files entries
  end.

Definition refresh_version_files (dir : Dir) (name : string) (mode : RecordMode) (files : list VersionedFile)
  : list VersionedFile * result LogError unit :=
  match refresh_files dir files with
  | (files, Err e) => (files, Err e)
  | (files, Ok _) =>
      match open_new_files dir mode files (version_files dir name) with
      | (files, Err e) => (files, Err e)
      | (files, Ok _) => (sort_by vf_order files, Ok tt)
      end
  end.

(** [end] bounded by a file's cutoff. *)
Definition cut_end (end_ : option Z) (cutoff : Z) : option Z :=
  Some (match end_ with None => cutoff | Some e => Z.min e cutoff end).

Fixpoint read_files {T} (read : VersionedFile -> bytes -> option Z -> result LogError (list T)) (dir : Dir)
  (end_ : option Z) (files : list (VersionedFile * Z)) : result LogError (list T) :=
  match files with
  | [] => Ok []
  | (file, cutoff) :: files =>
      b ← dir_file dir (vf_path file);
      records ← read file b (cut_end end_ cutoff);
      rest ← read_files read dir end_ files;
      Ok (records ++ rest)
  end.

Definition read_merged_range (dir : Dir) (files : list VersionedFile) (cutoffs : list Z) (start : Z)
  (end_ : option Z) : result LogError (list TxRecord) :=
  read_files (fun file b e => indexed_tx_range (vf_file file) b start e) dir end_ (zip files cutoffs).

Definition read_merged_framed_range (dir : Dir) (files : list VersionedFile) (cutoffs : list Z) (start : Z)
  (end_ : option Z) : result LogError (list FramedRecord) :=
  read_files (fun file b e => framed_range (vf_file file) b (vf_version file) start e) dir end_ (zip files cutoffs).

(** [read] is one of the two readers above on the directory. *)
Definition read_merged {T} (read : list VersionedFile -> list Z -> Z -> option Z -> result LogError (list T))
  (l : VersionedLog) (dir : Dir) (start : Z) (end_ : option Z) : VersionedLog * result LogError (list T) :=
  let indexed :=
    cutoffs ← validated_version_cutoffs (vl_files l);
    ready ← range_is_merged_indexed (vl_files l) cutoffs end_;
    Ok (cutoffs, ready) in
  match indexed with
  | Err e => (l, Err e)
  | Ok (cutoffs, true) => (l, read (vl_files l) cutoffs start end_)
  | Ok (_, false) =>
      let (files, res) := refresh_version_files dir (vl_name l) (vl_mode l) (vl_files l) in
      (with_files l files (vl_next_t l),
       _ ← res; cutoffs ← validated_version_cutoffs files; read files cutoffs start end_)
  end.

Definition versioned_tx_range (l : VersionedLog) (dir : Dir) (start : Z) (end_ : option Z)
  : VersionedLog * result LogError (list TxRecord) :=
  if range_empty start end_ then (l, Ok []) else read_merged (read_merged_range dir) l dir start end_.

Definition versioned_tx_range_framed (l : VersionedLog) (dir : Dir) (start : Z) (end_ : option Z)
  : VersionedLog * result LogError (list FramedRecord) :=
  if range_empty start end_ then (l, Ok []) else read_merged (read_merged_framed_range dir) l dir start end_.
End versioned.

(** ** Native stores *)

(** One database's log objects in a native store. [put_batch] is create-only and keyed by
    the batch's last transaction; the legacy chunks are only read. *)
Class NativeLogStorage (Store : Type) := {
  put_batch : Store -> Z -> list (Z * bytes) -> Store * result LogError bool;
  read_record : Store -> Z -> Z -> result LogError (option bytes);
  list_records : Store -> result LogError (list (Z * Z));
  read_legacy_chunk : Store -> Z -> Z -> result LogError (option bytes);
  list_legacy_chunks : Store -> result LogError (list (Z * Z));
}.

Record NativeVersionedLog := mk_native_log {
  nl_write_version : Z;
  nl_read_only : bool;
  nl_mode : RecordMode;
  nl_next_t : Z;
}.

Definition pair_order (p q : Z * Z) : comparison := cmp p q.

(** Objects of one kind, in the order given, appended to their version's runs. *)
Fixpoint gather_runs (read : Z -> Z -> result LogError (option bytes)) (keys : list (Z * Z))
  (per_version : list (Z * list bytes)) : result LogError (list (Z * list bytes)) :=
  match keys with
  | [] => Ok per_version
  | (version, k) :: keys =>
      b ← read version k;
      let runs := unwrap_or (om_get version per_version) [] in
      gather_runs read keys (om_insert version (runs ++ [unwrap_or b []]) per_version)
  end.

Section native.
Context `{C : Crypto} `{K : Crc32c} {Store : Type} `{St : NativeLogStorage Store}.

Definition native_runs_by_version (storage : Store) : result LogError (list (Z * list bytes)) :=
  chunks ← list_legacy_chunks storage;
  per_version ← gather_runs (read_legacy_chunk storage) (sort_by pair_order chunks) [];
  records ← list_records storage;
  gather_runs (read_record storage) (sort_by pair_order records) per_version.

Definition t_order (a b : TxRecord) : comparison := Z.compare (r_t a) (r_t b).
Definition frame_order (a b : FramedRecord) : comparison := Z.compare (fr_t a) (fr_t b).

Definition read_native_merged (storage : Store) (mode : RecordMode) : result LogError (list TxRecord) :=
  runs ← native_runs_by_version storage;
  per_version ← try_map (fun p =>
    records ← try_map (fun b => decode_framed_payloads b (mk_codec mode p.1)) p.2;
    Ok (sort_by t_order (concat records))) runs;
  let merged := merge_versions r_t per_version in
  _ ← validate_merged_contiguity r_t merged;
  Ok merged.

Definition read_native_merged_framed (storage : Store) : result LogError (list FramedRecord) :=
  runs ← native_runs_by_version storage;
  per_version ← try_map (fun p =>
    records ← try_map (fun b =>
      frames ← split_frames b;
      try_map (fun f => t ← frame_t (mk_codec RecordMode.Opaque 0) f.2; Ok (mk_framed t p.1 f.1)) frames) p.2;
    Ok (sort_by frame_order (concat records))) runs;
  let merged := merge_versions fr_t per_version in
  _ ← validate_merged_contiguity fr_t merged;
  Ok merged.

Definition native_open (storage : Store) (write_version : Z) (cipher : option LogCipher)
  : result LogError NativeVersionedLog :=
  let mode := mode (codec_new cipher 0) in
  records ← read_native_merged storage mode;
  let next_t := match last records with None => 1 | Some r => r_t r + 1 end in
  Ok (mk_native_log write_version false mode next_t).

Definition native_open_read_only (mode : RecordMode) : NativeVersionedLog := mk_native_log 0 true mode 0.

(** The batch is the run of transactions that starts at [n]. *)
Fixpoint batch_contiguous (n : Z) (records : list TxRecord) : bool :=
  match records with
  | [] => true
  | r :: records => (r_t r =? n) && batch_contiguous (n + 1) records
  end.

Fixpoint frame_batch (codec : RecordCodec) (records : list (option bytes * TxRecord))
  : result LogError (list (Z * bytes)) :=
  match records with
  | [] => Ok []
  | (rand, r) :: records =>
      payload ← codec_encode rand codec r;
      b ← append_framed_payload [] payload;
      rest ← frame_batch codec records;
      Ok ((r_t r, b) :: rest)
  end.

Definition native_append_batch (l : NativeVersionedLog) (storage : Store) (records : list (option bytes * TxRecord))
  : NativeVersionedLog * Store * result LogError unit :=
  if nl_read_only l then (l, storage, Err (LogError.Native "transaction log is read-only"))
  else if bool_decide (length records = 0%nat) then (l, storage, Ok tt)
  else if negb (batch_contiguous (nl_next_t l) (map snd records)) then (l, storage, Err LogError.Corrupt)
  else
    match frame_batch (mk_codec (nl_mode l) (nl_write_version l)) records with
    | Err e => (l, storage, Err e)
    | Ok framed =>
        match put_batch storage (nl_write_version l) framed with
        | (storage, Err e) => (l, storage, Err e)
        | (storage, Ok false) => (l, storage, Err LogError.Corrupt)
        | (storage, Ok true) =>
            (mk_native_log (nl_write_version l) (nl_read_only l) (nl_mode l)
               (nl_next_t l + Z.of_nat (length records)), storage, Ok tt)
        end
    end.

Definition native_tx_range (l : NativeVersionedLog) (storage : Store) (start : Z) (end_ : option Z)
  : result LogError (list TxRecord) :=
  merged ← read_native_merged storage (nl_mode l);
  Ok (List.filter (fun r => in_tx_range start end_ (r_t r)) merged).

Definition native_tx_range_framed (storage : Store) (start : Z) (end_ : option Z)
  : result LogError (list FramedRecord) :=
  merged ← read_native_merged_framed storage;
  Ok (List.filter (fun r => in_tx_range start end_ (fr_t r)) merged).
End native.

(** ** In memory *)

(** The records of a name in the registry, each with the version it was appended under. *)
Notation VersionedRecords := (list (Z * TxRecord)).

Record MemVersionedLog := mk_mem_log { ml_write_version : Z; ml_next_t : Z }.

Definition of_version (records : VersionedRecords) (version : Z) : list TxRecord :=
  map snd (List.filter (fun p => p.1 =? version) records).

Definition mem_merged (records : VersionedRecords) : list TxRecord :=
  merge_versions r_t (map (of_version records) (os_of_list (map fst records))).

Definition mem_log_open (records : VersionedRecords) (write_version : Z) : MemVersionedLog :=
  mk_mem_log write_version (match last (mem_merged records) with None => 1 | Some r => r_t r + 1 end).

Definition mem_log_append (l : MemVersionedLog) (records : VersionedRecords) (record : TxRecord)
  : result LogError (MemVersionedLog * VersionedRecords) :=
  if negb (ml_next_t l =? r_t record) then Err LogError.Corrupt
  else Ok (mk_mem_log (ml_write_version l) (ml_next_t l + 1), records ++ [(ml_write_version l, record)]).

Definition mem_log_tx_range (records : VersionedRecords) (start : Z) (end_ : option Z) : list TxRecord :=
  List.filter (fun r => in_tx_range start end_ (r_t r)) (mem_merged records).

(** The registry of in-memory logs by name. *)
Notation MemLogRegistry := (list (string * VersionedRecords)).

Definition registry_entry (g : MemLogRegistry) (name : string) : VersionedRecords := unwrap_or (om_get name g) [].
Definition registry_exists (g : MemLogRegistry) (name : string) : bool :=
  is_some_and (om_get name g) (fun records => negb (bool_decide (length records = 0%nat))).
Definition registry_delete_all (g : MemLogRegistry) (name : string) : MemLogRegistry := om_remove name g.
