(* ===== verification/VersionedMerge.v ===== *)
(** * What the merge of log versions guarantees *)

From stdpp Require Import base list strings.
From Stdlib Require Import ZArith Lia Sorted.
From S2P Require Import Prelude OrdMap Machine Text Values Datoms Crypt LogRecord FileLog FileLogFacts.
From S2P Require Import VersionedLog.
Local Open Scope Z_scope.

(** ** The merge *)

Section merge.
Context {T : Type} (t : T -> Z).

(** The least of the first transactions of the versions that have one. *)
Fixpoint least_first (pv : list (list T)) : Z :=
  match pv with
  | [] => U64_MAX
  | records :: pv =>
      match head records with Some first => Z.min (least_first pv) (t first) | None => least_first pv end
  end.

Lemma merge_loop_cut pv : (merge_loop t pv).1 = least_first pv.
Proof.
  induction pv as [|records pv IH]; [done|]. cbn [merge_loop least_first].
  destruct (merge_loop t pv) as [cutoff merged]. cbn [fst] in *. by rewrite <- IH.
Qed.

Lemma merge_cons records pv :
  merge_versions t (records :: pv) =
    List.filter (fun r => t r <? least_first pv) records ++ merge_versions t pv.
Proof.
  unfold merge_versions. cbn [merge_loop]. rewrite <- merge_loop_cut.
  by destruct (merge_loop t pv) as [cutoff merged].
Qed.

Lemma least_first_lt x pv :
  x < least_first pv <->
  x < U64_MAX /\ Forall (fun later => forall first, head later = Some first -> x < t first) pv.
Proof.
  induction pv as [|records pv IH]; cbn [least_first].
  - split; [intros H; split; [done|constructor]|tauto].
  - rewrite List.Forall_cons_iff. destruct (head records) as [f|] eqn:E.
    + rewrite Z.min_glb_lt_iff, IH. split; [|naive_solver].
      intros [[? ?] ?]. split_and!; [done| |done]. intros first Hf. by injection Hf as <-.
    + rewrite IH. naive_solver.
Qed.

(** A record survives exactly when no later version starts at or below its number. *)
Lemma merge_In r pv : In r (merge_versions t pv) <->
  exists before records after, pv = before ++ records :: after /\ In r records /\ t r < least_first after.
Proof.
  induction pv as [|records pv IH].
  - split; [done|]. intros (before & records & after & E & _). by destruct before.
  - rewrite merge_cons, in_app_iff, IH, filter_In, Z.ltb_lt. split.
    + intros [[Hr Hc]|(before & records' & after & -> & Hr & Hc)].
      * exists [], records, pv. done.
      * exists (records :: before), records', after. done.
    + intros ([|x before] & records' & after & E & Hr & Hc); injection E as -> ->; [by left|right; eauto 10].
Qed.

Lemma merge_nil_l pv : merge_versions t ([] :: pv) = merge_versions t pv.
Proof. by rewrite merge_cons. Qed.

(** The retained records are a prefix of each version's. *)
Lemma merge_retained records pv : key_sorted t records ->
  List.filter (fun r => t r <? least_first pv) records =
    take (partition_point (fun r => t r <? least_first pv) records) records.
Proof.
  intros Hs. destruct (partition_split t (least_first pv) records Hs) as [E ->].
  set (kept := List.filter _ records) in *. rewrite E. by rewrite take_app_length.
Qed.
End merge.

(** Only the numbers decide what is retained. *)
Lemma least_first_map {A B} (t : B -> Z) (f : A -> B) pv :
  least_first t (map (map f) pv) = least_first (fun x => t (f x)) pv.
Proof.
  induction pv as [|records pv IH]; [done|]. cbn [map least_first]. rewrite IH.
  by destruct records.
Qed.

Lemma filter_map_comm {A B} (f : A -> B) (p : B -> bool) l :
  List.filter p (map f l) = map f (List.filter (fun x => p (f x)) l).
Proof. induction l as [|x l IH]; [done|]. cbn [map List.filter]. rewrite IH. by destruct (p (f x)). Qed.

Lemma merge_map {A B} (t : B -> Z) (f : A -> B) pv :
  merge_versions t (map (map f) pv) = map f (merge_versions (fun x => t (f x)) pv).
Proof.
  induction pv as [|records pv IH]; [done|]. cbn [map]. rewrite !merge_cons, IH, map_app, least_first_map.
  by rewrite filter_map_comm.
Qed.

(** One more record at the end of a version. *)
Section push.
Context {T : Type} (t : T -> Z).
Context (own : list T) (after : list (list T)) (r : T) (Hown : Forall (fun x => t x < t r) own).

Lemma least_first_push before : least_first t (before ++ (own ++ [r]) :: after) =
  Z.min (least_first t (before ++ own :: after)) (t r).
Proof.
  induction before as [|b before IH]; cbn [app least_first].
  - destruct Hown as [|x own' Hx _]; cbn [app head]; [done|]. lia.
  - rewrite IH. destruct (head b); lia.
Qed.

Lemma merge_empty pv : Forall (fun l : list T => l = []) pv -> least_first t pv = U64_MAX /\ merge_versions t pv = [].
Proof. induction 1 as [|l pv -> _ [IH1 IH2]]; [done|]. cbn [least_first head]. by rewrite merge_nil_l. Qed.

(** At the end of the log, it cuts the earlier versions and follows them. *)
Lemma merge_push_last before : Forall (fun l => l = []) after -> t r < U64_MAX ->
  merge_versions t (before ++ (own ++ [r]) :: after) =
    List.filter (fun x => t x <? t r) (merge_versions t (before ++ own :: after)) ++ [r].
Proof.
  intros Hafter Hr. destruct (merge_empty after Hafter) as [Hl Hm].
  induction before as [|b before IH]; cbn [app].
  - rewrite !merge_cons, Hm, Hl, !app_nil_r, List.filter_app. rewrite List.Forall_forall in Hown.
    rewrite (filter_all_true _ own) by (intros x Hx; apply Z.ltb_lt; specialize (Hown x Hx); lia).
    rewrite (filter_all_true (fun x => t x <? t r) own) by (intros x Hx; apply Z.ltb_lt; auto).
    cbn [List.filter]. by rewrite (proj2 (Z.ltb_lt _ _) Hr).
  - rewrite !merge_cons, IH, List.filter_app, least_first_push, <- app_assoc. f_equal. rewrite filter_filter.
    apply filter_ext. intros x. destruct (Z.ltb_spec (t x) (least_first t (before ++ own :: after))),
      (Z.ltb_spec (t x) (t r)); cbn [andb]; (apply Z.ltb_lt || apply Z.ltb_ge); lia.
Qed.

(** Behind a later version that starts at or below it, it is not seen. *)
Lemma merge_push_stale before : least_first t after <= t r ->
  merge_versions t (before ++ (own ++ [r]) :: after) = merge_versions t (before ++ own :: after).
Proof.
  intros Hr. assert (Hle : forall pv, least_first t (pv ++ own :: after) <= t r).
  { induction pv as [|b pv IH]; cbn [app least_first]; [destruct (head own); lia|destruct (head b); lia]. }
  induction before as [|b before IH]; cbn [app].
  - rewrite !merge_cons, List.filter_app. cbn [List.filter]. rewrite (proj2 (Z.ltb_ge _ _) Hr). by rewrite app_nil_r.
  - rewrite !merge_cons, IH, least_first_push. by rewrite Z.min_l by apply Hle.
Qed.
End push.

(** ** Contiguity *)

Notation contiguous := (validate_merged_contiguity id).

Lemma contiguity_map {T} (t : T -> Z) l : validate_merged_contiguity t l = contiguous (map t l).
Proof.
  induction l as [|x l IH]; [done|]. destruct l as [|y l]; [done|]. cbn [map validate_merged_contiguity] in *.
  by rewrite IH.
Qed.

Lemma contiguous_cons x y l : contiguous (x :: y :: l) =
  if negb (y =? x + 1) then Err LogError.Corrupt else contiguous (y :: l).
Proof. done. Qed.

Lemma contiguous_result l : contiguous l = Ok tt \/ contiguous l = Err LogError.Corrupt.
Proof.
  induction l as [|x l IH]; [by left|]. destruct l as [|y l]; [by left|]. rewrite contiguous_cons.
  destruct (y =? x + 1); [done|by right].
Qed.

Lemma contiguous_app a x b : last a = Some x -> contiguous (a ++ b) = (_ ← contiguous a; contiguous (x :: b)).
Proof.
  induction a as [|y a IH]; [done|]. destruct a as [|z a].
  - intros [= <-]. done.
  - intros Hx. rewrite <- !app_comm_cons, !contiguous_cons. rewrite <- app_comm_cons in IH.
    destruct (z =? y + 1); [|done]. by apply IH.
Qed.

Lemma contiguous_run t ts : run_from t ts -> contiguous ts = Ok tt.
Proof.
  revert t. induction ts as [|x ts IH]; intros t; [done|]. cbn [run_from]. intros [-> H].
  destruct ts as [|y ts]; [done|]. assert (y = t + 1) as -> by apply H.
  rewrite contiguous_cons, Z.eqb_refl. cbn [negb]. by eapply IH.
Qed.

Lemma run_contiguous x ts : contiguous (x :: ts) = Ok tt -> run_from x (x :: ts).
Proof.
  revert x. induction ts as [|y ts IH]; intros x; [by cbn|]. rewrite contiguous_cons.
  destruct (Z.eqb_spec y (x + 1)) as [->|]; [|done]. intros H. split; [done|]. by apply IH.
Qed.

Definition small (t : Z) : Prop := 0 <= t < U64_MAX.

Lemma not_next_small t u : small t -> not_next t u = negb (u =? t + 1).
Proof.
  unfold small, U64_MAX. intros H. unfold not_next, checked_add_u64. rewrite (proj2 (Z.ltb_lt _ _)) by lia.
  f_equal. destruct (Z.eqb_spec u (t + 1)) as [->|Hn]; [by rewrite bool_decide_true|].
  apply bool_decide_false. congruence.
Qed.

(** The recorded gap decides whether a prefix of the index is contiguous. *)
Lemma gap_contiguous frames n : Forall (fun x => small (fi_t x)) frames ->
  (if is_some_and (first_gap_index frames) (fun gap => (gap <? n)%nat) then Err LogError.Corrupt else Ok tt) =
    contiguous (map fi_t (take n frames)).
Proof.
  unfold first_gap_index. revert n. induction frames as [|x frames IH]; intros n; [by rewrite take_nil|].
  intros Hs. inversion_clear Hs as [|? ? Hx Hs']. destruct n as [|n].
  { rewrite take_0. destruct (gap_position (x :: frames)) as [g|]; [|done]. by destruct g. }
  destruct frames as [|y frames]; [by destruct n|]. rewrite gap_position_cons, (not_next_small _ _ Hx).
  rewrite firstn_cons. specialize (IH n Hs'). destruct n as [|n].
  { rewrite take_0. cbn [map]. destruct (negb _); [done|]. by destruct (gap_position (y :: frames)) as [[|g]|]. }
  rewrite firstn_cons in *. cbn [map] in *. rewrite contiguous_cons. destruct (negb _); [done|].
  rewrite <- IH. by destruct (gap_position (y :: frames)) as [g|].
Qed.

(** ** Files: the cutoffs and the merge *)

Record index_ok (f : VersionedFile) : Prop := {
  io_sorted : key_sorted fi_t (vf_frames f);
  io_gap : ix_first_gap (vf_file f) = first_gap_index (vf_frames f);
  io_small : Forall (fun x => small (fi_t x)) (vf_frames f);
}.

Definition merged_index (files : list VersionedFile) : list FrameIndex := merge_versions fi_t (map vf_frames files).

Lemma cutoffs_loop_fst files : (cutoffs_loop files).1 = least_first fi_t (map vf_frames files).
Proof.
  induction files as [|f files IH]; [done|]. cbn [cutoffs_loop map least_first]. rewrite <- IH.
  by destruct (cutoffs_loop files).
Qed.

Lemma version_cutoffs_cons f files :
  version_cutoffs (f :: files) = least_first fi_t (map vf_frames files) :: version_cutoffs files.
Proof.
  unfold version_cutoffs. cbn [cutoffs_loop]. rewrite <- cutoffs_loop_fst. by destruct (cutoffs_loop files).
Qed.

Lemma length_version_cutoffs files : length (version_cutoffs files) = length files.
Proof. induction files as [|f files IH]; [done|]. rewrite version_cutoffs_cons. cbn [length]. by rewrite IH. Qed.

(** What one file retains: a prefix, whose first and last frames are those of the loops. *)
Lemma retained_prefix f c : index_ok f ->
  let kept := List.filter (fun x => fi_t x <? c) (vf_frames f) in
  retained f c = length kept /\ kept = take (retained f c) (vf_frames f) /\
  (kept <> [] -> head (vf_frames f) = head kept /\ vf_frames f !! (retained f c - 1)%nat = last kept).
Proof.
  intros [Hs _ _] kept. unfold retained. destruct (partition_split fi_t c _ Hs) as [E Hp]. fold kept in E, Hp.
  rewrite Hp. split; [done|]. split; [rewrite E; by rewrite take_app_length|]. intros Hk.
  destruct kept as [|x kept'] eqn:Ek; [done|]. rewrite <- Ek in *. split; [by rewrite E, Ek|].
  rewrite last_lookup, E, lookup_app_l; [by rewrite Nat.sub_1_r|]. rewrite Ek. cbn [length]. lia.
Qed.

Lemma validate_cutoffs_merged files prev : Forall index_ok files -> (forall p, prev = Some p -> small p) ->
  validate_cutoffs prev (zip files (version_cutoffs files)) =
    contiguous (match prev with Some p => [p] | None => [] end ++ map fi_t (merged_index files)).
Proof.
  intros Hf. revert prev. induction Hf as [|f files Hok _ IH]; intros prev Hp.
  { by destruct prev. }
  unfold merged_index. rewrite version_cutoffs_cons. cbn [zip_with validate_cutoffs map]. rewrite merge_cons.
  set (c := least_first fi_t (map vf_frames files)). fold (merged_index files).
  destruct (retained_prefix f c Hok) as (Hr & Htake & Hkept).
  set (kept := List.filter (fun x => fi_t x <? c) (vf_frames f)) in *.
  destruct (decide (kept = [])) as [E|E].
  { rewrite E in *. rewrite Hr. cbn [app]. rewrite <- IH by done.
    destruct (head (vf_frames f)); [|done]. change (length []) with 0%nat. by destruct (vf_frames f !! (0 - 1)%nat). }
  destruct (Hkept E) as [-> ->]. destruct (last kept) as [l|] eqn:Hl; [|by apply last_None in Hl].
  destruct kept as [|x kept'] eqn:Ek; [done|]. cbn [head]. rewrite <- Ek in *.
  rewrite (proj2 (Nat.eqb_neq (retained f c) 0)) by (rewrite Hr, Ek; done).
  assert (Hsm : Forall (fun x => small (fi_t x)) kept) by (rewrite Htake; apply Forall_take, Hok).
  assert (Hlast : small (fi_t l)).
  { rewrite List.Forall_forall in Hsm. apply Hsm. apply last_Some in Hl as [? ->]. apply in_app_iff. right. by left. }
  unfold validate_contiguous_prefix. rewrite (io_gap f Hok), gap_contiguous, <- Htake by apply Hok.
  rewrite map_app. destruct prev as [p|]; cbn [is_some_and app].
  - rewrite (not_next_small p (fi_t x)) by auto.
    assert (forall l, contiguous (p :: map fi_t kept ++ l) =
      if negb (fi_t x =? p + 1) then Err LogError.Corrupt else contiguous (map fi_t kept ++ l)) as ->
      by (intros l'; by rewrite Ek).
    rewrite (contiguous_app _ (fi_t l)) by (by rewrite fmap_last, Hl).
    rewrite IH by (by intros ? [= <-]). cbn [app].
    destruct (contiguous_result (map fi_t kept)) as [->| ->]; cbn [mbind result_bind]; by destruct (negb _).
  - rewrite (contiguous_app _ (fi_t l)) by (by rewrite fmap_last, Hl).
    rewrite IH by (by intros ? [= <-]). done.
Qed.

(** The index is accepted exactly when the merge of the versions has no hole. *)
Lemma validated_cutoffs_merged files : Forall index_ok files ->
  validated_version_cutoffs files =
    (_ ← validate_merged_contiguity fi_t (merged_index files); Ok (version_cutoffs files)).
Proof.
  intros Hf. unfold validated_version_cutoffs. rewrite contiguity_map.
  rewrite (validate_cutoffs_merged files None Hf) by (by intros). done.
Qed.

Lemma last_retained_merged files : Forall index_ok files ->
  last_retained (zip files (version_cutoffs files)) = fi_t <$> last (merged_index files).
Proof.
  induction 1 as [|f files Hok _ IH]; [done|]. unfold merged_index. rewrite version_cutoffs_cons.
  cbn [zip_with last_retained map]. rewrite merge_cons, last_app, IH. fold (merged_index files).
  destruct (last (merged_index files)) as [x|]; [done|]. cbn [fmap option_fmap option_map].
  destruct (retained_prefix f (least_first fi_t (map vf_frames files)) Hok) as (Hr & _ & Hk).
  set (kept := List.filter _ (vf_frames f)) in *. destruct (decide (kept = [])) as [E|E].
  - rewrite Hr, E. done.
  - destruct (Hk E) as [_ ->]. rewrite (proj2 (Nat.ltb_lt _ _)); [done|]. rewrite Hr. destruct kept; [done|]. cbn. lia.
Qed.

(** The next transaction is the successor of the merge's last. *)
Lemma merged_next files : Forall index_ok files ->
  merged_next_t files (version_cutoffs files) =
    Ok (match last (merged_index files) with Some x => fi_t x + 1 | None => 1 end).
Proof.
  intros Hf. unfold merged_next_t. rewrite (last_retained_merged files Hf).
  destruct (last (merged_index files)) as [x|] eqn:Hl; [|done]. cbn [fmap option_fmap option_map].
  assert (small (fi_t x)) as Hx.
  { apply last_Some in Hl as [l Hl]. assert (In x (merged_index files)) as Hin by (rewrite Hl; apply in_app_iff; right; by left).
    apply merge_In in Hin as (before & frames & after & E & Hin & _).
    assert (In frames (map vf_frames files)) as (f & <- & Hfin)%in_map_iff by (rewrite E; apply in_app_iff; right; by left).
    rewrite List.Forall_forall in Hf. destruct (Hf f Hfin) as [_ _ Hs]. rewrite List.Forall_forall in Hs. auto. }
  unfold small, U64_MAX in Hx. unfold checked_add_u64. by rewrite (proj2 (Z.ltb_lt _ _)) by lia.
Qed.
