(* ===== verification/VersionedDir.v ===== *)
(** * The versioned log of a directory

    The files of a directory hold the log's versions; opening, reading and appending
    through them is opening, reading and appending to the merge of the versions. *)

From stdpp Require Import base list strings sorting.
From Stdlib Require Import ZArith Lia Sorted.
From S2P Require Import Prelude OrdMap Machine Text Values Datoms Crypt LogRecord FileLog FileLogFacts.
From S2P Require Import VersionedLog VersionedMerge.
Local Open Scope Z_scope.

(** ** Names of version files *)

Lemma str_app_length s t : String.length (s +:+ t) = (String.length s + String.length t)%nat.
Proof. induction s as [|c s IH]; [done|]. rewrite str_app_cons. simpl. by rewrite IH. Qed.

Lemma strip_suffix_app p s : str_strip_suffix p (s +:+ p) = Some s.
Proof.
  induction s as [|c s IH].
  - change (EmptyString +:+ p) with p. destruct p as [|c p]; [done|]. cbn [str_strip_suffix].
    by rewrite bool_decide_true.
  - rewrite str_app_cons. cbn [str_strip_suffix]. rewrite bool_decide_false, IH; [done|].
    intros E%(f_equal String.length). simpl in E. rewrite str_app_length in E. lia.
Qed.

Lemma strip_prefix_common a p s : str_strip_prefix (a +:+ p) (a +:+ s) = str_strip_prefix p s.
Proof.
  induction a as [|c a IH]; [done|]. rewrite !str_app_cons. cbn [str_strip_prefix]. by rewrite bool_decide_true.
Qed.

Lemma version_path_entry name v : 0 < v < 2 ^ 64 -> version_of_entry name (version_path name v) = Some v.
Proof.
  intros Hv. unfold version_path. rewrite (proj2 (Z.eqb_neq v 0)) by lia. unfold version_of_entry.
  rewrite strip_prefix_common, strip_prefix_app. cbn [mbind option_bind].
  rewrite strip_suffix_app. cbn [mbind option_bind]. rewrite parse_u64_to_string by (unfold u64; lia).
  cbn [mbind option_bind]. by rewrite (proj2 (Z.ltb_lt 0 v)) by lia.
Qed.

Lemma version_path_legacy name : version_of_entry name (version_path name 0) = None.
Proof. unfold version_path, version_of_entry. cbn [Z.eqb]. by rewrite strip_prefix_common. Qed.

Lemma version_path_inj name v w : 0 <= v < 2 ^ 64 -> 0 <= w < 2 ^ 64 ->
  version_path name v = version_path name w -> v = w.
Proof.
  intros Hv Hw E. destruct (decide (v = 0)) as [->|Hv0], (decide (w = 0)) as [->|Hw0]; [done| | |].
  - pose proof (version_path_entry name w ltac:(lia)) as H. by rewrite <- E, version_path_legacy in H.
  - pose proof (version_path_entry name v ltac:(lia)) as H. by rewrite E, version_path_legacy in H.
  - pose proof (version_path_entry name v ltac:(lia)) as H. rewrite E, version_path_entry in H by lia. congruence.
Qed.

(** ** Sorting by version *)

Section sorting.
Context {A : Type} (k : A -> Z).
Let order (x y : A) : comparison := Z.compare (k x) (k y).

Lemma insert_by_sorted x l : key_sorted k l -> ~ In (k x) (map k l) -> key_sorted k (insert_by order x l).
Proof.
  induction l as [|y l IH]; intros Hs Hx; [by repeat constructor|].
  inversion_clear Hs as [|? ? Hs' Hy]. cbn [insert_by]. unfold order at 1. cbn [map In] in Hx.
  destruct (Z.compare_spec (k x) (k y)) as [E|E|E]; [by destruct Hx; left| |].
  - constructor; [by constructor|]. constructor; [done|]. eapply List.Forall_impl; [|done]. intros z Hz. cbn in Hz. lia.
  - constructor; [apply IH; tauto|]. rewrite List.Forall_forall in *. intros z Hz.
    rewrite (insert_by_perm order x l) in Hz. destruct Hz as [<-|Hz]; [lia|auto].
Qed.

Lemma sort_by_sorted l : NoDup (map k l) -> key_sorted k (sort_by order l).
Proof.
  induction l as [|x l IH]; [constructor|]. cbn [map]. rewrite NoDup_cons. intros [Hx Hn].
  cbn [sort_by fold_right]. apply insert_by_sorted; [by apply IH|].
  rewrite (Permutation_map k (sort_by_perm order l)). by rewrite <- list_elem_of_In.
Qed.

Lemma key_sorted_unique l l' : key_sorted k l -> key_sorted k l' -> Permutation l l' -> l = l'.
Proof.
  intros Hl Hl'. apply (StronglySorted_unique_strong (fun x y => k x < k y)); [|done|done]. intros x y _ _. lia.
Qed.

Lemma sort_by_unique l l' : key_sorted k l' -> Permutation l l' -> sort_by order l = l'.
Proof.
  intros Hs Hp. apply key_sorted_unique; [|done|by rewrite sort_by_perm].
  apply sort_by_sorted. rewrite (Permutation_map k Hp). clear Hp. induction Hs as [|x l' Hs IH Hx]; [constructor|].
  cbn [map]. constructor; [|done]. rewrite list_elem_of_In, in_map_iff. intros (y & E & Hy).
  rewrite List.Forall_forall in Hx. specialize (Hx y Hy). lia.
Qed.
End sorting.

(** ** The versions of a directory *)

Section dir.
Context `{CL : CryptoLaws} `{K : Crc32c} `{KL : !Crc32cLaws K}.
Context (name : string) (mode : RecordMode) (Hmode : codec_ok (mk_codec mode 0)).

(** The frames of each version, by version. *)
Notation Versions := (list (Z * list entry)).

Definition codec_of (v : Z) : RecordCodec := mk_codec mode v.
Definition records_of (p : Z * list entry) : list TxRecord := map (decoded (codec_of p.1)) p.2.
Definition merged_records (vs : Versions) : list TxRecord := merge_versions r_t (map records_of vs).

Lemma codec_of_ok v : codec_ok (codec_of v).
Proof. exact Hmode. Qed.

(** A version in its file. *)
Definition stored (dir : Dir) (p : Z * list entry) : Prop :=
  exists b tail, om_get (version_path name p.1) dir = Some b /\
    sorted_file (codec_of p.1) b p.2 (records_of p) tail /\ fits b.

(** The directory holds these versions and no other. *)
Record dir_holds (dir : Dir) (vs : Versions) : Prop := {
  h_dir : om_wf dir;
  h_versions : om_wf vs;
  h_range : Forall (fun p => 0 <= p.1 < 2 ^ 64 /\ Forall (fun e : entry => small e.1) p.2) vs;
  h_file : Forall (stored dir) vs;
  h_legacy : is_some (om_get (version_path name 0) dir) = is_some (om_get 0 vs);
  h_names : forall e b v, In (e, b) dir -> version_of_entry name e = Some v ->
    e = version_path name v /\ is_some (om_get v vs) = true;
}.

Definition file_entry (p : Z * list entry) : Z * string := (p.1, version_path name p.1).

Lemma version_key_sorted vs : om_wf vs -> key_sorted fst (map file_entry vs).
Proof.
  induction 1 as [|p vs Hs IH Hp]; [constructor|]. cbn [map]. constructor; [done|].
  rewrite List.Forall_map. eapply List.Forall_impl; [|done]. intros q Hq. cbn.
  unfold olt in Hq. cbn in Hq. by apply Z.compare_lt_iff in Hq.
Qed.

Lemma is_some_In {V} v (m : list (Z * V)) : om_wf m -> is_some (om_get v m) = true <-> In v (map fst m).
Proof.
  intros Hw. split.
  - destruct (om_get v m) as [x|] eqn:E; [|done]. intros _. apply om_get_In in E. by apply (in_map fst) in E.
  - intros ([v' x] & <- & Hin)%in_map_iff. cbn [fst]. by rewrite (om_In_get _ _ _ Hw Hin).
Qed.

Lemma entry_positive e v : version_of_entry name e = Some v -> 0 < v.
Proof.
  unfold version_of_entry. destruct (str_strip_prefix _ e) as [s|]; [|done]. cbn [mbind option_bind].
  destruct (str_strip_suffix _ s) as [d|]; [|done]. cbn [mbind option_bind].
  destruct (parse_u64 d) as [x|]; [|done]. cbn [mbind option_bind]. destruct (Z.ltb_spec 0 x); [|done]. congruence.
Qed.

Definition scanned_entries (dir : Dir) : list (Z * string) :=
  filter_map (fun e => v ← version_of_entry name e.1; Some (v, e.1)) dir.

Lemma scanned_In dir v e : In (v, e) (scanned_entries dir) <-> version_of_entry name e = Some v /\ In e (map fst dir).
Proof.
  unfold scanned_entries. rewrite In_filter_map. split.
  - intros ([e' b] & Hin & E). cbn [fst] in E. destruct (version_of_entry name e') as [v'|] eqn:Hv; [|done].
    injection E as -> ->. split; [done|]. by apply (in_map fst) in Hin.
  - intros [Hv ([e' b] & <- & Hin)%in_map_iff]. exists (e', b). split; [done|]. cbn [fst] in *. by rewrite Hv.
Qed.

Lemma scanned_NoDup dir : NoDup (map fst dir) -> NoDup (scanned_entries dir).
Proof.
  induction dir as [|[e b] dir IH]; [constructor|]. cbn [map fst]. rewrite NoDup_cons. intros [He Hn].
  unfold scanned_entries. cbn [filter_map fst]. fold (scanned_entries dir). destruct (version_of_entry name e) as [v|]; [|by apply IH].
  cbn [mbind option_bind]. constructor; [|by apply IH]. rewrite list_elem_of_In, scanned_In, <- list_elem_of_In. tauto.
Qed.

(** Scanning the directory finds them in order. *)
Lemma version_files_holds dir vs : dir_holds dir vs -> version_files dir name = map file_entry vs.
Proof.
  intros H. unfold version_files. fold (scanned_entries dir). pose proof (h_versions _ _ H) as Hvs.
  apply (sort_by_unique fst); [by apply version_key_sorted|]. apply NoDup_Permutation.
  - apply NoDup_app. split_and!; [destruct (is_some _); [apply NoDup_singleton|constructor]| |].
    + intros [v e] Hin. rewrite list_elem_of_In, scanned_In. intros [Hv _]. apply entry_positive in Hv.
      apply list_elem_of_In in Hin. destruct (is_some _); [|done]. destruct Hin as [Hin|[]]. injection Hin as <- _. lia.
    + apply scanned_NoDup, om_wf_NoDup, H.
  - pose proof (version_key_sorted vs Hvs) as Hs. clear -Hs. induction Hs as [|p l Hs IH Hp]; [constructor|].
    constructor; [|done]. rewrite list_elem_of_In. rewrite List.Forall_forall in Hp. intros Hin%Hp. lia.
  - intros [v e]. rewrite !list_elem_of_In, in_app_iff, scanned_In, (in_map_iff file_entry), (h_legacy _ _ H). split.
    + intros [Hin|[Hv ([e' b] & <- & Hin)%in_map_iff]].
      * destruct (is_some (om_get 0 vs)) eqn:E; [|done]. apply (is_some_In _ _ Hvs) in E.
        destruct Hin as [Hin|[]]. injection Hin as <- <-. apply in_map_iff in E as (p & Hp & Hin).
        exists p. split; [|done]. unfold file_entry. by rewrite Hp.
      * destruct (h_names _ _ H _ _ _ Hin Hv) as [E Hs]. apply (is_some_In _ _ Hvs) in Hs.
        apply in_map_iff in Hs as (p & Hp & Hpin). exists p. split; [|done]. unfold file_entry. cbn [fst]. by rewrite Hp, E.
    + intros ([v' fs] & E & Hin). unfold file_entry in E. cbn [fst] in E. injection E as <- <-.
      pose proof (h_range _ _ H) as Hv. rewrite List.Forall_forall in Hv. destruct (Hv _ Hin) as [Hv' _].
      cbn [fst] in Hv'. destruct (decide (v' = 0)) as [->|Hn].
      * left. by rewrite (om_In_get _ _ _ Hvs Hin); left.
      * right. rewrite version_path_entry by lia. split; [done|].
        pose proof (h_file _ _ H) as Hf. rewrite List.Forall_forall in Hf. destruct (Hf _ Hin) as (b & tail & Hb & _). apply om_get_In in Hb. by apply (in_map fst) in Hb.
Qed.

(** ** Handles on the versions *)

Definition file_on (vs : Versions) (f : VersionedFile) : Prop :=
  exists fs, In (vf_version f, fs) vs /\ vf_path f = version_path name (vf_version f) /\
    handle_on (codec_of (vf_version f)) (vf_file f) fs.

Definition file_current (p : Z * list entry) (f : VersionedFile) : Prop :=
  vf_version f = p.1 /\ vf_path f = version_path name p.1 /\ handle_current (codec_of p.1) (vf_file f) p.2.

Lemma current_on vs p f : In p vs -> file_current p f -> file_on vs f.
Proof. destruct p as [v fs]. intros Hin (Hv & Hp & Ho & _). cbn [fst snd] in *. exists fs. by rewrite Hv. Qed.

Section reading.
Context (dir : Dir) (start : Z) (end_ : option Z).

Definition in_small (p : Z * list entry) : Prop := Forall (fun e : entry => small e.1) p.2.

Lemma current_index_ok p f : stored dir p -> in_small p -> file_current p f -> index_ok f.
Proof.
  intros (b & tail & _ & Hsf & _) Hb (_ & _ & _ & [Hfr _ Hg]). pose proof (sf_keys _ _ _ _ _ Hsf) as Hs. split.
  - unfold vf_frames. rewrite Hfr. by apply index_sorted.
  - done.
  - unfold vf_frames. rewrite Hfr. pose proof (index_of_ts 0 p.2) as E.
    assert (Forall small (map fi_t (index_of 0 p.2))) as H by (rewrite E; by apply List.Forall_map).
    rewrite List.Forall_map in H. exact H.
Qed.

Lemma records_ts p : stored dir p -> map r_t (records_of p) = map fst p.2.
Proof. intros (b & tail & _ & Hsf & _). symmetry. eapply lf_ts, Hsf. Qed.

Lemma current_index_ts p f : stored dir p -> file_current p f -> map fi_t (vf_frames f) = map r_t (records_of p).
Proof.
  intros Hst (_ & _ & _ & [Hfr _ _]). unfold vf_frames. by rewrite Hfr, index_of_ts, records_ts.
Qed.

(** The merge of the index has the numbers of the merge of the records. *)
Lemma merged_index_ts vs files : Forall (stored dir) vs -> Forall2 file_current vs files ->
  map (map fi_t) (map vf_frames files) = map (map r_t) (map records_of vs).
Proof.
  intros Hst. induction 1 as [|p f vs files Hc _ IH]; [done|]. inversion_clear Hst as [|? ? Hp Hst'].
  cbn [map]. rewrite IH by done. by rewrite (current_index_ts p f).
Qed.

Lemma merged_numbers vs files : Forall (stored dir) vs -> Forall2 file_current vs files ->
  map fi_t (merged_index files) = map r_t (merged_records vs) /\
  least_first fi_t (map vf_frames files) = least_first r_t (map records_of vs).
Proof.
  intros Hst Hc. pose proof (merged_index_ts _ _ Hst Hc) as E. unfold merged_index, merged_records. split.
  - etransitivity; [symmetry; exact (merge_map id fi_t (map vf_frames files))|]. rewrite E. exact (merge_map id r_t _).
  - etransitivity; [symmetry; exact (least_first_map id fi_t (map vf_frames files))|]. rewrite E.
    exact (least_first_map id r_t _).
Qed.

Lemma cut_range cutoff rs :
  memory_tx_range rs start (cut_end end_ cutoff) =
    List.filter (fun r => in_tx_range start end_ (r_t r)) (List.filter (fun r => r_t r <? cutoff) rs).
Proof.
  unfold memory_tx_range. rewrite filter_filter. apply filter_ext. intros r. unfold in_tx_range, cut_end.
  cbn [is_none_or]. destruct end_ as [e|]; cbn [is_none_or].
  - assert ((r_t r <? Z.min e cutoff) = (r_t r <? e) && (r_t r <? cutoff))%bool as ->
      by (destruct (Z.ltb_spec (r_t r) e), (Z.ltb_spec (r_t r) cutoff); cbn [andb];
          (apply Z.ltb_lt || apply Z.ltb_ge); lia).
    destruct (start <=? r_t r), (r_t r <? e), (r_t r <? cutoff); done.
  - destruct (start <=? r_t r), (r_t r <? cutoff); done.
Qed.

(** Reading the files in order, each up to its cutoff, reads the merge. *)
Lemma read_merged_current vs files : Forall (stored dir) vs -> Forall2 file_current vs files ->
  read_merged_range dir files (version_cutoffs files) start end_ = Ok (memory_tx_range (merged_records vs) start end_).
Proof.
  unfold read_merged_range. intros Hst Hc. revert Hst. induction Hc as [|p f vs files Hc Hcs IH]; [done|].
  intros Hst. inversion_clear Hst as [|? ? Hp Hst']. rewrite version_cutoffs_cons. cbn [zip_with read_files].
  destruct (merged_numbers _ _ Hst' Hcs) as [_ ->]. unfold merged_records. cbn [map]. rewrite merge_cons.
  unfold memory_tx_range at 1. rewrite List.filter_app. fold (merged_records vs).
  destruct Hp as (b & tail & Hb & Hsf & Hfit). destruct Hc as (Hv & Hpath & Ho & Hat). unfold dir_file.
  rewrite Hpath, Hb. cbn [ok_or mbind result_bind].
  assert (Hat' : handle_at (vf_file f) (take (length p.2) p.2)) by (by rewrite firstn_all).
  rewrite (indexed_range_prefix _ _ _ _ _ Hsf _ _ start _ Ho Hat' Hfit), IH by done. cbn [mbind result_bind].
  assert (length (records_of p) = length p.2) as Hl by apply length_map. rewrite <- Hl, firstn_all.
  by rewrite cut_range.
Qed.
End reading.

(** ** Refreshing *)

Definition cur (vs : Versions) (f : VersionedFile) : Prop := exists p, In p vs /\ file_current p f.

Lemma stored_In dir vs p : dir_holds dir vs -> In p vs -> stored dir p.
Proof. intros H Hin. pose proof (h_file _ _ H) as Hf. rewrite List.Forall_forall in Hf. auto. Qed.

Lemma refresh_files_ok dir vs files : dir_holds dir vs -> Forall (file_on vs) files ->
  exists files', refresh_files dir files = (files', Ok tt) /\ Forall (cur vs) files' /\
    map vf_version files' = map vf_version files.
Proof.
  intros H. induction 1 as [|f files (fs & Hin & Hpath & Ho) _ (files' & IH & Hc & Hm)].
  { exists []. done. }
  cbn [refresh_files]. destruct (stored_In _ _ _ H Hin) as (b & tail & Hb & Hsf & _). unfold dir_file.
  rewrite Hpath. cbn [fst snd] in *. rewrite Hb. cbn [ok_or mbind result_bind].
  destruct (refresh_current _ (codec_of_ok _) _ _ _ _ Hsf _ Ho) as (f' & -> & Hcur & _). rewrite IH.
  eexists. split; [done|]. split; [|cbn [map vf_version]; by rewrite Hm].
  constructor; [|done]. exists (vf_version f, fs). split; [done|]. by split_and!.
Qed.

Lemma open_file_ok dir p writable : stored dir p -> om_wf dir ->
  exists f, open_file dir mode p.1 (version_path name p.1) writable =
      Ok (f, if writable then om_insert (version_path name p.1) (frames_of p.2) dir else dir) /\
    file_current p f /\ ix_writable (vf_file f) = writable.
Proof.
  intros (b & tail & Hb & Hsf & _) Hw. unfold open_file. rewrite Hb.
  destruct (indexed_open_ok _ (codec_of_ok _) _ _ _ _ Hsf writable writable) as (f & E & Hc & Hwr).
  unfold codec_of in E. rewrite E. cbn [mbind result_bind].
  eexists. split; [by destruct writable|]. split; [by split_and!|done].
Qed.

Lemma open_new_files_ok dir vs sub files : dir_holds dir vs -> incl sub vs -> Forall (cur vs) files ->
  NoDup (map vf_version files) ->
  exists files', open_new_files dir mode files (map file_entry sub) = (files', Ok tt) /\ Forall (cur vs) files' /\
    NoDup (map vf_version files') /\
    forall v, In v (map vf_version files') <-> In v (map vf_version files) \/ In v (map fst sub).
Proof.
  intros H. revert files. induction sub as [|p sub IH]; intros files Hi Hc Hn.
  { exists files. split_and!; [done|done|done|]. intros v. cbn. tauto. }
  assert (Hp : In p vs) by (apply Hi; by left). assert (Hi' : incl sub vs) by (intros q Hq; apply Hi; by right).
  cbn [map open_new_files file_entry].
  destruct (forallb _ files) eqn:E.
  - destruct (open_file_ok dir p false (stored_In _ _ _ H Hp) (h_dir _ _ H)) as (f & -> & Hf & _).
    assert (Hv : vf_version f = p.1) by apply Hf.
    destruct (IH (files ++ [f]) Hi') as (files' & -> & Hc' & Hn' & Hv').
    + apply Forall_app. split; [done|]. constructor; [|constructor]. by exists p.
    + rewrite map_app. apply NoDup_app. split_and!; [done| |apply NoDup_singleton]. intros v Hv'.
      cbn [map]. rewrite list_elem_of_singleton, Hv. intros ->. apply list_elem_of_In, in_map_iff in Hv' as (g & Hg & Hin).
      rewrite forallb_forall in E. specialize (E g Hin). rewrite Hg, Z.eqb_refl in E. done.
    + exists files'. split_and!; [done|done|done|]. intros v. rewrite Hv', map_app, in_app_iff. cbn [map In fst]. rewrite Hv. tauto.
  - destruct (IH files Hi' Hc Hn) as (files' & -> & Hc' & Hn' & Hv').
    exists files'. split_and!; [done|done|done|]. intros v. rewrite Hv'. cbn [map In].
    assert (In p.1 (map vf_version files)).
    { apply Bool.not_true_iff_false in E. rewrite forallb_forall in E.
      destruct (in_dec Z.eq_dec p.1 (map vf_version files)) as [|Hnot]; [done|]. destruct E. intros g Hg.
      apply negb_true_iff, Z.eqb_neq. intros Heq. apply Hnot. rewrite <- Heq. by apply in_map. }
    naive_solver.
Qed.

Lemma versions_sorted (vs : Versions) : om_wf vs -> key_sorted id (map fst vs).
Proof.
  intros Hw. apply version_key_sorted in Hw. unfold file_entry in Hw. induction vs as [|p vs IH]; [constructor|].
  cbn [map] in *. inversion_clear Hw as [|? ? Hs Hp]. constructor; [by apply IH|].
  rewrite List.Forall_map in *. exact Hp.
Qed.

(** Handles sorted by version, one for every version, are the versions' own. *)
Lemma current_all vs files : om_wf vs -> Forall (cur vs) files -> key_sorted vf_version files ->
  (forall v, In v (map vf_version files) <-> In v (map fst vs)) -> Forall2 file_current vs files.
Proof.
  intros Hw Hc Hs Hv.
  assert (Hm : map vf_version files = map fst vs).
  { assert (Hs' : key_sorted id (map vf_version files)).
    { clear -Hs. induction Hs as [|f files Hs IH Hf]; [constructor|]. cbn [map]. constructor; [done|].
      rewrite List.Forall_map. exact Hf. }
    assert (Hnd : forall l, key_sorted id l -> NoDup l).
    { intros l. induction 1 as [|x l Hl IH Hx]; [constructor|]. constructor; [|done]. rewrite list_elem_of_In.
      rewrite List.Forall_forall in Hx. intros Hin%Hx. cbn in Hin. lia. }
    pose proof (versions_sorted vs Hw) as Hsv. apply (key_sorted_unique id); [done|done|].
    apply NoDup_Permutation; [by apply Hnd|by apply Hnd|]. intros v. by rewrite !list_elem_of_In. }
  clear Hs Hv. assert (Hin : incl vs vs) by (by intros p).
  revert Hin Hm. generalize vs at 1 3 4. intros vs'. revert vs'.
  induction Hc as [|f files (q & Hq & Hf) _ IH]; intros [|p vs'] Hin Hm; try done.
  cbn [map] in Hm. injection Hm as Hv Hm. constructor.
  - assert (q = p) as ->; [|done]. assert (q.1 = p.1) as E by (rewrite <- Hv; symmetry; apply Hf).
    assert (In p vs) as Hp by (apply Hin; by left). destruct p as [v fs], q as [v' fs']. cbn [fst] in E. subst v'.
    apply (om_In_get _ _ _ Hw) in Hp, Hq. congruence.
  - apply IH; [|done]. intros x Hx. apply Hin. by right.
Qed.

Record open_log (vs : Versions) (l : VersionedLog) : Prop := {
  ol_name : vl_name l = name;
  ol_mode : vl_mode l = mode;
  ol_files : Forall (file_on vs) (vl_files l);
  ol_sorted : key_sorted vf_version (vl_files l);
}.

Lemma key_sorted_NoDup {A} (k : A -> Z) l : key_sorted k l -> NoDup (map k l).
Proof.
  induction 1 as [|x l Hl IH Hx]; [constructor|]. cbn [map]. constructor; [|done]. rewrite list_elem_of_In, in_map_iff.
  intros (y & E & Hy). rewrite List.Forall_forall in Hx. specialize (Hx y Hy). lia.
Qed.

Lemma refresh_version_files_ok dir vs l : dir_holds dir vs -> open_log vs l ->
  exists files, refresh_version_files dir (vl_name l) (vl_mode l) (vl_files l) = (files, Ok tt) /\
    Forall2 file_current vs files.
Proof.
  intros H [-> -> Hf Hs]. unfold refresh_version_files.
  destruct (refresh_files_ok dir vs _ H Hf) as (files1 & -> & Hc1 & Hm1).
  rewrite (version_files_holds dir vs H).
  assert (Hn : NoDup (map vf_version files1)) by (rewrite Hm1; by apply key_sorted_NoDup).
  destruct (open_new_files_ok dir vs vs files1 H (incl_refl vs) Hc1 Hn) as (files2 & -> & Hc2 & Hn2 & Hv2).
  eexists. split; [done|]. pose proof (sort_by_perm vf_order files2) as Hp.
  apply current_all; [apply H| |by apply (sort_by_sorted vf_version)|].
  - rewrite List.Forall_forall in *. intros f Hin. apply Hc2. by rewrite <- Hp.
  - intros v. rewrite (Permutation_map vf_version Hp), Hv2, Hm1. split; [|tauto]. intros [Hin|Hin]; [|done].
    apply in_map_iff in Hin as (f & <- & Hin). rewrite List.Forall_forall in Hf.
    destruct (Hf f Hin) as (fs & Hfs & _). by apply (in_map fst) in Hfs.
Qed.

Lemma all_index_ok dir vs files : dir_holds dir vs -> Forall2 file_current vs files -> Forall index_ok files.
Proof.
  intros H Hc. pose proof (h_file _ _ H) as Hst. pose proof (h_range _ _ H) as Hr. clear H.
  induction Hc as [|p f vs files Hc _ IH]; [constructor|]. inversion_clear Hst. inversion_clear Hr as [|? ? [_ ?] ?].
  constructor; [|by apply IH]. by eapply current_index_ok.
Qed.

Lemma merged_contiguity dir vs files : dir_holds dir vs -> Forall2 file_current vs files ->
  validate_merged_contiguity fi_t (merged_index files) = validate_merged_contiguity r_t (merged_records vs).
Proof.
  intros H Hc. destruct (merged_numbers dir vs files (h_file _ _ H) Hc) as [E _]. by rewrite (contiguity_map fi_t), (contiguity_map r_t), E.
Qed.

(** What a reader sees. *)
Definition merged_view (vs : Versions) (start : Z) (end_ : option Z) : result LogError (list TxRecord) :=
  if range_empty start end_ then Ok []
  else _ ← validate_merged_contiguity r_t (merged_records vs); Ok (memory_tx_range (merged_records vs) start end_).

Lemma with_files_self l : with_files l (vl_files l) (vl_next_t l) = l.
Proof. by destruct l. Qed.

Lemma current_sorted vs files : om_wf vs -> Forall2 file_current vs files ->
  Forall (file_on vs) files /\ key_sorted vf_version files.
Proof.
  intros Hw Hc. split.
  - assert (Hin : incl vs vs) by (by intros p). revert Hin. generalize vs at 2 3. intros all Hin.
    induction Hc as [|p f vs files Hc _ IH]; [constructor|]. inversion_clear Hw.
    constructor; [eapply current_on; [apply Hin; by left|done]|]. apply IH; [done|]. intros q Hq. apply Hin. by right.
  - apply version_key_sorted in Hw. induction Hc as [|p f vs files Hc Hcs IH]; [constructor|].
    cbn [map] in Hw. inversion_clear Hw as [|? ? Hs Hp]. constructor; [by apply IH|]. clear -Hc Hcs Hp.
    assert (Hv : vf_version f = p.1) by apply Hc. induction Hcs as [|q g vs files Hq _ IH]; [constructor|].
    cbn [map] in Hp. inversion_clear Hp as [|? ? Hpq Hp']. constructor; [|by apply IH].
    assert (vf_version g = q.1) as -> by apply Hq. rewrite Hv. exact Hpq.
Qed.

Lemma versioned_range_ok dir vs l start end_ : dir_holds dir vs -> open_log vs l -> Forall index_ok (vl_files l) ->
  validate_merged_contiguity fi_t (merged_index (vl_files l)) = Ok tt ->
  end_ = None \/ Forall2 file_current vs (vl_files l) ->
  exists files, versioned_tx_range l dir start end_ = (with_files l files (vl_next_t l), merged_view vs start end_) /\
    open_log vs (with_files l files (vl_next_t l)).
Proof.
  intros H Hl Hi Hv Hend. unfold versioned_tx_range, merged_view.
  destruct (range_empty start end_). { exists (vl_files l). by rewrite with_files_self. }
  unfold read_merged. rewrite (validated_cutoffs_merged _ Hi), Hv. cbn [mbind result_bind].
  destruct (range_is_merged_indexed (vl_files l) (version_cutoffs (vl_files l)) end_) as [ready|e] eqn:Er.
  2:{ unfold range_is_merged_indexed in Er. destruct end_; [|done]. by rewrite (merged_next _ Hi) in Er. }
  cbn [mbind result_bind]. destruct ready.
  - destruct Hend as [->|Hc]; [done|]. exists (vl_files l). rewrite with_files_self. split; [|done]. f_equal.
    rewrite (read_merged_current dir start end_ vs _ (h_file _ _ H) Hc).
    by rewrite <- (merged_contiguity dir vs _ H Hc), Hv.
  - destruct (refresh_version_files_ok dir vs l H Hl) as (files & -> & Hc). exists files. cbn [mbind result_bind].
    rewrite (validated_cutoffs_merged _ (all_index_ok _ _ _ H Hc)), (merged_contiguity _ _ _ H Hc).
    destruct (validate_merged_contiguity r_t (merged_records vs)) as [[]|e]; cbn [mbind result_bind].
    + rewrite (read_merged_current dir start end_ vs _ (h_file _ _ H) Hc). split; [done|].
      destruct (current_sorted _ _ (h_versions _ _ H) Hc). by destruct Hl.
    + split; [done|]. destruct (current_sorted _ _ (h_versions _ _ H) Hc). by destruct Hl.
Qed.

(** ** Opening for writing *)

(** Replacing a version's file, or adding it. *)
Lemma holds_write dir vs w fs b tail : dir_holds dir vs -> 0 <= w < 2 ^ 64 -> Forall (fun e : entry => small e.1) fs ->
  sorted_file (codec_of w) b fs (records_of (w, fs)) tail -> fits b ->
  dir_holds (om_insert (version_path name w) b dir) (om_insert w fs vs).
Proof.
  intros H Hw Hsm Hsf Hfit. pose proof (h_range _ _ H) as Hr. pose proof (h_file _ _ H) as Hf.
  rewrite List.Forall_forall in Hr, Hf. pose proof (om_insert_wf w fs vs (h_versions _ _ H)) as Hvs. split.
  - by apply om_insert_wf, H.
  - done.
  - apply List.Forall_forall. intros p [-> |Hp]%In_om_insert; [done|auto].
  - apply List.Forall_forall. intros [v fs'] Hp. pose proof Hp as Hg. apply (om_In_get _ _ _ Hvs) in Hg.
    destruct (decide (v = w)) as [->|Hn].
    + rewrite om_get_insert_eq in Hg. injection Hg as <-. exists b, tail. split; [apply om_get_insert_eq|done].
    + rewrite om_get_insert_ne in Hg by done. apply om_get_In in Hg.
      destruct (Hf _ Hg) as (b' & tail' & Hb' & Hsf'). exists b', tail'. split; [|done]. cbn [fst] in *.
      rewrite om_get_insert_ne; [done|]. intros E. apply Hn. destruct (Hr _ Hg) as [Hv _].
      by apply (version_path_inj name).
  - destruct (decide (w = 0)) as [->|Hn]; [by rewrite !om_get_insert_eq|].
    rewrite !om_get_insert_ne; [apply H|lia|]. intros E%version_path_inj; lia.
  - intros e b' v [E|Hin]%In_om_insert Hv.
    + injection E as -> ->. destruct (decide (w = 0)) as [->|Hn]; [by rewrite version_path_legacy in Hv|].
      rewrite version_path_entry in Hv by lia. injection Hv as <-. split; [done|]. by rewrite om_get_insert_eq.
    + destruct (h_names _ _ H _ _ _ Hin Hv) as [E Hs]. split; [done|].
      destruct (decide (v = w)) as [->|Hn]; [by rewrite om_get_insert_eq|by rewrite om_get_insert_ne].
Qed.

Lemma sorted_file_whole codec b fs rs tail : sorted_file codec b fs rs tail -> sorted_file codec (frames_of fs) fs rs [].
Proof. intros [_ _ Hr Hs]. split; [by rewrite app_nil_r|apply torn_nil|done|done]. Qed.

Lemma holds_truncate dir vs w fs : dir_holds dir vs -> In (w, fs) vs ->
  dir_holds (om_insert (version_path name w) (frames_of fs) dir) vs.
Proof.
  intros H Hin. destruct (stored_In _ _ _ H Hin) as (b & tail & _ & Hsf & Hfit). cbn [fst snd] in *.
  pose proof (h_range _ _ H) as Hr. rewrite List.Forall_forall in Hr. destruct (Hr _ Hin) as [Hw Hsm].
  rewrite <- (om_insert_same w fs vs (h_versions _ _ H) (om_In_get _ _ _ (h_versions _ _ H) Hin)).
  apply (holds_write dir vs w fs _ []); [done|done|done|by eapply sorted_file_whole|].
  unfold fits in *. rewrite (sf_file _ _ _ _ _ Hsf), length_app in Hfit. lia.
Qed.

Definition writes (w : Z) (f : VersionedFile) : Prop := ix_writable (vf_file f) = bool_decide (vf_version f = w).

Lemma open_files_ok dir vs sub w : dir_holds dir vs -> incl sub vs -> om_wf sub ->
  exists files dir', open_files dir mode (Some w) (map file_entry sub) = Ok (files, dir') /\ dir_holds dir' vs /\
    Forall2 file_current sub files /\ Forall (writes w) files /\
    (forall fs, In (w, fs) sub -> om_get (version_path name w) dir' = Some (frames_of fs)) /\
    (~ In w (map fst sub) -> dir' = dir).
Proof.
  revert dir. induction sub as [|[v fs] sub IH]; intros dir H Hi Hw.
  { exists [], dir. split_and!; try done. }
  assert (Hp : In (v, fs) vs) by (apply Hi; by left). assert (Hi' : incl sub vs) by (intros q Hq; apply Hi; by right).
  apply om_wf_cons in Hw as [Hw Hlt]. cbn [map open_files file_entry fst].
  set (writable := bool_decide (Some w = Some v)).
  destruct (open_file_ok dir (v, fs) writable (stored_In _ _ _ H Hp) (h_dir _ _ H)) as (f & E & Hf & Hfw).
  cbn [fst snd] in E. rewrite E. cbn [mbind result_bind]. set (dir1 := if writable then _ else dir) in *.
  assert (H1 : dir_holds dir1 vs) by (unfold dir1; destruct writable; [by apply holds_truncate|done]).
  destruct (IH dir1 H1 Hi' Hw) as (files & dir' & -> & H' & Hc & Hws & Hown & Hsame). cbn [mbind result_bind].
  assert (Hfv : vf_version f = v) by apply Hf.
  assert (Hnot : ~ In v (map fst sub)).
  { intros (q & E' & Hin)%in_map_iff. specialize (Hlt _ Hin). rewrite E' in Hlt. exact (Z.lt_irrefl v (proj1 (Z.compare_lt_iff _ _) Hlt)). }
  exists (f :: files), dir'. split_and!; [done|done|by constructor| | |].
  - constructor; [|done]. unfold writes. rewrite Hfw, Hfv. unfold writable. apply bool_decide_ext. naive_solver.
  - intros fs' [E'|Hin]; [|by apply Hown]. injection E' as -> ->. rewrite (Hsame Hnot). unfold dir1, writable.
    rewrite bool_decide_true by done. apply om_get_insert_eq.
  - cbn [map In fst]. intros Hn. rewrite Hsame by tauto. unfold dir1, writable. rewrite bool_decide_false; [done|].
    intros [= ->]. tauto.
Qed.

Definition next_of (rs : list TxRecord) : Z := match last rs with Some r => r_t r + 1 | None => 1 end.

(** The log of a writer of version [w]: its own file is open for writing, ends with its last
    whole frame, and the next transaction follows it. *)
Record writer (dir : Dir) (vs : Versions) (w : Z) (fs : list entry) (l : VersionedLog) : Prop := {
  wr_open : open_log vs l;
  wr_version : vl_write_version l = Some w;
  wr_held : In (w, fs) vs;
  wr_file : exists before f after, vl_files l = before ++ f :: after /\ file_current (w, fs) f /\
    ix_writable (vf_file f) = true;
  wr_clean : om_get (version_path name w) dir = Some (frames_of fs);
  wr_next : match last fs with Some e => e.1 + 1 = vl_next_t l | None => True end;
}.

Definition with_version (w : Z) (vs : Versions) : Versions :=
  if is_some (om_get w vs) then vs else om_insert w [] vs.

Lemma sorted_file_empty codec : sorted_file codec [] [] [] [].
Proof. split; [done|apply torn_nil|constructor|constructor]. Qed.

Lemma merged_with_version w vs : om_wf vs -> merged_records (with_version w vs) = merged_records vs /\
  least_first r_t (map records_of (with_version w vs)) = least_first r_t (map records_of vs).
Proof.
  intros Hw. unfold with_version, merged_records. destruct (om_get w vs) as [fs|] eqn:E; cbn [is_some]; [done|].
  induction vs as [|[v fs] vs IH]; [done|]. apply om_wf_cons in Hw as [Hw _]. cbn [om_get om_insert] in *.
  destruct (cmp w v) eqn:Ec; [done| |].
  - cbn [map]. rewrite merge_cons. done.
  - destruct (IH Hw E) as [IH1 IH2]. cbn [map]. rewrite !merge_cons. cbn [least_first]. by rewrite IH1, IH2.
Qed.

Lemma merged_last_numbers dir vs files : dir_holds dir vs -> Forall2 file_current vs files ->
  match last (merged_index files) with Some x => fi_t x + 1 | None => 1 end = next_of (merged_records vs).
Proof.
  intros H Hc. destruct (merged_numbers dir vs files (h_file _ _ H) Hc) as [E _].
  apply (f_equal last) in E. unfold next_of.
  assert (forall {A} (t : A -> Z) l, last (map t l) = t <$> last l) as Hl by (intros; apply fmap_last).
  rewrite !Hl in E. destruct (last (merged_index files)), (last (merged_records vs)); simplify_eq/=; [by rewrite E|done].
Qed.

Lemma path_absent dir vs w : dir_holds dir vs -> 0 <= w < 2 ^ 64 -> om_get w vs = None ->
  om_get (version_path name w) dir = None.
Proof.
  intros H Hw E. destruct (om_get (version_path name w) dir) as [b|] eqn:Eb; [|done].
  destruct (decide (w = 0)) as [->|Hn].
  - pose proof (h_legacy _ _ H) as Hl. by rewrite Eb, E in Hl.
  - apply om_get_In in Eb. destruct (h_names _ _ H _ _ w Eb) as [_ Hs]; [apply version_path_entry; lia|].
    by rewrite E in Hs.
Qed.

Lemma open_file_new dir w : om_get (version_path name w) dir = None ->
  exists f, open_file dir mode w (version_path name w) true = Ok (f, om_insert (version_path name w) [] dir) /\
    file_current (w, []) f /\ ix_writable (vf_file f) = true.
Proof.
  intros E. unfold open_file. rewrite E. change (indexed_open None true true) with (indexed_open (Some []) true true).
  destruct (indexed_open_ok _ (codec_of_ok w) _ _ _ _ (sorted_file_empty (codec_of w)) true true) as (f & Ef & Hc & Hwr).
  unfold codec_of in Ef. rewrite Ef. cbn [mbind result_bind]. eexists. split; [done|]. split; [by split_and!|done].
Qed.

Lemma Forall2_In_l {A B} (P : A -> B -> Prop) l l' x : Forall2 P l l' -> In x l -> exists y, In y l' /\ P x y.
Proof.
  induction 1 as [|a b l l' Hab _ IH]; [done|]. intros [->|Hin]; [exists b; split; [by left|done]|].
  destruct (IH Hin) as (y & Hy & HP). exists y. split; [by right|done].
Qed.

Lemma Forall2_In_r {A B} (P : A -> B -> Prop) l l' y : Forall2 P l l' -> In y l' -> exists x, In x l /\ P x y.
Proof.
  induction 1 as [|a b l l' Hab _ IH]; [done|]. intros [->|Hin]; [exists a; split; [by left|done]|].
  destruct (IH Hin) as (x & Hx & HP). exists x. split; [by right|done].
Qed.

(** The file of a version that has none joins the others. *)
Lemma current_insert vs w files f : om_wf vs -> om_get w vs = None -> Forall2 file_current vs files ->
  file_current (w, []) f -> Forall2 file_current (om_insert w [] vs) (sort_by vf_order (files ++ [f])).
Proof.
  intros Hw E Hc Hf. pose proof (sort_by_perm vf_order (files ++ [f])) as Hp.
  assert (Hfv : vf_version f = w) by apply Hf. pose proof (om_insert_wf w [] vs Hw) as Hw'.
  assert (Hvs : forall v, In v (map vf_version files) <-> In v (map fst vs)).
  { intros v. assert (map vf_version files = map fst vs) as ->; [|done]. clear -Hc.
    induction Hc as [|p g vs files Hg _ IH]; [done|]. cbn [map]. f_equal; [apply Hg|done]. }
  assert (Hnew : ~ In w (map vf_version files)).
  { rewrite Hvs, <- is_some_In by done. by rewrite E. }
  apply current_all; [done| | |].
  - apply List.Forall_forall. intros g Hg. rewrite Hp, in_app_iff in Hg. destruct Hg as [Hg|[<-|[]]].
    + destruct (Forall2_In_r _ _ _ _ Hc Hg) as (p & Hin & Hpg). exists p. split; [|done]. destruct p as [v fs].
      apply om_get_In. rewrite om_get_insert_ne; [by apply om_In_get|]. intros ->. apply Hnew, Hvs. by apply (in_map fst) in Hin.
    + exists (w, []). split; [|done]. by apply om_get_In, om_get_insert_eq.
  - apply (sort_by_sorted vf_version). rewrite map_app. apply NoDup_app. split_and!.
    + apply key_sorted_NoDup. by apply (current_sorted vs files).
    + intros v Hv. cbn [map]. rewrite list_elem_of_singleton, Hfv. intros ->. by apply Hnew, list_elem_of_In.
    + apply NoDup_singleton.
  - intros v. rewrite (Permutation_map vf_version Hp), map_app, in_app_iff, Hvs. cbn [map In]. rewrite Hfv.
    rewrite <- !is_some_In by done. destruct (decide (v = w)) as [->|Hn].
    + rewrite om_get_insert_eq. tauto.
    + rewrite om_get_insert_ne by done. split; [intros [?|[?|[]]]; [done|congruence]|tauto].
Qed.

Lemma versioned_open_files dir vs w cipher : dir_holds dir vs -> 0 <= w < 2 ^ 64 ->
  LogRecord.mode (codec_new cipher 0) = mode ->
  exists files dir' fs, dir_holds dir' (with_version w vs) /\ In (w, fs) (with_version w vs) /\
    Forall2 file_current (with_version w vs) files /\ Forall (writes w) files /\
    om_get (version_path name w) dir' = Some (frames_of fs) /\
    versioned_open dir name w cipher =
      (_ ← validate_merged_contiguity r_t (merged_records vs);
       Ok (mk_versioned_log name mode files (Some w) (next_of (merged_records vs)), dir')).
Proof.
  intros H Hw Hm.
  assert (exists files dir' fs, dir_holds dir' (with_version w vs) /\ In (w, fs) (with_version w vs) /\
    Forall2 file_current (with_version w vs) files /\ Forall (writes w) files /\
    om_get (version_path name w) dir' = Some (frames_of fs) /\
    versioned_open dir name w cipher =
      (cutoffs ← validated_version_cutoffs files;
       next_t ← merged_next_t files cutoffs;
       Ok (mk_versioned_log name mode files (Some w) next_t, dir'))) as
    (files & dir' & fs & H' & Hin & Hc & Hws & Hown & ->).
  2:{ exists files, dir', fs. split_and!; try done. pose proof (all_index_ok _ _ _ H' Hc) as Hi.
      rewrite (validated_cutoffs_merged _ Hi), (merged_contiguity _ _ _ H' Hc).
      rewrite (proj1 (merged_with_version w vs (h_versions _ _ H))).
      destruct (validate_merged_contiguity r_t (merged_records vs)) as [[]|e]; [|done]. cbn [mbind result_bind].
      rewrite (merged_next _ Hi), (merged_last_numbers _ _ _ H' Hc). cbn [mbind result_bind].
      by rewrite (proj1 (merged_with_version w vs (h_versions _ _ H))). }
  unfold versioned_open. rewrite Hm, (version_files_holds _ _ H).
  destruct (open_files_ok dir vs vs w H (incl_refl vs) (h_versions _ _ H)) as (files & dir' & -> & H' & Hc & Hws & Hown & Hsame).
  cbn [mbind result_bind]. unfold with_version. destruct (om_get w vs) as [fs|] eqn:E; cbn [is_some].
  - apply om_get_In in E. exists files, dir', fs. split_and!; try done; [by apply Hown|].
    assert (existsb (fun file => vf_version file =? w) files = true) as ->; [|done]. apply existsb_exists.
    destruct (Forall2_In_l _ _ _ _ Hc E) as (f & Hf & Hv & _). exists f. split; [done|]. cbn [fst] in Hv. rewrite Hv. apply Z.eqb_refl.
  - assert (existsb (fun file => vf_version file =? w) files = false) as ->.
    { apply not_true_iff_false. rewrite existsb_exists. intros (f & Hf & Hv%Z.eqb_eq).
      destruct (Forall2_In_r _ _ _ _ Hc Hf) as ([v fs] & Hin & Hvf & _). cbn [fst] in Hvf.
      apply (om_In_get _ _ _ (h_versions _ _ H)) in Hin. congruence. }
    cbn [negb]. destruct (open_file_new dir' w (path_absent _ _ _ H' Hw E)) as (f & -> & Hf & Hfw). cbn [mbind result_bind].
    assert (Hin : In (w, []) (om_insert w [] vs)) by (by apply om_get_In, om_get_insert_eq).
    eexists _, _, []. split_and!; [| |by apply current_insert; [apply H| | |]| | |done].
    + eapply (holds_write dir' vs w [] [] []); [done|done|constructor|apply sorted_file_empty|]. unfold fits. cbn. lia.
    + done.
    + apply List.Forall_forall. intros g Hg. rewrite (sort_by_perm vf_order), in_app_iff in Hg.
      destruct Hg as [Hg|[<-|[]]]; [rewrite List.Forall_forall in Hws; auto|]. unfold writes. rewrite Hfw.
      symmetry. apply bool_decide_true, Hf.
    + apply om_get_insert_eq.
Qed.

(** ** Appending *)

Definition pushed_entry (r : TxRecord) (p : bytes) : entry := (r_t r, (false, p)).

Lemma append_handle codec rand io f fs r : codec_ok codec -> rand_ok rand -> record_wf r ->
  handle_current codec f fs -> ix_writable f = true ->
  match codec_encode rand codec r with
  | Err e => indexed_append rand io f (frames_of fs) r = (f, frames_of fs, Err e)
  | Ok p => exists f', handle_current codec f' (fs ++ [pushed_entry r p]) /\ ix_writable f' = true /\
      indexed_append rand io f (frames_of fs) r =
        match io with
        | Written => (f', frames_of fs ++ frame_of false p, Ok tt)
        | WriteFailed n e => (poison f, frames_of fs ++ take n (frame_of false p), Err (LogError.Io e))
        | SyncFailed e => (poison f, frames_of fs ++ frame_of false p, Err (LogError.Io e))
        end
  end.
Proof.
  intros Hc Hrand Hwf [[_ Hcf Hh] [Hfr Hd Hg]] Hw. unfold indexed_append, ensure_healthy. rewrite Hh, Hw, Hcf, Hd, Nat.eqb_refl.
  cbn [ensure mbind result_bind]. destruct (codec_encode rand codec r) as [p|e] eqn:Hp; [|done]. cbn [mbind result_bind].
  destruct (encode_record_codec _ _ _ _ Hc Hrand Hwf Hp) as (_ & _ & Hl). rewrite append_framed_eq by done. cbn [app].
  set (gap := if (is_none (ix_first_gap f) &&
      is_some_and (last (ix_frames f)) (fun previous => not_next (fi_t previous) (r_t r)))%bool
    then Some (length (ix_frames f)) else ix_first_gap f).
  set (f' := mk_indexed true false (ix_frames f ++ _) _ gap codec).
  exists f'. split_and!; [|done|destruct io; [|done|done]]; [|done].
  assert (Hat : handle_at f' (fs ++ [pushed_entry r p])).
  { split; cbn [f' ix_frames ix_durable_len ix_first_gap].
    - rewrite Hfr, index_of_app, length_frame_of. done.
    - rewrite frames_of_app, length_app, frames_of_cons, length_app. cbn. lia.
    - unfold gap. rewrite first_gap_app, Hg. unfold extension_first_gap. cbn [head].
      destruct (first_gap_index (ix_frames f)); [done|]. cbn [is_none is_some negb andb].
      destruct (last (ix_frames f)) as [x|]; [|done]. cbn [is_some_and]. destruct (not_next _ _); cbn; [by rewrite Nat.add_0_r|done]. }
  split; [|done]. split; [|done|done]. exists (length (fs ++ [pushed_entry r p])). by rewrite firstn_all.
Qed.

Lemma key_sorted_snoc {A} (k : A -> Z) l x : key_sorted k l -> (forall y, last l = Some y -> k y < k x) -> key_sorted k (l ++ [x]).
Proof.
  induction 1 as [|y l Hs IH Hy]; intros Hx; [by repeat constructor|]. rewrite <- app_comm_cons.
  assert (Hlt : forall z, last (y :: l) = Some z -> k z < k x) by done.
  constructor.
  - apply IH. intros z Hz. apply Hx. by rewrite last_cons, Hz.
  - apply Forall_app. split; [done|]. constructor; [|constructor].
    destruct (last l) as [z|] eqn:Hz.
    + assert (k y < k z); [|specialize (Hlt z); rewrite last_cons, Hz in Hlt; specialize (Hlt eq_refl); lia].
      rewrite List.Forall_forall in Hy. apply Hy. apply last_Some in Hz as [l' ->]. apply in_app_iff. right. by left.
    + apply Hlt. by rewrite last_cons, Hz.
Qed.

(** A whole frame more in a version's file. *)
Lemma stored_push codec rand fs rs r p : codec_ok codec -> rand_ok rand -> record_wf r -> codec_encode rand codec r = Ok p ->
  sorted_file codec (frames_of fs) fs rs [] -> (forall e, last fs = Some e -> e.1 < r_t r) ->
  sorted_file codec (frames_of fs ++ frame_of false p) (fs ++ [pushed_entry r p]) (rs ++ [r]) [].
Proof.
  intros Hc Hrand Hwf Hp [_ _ Hr Hs] Hlt. destruct (encode_record_codec _ _ _ _ Hc Hrand Hwf Hp) as (Hd & _ & Hl). split.
  - rewrite frames_of_app, frames_of_cons. cbn [pushed_entry fst snd]. by rewrite !app_nil_r.
  - apply torn_nil.
  - apply Forall2_app; [done|]. constructor; [|constructor]. split_and!; [done|done|]. by apply Hd, reads_refl.
  - apply key_sorted_snoc; [done|]. intros y Hy.
    assert (Hts : map fst fs = map r_t rs) by (by eapply lf_ts).
    apply (f_equal last) in Hts.
    assert (forall {A} (t : A -> Z) l, last (map t l) = t <$> last l) as Hl' by (intros; apply fmap_last).
    rewrite !Hl', Hy in Hts. destruct (last fs) as [e|] eqn:He; [|done]. cbn in Hts. injection Hts as <-. by apply Hlt.
Qed.

Lemma find_writer_ok before f after cutoffs : length cutoffs = length (before ++ f :: after) ->
  Forall (fun g => vf_version g <> vf_version f) before ->
  exists c, find_writer (vf_version f) (before ++ f :: after) cutoffs = Some (before, (f, c), after).
Proof.
  revert cutoffs. induction before as [|g before IH]; intros [|c cutoffs] Hl Hb; try done.
  - exists c. cbn [app find_writer]. by rewrite Z.eqb_refl.
  - inversion_clear Hb as [|? ? Hg Hb']. cbn [app length] in Hl. injection Hl as Hl.
    destruct (IH cutoffs Hl Hb') as [c' E]. exists c'. cbn [app find_writer].
    by rewrite (proj2 (Z.eqb_neq _ _) Hg), E.
Qed.

Lemma sorted_others files before f after : key_sorted vf_version files -> files = before ++ f :: after ->
  Forall (fun g => vf_version g <> vf_version f) before /\ Forall (fun g => vf_version g <> vf_version f) after.
Proof.
  intros Hs ->. induction before as [|g before IH]; inversion_clear Hs as [|? ? Hs' Hx]; cbn [app] in *.
  - split; [constructor|]. eapply List.Forall_impl; [|done]. intros g Hg. cbn in Hg. lia.
  - destruct (IH Hs') as [IH1 IH2]. split; [|done]. constructor; [|done]. apply Forall_app in Hx as [_ Hx].
    apply Forall_inv in Hx. lia.
Qed.

(** A handle on another version does not notice. *)
Lemma file_on_insert vs w fs f : om_wf vs -> vf_version f <> w -> file_on vs f -> file_on (om_insert w fs vs) f.
Proof.
  intros Hw Hn (fs' & Hin & Hrest). exists fs'. split; [|done]. apply om_get_In. rewrite om_get_insert_ne by done.
  by apply om_In_get.
Qed.

(** The writer's checks pass exactly on the next transaction. *)
Lemma append_prepared dir vs w fs l r rand io : dir_holds dir vs -> writer dir vs w fs l ->
  vl_next_t l = r_t r -> record_wf r ->
  exists before f after, vl_files l = before ++ f :: after /\ file_current (w, fs) f /\ ix_writable (vf_file f) = true /\
    versioned_append rand io l dir r =
      let '(f', b, res) := indexed_append rand io (vf_file f) (frames_of fs) r in
      let files := before ++ mk_versioned (vf_version f) (vf_path f) f' :: after in
      let dir := om_insert (version_path name w) b dir in
      match res with
      | Err e => (with_files l files (vl_next_t l), dir, Err e)
      | Ok _ => (with_files l files (vl_next_t l + 1), dir, Ok tt)
      end.
Proof.
  intros H [Hop Hv Hin (before & f & after & Hfiles & Hf & Hwr) Hclean Hnext] Ht Hwf.
  exists before, f, after. split_and!; [done|done|done|]. unfold versioned_append. rewrite Ht, Z.eqb_refl, Hv.
  cbn [ensure mbind result_bind ok_or]. destruct (sorted_others _ _ _ _ (ol_sorted _ _ Hop) Hfiles) as [Hb _].
  assert (Hfv : vf_version f = w) by apply Hf.
  destruct (find_writer_ok before f after (version_cutoffs (vl_files l))) as [c Hc];
    [by rewrite length_version_cutoffs, Hfiles|done|]. rewrite Hfv, <- Hfiles in Hc. rewrite Hc. cbn [ok_or mbind result_bind].
  assert (Hchk : (if ((c =? U64_MAX) && negb (bool_decide (vf_frames f = [])))%bool
    then n ← next_t (vf_frames f); ensure (n =? r_t r) LogError.Corrupt else Ok tt) = Ok tt).
  { destruct (_ && _)%bool eqn:E; [|done]. apply andb_true_iff in E as [_ E]. apply negb_true_iff, bool_decide_eq_false in E.
    assert (Hfr : vf_frames f = index_of 0 fs) by apply Hf. unfold next_t.
    assert (Hl : fi_t <$> last (vf_frames f) = fst <$> last fs).
    { rewrite Hfr, <- (fmap_last fi_t), <- (fmap_last fst). f_equal. apply index_of_ts. }
    destruct (last (vf_frames f)) as [x|] eqn:Ex; [|by apply last_None in Ex].
    destruct (last fs) as [e|]; [|done]. cbn in Hl. injection Hl as Hl. rewrite Hl.
    pose proof (rw_t r Hwf). unfold checked_add_u64. rewrite (proj2 (Z.ltb_lt _ _)) by lia. cbn [ok_or mbind result_bind].
    by rewrite Hnext, Ht, Z.eqb_refl. }
  rewrite Hchk. cbn [mbind result_bind]. assert (Hpath : vf_path f = version_path name w) by apply Hf.
  unfold dir_file. rewrite Hpath, Hclean. cbn [ok_or mbind result_bind].
  destruct (indexed_append rand io (vf_file f) (frames_of fs) r) as [[f' b] res]. destruct res as [[]|e]; rewrite ?Hpath; [|done].
  pose proof (rw_t r Hwf). unfold checked_add_u64. by rewrite (proj2 (Z.ltb_lt _ _)) by lia.
Qed.

Definition pushed_versions (w : Z) (fs : list entry) (r : TxRecord) (p : bytes) (vs : Versions) : Versions :=
  om_insert w (fs ++ [pushed_entry r p]) vs.

Section append.
Context (dir : Dir) (vs : Versions) (w : Z) (fs : list entry) (l : VersionedLog) (rand : option bytes).
Context (r : TxRecord) (p : bytes).
Context (H : dir_holds dir vs) (Hwriter : writer dir vs w fs l) (Hrand : rand_ok rand) (Hwf : record_wf r).
Context (Hnext : vl_next_t l = r_t r) (Hp : codec_encode rand (codec_of w) r = Ok p).
Context (Hfit : fits (frames_of fs ++ frame_of false p)).

Lemma own_below e : last fs = Some e -> e.1 < r_t r.
Proof. intros E. pose proof (wr_next _ _ _ _ _ Hwriter) as Hn. rewrite E in Hn. lia. Qed.

Lemma pushed_records : records_of (w, fs ++ [pushed_entry r p]) = records_of (w, fs) ++ [r].
Proof.
  unfold records_of. cbn [fst snd]. rewrite map_app. f_equal. cbn [map]. f_equal. unfold decoded. cbn [pushed_entry snd].
  destruct (encode_record_codec _ _ _ _ (codec_of_ok w) Hrand Hwf Hp) as (Hd & _).
  by rewrite (Hd _ (reads_refl _ (codec_of_ok w))).
Qed.

Lemma own_stored : 0 <= w < 2 ^ 64 /\ Forall (fun e : entry => small e.1) fs /\
  sorted_file (codec_of w) (frames_of fs) fs (records_of (w, fs)) [].
Proof.
  pose proof (wr_held _ _ _ _ _ Hwriter) as Hin. pose proof (h_range _ _ H) as Hr. rewrite List.Forall_forall in Hr.
  destruct (Hr _ Hin) as [Hw Hsm]. destruct (stored_In _ _ _ H Hin) as (b & tail & _ & Hsf & _).
  split_and!; [apply Hw|apply Hw|done|]. by eapply sorted_file_whole.
Qed.

Lemma pushed_small : Forall (fun e : entry => small e.1) (fs ++ [pushed_entry r p]).
Proof.
  apply Forall_app. split; [apply own_stored|]. constructor; [|constructor]. cbn. pose proof (rw_t r Hwf).
  unfold small, U64_MAX. lia.
Qed.

Lemma holds_pushed :
  dir_holds (om_insert (version_path name w) (frames_of fs ++ frame_of false p) dir) (pushed_versions w fs r p vs).
Proof.
  destruct own_stored as (Hw & _ & Hsf). eapply holds_write; [done|done|apply pushed_small| |done].
  rewrite pushed_records. eapply stored_push; eauto using codec_of_ok, own_below.
Qed.

(** A part of the frame, or all of it. *)
Lemma holds_torn n : exists vs', (vs' = vs \/ vs' = pushed_versions w fs r p vs) /\
  dir_holds (om_insert (version_path name w) (frames_of fs ++ take n (frame_of false p)) dir) vs'.
Proof.
  destruct (decide (length (frame_of false p) <= n)%nat) as [Hn|Hn].
  - exists (pushed_versions w fs r p vs). split; [by right|]. rewrite take_ge by done. apply holds_pushed.
  - exists vs. split; [by left|]. destruct own_stored as (Hw & Hsm & Hsf). pose proof (wr_held _ _ _ _ _ Hwriter) as Hin.
    rewrite <- (om_insert_same w fs vs (h_versions _ _ H) (om_In_get _ _ _ (h_versions _ _ H) Hin)).
    apply (holds_write dir vs w fs _ (take n (frame_of false p))); [done|done|done| |].
    + destruct Hsf as [_ _ Hr Hs]. split; [done| |done|done].
      destruct (encode_record_codec _ _ _ _ (codec_of_ok w) Hrand Hwf Hp) as (_ & _ & Hl).
      exists false, p, (drop n (frame_of false p)). split; [done|]. split; [|by rewrite take_drop].
      intros E%(f_equal length). rewrite length_drop in E. cbn [length] in E. lia.
    + unfold fits in *. rewrite length_app in *. rewrite length_take. lia.
Qed.

Lemma open_log_replace before f after f' n vs' : vl_files l = before ++ f :: after -> vf_version f = w ->
  vf_version f' = w -> vs' = pushed_versions w fs r p vs -> file_current (w, fs ++ [pushed_entry r p]) f' ->
  open_log vs' (with_files l (before ++ f' :: after) n).
Proof.
  intros Hfiles Hf Hf' -> Hc. destruct Hwriter as [[Hn Hm Hon Hs] _ _ _ _ _].
  destruct (sorted_others _ _ _ _ Hs Hfiles) as [Hb Ha]. rewrite Hf in Hb, Ha. pose proof (h_versions _ _ H) as Hv.
  split; cbn [with_files vl_name vl_mode vl_files]; [done|done| |].
  - rewrite Hfiles in Hon. apply Forall_app in Hon as [Hon1 Hon2]. inversion_clear Hon2 as [|? ? _ Hon3].
    rewrite List.Forall_forall in *. intros g [Hg|[<-|Hg]]%in_app_iff.
    + apply file_on_insert; auto.
    + eapply current_on; [|done]. by apply om_get_In, om_get_insert_eq.
    + apply file_on_insert; auto.
  - rewrite Hfiles in Hs. clear -Hs Hf Hf'. subst w. induction before as [|g before IH]; cbn [app] in *;
      inversion_clear Hs as [|? ? Hs' Hx].
    + constructor; [done|]. eapply List.Forall_impl; [|done]. intros g Hg. cbn in *. lia.
    + constructor; [by apply IH|]. apply Forall_app in Hx as [Hx1 Hx2]. inversion_clear Hx2.
      apply Forall_app. split; [done|]. constructor; [lia|done].
Qed.

Lemma append_written : exists l', versioned_append rand Written l dir r =
    (l', om_insert (version_path name w) (frames_of fs ++ frame_of false p) dir, Ok tt) /\
  writer (om_insert (version_path name w) (frames_of fs ++ frame_of false p) dir) (pushed_versions w fs r p vs) w
    (fs ++ [pushed_entry r p]) l' /\ vl_next_t l' = r_t r + 1.
Proof.
  destruct (append_prepared dir vs w fs l r rand Written H Hwriter Hnext Hwf) as (before & f & after & Hfiles & Hf & Hwr & ->).
  destruct Hf as (Hv & Hpath & Hcur). cbn [fst snd] in *.
  pose proof (append_handle (codec_of w) rand Written (vf_file f) fs r (codec_of_ok w) Hrand Hwf Hcur Hwr) as Ha.
  rewrite Hp in Ha. destruct Ha as (f' & Hcur' & Hwr' & ->). cbv zeta. eexists. split; [done|]. rewrite Hnext. split; [|done].
  assert (Hc' : file_current (w, fs ++ [pushed_entry r p]) (mk_versioned (vf_version f) (vf_path f) f')) by (by split_and!).
  split.
  - by eapply open_log_replace.
  - apply Hwriter.
  - by apply om_get_In, om_get_insert_eq.
  - eexists before, _, after. split_and!; [done|apply Hc'..|done].
  - rewrite om_get_insert_eq, frames_of_app, frames_of_cons. cbn [pushed_entry fst snd]. by rewrite app_nil_r.
  - by rewrite last_snoc.
Qed.

(** A write that fails leaves the version as it was or with the record, never between. *)
Lemma append_failed io : io <> Written -> exists l' dir' e vs', versioned_append rand io l dir r = (l', dir', Err e) /\
  (vs' = vs \/ vs' = pushed_versions w fs r p vs) /\ dir_holds dir' vs'.
Proof.
  intros Hio.
  destruct (append_prepared dir vs w fs l r rand io H Hwriter Hnext Hwf) as (before & f & after & Hfiles & Hf & Hwr & ->).
  destruct Hf as (Hv & Hpath & Hcur). cbn [fst snd] in *.
  pose proof (append_handle (codec_of w) rand io (vf_file f) fs r (codec_of_ok w) Hrand Hwf Hcur Hwr) as Ha.
  rewrite Hp in Ha. destruct Ha as (f' & _ & _ & ->). destruct io as [|n e|e]; [done| |].
  - destruct (holds_torn n) as (vs' & Hvs & H'). cbv zeta. eexists _, _, _, vs'. by split_and!.
  - cbv zeta. eexists _, _, _, _. split_and!; [done|by right|apply holds_pushed].
Qed.
End append.
End dir.
