(* ===== verification/VersionedTheorems.v ===== *)
(** * What the versioned log guarantees

    Opening and reading a directory's log is reading the merge of its versions; a writer
    extends the merge, and one that a later version has replaced cannot change it. *)

From stdpp Require Import base list strings.
From Stdlib Require Import ZArith Lia Sorted.
From S2P Require Import Prelude OrdMap Machine Text Values Datoms Crypt LogRecord FileLog FileLogFacts.
From S2P Require Import VersionedLog VersionedMerge VersionedDir.
Local Open Scope Z_scope.

Section claims.
Context `{CL : CryptoLaws} `{K : Crc32c} `{KL : !Crc32cLaws K}.

(** The last version's frames are retained in full, and the merge ends with them. *)
Lemma merged_last_version name mode dir vs w fs : dir_holds name mode dir vs -> In (w, fs) vs ->
  Forall (fun p => p.1 <= w) vs -> forall e, last fs = Some e -> e.1 + 1 = next_of (merged_records mode vs).
Proof.
  intros H Hin Hmax e He. pose proof (h_versions _ _ _ _ H) as Hw.
  apply in_split in Hin as (before & after & ->).
  assert (after = []) as ->.
  { destruct after as [|q after]; [done|]. exfalso. apply Forall_app in Hmax as [_ Hmax].
    inversion_clear Hmax as [|? ? _ Hmax']. apply Forall_inv in Hmax'.
    apply version_key_sorted with (name := name) in Hw. rewrite map_app in Hw. apply key_sorted_app in Hw as [_ Hw].
    cbn [map] in Hw. inversion_clear Hw as [|? ? _ Hq]. apply Forall_inv in Hq. cbn in *. lia. }
  assert (Hst : stored name mode dir (w, fs)) by (eapply stored_In; [done|apply in_app_iff; right; by left]).
  pose proof (h_range _ _ _ _ H) as Hr. apply Forall_app in Hr as [_ Hr]. apply Forall_inv in Hr as [_ Hsm]. cbn [snd] in Hsm.
  pose proof (records_ts name mode dir (w, fs) Hst) as Hts. cbn [snd] in Hts.
  unfold next_of, merged_records. rewrite map_app. cbn [map].
  assert (Hsuffix : exists pre, merge_versions r_t (map (records_of mode) before ++ [records_of mode (w, fs)]) =
    pre ++ records_of mode (w, fs)).
  { induction (map (records_of mode) before) as [|b pv [pre IH]].
    - exists []. cbn [app]. rewrite merge_cons. change (merge_versions r_t []) with (@nil TxRecord). rewrite app_nil_r. cbn [least_first app].
      apply filter_all_true. intros r Hin. apply (in_map r_t) in Hin. rewrite Hts in Hin. apply in_map_iff in Hin as (x & <- & Hx).
      rewrite List.Forall_forall in Hsm. apply Z.ltb_lt. apply (Hsm x Hx).
    - cbn [app]. rewrite merge_cons, IH. eexists. by rewrite app_assoc. }
  destruct Hsuffix as [pre ->]. rewrite last_app.
  apply (f_equal last) in Hts.
  assert (forall {A} (t : A -> Z) l, last (map t l) = t <$> last l) as Hl by (intros; apply fmap_last).
  rewrite !Hl, He in Hts. destruct (last (records_of mode (w, fs))) as [r|]; [|done]. cbn in Hts. injection Hts as Hts. by rewrite Hts.
Qed.

(** C13. The versioned log of a directory opens exactly when the merge of its versions has no
    hole. Then the next transaction follows the merge, every range it is asked for is the
    range of the merge, and a writer whose version is no older than any other is ready to
    append to its own file. *)
Theorem versioned_open_reads name dir vs w cipher :
  let mode := mode (codec_new cipher 0) in
  codec_ok (codec_new cipher 0) -> dir_holds name mode dir vs -> 0 <= w < 2 ^ 64 ->
  match validate_merged_contiguity r_t (merged_records mode vs) with
  | Err e => versioned_open dir name w cipher = Err e
  | Ok _ => exists l dir' fs, versioned_open dir name w cipher = Ok (l, dir') /\
      dir_holds name mode dir' (with_version w vs) /\ vl_next_t l = next_of (merged_records mode vs) /\
      (forall start end_, (versioned_tx_range l dir' start end_).2 =
        Ok (memory_tx_range (merged_records mode vs) start end_)) /\
      (Forall (fun p => p.1 <= w) vs -> writer name mode dir' (with_version w vs) w fs l)
  end.
Proof.
  intros mode Hm H Hw.
  destruct (versioned_open_files name mode Hm dir vs w cipher H Hw eq_refl) as
    (files & dir' & fs & H' & Hin & Hc & Hws & Hown & ->).
  destruct (merged_with_version mode w vs (h_versions _ _ _ _ H)) as [Hmerged _].
  destruct (validate_merged_contiguity r_t (merged_records mode vs)) as [[]|e] eqn:Hv; [|done].
  cbn [mbind result_bind]. set (l := mk_versioned_log _ _ _ _ _).
  destruct (current_sorted name mode _ _ (h_versions _ _ _ _ H') Hc) as [Hon Hs].
  assert (Hl : open_log name mode (with_version w vs) l) by (by split).
  exists l, dir', fs. split_and!; [done|done|done| |].
  - intros start end_. pose proof (all_index_ok _ _ _ _ _ H' Hc) as Hi.
    destruct (versioned_range_ok name mode Hm dir' _ l start end_ H' Hl Hi) as (files' & -> & _); [|by right|].
    + unfold l. cbn [vl_files]. rewrite (merged_contiguity _ _ _ _ _ H' Hc), Hmerged. exact Hv.
    + cbn [snd]. unfold merged_view. rewrite Hmerged, Hv. destruct (range_empty start end_) eqn:E; [|done].
      by rewrite memory_range_empty.
  - intros Hmax. split; [done|done|done| |done|].
    + destruct (Forall2_In_l _ _ _ _ Hc Hin) as (f & Hf & Hcur).
      apply in_split in Hf as (before & after & E). exists before, f, after. split_and!; [done|apply Hcur..|].
      rewrite List.Forall_forall in Hws. rewrite (Hws f); [apply bool_decide_true, Hcur|]. rewrite E.
      apply in_app_iff. right. by left.
    + destruct (last fs) as [e|] eqn:He; [|done]. cbn [l vl_next_t]. rewrite <- Hmerged.
      apply (merged_last_version name mode dir' (with_version w vs) w fs H' Hin); [|done].
      unfold with_version. destruct (is_some (om_get w vs)); [done|].
      apply List.Forall_forall. intros p [->|Hp]%In_om_insert; [cbn; lia|]. rewrite List.Forall_forall in Hmax. auto.
Qed.

Lemma insert_split (vs : list (Z * list entry)) w fs fs' : om_wf vs -> In (w, fs) vs ->
  exists before after, vs = before ++ (w, fs) :: after /\ om_insert w fs' vs = before ++ (w, fs') :: after /\
    Forall (fun p => w < p.1) after /\ Forall (fun p => p.1 < w) before.
Proof.
  induction vs as [|[v gs] vs IH]; [done|]. intros [Hw Hlt]%om_wf_cons Hin. cbn [om_insert].
  destruct Hin as [E|Hin].
  - injection E as -> ->. exists [], vs. assert (cmp w w = Eq) as -> by (by apply cmp_eq_iff). split_and!; [done|done| |constructor].
    apply List.Forall_forall. intros p Hp. by apply Z.compare_lt_iff, Hlt.
  - pose proof (Hlt _ Hin) as Hv. cbn [fst] in Hv. destruct (IH Hw Hin) as (before & after & -> & E & Ha & Hb).
    exists ((v, gs) :: before), after. rewrite E. assert (cmp w v = Gt) as -> by (rewrite cmp_antisym, Hv; done).
    split_and!; [done|done|done|]. constructor; [by apply Z.compare_lt_iff in Hv|done].
Qed.

Lemma least_first_head (t : TxRecord -> Z) pv l r : In l pv -> head l = Some r -> least_first t pv <= t r.
Proof.
  induction pv as [|l' pv IH]; [done|]. intros [->|Hin] Hl; cbn [least_first].
  - rewrite Hl. lia.
  - specialize (IH Hin Hl). destruct (head l'); lia.
Qed.

Lemma sorted_below {A} (k : A -> Z) l bound : key_sorted k l -> (forall x, last l = Some x -> k x < bound) ->
  Forall (fun x => k x < bound) l.
Proof.
  intros Hs Hl. destruct (last l) as [y|] eqn:E; [|apply last_None in E as ->; constructor].
  apply last_Some in E as [l' ->]. specialize (Hl y eq_refl). apply Forall_app. split; [|by constructor].
  apply List.Forall_forall. intros x Hx. apply in_split in Hx as (a & b & ->). rewrite <- app_assoc in Hs.
  apply key_sorted_app in Hs as [_ Hs]. inversion_clear Hs as [|? ? _ Hf]. apply Forall_app in Hf as [_ Hf].
  apply Forall_inv in Hf. lia.
Qed.

Lemma own_records_below name mode dir vs w fs l r : codec_ok (mk_codec mode 0) -> dir_holds name mode dir vs ->
  writer name mode dir vs w fs l -> r_t r = vl_next_t l -> Forall (fun x => r_t x < r_t r) (records_of mode (w, fs)).
Proof.
  intros Hm H Hwr Ht. destruct (own_stored name mode dir vs w fs l H Hwr) as (_ & _ & Hsf).
  apply sorted_below; [apply Hsf|]. intros x Hx.
  pose proof (lf_ts _ _ _ (sf_records _ _ _ _ _ Hsf)) as Hts. apply (f_equal last) in Hts.
  assert (forall {A} (t : A -> Z) l, last (map t l) = t <$> last l) as Hl by (intros; apply fmap_last).
  rewrite !Hl, Hx in Hts. pose proof (wr_next _ _ _ _ _ _ _ Hwr) as Hn.
  destruct (last fs) as [e|]; [|done]. cbn in Hts. injection Hts as <-. lia.
Qed.

(** C10. A writer of the versioned log refuses any transaction but its next one. The next
    one, written whole, is appended to its version's file; when no later version has
    records the merge becomes what was below the transaction followed by it, and once a
    later version has started at or below it the merge does not change at all: a writer
    that lost its lease cannot alter what its successor established. *)
Theorem versioned_append_merge name cipher dir vs w fs l rand r :
  let mode := mode (codec_new cipher 0) in
  codec_ok (codec_new cipher 0) -> dir_holds name mode dir vs -> writer name mode dir vs w fs l ->
  rand_ok rand -> record_wf r ->
  (r_t r <> vl_next_t l -> forall io, versioned_append rand io l dir r = (l, dir, Err LogError.Corrupt)) /\
  (r_t r = vl_next_t l -> forall p, codec_encode rand (mk_codec mode w) r = Ok p ->
   fits (frames_of fs ++ frame_of false p) ->
   exists l' dir' vs' fs', versioned_append rand Written l dir r = (l', dir', Ok tt) /\
     dir_holds name mode dir' vs' /\ writer name mode dir' vs' w fs' l' /\ vl_next_t l' = r_t r + 1 /\
     ((forall v gs, In (v, gs) vs -> w < v -> gs = []) ->
        merged_records mode vs' = List.filter (fun x => r_t x <? r_t r) (merged_records mode vs) ++ [r]) /\
     (forall v e gs, In (v, e :: gs) vs -> w < v -> e.1 <= r_t r -> merged_records mode vs' = merged_records mode vs)).
Proof.
  intros mode Hm H Hwr Hrand Hwf. split.
  - intros Hn io. unfold versioned_append. by rewrite (proj2 (Z.eqb_neq (vl_next_t l) (r_t r))) by congruence.
  - intros Ht p Hp Hfit.
    destruct (append_written name mode Hm dir vs w fs l rand r p H Hwr Hrand Hwf (eq_sym Ht) Hp) as (l' & E & Hwr' & Hn).
    pose proof (holds_pushed name mode Hm dir vs w fs l rand r p H Hwr Hrand Hwf (eq_sym Ht) Hp Hfit) as H'.
    pose proof (own_records_below name mode dir vs w fs l r Hm H Hwr Ht) as Hown.
    destruct (insert_split vs w fs (fs ++ [pushed_entry r p]) (h_versions _ _ _ _ H) (wr_held _ _ _ _ _ _ _ Hwr))
      as (before & after & Evs & Eins & Hafter & Hbefore).
    assert (Emerged : merged_records mode (pushed_versions w fs r p vs) =
      merge_versions r_t (map (records_of mode) before ++ (records_of mode (w, fs) ++ [r]) :: map (records_of mode) after)).
    { unfold merged_records, pushed_versions. rewrite Eins, map_app. cbn [map].
      by rewrite (pushed_records mode Hm w fs rand r p Hrand Hwf Hp). }
    eexists l', _, _, _. split_and!; [exact E|exact H'|exact Hwr'|done| |].
    + intros Hlast. rewrite Emerged, merge_push_last; [by rewrite Evs; unfold merged_records; rewrite map_app|done| |].
      * rewrite List.Forall_map. rewrite List.Forall_forall in *. intros [v gs] Hin.
        rewrite (Hlast v gs); [done| |by apply (Hafter _ Hin)]. rewrite Evs. apply in_app_iff. right. by right.
      * pose proof (rw_t r Hwf). unfold U64_MAX. lia.
    + intros v e gs Hin Hv He. rewrite Emerged, merge_push_stale; [by rewrite Evs; unfold merged_records; rewrite map_app|done|].
      pose proof (stored_In _ _ _ _ _ H Hin) as Hst. pose proof (records_ts name mode dir _ Hst) as Hts.
      destruct (records_of mode (v, e :: gs)) as [|x rest] eqn:Er; [done|]. cbn [map snd] in Hts. injection Hts as Hx _.
      transitivity (r_t x); [|lia]. apply (least_first_head r_t _ (x :: rest)); [|done]. rewrite <- Er. apply in_map.
      rewrite Evs in Hin. apply in_app_iff in Hin as [Hin|[[= -> _]|Hin]]; [|lia|done].
      rewrite List.Forall_forall in Hbefore. specialize (Hbefore _ Hin). cbn in Hbefore. lia.
Qed.
End claims.

(** ** Samples *)

#[local] Existing Instance toy_crypto.
#[local] Existing Instance toy_crypto_laws.
#[local] Existing Instance castagnoli.
#[local] Existing Instance castagnoli_laws.

Definition sample_mode : RecordMode := mode (codec_new (Some sample_cipher) 0).

Lemma sample_mode_ok : codec_ok (codec_new (Some sample_cipher) 0).
Proof. apply sample_cipher_ok. Qed.

Definition version_entry (v t : Z) : entry :=
  (t, (false, match codec_encode (sample_rand t) (mk_codec sample_mode v) (sample_record t) with
              | Ok p => p | Err _ => [] end)).

(** A first writer's two transactions, and its successor's one. *)
Definition sample_versions : list (Z * list entry) :=
  [(1, [version_entry 1 1; version_entry 1 2]); (2, [version_entry 2 3])].
Definition sample_dir : Dir :=
  [("db.v1.log", frames_of [version_entry 1 1; version_entry 1 2]); ("db.v2.log", frames_of [version_entry 2 3])].

Lemma sample_holds : dir_holds "db" sample_mode sample_dir sample_versions.
Proof.
  split.
  - repeat constructor.
  - repeat constructor.
  - repeat constructor; cbn; lia.
  - repeat constructor; eexists _, []; (split; [vm_compute; reflexivity|]); (split; [|vm_compute; reflexivity]);
      (split; [by rewrite app_nil_r|apply torn_nil| |repeat constructor; cbn; lia]);
      repeat constructor; vm_compute; reflexivity.
  - reflexivity.
  - intros e b v [E|[E|[]]] Hv; injection E as <- _; vm_compute in Hv; injection Hv as <-; split; vm_compute; reflexivity.
Qed.

Lemma sample_merged : merged_records sample_mode sample_versions = [sample_record 1; sample_record 2; sample_record 3].
Proof. vm_compute. reflexivity. Qed.

Lemma versioned_open_reads_witness :
  exists l dir', versioned_open sample_dir "db" 3 (Some sample_cipher) = Ok (l, dir') /\ vl_next_t l = 4 /\
    (versioned_tx_range l dir' 2 None).2 = Ok [sample_record 2; sample_record 3].
Proof.
  pose proof (versioned_open_reads "db" sample_dir sample_versions 3 (Some sample_cipher) sample_mode_ok sample_holds
    ltac:(lia)) as H. cbv zeta in H. fold sample_mode in H. rewrite sample_merged in H.
  change (validate_merged_contiguity r_t [sample_record 1; sample_record 2; sample_record 3])
    with (@Ok LogError unit tt) in H.
  destruct H as (l & dir' & fs & E & _ & Hn & Hr & _). exists l, dir'. split; [exact E|]. split; [exact Hn|].
  rewrite Hr. reflexivity.
Defined.

(** The first writer's log, opened before its successor's. *)
Definition sample_writer : VersionedLog :=
  match versioned_open (take 1 sample_dir) "db" 1 (Some sample_cipher) with
  | Ok (l, _) => l
  | Err _ => mk_versioned_log EmptyString RecordMode.Plain [] None 0
  end.

Lemma sample_writer_ok : writer "db" sample_mode sample_dir sample_versions 1 [version_entry 1 1; version_entry 1 2] sample_writer.
Proof.
  assert (exists f, vl_files sample_writer = [f] /\ vf_version f = 1 /\ vf_path f = "db.v1.log" /\
    handle_current (codec_of sample_mode 1) (vf_file f) [version_entry 1 1; version_entry 1 2] /\
    ix_writable (vf_file f) = true) as (f & E & Hv & Hp & Hc & Hw).
  { eexists. split; [vm_compute; reflexivity|]. split; [reflexivity|]. split; [reflexivity|]. split; [|reflexivity].
    split; [split; [exists 2%nat|..]|]; try (split; vm_compute; reflexivity); vm_compute; reflexivity. }
  split.
  - split; [vm_compute; reflexivity|vm_compute; reflexivity| |].
    + rewrite E. repeat constructor. exists [version_entry 1 1; version_entry 1 2]. rewrite Hv. split; [by left|].
      split; [exact Hp|apply Hc].
    + rewrite E. repeat constructor.
  - vm_compute. reflexivity.
  - by left.
  - exists [], f, []. split; [exact E|]. split; [by split_and!|done].
  - vm_compute. reflexivity.
  - vm_compute. reflexivity.
Qed.

(** The replaced writer's transaction reaches its file and leaves the merge alone. *)
Lemma versioned_append_merge_witness :
  exists l' dir' vs', versioned_append (sample_rand 3) Written sample_writer sample_dir (sample_record 3) = (l', dir', Ok tt) /\
    dir_holds "db" sample_mode dir' vs' /\ merged_records sample_mode vs' = [sample_record 1; sample_record 2; sample_record 3].
Proof.
  destruct (versioned_append_merge "db" (Some sample_cipher) sample_dir sample_versions 1 _ sample_writer (sample_rand 3)
    (sample_record 3) sample_mode_ok sample_holds sample_writer_ok (sample_rand_ok 3) (sample_record_wf 3 ltac:(simpl; auto)))
    as [_ H].
  destruct (H ltac:(vm_compute; reflexivity) (version_entry 1 3).2.2 ltac:(vm_compute; reflexivity) ltac:(vm_compute; reflexivity))
    as (l' & dir' & vs' & fs' & E & Hh & _ & _ & _ & Hstale).
  exists l', dir', vs'. split; [exact E|]. split; [exact Hh|].
  etransitivity; [apply (Hstale 2 (version_entry 2 3) []); [by right; left|lia|cbn; lia]|exact sample_merged].
Defined.

(** A reader that refreshed the first version before its second transaction, and listed the
    directory after the successor's first: between the two, both were written. *)
Definition split_reader : VersionedLog :=
  let before := [("db.v1.log", frames_of [version_entry 1 1])] in
  match versioned_open_read_only before "db" sample_mode with
  | Err _ => mk_versioned_log EmptyString RecordMode.Plain [] None 0
  | Ok l =>
      let (files, _) := refresh_files before (vl_files l) in
      let (files, _) := open_new_files sample_dir sample_mode files (version_files sample_dir "db") in
      with_files l files (vl_next_t l)
  end.

(** The directory has no hole, and this reader never reads it again: the check of the index
    it already has comes before the refresh that would complete it. *)
Lemma split_reader_stuck :
  versioned_tx_range split_reader sample_dir 0 None = (split_reader, Err LogError.Corrupt) /\
  exists l, versioned_open_read_only sample_dir "db" sample_mode = Ok l /\
    (versioned_tx_range l sample_dir 0 None).2 = Ok [sample_record 1; sample_record 2; sample_record 3].
Proof. split; [vm_compute; reflexivity|]. eexists. split; [vm_compute; reflexivity|]. vm_compute. reflexivity. Qed.
