(* ===== verification/Native.v ===== *)
(** * The log of a native store

    What a store of log objects promises is an interface; against it the native log, over
    the objects of its own layout and the chunks of an older one, refines the in-memory
    versioned log, up to the hole check of its reads. *)

From stdpp Require Import base list strings sorting.
From Stdlib Require Import ZArith Lia Sorted.
From S2P Require Import Prelude OrdMap Machine Text Values Datoms Crypt LogRecord FileLog FileLogFacts.
From S2P Require Import VersionedLog VersionedMerge VersionedDir.
Local Open Scope Z_scope.

(** ** What a store promises *)

(** The objects of a database by (version, last transaction), and its legacy chunks. A
    publication that reports an error may have happened or not. *)
Class NativeLogLaws {Store : Type} (St : NativeLogStorage Store) := {
  objects : Store -> list ((Z * Z) * bytes);
  chunks : Store -> list ((Z * Z) * bytes);
  objects_wf s : om_wf (objects s);
  chunks_wf s : om_wf (chunks s);
  list_records_all s keys : list_records s = Ok keys -> Permutation keys (map fst (objects s));
  read_record_get s v t b : read_record s v t = Ok b -> b = om_get (v, t) (objects s);
  list_chunks_all s keys : list_legacy_chunks s = Ok keys -> Permutation keys (map fst (chunks s));
  read_chunk_get s v k b : read_legacy_chunk s v k = Ok b -> b = om_get (v, k) (chunks s);
  put_batch_once s v records t b : last records = Some (t, b) ->
    let published := om_insert (v, t) (concat (map snd records)) (objects s) in
    let (s', res) := put_batch s v records in
    chunks s' = chunks s /\
    match res with
    | Ok true => om_get (v, t) (objects s) = None /\ objects s' = published
    | Ok false => is_some (om_get (v, t) (objects s)) = true /\ objects s' = objects s
    | Err _ => objects s' = objects s \/ (om_get (v, t) (objects s) = None /\ objects s' = published)
    end;
}.

(** The store answers its reads. *)
Definition store_answers {Store : Type} `{St : NativeLogStorage Store} (s : Store) : Prop :=
  (exists keys, list_records s = Ok keys) /\ (forall v t, exists b, read_record s v t = Ok b) /\
  (exists keys, list_legacy_chunks s = Ok keys) /\ (forall v k, exists b, read_legacy_chunk s v k = Ok b).

(** ** Gathering the objects *)

Lemma gather_runs_get read (b : Z * Z -> bytes) keys per_version :
  (forall k, In k keys -> read k.1 k.2 = Ok (Some (b k))) -> om_wf per_version ->
  exists R, gather_runs read keys per_version = Ok R /\ om_wf R /\
    forall v, om_get v R =
      match om_get v per_version, map b (List.filter (fun k => k.1 =? v) keys) with
      | Some old, runs => Some (old ++ runs)
      | None, [] => None
      | None, runs => Some runs
      end.
Proof.
  revert per_version. induction keys as [|[v t] keys IH]; intros per_version Hr Hw.
  { exists per_version. split_and!; [done|done|]. intros v. cbn. destruct (om_get v per_version); [by rewrite app_nil_r|done]. }
  cbn [gather_runs]. pose proof (Hr (v, t) ltac:(by left)) as E. cbn [fst snd] in E. rewrite E. cbn [mbind result_bind unwrap_or].
  destruct (IH (om_insert v (unwrap_or (om_get v per_version) [] ++ [b (v, t)]) per_version)) as (R & -> & HR & Hget).
  - intros k Hk. apply Hr. by right.
  - by apply om_insert_wf.
  - exists R. split_and!; [done|done|]. intros v'. rewrite Hget. cbn [List.filter fst].
    destruct (Z.eqb_spec v v') as [->|Hn].
    + rewrite om_get_insert_eq. cbn [map]. destruct (om_get v' per_version) as [old|]; cbn [unwrap_or app]; [|done].
      by rewrite <- app_assoc.
    + by rewrite om_get_insert_ne by done.
Qed.

Lemma insert_by_os {K} `{OrdLaws K} (x : K) l : os_wf l -> ~ In x l -> os_wf (insert_by cmp x l).
Proof.
  induction l as [|y l IH]; intros Hs Hx; [by repeat constructor|].
  inversion_clear Hs as [|? ? Hs' Hy]. cbn [insert_by]. destruct (cmp x y) eqn:E.
  - apply cmp_eq_iff in E as ->. destruct Hx. by left.
  - constructor; [by constructor|]. constructor; [done|]. eapply List.Forall_impl; [|done]. intros z Hz. by eapply cmp_lt_trans.
  - constructor; [apply IH; [done|]; intros ?; apply Hx; by right|]. rewrite List.Forall_forall in *. intros z Hz.
    rewrite (insert_by_perm cmp x l) in Hz. destruct Hz as [<-|Hz]; [|auto].
    unfold olt. rewrite cmp_antisym, E. done.
Qed.

Lemma os_NoDup {K} `{OrdLaws K} (l : list K) : os_wf l -> NoDup l.
Proof.
  induction 1 as [|x l Hs IH Hx]; [constructor|]. constructor; [|done]. rewrite list_elem_of_In, List.Forall_forall in *.
  intros Hin%Hx. unfold olt in Hin. assert (cmp x x = Eq) as E by (by apply cmp_eq_iff). congruence.
Qed.

Lemma sort_by_os {K} `{OrdLaws K} (l l' : list K) : os_wf l' -> Permutation l l' -> sort_by cmp l = l'.
Proof.
  intros Hs Hp. apply os_ext; [|done|intros x; by rewrite sort_by_perm, Hp].
  assert (Hn : NoDup l) by (rewrite Hp; by apply os_NoDup). clear Hs Hp l'. induction l as [|x l IH]; [constructor|].
  apply NoDup_cons in Hn as [Hx Hn]. cbn [sort_by fold_right]. apply insert_by_os; [by apply IH|].
  change (fold_right (insert_by cmp) [] l) with (sort_by cmp l). by rewrite sort_by_perm, <- list_elem_of_In.
Qed.

Lemma om_keys_wf {V} (m : list ((Z * Z) * V)) : om_wf m -> os_wf (map fst m).
Proof.
  induction 1 as [|p m Hs IH Hp]; [constructor|]. cbn [map]. constructor; [done|]. rewrite List.Forall_map. exact Hp.
Qed.

(** ** The store against the in-memory log *)

Section native.
Context `{CL : CryptoLaws} `{K : Crc32c} `{KL : !Crc32cLaws K}.
Context {Store : Type} {St : NativeLogStorage Store} {SL : NativeLogLaws St}.
Context (mode : RecordMode).

(** The runs of a version, in the order of their keys. *)
Definition version_runs (runs : list ((Z * Z) * list TxRecord)) (v : Z) : list TxRecord :=
  concat (map snd (List.filter (fun p => p.1.1 =? v) runs)).

(** Each object is a run of transactions ending with its key's, each legacy chunk any run;
    together those of a version make up its records. *)
Definition chunk_run (o : (Z * Z) * bytes) (p : (Z * Z) * list TxRecord) : Prop :=
  o.1 = p.1 /\ decode_framed_payloads o.2 (mk_codec mode o.1.1) = Ok p.2.

Definition object_run (o : (Z * Z) * bytes) (p : (Z * Z) * list TxRecord) : Prop :=
  chunk_run o p /\ exists r, last p.2 = Some r /\ r_t r = p.1.2.

Record native_rel (s : Store) (old runs : list ((Z * Z) * list TxRecord)) (records : list (Z * TxRecord)) : Prop := {
  nr_chunks : Forall2 chunk_run (chunks s) old;
  nr_objects : Forall2 object_run (objects s) runs;
  nr_records : forall v, Permutation (version_runs old v ++ version_runs runs v) (of_version records v);
  nr_sorted : forall v, key_sorted r_t (of_version records v);
}.

(** The store holds these records, and the log's next transaction is past those of its
    version. *)
Definition holds_records (s : Store) (records : list (Z * TxRecord)) : Prop := exists old runs, native_rel s old runs records.

Definition next_past (l : NativeVersionedLog) (records : list (Z * TxRecord)) : Prop :=
  Forall (fun r => r_t r < nl_next_t l) (of_version records (nl_write_version l)).

Lemma rel_keys s old runs records : native_rel s old runs records -> map fst runs = map fst (objects s).
Proof. intros [_ H _ _]. induction H as [|o p os ps ((E & _) & _) _ IH]; [done|]. cbn [map]. by rewrite E, IH. Qed.

Lemma of_version_In records v : In v (map fst records) <-> of_version records v <> [].
Proof.
  unfold of_version. rewrite in_map_iff. split.
  - intros (p & <- & Hin) E. apply map_eq_nil in E.
    assert (In p (List.filter (fun q => q.1 =? p.1) records)) as H by (apply filter_In; split; [done|apply Z.eqb_refl]).
    by rewrite E in H.
  - intros H. destruct (List.filter _ records) as [|p l] eqn:E; [done|].
    assert (In p (List.filter (fun q => q.1 =? v) records)) as [Hin Hv]%filter_In by (rewrite E; by left).
    exists p. split; [by apply Z.eqb_eq|done].
Qed.

(** The bytes the store has for a key it lists. *)
Definition stored_bytes (m : list ((Z * Z) * bytes)) (k : Z * Z) : bytes := unwrap_or (om_get k m) [].

Definition version_bytes (m : list ((Z * Z) * bytes)) (v : Z) : list bytes := map snd (List.filter (fun o => o.1.1 =? v) m).

Lemma stored_bytes_list m v : om_wf m ->
  map (stored_bytes m) (List.filter (fun k => k.1 =? v) (map fst m)) = version_bytes m v.
Proof.
  intros Hw. unfold version_bytes. rewrite filter_map_comm, map_map. apply map_ext_in. intros [k b] [Hin _]%filter_In.
  unfold stored_bytes. cbn [fst snd]. by rewrite (om_In_get _ _ _ Hw Hin).
Qed.

(** Reading all of one kind of object. *)
Lemma gather_all (read : Z -> Z -> result LogError (option bytes)) m keys per_version : om_wf m -> Permutation keys (map fst m) ->
  (forall v k, read v k = Ok (om_get (v, k) m)) -> om_wf per_version ->
  exists R, gather_runs read (sort_by pair_order keys) per_version = Ok R /\ om_wf R /\
    forall v, om_get v R = match om_get v per_version, version_bytes m v with
                           | Some old, runs => Some (old ++ runs) | None, [] => None | None, runs => Some runs end.
Proof.
  intros Hm Hp Hr Hw. change (sort_by pair_order keys) with (sort_by cmp keys).
  rewrite (sort_by_os keys (map fst m)) by (done || by apply om_keys_wf).
  destruct (gather_runs_get read (stored_bytes m) (map fst m) per_version) as (R & HR & HwR & Hget); [|done|].
  - intros [v k] ([[v' k'] b] & [= -> ->] & Hin)%in_map_iff. cbn [fst snd]. rewrite Hr. unfold stored_bytes.
    by rewrite (om_In_get _ _ _ Hm Hin).
  - exists R. split_and!; [done|done|]. intros v. by rewrite Hget, stored_bytes_list.
Qed.

Lemma native_runs_ok s : store_answers s ->
  exists R, native_runs_by_version s = Ok R /\ om_wf R /\
    (forall v, om_get v R = match version_bytes (chunks s) v ++ version_bytes (objects s) v with
                            | [] => None | l => Some l end).
Proof.
  intros ((keys & Hk) & Hr & (cs & Hc) & Hrc). unfold native_runs_by_version. rewrite Hc. cbn [mbind result_bind].
  destruct (gather_all (read_legacy_chunk s) (chunks s) cs []) as (R0 & -> & Hw0 & Hget0);
    [apply chunks_wf|by apply list_chunks_all| |constructor|].
  { intros v k. destruct (Hrc v k) as [b Hb]. rewrite Hb. f_equal. by apply read_chunk_get. }
  cbn [mbind result_bind]. rewrite Hk. cbn [mbind result_bind].
  destruct (gather_all (read_record s) (objects s) keys R0) as (R & -> & Hw & Hget);
    [apply objects_wf|by apply list_records_all| |done|].
  { intros v k. destruct (Hr v k) as [b Hb]. rewrite Hb. f_equal. by apply read_record_get. }
  exists R. split_and!; [done|done|]. intros v. rewrite Hget, Hget0. cbn [om_get].
  destruct (version_bytes (chunks s) v) as [|b bs]; [done|]. done.
Qed.

Lemma try_map_chunks m runs v : Forall2 chunk_run m runs ->
  try_map (fun b => decode_framed_payloads b (mk_codec mode v)) (version_bytes m v) =
  Ok (map snd (List.filter (fun p => p.1.1 =? v) runs)).
Proof.
  unfold version_bytes. induction 1 as [|[k b] [k' run] os ps (E & Hd) _ IH]; [done|]. cbn [List.filter fst snd] in *. subst k'.
  destruct (Z.eqb_spec k.1 v) as [Hv|Hn]; [|done]. cbn [map try_map snd]. rewrite <- Hv at 1. rewrite Hd.
  cbn [mbind result_bind]. by rewrite IH.
Qed.

Lemma objects_chunks m runs : Forall2 object_run m runs -> Forall2 chunk_run m runs.
Proof. intros H. eapply Forall2_impl; [exact H|]. by intros o p [? _]. Qed.

Lemma try_map_app {A B} (f : A -> result LogError B) l l' a b : try_map f l = Ok a -> try_map f l' = Ok b -> try_map f (l ++ l') = Ok (a ++ b).
Proof.
  revert a. induction l as [|x l IH]; intros a; [by intros [= <-]|]. cbn [try_map app]. intros H Hb.
  apply bind_ok in H as (y & Hy & H). apply bind_ok in H as (ys & Hys & [= <-]). by rewrite Hy, (IH ys Hys Hb).
Qed.

(** Versions without records leave no trace in the merge. *)
Lemma merge_nonempty {T} (t : T -> Z) (f : Z -> list T) vs :
  merge_versions t (map f vs) = merge_versions t (map f (List.filter (fun v => negb (bool_decide (length (f v) = 0%nat))) vs)).
Proof.
  unfold merge_versions. f_equal. induction vs as [|v vs IH]; [done|]. cbn [map List.filter merge_loop].
  case_bool_decide as E; cbn [negb].
  - apply length_zero_iff_nil in E. rewrite E, <- IH. cbn [head List.filter app]. by destruct (merge_loop _ _).
  - cbn [map merge_loop]. by rewrite IH.
Qed.

Lemma os_filter_wf (p : Z -> bool) l : os_wf l -> os_wf (List.filter p l).
Proof.
  induction 1 as [|x l Hs IH Hx]; [constructor|]. cbn [List.filter]. destruct (p x); [|done]. constructor; [done|].
  rewrite List.Forall_forall in *. intros y [Hy _]%filter_In. by apply Hx.
Qed.

(** The records of the versions, from the store and from memory. *)
Lemma native_merged s records : store_answers s -> holds_records s records ->
  read_native_merged s mode =
    (_ ← validate_merged_contiguity r_t (mem_merged records); Ok (mem_merged records)).
Proof.
  intros Ha (old & runs & H). unfold read_native_merged. destruct (native_runs_ok s Ha) as (R & -> & Hw & Hget).
  cbn [mbind result_bind].
  assert (Hpv : try_map (fun p => records ← try_map (fun b => decode_framed_payloads b (mk_codec mode p.1)) p.2;
    Ok (sort_by t_order (concat records))) R = Ok (map (of_version records) (map fst R))).
  { assert (Hall : forall p, In p R -> try_map (fun b => decode_framed_payloads b (mk_codec mode p.1)) p.2 =
      Ok (map snd (List.filter (fun q => q.1.1 =? p.1) old) ++ map snd (List.filter (fun q => q.1.1 =? p.1) runs))).
    { intros [v l] Hin. pose proof (om_In_get _ _ _ Hw Hin) as E. rewrite Hget in E. cbn [fst snd].
      assert (l = version_bytes (chunks s) v ++ version_bytes (objects s) v) as -> by (by destruct (_ ++ _); simplify_eq).
      apply try_map_app; apply try_map_chunks; [apply H|apply objects_chunks, H]. }
    clear Hw Hget. induction R as [|p R IH]; [done|]. cbn [try_map map]. rewrite Hall by (by left). cbn [mbind result_bind].
    rewrite IH by (intros q Hq; apply Hall; by right). cbn [mbind result_bind]. do 2 f_equal.
    rewrite concat_app. apply (sort_by_unique r_t); [apply H|]. apply (nr_records _ _ _ _ H). }
  rewrite Hpv. cbn [mbind result_bind]. unfold mem_merged. rewrite (merge_nonempty _ _ (map fst R)), (merge_nonempty _ _ (os_of_list _)).
  assert (List.filter (fun v => negb (bool_decide (length (of_version records v) = 0%nat))) (map fst R) =
    List.filter (fun v => negb (bool_decide (length (of_version records v) = 0%nat))) (os_of_list (map fst records))) as ->; [|done].
  apply os_ext.
  - apply os_filter_wf. clear -Hw. induction Hw as [|p m Hs IH Hp]; [constructor|]. cbn [map]. constructor; [done|]. rewrite List.Forall_map. exact Hp.
  - apply os_filter_wf, os_of_list_wf.
  - intros v. rewrite !filter_In, os_of_list_In, of_version_In. rewrite <- is_some_In, Hget by done.
    assert (Hin : negb (bool_decide (length (of_version records v) = 0%nat)) = true ->
      of_version records v <> [] /\ version_bytes (chunks s) v ++ version_bytes (objects s) v <> []).
    { rewrite negb_true_iff, bool_decide_eq_false, length_zero_iff_nil. intros Hn. split; [done|]. intros [E1 E2]%app_eq_nil. apply Hn.
      pose proof (try_map_chunks _ _ v (nr_chunks _ _ _ _ H)) as T1. pose proof (try_map_chunks _ _ v (objects_chunks _ _ (nr_objects _ _ _ _ H))) as T2.
      rewrite E1 in T1. rewrite E2 in T2. injection T1 as T1. injection T2 as T2.
      pose proof (nr_records _ _ _ _ H v) as Hp. unfold version_runs in Hp. rewrite <- T1, <- T2 in Hp. by apply Permutation_nil in Hp. }
    split; intros [H1 H2]; destruct (Hin H2) as [H3 H4]; (split; [|done]); [done|]. by destruct (_ ++ _).
Qed.

(** ** Appending a batch *)

Lemma decode_frames_of codec es : Forall (sound codec) es ->
  decode_framed_payloads (frames_of es) codec = Ok (map (decoded codec) es).
Proof.
  intros HP. unfold decode_framed_payloads, frames_of. rewrite split_frames_bytes.
  - cbn [mbind result_bind]. by rewrite try_map_decode.
  - unfold frames_ok. rewrite List.Forall_map. eapply List.Forall_impl; [|done]. by intros e [? _].
Qed.

Definition batch_ok (batch : list (option bytes * TxRecord)) : Prop :=
  Forall (fun p => rand_ok p.1 /\ record_wf p.2) batch.

Lemma frame_batch_ok codec batch framed : codec_ok codec -> batch_ok batch -> frame_batch codec batch = Ok framed ->
  map fst framed = map r_t (map snd batch) /\
  decode_framed_payloads (concat (map snd framed)) codec = Ok (map snd batch).
Proof.
  intros Hc Hb Hf.
  assert (exists es, map fst framed = map fst es /\ concat (map snd framed) = frames_of es /\
    Forall2 (decodes codec) es (map snd batch)) as (es & E1 & E2 & Hd).
  { revert framed Hf. induction Hb as [|[rand r] batch [Hrand Hwf] _ IH]; intros framed.
    - intros [= <-]. by exists [].
    - cbn [frame_batch]. cbn [fst snd] in *. destruct (codec_encode rand codec r) as [p|] eqn:Hp; [|done]. cbn [mbind result_bind].
      destruct (encode_record_codec _ _ _ _ Hc Hrand Hwf Hp) as (Hdec & _ & Hl). rewrite append_framed_eq by done.
      cbn [mbind result_bind app]. destruct (frame_batch codec batch) as [rest|]; [|done]. cbn [mbind result_bind].
      intros [= <-]. destruct (IH rest eq_refl) as (es & E1 & E2 & Hd). exists ((r_t r, (false, p)) :: es).
      cbn [map concat fst snd]. rewrite E1, E2, frames_of_cons. split_and!; [done|done|]. constructor; [|done].
      split_and!; [done|done|]. by apply Hdec, reads_refl. }
  split; [by rewrite E1, (lf_ts _ _ _ Hd)|]. destruct (lf_sound _ _ _ Hd) as [Hs Hm]. by rewrite E2, decode_frames_of, Hm.
Qed.

Lemma filter_insert {V} v t (x : V) (m : list ((Z * Z) * V)) v' : om_wf m ->
  (forall k y, In (k, y) m -> k.1 = v -> k.2 < t) ->
  List.filter (fun p => p.1.1 =? v') (om_insert (v, t) x m) =
    if v' =? v then List.filter (fun p => p.1.1 =? v') m ++ [((v, t), x)] else List.filter (fun p => p.1.1 =? v') m.
Proof.
  induction m as [|[[v1 t1] y] m IH]; intros Hw Hlt.
  { cbn [om_insert List.filter fst]. rewrite Z.eqb_sym. by destruct (v' =? v). }
  apply om_wf_cons in Hw as [Hw Hk]. cbn [om_insert]. destruct (cmp (v, t) (v1, t1)) eqn:E.
  - apply cmp_eq_iff in E. injection E as -> ->. specialize (Hlt (v1, t1) y ltac:(by left) eq_refl). cbn in Hlt. lia.
  - assert (Hv : v < v1).
    { rewrite cmp_pair in E. unfold then_cmp in E. destruct (cmp v v1) eqn:Ev; [|by apply (proj1 (Z.compare_lt_iff _ _)) in Ev|done].
      apply cmp_eq_iff in Ev as ->. specialize (Hlt (v1, t1) y ltac:(by left) eq_refl). cbn in Hlt.
      apply (proj1 (Z.compare_lt_iff _ _)) in E. lia. }
    assert (Hnone : List.filter (fun p => p.1.1 =? v) (((v1, t1), y) :: m) = []).
    { apply filter_all_false. intros [[v2 t2] z] [[= <- <- <-]|Hin]; cbn [fst]; apply Z.eqb_neq; [lia|].
      specialize (Hk _ Hin). cbn [fst] in Hk. rewrite cmp_pair in Hk. unfold then_cmp in Hk.
      destruct (cmp v1 v2) eqn:Ev; [apply cmp_eq_iff in Ev; lia|apply (proj1 (Z.compare_lt_iff _ _)) in Ev; lia|done]. }
    cbn [List.filter fst]. rewrite (Z.eqb_sym v v'). destruct (Z.eqb_spec v' v) as [E'|Hn]; [rewrite E'|done].
    cbn [List.filter fst] in Hnone. by rewrite Hnone.
  - cbn [List.filter fst]. rewrite IH; [|done|intros k z Hin; apply (Hlt k z); by right].
    destruct (v' =? v), (v1 =? v'); done.
Qed.

Lemma object_run_insert k b run m runs : Forall2 object_run m runs -> object_run (k, b) (k, run) ->
  Forall2 object_run (om_insert k b m) (om_insert k run runs).
Proof.
  intros H Hk. induction H as [|[k1 b1] [k2 r2] m runs Hr Hrs IH]; [constructor; [done|constructor]|].
  assert (k1 = k2) as <- by apply Hr. cbn [om_insert].
  destruct (cmp k k1); (constructor; [done|]); [done|by constructor|done].
Qed.

(** The in-memory log given the records of a batch one after the other. *)
Fixpoint mem_append_all (l : MemVersionedLog) (records : list (Z * TxRecord)) (batch : list TxRecord)
  : result LogError (MemVersionedLog * list (Z * TxRecord)) :=
  match batch with
  | [] => Ok (l, records)
  | r :: batch => '(l, records) ← mem_log_append l records r; mem_append_all l records batch
  end.

Lemma mem_append_batch w n records batch : batch_contiguous n batch = true ->
  mem_append_all (mk_mem_log w n) records batch =
    Ok (mk_mem_log w (n + Z.of_nat (length batch)), records ++ map (pair w) batch).
Proof.
  revert n records. induction batch as [|r batch IH]; intros n records.
  { intros _. cbn [mem_append_all length map]. by rewrite Z.add_0_r, app_nil_r. }
  cbn [batch_contiguous]. intros [Hr%Z.eqb_eq Hb]%andb_true_iff. cbn [mem_append_all]. unfold mem_log_append.
  cbn [ml_next_t ml_write_version]. rewrite <- Hr, Z.eqb_refl. cbn [negb mbind result_bind]. rewrite Hr, IH by done.
  cbn [length map]. rewrite <- app_assoc. do 3 f_equal. lia.
Qed.

Lemma batch_run n batch : batch_contiguous n batch = true -> run_from n (map r_t batch).
Proof.
  revert n. induction batch as [|r batch IH]; intros n; [done|]. cbn [batch_contiguous map run_from].
  intros [Hr%Z.eqb_eq Hb]%andb_true_iff. split; [done|]. by apply IH.
Qed.

Lemma of_version_app records w batch v :
  of_version (records ++ map (pair w) batch) v = if v =? w then of_version records v ++ batch else of_version records v.
Proof.
  unfold of_version. rewrite List.filter_app, map_app. destruct (Z.eqb_spec v w) as [->|Hn].
  - f_equal. induction batch as [|r batch IH]; [done|]. cbn [map List.filter fst]. rewrite Z.eqb_refl. cbn [map]. by rewrite IH.
  - rewrite (filter_all_false _ (map (pair w) batch)); [by rewrite app_nil_r|].
    intros p (r & <- & _)%in_map_iff. apply Z.eqb_neq. cbn. lia.
Qed.

Lemma key_sorted_concat {A} (k : A -> Z) a b : key_sorted k a -> key_sorted k b ->
  (forall x y, In x a -> In y b -> k x < k y) -> key_sorted k (a ++ b).
Proof.
  intros Ha Hb Hab. induction Ha as [|x a Ha IH Hx]; [done|]. cbn [app]. constructor.
  - apply IH. intros y z Hy Hz. apply Hab; [by right|done].
  - apply Forall_app. split; [done|]. apply List.Forall_forall. intros y Hy. apply Hab; [by left|done].
Qed.

(** What is in the store is before the next transaction. *)
Lemma place_keys s old runs records w n : native_rel s old runs records -> Forall (fun r => r_t r < n) (of_version records w) ->
  forall k run, In (k, run) runs -> k.1 = w -> k.2 < n.
Proof.
  intros H Hbelow [v t'] run Hin Hv. cbn [fst snd] in *. subst v.
  destruct (Forall2_In_r _ _ _ _ (nr_objects _ _ _ _ H) Hin) as (o & _ & _ & r' & Hr' & Et). cbn [fst snd] in *.
  rewrite <- Et. rewrite List.Forall_forall in Hbelow. apply Hbelow. rewrite <- (nr_records _ _ _ _ H). apply in_app_iff. right.
  unfold version_runs. apply in_concat. exists run. split; [|apply last_Some in Hr' as [l ->]; apply in_app_iff; right; by left].
  apply in_map_iff. exists ((w, t'), run). split; [done|]. apply filter_In. split; [done|apply Z.eqb_refl].
Qed.

Lemma batch_last n batch framed t (b : bytes) : batch_contiguous n batch = true -> map fst framed = map r_t batch ->
  last framed = Some (t, b) -> n <= t /\ exists r, last batch = Some r /\ r_t r = t.
Proof.
  intros Hb Hts Hlast. pose proof (batch_run n batch Hb) as Hrun. apply (f_equal last) in Hts.
  assert (forall {A B} (f : A -> B) l, last (map f l) = f <$> last l) as Hm by (intros; apply fmap_last).
  rewrite !Hm, Hlast in Hts. destruct (last batch) as [r|] eqn:Hr; [|done]. cbn in Hts. injection Hts as ->. split; [|eauto].
  apply last_Some in Hr as [l ->]. rewrite map_app in Hrun. apply run_from_last in Hrun. lia.
Qed.

Lemma runs_wf s old runs records : native_rel s old runs records -> om_wf runs.
Proof.
  intros H. unfold om_wf. pose proof (rel_keys _ _ _ _ H) as E. pose proof (om_keys_wf _ (objects_wf s)) as Hk. rewrite <- E in Hk.
  clear -Hk. induction runs as [|p runs IH]; [constructor|]. cbn [map] in Hk. inversion_clear Hk as [|? ? Hk' Hp].
  constructor; [by apply IH|]. rewrite List.Forall_map in Hp. exact Hp.
Qed.

(** Publishing the batch as one object. *)
Lemma rel_publish s s' old runs records w n batch framed t b : native_rel s old runs records ->
  Forall (fun r => r_t r < n) (of_version records w) -> batch_contiguous n batch = true ->
  decode_framed_payloads (concat (map snd framed)) (mk_codec mode w) = Ok batch -> map fst framed = map r_t batch ->
  last framed = Some (t, b) -> chunks s' = chunks s -> objects s' = om_insert (w, t) (concat (map snd framed)) (objects s) ->
  native_rel s' old (om_insert (w, t) batch runs) (records ++ map (pair w) batch).
Proof.
  intros H Hbelow Hb Hd Hts Hlast Hc Ho. destruct (batch_last _ _ _ _ _ Hb Hts Hlast) as (Hnt & r & Hr & Ht).
  assert (Hkeys : forall k run, In (k, run) runs -> k.1 = w -> k.2 < t)
    by (intros k run Hin Hk; pose proof (place_keys _ _ _ _ w n H Hbelow k run Hin Hk); lia).
  split.
  - rewrite Hc. apply H.
  - rewrite Ho. apply object_run_insert; [apply H|]. split; [done|]. by exists r.
  - intros v. rewrite of_version_app. unfold version_runs at 2. rewrite (filter_insert w t batch runs v (runs_wf _ _ _ _ H) Hkeys).
    pose proof (nr_records _ _ _ _ H v) as Hp. destruct (v =? w); [|done].
    rewrite map_app, concat_app, app_assoc. fold (version_runs runs v). rewrite Hp. cbn [map concat snd]. by rewrite app_nil_r.
  - intros v. rewrite of_version_app. destruct (Z.eqb_spec v w) as [->|Hn]; [|apply H].
    pose proof (batch_run n batch Hb) as Hrun. apply key_sorted_concat; [apply H|by eapply run_sorted|]. intros x y Hx Hy.
    rewrite List.Forall_forall in Hbelow. specialize (Hbelow x Hx). apply (in_map r_t) in Hy.
    apply (run_from_In _ _ _ Hrun) in Hy. lia.
Qed.

Lemma next_past_batch w n records batch : Forall (fun r => r_t r < n) (of_version records w) -> batch_contiguous n batch = true ->
  Forall (fun r => r_t r < n + Z.of_nat (length batch)) (of_version (records ++ map (pair w) batch) w).
Proof.
  intros Hbelow Hb. rewrite of_version_app, Z.eqb_refl. apply Forall_app. split; [eapply List.Forall_impl; [|done]; cbn; lia|].
  apply List.Forall_forall. intros r Hr. apply (in_map r_t) in Hr. apply (run_from_In _ _ _ (batch_run n batch Hb)) in Hr.
  rewrite length_map in Hr. lia.
Qed.

(** A batch is taken as the in-memory log takes it, or leaves the log as it was. *)
Lemma append_refines s records l batch : codec_ok (mk_codec mode 0) -> holds_records s records ->
  nl_mode l = mode -> next_past l records -> batch_ok batch ->
  match native_append_batch l s batch with
  | (l', s', Ok _) => exists records', holds_records s' records' /\ next_past l' records' /\
      nl_mode l' = mode /\ nl_write_version l' = nl_write_version l /\
      mem_append_all (mk_mem_log (nl_write_version l) (nl_next_t l)) records (map snd batch) =
        Ok (mk_mem_log (nl_write_version l) (nl_next_t l'), records')
  | (l', s', Err e) => l' = l /\ (holds_records s' records \/
      (exists framed, put_batch s (nl_write_version l) framed = (s', Err e)) /\
      holds_records s' (records ++ map (pair (nl_write_version l)) (map snd batch)))
  end.
Proof.
  intros Hc H Hm Hbelow Hb. unfold native_append_batch. rewrite Hm.
  destruct (nl_read_only l); [split; [done|by left]|].
  case_bool_decide as Hlen.
  { apply length_zero_iff_nil in Hlen as ->. exists records. done. }
  destruct (batch_contiguous (nl_next_t l) (map snd batch)) eqn:Hcont; cbn [negb]; [|split; [done|by left]].
  destruct (frame_batch _ batch) as [framed|e] eqn:Hf; [|split; [done|by left]].
  destruct (frame_batch_ok (mk_codec mode (nl_write_version l)) batch framed Hc Hb Hf) as [Hts Hd].
  destruct (last framed) as [[t b]|] eqn:Hl.
  2:{ apply last_None in Hl as ->. by destruct batch. }
  pose proof (put_batch_once s (nl_write_version l) framed t b Hl) as Hput.
  destruct (put_batch s (nl_write_version l) framed) as [s' res] eqn:Es. destruct Hput as [Hch Hput]. destruct H as (old & runs & H).
  assert (Hkeep : objects s' = objects s -> holds_records s' records).
  { intros E. exists old, runs. destruct H as [Hc' Ho Hr Hs]. split; [by rewrite Hch|by rewrite E|done|done]. }
  assert (Hpub : objects s' = om_insert (nl_write_version l, t) (concat (map snd framed)) (objects s) ->
    holds_records s' (records ++ map (pair (nl_write_version l)) (map snd batch)))
    by (intros E; eexists _, _; by eapply rel_publish).
  destruct res as [[]|e].
  - eexists. split; [apply Hpub, Hput|]. rewrite mem_append_batch by done. unfold next_past. cbn [nl_next_t nl_write_version nl_mode].
    rewrite length_map. split_and!; [|done|done|done]. rewrite <- (length_map snd batch). by apply next_past_batch.
  - split; [done|]. left. apply Hkeep, Hput.
  - split; [done|]. destruct Hput as [E|[_ E]]; [left; by apply Hkeep|]. right. split; [by exists framed|by apply Hpub].
Qed.

Lemma mem_append_contiguous w n records batch :
  is_ok (mem_append_all (mk_mem_log w n) records batch) = true -> batch_contiguous n batch = true.
Proof.
  revert n records. induction batch as [|r batch IH]; intros n records; [done|]. cbn [mem_append_all batch_contiguous]. unfold mem_log_append.
  cbn [ml_next_t ml_write_version]. rewrite (Z.eqb_sym n). destruct (r_t r =? n); [|done]. cbn [negb mbind result_bind andb]. apply IH.
Qed.

(** An object of the batch's key would be a record at or past the next transaction. *)
Lemma append_accepts s records l batch framed : codec_ok (mk_codec mode 0) -> holds_records s records ->
  nl_mode l = mode -> next_past l records -> batch_ok batch -> nl_read_only l = false ->
  is_ok (mem_append_all (mk_mem_log (nl_write_version l) (nl_next_t l)) records (map snd batch)) = true ->
  frame_batch (mk_codec mode (nl_write_version l)) batch = Ok framed -> is_ok (put_batch s (nl_write_version l) framed).2 = true ->
  (native_append_batch l s batch).2 = Ok tt.
Proof.
  intros Hc (old & runs & H) Hm Hbelow Hb Hw Hmem Hf Hok. apply mem_append_contiguous in Hmem. unfold native_append_batch.
  rewrite Hw, Hm. case_bool_decide as Hlen; [done|]. rewrite Hmem, Hf. cbn [negb].
  destruct (frame_batch_ok (mk_codec mode (nl_write_version l)) batch framed Hc Hb Hf) as [Hts _].
  destruct (last framed) as [[t b]|] eqn:Hl.
  2:{ apply last_None in Hl as ->. by destruct batch. }
  destruct (batch_last _ _ _ _ _ Hmem Hts Hl) as [Hnt _].
  pose proof (put_batch_once s (nl_write_version l) framed t b Hl) as Hput.
  destruct (put_batch s (nl_write_version l) framed) as [s' [[]|e]]; [done| |done]. exfalso. destruct Hput as (_ & Hsome & _).
  destruct (om_get (nl_write_version l, t) (objects s)) as [x|] eqn:E; [|done]. apply om_get_In, (in_map fst) in E.
  rewrite <- (rel_keys _ _ _ _ H) in E. apply in_map_iff in E as ([k run] & [= ->] & Hin).
  pose proof (place_keys _ _ _ _ _ _ H Hbelow _ _ Hin eq_refl) as Hlt. cbn [snd] in Hlt. lia.
Qed.

(** ** Opening *)

Lemma merge_tail {T} (t : T -> Z) before (own : list T) : Forall (fun r => t r < U64_MAX) own ->
  exists kept, merge_versions t (before ++ [own]) = kept ++ own.
Proof.
  intros Hs. unfold merge_versions. induction before as [|l before [kept IH]].
  - exists []. cbn [app merge_loop snd]. rewrite app_nil_r. apply filter_all_true. intros r Hr. rewrite List.Forall_forall in Hs.
    apply Z.ltb_lt. by apply Hs.
  - cbn [app merge_loop]. destruct (merge_loop t (before ++ [own])) as [c m]. cbn [snd] in *. subst m. eexists. by rewrite app_assoc.
Qed.

Lemma os_split_last (l : list Z) w : os_wf l -> In w l -> (forall v, In v l -> v <= w) -> exists before, l = before ++ [w].
Proof.
  intros Hs Hin Hmax. induction Hs as [|x l Hs IH Hx]; [done|]. destruct Hin as [->|Hin].
  - exists []. destruct l as [|y l]; [done|]. inversion_clear Hx as [|? ? Hy _]. apply (proj1 (Z.compare_lt_iff _ _)) in Hy.
    specialize (Hmax y ltac:(right; by left)). lia.
  - destruct IH as [before ->]; [done|intros v Hv; apply Hmax; by right|]. by exists (x :: before).
Qed.

Lemma key_sorted_last {A} (k : A -> Z) l x : key_sorted k l -> last l = Some x -> Forall (fun y => k y <= k x) l.
Proof.
  intros Hs [l' ->]%last_Some. induction l' as [|y l' IH]; [repeat constructor; lia|]. inversion_clear Hs as [|? ? Hs' Hy].
  constructor; [|by apply IH]. rewrite List.Forall_forall in Hy. assert (k y < k x); [|lia]. apply Hy, in_app_iff. right. by left.
Qed.

(** A log opened under the newest version writes past everything of that version. *)
Lemma open_past s old runs records w : native_rel s old runs records -> (forall v, In v (map fst records) -> v <= w) ->
  Forall (fun p => r_t p.2 < U64_MAX) records ->
  next_past (mk_native_log w false mode (ml_next_t (mem_log_open records w))) records.
Proof.
  intros H Hmax Hs. unfold next_past. cbn [nl_write_version nl_next_t mem_log_open ml_next_t].
  destruct (last (of_version records w)) as [x|] eqn:Hx; [|by apply last_None in Hx as ->].
  assert (Hin : In w (map fst records)) by (apply of_version_In; by destruct (of_version records w)).
  destruct (os_split_last (os_of_list (map fst records)) w) as [before E];
    [apply os_of_list_wf|by apply os_of_list_In|intros v Hv; apply Hmax; by apply os_of_list_In|].
  assert (Hsmall : Forall (fun r => r_t r < U64_MAX) (of_version records w)).
  { apply List.Forall_forall. intros r (p & <- & [Hp _]%filter_In)%in_map_iff. rewrite List.Forall_forall in Hs. by apply Hs. }
  unfold mem_merged. rewrite E, map_app. cbn [map]. destruct (merge_tail r_t (map (of_version records) before) _ Hsmall) as [kept ->].
  assert (last (kept ++ of_version records w) = Some x) as -> by (apply last_Some in Hx as [l ->]; by rewrite app_assoc, last_snoc).
  eapply List.Forall_impl; [|apply (key_sorted_last r_t _ x); [apply H|done]]. cbn. lia.
Qed.

(** C19. Over any store that keeps its promises, its legacy chunks included, the native log
    refines the in-memory versioned log, up to the check of the merge for holes, which the
    in-memory log does not make. A read returns the in-memory log's range once the merge has
    no hole. A batch that is acknowledged is one the in-memory log accepts record by record,
    and leaves the store and the log in step with it; a batch that is refused left both as
    they were, unless the store reported an error for a publication that had happened, after
    which the store holds the batch and this log's next transaction is behind it. A batch
    that the in-memory log accepts is acknowledged by a writable log whose records encode,
    unless the store reports an error. A log opened under the newest version starts where
    the in-memory log does, past every record of its version, so that opening again brings
    log and store back in step. *)
Theorem native_log_refines s records l : codec_ok (mk_codec mode 0) -> holds_records s records ->
  nl_mode l = mode -> next_past l records ->
  (store_answers s -> forall start end_, native_tx_range l s start end_ =
     (_ ← validate_merged_contiguity r_t (mem_merged records); Ok (mem_log_tx_range records start end_))) /\
  (forall batch, batch_ok batch ->
   match native_append_batch l s batch with
   | (l', s', Ok _) => exists records', holds_records s' records' /\ next_past l' records' /\
       nl_mode l' = mode /\ nl_write_version l' = nl_write_version l /\
       mem_append_all (mk_mem_log (nl_write_version l) (nl_next_t l)) records (map snd batch) =
         Ok (mk_mem_log (nl_write_version l) (nl_next_t l'), records')
   | (l', s', Err e) => l' = l /\ (holds_records s' records \/
       (exists framed, put_batch s (nl_write_version l) framed = (s', Err e)) /\
       holds_records s' (records ++ map (pair (nl_write_version l)) (map snd batch)))
   end) /\
  (forall batch framed, batch_ok batch -> nl_read_only l = false ->
   is_ok (mem_append_all (mk_mem_log (nl_write_version l) (nl_next_t l)) records (map snd batch)) = true ->
   frame_batch (mk_codec mode (nl_write_version l)) batch = Ok framed -> is_ok (put_batch s (nl_write_version l) framed).2 = true ->
   (native_append_batch l s batch).2 = Ok tt) /\
  (forall cipher w, mode = LogRecord.mode (codec_new cipher 0) -> store_answers s ->
   native_open s w cipher = (_ ← validate_merged_contiguity r_t (mem_merged records);
     Ok (mk_native_log w false mode (ml_next_t (mem_log_open records w)))) /\
   ((forall v, In v (map fst records) -> v <= w) -> Forall (fun p => r_t p.2 < U64_MAX) records ->
     next_past (mk_native_log w false mode (ml_next_t (mem_log_open records w))) records)).
Proof.
  intros Hc H Hm Hp. split_and!.
  - intros Ha start end_. unfold native_tx_range. rewrite Hm, (native_merged s records Ha H).
    by destruct (validate_merged_contiguity r_t (mem_merged records)).
  - intros batch Hb. by apply append_refines.
  - intros batch framed Hb Hw Hmem Hf Hput. by eapply append_accepts.
  - intros cipher w Hmode Ha. split; [|intros Hmax Hs; destruct H as (old & runs & H); by eapply open_past].
    unfold native_open. rewrite <- Hmode, (native_merged s records Ha H).
    by destruct (validate_merged_contiguity r_t (mem_merged records)).
Qed.
End native.

(** ** Samples *)

#[local] Existing Instance toy_crypto.
#[local] Existing Instance toy_crypto_laws.
#[local] Existing Instance castagnoli.
#[local] Existing Instance castagnoli_laws.

(** Legacy chunks, and objects in the order of their publication; an unsteady store reports an error for the
    next one it publishes. *)
Record ObjectStore := mk_object_store { os_legacy : list ((Z * Z) * bytes); os_published : list ((Z * Z) * bytes); os_unsteady : bool }.

Definition object_put (s : ObjectStore) (v : Z) (records : list (Z * bytes)) : ObjectStore * result LogError bool :=
  match last records with
  | None => (s, Ok true)
  | Some (t, _) =>
      if is_some (om_get (v, t) (om_of_list (os_published s))) then (s, Ok false)
      else (mk_object_store (os_legacy s) (os_published s ++ [((v, t), concat (map snd records))]) false,
            if os_unsteady s then Err (LogError.Native "timed out") else Ok true)
  end.

#[local] Instance object_storage : NativeLogStorage ObjectStore := {|
  put_batch := object_put;
  read_record := fun s v t => Ok (om_get (v, t) (om_of_list (os_published s)));
  list_records := fun s => Ok (map fst (om_of_list (os_published s)));
  read_legacy_chunk := fun s v k => Ok (om_get (v, k) (om_of_list (os_legacy s)));
  list_legacy_chunks := fun s => Ok (map fst (om_of_list (os_legacy s)));
|}.

#[local, refine] Instance object_storage_laws : NativeLogLaws object_storage := {|
  objects s := om_of_list (os_published s);
  chunks s := om_of_list (os_legacy s);
|}.
Proof.
  - intros s. apply om_of_list_wf.
  - intros s. apply om_of_list_wf.
  - by intros s keys [= <-].
  - by intros s v t b [= <-].
  - by intros s keys [= <-].
  - by intros s v k b [= <-].
  - intros s v records t b Hl published. cbn [put_batch object_storage]. unfold object_put. rewrite Hl.
    destruct (om_get (v, t) (om_of_list (os_published s))) as [x|] eqn:E; cbn [is_some]; [done|]. split; [done|].
    assert (om_of_list (os_published s ++ [(v, t, concat (map snd records))]) = published) as Ep.
    { unfold om_of_list. by rewrite fold_left_app. }
    cbn [os_published]. rewrite Ep. destruct (os_unsteady s); [by right|done].
Defined.

Definition native_mode : RecordMode := mode (codec_new (Some sample_cipher) 0).

Definition native_batch (ts : list Z) : list (option bytes * TxRecord) := map (fun t => (sample_rand t, sample_record t)) ts.

(** A chunk of the older layout holds the first transaction; the log opens over it and
    appends. *)
Definition legacy_chunk : bytes :=
  match frame_batch (mk_codec native_mode 1) (native_batch [1]) with Ok framed => concat (map snd framed) | Err _ => [] end.

Definition legacy_store : ObjectStore := mk_object_store [((1, 0), legacy_chunk)] [] false.

Definition sample_native : result LogError (NativeVersionedLog * ObjectStore * result LogError unit) :=
  l ← native_open legacy_store 1 (Some sample_cipher); Ok (native_append_batch l legacy_store (native_batch [2])).

Definition native_store : ObjectStore := match sample_native with Ok (_, s, _) => s | Err _ => legacy_store end.

Lemma native_batch_ok ts : incl ts [1; 2; 3; 4] -> batch_ok (native_batch ts).
Proof.
  intros Hi. apply List.Forall_forall. intros p (t & <- & Ht)%in_map_iff. split; [apply sample_rand_ok|].
  apply sample_record_wf. by apply Hi.
Qed.

Definition native_records : list (Z * TxRecord) := [(1, sample_record 1); (1, sample_record 2)].

Lemma sample_native_rel : native_rel native_mode native_store [((1, 0), [sample_record 1])] [((1, 2), [sample_record 2])] native_records.
Proof.
  split.
  - assert (exists b, chunks native_store = [((1, 0), b)] /\
      decode_framed_payloads b (mk_codec native_mode 1) = Ok [sample_record 1]) as (b & -> & Hd)
      by (eexists; split; [vm_compute; reflexivity|vm_compute; reflexivity]).
    constructor; [|constructor]. done.
  - assert (exists b, objects native_store = [((1, 2), b)] /\
      decode_framed_payloads b (mk_codec native_mode 1) = Ok [sample_record 2]) as (b & -> & Hd)
      by (eexists; split; [vm_compute; reflexivity|vm_compute; reflexivity]).
    constructor; [|constructor]. split; [done|]. exists (sample_record 2). done.
  - intros v. unfold of_version, version_runs, native_records. cbn [List.filter fst]. destruct (1 =? v); reflexivity.
  - intros v. unfold of_version, native_records. cbn [List.filter fst]. destruct (1 =? v); cbn; repeat constructor; cbn; lia.
Qed.

Lemma native_log_refines_witness :
  let l := mk_native_log 1 false native_mode 3 in
  sample_native = Ok (l, native_store, Ok tt) /\
  native_tx_range l native_store 1 None = Ok [sample_record 1; sample_record 2] /\
  (native_append_batch l native_store (native_batch [3])).2 = Ok tt /\
  native_open native_store 2 (Some sample_cipher) = Ok (mk_native_log 2 false native_mode 3).
Proof.
  intros l. split; [vm_compute; reflexivity|].
  destruct (native_log_refines native_mode native_store native_records l ltac:(apply sample_cipher_ok)) as (Hr & _ & Ha & Ho);
    [eexists _, _; exact sample_native_rel|done|repeat constructor|].
  assert (Hans : store_answers native_store) by (split_and!; eauto). split_and!.
  - rewrite Hr by done. vm_compute. reflexivity.
  - destruct (frame_batch (mk_codec native_mode 1) (native_batch [3])) as [framed|e] eqn:Hf; [|exfalso; revert Hf; vm_compute; congruence].
    apply (Ha (native_batch [3]) framed); [apply native_batch_ok; intros x [<-|[]]; simpl; auto|done|vm_compute; reflexivity|exact Hf|].
    revert Hf. vm_compute. intros [= <-]. reflexivity.
  - destruct (Ho (Some sample_cipher) 2 eq_refl Hans) as [-> _]. vm_compute. reflexivity.
Defined.

(** A batch is published and its store reports an error; the log, which keeps its place,
    takes a shorter batch from the same transaction and acknowledges it. From then on the
    version has the transaction twice and no read succeeds. *)
Lemma ambiguous_publication :
  let l := mk_native_log 1 false native_mode 1 in
  let '(l1, s1, r1) := native_append_batch l (mk_object_store [] [] true) (native_batch [1; 2]) in
  let '(l2, s2, r2) := native_append_batch l1 s1 (native_batch [1]) in
  r1 = Err (LogError.Native "timed out") /\ r2 = Ok tt /\ native_tx_range l2 s2 0 None = Err LogError.Corrupt /\
  native_open s2 2 (Some sample_cipher) = Err LogError.Corrupt.
Proof. vm_compute. split_and!; reflexivity. Qed.
