(* ===== verification/LogInterface.v ===== *)
(** * The transaction log interface, and logs rooted at a basis (corium-log/src/lib.rs)

    [TransactionLog] is the trait and [TransactionLogLaws] what its implementations promise:
    the log is a run of transactions numbered from one. The in-memory log and the file log
    keep the promise, and a rooted log turns a log that keeps it into one numbered from its
    basis. *)

From stdpp Require Import base list strings.
From Stdlib Require Import ZArith Lia Sorted.
From S2P Require Import Prelude OrdMap Machine Values Datoms Crypt LogRecord FileLog FileLogFacts FileLogTheorems.
From S2P Require Import VersionedLog.
Local Open Scope Z_scope.

(** ** The trait *)

(** A log shared by its callers is passed on by every call. *)
Class TransactionLog (L : Type) := {
  append : L -> TxRecord -> L * result LogError unit;
  append_batch : L -> list TxRecord -> L * result LogError unit;
  tx_range : L -> Z -> option Z -> L * result LogError (list TxRecord);
  tx_range_framed : L -> Z -> option Z -> L * result LogError (list FramedRecord);
  replay : L -> L * result LogError (list TxRecord);
}.

Section defaults.
Context {L : Type} (append : L -> TxRecord -> L * result LogError unit).
Context (tx_range : L -> Z -> option Z -> L * result LogError (list TxRecord)).

Fixpoint default_append_batch (log : L) (records : list TxRecord) : L * result LogError unit :=
  match records with
  | [] => (log, Ok tt)
  | r :: records =>
      match append log r with
      | (log, Err e) => (log, Err e)
      | (log, Ok _) => default_append_batch log records
      end
  end.

(** The records of the range framed again in the clear. *)
Definition default_tx_range_framed `{K : Crc32c} (log : L) (start : Z) (end_ : option Z)
  : L * result LogError (list FramedRecord) :=
  let (log, res) := tx_range log start end_ in
  (log, records ← res;
        try_map (fun r => frame ← append_framed_record [] r; Ok (mk_framed (r_t r) 0 frame)) records).

Definition default_replay (log : L) : L * result LogError (list TxRecord) := tx_range log 0 None.
End defaults.

(** ** Logs rooted at a basis *)

Record RootedLog (L : Type) := mk_rooted { rl_inner : L; rl_basis : Z }.
Arguments mk_rooted {L} _ _.
Arguments rl_inner {L} _.
Arguments rl_basis {L} _.

Definition saturating_sub_u64 (x y : Z) : Z := Z.max 0 (x - y).

Definition inward (basis : Z) (record : TxRecord) : result LogError TxRecord :=
  t ← ok_or (t ← checked_sub_u64 (r_t record) basis; if 0 <? t then Some t else None) LogError.Corrupt;
  Ok (mk_tx_record t (r_tx_instant record) (r_datoms record)).

Definition inward_range (basis start : Z) (end_ : option Z) : Z * option Z :=
  (saturating_sub_u64 start basis, (fun e => saturating_sub_u64 e basis) <$> end_).

Definition outward (basis : Z) (records : list TxRecord) : list TxRecord :=
  map (fun r => mk_tx_record (saturating_add_u64 (r_t r) basis) (r_tx_instant r) (r_datoms r)) records.

Section rooted.
Context {L : Type} `{TransactionLog L} `{K : Crc32c}.

Definition with_inner (log : RootedLog L) (inner : L) : RootedLog L := mk_rooted inner (rl_basis log).

Definition rooted_append (log : RootedLog L) (record : TxRecord) : RootedLog L * result LogError unit :=
  match inward (rl_basis log) record with
  | Err e => (log, Err e)
  | Ok r => let (inner, res) := append (rl_inner log) r in (with_inner log inner, res)
  end.

Definition rooted_append_batch (log : RootedLog L) (records : list TxRecord) : RootedLog L * result LogError unit :=
  match try_map (inward (rl_basis log)) records with
  | Err e => (log, Err e)
  | Ok records => let (inner, res) := append_batch (rl_inner log) records in (with_inner log inner, res)
  end.

Definition rooted_tx_range (log : RootedLog L) (start : Z) (end_ : option Z)
  : RootedLog L * result LogError (list TxRecord) :=
  let (start, end_) := inward_range (rl_basis log) start end_ in
  let (inner, res) := tx_range (rl_inner log) start end_ in
  (with_inner log inner, outward (rl_basis log) <$> res).

Definition rooted_replay (log : RootedLog L) : RootedLog L * result LogError (list TxRecord) :=
  let (inner, res) := replay (rl_inner log) in (with_inner log inner, outward (rl_basis log) <$> res).

#[export] Instance rooted_log : TransactionLog (RootedLog L) := {|
  append := rooted_append;
  append_batch := rooted_append_batch;
  tx_range := rooted_tx_range;
  tx_range_framed := default_tx_range_framed rooted_tx_range;
  replay := rooted_replay;
|}.
End rooted.

(** ** What a log promises *)

(** A log holds the transactions numbered from one. It takes none but the next; an append
    that reports an error may have taken effect or not, and a batch that fails part of the
    way leaves a prefix of it. *)
Class TransactionLogLaws {L : Type} (T : TransactionLog L) := {
  log_holds : L -> list TxRecord -> Prop;
  log_readable : L -> Prop;
  log_numbered log rs : log_holds log rs -> run_from 1 (map r_t rs);
  append_next log rs r : log_holds log rs -> record_wf r ->
    let (log', res) := append log r in
    match res with
    | Ok _ => r_t r = 1 + Z.of_nat (length rs) /\ log_holds log' (rs ++ [r])
    | Err _ => log_holds log' rs \/ log_holds log' (rs ++ [r])
    end;
  append_batch_next log rs batch : log_holds log rs -> Forall record_wf batch ->
    let (log', res) := append_batch log batch in
    match res with
    | Ok _ => run_from (1 + Z.of_nat (length rs)) (map r_t batch) /\ log_holds log' (rs ++ batch)
    | Err _ => exists n, log_holds log' (rs ++ take n batch)
    end;
  tx_range_all log rs start end_ : log_holds log rs -> log_readable log ->
    exists log', tx_range log start end_ = (log', Ok (memory_tx_range rs start end_)) /\ log_holds log' rs;
  replay_all log rs : log_holds log rs -> log_readable log ->
    exists log', replay log = (log', Ok rs) /\ log_holds log' rs;
}.

Lemma default_batch_next {L} (append : L -> TxRecord -> L * result LogError unit) (holds : L -> list TxRecord -> Prop) :
  (forall log rs r, holds log rs -> record_wf r ->
    let (log', res) := append log r in
    match res with
    | Ok _ => r_t r = 1 + Z.of_nat (length rs) /\ holds log' (rs ++ [r])
    | Err _ => holds log' rs \/ holds log' (rs ++ [r])
    end) ->
  forall log rs batch, holds log rs -> Forall record_wf batch ->
  let (log', res) := default_append_batch append log batch in
  match res with
  | Ok _ => run_from (1 + Z.of_nat (length rs)) (map r_t batch) /\ holds log' (rs ++ batch)
  | Err _ => exists n, holds log' (rs ++ take n batch)
  end.
Proof.
  intros Happ log rs batch. revert log rs. induction batch as [|r batch IH]; intros log rs H Hb.
  { cbn. by rewrite app_nil_r. }
  inversion_clear Hb as [|? ? Hr Hb']. cbn [default_append_batch]. specialize (Happ log rs r H Hr).
  destruct (append log r) as [log1 [[]|e]]; [|destruct Happ; [exists 0%nat; by rewrite take_0, app_nil_r|by exists 1%nat]].
  destruct Happ as [Ht H1]. specialize (IH log1 (rs ++ [r]) H1 Hb'). destruct (default_append_batch append log1 batch) as [log' [[]|e]].
  - destruct IH as [Hrun H']. rewrite length_app in Hrun. cbn [length] in Hrun. rewrite <- app_assoc in H'. cbn [map run_from].
    split; [|done]. split; [done|]. by replace (1 + Z.of_nat (length rs) + 1) with (1 + Z.of_nat (length rs + 1)) by lia.
  - destruct IH as [n Hn]. exists (S n). rewrite <- app_assoc in Hn. exact Hn.
Qed.

Lemma memory_range_all rs : run_from 1 (map r_t rs) -> memory_tx_range rs 0 None = rs.
Proof.
  intros Hn. apply filter_all_true. intros r Hr%(in_map r_t). apply (run_from_In _ _ _ Hn) in Hr.
  unfold in_tx_range. cbn [is_none_or]. rewrite andb_true_r. apply Z.leb_le. lia.
Qed.

(** *** The in-memory log *)

Definition memory_append_log (records : list TxRecord) (r : TxRecord) : list TxRecord * result LogError unit :=
  match memory_append records r with Ok records => (records, Ok tt) | Err e => (records, Err e) end.
Definition memory_range_log (records : list TxRecord) (start : Z) (end_ : option Z)
  : list TxRecord * result LogError (list TxRecord) := (records, Ok (memory_tx_range records start end_)).

#[export] Instance memory_log `{K : Crc32c} : TransactionLog (list TxRecord) := {|
  append := memory_append_log;
  append_batch := default_append_batch memory_append_log;
  tx_range := memory_range_log;
  tx_range_framed := default_tx_range_framed memory_range_log;
  replay := default_replay memory_range_log;
|}.

Lemma memory_append_law records rs r : records = rs /\ run_from 1 (map r_t rs) -> record_wf r ->
  let (records', res) := memory_append_log records r in
  match res with
  | Ok _ => r_t r = 1 + Z.of_nat (length rs) /\ records' = rs ++ [r] /\ run_from 1 (map r_t (rs ++ [r]))
  | Err _ => records' = rs /\ run_from 1 (map r_t rs)
  end.
Proof.
  intros [-> Hn] _. unfold memory_append_log. rewrite memory_append_next by done.
  destruct (Z.eqb_spec (r_t r) (1 + Z.of_nat (length rs))) as [Ht|Ht]; [|done]. split_and!; [done|done|].
  rewrite map_app. apply run_from_app. rewrite length_map. split; [done|]. by split.
Qed.

Lemma memory_append_next_law records rs r : records = rs /\ run_from 1 (map r_t rs) -> record_wf r ->
  let (records', res) := memory_append_log records r in
  match res with
  | Ok _ => r_t r = 1 + Z.of_nat (length rs) /\ records' = rs ++ [r] /\ run_from 1 (map r_t (rs ++ [r]))
  | Err _ => (records' = rs /\ run_from 1 (map r_t rs)) \/ (records' = rs ++ [r] /\ run_from 1 (map r_t (rs ++ [r])))
  end.
Proof.
  intros H Hw. pose proof (memory_append_law records rs r H Hw) as Ha. destruct (memory_append_log records r) as [records' [[]|e]]; [done|by left].
Qed.

#[export, refine] Instance memory_log_laws `{K : Crc32c} : TransactionLogLaws memory_log := {|
  log_holds records rs := records = rs /\ run_from 1 (map r_t rs);
  log_readable _ := True;
|}.
Proof.
  - by intros records rs [_ ?].
  - exact memory_append_next_law.
  - exact (default_batch_next _ (fun records rs => records = rs /\ run_from 1 (map r_t rs)) memory_append_next_law).
  - intros records rs start end_ [-> Hn] _. eexists. done.
  - intros records rs [-> Hn] _. exists rs. split; [|done]. cbn. unfold default_replay, memory_range_log.
    by rewrite memory_range_all.
Defined.

(** *** The file log *)

(** A handle and its file; [rand] is what the random source gives for each record's seal,
    and [io] what the operating system does with each frame it is given to write. *)
Record FileLog := mk_file_log { fl_handle : IndexedFile; fl_file : bytes }.

Section file_log.
Context `{CL : CryptoLaws} `{K : Crc32c} `{KL : !Crc32cLaws K}.
Context (rand : TxRecord -> option bytes) (Hrand : forall r, rand_ok (rand r)) (io : FileLog -> TxRecord -> WriteOutcome).
Context (cipher : option LogCipher) (Hcodec : codec_ok (codec_new cipher 0)).

Definition file_append_log (log : FileLog) (r : TxRecord) : FileLog * result LogError unit :=
  let '(f, file, res) := file_log_append (rand r) (io log r) (fl_handle log) (fl_file log) r in (mk_file_log f file, res).
Definition file_range_log (log : FileLog) (start : Z) (end_ : option Z) : FileLog * result LogError (list TxRecord) :=
  let (f, res) := file_log_tx_range (fl_handle log) (fl_file log) start end_ in (mk_file_log f (fl_file log), res).
Definition file_range_framed_log (log : FileLog) (start : Z) (end_ : option Z)
  : FileLog * result LogError (list FramedRecord) :=
  let (f, res) := file_log_tx_range_framed (fl_handle log) (fl_file log) start end_ in (mk_file_log f (fl_file log), res).

Definition file_log : TransactionLog FileLog := {|
  append := file_append_log;
  append_batch := default_append_batch file_append_log;
  tx_range := file_range_log;
  tx_range_framed := file_range_framed_log;
  replay := default_replay file_range_log;
|}.

(** What the file holds, under a handle that is in step with it or one that a failed write
    has poisoned. *)
Definition file_holds (log : FileLog) (rs : list TxRecord) : Prop :=
  file_log_rel (codec_new cipher 0) (fl_handle log) (fl_file log) rs \/
  (ix_poisoned (fl_handle log) = true /\ exists fs tail, log_file (codec_new cipher 0) (fl_file log) fs rs tail).

Lemma file_append_law log rs r : file_holds log rs -> record_wf r ->
  let (log', res) := file_append_log log r in
  match res with
  | Ok _ => r_t r = 1 + Z.of_nat (length rs) /\ file_holds log' (rs ++ [r])
  | Err _ => file_holds log' rs \/ file_holds log' (rs ++ [r])
  end.
Proof.
  intros [(fs & tail & Hlf & Ho & Hw)|[Hp Hlf]] Hwf; unfold file_append_log.
  2:{ destruct (poisoned_append (rand r) (io log r) (fl_handle log) (fl_file log) r Hp) as [e ->]. left. right. done. }
  destruct (file_log_append_cases _ Hcodec _ fs rs tail Hlf (rand r) (io log r) _ r Ho Hw (Hrand r) Hwf)
    as (f1 & Hcur & Hw1 & [(e & -> & _)|(-> & Ht & p & Hp & ->)]).
  { left. left. exists fs, tail. by destruct Hcur. }
  assert (Hfail : forall n, let log' := mk_file_log (poison f1) (fl_file log ++ take n (frame_of false p)) in
    file_holds log' rs \/ file_holds log' (rs ++ [r])).
  { intros n. destruct (log_file_torn _ Hcodec _ _ _ _ _ _ n Hlf (Hrand r) Hwf Ht Hp) as [H|H]; [left|right]; right; split; eauto. }
  destruct (io log r) as [|n e|e]; [|by apply Hfail|].
  - split; [done|]. left. exists (fs ++ [(r_t r, (false, p))]), []. cbn [fl_handle fl_file].
    split; [by eapply log_file_push|]. split; [|done]. by eapply handle_push.
  - specialize (Hfail (length (frame_of false p))). by rewrite firstn_all in Hfail.
Qed.

(** Opening the file again gives a handle in step with what it holds. *)
Lemma file_reopen_law log rs : file_holds log rs -> exists f file,
  file_log_open (Some (fl_file log)) cipher = Ok (f, file) /\ file_log_rel (codec_new cipher 0) f file rs.
Proof.
  assert (Hopen : forall fs tail, log_file (codec_new cipher 0) (fl_file log) fs rs tail -> exists f file,
    file_log_open (Some (fl_file log)) cipher = Ok (f, file) /\ file_log_rel (codec_new cipher 0) f file rs).
  { intros fs tail H. destruct (file_log_open_ok _ Hcodec _ _ _ _ cipher eq_refl H) as (g & Eg & Hg & Hgw & Hg').
    exists g, (frames_of fs). split; [done|]. exists fs, []. by destruct Hg. }
  intros [(fs & tail & Hlf & _)|(_ & fs & tail & Hlf)]; by eapply Hopen.
Qed.

Definition file_readable (log : FileLog) : Prop := ix_poisoned (fl_handle log) = false /\ fits (fl_file log).

Lemma file_range_law log rs start end_ : file_holds log rs -> file_readable log ->
  exists log', file_range_log log start end_ = (log', Ok (memory_tx_range rs start end_)) /\ file_holds log' rs.
Proof.
  intros [H|[Hp _]] [Hh Hf]; [|congruence].
  destruct (file_log_range _ _ _ rs start end_ Hcodec H Hf) as (f' & E & H'). unfold file_range_log. rewrite E.
  eexists. split; [done|]. by left.
Qed.

Lemma file_numbered log rs : file_holds log rs -> run_from 1 (map r_t rs).
Proof. intros [(fs & tail & Hlf & _)|(_ & fs & tail & Hlf)]; apply Hlf. Qed.

#[refine] Instance file_log_laws : TransactionLogLaws file_log := {|
  log_holds := file_holds;
  log_readable := file_readable;
|}.
Proof.
  - exact file_numbered.
  - exact file_append_law.
  - exact (default_batch_next _ file_holds file_append_law).
  - exact file_range_law.
  - intros log rs H Hf. destruct (file_range_law log rs 0 None H Hf) as (log' & E & H'). exists log'. split; [|done].
    cbn [replay file_log]. unfold default_replay. rewrite E. by rewrite memory_range_all by (by eapply file_numbered).
Defined.
End file_log.

(** ** A rooted log *)

Section rooted_laws.
Context {L : Type} {T : TransactionLog L} {TL : TransactionLogLaws T} `{K : Crc32c}.

Definition shift (basis : Z) (r : TxRecord) : TxRecord := mk_tx_record (r_t r + basis) (r_tx_instant r) (r_datoms r).

(** The inner log holds the records renumbered from one, below the last number there is. *)
Definition rooted_holds (log : RootedLog L) (rs : list TxRecord) : Prop :=
  exists inner, log_holds (rl_inner log) inner /\ rs = map (shift (rl_basis log)) inner /\
    0 <= rl_basis log /\ rl_basis log + Z.of_nat (length inner) < 2 ^ 64.

Lemma outward_shift basis inner rs : run_from 1 (map r_t inner) -> incl rs inner ->
  basis + Z.of_nat (length inner) < 2 ^ 64 -> outward basis rs = map (shift basis) rs.
Proof.
  intros Hn Hi Hb. apply map_ext_in. intros r Hr%Hi%(in_map r_t). apply (run_from_In _ _ _ Hn) in Hr.
  rewrite length_map in Hr. unfold shift, saturating_add_u64. by rewrite Z.min_l by lia.
Qed.

Lemma inward_next basis r : 0 <= basis -> inward basis r =
  if basis <? r_t r then Ok (shift (- basis) r) else Err LogError.Corrupt.
Proof.
  intros Hb. unfold inward, checked_sub_u64, shift. destruct (Z.ltb_spec basis (r_t r)) as [H|H].
  - rewrite (proj2 (Z.leb_le _ _)) by lia. cbn [mbind option_bind]. rewrite (proj2 (Z.ltb_lt _ _)) by lia. done.
  - destruct (Z.leb_spec basis (r_t r)); [|done]. cbn [mbind option_bind]. by rewrite (proj2 (Z.ltb_ge _ _)) by lia.
Qed.

Lemma shift_wf basis r : record_wf r -> 0 <= basis < r_t r -> record_wf (shift (- basis) r).
Proof.
  intros [Ht Hi Hd Hs] Hb. split; cbn [shift r_t r_tx_instant r_datoms]; [lia|done|done|].
  unfold encode_record in *. cbn [shift r_t r_tx_instant r_datoms]. rewrite !length_app, !length_to_be_bytes in *. done.
Qed.

Lemma shift_range basis rs start end_ : 0 <= basis -> Forall (fun r => 1 <= r_t r) rs ->
  memory_tx_range (map (shift basis) rs) start end_ =
    map (shift basis) (memory_tx_range rs (saturating_sub_u64 start basis)
      ((fun e => saturating_sub_u64 e basis) <$> end_)).
Proof.
  intros Hb Hr. unfold memory_tx_range. induction Hr as [|r rs Hr _ IH]; [done|]. cbn [map List.filter]. rewrite IH.
  assert (in_tx_range start end_ (r_t (shift basis r)) =
    in_tx_range (saturating_sub_u64 start basis) ((fun e => saturating_sub_u64 e basis) <$> end_) (r_t r)) as ->; [|by destruct (in_tx_range _ _ _)].
  unfold in_tx_range, saturating_sub_u64. cbn [shift r_t]. f_equal.
  - destruct (Z.leb_spec start (r_t r + basis)), (Z.leb_spec (Z.max 0 (start - basis)) (r_t r)); lia.
  - destruct end_ as [e|]; [|done]. cbn. destruct (Z.ltb_spec (r_t r + basis) e), (Z.ltb_spec (r_t r) (Z.max 0 (e - basis))); lia.
Qed.

Lemma numbered_positive rs : run_from 1 (map r_t rs) -> Forall (fun r => 1 <= r_t r) rs.
Proof. intros Hn. apply List.Forall_forall. intros r Hr%(in_map r_t). apply (run_from_In _ _ _ Hn) in Hr. lia. Qed.

(** A log rooted at a basis is the log it wraps, renumbered. It accepts only the
    transaction after its last, starting with the basis' successor, and hands it on as the
    wrapped log's own next one; a transaction it refuses, or that the wrapped log fails to
    append, leaves what it held, or that and the transaction; every
    range, also one that starts or ends at or below the basis, and the replay are those of
    the renumbered records. *)
Theorem rooted_log_renumbers log rs : rooted_holds log rs ->
  (forall r, record_wf r ->
     let (log', res) := append log r in
     match res with
     | Ok _ => r_t r = rl_basis log + 1 + Z.of_nat (length rs) /\ rooted_holds log' (rs ++ [r])
     | Err _ => rooted_holds log' rs \/ rooted_holds log' (rs ++ [r])
     end) /\
  (forall r, r_t r = rl_basis log + 1 + Z.of_nat (length rs) ->
     (append log r).2 = (append (rl_inner log) (shift (- rl_basis log) r)).2) /\
  (log_readable (rl_inner log) -> forall start end_, exists log',
     tx_range log start end_ = (log', Ok (memory_tx_range rs start end_)) /\ rooted_holds log' rs) /\
  (log_readable (rl_inner log) -> exists log', replay log = (log', Ok rs) /\ rooted_holds log' rs).
Proof.
  intros (inner & H & -> & Hb & Hmax). pose proof (log_numbered _ _ H) as Hn. split_and!.
  - intros r Hwf. cbn [append rooted_log]. unfold rooted_append. rewrite inward_next by done.
    destruct (Z.ltb_spec (rl_basis log) (r_t r)) as [Hr|Hr]; [|left; by exists inner].
    pose proof (append_next _ _ _ H (shift_wf (rl_basis log) r Hwf ltac:(lia))) as Ha.
    assert (Hmore : forall l', log_holds l' (inner ++ [shift (- rl_basis log) r]) ->
      rooted_holds (with_inner log l') (map (shift (rl_basis log)) inner ++ [r])).
    { intros l' H'. exists (inner ++ [shift (- rl_basis log) r]). cbn [rl_inner rl_basis with_inner]. split_and!; [done| |done|].
      + rewrite map_app. f_equal. cbn [map]. f_equal. destruct r as [t i d]. unfold shift. cbn. f_equal. lia.
      + apply log_numbered in H'. rewrite map_app, run_from_app, length_map in H'. destruct H' as [_ [H' _]]. cbn [shift r_t] in H'.
        rewrite length_app. cbn [length]. destruct Hwf. lia. }
    destruct (append (rl_inner log) _) as [l' [[]|e]].
    + destruct Ha as [Ht H']. rewrite length_map. cbn [shift r_t] in Ht. split; [lia|by apply Hmore].
    + destruct Ha as [Ha|Ha]; [left; by exists inner|right; by apply Hmore].
  - intros r Hr. cbn [append rooted_log]. unfold rooted_append. rewrite inward_next by done.
    rewrite (proj2 (Z.ltb_lt _ _)) by lia. by destruct (append (rl_inner log) _).
  - intros Hread start end_. cbn [tx_range rooted_log]. unfold rooted_tx_range, inward_range.
    destruct (tx_range_all _ _ (saturating_sub_u64 start (rl_basis log))
      ((fun e => saturating_sub_u64 e (rl_basis log)) <$> end_) H Hread) as (l' & -> & H').
    exists (with_inner log l'). split; [|by exists inner]. f_equal. cbn [fmap result_fmap]. f_equal.
    rewrite (outward_shift _ inner) by (done || (by intros r [? _]%filter_In)).
    by rewrite shift_range by (done || by apply numbered_positive).
  - intros Hread. cbn [replay rooted_log]. unfold rooted_replay.
    destruct (replay_all _ _ H Hread) as (l' & -> & H'). exists (with_inner log l'). split; [|by exists inner]. f_equal. cbn [fmap result_fmap]. f_equal.
    by rewrite (outward_shift _ inner inner Hn (incl_refl inner) Hmax).
Qed.
End rooted_laws.

(** A file log of two records, rooted at forty. *)
Section sample.
#[local] Existing Instance toy_crypto.
#[local] Existing Instance toy_crypto_laws.
#[local] Existing Instance castagnoli.
#[local] Existing Instance castagnoli_laws.

#[local] Instance sample_log : TransactionLog FileLog := file_log (fun r => sample_rand (r_t r)) (fun _ _ => Written).
#[local] Instance sample_log_laws : TransactionLogLaws sample_log :=
  file_log_laws (fun r => sample_rand (r_t r)) (fun r => sample_rand_ok (r_t r)) (fun _ _ => Written) (Some sample_cipher) sample_codec_ok.

Definition sample_rooted : RootedLog FileLog := mk_rooted (mk_file_log sample_handle sample_file) 40.

Lemma rooted_log_renumbers_witness :
  let r := shift 40 (sample_record 3) in
  (exists log', append sample_rooted r = (log', Ok tt) /\
     rooted_holds log' [shift 40 (sample_record 1); shift 40 (sample_record 2); r]) /\
  exists log', tx_range sample_rooted 42 None = (log', Ok [shift 40 (sample_record 2)]).
Proof.
  assert (Hh : rooted_holds sample_rooted [shift 40 (sample_record 1); shift 40 (sample_record 2)]).
  { exists [sample_record 1; sample_record 2]. split; [left; exact sample_rel|]. split_and!; [reflexivity|cbn; lia|cbn; lia]. }
  destruct (rooted_log_renumbers sample_rooted _ Hh) as (Ha & _ & Hr & _). intros r. split.
  - assert (record_wf r) as Hwf.
    { destruct (sample_record_wf 3 ltac:(simpl; auto)) as [Ht Hi Hd Hs]. split; [cbn; lia|done|done|exact Hs]. }
    specialize (Ha r Hwf). assert ((append sample_rooted r).2 = Ok tt) as E by (vm_compute; reflexivity).
    destruct (append sample_rooted r) as [log' res]. cbn [snd] in E. subst res. exists log'. split; [done|apply Ha].
  - destruct (Hr ltac:(split; vm_compute; reflexivity) 42 None) as (log' & E & _). exists log'. exact E.
Defined.

(** The wrapped log seals its payloads; the frames copied from the rooted log are in the
    clear, and are read without a key. *)
Lemma rooted_frames_in_clear : exists log' frames,
  tx_range_framed sample_rooted 0 None = (log', Ok frames) /\
  decode_framed_records (concat (map fr_frame frames)) = Ok [shift 40 (sample_record 1); shift 40 (sample_record 2)] /\
  decode_framed_records sample_file = Err LogError.Encrypted.
Proof.
  eexists _, _. split; [vm_compute; reflexivity|]. split; [vm_compute; reflexivity|].
  vm_compute. reflexivity.
Qed.
End sample.
