(* ===== verification/Stores.v ===== *)
(** * Blob and root stores (corium-store/src/lib.rs, encrypted_store.rs)

    The traits are classes: an operation takes the store and returns it. [MemoryStore] and
    [FsStore] are the stores of the source, [EncryptedBlobStore] the decorator that seals
    what another store keeps, and the root record of a database is text. *)

From stdpp Require Import base list strings.
From Stdlib Require Import Ascii ZArith Lia.
From S2P Require Import Prelude OrdMap Machine Keyword Text Crypt.
Local Open Scope Z_scope.

(** ** Identifiers and errors *)

(** A content identifier is its hexadecimal text. *)
Notation BlobId := string.

Definition is_hexdigit (c : ascii) : bool :=
  let b := ascii_byte c in
  Machine.in_range 0x30 0x39 b || Machine.in_range 0x41 0x46 b || Machine.in_range 0x61 0x66 b.

Definition from_hex (text : string) : option BlobId :=
  if ((String.length text =? 64)%nat && str_forall is_hexdigit text)%bool then Some text else None.

Module StoreError.
Inductive StoreError :=
| Io (message : string)
| CasFailed (expected actual : option bytes)
| CorruptBlob (id : BlobId)
| MissingBlob (id : BlobId)
| MissingEncryptionKey (epoch : Z)
| BlobIdMismatch (expected actual : BlobId)
| Encryption (error : CryptError)
| InvalidRootName (name : string).
End StoreError.
Notation StoreError := StoreError.StoreError.

(** [blake3::hash], in hexadecimal. *)
Definition digest `{Crypto} (l : bytes) : BlobId := of_bytes (hex_encode (blake3_hash l)).

(** ** The traits *)

Class BlobStore (S : Type) := {
  put : S -> bytes -> S * result StoreError BlobId;
  get : S -> BlobId -> result StoreError (option bytes);
  contains : S -> BlobId -> result StoreError bool;
  put_if_absent : S -> bytes -> S * result StoreError BlobId;
  delete : S -> BlobId -> S * result StoreError unit;
  list_blobs : S -> result StoreError (list BlobId);
  modified_at : S -> BlobId -> result StoreError (option Z);
}.

Definition default_contains {S} (get : S -> BlobId -> result StoreError (option bytes)) (s : S) (id : BlobId)
  : result StoreError bool := b ← get s id; Ok (is_some b).

Definition default_put_if_absent `{Crypto} {S} (contains : S -> BlobId -> result StoreError bool)
  (put : S -> bytes -> S * result StoreError BlobId) (s : S) (l : bytes) : S * result StoreError BlobId :=
  let id := digest l in
  match contains s id with
  | Err e => (s, Err e)
  | Ok true => (s, Ok id)
  | Ok false => put s l
  end.

Class RootStore (S : Type) := {
  get_root : S -> string -> result StoreError (option bytes);
  cas_root : S -> string -> option bytes -> bytes -> S * result StoreError unit;
  delete_root : S -> string -> S * result StoreError unit;
  list_roots : S -> string -> result StoreError (list string);
}.

Definition str_starts_with (name prefix : string) : bool := is_some (str_strip_prefix prefix name).

(** ** In memory *)

Record MemoryStore := mk_memory { m_blobs : list (BlobId * bytes); m_roots : list (string * bytes) }.

Section memory.
Context `{C : Crypto}.

Definition memory_put (s : MemoryStore) (l : bytes) : MemoryStore * result StoreError BlobId :=
  let id := digest l in (mk_memory (om_insert id l (m_blobs s)) (m_roots s), Ok id).
Definition memory_get (s : MemoryStore) (id : BlobId) : result StoreError (option bytes) := Ok (om_get id (m_blobs s)).

#[export] Instance memory_blobs : BlobStore MemoryStore := {|
  put := memory_put;
  get := memory_get;
  contains := default_contains memory_get;
  put_if_absent := default_put_if_absent (default_contains memory_get) memory_put;
  delete s id := (mk_memory (om_remove id (m_blobs s)) (m_roots s), Ok tt);
  list_blobs s := Ok (map fst (m_blobs s));
  modified_at _ _ := Ok None;
|}.

Definition memory_cas (s : MemoryStore) (name : string) (expected : option bytes) (new : bytes)
  : MemoryStore * result StoreError unit :=
  let actual := om_get name (m_roots s) in
  if bool_decide (actual = expected) then (mk_memory (m_blobs s) (om_insert name new (m_roots s)), Ok tt)
  else (s, Err (StoreError.CasFailed expected actual)).

#[export] Instance memory_roots : RootStore MemoryStore := {|
  get_root s name := Ok (om_get name (m_roots s));
  cas_root := memory_cas;
  delete_root s name := (mk_memory (m_blobs s) (om_remove name (m_roots s)), Ok tt);
  list_roots s prefix := Ok (List.filter (fun name => str_starts_with name prefix) (map fst (m_roots s)));
|}.
End memory.

(** ** On the filesystem *)

(** The files of [blobs/], with their modification times, and of [roots/]; lock files stay. *)
Record FsStore := mk_fs { f_blobs : list (string * (bytes * Z)); f_roots : list (string * bytes) }.

Fixpoint str_contains (c : ascii) (s : string) : bool :=
  match s with EmptyString => false | String d s => bool_decide (c = d) || str_contains c s end.

(** The text before and after the last dot, when there is one. *)
Fixpoint rsplit_dot (s : string) : option (string * string) :=
  match s with
  | EmptyString => None
  | String c s =>
      match rsplit_dot s with
      | Some (before, after) => Some (String c before, after)
      | None => if bool_decide (c = "."%char) then Some (EmptyString, s) else None
      end
  end.

(** [Path::extension] and [with_extension] of a file name: a leading dot starts no extension. *)
Definition extension (name : string) : option string :=
  match rsplit_dot name with
  | Some (EmptyString, _) | None => None
  | Some (_, ext) => Some ext
  end.

Definition with_extension (name ext : string) : string :=
  match rsplit_dot name with
  | Some (EmptyString, _) | None => name +:+ "." +:+ ext
  | Some (stem, _) => stem +:+ "." +:+ ext
  end.

Definition ascii_lower (c : ascii) : ascii :=
  let b := ascii_byte c in if Machine.in_range 0x41 0x5A b then ascii_of_N (Z.to_N (b + 32)) else c.
Fixpoint str_lower (s : string) : string :=
  match s with EmptyString => EmptyString | String c s => String (ascii_lower c) (str_lower s) end.

Definition auxiliary (name : string) : bool :=
  is_some_and (extension name) (fun ext => bool_decide (str_lower ext = "lock") || bool_decide (str_lower ext = "tmp")).

Definition root_path (name : string) : result StoreError string :=
  if (str_is_empty name || bool_decide (name = ".") || bool_decide (name = "..") ||
      str_contains "/"%char name || str_contains "\"%char name)%bool
  then Err (StoreError.InvalidRootName name) else Ok name.

Section fs.
Context `{C : Crypto}.

(** [now] is the time a write is given. *)
Definition fs_put (now : Z) (s : FsStore) (l : bytes) : FsStore * result StoreError BlobId :=
  let id := digest l in
  (if is_some (om_get id (f_blobs s)) then s else mk_fs (om_insert id (l, now) (f_blobs s)) (f_roots s), Ok id).

Definition fs_get (s : FsStore) (id : BlobId) : result StoreError (option bytes) :=
  match om_get id (f_blobs s) with
  | None => Ok None
  | Some (l, _) => if negb (bool_decide (digest l = id)) then Err (StoreError.CorruptBlob id) else Ok (Some l)
  end.

Definition fs_contains (s : FsStore) (id : BlobId) : result StoreError bool := Ok (is_some (om_get id (f_blobs s))).

Definition fs_blob_store (now : Z) : BlobStore FsStore := {|
  put := fs_put now;
  get := fs_get;
  contains := fs_contains;
  put_if_absent := default_put_if_absent fs_contains (fs_put now);
  delete s id := (mk_fs (om_remove id (f_blobs s)) (f_roots s), Ok tt);
  list_blobs s := Ok (filter_map from_hex (map fst (f_blobs s)));
  modified_at s id := Ok (snd <$> om_get id (f_blobs s));
|}.

(** Taking the lock of a root creates its file. *)
Definition root_lock (s : FsStore) (name : string) : result StoreError FsStore :=
  path ← root_path name;
  let lock := with_extension path "lock" in
  Ok (if is_some (om_get lock (f_roots s)) then s else mk_fs (f_blobs s) (om_insert lock [] (f_roots s))).

Definition fs_get_root (s : FsStore) (name : string) : result StoreError (option bytes) :=
  path ← root_path name; Ok (om_get path (f_roots s)).

(** The new bytes are written beside the root and renamed over it. *)
Definition fs_cas (s : FsStore) (name : string) (expected : option bytes) (new : bytes)
  : FsStore * result StoreError unit :=
  match root_lock s name with
  | Err e => (s, Err e)
  | Ok s =>
      match root_path name with
      | Err e => (s, Err e)
      | Ok path =>
          let actual := om_get path (f_roots s) in
          if bool_decide (actual = expected) then
            let roots := om_insert (with_extension path "tmp") new (f_roots s) in
            let roots := om_insert path new (om_remove (with_extension path "tmp") roots) in
            (mk_fs (f_blobs s) roots, Ok tt)
          else (s, Err (StoreError.CasFailed expected actual))
      end
  end.

Definition fs_delete_root (s : FsStore) (name : string) : FsStore * result StoreError unit :=
  match root_lock s name with
  | Err e => (s, Err e)
  | Ok s =>
      match root_path name with
      | Err e => (s, Err e)
      | Ok path => (mk_fs (f_blobs s) (om_remove path (f_roots s)), Ok tt)
      end
  end.

Definition fs_list_roots (s : FsStore) (prefix : string) : result StoreError (list string) :=
  Ok (sort_by cmp (List.filter (fun name => str_starts_with name prefix && negb (auxiliary name)) (map fst (f_roots s)))).

#[export] Instance fs_roots : RootStore FsStore := {|
  get_root := fs_get_root;
  cas_root := fs_cas;
  delete_root := fs_delete_root;
  list_roots := fs_list_roots;
|}.
End fs.

(** ** The sealing decorator *)

Record EncryptedBlobStore (S : Type) := mk_encrypted { e_inner : S; e_current_epoch : Z; e_keys : list (Z * SecretKey) }.
Arguments mk_encrypted {S} _ _ _.
Arguments e_inner {S} _.
Arguments e_current_epoch {S} _.
Arguments e_keys {S} _.

Definition encrypted_new {S} (inner : S) (current_epoch : Z) (keys : list (Z * SecretKey))
  : result StoreError (EncryptedBlobStore S) :=
  let keys := om_of_list keys in
  if is_none (om_get current_epoch keys) then Err (StoreError.MissingEncryptionKey current_epoch)
  else Ok (mk_encrypted inner current_epoch keys).

Definition encrypted_with_key {S} (inner : S) (epoch : Z) (key : SecretKey) : EncryptedBlobStore S :=
  mk_encrypted inner epoch [(epoch, key)].

Section encrypted.
Context `{C : Crypto} {S : Type} `{B : BlobStore S} `{R : RootStore S}.

Definition e_key (s : EncryptedBlobStore S) (epoch : Z) : result StoreError SecretKey :=
  ok_or (om_get epoch (e_keys s)) (StoreError.MissingEncryptionKey epoch).

Definition with_inner_store (s : EncryptedBlobStore S) (inner : S) : EncryptedBlobStore S :=
  mk_encrypted inner (e_current_epoch s) (e_keys s).

(** [current_key] is in the key set, as the constructors require. *)
Definition e_seal (s : EncryptedBlobStore S) (l : bytes) : result StoreError bytes :=
  key ← e_key s (e_current_epoch s);
  map_err StoreError.Encryption (encrypt_blob key (e_current_epoch s) l).

(** Storing the sealed bytes under the identifier the backend must return. *)
Definition put_sealed (s : EncryptedBlobStore S) (encrypted : bytes) : EncryptedBlobStore S * result StoreError BlobId :=
  let expected := digest encrypted in
  let (inner, res) := put (e_inner s) encrypted in
  (with_inner_store s inner,
   actual ← res; if negb (bool_decide (actual = expected)) then Err (StoreError.BlobIdMismatch expected actual) else Ok actual).

Definition encrypted_put (s : EncryptedBlobStore S) (l : bytes) : EncryptedBlobStore S * result StoreError BlobId :=
  match e_seal s l with Err e => (s, Err e) | Ok encrypted => put_sealed s encrypted end.

Definition encrypted_get (s : EncryptedBlobStore S) (id : BlobId) : result StoreError (option bytes) :=
  found ← get (e_inner s) id;
  match found with
  | None => Ok None
  | Some encrypted =>
      if negb (bool_decide (digest encrypted = id)) then Err (StoreError.CorruptBlob id)
      else
        header ← map_err StoreError.Encryption (parse_blob_header encrypted);
        key ← e_key s (bh_epoch header);
        plaintext ← map_err StoreError.Encryption (decrypt_blob key encrypted);
        Ok (Some plaintext)
  end.

Definition encrypted_put_if_absent (s : EncryptedBlobStore S) (l : bytes)
  : EncryptedBlobStore S * result StoreError BlobId :=
  match e_seal s l with
  | Err e => (s, Err e)
  | Ok encrypted =>
      match contains (e_inner s) (digest encrypted) with
      | Err e => (s, Err e)
      | Ok true => (s, Ok (digest encrypted))
      | Ok false => put_sealed s encrypted
      end
  end.

#[export] Instance encrypted_blobs : BlobStore (EncryptedBlobStore S) := {|
  put := encrypted_put;
  get := encrypted_get;
  contains s id := contains (e_inner s) id;
  put_if_absent := encrypted_put_if_absent;
  delete s id := let (inner, res) := delete (e_inner s) id in (with_inner_store s inner, res);
  list_blobs s := list_blobs (e_inner s);
  modified_at s id := modified_at (e_inner s) id;
|}.

#[export] Instance encrypted_roots : RootStore (EncryptedBlobStore S) := {|
  get_root s name := get_root (e_inner s) name;
  cas_root s name expected new := let (inner, res) := cas_root (e_inner s) name expected new in (with_inner_store s inner, res);
  delete_root s name := let (inner, res) := delete_root (e_inner s) name in (with_inner_store s inner, res);
  list_roots s prefix := list_roots (e_inner s) prefix;
|}.
End encrypted.

(** ** The root record *)

Definition db_root_name (db : string) : string := "db:" +:+ db.
Definition meta_root_name (db : string) : string := "meta:" +:+ db.

Definition FORMAT_VERSION : Z := 5.

(** The blob of each covering index: EAVT, AEVT, AVET and VAET. *)
Record IndexRoots := mk_roots { r_eavt : BlobId; r_aevt : BlobId; r_avet : BlobId; r_vaet : BlobId }.

#[export] Instance index_roots_eq_dec : EqDecision IndexRoots.
Proof. solve_decision. Defined.

Record DbRoot := mk_root {
  format_version : Z;
  lease_version : Z;
  owner : string;
  lease_expires_unix_ms : Z;
  owner_endpoint : string;
  index_basis_t : Z;
  roots : option IndexRoots;
  history_roots : option IndexRoots;
  next_entity_id : Z;
  last_tx_instant : Z;
  key_manifest_version : Z;
}.

#[export] Instance db_root_eq_dec : EqDecision DbRoot.
Proof. solve_decision. Defined.

Definition line (s : string) : string := s +:+ String LF EmptyString.
Definition field_line (value : string) : string := line (if str_is_empty value then "-" else value).
Definition parse_field (l : string) : string := if bool_decide (l = "-") then EmptyString else l.

Definition root_lines (r : option IndexRoots) : string :=
  match r with
  | Some r => line (r_eavt r) +:+ line (r_aevt r) +:+ line (r_avet r) +:+ line (r_vaet r)
  | None => line "-" +:+ line "-" +:+ line "-" +:+ line "-"
  end.

Definition root_text (r : DbRoot) : string :=
  line ("corium-root-v" +:+ u64_to_string (format_version r)) +:+
  line (u64_to_string (lease_version r)) +:+ line (u64_to_string (index_basis_t r)) +:+
  root_lines (roots r) +:+
  field_line (owner r) +:+ line (i64_to_string (lease_expires_unix_ms r)) +:+ field_line (owner_endpoint r) +:+
  line (u64_to_string (next_entity_id r)) +:+ line (i64_to_string (last_tx_instant r)) +:+
  line (u64_to_string (key_manifest_version r)) +:+ root_lines (history_roots r).

Definition root_encode (r : DbRoot) : bytes := as_bytes (root_text r).

Definition parse_roots (a b c d : string) : option (option IndexRoots) :=
  if (bool_decide (a = "-") && bool_decide (b = "-") && bool_decide (c = "-") && bool_decide (d = "-"))%bool
  then Some None
  else
    a ← from_hex a; b ← from_hex b; c ← from_hex c; d ← from_hex d; Some (Some (mk_roots a b c d)).

(** The next line, when there is one. *)
Definition next_line (ls : list string) : option string * list string :=
  match ls with [] => (None, []) | l :: ls => (Some l, ls) end.

Definition i64_MIN : Z := - 2 ^ 63.

Definition root_decode (l : bytes) : option DbRoot :=
  if negb (utf8_valid l) then None
  else
    match lines (of_bytes l) with
    | [] => None
    | first :: ls =>
        '(format, lease, ls) ←
          match str_strip_prefix "corium-root-v" first with
          | Some version =>
              format ← parse_u32 version;
              match ls with
              | [] => None
              | l :: ls => lease ← parse_u64 l; Some (format, lease, ls)
              end
          | None => lease ← parse_u64 first; Some (1, lease, ls)
          end;
        match ls with
        | basis :: a :: b :: c :: d :: ls =>
            basis ← parse_u64 basis;
            rs ← parse_roots a b c d;
            let (ow, ls) := next_line ls in
            let (expires, ls) := next_line ls in
            let (endpoint, ls) := next_line ls in
            let (next, ls) := next_line ls in
            let (instant, ls) := next_line ls in
            let (manifest, ls) := next_line ls in
            let history :=
              match ls with
              | [] => if format <? 5 then Some None else None
              | a :: b :: c :: d :: _ => parse_roots a b c d
              | _ => None
              end in
            hs ← history;
            Some (mk_root format lease
              (unwrap_or (parse_field <$> ow) EmptyString)
              (unwrap_or (expires ≫= parse_i64) 0)
              (unwrap_or (parse_field <$> endpoint) EmptyString)
              basis rs hs
              (unwrap_or (next ≫= parse_u64) 0)
              (unwrap_or (instant ≫= parse_i64) i64_MIN)
              (unwrap_or (manifest ≫= parse_u64) 0))
        | _ => None
        end
    end.
