(* ===== verification/StoreFacts.v ===== *)
(** * What the stores guarantee

    The root record reads back as it was written; the stores keep the promises of their
    traits; the sealing decorator keeps them over any store that does. *)

From stdpp Require Import base list strings.
From Stdlib Require Import Ascii ZArith Lia Sorted.
From S2P Require Import Prelude OrdMap Machine Keyword Text Crypt Stores.
Local Open Scope Z_scope.

(** ** The root record *)

Lemma utf8_valid_app a b : utf8_valid a = true -> utf8_valid (a ++ b) = utf8_valid b.
Proof.
  remember (length a) as n eqn:Hn. assert (Hle : (length a <= n)%nat) by lia. clear Hn. revert a Hle.
  induction n as [|n IH]; intros a Hle; [by destruct a; [|simpl in Hle; lia]|].
  destruct a as [|x a]; [done|]. cbn [utf8_valid app length] in *. destruct (Machine.in_range 0 127 x); [apply IH; lia|].
  destruct a as [|y a]; [done|]. cbn [length app] in *.
  destruct (Machine.in_range 194 223 x); [rewrite !andb_true_iff; intros [-> H]; cbn [andb]; apply IH; [lia|done]|].
  destruct a as [|z a]; [done|]. cbn [length app] in *.
  repeat match goal with
  | |- context [if ?c then _ else _] =>
      destruct c; [rewrite !andb_true_iff; intros [[-> ->] H]; cbn [andb]; apply IH; [lia|done]|]
  end.
  destruct a as [|w a]; [done|]. cbn [length app] in *.
  repeat match goal with
  | |- context [if ?c then _ else _] =>
      destruct c; [rewrite !andb_true_iff; intros [[[-> ->] ->] H]; cbn [andb]; apply IH; [lia|done]|]
  end.
  done.
Qed.

Definition str_utf8 (s : string) : Prop := utf8_valid (as_bytes s) = true.

Lemma str_utf8_app s t : str_utf8 s -> str_utf8 t -> str_utf8 (s +:+ t).
Proof. unfold str_utf8. intros Hs Ht. by rewrite as_bytes_app, utf8_valid_app. Qed.

Lemma str_utf8_ascii s : str_forall (fun c => ascii_byte c <? 128) s = true -> str_utf8 s.
Proof.
  unfold str_utf8. induction s as [|c s IH]; [done|]. cbn [str_forall as_bytes]. intros [Hc Hs]%andb_true_iff.
  apply Z.ltb_lt in Hc. pose proof (ascii_byte_u8 c) as Hu. unfold u8 in Hu. rewrite utf8_valid_ascii by lia. by apply IH.
Qed.

Lemma number_utf8 s : str_forall number_char s = true -> str_utf8 s.
Proof.
  intros H. apply str_utf8_ascii. eapply str_forall_impl; [|exact H]. intros c. unfold number_char, dec_value.
  intros [Hc|Hc]%orb_true_iff.
  - destruct (Machine.in_range 48 57 (ascii_byte c)) eqn:E; [|done]. unfold Machine.in_range in E.
    apply andb_true_iff in E as [_ E]. apply Z.leb_le in E. apply Z.ltb_lt. lia.
  - apply bool_decide_eq_true in Hc as ->. done.
Qed.

Lemma str_utf8_line s : str_utf8 s -> str_utf8 (line s).
Proof. intros H. apply str_utf8_app; [done|reflexivity]. Qed.

Lemma lines_line s t : one_line s -> lines (line s +:+ t) = s :: lines t.
Proof. intros H. unfold line. rewrite str_app_assoc. by apply lines_cons. Qed.

Lemma lines_line_end s : one_line s -> lines (line s) = [s].
Proof.
  intros H. pose proof (lines_line s EmptyString H) as E.
  assert (forall u, u +:+ EmptyString = u) as Hn by (induction u as [|c u IH]; [done|]; rewrite str_app_cons; by f_equal).
  rewrite Hn in E. exact E.
Qed.

Definition blob_id_ok (id : BlobId) : Prop := from_hex id = Some id.

Definition roots_ok (r : option IndexRoots) : Prop :=
  match r with
  | None => True
  | Some r => blob_id_ok (r_eavt r) /\ blob_id_ok (r_aevt r) /\ blob_id_ok (r_avet r) /\ blob_id_ok (r_vaet r)
  end.

(** A name that fits a line of the record; "-" stands for none. *)
Definition field_ok (s : string) : Prop := one_line s /\ s <> "-" /\ str_utf8 s.

Record root_wf (r : DbRoot) : Prop := {
  rt_format : u32 (format_version r);
  rt_lease : u64 (lease_version r);
  rt_basis : u64 (index_basis_t r);
  rt_next : u64 (next_entity_id r);
  rt_manifest : u64 (key_manifest_version r);
  rt_expires : i64 (lease_expires_unix_ms r);
  rt_instant : i64 (last_tx_instant r);
  rt_owner : field_ok (owner r);
  rt_endpoint : field_ok (owner_endpoint r);
  rt_roots : roots_ok (roots r);
  rt_history : roots_ok (history_roots r);
}.

Lemma hexdigit_text id : blob_id_ok id -> str_forall is_hexdigit id = true /\ String.length id = 64%nat.
Proof.
  unfold blob_id_ok, from_hex. destruct (Nat.eqb_spec (String.length id) 64); [|done].
  by destruct (str_forall is_hexdigit id).
Qed.

Lemma hexdigit_range c : is_hexdigit c = true -> 48 <= ascii_byte c < 103.
Proof.
  unfold is_hexdigit, Machine.in_range. rewrite !orb_true_iff, !andb_true_iff, !Z.leb_le. lia.
Qed.

Lemma blob_id_line id : blob_id_ok id -> one_line id /\ str_utf8 id.
Proof.
  intros [H _]%hexdigit_text. assert (Hne : forall c d, is_hexdigit c = true -> ascii_byte d < 48 -> c <> d)
    by (intros c d Hc Hd ->; apply hexdigit_range in Hc; lia).
  split; [split; [|apply strip_cr_safe]|apply str_utf8_ascii]; (eapply str_forall_impl; [|exact H]); intros c Hc.
  - apply negb_true_iff, bool_decide_eq_false. by apply Hne.
  - apply negb_true_iff, bool_decide_eq_false. by apply Hne.
  - apply hexdigit_range in Hc. apply Z.ltb_lt. lia.
Qed.

Lemma blob_id_not_dash id : blob_id_ok id -> id <> "-".
Proof. intros [_ H]%hexdigit_text ->. done. Qed.

(** The four lines of an optional set of roots. *)
Definition roots_list (r : option IndexRoots) : list string :=
  match r with Some r => [r_eavt r; r_aevt r; r_avet r; r_vaet r] | None => ["-"; "-"; "-"; "-"] end.

Lemma dash_line : one_line "-".
Proof. split; reflexivity. Qed.

Lemma lines_roots r t : roots_ok r -> lines (root_lines r +:+ t) = roots_list r ++ lines t.
Proof.
  destruct r as [r|]; cbn [root_lines roots_list roots_ok app]; rewrite !str_app_assoc.
  - intros (H1 & H2 & H3 & H4). rewrite !lines_line by (by apply blob_id_line). done.
  - intros _. rewrite !lines_line by apply dash_line. done.
Qed.

Lemma roots_utf8 r : roots_ok r -> str_utf8 (root_lines r).
Proof.
  destruct r as [r|]; cbn [root_lines roots_ok]; [|intros _; reflexivity].
  intros (H1 & H2 & H3 & H4). repeat (apply str_utf8_app; [apply str_utf8_line; by apply blob_id_line|]).
  apply str_utf8_line. by apply blob_id_line.
Qed.

Lemma parse_roots_list r : roots_ok r ->
  match roots_list r with [a; b; c; d] => parse_roots a b c d | _ => None end = Some r.
Proof.
  destruct r as [[a b c d]|]; cbn [roots_list roots_ok r_eavt r_aevt r_avet r_vaet]; [|done].
  intros (H1 & H2 & H3 & H4). unfold parse_roots. rewrite (bool_decide_false (a = "-")) by (by apply blob_id_not_dash).
  cbn [andb]. unfold blob_id_ok in *. by rewrite H1, H2, H3, H4.
Qed.

Definition field_text (s : string) : string := if str_is_empty s then "-" else s.

Lemma field_text_ok s : field_ok s -> one_line (field_text s) /\ str_utf8 (field_text s) /\ parse_field (field_text s) = s.
Proof.
  intros (H1 & H2 & H3). unfold field_text, parse_field. destruct s as [|c s]; cbn [str_is_empty].
  - split; [apply dash_line|done].
  - by rewrite bool_decide_false.
Qed.

Lemma root_text_lines r : root_wf r -> lines (root_text r) =
  ["corium-root-v" +:+ u64_to_string (format_version r); u64_to_string (lease_version r); u64_to_string (index_basis_t r)] ++
  roots_list (roots r) ++
  [field_text (owner r); i64_to_string (lease_expires_unix_ms r); field_text (owner_endpoint r);
   u64_to_string (next_entity_id r); i64_to_string (last_tx_instant r); u64_to_string (key_manifest_version r)] ++
  roots_list (history_roots r).
Proof.
  intros [Hf Hl Hb Hn Hm He Hi Ho Hend Hr Hh]. unfold root_text, u32, u64 in *.
  assert (one_line ("corium-root-v" +:+ u64_to_string (format_version r))) as Hfirst.
  { pose proof (u64_to_string_line (format_version r) ltac:(lia)) as [H1 H2]. split.
    - rewrite str_forall_app, H1. reflexivity.
    - apply strip_cr_safe. rewrite str_forall_app. pose proof (u64_to_string_chars (format_version r) ltac:(lia)) as H.
      assert (str_forall (fun c => negb (bool_decide (c = CR))) (u64_to_string (format_version r)) = true) as ->; [|reflexivity].
      eapply str_forall_impl; [|exact H]. intros c Hc. apply negb_true_iff, bool_decide_eq_false. intros ->. vm_compute in Hc. done. }
  rewrite (lines_line _ _ Hfirst). rewrite !(lines_line (u64_to_string _)) by (apply u64_to_string_line; lia).
  rewrite lines_roots by done. unfold field_line. fold (field_text (owner r)). fold (field_text (owner_endpoint r)).
  rewrite (lines_line (field_text (owner r))) by (by apply field_text_ok).
  rewrite (lines_line (i64_to_string (lease_expires_unix_ms r))) by apply i64_to_string_line.
  rewrite (lines_line (field_text (owner_endpoint r))) by (by apply field_text_ok).
  rewrite (lines_line (u64_to_string (next_entity_id r))) by (apply u64_to_string_line; lia).
  rewrite (lines_line (i64_to_string (last_tx_instant r))) by apply i64_to_string_line.
  rewrite (lines_line (u64_to_string (key_manifest_version r))) by (apply u64_to_string_line; lia).
  pose proof (lines_roots (history_roots r) EmptyString Hh) as E.
  assert (forall u, u +:+ EmptyString = u) as Hnil by (induction u as [|c u IH]; [done|]; rewrite str_app_cons; by f_equal).
  rewrite Hnil in E. rewrite E. change (lines EmptyString) with (@nil string). by rewrite app_nil_r.
Qed.

Lemma root_text_utf8 r : root_wf r -> str_utf8 (root_text r).
Proof.
  intros [Hf Hl Hb Hn Hm He Hi Ho Hend Hr Hh]. unfold root_text, u32, u64 in *.
  assert (Hu : forall x, 0 <= x -> str_utf8 (line (u64_to_string x)))
    by (intros x Hx; by apply str_utf8_line, number_utf8, u64_to_string_chars).
  assert (Hz : forall x, str_utf8 (line (i64_to_string x)))
    by (intros x; apply str_utf8_line, number_utf8, i64_to_string_chars).
  assert (Hfield : forall s, field_ok s -> str_utf8 (field_line s)) by (intros s Hs; by apply str_utf8_line, field_text_ok).
  apply str_utf8_app; [apply str_utf8_line, str_utf8_app; [reflexivity|apply number_utf8, u64_to_string_chars; lia]|].
  apply str_utf8_app; [apply Hu; lia|]. apply str_utf8_app; [apply Hu; lia|]. apply str_utf8_app; [by apply roots_utf8|].
  apply str_utf8_app; [by apply Hfield|]. apply str_utf8_app; [apply Hz|]. apply str_utf8_app; [by apply Hfield|].
  apply str_utf8_app; [apply Hu; lia|]. apply str_utf8_app; [apply Hz|]. apply str_utf8_app; [apply Hu; lia|].
  by apply roots_utf8.
Qed.

Lemma root_decode_encode r : root_wf r -> root_decode (root_encode r) = Some r.
Proof.
  intros Hwf. unfold root_decode, root_encode. rewrite (root_text_utf8 r Hwf : utf8_valid _ = true). cbn [negb].
  rewrite of_as_bytes, root_text_lines by done. pose proof Hwf as [Hf Hl Hb Hn Hm He Hi Ho Hend Hr Hh].
  cbn [app]. rewrite strip_prefix_app. rewrite parse_u32_to_string by done. cbn [mbind option_bind].
  rewrite parse_u64_to_string by done. cbn [mbind option_bind].
  pose proof (parse_roots_list (roots r) Hr) as Er. pose proof (parse_roots_list (history_roots r) Hh) as Eh.
  destruct (roots_list (roots r)) as [|a [|b [|c [|d [|]]]]]; try done. cbn [app].
  rewrite parse_u64_to_string by done. cbn [mbind option_bind]. rewrite Er. cbn [mbind option_bind next_line].
  destruct (roots_list (history_roots r)) as [|a' [|b' [|c' [|d' [|]]]]]; try done. rewrite Eh.
  cbn [mbind option_bind fmap option_fmap option_map unwrap_or].
  destruct (field_text_ok (owner r) Ho) as (_ & _ & ->). destruct (field_text_ok (owner_endpoint r) Hend) as (_ & _ & ->).
  rewrite !parse_u64_to_string, !parse_i64_to_string by done. cbn [unwrap_or]. by destruct r.
Qed.

(** A root record reads back as it was written: its lease fields, its index roots and
    its recovery hints, for every record whose names fit their lines. Two such records with
    the same bytes are the same record, so comparing bytes compares records. *)
Theorem root_record_roundtrip r r' : root_wf r -> root_wf r' ->
  root_decode (root_encode r) = Some r /\ (root_encode r = root_encode r' -> r = r').
Proof.
  intros H H'. split; [by apply root_decode_encode|]. intros E. apply (f_equal root_decode) in E.
  rewrite !root_decode_encode in E by done. congruence.
Qed.

(** ** What a root store promises *)

(** The roots of a store, for the names it can keep. A compare-and-swap installs the new
    bytes over the expected ones and nothing else; one that fails for another reason may
    have installed them. *)
Class RootStoreLaws {S : Type} (R : RootStore S) := {
  nameable : string -> Prop;
  store_roots : S -> list (string * bytes);
  get_root_ok s name b : nameable name -> get_root s name = Ok b -> b = om_get name (store_roots s);
  cas_root_ok s name expected new : nameable name ->
    let (s', res) := cas_root s name expected new in
    let installed := forall n, nameable n ->
      om_get n (store_roots s') = if bool_decide (n = name) then Some new else om_get n (store_roots s) in
    let same := forall n, nameable n -> om_get n (store_roots s') = om_get n (store_roots s) in
    match res with
    | Ok _ => om_get name (store_roots s) = expected /\ installed
    | Err (StoreError.CasFailed e a) =>
        e = expected /\ a = om_get name (store_roots s) /\ a <> expected /\ same
    | Err _ => same \/ (om_get name (store_roots s) = expected /\ installed)
    end;
  delete_root_ok s name : nameable name ->
    let (s', res) := delete_root s name in
    let removed := forall n, nameable n ->
      om_get n (store_roots s') = if bool_decide (n = name) then None else om_get n (store_roots s) in
    match res with
    | Ok _ => removed
    | Err _ => removed \/ forall n, nameable n -> om_get n (store_roots s') = om_get n (store_roots s)
    end;
  list_roots_ok s prefix names : list_roots s prefix = Ok names -> forall n, nameable n ->
    In n names <-> is_some (om_get n (store_roots s)) = true /\ str_starts_with n prefix = true;
}.

Lemma om_get_keys {V} (m : list (string * V)) n : In n (map fst m) -> is_some (om_get n m) = true.
Proof.
  induction m as [|[k v] m IH]; [done|]. cbn [map In fst om_get]. intros [->|Hin].
  - by rewrite (proj2 (cmp_eq_iff n n)).
  - destruct (cmp n k); [done|by apply IH..].
Qed.

Lemma om_keys_get {V} (m : list (string * V)) n : is_some (om_get n m) = true -> In n (map fst m).
Proof. destruct (om_get n m) as [v|] eqn:E; [|done]. intros _. apply om_get_In in E. by apply (in_map fst) in E. Qed.

Lemma om_insert_decide {V} (m : list (string * V)) k v n :
  om_get n (om_insert k v m) = if bool_decide (n = k) then Some v else om_get n m.
Proof. case_bool_decide as E; [subst; apply om_get_insert_eq|by apply om_get_insert_ne]. Qed.

Lemma om_remove_decide {V} (m : list (string * V)) k n :
  om_get n (om_remove k m) = if bool_decide (n = k) then None else om_get n m.
Proof. case_bool_decide as E; [subst; apply om_get_remove_eq|by apply om_get_remove_ne]. Qed.

#[export, refine] Instance memory_roots_laws : RootStoreLaws memory_roots := {|
  nameable _ := True;
  store_roots := m_roots;
|}.
Proof.
  - by intros s name b _ [= <-].
  - intros s name expected new _. cbn [cas_root memory_roots]. unfold memory_cas. case_bool_decide as E.
    + split; [done|]. intros n _. apply om_insert_decide.
    + split_and!; [done|done|done|]. done.
  - intros s name _. cbn. intros n _. apply om_remove_decide.
  - intros s prefix names [= <-] n _. rewrite filter_In. split; intros [H1 H2]; (split; [|done]).
    + by apply om_get_keys.
    + by apply om_keys_get.
Defined.

(** *** The filesystem *)

Definition fs_nameable (name : string) : Prop := root_path name = Ok name /\ str_contains "."%char name = false.

Lemma rsplit_dot_none s : str_contains "."%char s = false -> rsplit_dot s = None.
Proof.
  induction s as [|c s IH]; [done|]. cbn [str_contains rsplit_dot]. intros [Hc Hs]%orb_false_iff.
  rewrite IH by done. apply bool_decide_eq_false in Hc. by rewrite bool_decide_false.
Qed.

Lemma str_contains_app c s t : str_contains c (s +:+ t) = (str_contains c s || str_contains c t)%bool.
Proof. induction s as [|d s IH]; [done|]. rewrite str_app_cons. cbn [str_contains]. by rewrite IH, orb_assoc. Qed.

(** The files beside a root are no root's. *)
Lemma with_extension_other name ext n : str_contains "."%char n = false -> n <> with_extension name ext.
Proof.
  intros Hn ->. unfold with_extension in Hn. destruct (rsplit_dot name) as [[[|c stem] ext']|];
    rewrite str_contains_app, orb_comm in Hn; cbn in Hn; done.
Qed.

Lemma fs_auxiliary n : str_contains "."%char n = false -> auxiliary n = false.
Proof. intros Hn. unfold auxiliary, extension. by rewrite rsplit_dot_none. Qed.

Lemma root_lock_ok s name : fs_nameable name -> exists s', root_lock s name = Ok s' /\
  forall n, str_contains "."%char n = false -> om_get n (f_roots s') = om_get n (f_roots s).
Proof.
  intros [Hp _]. unfold root_lock. rewrite Hp. cbn [mbind result_bind]. eexists. split; [done|]. intros n Hn.
  destruct (is_some _); [done|]. cbn [f_roots]. apply om_get_insert_ne. by apply with_extension_other.
Qed.

#[export, refine] Instance fs_roots_laws : RootStoreLaws fs_roots := {|
  nameable := fs_nameable;
  store_roots := f_roots;
|}.
Proof.
  - intros s name b [Hp _]. cbn [get_root fs_roots]. unfold fs_get_root. rewrite Hp. by intros [= <-].
  - intros s name expected new Hname. cbn [cas_root fs_roots]. unfold fs_cas.
    destruct (root_lock_ok s name Hname) as (s' & -> & Hs). pose proof Hname as [Hp Hdot]. rewrite Hp, (Hs name Hdot).
    case_bool_decide as E.
    + split; [done|]. intros n [_ Hn]. cbn [f_roots]. rewrite om_insert_decide. case_bool_decide as En; [done|].
      rewrite om_get_remove_ne, om_get_insert_ne by (by apply with_extension_other). by apply Hs.
    + split_and!; [done|done|done|]. intros n [_ Hn]. by apply Hs.
  - intros s name Hname. cbn [delete_root fs_roots]. unfold fs_delete_root.
    destruct (root_lock_ok s name Hname) as (s' & -> & Hs). pose proof Hname as [Hp Hdot]. rewrite Hp.
    intros n [_ Hn]. cbn [f_roots]. rewrite om_remove_decide. case_bool_decide; [done|]. by apply Hs.
  - intros s prefix names [= <-] n [_ Hn]. rewrite sort_by_perm, filter_In, (fs_auxiliary n Hn), andb_true_r.
    split; intros [H1 H2]; (split; [|done]); [by apply om_get_keys|by apply om_keys_get].
Defined.

(** ** What a blob store promises *)

(** The identifier of [l] is not another blob's. *)
Definition no_clash `{Crypto} (m : list (BlobId * bytes)) (l : bytes) : Prop :=
  forall l', om_get (digest l) m = Some l' -> l' = l.

(** The blobs of a store by the identifier they are read under. Storing bytes whose
    identifier is not already another blob's makes them readable under it and touches no
    other; deleting removes one blob; a listing names every blob. *)
Class BlobStoreLaws `{Crypto} {S : Type} (B : BlobStore S) := {
  blob_ok : S -> Prop;
  blobs : S -> list (BlobId * bytes);
  get_ok s id b : blob_ok s -> get s id = Ok b -> b = om_get id (blobs s);
  contains_ok s id b : blob_ok s -> contains s id = Ok b -> b = is_some (om_get id (blobs s));
  put_ok s l : blob_ok s -> no_clash (blobs s) l ->
    let (s', res) := put s l in
    blob_ok s' /\
    match res with
    | Ok id => om_get id (blobs s') = Some l /\ forall id', id' <> id -> om_get id' (blobs s') = om_get id' (blobs s)
    | Err _ => True
    end;
  put_if_absent_ok s l : blob_ok s -> no_clash (blobs s) l ->
    let (s', res) := put_if_absent s l in
    blob_ok s' /\
    match res with
    | Ok id => om_get id (blobs s') = Some l /\ forall id', id' <> id -> om_get id' (blobs s') = om_get id' (blobs s)
    | Err _ => True
    end;
  delete_ok s id : blob_ok s ->
    let (s', res) := delete s id in
    blob_ok s' /\
    (forall id', id' <> id -> om_get id' (blobs s') = om_get id' (blobs s) /\ modified_at s' id' = modified_at s id') /\
    match res with
    | Ok _ => om_get id (blobs s') = None
    | Err _ => om_get id (blobs s') = None \/ om_get id (blobs s') = om_get id (blobs s)
    end;
  list_blobs_ok s ids : blob_ok s -> list_blobs s = Ok ids -> forall id, In id ids <-> is_some (om_get id (blobs s)) = true;
}.

Section blob_laws.
Context `{CL : CryptoLaws}.

#[export, refine] Instance memory_blobs_laws : BlobStoreLaws memory_blobs := {|
  blob_ok _ := True;
  blobs := m_blobs;
|}.
Proof.
  - by intros s id b _ [= <-].
  - by intros s id b _ [= <-].
  - intros s l _ _. cbn. split; [done|]. split; [apply om_get_insert_eq|]. intros id' Hn. by apply om_get_insert_ne.
  - intros s l _ Hc. cbn [put_if_absent memory_blobs]. unfold default_put_if_absent, default_contains, memory_get.
    cbn [mbind result_bind]. destruct (om_get (digest l) (m_blobs s)) as [l'|] eqn:E; cbn [is_some].
    + split; [done|]. by rewrite E, (Hc l' E).
    + cbn. split; [done|]. split; [apply om_get_insert_eq|]. intros id' Hn. by apply om_get_insert_ne.
  - intros s id _. cbn. split_and!; [done| |apply om_get_remove_eq]. intros id' Hn. split; [by apply om_get_remove_ne|done].
  - intros s ids _ [= <-] id. split; [apply om_get_keys|apply om_keys_get].
Defined.

Lemma hex_char_hexdigit d : 0 <= d < 16 -> is_hexdigit (ascii_of_N (Z.to_N (hex_char d))) = true.
Proof.
  intros Hd. unfold is_hexdigit, hex_char, ascii_byte, Machine.in_range.
  destruct (Z.ltb_spec d 10); rewrite N_ascii_embedding, Z2N.id by lia; rewrite !orb_true_iff, !andb_true_iff, !Z.leb_le; lia.
Qed.

Lemma digest_ok l : blob_id_ok (digest l).
Proof.
  unfold blob_id_ok, from_hex, digest.
  assert (Hlen : forall b, String.length (of_bytes b) = length b) by (induction b as [|x b IH]; [done|]; cbn; by rewrite IH).
  rewrite Hlen, length_hex_encode, blake3_hash_length. cbn [Nat.eqb andb].
  assert (str_forall is_hexdigit (of_bytes (hex_encode (blake3_hash l))) = true) as ->; [|done].
  induction (blake3_hash_wf l) as [|b bs Hb _ IH]; [done|]. unfold u8 in Hb. cbn [hex_encode flat_map app of_bytes str_forall].
  fold (hex_encode bs). rewrite !hex_char_hexdigit, IH; [done| |].
  - apply Z.mod_pos_bound. lia.
  - split; [apply Z.div_pos; lia|apply Z.div_lt_upper_bound; lia].
Qed.

Definition fs_blobs (s : FsStore) : list (BlobId * bytes) := map (fun p => (p.1, p.2.1)) (f_blobs s).

Lemma fs_blobs_get s id : om_get id (fs_blobs s) = fst <$> om_get id (f_blobs s).
Proof.
  unfold fs_blobs. induction (f_blobs s) as [|[k [l t]] m IH]; [done|]. cbn [map om_get fst snd]. by destruct (cmp id k).
Qed.

(** Every file of [blobs/] has the name its bytes give it. *)
Definition fs_ok (s : FsStore) : Prop := forall id x, om_get id (f_blobs s) = Some x -> blob_id_ok id.

Lemma fs_put_ok now s l : fs_ok s -> no_clash (fs_blobs s) l ->
  let (s', res) := fs_put now s l in
  fs_ok s' /\
  match res with
  | Ok id => om_get id (fs_blobs s') = Some l /\ forall id', id' <> id -> om_get id' (fs_blobs s') = om_get id' (fs_blobs s)
  | Err _ => True
  end.
Proof.
  intros Hs Hc. unfold fs_put. destruct (om_get (digest l) (f_blobs s)) as [[l' t]|] eqn:E; cbn [is_some].
  - split; [done|]. split; [|done]. assert (om_get (digest l) (fs_blobs s) = Some l') as E' by (by rewrite fs_blobs_get, E).
    by rewrite E', (Hc l' E').
  - split.
    + intros id x. cbn [f_blobs]. rewrite om_insert_decide. case_bool_decide as En; [|by apply Hs].
      intros _. subst id. apply digest_ok.
    + split; [by rewrite fs_blobs_get; cbn [f_blobs]; rewrite om_get_insert_eq|]. intros id' Hn.
      rewrite !fs_blobs_get. cbn [f_blobs]. by rewrite om_get_insert_ne.
Qed.

#[export, refine] Instance fs_blobs_laws (now : Z) : BlobStoreLaws (fs_blob_store now) := {|
  blob_ok := fs_ok;
  blobs := fs_blobs;
|}.
Proof.
  - intros s id b Hs. cbn [get fs_blob_store]. unfold fs_get. rewrite fs_blobs_get.
    destruct (om_get id (f_blobs s)) as [[l t]|]; [|by intros [= <-]]. case_bool_decide; cbn [negb]; [by intros [= <-]|done].
  - intros s id b Hs [= <-]. rewrite fs_blobs_get. by destruct (om_get id (f_blobs s)).
  - intros s l. apply fs_put_ok.
  - intros s l Hs Hc. cbn [put_if_absent fs_blob_store]. unfold default_put_if_absent, fs_contains.
    pose proof (fs_put_ok now s l Hs Hc) as Hp. unfold fs_put in *.
    destruct (om_get (digest l) (f_blobs s)) as [x|]; exact Hp.
  - intros s id Hs. cbn [delete fs_blob_store]. split_and!.
    + intros id' x. cbn [f_blobs]. rewrite om_remove_decide. case_bool_decide; [done|]. apply Hs.
    + intros id' Hn. cbn [modified_at fs_blob_store f_blobs]. rewrite !fs_blobs_get. cbn [f_blobs]. by rewrite om_get_remove_ne.
    + rewrite fs_blobs_get. cbn [f_blobs]. by rewrite om_get_remove_eq.
  - intros s ids Hs [= <-] id. rewrite In_filter_map, fs_blobs_get. split.
    + intros (x & Hin & Hx). assert (x = id) as -> by (unfold from_hex in Hx; destruct (_ && _)%bool; [congruence|done]).
      apply om_get_keys in Hin. by destruct (om_get id (f_blobs s)).
    + intros Hin. destruct (om_get id (f_blobs s)) as [x|] eqn:E; [|done]. exists id. split; [|by apply (Hs id x)].
      apply om_keys_get. by rewrite E.
Defined.
End blob_laws.

(** ** The sealing decorator *)

Section sealing.
Context `{CL : CryptoLaws} {S : Type} `{B : BlobStore S} {BL : BlobStoreLaws B}.

Record sealing_ok (s : EncryptedBlobStore S) : Prop := {
  so_inner : blob_ok (e_inner s);
  so_current : is_some (om_get (e_current_epoch s) (e_keys s)) = true;
  so_keys : forall epoch key, om_get epoch (e_keys s) = Some key -> u32 epoch /\ length key = 32%nat;
}.

Lemma map_err_ok {E F A} (f : E -> F) (r : result E A) a : map_err f r = Ok a <-> r = Ok a.
Proof. destruct r; cbn; split; congruence. Qed.

(** What a sealed blob opens to, under any key set that has its epoch's key. *)
Lemma open_sealed s l sealed inner epoch' keys' : sealing_ok s -> Z.of_nat (length l) < 2 ^ 63 -> e_seal s l = Ok sealed ->
  (forall epoch key, om_get epoch (e_keys s) = Some key -> om_get epoch keys' = Some key) ->
  get inner (digest sealed) = Ok (Some sealed) ->
  encrypted_get (mk_encrypted inner epoch' keys') (digest sealed) = Ok (Some l).
Proof.
  intros [_ Hcur Hkeys] Hl Hseal Hsub Hget. unfold e_seal, e_key in Hseal.
  destruct (om_get (e_current_epoch s) (e_keys s)) as [key|] eqn:Hk; [|done]. cbn [ok_or mbind result_bind] in Hseal.
  apply map_err_ok in Hseal. destruct (Hkeys _ _ Hk) as [He Hlen].
  destruct (decrypt_encrypt_blob key (e_current_epoch s) l sealed Hlen He Hl Hseal) as [Hp Hd].
  unfold encrypted_get. cbn [e_inner]. rewrite Hget. cbn [mbind result_bind]. rewrite bool_decide_true by done. cbn [negb].
  rewrite Hp. cbn [map_err mbind result_bind bh_epoch]. unfold e_key. cbn [e_keys]. rewrite (Hsub _ _ Hk).
  cbn [ok_or mbind result_bind]. by rewrite Hd.
Qed.

Lemma put_sealed_ok s l sealed : sealing_ok s -> e_seal s l = Ok sealed -> no_clash (blobs (e_inner s)) sealed ->
  let (s', res) := put_sealed s sealed in
  sealing_ok s' /\ e_keys s' = e_keys s /\
  match res with Ok id => id = digest sealed /\ om_get id (blobs (e_inner s')) = Some sealed | Err _ => True end.
Proof.
  intros [Hin Hcur Hkeys] Hseal Hc. unfold put_sealed. pose proof (put_ok (e_inner s) sealed Hin Hc) as Hp.
  destruct (put (e_inner s) sealed) as [inner res]. destruct Hp as [Hin' Hp]. split; [by split|]. split; [done|].
  destruct res as [id|e]; [|done]. cbn [mbind result_bind]. case_bool_decide as E; cbn [negb]; [|done].
  subst id. split; [done|apply Hp].
Qed.

(** C40. A blob put in the sealing store is stored under the identifier of its sealed bytes,
    whether it was new or already there, and is read back as it was put, also by a store
    whose keys were rotated since, as long as it keeps the old ones. *)
Theorem sealed_blobs_roundtrip s l : sealing_ok s -> Z.of_nat (length l) < 2 ^ 63 ->
  (forall sealed, e_seal s l = Ok sealed -> no_clash (blobs (e_inner s)) sealed) ->
  forall absent_first : bool,
  let (s', res) := (if absent_first then put_if_absent s l else put s l) in
  match res with
  | Ok id => (exists sealed, e_seal s l = Ok sealed /\ id = digest sealed) /\ sealing_ok s' /\
      forall epoch' keys', (forall epoch key, om_get epoch (e_keys s) = Some key -> om_get epoch keys' = Some key) ->
      is_ok (get (e_inner s') id) = true -> get (mk_encrypted (e_inner s') epoch' keys') id = Ok (Some l)
  | Err _ => True
  end.
Proof.
  intros Hs Hl Hc absent_first.
  assert (Hread : forall inner sealed, blob_ok inner -> om_get (digest sealed) (blobs inner) = Some sealed ->
    is_ok (get inner (digest sealed)) = true -> get inner (digest sealed) = Ok (Some sealed)).
  { intros inner sealed Hb Hg Ha. destruct (get inner (digest sealed)) as [b|] eqn:E; [|done].
    pose proof (get_ok _ _ _ Hb E) as ->. by rewrite Hg. }
  assert (Hput : forall sealed, e_seal s l = Ok sealed ->
    let (s', res) := put_sealed s sealed in
    match res with
    | Ok id => (exists sealed, e_seal s l = Ok sealed /\ id = digest sealed) /\ sealing_ok s' /\
        forall epoch' keys', (forall epoch key, om_get epoch (e_keys s) = Some key -> om_get epoch keys' = Some key) ->
        is_ok (get (e_inner s') id) = true -> encrypted_get (mk_encrypted (e_inner s') epoch' keys') id = Ok (Some l)
    | Err _ => True
    end).
  { intros sealed Hseal. pose proof (put_sealed_ok s l sealed Hs Hseal (Hc sealed Hseal)) as H.
    destruct (put_sealed s sealed) as [s' [id|e]]; [|done]. destruct H as (Hs' & _ & -> & Hg). split; [by exists sealed|].
    split; [done|]. intros epoch' keys' Hsub Ha. eapply open_sealed; [exact Hs|done|done|done|]. apply Hread; [apply Hs'|done|done]. }
  destruct absent_first; cbn [put put_if_absent get encrypted_blobs].
  - unfold encrypted_put_if_absent. destruct (e_seal s l) as [sealed|e] eqn:Hseal; [|done].
    destruct (contains (e_inner s) (digest sealed)) as [[]|e] eqn:Hcon; [|by apply Hput|done].
    pose proof (contains_ok _ _ _ (so_inner s Hs) Hcon) as Hin. symmetry in Hin.
    destruct (om_get (digest sealed) (blobs (e_inner s))) as [x|] eqn:Hg; [|done]. pose proof (Hc sealed eq_refl x Hg) as ->.
    split; [by exists sealed|]. split; [done|]. intros epoch' keys' Hsub Ha.
    eapply open_sealed; [exact Hs|done|done|done|]. apply Hread; [apply Hs|done|done].
  - unfold encrypted_put. destruct (e_seal s l) as [sealed|e] eqn:Hseal; [|done]. by apply Hput.
Qed.
End sealing.

(** ** Samples *)

Definition sample_id : BlobId := of_bytes (hex_encode (repeat 171 32)).

Definition sample_root : DbRoot :=
  mk_root FORMAT_VERSION 3 "node-a" 1500 EmptyString 12 (Some (mk_roots sample_id sample_id sample_id sample_id)) None
    4000 1400 0.

Lemma sample_root_wf : root_wf sample_root.
Proof. split; vm_compute; repeat split; done || congruence. Qed.

Lemma root_record_roundtrip_witness :
  root_decode (root_encode sample_root) = Some sample_root /\
  (root_encode sample_root = root_encode sample_root -> sample_root = sample_root).
Proof. apply (root_record_roundtrip sample_root sample_root); apply sample_root_wf. Defined.

#[local] Existing Instance toy_crypto.
#[local] Existing Instance toy_crypto_laws.

Definition sample_sealing : EncryptedBlobStore MemoryStore :=
  mk_encrypted (mk_memory [] []) 2 [(1, repeat 1 32); (2, repeat 2 32)].

Lemma sample_sealing_ok : sealing_ok sample_sealing.
Proof.
  split.
  - split; vm_compute; done.
  - reflexivity.
  - intros epoch key H. apply om_get_In in H. destruct H as [[= <- <-]|[[= <- <-]|[]]]; vm_compute; repeat split; congruence.
Qed.

Lemma sealed_blobs_roundtrip_witness :
  let (s', res) := put_if_absent sample_sealing [7; 8] in
  match res with
  | Ok id => (exists sealed, e_seal sample_sealing [7; 8] = Ok sealed /\ id = digest sealed) /\ sealing_ok s' /\
      forall epoch' keys', (forall epoch key, om_get epoch (e_keys sample_sealing) = Some key -> om_get epoch keys' = Some key) ->
      is_ok (get (e_inner s') id) = true -> get (mk_encrypted (e_inner s') epoch' keys') id = Ok (Some [7; 8])
  | Err _ => False
  end.
Proof.
  assert (H : exists s' id, put_if_absent sample_sealing [7; 8] = (s', Ok id)) by (vm_compute; eauto).
  assert (Hc : forall sealed, e_seal sample_sealing [7; 8] = Ok sealed -> no_clash (blobs (e_inner sample_sealing)) sealed) by done.
  pose proof (sealed_blobs_roundtrip sample_sealing [7; 8] sample_sealing_ok eq_refl Hc true) as T.
  destruct H as (s' & id & E). rewrite E in T |- *. exact T.
Defined.
