(* ===== verification/Snapshot.v ===== *)
(** * Index snapshots as blobs (corium-store/src/snapshot.rs)

    A published index is a manifest blob naming chunk blobs; a chunk is a run of
    length-prefixed keys, cut where an index segment cuts its leaves. The loader is
    corium-transactor/src/node.rs's; the peer's is the same. *)

From stdpp Require Import base list strings sorting.
From Stdlib Require Import Ascii ZArith Lia.
From S2P Require Import Prelude OrdMap Machine Keyword Chunk Segment Text Crypt Stores StoreFacts.
Local Open Scope Z_scope.

Definition INDEX_MANIFEST_MAGIC : string := "corium-index-manifest-v1".

Definition is_index_manifest (l : bytes) : bool := bytes_starts_with l (as_bytes INDEX_MANIFEST_MAGIC).

Definition manifest_lines (children : list BlobId) : string :=
  foldr (fun child out => line child +:+ out) EmptyString children.

Definition encode_index_manifest (children : list BlobId) : bytes :=
  as_bytes (line INDEX_MANIFEST_MAGIC +:+ manifest_lines children).

Definition manifest_error (detail : string) : StoreError := StoreError.Io ("malformed index manifest: " +:+ detail).

Definition decode_index_manifest (l : bytes) : result StoreError (list BlobId) :=
  if negb (utf8_valid l) then Err (manifest_error "not UTF-8")
  else
    match lines (of_bytes l) with
    | first :: ls =>
        if bool_decide (first = INDEX_MANIFEST_MAGIC)
        then try_map (fun l => ok_or (from_hex l) (manifest_error "invalid child id")) ls
        else Err (manifest_error "missing magic")
    | [] => Err (manifest_error "missing magic")
    end.

Definition index_blob_children (l : bytes) : result StoreError (list BlobId) :=
  if is_index_manifest l then decode_index_manifest l else Ok [].

Definition split_at_checked (l : bytes) (n : Z) : option (bytes * bytes) :=
  if n <=? Z.of_nat (length l) then Some (take (Z.to_nat n) l, drop (Z.to_nat n) l) else None.

Definition truncated : StoreError := StoreError.Io "truncated segment".

(** A record takes eight bytes at least, so the length of the input bounds the rounds. *)
Fixpoint decode_keys_loop (fuel : nat) (input : bytes) (keys : list bytes) : result StoreError (list bytes) :=
  match input, fuel with
  | [], _ => Ok keys
  | _, O => Err truncated
  | _, S fuel =>
      '(len_bytes, rest) ← ok_or (split_at_checked input 8) truncated;
      '(key, rest) ← ok_or (split_at_checked rest (from_be_bytes len_bytes)) truncated;
      decode_keys_loop fuel rest (keys ++ [key])
  end.

Definition decode_segment_keys (l : bytes) : result StoreError (list bytes) := decode_keys_loop (length l) l [].

Definition encode_key (key : bytes) : bytes := to_be_bytes 8 (Z.of_nat (length key)) ++ key.

Definition encode_segment_chunk (keys : list bytes) : bytes :=
  fold_left (fun out key => out ++ encode_key key) keys [].

Fixpoint chunk_loop (keys : list bytes) (chunks : list bytes) (chunk : bytes) (entries : Z) : list bytes :=
  match keys with
  | [] => match chunk with [] => chunks | _ => chunks ++ [chunk] end
  | key :: keys =>
      let chunk := chunk ++ encode_key key in
      let entries := entries + 1 in
      if cut_after key entries then chunk_loop keys (chunks ++ [chunk]) [] 0
      else chunk_loop keys chunks chunk entries
  end.

Definition chunk_segment_keys (keys : list bytes) : list bytes := chunk_loop keys [] [] 0.

(** ** Loading an index *)

Section loading.
Context {S : Type} `{B : BlobStore S}.

Definition get_blob (s : S) (id : BlobId) : result StoreError bytes :=
  b ← get s id; ok_or b (StoreError.MissingBlob id).

Fixpoint load_chunks (s : S) (children : list BlobId) (keys : list bytes) : result StoreError (list bytes) :=
  match children with
  | [] => Ok keys
  | child :: children =>
      chunk ← get_blob s child;
      ks ← decode_segment_keys chunk;
      load_chunks s children (keys ++ ks)
  end.

Definition load_index_keys (s : S) (id : BlobId) : result StoreError (list bytes) :=
  blob ← get_blob s id;
  if negb (is_index_manifest blob) then decode_segment_keys blob
  else
    children ← decode_index_manifest blob;
    load_chunks s children [].
End loading.

(** ** Framing *)

(** Keys of a length a memory can hold. *)
Definition keys_ok (keys : list bytes) : Prop := Forall (fun key => Z.of_nat (length key) < 2 ^ 62) keys.

Lemma fold_chunk keys out : fold_left (fun out key => out ++ encode_key key) keys out = out ++ concat (map encode_key keys).
Proof.
  revert out. induction keys as [|k keys IH]; intros out; cbn [fold_left map concat]; [by rewrite app_nil_r|].
  by rewrite IH, app_assoc.
Qed.

Lemma chunk_concat keys : encode_segment_chunk keys = concat (map encode_key keys).
Proof. apply fold_chunk. Qed.

Lemma chunk_app l k : encode_segment_chunk (l ++ k) = encode_segment_chunk l ++ encode_segment_chunk k.
Proof. by rewrite !chunk_concat, map_app, concat_app. Qed.

Lemma length_encode_key key : length (encode_key key) = (8 + length key)%nat.
Proof. unfold encode_key. by rewrite length_app, length_to_be_bytes. Qed.

Lemma split_at_app (l k : bytes) n : n = Z.of_nat (length l) -> split_at_checked (l ++ k) n = Some (l, k).
Proof.
  intros ->. unfold split_at_checked. rewrite length_app, Nat2Z.id, take_app_length, drop_app_length.
  by rewrite (proj2 (Z.leb_le _ _)) by lia.
Qed.

Lemma decode_keys_ok fuel keys acc : keys_ok keys -> (length (encode_segment_chunk keys) <= fuel)%nat ->
  decode_keys_loop fuel (encode_segment_chunk keys) acc = Ok (acc ++ keys).
Proof.
  rewrite chunk_concat. revert fuel acc. induction keys as [|k keys IH]; intros fuel acc Hk Hf.
  { destruct fuel; cbn; by rewrite app_nil_r. }
  apply Forall_cons in Hk as [Hk Hks]. cbn [map concat] in *. rewrite length_app, length_encode_key in Hf.
  destruct fuel as [|fuel]; [lia|].
  assert (Hne : encode_key k ++ concat (map encode_key keys) <> []).
  { intros E. apply (f_equal length) in E. rewrite length_app, length_encode_key in E. cbn [length] in E. lia. }
  destruct (encode_key k ++ concat (map encode_key keys)) as [|b l] eqn:E; [done|].
  cbn [decode_keys_loop]. rewrite <- E. unfold encode_key. rewrite <- app_assoc.
  rewrite split_at_app by (by rewrite length_to_be_bytes). cbn [ok_or mbind result_bind].
  rewrite split_at_app by (apply from_to_be_bytes; lia). cbn [ok_or mbind result_bind].
  rewrite IH by (done || lia). by rewrite <- app_assoc.
Qed.

Lemma decode_encode_keys keys : keys_ok keys -> decode_segment_keys (encode_segment_chunk keys) = Ok keys.
Proof. intros H. unfold decode_segment_keys. by rewrite decode_keys_ok. Qed.

Lemma split_at_inv (l a b : bytes) n : 0 <= n -> split_at_checked l n = Some (a, b) -> l = a ++ b /\ n = Z.of_nat (length a).
Proof.
  intros Hn. unfold split_at_checked. destruct (Z.leb_spec n (Z.of_nat (length l))); [|done]. intros [= <- <-].
  rewrite take_drop. split; [done|]. rewrite length_take. lia.
Qed.

(** The framing has one reading: what decodes was encoded. *)
Lemma decode_keys_inv fuel l acc keys : bytes_wf l -> decode_keys_loop fuel l acc = Ok keys ->
  exists ks, keys = acc ++ ks /\ l = encode_segment_chunk ks.
Proof.
  revert l acc. induction fuel as [|fuel IH]; intros l acc Hl; (destruct l as [|b l]; [intros [= <-]; exists []; by rewrite app_nil_r|]).
  { done. }
  cbn [decode_keys_loop]. destruct (split_at_checked (b :: l) 8) as [[len rest]|] eqn:E8; [|done]. cbn [ok_or mbind result_bind].
  destruct (split_at_checked rest _) as [[key rest']|] eqn:Ek; [|done]. cbn [ok_or mbind result_bind].
  apply split_at_inv in E8 as [E8 Hlen]; [|lia]. rewrite E8 in Hl. unfold bytes_wf in Hl. apply Forall_app in Hl as [Hl1 Hl2].
  pose proof (from_be_bytes_bound len Hl1) as Hb. apply split_at_inv in Ek as [-> Hk]; [|lia].
  intros (ks & -> & Hks)%IH; [|by apply Forall_app in Hl2 as [_ ?]].
  exists (key :: ks). rewrite <- app_assoc. split; [done|].
  rewrite chunk_concat in *. cbn [map concat]. rewrite <- Hks, E8. unfold encode_key. rewrite <- Hk.
  replace 8%nat with (length len) by lia. by rewrite to_from_be_bytes, <- app_assoc.
Qed.

Lemma decode_keys_iff l keys : bytes_wf l -> keys_ok keys ->
  decode_segment_keys l = Ok keys <-> l = encode_segment_chunk keys.
Proof.
  intros Hl Hk. split; [|intros ->; by apply decode_encode_keys].
  intros (ks & -> & ->)%decode_keys_inv; [|done]. done.
Qed.

(** ** Chunks and leaves *)

Lemma chunk_empty keys : encode_segment_chunk keys = [] <-> keys = [].
Proof.
  rewrite chunk_concat. destruct keys as [|k keys]; [done|]. split; [|done]. cbn [map concat]. intros E.
  apply (f_equal length) in E. rewrite length_app, length_encode_key in E. cbn [length] in E. lia.
Qed.

Lemma chunk_loop_shape keys b :
  chunk_loop keys (map encode_segment_chunk (shape b).1) (encode_segment_chunk (shape b).2) (Z.of_nat (length (shape b).2)) =
  map encode_segment_chunk (fin (shape (push_all b keys))).
Proof.
  revert b. induction keys as [|k keys IH]; intros b; cbn [chunk_loop].
  - change (push_all b []) with b. unfold fin. destruct (shape b) as [L p]. cbn [fst snd].
    pose proof (chunk_empty p) as He. destruct p as [|x p]; [done|].
    destruct (encode_segment_chunk (x :: p)) eqn:E; [by pose proof (proj1 He eq_refl)|]. rewrite map_app. cbn [map]. by rewrite E.
  - change (push_all b (k :: keys)) with (push_all (push b k) keys). rewrite <- IH, shape_push_eq. cbn [shape fst snd].
    assert (Hc : encode_segment_chunk (lb_pending b) ++ encode_key k = encode_segment_chunk (lb_pending b ++ [k]))
      by (rewrite chunk_app, !chunk_concat; cbn [map concat]; by rewrite app_nil_r).
    rewrite Hc. destruct (cut_after k _); cbn [fst snd].
    + rewrite map_app. done.
    + f_equal. rewrite length_app. cbn [length]. lia.
Qed.

Lemma chunk_fresh keys alloc : chunk_segment_keys keys = map (fun l => encode_segment_chunk (leaf_keys l)) (leaves (from_keys keys alloc).1).
Proof.
  rewrite <- (map_map leaf_keys encode_segment_chunk). unfold from_keys. rewrite fin_shape, <- chunk_loop_shape. done.
Qed.

Lemma chunk_rebuilt s : as_rebuilt s ->
  chunk_segment_keys (segment_keys s) = map (fun l => encode_segment_chunk (leaf_keys l)) (leaves s).
Proof.
  intros H. rewrite (chunk_fresh _ 0), <- !(map_map leaf_keys encode_segment_chunk). by rewrite <- H.
Qed.

(** ** Manifests *)

Lemma magic_line : one_line INDEX_MANIFEST_MAGIC.
Proof. split; reflexivity. Qed.

Lemma manifest_lines_ok ids : Forall blob_id_ok ids -> lines (manifest_lines ids) = ids /\ str_utf8 (manifest_lines ids).
Proof.
  induction 1 as [|id ids Hid _ [IH1 IH2]]; [done|]. cbn [manifest_lines foldr]. destruct (blob_id_line id Hid) as [H1 H2].
  fold (manifest_lines ids). split; [by rewrite lines_line, IH1|]. apply str_utf8_app; [by apply str_utf8_line|done].
Qed.

Lemma try_map_ids ids e : Forall blob_id_ok ids -> try_map (fun l => ok_or (E := StoreError) (from_hex l) e) ids = Ok ids.
Proof. induction 1 as [|id ids Hid _ IH]; [done|]. cbn [try_map]. rewrite Hid, IH. done. Qed.

Lemma decode_encode_manifest ids : Forall blob_id_ok ids ->
  decode_index_manifest (encode_index_manifest ids) = Ok ids /\ is_index_manifest (encode_index_manifest ids) = true.
Proof.
  intros H. destruct (manifest_lines_ok ids H) as [H1 H2]. unfold encode_index_manifest. split.
  - unfold decode_index_manifest.
    assert (str_utf8 (line INDEX_MANIFEST_MAGIC +:+ manifest_lines ids)) as Hu by (apply str_utf8_app; [reflexivity|done]).
    rewrite (Hu : utf8_valid _ = true). cbn [negb]. rewrite of_as_bytes, lines_line, H1 by apply magic_line.
    rewrite bool_decide_true by done. by apply try_map_ids.
  - unfold is_index_manifest, bytes_starts_with, line. rewrite !as_bytes_app, <- app_assoc.
    apply bool_decide_true. by rewrite take_app_length.
Qed.

(** The first eight bytes of a manifest are no length of a key. *)
Lemma chunk_not_manifest keys : keys_ok keys -> is_index_manifest (encode_segment_chunk keys) = false.
Proof.
  intros Hk. apply bool_decide_eq_false. intros E. rewrite chunk_concat in E. destruct keys as [|k keys]; [done|].
  apply Forall_cons in Hk as [Hk _]. apply (f_equal (fun l => from_be_bytes (take 8 l))) in E. cbn [map concat] in E.
  unfold encode_key in E. rewrite take_take, <- app_assoc in E. rewrite Nat.min_l in E by (vm_compute; lia).
  rewrite take_app_le, take_ge in E by (rewrite length_to_be_bytes; lia).
  rewrite from_to_be_bytes in E by (change (256 ^ Z.of_nat 8) with (2 ^ 64); lia).
  vm_compute (from_be_bytes _) in E. lia.
Qed.

(** ** Loading *)

Section load_facts.
Context {S : Type} `{B : BlobStore S}.

(** The store reads [l] under [id]. *)
Definition reads_blob (s : S) (id : BlobId) (l : bytes) : Prop := get s id = Ok (Some l).

(** An index of these runs of keys is published under [id]. *)
Definition index_at (s : S) (id : BlobId) (ids : list BlobId) (runs : list (list bytes)) : Prop :=
  Forall blob_id_ok ids /\ Forall keys_ok runs /\ reads_blob s id (encode_index_manifest ids) /\
  Forall2 (fun child run => reads_blob s child (encode_segment_chunk run)) ids runs.

Lemma get_reads_blob s id l : reads_blob s id l -> get_blob s id = Ok l.
Proof. intros H. unfold get_blob. by rewrite H. Qed.

Lemma load_chunks_ok s ids runs acc : Forall keys_ok runs ->
  Forall2 (fun child run => reads_blob s child (encode_segment_chunk run)) ids runs ->
  load_chunks s ids acc = Ok (acc ++ concat runs).
Proof.
  intros Hk H. revert acc Hk. induction H as [|id run ids runs Hr _ IH]; intros acc Hk; cbn [load_chunks concat].
  { by rewrite app_nil_r. }
  apply Forall_cons in Hk as [Hk Hks]. rewrite (get_reads_blob _ _ _ Hr). cbn [mbind result_bind].
  rewrite decode_encode_keys by done. cbn [mbind result_bind]. by rewrite IH, app_assoc.
Qed.

Lemma load_index_ok s id ids runs : index_at s id ids runs -> load_index_keys s id = Ok (concat runs).
Proof.
  intros (Hids & Hk & Hm & Hc). unfold load_index_keys. rewrite (get_reads_blob _ _ _ Hm). cbn [mbind result_bind].
  destruct (decode_encode_manifest ids Hids) as [-> ->]. cbn [negb mbind result_bind]. by rewrite (load_chunks_ok s ids runs).
Qed.

(** An index published chunk by chunk loads back as its keys: the chunks cut from the
    key stream are the leaves of the segment, the manifest that names them is told from a
    chunk, the collector's walk finds exactly them, and a flat index loads too. *)
Theorem index_snapshot_loads s id seg ids : as_rebuilt seg -> keys_ok (segment_keys seg) -> Forall blob_id_ok ids ->
  reads_blob s id (encode_index_manifest ids) ->
  Forall2 (reads_blob s) ids (chunk_segment_keys (segment_keys seg)) ->
  length ids = length (leaves seg) /\
  load_index_keys s id = Ok (segment_keys seg) /\
  index_blob_children (encode_index_manifest ids) = Ok ids /\
  Forall (fun chunk => index_blob_children chunk = Ok []) (chunk_segment_keys (segment_keys seg)) /\
  (forall flat, reads_blob s flat (encode_segment_chunk (segment_keys seg)) -> load_index_keys s flat = Ok (segment_keys seg)).
Proof.
  intros Hseg Hk Hids Hm Hc. rewrite chunk_rebuilt in * by done.
  assert (Forall keys_ok (map leaf_keys (leaves seg))) as Hruns.
  { unfold keys_ok, segment_keys in *. apply List.Forall_forall. intros run Hrun. apply List.Forall_forall. intros k Hin.
    rewrite List.Forall_forall in Hk. apply Hk, in_concat. eauto. }
  assert (index_at s id ids (map leaf_keys (leaves seg))) as Hat.
  { split_and!; [done|done|done|]. rewrite <- (map_map leaf_keys encode_segment_chunk) in Hc. exact (proj1 (Forall2_fmap_r _ _ _ _) Hc). }
  destruct (decode_encode_manifest ids Hids) as [Hd Hi]. split_and!.
  - apply Forall2_length in Hc. by rewrite length_map in Hc.
  - by rewrite (load_index_ok _ _ _ _ Hat).
  - unfold index_blob_children. by rewrite Hi.
  - rewrite <- (map_map leaf_keys encode_segment_chunk). apply List.Forall_map.
    apply List.Forall_forall. intros run Hrun. unfold index_blob_children. rewrite chunk_not_manifest; [done|].
    rewrite List.Forall_forall in Hruns. by apply Hruns.
  - intros flat Hf. unfold load_index_keys. rewrite (get_reads_blob _ _ _ Hf). cbn [mbind result_bind].
    rewrite chunk_not_manifest by done. cbn [negb]. by apply decode_encode_keys.
Qed.
End load_facts.

(** ** Samples *)

#[local] Existing Instance toy_crypto.

Definition sample_segment : Segment := (from_keys [[1]; [1; 2]; [3]] 0).1.
Definition sample_chunks : list BlobId := map digest (chunk_segment_keys (segment_keys sample_segment)).
Definition sample_manifest : bytes := encode_index_manifest sample_chunks.
Definition sample_store : MemoryStore :=
  fold_left (fun s l => (memory_put s l).1) (sample_manifest :: chunk_segment_keys (segment_keys sample_segment)) (mk_memory [] []).

Lemma index_snapshot_loads_witness :
  load_index_keys sample_store (digest sample_manifest) = Ok [[1]; [1; 2]; [3]].
Proof.
  destruct (index_snapshot_loads sample_store (digest sample_manifest) sample_segment sample_chunks) as (_ & H & _); [..|exact H].
  - vm_compute. reflexivity.
  - change (segment_keys sample_segment) with [[1]; [1; 2]; [3]]. by repeat (apply List.Forall_cons; [by vm_compute|]).
  - apply List.Forall_forall. intros id Hid. apply in_map_iff in Hid as (l & <- & Hl). destruct Hl as [<-|[]]. vm_compute. reflexivity.
  - vm_compute. reflexivity.
  - apply Forall2_cons. split; [vm_compute; reflexivity|constructor].
Defined.
