(* ===== verification/GcTheorems.v ===== *)
(** * Garbage collection deletes exactly the old unreachable blobs *)

From stdpp Require Import base list strings gmap.
From Stdlib Require Import Ascii ZArith Lia.
From S2P Require Import Prelude OrdMap Machine Keyword Text Crypt Stores StoreFacts Snapshot Gc.
Local Open Scope Z_scope.

(** ** Reachability *)

Section mark_facts.
Context {R : Type} `{B : BlobStore R} (children : BlobId -> bytes -> result StoreError (list BlobId)).

Inductive reach (s : R) (from : list BlobId) : BlobId -> Prop :=
| reach_root id : In id from -> reach s from id
| reach_child id cs c : reach s from id -> references children s id = Ok cs -> In c cs -> reach s from c.

Lemma reach_mono s from from' id : (forall x, In x from -> reach s from' x) -> reach s from id -> reach s from' id.
Proof. intros H. induction 1; [by apply H|]. by eapply reach_child. Qed.

(** Everything the blob names is marked. *)
Definition walked (s : R) (m : gset BlobId) (id : BlobId) : Prop :=
  exists cs, references children s id = Ok cs /\ forall c, In c cs -> c ∈ m.

Lemma walked_mono s (m m' : gset BlobId) id : m ⊆ m' -> walked s m id -> walked s m' id.
Proof. intros Hm (cs & Hr & Hc). exists cs. split; [done|]. intros c Hin. by apply Hm, Hc. Qed.

Lemma mark_loop_spec fuel s pending marked m : mark_loop children fuel s pending marked = Some (Ok m) ->
  marked ⊆ m /\ (forall id, In id pending -> id ∈ m) /\
  (forall id, id ∈ m -> id ∈ marked \/ (reach s pending id /\ walked s m id)).
Proof.
  revert pending marked. induction fuel as [|fuel IH]; intros [|id pending] marked; cbn [mark_loop]; try done.
  1, 2: intros [= <-]; split_and!; [done|done|by left].
  destruct (decide (id ∈ marked)) as [Hin|Hin].
  - intros (Hs & Hp & Hm)%IH. split_and!; [done| |].
    + intros x [<-|Hx]; [by apply Hs|by apply Hp].
    + intros x Hx. destruct (Hm x Hx) as [?|[Hr Hw]]; [by left|]. right. split; [|done].
      eapply reach_mono; [|exact Hr]. intros y Hy. apply reach_root. by right.
  - destruct (references children s id) as [cs|e] eqn:Hr; [|done]. intros (Hs & Hp & Hm)%IH.
    assert (Hid : id ∈ m) by (apply Hs; set_solver). split_and!.
    + intros x Hx. apply Hs. set_solver.
    + intros x [<-|Hx]; [done|]. apply Hp, in_app_iff. by right.
    + intros x Hx. destruct (Hm x Hx) as [Hx'|[Hre Hw]].
      * apply elem_of_union in Hx' as [->%elem_of_singleton|?]; [|by left]. right. split; [apply reach_root; by left|].
        exists cs. split; [done|]. intros c Hc. apply Hp, in_app_iff. left. by apply in_rev in Hc.
      * right. split; [|done]. eapply reach_mono; [|exact Hre]. intros y [Hy|Hy]%in_app_iff; [|apply reach_root; by right].
        eapply reach_child; [apply reach_root; by left|exact Hr|by apply in_rev].
Qed.

Lemma mark_reachable_spec fuel s live marked m : mark_reachable children fuel s live marked = Some (Ok m) ->
  marked ⊆ m /\ (forall id, In id live -> id ∈ m) /\
  (forall id, id ∈ m -> id ∈ marked \/ (reach s live id /\ walked s m id)).
Proof.
  intros (Hs & Hp & Hm)%mark_loop_spec. split_and!; [done| |].
  - intros id Hid. apply Hp. by apply in_rev in Hid.
  - intros id Hid. destruct (Hm id Hid) as [?|[Hr Hw]]; [by left|right]. split; [|done].
    eapply reach_mono; [|exact Hr]. intros x Hx. by apply reach_root, in_rev.
Qed.

(** *** The walk ends *)

(** What is left to push: the references of the blobs not yet marked. *)
Definition reference_count (s : R) (id : BlobId) : nat :=
  match references children s id with Ok cs => length cs | Err _ => 0 end.

Definition unmarked_count (s : R) (stored : list BlobId) (marked : gset BlobId) : nat :=
  sum_list (map (reference_count s) (List.filter (fun id => negb (bool_decide (id ∈ marked))) stored)).

Lemma unmarked_insert s stored marked id : NoDup stored -> In id stored -> id ∉ marked ->
  unmarked_count s stored marked = (reference_count s id + unmarked_count s stored ({[id]} ∪ marked))%nat.
Proof.
  intros Hnd Hin Hm. unfold unmarked_count. induction stored as [|x stored IH]; [done|].
  apply NoDup_cons in Hnd as [Hx Hnd]. cbn [List.filter]. destruct Hin as [->|Hin].
  - rewrite (bool_decide_false (id ∈ marked)), (bool_decide_true (id ∈ {[id]} ∪ marked)) by set_solver. cbn [negb map sum_list].
    f_equal. do 2 f_equal. apply List.filter_ext_in. intros y Hy. f_equal. apply bool_decide_ext.
    assert (y <> id) by (intros ->; apply Hx; by apply list_elem_of_In). set_solver.
  - assert (x <> id) by (intros ->; apply Hx; by apply list_elem_of_In).
    assert (bool_decide (x ∈ {[id]} ∪ marked) = bool_decide (x ∈ marked)) as -> by (apply bool_decide_ext; set_solver).
    specialize (IH Hnd Hin). destruct (bool_decide (x ∈ marked)); cbn [negb map sum_list]; lia.
Qed.

Lemma mark_loop_ends fuel s stored pending marked : NoDup stored ->
  (forall id, is_ok (references children s id) = true -> In id stored) ->
  (length pending + unmarked_count s stored marked <= fuel)%nat ->
  is_Some (mark_loop children fuel s pending marked).
Proof.
  intros Hnd Hst. revert pending marked. induction fuel as [|fuel IH]; intros [|id pending] marked Hf; cbn [mark_loop length] in *; try done.
  { lia. }
  destruct (decide (id ∈ marked)) as [Hin|Hin]; [apply IH; lia|].
  destruct (references children s id) as [cs|e] eqn:Hr; [|done]. apply IH.
  rewrite (unmarked_insert s stored marked id) in Hf by (done || apply Hst; by rewrite Hr).
  unfold reference_count in Hf. rewrite Hr in Hf. rewrite length_app, length_rev. lia.
Qed.
End mark_facts.

(** ** Sweeping *)

Section sweep_facts.
Context `{C : Crypto} {S : Type} `{B : BlobStore S} {BL : BlobStoreLaws B}.

Lemma old_enough_delete s id id' retention now : blob_ok s -> id' <> id ->
  old_enough (delete s id).1 id' retention now = old_enough s id' retention now.
Proof.
  intros Hs Hn. pose proof (delete_ok s id Hs) as H. destruct (delete s id) as [s' res]. destruct H as (_ & H & _).
  unfold old_enough. cbn [fst]. by rewrite (proj2 (H id' Hn)).
Qed.

(** A blob is left as it is, or it was unmarked and old and is gone. *)
Definition swept_from (s s' : S) (marked : gset BlobId) (retention now : Z) : Prop :=
  forall id, om_get id (blobs s') = om_get id (blobs s) \/
  (om_get id (blobs s') = None /\ id ∉ marked /\ old_enough s id retention now = Ok true).

Lemma sweep_loop_spec ids s marked retention now swept retained : blob_ok s ->
  let (s', res) := sweep_loop s ids marked retention now swept retained in
  blob_ok s' /\ swept_from s s' marked retention now /\
  (is_ok res = true -> forall id, In id ids -> id ∉ marked -> old_enough s id retention now = Ok true ->
   om_get id (blobs s') = None).
Proof.
  revert s swept retained. induction ids as [|x ids IH]; intros s swept retained Hs; cbn [sweep_loop].
  { split_and!; [done|by left|done]. }
  assert (Hskip : forall sw rt, x ∈ marked \/ old_enough s x retention now = Ok false ->
    let (s', res) := sweep_loop s ids marked retention now sw rt in
    blob_ok s' /\ swept_from s s' marked retention now /\
    (is_ok res = true -> forall id, In id (x :: ids) -> id ∉ marked -> old_enough s id retention now = Ok true ->
     om_get id (blobs s') = None)).
  { intros sw rt Hx. specialize (IH s sw rt Hs). destruct (sweep_loop s ids marked retention now sw rt) as [s' res].
    destruct IH as (H1 & H2 & H3). split_and!; [done|done|]. intros Hok id [<-|Hid] Hm Ho; [|by apply H3].
    destruct Hx as [Hx|Hx]; [done|congruence]. }
  destruct (decide (x ∈ marked)) as [Hm|Hm]; [apply Hskip; by left|].
  destruct (old_enough s x retention now) as [[]|e] eqn:Ho; [|apply Hskip; by right|split_and!; [done|by left|done]].
  clear Hskip. pose proof (delete_ok s x Hs) as Hd. pose proof (fun y Hy => old_enough_delete s x y retention now Hs Hy) as Hold.
  destruct (delete s x) as [s1 res1]. cbn [fst] in Hold. destruct Hd as (Hs1 & Hoth & Hx).
  assert (Hgone : swept_from s s1 marked retention now).
  { intros id. destruct (decide (id = x)) as [->|Hn]; [|left; by apply Hoth].
    destruct res1; [right; done|]. destruct Hx as [Hx|Hx]; [right; done|by left]. }
  destruct res1 as [u|e]; [|done]. specialize (IH s1 (swept + 1)%nat retained Hs1).
  destruct (sweep_loop s1 ids marked retention now (swept + 1) retained) as [s' res]. destruct IH as (H1 & H2 & H3).
  assert (Hxn : om_get x (blobs s') = None) by (destruct (H2 x) as [->|[? _]]; done).
  split_and!; [done| |].
  - intros id. destruct (decide (id = x)) as [->|Hn]; [right; done|]. destruct (H2 id) as [->|(? & ? & Ho')].
    + left. by apply Hoth.
    + right. split_and!; [done|done|]. by rewrite Hold in Ho'.
  - intros Hok id [<-|Hid] Hm' Ho'; [done|]. destruct (decide (id = x)) as [->|Hn]; [done|]. apply H3; [done|done|done|by rewrite Hold].
Qed.

Lemma sweep_unmarked_spec s marked retention now : blob_ok s ->
  let (s', res) := sweep_unmarked s marked retention now in
  blob_ok s' /\ swept_from s s' marked retention now /\
  (is_ok res = true -> forall id, id ∉ marked -> old_enough s id retention now = Ok true -> om_get id (blobs s') = None).
Proof.
  intros Hs. unfold sweep_unmarked. destruct (list_blobs s) as [ids|e] eqn:Hl; [|split_and!; [done|by left|done]].
  pose proof (sweep_loop_spec ids s marked retention now 0 0 Hs) as H.
  destruct (sweep_loop s ids marked retention now 0 0) as [s' res]. destruct H as (H1 & H2 & H3). split_and!; [done|done|].
  intros Hok id Hm Ho. destruct (om_get id (blobs s)) as [l|] eqn:Hg.
  - apply H3; [done| |done|done]. apply (list_blobs_ok s ids Hs Hl). by rewrite Hg.
  - destruct (H2 id) as [->|[? _]]; done.
Qed.
End sweep_facts.

(** ** A node's collection *)

Definition live_ids (root : DbRoot) : list BlobId :=
  match roots root with
  | None => []
  | Some rs => root_ids rs ++ match history_roots root with Some hs => root_ids hs | None => [] end
  end.

Section node_facts.
Context `{C : Crypto} {S R E : Type} `{BS : BlobStore S} {BL : BlobStoreLaws BS} `{RS : RootStore S} `{BR : BlobStore R}.
Context (from_store : StoreError -> E) (gc_store : string -> result E R).

Notation index_walk := (fun (_ : BlobId) (l : bytes) => index_blob_children l).

(** A blob the root record of the database leads to, read through its reader. *)
Definition db_live (s : S) (name : string) (store : R) (id : BlobId) : Prop :=
  exists b root, get_root s name = Ok (Some b) /\ root_decode b = Some root /\
  gc_store (db_of_root name) = Ok store /\ reach index_walk store (live_ids root) id.

Lemma mark_index_spec fuel store r marked m : mark_index from_store fuel store r marked = Some (Ok m) ->
  marked ⊆ m /\ (forall id, In id (root_ids r) -> id ∈ m) /\
  (forall id, id ∈ m -> id ∈ marked \/ (reach index_walk store (root_ids r) id /\ walked index_walk store m id)).
Proof.
  unfold mark_index, lift. destruct (mark_reachable _ _ _ _ _) as [[m'|e]|] eqn:H; cbn; try done. intros [= <-].
  by apply mark_reachable_spec in H.
Qed.

Lemma gc_mark_db_spec fuel s name marked m : gc_mark_db from_store gc_store fuel s name marked = Some (Ok m) ->
  marked ⊆ m /\
  (forall b root store, get_root s name = Ok (Some b) -> root_decode b = Some root -> gc_store (db_of_root name) = Ok store ->
   forall id, In id (live_ids root) -> id ∈ m) /\
  (forall id, id ∈ m -> id ∈ marked \/ exists store, db_live s name store id /\ walked index_walk store m id).
Proof.
  unfold gc_mark_db, db_live. destruct (get_root s name) as [b|e]; cbn [map_err then_ok]; [|done].
  destruct b as [b|]; cbn [mbind option_bind]; [|intros [= <-]; split_and!; [done|done|by left]].
  destruct (root_decode b) as [root|] eqn:Hroot; [|intros [= <-]; split_and!; [done|congruence|by left]].
  unfold live_ids. destruct (roots root) as [rs|] eqn:Hrs; [|intros [= <-]; split_and!; [done| |by left]].
  2: { intros b' root' store' [= <-] Hd _ id. rewrite Hroot in Hd. injection Hd as <-. by rewrite Hrs. }
  destruct (gc_store (db_of_root name)) as [store|e] eqn:Hst; cbn [then_ok]; [|done].
  destruct (mark_index from_store fuel store rs marked) as [[m1|e]|] eqn:H1; cbn [then_ok]; try done.
  apply mark_index_spec in H1 as (Hs1 & Hp1 & Hm1).
  destruct (history_roots root) as [hs|] eqn:Hhs.
  - intros (Hs2 & Hp2 & Hm2)%mark_index_spec. split_and!; [by etrans| |].
    + intros b' root' store' [= <-] Hd _ id. rewrite Hroot in Hd. injection Hd as <-. rewrite Hrs, Hhs.
      intros [Hin|Hin]%in_app_iff; [by apply Hs2, Hp1|by apply Hp2].
    + intros id Hid. destruct (Hm2 id Hid) as [H|[Hr Hw]]; [destruct (Hm1 id H) as [?|[Hr Hw]]; [by left|]|];
        right; exists store; (split; [exists b, root; rewrite Hrs, Hhs; split_and!; try done|]).
      * eapply reach_mono; [|exact Hr]. intros x Hx. apply reach_root, in_app_iff. by left.
      * by eapply walked_mono.
      * eapply reach_mono; [|exact Hr]. intros x Hx. apply reach_root, in_app_iff. by right.
      * done.
  - intros [= <-]. split_and!; [done| |].
    + intros b' root' store' [= <-] Hd _ id. rewrite Hroot in Hd. injection Hd as <-. rewrite Hrs, Hhs, app_nil_r. apply Hp1.
    + intros id Hid. destruct (Hm1 id Hid) as [?|[Hr Hw]]; [by left|]. right. exists store. split; [|done].
      exists b, root. rewrite Hrs, Hhs, app_nil_r. split_and!; done.
Qed.

Lemma gc_mark_spec fuel s names marked m : gc_mark from_store gc_store fuel s names marked = Some (Ok m) ->
  marked ⊆ m /\
  (forall name b root store, In name names -> get_root s name = Ok (Some b) -> root_decode b = Some root ->
   gc_store (db_of_root name) = Ok store -> forall id, In id (live_ids root) -> id ∈ m) /\
  (forall id, id ∈ m -> id ∈ marked \/ exists name store, In name names /\ db_live s name store id /\ walked index_walk store m id).
Proof.
  revert marked. induction names as [|name names IH]; intros marked; cbn [gc_mark].
  { intros [= <-]. split_and!; [done|done|by left]. }
  destruct (gc_mark_db _ _ _ _ _ _) as [[m1|e]|] eqn:H1; cbn [then_ok]; try done.
  apply gc_mark_db_spec in H1 as (Hs1 & Hp1 & Hm1). intros (Hs2 & Hp2 & Hm2)%IH. split_and!; [by etrans| |].
  - intros name' b root store [<-|Hin] Hb Hd Hst id Hid; [|by eapply Hp2]. by eapply Hs2, Hp1.
  - intros id Hid. destruct (Hm2 id Hid) as [H|(n & st & Hn & Hl & Hw)].
    + destruct (Hm1 id H) as [?|(st & Hl & Hw)]; [by left|]. right. exists name, st. split_and!; [by left|done|by eapply walked_mono].
    + right. exists n, st. split_and!; [by right|done|done].
Qed.

(** A blob some database's root leads to. *)
Definition live (s : S) (id : BlobId) : Prop :=
  exists names name store, list_roots s "db:" = Ok names /\ In name names /\ db_live s name store id.

(** A blob two databases lead to names the same blobs through either reader. *)
Definition readers_agree (s : S) : Prop :=
  forall name name' store store' id cs cs', db_live s name store id -> db_live s name' store' id ->
  references index_walk store id = Ok cs -> references index_walk store' id = Ok cs' -> cs = cs'.

Lemma gc_mark_exact fuel s names m : readers_agree s -> list_roots s "db:" = Ok names ->
  gc_mark from_store gc_store fuel s names ∅ = Some (Ok m) -> forall id, id ∈ m <-> live s id.
Proof.
  intros Ha Hn (_ & Hp & Hm)%gc_mark_spec id. split.
  - intros Hid. destruct (Hm id Hid) as [?|(name & store & ? & ? & _)]; [set_solver|]. by exists names, name, store.
  - intros (names' & name & store & Hn' & Hin & b & root & Hb & Hd & Hst & Hr). rewrite Hn in Hn'. injection Hn' as <-.
    induction Hr as [x Hx|x cs c Hr IH Hcs Hc]; [by eapply Hp|].
    destruct (Hm x IH) as [?|(name' & store' & _ & Hl & cs' & Hcs' & Hw)]; [set_solver|]. apply Hw.
    rewrite (Ha name' name store' store x cs' cs); [done|done| |done|done]. by exists b, root.
Qed.

(** Nothing is retained, or the blob was last modified at least the retention window ago; a
    modification in the future was no time ago. A blob whose time is not known is kept. *)
Definition past_retention (s : S) (id : BlobId) (retention now : Z) : Prop :=
  retention = 0 \/ exists modified, modified_at s id = Ok (Some modified) /\ retention <= Z.max 0 (now - modified).

Lemma old_enough_spec s id retention now : old_enough s id retention now = Ok true <-> past_retention s id retention now.
Proof.
  unfold old_enough, past_retention. destruct (Z.eqb_spec retention 0) as [->|Hr]; [split; [by left|done]|].
  destruct (modified_at s id) as [[m|]|e]; cbn [mbind result_bind is_some_and].
  - destruct (Z.leb_spec retention (Z.max 0 (now - m))); split; intros Hx; try done.
    + right. by exists m.
    + destruct Hx as [?|(m' & [= <-] & ?)]; lia.
  - split; [done|]. by intros [?|(m' & [=] & _)].
  - split; [done|]. by intros [?|(m' & [=] & _)].
Qed.

(** C15. Garbage collection is exact. Every blob is left as it was, or is deleted while no
    root of any database leads to it and it is past the retention window; and a collection
    that finishes deletes every such blob. A collection that fails deletes no live blob. *)
Theorem gc_exact fuel s retention now s' res : blob_ok s -> readers_agree s ->
  gc_deleted_with_retention from_store gc_store fuel s retention now = Some (s', res) ->
  forall id,
  (om_get id (blobs s') = om_get id (blobs s) \/
   (om_get id (blobs s') = None /\ ~ live s id /\ past_retention s id retention now)) /\
  (is_ok res = true -> ~ live s id -> past_retention s id retention now -> om_get id (blobs s') = None).
Proof.
  intros Hs Ha. setoid_rewrite <- old_enough_spec. unfold gc_deleted_with_retention. destruct (list_roots s "db:") as [names|e] eqn:Hn.
  2: { intros [= <- <-] id. split; [by left|done]. }
  destruct (gc_mark _ _ fuel s names ∅) as [[m|e]|] eqn:Hmark; [|intros [= <- <-] id; split; [by left|done]|done].
  pose proof (gc_mark_exact _ _ _ _ Ha Hn Hmark) as Hm.
  pose proof (sweep_unmarked_spec s m retention now Hs) as H. destruct (sweep_unmarked s m retention now) as [s1 res1].
  destruct H as (_ & H2 & H3). intros [= <- <-] id. split.
  - destruct (H2 id) as [?|(? & Hnm & ?)]; [by left|]. right. rewrite <- Hm. done.
  - intros Hok Hl Ho. apply H3; [by destruct res1|by rewrite Hm|done].
Qed.

(** *** It finishes *)

Lemma unmarked_le {T} `{BlobStore T} ch (s : T) stored (marked : gset BlobId) :
  (unmarked_count ch s stored marked <= sum_list (map (reference_count ch s) stored))%nat.
Proof.
  unfold unmarked_count. induction stored as [|x stored IH]; [done|]. cbn [List.filter].
  destruct (negb _); cbn [map sum_list]; lia.
Qed.

Definition finite_store (store : R) : Prop := exists stored, forall id l, get store id = Ok (Some l) -> In id stored.

Lemma mark_index_ends store : finite_store store ->
  exists n, forall fuel r marked, (n <= fuel)%nat -> is_Some (mark_index from_store fuel store r marked).
Proof.
  intros [stored0 Hst]. set (stored := nodup String.string_dec stored0).
  exists (4 + sum_list (map (reference_count index_walk store) stored))%nat. intros fuel r marked Hf.
  unfold mark_index, lift, mark_reachable. apply fmap_is_Some. apply mark_loop_ends with stored.
  - apply NoDup_ListNoDup, NoDup_nodup.
  - intros id Hr. apply nodup_In. unfold references in Hr. destruct (get store id) as [[l|]|] eqn:Hg; try done. by eapply Hst.
  - pose proof (unmarked_le index_walk store stored marked). rewrite length_rev. cbn [root_ids length]. lia.
Qed.

Lemma then_ok_ends {E' A B} (r : option (result E' A)) (f : A -> option (result E' B)) :
  is_Some r -> (forall a, is_Some (f a)) -> is_Some (then_ok r f).
Proof. intros [[a|e] ->] H; cbn [then_ok]; [apply H|done]. Qed.

Lemma gc_mark_db_ends s name : (forall db store, gc_store db = Ok store -> finite_store store) ->
  exists n, forall fuel marked, (n <= fuel)%nat -> is_Some (gc_mark_db from_store gc_store fuel s name marked).
Proof.
  intros Hfin. unfold gc_mark_db.
  destruct (gc_store (db_of_root name)) as [store|e] eqn:Hst.
  - destruct (mark_index_ends store (Hfin _ _ Hst)) as [n Hn]. exists n. intros fuel marked Hf.
    apply then_ok_ends; [done|]. intros b. destruct (b ≫= root_decode) as [root|]; [|done]. destruct (roots root) as [rs|]; [|done].
    cbn [then_ok]. apply then_ok_ends; [by apply Hn|]. intros m. destruct (history_roots root); [by apply Hn|done].
  - exists 0%nat. intros fuel marked _. apply then_ok_ends; [done|]. intros b. destruct (b ≫= root_decode) as [root|]; [|done].
    by destruct (roots root).
Qed.

Lemma gc_mark_ends s names : (forall db store, gc_store db = Ok store -> finite_store store) ->
  exists n, forall fuel marked, (n <= fuel)%nat -> is_Some (gc_mark from_store gc_store fuel s names marked).
Proof.
  intros Hfin. induction names as [|name names [n IH]]; [by exists 0%nat|].
  destruct (gc_mark_db_ends s name Hfin) as [k Hk]. exists (Nat.max n k). intros fuel marked Hf. cbn [gc_mark].
  apply then_ok_ends; [apply Hk; lia|]. intros m. apply IH. lia.
Qed.

(** Collection terminates: with readers of finitely many blobs, manifests that name one
    another in a cycle included, some number of rounds finishes every walk. *)
Theorem gc_completes s retention now : (forall db store, gc_store db = Ok store -> finite_store store) ->
  exists n, forall fuel, (n <= fuel)%nat -> is_Some (gc_deleted_with_retention from_store gc_store fuel s retention now).
Proof.
  intros Hfin. unfold gc_deleted_with_retention. destruct (list_roots s "db:") as [names|e]; [|by exists 0%nat].
  destruct (gc_mark_ends s names Hfin) as [n Hn]. exists n. intros fuel Hf.
  destruct (Hn fuel ∅ Hf) as [[m|e] ->]; [|done]. by destruct (sweep_unmarked s m retention now).
Qed.
End node_facts.

(** ** Samples *)

#[local] Existing Instance toy_crypto.
#[local] Existing Instance toy_crypto_laws.

Definition gc_sample_root : DbRoot :=
  let id := digest sample_manifest in
  mk_root FORMAT_VERSION 1 "node" 0 EmptyString 3 (Some (mk_roots id id id id)) None 1000 0 0.

(** The published index of [sample_store], and a blob nothing names. *)
Definition gc_sample : MemoryStore :=
  mk_memory (m_blobs (memory_put sample_store [9]).1) [("db:main", root_encode gc_sample_root)].

Notation gc_sample_run :=
  (gc_deleted_with_retention (fun e : StoreError => e) (fun _ => Ok gc_sample) 20 gc_sample 0 0).

Lemma gc_sample_agree : readers_agree (fun _ => Ok (E := StoreError) gc_sample) gc_sample.
Proof.
  intros name name' store store' id cs cs' (_ & _ & _ & _ & [= <-] & _) (_ & _ & _ & _ & [= <-] & _) H1 H2. congruence.
Qed.

Lemma gc_sample_swept : exists s', gc_sample_run = Some (s', Ok 1) /\ om_get (digest [9]) (blobs s') = None.
Proof. eexists. split; [vm_compute; reflexivity|vm_compute; reflexivity]. Qed.

(** The orphan is deleted. *)
Lemma gc_exact_witness : exists s', gc_sample_run = Some (s', Ok 1) /\ om_get (digest [9]) (blobs s') = None /\
  forall id,
  (om_get id (blobs s') = om_get id (blobs gc_sample) \/
   (om_get id (blobs s') = None /\ ~ live (fun _ => Ok (E := StoreError) gc_sample) gc_sample id /\
    past_retention gc_sample id 0 0)).
Proof.
  destruct gc_sample_swept as (s' & H & H9). exists s'. split; [exact H|]. split; [exact H9|]. intros id.
  assert (Hs : blob_ok gc_sample) by exact I.
  pose proof (gc_exact (E := StoreError) (R := MemoryStore) (fun e => e) (fun _ => Ok gc_sample) 20 gc_sample 0 0 s' (Ok 1) Hs
    gc_sample_agree) as T.
  destruct (T H id) as [T1 _]. exact T1.
Defined.

Lemma memory_finite (s : MemoryStore) : finite_store s.
Proof.
  exists (map fst (m_blobs s)). intros id l [= H]. apply om_get_In in H. apply in_map_iff. by exists (id, l).
Qed.

Lemma gc_completes_witness :
  exists n, forall fuel, (n <= fuel)%nat ->
  is_Some (gc_deleted_with_retention (fun e : StoreError => e) (fun _ => Ok gc_sample) fuel gc_sample 0 0).
Proof.
  apply (gc_completes (fun e => e) (fun _ => Ok gc_sample) gc_sample 0 0).
  intros db store H. apply memory_finite.
Defined.
