(* ===== verification/Transactor.v ===== *)
(** * The embedded transactor (corium-transactor/src/lib.rs)

    Preparing, appending and applying a transaction, group commit through a cursor, and
    recovery from the log or from a snapshot and the tail of the log. The state a mutex
    guards is passed along; a call that drops the lock while it waits for the log is two
    steps. A subscriber is the queue of its channel, or none when its receiver is gone. *)

From stdpp Require Import base list strings sorting.
From Stdlib Require Import ZArith Lia.
From S2P Require Import Prelude OrdMap Machine Ids Keyword Values Encoding Datoms Schema.
From S2P Require Import Bootstrap SchemaDatoms Db SagaDb TxSaga Branch Tx.
From S2P Require Import Crypt LogRecord Stores LogInterface.
Local Open Scope Z_scope.

Module TransactError.
Inductive TransactError :=
| Tx (f : Fault)
| Log (e : LogError)
| Store (e : StoreError)
| Clock
| IndexTask (message : string)
| AsyncTransactionPending
| Deposed (published : Z).
End TransactError.
Notation TransactError := TransactError.TransactError.

(** The datoms with the instant among them, and the instant. *)
Definition seal_tx_instant (datoms : list Datom) (t now_ms last_instant : Z) : result Fault (list Datom * Z) :=
  match asserted_instant t datoms with
  | Some supplied =>
      if supplied <=? last_instant then fails (TxError.TxInstantNotMonotonic supplied last_instant)
      else Ok (datoms, supplied)
  | None =>
      let instant := Z.max now_ms (saturating_add_i64 last_instant 1) in
      Ok (datoms ++ [tx_instant_datom t instant], instant)
  end.

Definition effective_tx_instant (record : TxRecord) : Z :=
  unwrap_or (asserted_instant (r_t record) (r_datoms record)) (r_tx_instant record).

Definition next_user_id (datoms : list Datom) (floor : Z) : Z :=
  fold_left Z.max (map (fun d => sequence (d_e d) + 1) (List.filter (fun d => is_user (d_e d)) datoms)) floor.

Section transactor.
Context {R : Rpds}.
Implicit Types db before : Db.

Definition floor_past_grants db (next_user : Z) : Z := Z.max next_user (grant_ceiling db (partition_id Partition.User)).

(** ** Entity-id blocks for the sagas a transaction opens *)

Definition opened_sagas before (datoms : list Datom) : list EntityId :=
  List.filter (fun e => is_none (entry_at before e))
    (map d_e (List.filter (fun d => bool_decide (d_a d = SAGA_ID) && d_added d) datoms)).

Definition grant_datoms (saga grant : EntityId) (start length : Z) (tx : EntityId) : list Datom :=
  [ mk_datom saga SAGA_ID_GRANTS (Value.Ref grant) tx true;
    mk_datom grant SAGA_GRANT_PARTITION (Value.Long (partition_id Partition.User)) tx true;
    mk_datom grant SAGA_GRANT_START (Value.Long start) tx true;
    mk_datom grant SAGA_GRANT_LENGTH (Value.Long length) tx true ].

(** A start that does not fit a signed integer panics. *)
Fixpoint lease_grants (opened : list EntityId) (datoms : list Datom) (tx : EntityId) (next : Z)
    : result Fault (list Datom * Z) :=
  match opened with
  | [] => Ok (datoms, next)
  | saga :: opened =>
      let grant := entity_new (partition_id Partition.User) next in
      let start := next + 1 in
      let length := DEFAULT_ID_BLOCK in
      let next := saturating_add_u64 start length in
      if 2 ^ 63 <=? start then Err Fault.Panics
      else lease_grants opened (datoms ++ grant_datoms saga grant start length tx) tx next
  end.

Definition lease_saga_grants before (datoms : list Datom) (tx : EntityId) (next : Z) : result Fault (list Datom * Z) :=
  lease_grants (opened_sagas before datoms) datoms tx next.

Definition advance_allocation before (prepared : PreparedTx) (tx : EntityId) (next_user : Z)
    : result Fault (PreparedTx * Z) :=
  let next :=
    fold_left Z.max (map (fun e => sequence e + 1) (List.filter is_user (map snd (p_tempids prepared)))) next_user in
  '(datoms, next) ← lease_saga_grants before (p_datoms prepared) tx next;
  Ok (mk_prepared datoms (p_tempids prepared), next).

(** ** Group commit *)

Record Prepared := mk_prepared_tx {
  pr_record : TxRecord;
  pr_before : Db;
  pr_after : Db;
  pr_tx : PreparedTx;
  pr_tx_instant : Z }.

Record BatchCursor := mk_cursor { bc_db : Db; bc_next_user : Z; bc_last_instant : Z }.

Definition tx_entity_id (t : Z) : EntityId := entity_new (partition_id Partition.Tx) t.

Definition prepare_transaction (c : BatchCursor) (items : list TxItem) (now_ms : Z) (rules : option BranchRules)
    : BatchCursor * result Fault Prepared :=
  let before := bc_db c in
  let t := basis_t before + 1 in
  let tx_id := tx_entity_id t in
  match
    prepared ← prepare before items tx_id (bc_next_user c);
    _ ← match rules with
        | Some rules => map_err (fun v => Fault.Fails (TxError.Step v)) (validate_step (p_datoms prepared) rules)
        | None => Ok tt
        end;
    advance_allocation before prepared tx_id (bc_next_user c)
  with
  | Err e => (c, Err e)
  | Ok (prepared, next_user) =>
      let c := mk_cursor (bc_db c) next_user (bc_last_instant c) in
      match seal_tx_instant (p_datoms prepared) t now_ms (bc_last_instant c) with
      | Err e => (c, Err e)
      | Ok (datoms, tx_instant) =>
          let prepared := mk_prepared datoms (p_tempids prepared) in
          let after := with_transaction_at before t tx_instant datoms in
          (mk_cursor after next_user tx_instant,
           Ok (mk_prepared_tx (mk_tx_record t tx_instant datoms) before after prepared tx_instant))
      end
  end.

Definition cursor_prepare (c : BatchCursor) (items : list TxItem) (now_ms : Z) : BatchCursor * result Fault Prepared :=
  prepare_transaction c items now_ms None.

Definition prepare_step (c : BatchCursor) (items : list TxItem) (now_ms : Z) (rules : BranchRules)
    : BatchCursor * result Fault Prepared := prepare_transaction c items now_ms (Some rules).

Definition intern_naming (c : BatchCursor) (interner : KeywordInterner) : BatchCursor :=
  mk_cursor (with_naming (bc_db c) (db_idents (bc_db c)) interner) (bc_next_user c) (bc_last_instant c).

Definition prepare_datoms (c : BatchCursor) (datoms : list Datom) (now_ms : Z) : BatchCursor * result Fault Prepared :=
  let before := bc_db c in
  let t := basis_t before + 1 in
  match seal_tx_instant datoms t now_ms (bc_last_instant c) with
  | Err e => (c, Err e)
  | Ok (datoms, tx_instant) =>
      let after := with_transaction_at before t tx_instant datoms in
      (mk_cursor after (bc_next_user c) tx_instant,
       Ok (mk_prepared_tx (mk_tx_record t tx_instant datoms) before after (mk_prepared datoms []) tx_instant))
  end.

(** ** State *)

Record TxReport := mk_tx_report { rp_before : Db; rp_after : Db; rp_tx : PreparedTx; rp_tx_instant : Z }.

Record State := mk_state {
  st_db : Db;
  st_next_user : Z;
  st_last_instant : Z;
  st_subscribers : list (option (list TxReport));
  st_async_pending : bool }.

(** [subscribers.retain(|s| s.send(report).is_ok())] *)
Definition send_report (report : TxReport) (subscribers : list (option (list TxReport))) : list (option (list TxReport)) :=
  filter_map (fun s => queue ← s; Some (Some (queue ++ [report]))) subscribers.

Definition batch_cursor (st : State) : BatchCursor := mk_cursor (st_db st) (st_next_user st) (st_last_instant st).

Definition report_of (p : Prepared) : TxReport := mk_tx_report (pr_before p) (pr_after p) (pr_tx p) (pr_tx_instant p).

Definition install_batch (st : State) (c : BatchCursor) (prepared : list Prepared) : State * list TxReport :=
  let reports := map report_of prepared in
  (mk_state (bc_db c) (Z.max (st_next_user st) (bc_next_user c)) (Z.max (st_last_instant st) (bc_last_instant c))
     (fold_left (fun subs report => send_report report subs) reports (st_subscribers st)) (st_async_pending st),
   reports).

Definition update_naming (st : State) (idents : Idents) (interner : KeywordInterner) : State :=
  mk_state (with_naming (st_db st) idents interner) (st_next_user st) (st_last_instant st) (st_subscribers st)
    (st_async_pending st).

Definition raise_allocation_floor (st : State) (floor : Z) : State :=
  mk_state (st_db st) (Z.max (st_next_user st) floor) (st_last_instant st) (st_subscribers st) (st_async_pending st).

Definition subscribe (st : State) : State :=
  mk_state (st_db st) (st_next_user st) (st_last_instant st) (st_subscribers st ++ [Some []]) (st_async_pending st).

Definition recovery_snapshot (st : State) : Db * Z * Z := (st_db st, st_next_user st, st_last_instant st).

(** ** Recovery *)

Definition fresh_state db (next_user last_instant : Z) : State := mk_state db next_user last_instant [] false.

Definition replay_record (acc : Db * Z) (record : TxRecord) : Db * Z :=
  let (db, last_instant) := acc in
  (with_transaction_at db (r_t record) (r_tx_instant record) (r_datoms record),
   Z.max last_instant (effective_tx_instant record)).

Definition recover_from_records db (records : list TxRecord) : State :=
  let (db, last_instant) := fold_left replay_record records (db, i64_MIN) in
  fresh_state db (floor_past_grants db (next_user_id (recorded_datoms db) FIRST_USER_ID)) last_instant.

Definition replay_tail (acc : Db * Z * Z) (record : TxRecord) : Db * Z * Z :=
  let '(db, last_instant, next_user) := acc in
  let (db, last_instant) := replay_record (db, last_instant) record in
  (db, last_instant, Z.max next_user (next_user_id (r_datoms record) next_user)).
End transactor.

Section pipeline.
Context {R : Rpds} {L : Type} {T : TransactionLog L}.
Implicit Types log : L.

Definition recover_from (base : Db) log : L * result TransactError State :=
  let (log, res) := replay log in
  (log, records ← map_err TransactError.Log res; Ok (recover_from_records base records)).

Definition recover (schema : Schema) log : L * result TransactError State := recover_from (db_new schema) log.

Definition recover_from_snapshot (snapshot : Db) (next_entity_id last_tx_instant : Z) log : L * result TransactError State :=
  let (log, res) := LogInterface.tx_range log (basis_t snapshot + 1) None in
  (log,
   records ← map_err TransactError.Log res;
   let '(db, last_instant, next_user) :=
     fold_left replay_tail records (snapshot, last_tx_instant, Z.max next_entity_id FIRST_USER_ID) in
   Ok (fresh_state db (floor_past_grants db next_user) last_instant)).

(** ** Transactions *)

(** A transaction prepared, stamped and ready for the log. The clock is [None] before the
    epoch. *)
Definition prepare_commit (st : State) (items : list TxItem) (clock : option Z)
    : result TransactError (PreparedTx * Z * Z * Z) :=
  let before := st_db st in
  let t := basis_t before + 1 in
  prepared ← map_err TransactError.Tx (prepare before items (tx_entity_id t) (st_next_user st));
  '(prepared, next_user) ← map_err TransactError.Tx (advance_allocation before prepared (tx_entity_id t) (st_next_user st));
  now ← ok_or clock TransactError.Clock;
  '(datoms, tx_instant) ←
    map_err TransactError.Tx (seal_tx_instant (p_datoms prepared) t (Z.min now (2 ^ 63 - 1)) (st_last_instant st));
  Ok (mk_prepared datoms (p_tempids prepared), t, tx_instant, next_user).

Definition transact (st : State) log (items : list TxItem) (clock : option Z) : State * L * result TransactError TxReport :=
  if st_async_pending st then (st, log, Err TransactError.AsyncTransactionPending)
  else
    match prepare_commit st items clock with
    | Err e => (st, log, Err e)
    | Ok (prepared, t, tx_instant, next_user) =>
        match append log (mk_tx_record t tx_instant (p_datoms prepared)) with
        | (log, Err e) => (st, log, Err (TransactError.Log e))
        | (log, Ok _) =>
            let before := st_db st in
            let after := with_transaction_at before t tx_instant (p_datoms prepared) in
            let report := mk_tx_report before after prepared tx_instant in
            (mk_state after next_user tx_instant (send_report report (st_subscribers st)) (st_async_pending st), log, Ok report)
        end
    end.

(** *** While the log is awaited

    [begin_async] runs under the lock and marks the state pending; the record is appended
    without it; [finish_async] applies an acknowledged append to the value of that moment,
    and a failed or dropped one only clears the mark. *)

Record AsyncPending := mk_pending { ap_before : Db; ap_prepared : PreparedTx; ap_t : Z; ap_tx_instant : Z; ap_next_user : Z }.

Definition begin_async (st : State) (items : list TxItem) (clock : option Z) : State * result TransactError AsyncPending :=
  if st_async_pending st then (st, Err TransactError.AsyncTransactionPending)
  else
    match prepare_commit st items clock with
    | Err e => (st, Err e)
    | Ok (prepared, t, tx_instant, next_user) =>
        (mk_state (st_db st) (st_next_user st) (st_last_instant st) (st_subscribers st) true,
         Ok (mk_pending (st_db st) prepared t tx_instant next_user))
    end.

Definition pending_record (p : AsyncPending) : TxRecord :=
  mk_tx_record (ap_t p) (ap_tx_instant p) (p_datoms (ap_prepared p)).

Definition abort_async (st : State) : State :=
  mk_state (st_db st) (st_next_user st) (st_last_instant st) (st_subscribers st) false.

Definition finish_async (st : State) (p : AsyncPending) (appended : result LogError unit) : State * result TransactError TxReport :=
  match appended with
  | Err e => (abort_async st, Err (TransactError.Log e))
  | Ok _ =>
      let after := with_transaction_at (st_db st) (ap_t p) (ap_tx_instant p) (p_datoms (ap_prepared p)) in
      let report := mk_tx_report (ap_before p) after (ap_prepared p) (ap_tx_instant p) in
      (mk_state after (Z.max (st_next_user st) (ap_next_user p)) (ap_tx_instant p)
         (send_report report (st_subscribers st)) false,
       Ok report)
  end.
End pipeline.
