(* ===== verification/TransactorFacts.v ===== *)
(** * What the transactor writes, and what recovery reads back *)

From stdpp Require Import base list strings sorting.
From Stdlib Require Import ZArith Lia.
From S2P Require Import Prelude OrdMap Machine Ids Keyword Values Encoding Datoms Schema.
From S2P Require Import Bootstrap SchemaDatoms Db DbFacts DbReads DbTheorems SagaDb TxSaga Branch.
From S2P Require Import Tx TxSpec TxFacts TxLoop TxTheorems.
From S2P Require Import Crypt LogRecord FileLog FileLogFacts Stores LogInterface Transactor.
Local Open Scope Z_scope.

(** ** Instants *)

Definition i64_MAX : Z := 2 ^ 63 - 1.

(** Later than, while the clock can still advance. *)
Definition later (i j : Z) : Prop := i < j \/ (i = i64_MAX /\ j = i64_MAX).

Lemma asserted_instant_snoc t ds i : asserted_instant t (ds ++ [tx_instant_datom t i]) = Some i.
Proof.
  unfold asserted_instant. rewrite fold_left_app. cbn [fold_left tx_instant_datom d_v d_e d_a d_added].
  by rewrite !bool_decide_true.
Qed.

Lemma asserted_instant_In t ds i : asserted_instant t ds = Some i ->
  exists d, In d ds /\ d_v d = Value.Instant i.
Proof.
  unfold asserted_instant. induction ds as [|d ds IH] using rev_ind; [done|].
  rewrite fold_left_app. cbn [fold_left].
  set (acc := fold_left _ ds None) in *. intros H.
  assert (Hold : acc = Some i -> exists d', In d' (ds ++ [d]) /\ d_v d' = Value.Instant i).
  { intros Ha. destruct (IH Ha) as (d' & Hd' & Hv). exists d'. split; [apply in_app_iff; by left|done]. }
  destruct (d_v d) as [] eqn:Hv; try by apply Hold.
  destruct (_ && _)%bool; [|by apply Hold]. destruct (d_added d).
  - injection H as ->. exists d. split; [apply in_app_iff; right; by left|done].
  - case_bool_decide; [done|by apply Hold].
Qed.

Lemma saturating_next last : i64 last -> i64 (saturating_add_i64 last 1) /\ later last (saturating_add_i64 last 1).
Proof. unfold i64, later, saturating_add_i64, i64_MAX. lia. Qed.

(** A stamped transaction states its instant, which is later than the last one. *)
Lemma seal_spec ds t now last ds' i : i64 last -> - 2 ^ 63 <= now -> now <= i64_MAX ->
  Forall (fun d => fact_wf (d_fact d)) ds ->
  seal_tx_instant ds t now last = Ok (ds', i) ->
  asserted_instant t ds' = Some i /\ i64 i /\ later last i /\
  (ds' = ds \/ ds' = ds ++ [tx_instant_datom t i]).
Proof.
  intros Hl Hn1 Hn2 Hw. unfold seal_tx_instant. destruct (asserted_instant t ds) as [s|] eqn:Ha.
  - destruct (Z.leb_spec s last); [done|]. intros [= <- <-]. split_and!; [done| |by left|by left].
    apply asserted_instant_In in Ha as (d & Hd & Hv). rewrite List.Forall_forall in Hw. destruct (Hw d Hd) as (_ & _ & Hval).
    cbn [d_fact snd fst] in Hval. rewrite Hv in Hval. exact Hval.
  - intros [= <- <-]. destruct (saturating_next last Hl) as [Hs Hlt]. split_and!; [apply asserted_instant_snoc| | |by right].
    + unfold i64, i64_MAX in *. lia.
    + unfold later, i64_MAX, i64, saturating_add_i64 in *. lia.
Qed.

Lemma stamped_asserted t i ds j : asserted_instant t ds = Some j -> stamped t i ds = ds.
Proof. unfold stamped. by intros ->. Qed.

Lemma effective_sealed t i ds : asserted_instant t ds = Some i -> effective_tx_instant (mk_tx_record t i ds) = i.
Proof. unfold effective_tx_instant. cbn [r_t r_datoms r_tx_instant]. by intros ->. Qed.

(** ** Allocation *)

Section allocation.
Context {R : Rpds}.

Definition grants_fact (tx : EntityId) (d : Datom) : Prop :=
  d_tx d = tx /\ d_added d = true /\ is_schema_attribute (d_a d) = false /\ fact_wf (d_fact d).

Lemma grant_datoms_ok saga grant start len tx : u64 saga -> u64 grant -> i64 start -> i64 len ->
  Forall (grants_fact tx) (grant_datoms saga grant start len tx).
Proof.
  intros Hs Hg Hst Hl. unfold grant_datoms.
  repeat (apply List.Forall_cons; [split_and!; [done|done|reflexivity|split_and!; try done; by vm_compute]|]). constructor.
Qed.

Lemma lease_grants_spec opened ds tx next ds' next' : 0 <= next -> Forall u64 opened ->
  lease_grants opened ds tx next = Ok (ds', next') ->
  next <= next' /\ exists new, ds' = ds ++ new /\ Forall (grants_fact tx) new.
Proof.
  revert ds next. induction opened as [|saga opened IH]; intros ds next Hn Hu; cbn [lease_grants].
  { intros [= <- <-]. split; [lia|]. exists []. by rewrite app_nil_r. }
  apply Forall_cons in Hu as [Hsaga Hu]. destruct (Z.leb_spec (2 ^ 63) (next + 1)); [done|].
  assert (Hsat : next + 1 <= saturating_add_u64 (next + 1) DEFAULT_ID_BLOCK)
    by (unfold saturating_add_u64; change DEFAULT_ID_BLOCK with 1048576; lia).
  intros [Hle (new & -> & Hnew)]%IH; [|lia|done]. split; [lia|].
  eexists. rewrite <- app_assoc. split; [reflexivity|]. apply Forall_app. split; [|done].
  apply grant_datoms_ok; [done|by apply entity_new_u64|unfold i64; lia|by vm_compute].
Qed.

Lemma opened_u64 (before : Db) ds : Forall (fun d => fact_wf (d_fact d)) ds -> Forall u64 (opened_sagas before ds).
Proof.
  intros Hw. apply List.Forall_forall. intros e [He _]%filter_In. apply in_map_iff in He as (d & <- & [Hd _]%filter_In).
  rewrite List.Forall_forall in Hw. by destruct (Hw d Hd).
Qed.

Lemma advance_spec (before : Db) p tx next p' next' : 0 <= next -> Forall (fun d => fact_wf (d_fact d)) (p_datoms p) ->
  advance_allocation before p tx next = Ok (p', next') ->
  next <= next' /\ p_tempids p' = p_tempids p /\
  (forall name e, In (name, e) (p_tempids p) -> is_user e = true -> sequence e < next') /\
  exists new, p_datoms p' = p_datoms p ++ new /\ Forall (grants_fact tx) new.
Proof.
  intros Hn Hw. unfold advance_allocation, lease_saga_grants. set (n0 := fold_left _ _ next).
  destruct (fold_max_ge (map (fun e => sequence e + 1) (List.filter is_user (map snd (p_tempids p)))) next) as [Hge Hin]. fold n0 in Hge, Hin.
  intros ([ds n] & Hl & [= <- <-])%bind_ok. cbn [p_datoms p_tempids].
  apply lease_grants_spec in Hl as [Hle Hnew]; [|lia|by apply opened_u64]. split_and!; [lia|done| |done].
  intros name e Hne Hu. enough (sequence e + 1 <= n0) by lia.
  apply Hin, in_map_iff. exists e. split; [done|]. apply filter_In. split; [|done]. apply in_map_iff. by exists (name, e).
Qed.
End allocation.

(** ** A commit *)

Section commits.
Context {R : Rpds} {HR : RpdsLaws R}.

(** A transaction fits: the numbers the code computes stay in the ranges of their types. *)
Record commit_fits (db : Db) (items : list TxItem) (next : Z) : Prop := {
  cf_items : Forall item_wf items;
  cf_basis : basis_t db + 1 < 2 ^ 42;
  cf_room : Z.max next FIRST_USER_ID + Z.of_nat (length (flat_map entity_positions (expand items))) <= 2 ^ 42;
}.

Record db_ready (db : Db) : Prop := { dr_ok : db_ok db; dr_view : view db = DbView.Current; dr_basis : 0 <= basis_t db }.

Lemma grants_tx_ok t ds : 1 <= t < 2 ^ 42 -> Forall (grants_fact (tx_of t)) ds -> tx_ok t ds.
Proof.
  intros Ht Hds. destruct (tx_of_spec t) as [Hu Hs]; [lia|]. rewrite List.Forall_forall in Hds. split.
  - apply List.Forall_forall. intros d Hd. destruct (Hds d Hd) as (Htx & _ & _ & Hw). split; [done|]. by rewrite Htx.
  - apply List.Forall_forall. intros d Hd. destruct (Hds d Hd) as (Htx & _). rewrite Htx, Hs. lia.
  - intros d Hd. destruct (Hds d Hd) as (_ & _ & -> & _). done.
Qed.

(** A sealed commit: its number, its instant, and datoms the database layer and the log
    accept. *)
Record sealed_commit (db : Db) (last t i : Z) (ds : list Datom) : Prop := {
  sc_t : t = basis_t db + 1;
  sc_asserted : asserted_instant t ds = Some i;
  sc_i64 : i64 i;
  sc_later : later last i;
  sc_tx_ok : tx_ok t ds;
}.

Lemma prepared_sealed db items next now last p p' next' ds i : db_ready db -> commit_fits db items next -> 0 <= next ->
  i64 last -> - 2 ^ 63 <= now -> now <= i64_MAX ->
  prepare db items (tx_entity_id (basis_t db + 1)) next = Ok p ->
  advance_allocation db p (tx_entity_id (basis_t db + 1)) next = Ok (p', next') ->
  seal_tx_instant (p_datoms p') (basis_t db + 1) now last = Ok (ds, i) ->
  sealed_commit db last (basis_t db + 1) i ds /\ next <= next'.
Proof.
  intros [Hok Hv Hb] [Hi Hbt Hroom] Hn Hl Hn1 Hn2 Hp Ha Hs.
  assert (Hin : input_ok db items next) by (split; [split; done|done|done|done]).
  destruct (prepare_sound db items next p Hin Hp) as (_ & _ & Hem & _).
  assert (Hrd : ready db) by apply Hin. pose proof (emitted_tx_ok db _ Hrd Hem) as Htx.
  assert (Hw : Forall (fun d => fact_wf (d_fact d)) (p_datoms p)) by apply Hem.
  apply advance_spec in Ha as (Hle & _ & _ & new & Hds & Hnew); [|done|done].
  assert (Hg : tx_ok (basis_t db + 1) new) by (apply grants_tx_ok; [lia|done]).
  assert (Htx' : tx_ok (basis_t db + 1) (p_datoms p')) by (rewrite Hds; by apply tx_ok_app).
  apply seal_spec in Hs as (H1 & H2 & H3 & H4); [|done|done|done|].
  2: { destruct Htx' as [Hwf _ _]. eapply Forall_impl; [exact Hwf|]. by intros d [? _]. }
  split; [|done]. split; try done. destruct H4 as [->| ->]; [done|]. apply tx_ok_app; [done|]. apply tx_instant_ok; [lia|done].
Qed.

Lemma sealed_ready db last t i ds : db_ready db -> basis_t db + 1 < 2 ^ 42 -> sealed_commit db last t i ds ->
  db_ready (with_transaction_at db t i ds) /\ basis_t (with_transaction_at db t i ds) = t.
Proof.
  intros [Hok Hv Hb] Hbt [-> _ Hi _ Htx]. split; [|apply with_transaction_at_basis]. split.
  - apply with_transaction_at_ok; [done|done|done|lia|done|done].
  - by rewrite with_transaction_at_view.
  - rewrite with_transaction_at_basis. lia.
Qed.

Lemma sealed_record_wf db last t i ds : db_ready db -> basis_t db + 1 < 2 ^ 42 -> sealed_commit db last t i ds ->
  Z.of_nat (length (encode_record (mk_tx_record t i ds))) < 2 ^ 62 -> record_wf (mk_tx_record t i ds).
Proof.
  intros [Hok Hv Hb] Hbt [-> _ Hi _ [Hw _ _]] Hsize. split; cbn [r_t r_tx_instant r_datoms]; [lia|done| |done].
  eapply Forall_impl; [exact Hw|]. intros d [? ?]. split; [done|]. unfold u64. lia.
Qed.
End commits.
