(* ===== verification/TransactorTheorems.v ===== *)
(** * The transactor and its log

    A transactor runs against a log that keeps its promise: transactions one at a time or
    awaited, group commits, refused and failed ones, and restarts, in any order. What it
    has applied is a prefix of what the log holds, and replaying the log gives its value. *)

From stdpp Require Import base list strings sorting relations.
From Stdlib Require Import ZArith Lia.
From S2P Require Import Prelude OrdMap Machine Ids Keyword Values Encoding Datoms Schema.
From S2P Require Import Bootstrap SchemaDatoms Db DbFacts DbReads DbTheorems SagaDb TxSaga Branch.
From S2P Require Import Tx TxSpec TxFacts TxLoop TxTheorems.
From S2P Require Import Crypt LogRecord FileLog FileLogFacts Stores StoreFacts LogInterface Transactor TransactorFacts.
Local Open Scope Z_scope.

Section system.
Context {R : Rpds} {HR : RpdsLaws R} {L : Type} {T : TransactionLog L} {TL : TransactionLogLaws T}.

(** ** Histories *)

Definition replayed (base : Db) (rs : list TxRecord) : Db * Z := fold_left replay_record rs (base, i64_MIN).

Lemma replayed_snoc base rs r : replayed base (rs ++ [r]) = replay_record (replayed base rs) r.
Proof. unfold replayed. by rewrite fold_left_app. Qed.

(** A value to recover onto: nothing recorded yet. *)
Record base_ok (base : Db) : Prop := {
  bo_ready : db_ready base;
  bo_basis : basis_t base = 0;
}.

(** Each record is a sealed commit of the value its predecessors make. *)
Inductive commit_log (base : Db) : list TxRecord -> Prop :=
| commit_log_nil : commit_log base []
| commit_log_snoc rs r : commit_log base rs -> basis_t (replayed base rs).1 + 1 < 2 ^ 42 ->
    sealed_commit (replayed base rs).1 (replayed base rs).2 (r_t r) (r_tx_instant r) (r_datoms r) ->
    commit_log base (rs ++ [r]).

Record replay_ok (base : Db) (rs : list TxRecord) : Prop := {
  ro_ready : db_ready (replayed base rs).1;
  ro_basis : basis_t (replayed base rs).1 = Z.of_nat (length rs);
  ro_last : i64 (replayed base rs).2;
}.

Lemma replay_sealed acc r : sealed_commit acc.1 acc.2 (r_t r) (r_tx_instant r) (r_datoms r) ->
  replay_record acc r = (with_transaction_at acc.1 (r_t r) (r_tx_instant r) (r_datoms r), r_tx_instant r).
Proof.
  destruct acc as [db last], r as [t i ds]. cbn [fst snd r_t r_tx_instant r_datoms]. intros [_ Ha Hi Hl _].
  unfold replay_record. cbn [r_t r_tx_instant r_datoms]. rewrite effective_sealed by done. f_equal.
  unfold later, i64, i64_MAX in *. lia.
Qed.

Lemma commit_log_ok base rs : base_ok base -> commit_log base rs -> replay_ok base rs.
Proof.
  intros [Hb Hb0]. induction 1 as [|rs r Hh [H1 H2 H3] Hroom Hs].
  { split; [done|done|by vm_compute]. }
  destruct (sealed_ready _ _ _ _ _ H1 Hroom Hs) as [Hr Ht].
  split; rewrite replayed_snoc, replay_sealed by done; cbn [fst snd].
  - done.
  - rewrite Ht. destruct Hs as [-> _ _ _ _]. rewrite H2, length_app. cbn [length]. lia.
  - apply Hs.
Qed.

Lemma commit_log_prefix base vis rs : commit_log base rs -> vis `prefix_of` rs -> commit_log base vis.
Proof.
  induction 1 as [|rs r Hh IH Hroom Hs]; intros Hp.
  { apply prefix_nil_inv in Hp as ->. constructor. }
  destruct Hp as [k E]. destruct k as [|x k _] using rev_ind.
  - rewrite app_nil_r in E. subst vis. by constructor.
  - rewrite app_assoc in E. apply app_inj_tail in E as [-> _]. apply IH. by exists k.
Qed.

(** ** Runs *)

Definition report_record (rp : TxReport) : TxRecord :=
  mk_tx_record (basis_t (rp_after rp)) (rp_tx_instant rp) (p_datoms (rp_tx rp)).

(** What a record takes in memory, and what the clock reads. *)
Definition record_fits (r : TxRecord) : Prop := Z.of_nat (length (encode_record r)) < 2 ^ 62.
Definition clock_fits (clock : option Z) : Prop := forall now, clock = Some now -> 0 <= now.

Definition request_fits (st : State) (items : list TxItem) (clock : option Z) : Prop :=
  commit_fits (st_db st) items (st_next_user st) /\ clock_fits clock /\
  forall p t i n, prepare_commit st items clock = Ok (p, t, i, n) -> record_fits (mk_tx_record t i (p_datoms p)).

(** A request of a group commit: transaction data, or datoms already resolved. *)
Inductive request :=
| Items (items : list TxItem) (now_ms : Z) (rules : option BranchRules)
| Resolved (datoms : list Datom) (now_ms : Z).

Definition prepare_request (c : BatchCursor) (q : request) : BatchCursor * result Fault Prepared :=
  match q with
  | Items items now rules => prepare_transaction c items now rules
  | Resolved datoms now => prepare_datoms c datoms now
  end.

(** The requests prepared in turn, the refused ones left out. *)
Fixpoint prepare_batch (c : BatchCursor) (qs : list request) : BatchCursor * list Prepared :=
  match qs with
  | [] => (c, [])
  | q :: qs =>
      let (c, res) := prepare_request c q in
      let (c', ps) := prepare_batch c qs in
      (c', match res with Ok p => p :: ps | Err _ => ps end)
  end.

Definition now_fits (now : Z) : Prop := - 2 ^ 63 <= now <= i64_MAX.

Definition fits_one (c : BatchCursor) (q : request) : Prop :=
  match q with
  | Items items now _ => commit_fits (bc_db c) items (bc_next_user c) /\ now_fits now
  | Resolved datoms now => basis_t (bc_db c) + 1 < 2 ^ 42 /\ tx_ok (basis_t (bc_db c) + 1) datoms /\ now_fits now
  end /\ forall p, (prepare_request c q).2 = Ok p -> record_fits (pr_record p).

Fixpoint batch_fits (c : BatchCursor) (qs : list request) : Prop :=
  match qs with
  | [] => True
  | q :: qs => fits_one c q /\ batch_fits (prepare_request c q).1 qs
  end.

(** The transactor's state, the log, the records applied so far, and the awaited
    transaction. *)
Notation sys := (State * L * list TxRecord * option AsyncPending)%type.

Definition acked {E} (res : result E TxReport) : list TxRecord :=
  match res with Ok rp => [report_record rp] | Err _ => [] end.

Inductive tstep (base : Db) : sys -> sys -> Prop :=
| ts_transact st log vis pend items clock st' log' res : request_fits st items clock ->
    transact st log items clock = (st', log', res) ->
    tstep base (st, log, vis, pend) (st', log', vis ++ acked res, pend)
| ts_begin st log vis pend items clock st' res : request_fits st items clock ->
    begin_async st items clock = (st', res) ->
    tstep base (st, log, vis, pend) (st', log, vis, match res with Ok p => Some p | Err _ => pend end)
| ts_finish st log vis p log' r st' res : append log (pending_record p) = (log', r) ->
    finish_async st p r = (st', res) ->
    tstep base (st, log, vis, Some p) (st', log', vis ++ acked res, None)
| ts_drop st log vis p : tstep base (st, log, vis, Some p) (abort_async st, log, vis, None)
| ts_drop_appended st log vis p log' r : append log (pending_record p) = (log', r) ->
    tstep base (st, log, vis, Some p) (abort_async st, log', vis, None)
| ts_batch st log vis qs c ps log' u : batch_fits (batch_cursor st) qs ->
    prepare_batch (batch_cursor st) qs = (c, ps) -> append_batch log (map pr_record ps) = (log', Ok u) ->
    tstep base (st, log, vis, None) ((install_batch st c ps).1, log', vis ++ map pr_record ps, None)
| ts_batch_failed st log vis qs c ps log' e : batch_fits (batch_cursor st) qs ->
    prepare_batch (batch_cursor st) qs = (c, ps) -> append_batch log (map pr_record ps) = (log', Err e) ->
    tstep base (st, log, vis, None) (st, log', vis, None)
| ts_floor st log vis pend floor : tstep base (st, log, vis, pend) (raise_allocation_floor st floor, log, vis, pend)
| ts_subscribe st log vis pend : tstep base (st, log, vis, pend) (subscribe st, log, vis, pend)
| ts_reopen st log vis pend log' : (forall rs, log_holds log rs -> log_holds log' rs) ->
    tstep base (st, log, vis, pend) (st, log', vis, pend)
| ts_restart st log vis pend log' rs : log_readable log -> replay log = (log', Ok rs) ->
    tstep base (st, log, vis, pend) (recover_from_records base rs, log', rs, None).

Definition started (base : Db) (log : L) : sys := (recover_from_records base [], log, [], None).

(** ** The invariant *)

Record applied (base : Db) (st : State) (vis : list TxRecord) : Prop := {
  ap_replayed : replayed base vis = (st_db st, st_last_instant st);
  ap_next_nonneg : 0 <= st_next_user st;
}.

Record awaiting (st : State) (p : AsyncPending) : Prop := {
  aw_room : basis_t (st_db st) + 1 < 2 ^ 42;
  aw_sealed : sealed_commit (st_db st) (st_last_instant st) (ap_t p) (ap_tx_instant p) (p_datoms (ap_prepared p));
  aw_wf : record_wf (pending_record p);
  aw_next : 0 <= ap_next_user p;
}.

Record sys_inv (base : Db) (s : sys) : Prop := {
  si_log : exists rs, log_holds s.1.1.2 rs /\ commit_log base rs /\ s.1.2 `prefix_of` rs;
  si_applied : applied base s.1.1.1 s.1.2;
  si_flag : st_async_pending s.1.1.1 = is_some s.2;
  si_pending : forall p, s.2 = Some p -> awaiting s.1.1.1 p;
}.

(** ** Preparing *)

Lemma clock_now clock now : clock_fits clock -> clock = Some now -> now_fits (Z.min now (2 ^ 63 - 1)).
Proof. intros H ->. specialize (H now eq_refl). unfold now_fits, i64_MAX. lia. Qed.

Lemma prepare_commit_sealed st items clock p t i n : db_ready (st_db st) -> i64 (st_last_instant st) -> 0 <= st_next_user st ->
  request_fits st items clock -> prepare_commit st items clock = Ok (p, t, i, n) ->
  sealed_commit (st_db st) (st_last_instant st) t i (p_datoms p) /\ basis_t (st_db st) + 1 < 2 ^ 42 /\
  record_wf (mk_tx_record t i (p_datoms p)) /\ 0 <= n.
Proof.
  intros Hr Hl Hn (Hf & Hclock & Hfit) H. pose proof (Hfit p t i n H) as Hsize. pose proof Hf as [_ Hroom _].
  unfold prepare_commit in H. apply bind_ok in H as (p0 & Hp & H). apply bind_ok in H as ([p1 n1] & Ha & H).
  apply bind_ok in H as (now & Hc & H). apply bind_ok in H as ([ds i'] & Hs & [= <- <- <- <-]).
  apply map_err_ok in Hp, Ha, Hs. destruct clock as [now'|]; [|done]. injection Hc as ->.
  destruct (clock_now _ now Hclock eq_refl) as [Hn1 Hn2].
  destruct (prepared_sealed _ _ _ _ _ _ _ _ _ _ Hr Hf Hn Hl Hn1 Hn2 Hp Ha Hs) as [Hseal Hle].
  cbn [p_datoms] in *. split_and!; [done|done|by eapply sealed_record_wf|lia].
Qed.

(** A cursor that stands after a run of records. *)
Record at_cursor (base : Db) (c : BatchCursor) (rs : list TxRecord) : Prop := {
  ac_history : commit_log base rs;
  ac_replayed : replayed base rs = (bc_db c, bc_last_instant c);
  ac_next : 0 <= bc_next_user c;
}.

Lemma at_cursor_snoc base c c' rs r : at_cursor base c rs -> basis_t (bc_db c) + 1 < 2 ^ 42 ->
  sealed_commit (bc_db c) (bc_last_instant c) (r_t r) (r_tx_instant r) (r_datoms r) ->
  bc_db c' = with_transaction_at (bc_db c) (r_t r) (r_tx_instant r) (r_datoms r) -> bc_last_instant c' = r_tx_instant r ->
  0 <= bc_next_user c' -> at_cursor base c' (rs ++ [r]).
Proof.
  intros [Hh Hr Hn] Hroom Hs Hdb Hl Hn'. split; [|rewrite replayed_snoc, Hr, replay_sealed by done; by rewrite Hdb, Hl|done].
  constructor; rewrite ?Hr; done.
Qed.

Lemma prepare_request_ok base c q c' res rs : base_ok base -> at_cursor base c rs -> fits_one c q ->
  prepare_request c q = (c', res) ->
  match res with
  | Ok p => record_wf (pr_record p) /\ at_cursor base c' (rs ++ [pr_record p])
  | Err _ => at_cursor base c' rs
  end.
Proof.
  intros Hb Hc [Hf Hsize] H. pose proof Hc as [Hh Hr Hn]. destruct (commit_log_ok base rs Hb Hh) as [Hrd _ Hl].
  rewrite Hr in Hrd, Hl. cbn [fst snd] in *. rewrite H in Hsize. cbn [snd] in Hsize.
  destruct q as [items now rules|datoms now]; cbn [prepare_request] in H.
  - destruct Hf as [Hf [Hn1 Hn2]]. pose proof Hf as [_ Hroom _]. unfold prepare_transaction in H.
    destruct (p0 ← prepare _ _ _ _; _) as [[p1 n1]|e] eqn:Hp; [|by injection H as <- <-].
    apply bind_ok in Hp as (p0 & Hp & Ha). apply bind_ok in Ha as (u & _ & Ha). cbn [bc_last_instant] in H.
    destruct (seal_tx_instant _ _ _ _) as [[ds i]|e] eqn:Hs.
    + destruct (prepared_sealed _ _ _ _ _ _ _ _ _ _ Hrd Hf Hn Hl Hn1 Hn2 Hp Ha Hs) as [Hseal Hle].
      injection H as <- <-. cbn [pr_record] in *. split; [eapply sealed_record_wf; [exact Hrd|exact Hroom|exact Hseal|exact (Hsize _ eq_refl)]|].
      apply (at_cursor_snoc base c); [exact Hc|exact Hroom|exact Hseal|reflexivity|reflexivity|cbn [bc_next_user]; lia].
    + injection H as <- <-. split; [done|done|]. cbn [bc_next_user].
      assert (Hin : input_ok (bc_db c) items (bc_next_user c)) by (destruct Hrd, Hf; split; [split|..]; assumption).
      destruct (prepare_sound (bc_db c) items (bc_next_user c) p0 Hin Hp) as (_ & _ & Hem & _).
      apply advance_spec in Ha as (Hle & _); [lia|exact Hn|apply Hem].
  - destruct Hf as (Hroom & Htx & Hn1 & Hn2). unfold prepare_datoms in H.
    destruct (seal_tx_instant _ _ _ _) as [[ds i]|e] eqn:Hs; [|by injection H as <- <-].
    assert (Hseal : sealed_commit (bc_db c) (bc_last_instant c) (basis_t (bc_db c) + 1) i ds).
    { destruct Hrd as [_ _ Hb0]. apply seal_spec in Hs as (H1 & H2 & H3 & H4); [|done|done|done|].
      - split; try done. destruct H4 as [->| ->]; [done|]. apply tx_ok_app; [done|]. apply tx_instant_ok; [lia|done].
      - destruct Htx as [Hw _ _]. eapply Forall_impl; [exact Hw|]. by intros d [? _]. }
    injection H as <- <-. cbn [pr_record] in *. split; [eapply sealed_record_wf; [exact Hrd|exact Hroom|exact Hseal|exact (Hsize _ eq_refl)]|].
    apply (at_cursor_snoc base c); [exact Hc|exact Hroom|exact Hseal|reflexivity|reflexivity|exact Hn].
Qed.

Lemma prepare_batch_ok base c qs c' ps rs : base_ok base -> at_cursor base c rs -> batch_fits c qs ->
  prepare_batch c qs = (c', ps) -> Forall record_wf (map pr_record ps) /\ at_cursor base c' (rs ++ map pr_record ps).
Proof.
  intros Hb. revert c c' ps rs. induction qs as [|q qs IH]; intros c c' ps rs Hc Hf; cbn [prepare_batch].
  { intros [= <- <-]. cbn [map]. rewrite app_nil_r. done. }
  destruct Hf as [H1 Hf]. destruct (prepare_request c q) as [c1 res] eqn:Hq. cbn [fst] in Hf.
  pose proof (prepare_request_ok base c q c1 res rs Hb Hc H1 Hq) as Hone.
  destruct (prepare_batch c1 qs) as [c2 ps2] eqn:Hqs. destruct res as [p|e]; intros [= <- <-].
  - destruct Hone as [Hw Hc1]. destruct (IH c1 c2 ps2 _ Hc1 Hf Hqs) as [Hws Hc2]. cbn [map]. rewrite <- app_assoc in Hc2.
    split; [by apply List.Forall_cons|done].
  - by apply (IH c1).
Qed.

(** ** Every step keeps the invariant *)

Lemma applied_ready base st vis : base_ok base -> commit_log base vis -> applied base st vis ->
  db_ready (st_db st) /\ basis_t (st_db st) = Z.of_nat (length vis) /\ i64 (st_last_instant st) /\ 0 <= st_next_user st.
Proof.
  intros Hb Hh [Hr Hn]. destruct (commit_log_ok base vis Hb Hh) as [H1 H2 H3]. rewrite Hr in H1, H2, H3. done.
Qed.

Lemma same_length_prefix {A} (l k : list A) : l `prefix_of` k -> length l = length k -> l = k.
Proof.
  intros [x ->] H. rewrite length_app in H. destruct x; [by rewrite app_nil_r|cbn [length] in H; lia].
Qed.

(** The log takes a commit of the applied records only when they are all it holds, also
    where it reports an error for it. *)
Lemma append_commit base st vis log rs log' res r : base_ok base -> commit_log base rs -> vis `prefix_of` rs ->
  applied base st vis -> log_holds log rs -> record_wf r -> basis_t (st_db st) + 1 < 2 ^ 42 ->
  sealed_commit (st_db st) (st_last_instant st) (r_t r) (r_tx_instant r) (r_datoms r) ->
  append log r = (log', res) ->
  match res with
  | Ok _ => vis = rs /\ log_holds log' (rs ++ [r]) /\ commit_log base (rs ++ [r])
  | Err _ => exists rs', log_holds log' rs' /\ commit_log base rs' /\ vis `prefix_of` rs'
  end.
Proof.
  intros Hb Hh Hp Ha Hlog Hw Hroom Hs Happ. pose proof (append_next log rs r Hlog Hw) as H. rewrite Happ in H.
  destruct (applied_ready base st vis Hb (commit_log_prefix _ _ _ Hh Hp) Ha) as (_ & Hbasis & _).
  assert (Hnext : log_holds log' (rs ++ [r]) -> vis = rs /\ commit_log base (rs ++ [r])).
  { intros H'. assert (vis = rs) as ->.
    { apply same_length_prefix; [done|]. apply log_numbered in H'. rewrite map_app, run_from_app, length_map in H'.
      destruct H' as [_ [Ht _]]. destruct Hs as [Hst _ _ _ _]. lia. }
    split; [done|]. destruct Ha as [Hr _]. constructor; rewrite ?Hr; done. }
  destruct res as [u|e].
  - destruct H as [_ H]. by destruct (Hnext H).
  - destruct H as [H|H]; [by exists rs|]. destruct (Hnext H) as [-> Hh']. exists (rs ++ [r]). split_and!; [done|done|by apply prefix_app_r].
Qed.

Lemma applied_commit base st st' vis r : applied base st vis ->
  sealed_commit (st_db st) (st_last_instant st) (r_t r) (r_tx_instant r) (r_datoms r) ->
  st_db st' = with_transaction_at (st_db st) (r_t r) (r_tx_instant r) (r_datoms r) ->
  st_last_instant st' = r_tx_instant r -> 0 <= st_next_user st' -> applied base st' (vis ++ [r]).
Proof.
  intros [Hr Hn] Hs Hdb Hl Hn'. split; [|done]. rewrite replayed_snoc, Hr, replay_sealed by done. by rewrite Hdb, Hl.
Qed.

Lemma recovered_applied base rs : base_ok base -> commit_log base rs -> applied base (recover_from_records base rs) rs.
Proof.
  intros Hb Hh. unfold recover_from_records. fold (replayed base rs). destruct (replayed base rs) as [db last] eqn:E.
  split; [done|]. cbn [fresh_state st_next_user]. unfold floor_past_grants, next_user_id.
  pose proof (fold_max_ge (map (fun d => sequence (d_e d) + 1) (List.filter (fun d => is_user (d_e d)) (recorded_datoms db))) FIRST_USER_ID)
    as [H _]. assert (0 <= FIRST_USER_ID) by (by vm_compute). lia.
Qed.

Lemma transact_inv base st log vis pend items clock st' log' res : base_ok base -> sys_inv base (st, log, vis, pend) ->
  request_fits st items clock -> transact st log items clock = (st', log', res) ->
  sys_inv base (st', log', vis ++ acked res, pend).
Proof.
  intros Hb Hinv Hf H. pose proof Hinv as [(rs & Hlog & Hh & Hp) Ha Hfl Hpend]. cbn [fst snd] in *. unfold transact in H.
  destruct (st_async_pending st) eqn:Eflag. { injection H as <- <- <-. cbn [acked]. by rewrite app_nil_r. }
  destruct pend as [p|]; [done|]. clear Hpend.
  destruct (prepare_commit st items clock) as [[[[p t] i] n]|e] eqn:Hc.
  2: { injection H as <- <- <-. cbn [acked]. by rewrite app_nil_r. }
  destruct (applied_ready base st vis Hb (commit_log_prefix _ _ _ Hh Hp) Ha) as (Hrd & _ & Hl & Hn).
  destruct (prepare_commit_sealed st items clock p t i n Hrd Hl Hn Hf Hc) as (Hs & Hroom & Hw & Hn').
  destruct (append log _) as [log1 r] eqn:Happ.
  pose proof (append_commit base st vis log rs log1 r (mk_tx_record t i (p_datoms p)) Hb Hh Hp Ha Hlog Hw Hroom Hs Happ) as Hres.
  destruct r as [u|e]; injection H as <- <- <-; cbn [acked].
  - destruct Hres as (-> & Hlog' & Hh'). unfold report_record. cbn [rp_after rp_tx_instant rp_tx].
    rewrite with_transaction_at_basis. split; cbn [fst snd]; [|eapply applied_commit; [exact Ha|exact Hs|done|done|done]|done|done].
    exists (rs ++ [mk_tx_record t i (p_datoms p)]). done.
  - rewrite app_nil_r. by split.
Qed.

Lemma begin_inv base st log vis pend items clock st' res : base_ok base -> sys_inv base (st, log, vis, pend) ->
  request_fits st items clock -> begin_async st items clock = (st', res) ->
  sys_inv base (st', log, vis, match res with Ok p => Some p | Err _ => pend end).
Proof.
  intros Hb Hinv Hf H. pose proof Hinv as [(rs & Hlog & Hh & Hp) Ha Hfl Hpend]. cbn [fst snd] in *. unfold begin_async in H.
  destruct (st_async_pending st) eqn:Eflag; [by injection H as <- <-|].
  destruct (prepare_commit st items clock) as [[[[p t] i] n]|e] eqn:Hc; [|by injection H as <- <-].
  destruct (applied_ready base st vis Hb (commit_log_prefix _ _ _ Hh Hp) Ha) as (Hrd & _ & Hl & Hn).
  destruct (prepare_commit_sealed st items clock p t i n Hrd Hl Hn Hf Hc) as (Hs & Hroom & Hw & Hn').
  injection H as <- <-. split; cbn [fst snd]; [by exists rs|destruct Ha; by split|done|]. intros p' [= <-]. by split.
Qed.

Lemma aborted_inv base st log log' vis p : sys_inv base (st, log, vis, Some p) ->
  (exists rs, log_holds log' rs /\ commit_log base rs /\ vis `prefix_of` rs) -> sys_inv base (abort_async st, log', vis, None).
Proof. intros [_ [Hr Hn] _ _] Hlog. split; [done|by split|done|done]. Qed.

Lemma awaited_append base st log vis p log' r : base_ok base -> sys_inv base (st, log, vis, Some p) ->
  append log (pending_record p) = (log', r) ->
  (exists rs, log_holds log' rs /\ commit_log base rs /\ vis `prefix_of` rs /\
     (is_ok r = true -> rs = vis ++ [pending_record p])).
Proof.
  intros Hb [(rs & Hlog & Hh & Hp) Ha _ Hpend] Happ. cbn [fst snd] in *. destruct (Hpend p eq_refl) as [Hroom Hs Hw _].
  pose proof (append_commit base st vis log rs log' r (pending_record p) Hb Hh Hp Ha Hlog Hw Hroom Hs Happ) as H.
  destruct r as [u|e]; [|destruct H as (rs' & H1 & H2 & H3); by exists rs']. destruct H as (-> & Hlog' & Hh'). exists (rs ++ [pending_record p]).
  split_and!; [done|done|by apply prefix_app_r|done].
Qed.

Lemma finish_inv base st log vis p log' r st' res : base_ok base -> sys_inv base (st, log, vis, Some p) ->
  append log (pending_record p) = (log', r) -> finish_async st p r = (st', res) ->
  sys_inv base (st', log', vis ++ acked res, None).
Proof.
  intros Hb Hinv Happ Hfin. destruct (awaited_append base st log vis p log' r Hb Hinv Happ) as (rs & Hlog & Hh & Hp & Hr).
  pose proof Hinv as [_ Ha _ Hpend]. cbn [fst snd] in *. destruct (Hpend p eq_refl) as [Hroom Hs Hw Hn].
  unfold finish_async in Hfin. destruct r as [u|e]; injection Hfin as <- <-; cbn [acked].
  - specialize (Hr eq_refl). subst rs. unfold report_record. cbn [rp_after rp_tx_instant rp_tx].
    rewrite with_transaction_at_basis. split; cbn [fst snd]; [|eapply applied_commit; [exact Ha|exact Hs|done|done|]|done|done].
    + exists (vis ++ [pending_record p]). done.
    + cbn [st_next_user]. destruct Ha. lia.
  - rewrite app_nil_r. eapply aborted_inv; [exact Hinv|]. by exists rs.
Qed.

Lemma commit_log_numbered base rs : base_ok base -> commit_log base rs -> run_from 1 (map r_t rs).
Proof.
  intros Hb. induction 1 as [|rs r Hh IH _ Hs]; [done|]. rewrite map_app, run_from_app, length_map. split; [done|].
  destruct (commit_log_ok base rs Hb Hh) as [_ Hbasis _]. destruct Hs as [Ht _ _ _ _]. cbn [map run_from]. split; [lia|done].
Qed.

Lemma batch_position base vis rs (new : list TxRecord) : base_ok base -> vis `prefix_of` rs -> commit_log base (vis ++ new) ->
  run_from 1 (map r_t (rs ++ new)) -> new <> [] -> vis = rs.
Proof.
  intros Hb Hp Hh Hrun Hne. apply same_length_prefix; [done|]. apply commit_log_numbered in Hh; [|done].
  rewrite map_app in Hh, Hrun. apply run_from_app in Hh as [_ Hh], Hrun as [_ Hrun]. rewrite length_map in Hh, Hrun.
  destruct new as [|r new]; [done|]. cbn [map run_from] in Hh, Hrun. lia.
Qed.

(** Instants only advance. *)
Lemma commit_log_last base rs new : commit_log base (rs ++ new) -> (replayed base rs).2 <= (replayed base (rs ++ new)).2.
Proof.
  induction new as [|r new IH] using rev_ind; intros Hh; [by rewrite app_nil_r|]. rewrite app_assoc in *.
  assert (Hp : commit_log base (rs ++ new)) by (eapply commit_log_prefix; [exact Hh|by apply prefix_app_r]).
  specialize (IH Hp). rewrite replayed_snoc. destruct (replayed base (rs ++ new)) as [db last]. cbn [replay_record snd] in *. lia.
Qed.

Lemma batch_inv base st log vis qs c ps log' r : base_ok base -> sys_inv base (st, log, vis, None) ->
  batch_fits (batch_cursor st) qs -> prepare_batch (batch_cursor st) qs = (c, ps) ->
  append_batch log (map pr_record ps) = (log', r) ->
  match r with
  | Ok _ => sys_inv base ((install_batch st c ps).1, log', vis ++ map pr_record ps, None)
  | Err _ => sys_inv base (st, log', vis, None)
  end.
Proof.
  intros Hb [(rs & Hlog & Hh & Hp) Ha Hfl Hpend] Hf Hq Happ. cbn [fst snd] in *.
  pose proof (commit_log_prefix _ _ _ Hh Hp) as Hv. pose proof Ha as [Hr Hn].
  destruct (applied_ready base st vis Hb Hv Ha) as (_ & Hbasis & _).
  assert (Hc : at_cursor base (batch_cursor st) vis) by (split; done).
  destruct (prepare_batch_ok base _ qs c ps vis Hb Hc Hf Hq) as [Hw [Hh' Hr' Hn']].
  pose proof (append_batch_next log rs (map pr_record ps) Hlog Hw) as H. rewrite Happ in H.
  destruct r as [u|e].
  - destruct H as [Hrun Hlog'].
    destruct (decide (map pr_record ps = [])) as [E|Hne].
    { rewrite E, app_nil_r in *. split; cbn [fst snd]; [by exists rs| |done|done].
      rewrite Hr in Hr'. injection Hr' as Hdb Hlast. split; cbn [install_batch fst st_db st_last_instant st_next_user]; [|lia].
      rewrite Hr, <- Hdb, <- Hlast. f_equal. lia. }
    assert (vis = rs) as ->.
    { eapply (batch_position base); [exact Hb|exact Hp|exact Hh'| |exact Hne]. apply log_numbered in Hlog'. exact Hlog'. }
    split; cbn [fst snd]; [by exists (rs ++ map pr_record ps)| |done|done].
    split; cbn [install_batch fst st_db st_last_instant st_next_user]; [|lia]. rewrite Hr'. f_equal.
    pose proof (commit_log_last base rs (map pr_record ps) Hh') as Hle. rewrite Hr, Hr' in Hle. cbn [snd] in Hle. lia.
  - destruct H as [n Hn0]. split; cbn [fst snd]; [|done|done|done]. exists (rs ++ take n (map pr_record ps)).
    split; [done|]. destruct (decide (take n (map pr_record ps) = [])) as [E|Hne]; [by rewrite E, app_nil_r in *|].
    assert (vis = rs) as ->.
    { apply log_numbered in Hn0. eapply (batch_position base); [exact Hb|exact Hp| |exact Hn0|exact Hne].
      eapply commit_log_prefix; [exact Hh'|]. apply prefix_app. by exists (drop n (map pr_record ps)); rewrite take_drop. }
    split; [|by apply prefix_app_r]. eapply commit_log_prefix; [exact Hh'|]. apply prefix_app.
    exists (drop n (map pr_record ps)). by rewrite take_drop.
Qed.

Lemma tstep_inv base s s' : base_ok base -> sys_inv base s -> tstep base s s' -> sys_inv base s'.
Proof.
  intros Hb Hinv Hstep. destruct Hstep as [st log vis pend items clock st' log' res Hf H|st log vis pend items clock st' res Hf H
    |st log vis p log' r st' res Happ Hfin|st log vis p|st log vis p log' r Happ|st log vis qs c ps log' u Hf Hq H
    |st log vis qs c ps log' e Hf Hq H|st log vis pend floor|st log vis pend|st log vis pend log' Hsame|st log vis pend log' rs Hread H].
  - by eapply transact_inv.
  - by eapply begin_inv.
  - by eapply finish_inv.
  - eapply aborted_inv; [exact Hinv|apply Hinv].
  - eapply aborted_inv; [exact Hinv|]. destruct (awaited_append base st log vis p log' r Hb Hinv Happ) as (rs & ? & ? & ? & _).
    by exists rs.
  - exact (batch_inv base st log vis qs c ps log' (Ok u) Hb Hinv Hf Hq H).
  - exact (batch_inv base st log vis qs c ps log' (Err e) Hb Hinv Hf Hq H).
  - destruct Hinv as [H1 [H2 H3] H4 H5]. split; [done| |done|]; cbn [fst snd] in *.
    + split; [done|]. cbn [raise_allocation_floor st_next_user]. lia.
    + intros p Hp. destruct (H5 p Hp). by split.
  - destruct Hinv as [H1 [H2 H3] H4 H5]. split; [done|by split|done|]; cbn [fst snd] in *. intros p Hp. destruct (H5 p Hp). by split.
  - destruct Hinv as [(rs & H1 & H2) H3 H4 H5]. split; [|done|done|done]. exists rs. split; [by apply Hsame|done].
  - destruct Hinv as [(rs0 & Hlog & Hh & Hp) _ _ _]. cbn [fst snd] in *.
    destruct (replay_all log rs0 Hlog Hread) as (log1 & E & Hlog1). rewrite H in E. injection E as <- <-.
    split; cbn [fst snd]; [by exists rs|by apply recovered_applied| |done].
    unfold recover_from_records. by destruct (fold_left _ _ _).
Qed.

Lemma reachable_sys base log0 s : base_ok base -> log_holds log0 [] -> rtc (tstep base) (started base log0) s -> sys_inv base s.
Proof.
  intros Hb Hlog. apply rtc_ind_r; [|intros s1 s2 _ Hstep Hinv; by eapply tstep_inv].
  split; cbn [fst snd started].
  - exists []. split_and!; [done|constructor|done].
  - apply recovered_applied; [done|constructor].
  - done.
  - done.
Qed.

Lemma history_instants base rs : commit_log base rs ->
  StronglySorted later (map effective_tx_instant rs) /\ Forall (fun r => effective_tx_instant r <= (replayed base rs).2) rs.
Proof.
  induction 1 as [|rs r Hh [IH1 IH2] _ Hs]; [split; constructor|]. rewrite replayed_snoc, replay_sealed by done. cbn [snd].
  destruct r as [t i ds]. cbn [r_t r_tx_instant r_datoms] in *. destruct Hs as [_ Ha _ Hl _].
  assert (He : effective_tx_instant (mk_tx_record t i ds) = i) by (by apply effective_sealed). split.
  - rewrite map_app. apply StronglySorted_app. split_and!; [|done|repeat constructor].
    intros x y Hx Hy. apply list_elem_of_In, in_map_iff in Hx as (r & <- & Hr). cbn [map] in Hy. rewrite He in Hy.
    apply list_elem_of_singleton in Hy as ->. rewrite List.Forall_forall in IH2. specialize (IH2 r Hr).
    unfold later, i64_MAX in *. lia.
  - apply Forall_app. split; [|apply List.Forall_cons; [by rewrite He|constructor]].
    eapply Forall_impl; [exact IH2|]. intros r Hr. unfold later, i64_MAX in *. lia.
Qed.

Lemma recovered_floor base rs : let st := recover_from_records base rs in
  (forall d, In d (recorded_datoms (st_db st)) -> is_user (d_e d) = true -> sequence (d_e d) < st_next_user st) /\
  grant_ceiling (st_db st) (partition_id Partition.User) <= st_next_user st.
Proof.
  unfold recover_from_records. destruct (fold_left _ _ _) as [db last]. cbn [fresh_state st_db st_next_user].
  unfold floor_past_grants, next_user_id. set (l := map _ _).
  destruct (fold_max_ge l FIRST_USER_ID) as [_ H]. split; [|lia]. intros d Hd Hu.
  enough (sequence (d_e d) + 1 <= fold_left Z.max l FIRST_USER_ID) by lia.
  apply H, in_map_iff. exists d. split; [done|]. by apply filter_In.
Qed.

(** C6. What a transactor shows is what its log will give back. However transactions, group
    commits, dropped and failed appends (which may have taken effect), reopened logs and
    restarts interleave, the value it has applied is
    the replay of a prefix of the log; the log's instants advance; and recovery replays all
    of the log, to the same value when nothing was left in doubt, with allocation past every
    recorded entity and every leased block. *)
Theorem recovery_replays base log0 st log vis pend : base_ok base -> log_holds log0 [] ->
  rtc (tstep base) (started base log0) (st, log, vis, pend) ->
  exists rs, log_holds log rs /\ vis `prefix_of` rs /\ replayed base vis = (st_db st, st_last_instant st) /\
  StronglySorted later (map effective_tx_instant rs) /\
  (log_readable log -> exists log' st', recover_from base log = (log', Ok st') /\ log_holds log' rs /\
     replayed base rs = (st_db st', st_last_instant st') /\
     (vis = rs -> st_db st' = st_db st /\ st_last_instant st' = st_last_instant st) /\
     (forall d, In d (recorded_datoms (st_db st')) -> is_user (d_e d) = true -> sequence (d_e d) < st_next_user st') /\
     grant_ceiling (st_db st') (partition_id Partition.User) <= st_next_user st').
Proof.
  intros Hb Hlog Hr. destruct (reachable_sys base log0 _ Hb Hlog Hr) as [(rs & Hl & Hh & Hp) [Ha _] _ _]. cbn [fst snd] in *.
  exists rs. split_and!; [done|done|done|by eapply history_instants|]. intros Hread.
  destruct (replay_all log rs Hl Hread) as (log' & E & Hl'). exists log', (recover_from_records base rs).
  destruct (recovered_applied base rs Hb Hh) as [Hrec _]. destruct (recovered_floor base rs) as [H1 H2].
  unfold recover_from. rewrite E. cbn [map_err mbind result_bind]. split_and!; try done.
  intros ->. rewrite Hrec in Ha. by injection Ha as -> ->.
Qed.

(** ** Group commit *)

Fixpoint transact_all (st : State) (log : L) (reqs : list (list TxItem * Z)) : State * L * list TxReport :=
  match reqs with
  | [] => (st, log, [])
  | (items, now) :: reqs =>
      let '(st, log, res) := transact st log items (Some now) in
      let '(st, log, reports) := transact_all st log reqs in
      (st, log, match res with Ok rp => rp :: reports | Err _ => reports end)
  end.

Definition requests (reqs : list (list TxItem * Z)) : list request := map (fun q => Items q.1 q.2 None) reqs.

(** No request was refused only for its instant. *)
Fixpoint clean_refusals (c : BatchCursor) (qs : list request) : Prop :=
  match qs with
  | [] => True
  | q :: qs =>
      let (c', res) := prepare_request c q in
      (is_ok res = false -> c' = c) /\ clean_refusals c' qs
  end.

Lemma prepare_commit_cursor st items now : 0 <= now <= i64_MAX ->
  let q := prepare_request (batch_cursor st) (Items items now None) in
  match prepare_commit st items (Some now) with
  | Ok (p, t, i, n) =>
      let after := with_transaction_at (st_db st) t i (p_datoms p) in
      q = (mk_cursor after n i, Ok (mk_prepared_tx (mk_tx_record t i (p_datoms p)) (st_db st) after p i))
  | Err _ => is_ok q.2 = false
  end.
Proof.
  intros Hnow. unfold prepare_commit. cbn [prepare_request]. unfold prepare_transaction. cbn [batch_cursor bc_db bc_next_user bc_last_instant].
  destruct (prepare (st_db st) items _ _) as [p|f]; cbn [mbind result_bind map_err]; [|done].
  destruct (advance_allocation _ _ _ _) as [[p1 n]|f]; cbn [map_err mbind result_bind]; [|done].
  cbn [ok_or mbind result_bind]. replace (Z.min now (2 ^ 63 - 1)) with now by (unfold i64_MAX in Hnow; lia).
  destruct (seal_tx_instant _ _ _ _) as [[ds i]|f]; cbn [map_err mbind result_bind]; done.
Qed.

Lemma request_next_le base c q rs : base_ok base -> at_cursor base c rs -> fits_one c q ->
  bc_next_user c <= bc_next_user (prepare_request c q).1.
Proof.
  intros Hb [Hh Hr Hn] [Hf _]. destruct (commit_log_ok base rs Hb Hh) as [Hrd _ _]. rewrite Hr in Hrd. cbn [fst] in Hrd.
  destruct q as [items now rules|datoms now]; cbn [prepare_request].
  - destruct Hf as [Hf _]. unfold prepare_transaction. destruct (p0 ← prepare _ _ _ _; _) as [[p1 n1]|e] eqn:Hp; [|reflexivity].
    apply bind_ok in Hp as (p0 & Hp & Ha). apply bind_ok in Ha as (u & _ & Ha).
    assert (Hin : input_ok (bc_db c) items (bc_next_user c)) by (destruct Hrd, Hf; split; [split|..]; assumption).
    destruct (prepare_sound (bc_db c) items (bc_next_user c) p0 Hin Hp) as (_ & _ & Hem & _).
    apply advance_spec in Ha as (Hle & _); [|exact Hn|apply Hem]. by destruct (seal_tx_instant _ _ _ _) as [[ds i]|].
  - unfold prepare_datoms. destruct (seal_tx_instant _ _ _ _) as [[ds i]|]; reflexivity.
Qed.

Lemma batch_next_le base c qs rs : base_ok base -> at_cursor base c rs -> batch_fits c qs ->
  bc_next_user c <= bc_next_user (prepare_batch c qs).1.
Proof.
  intros Hb. revert c rs. induction qs as [|q qs IH]; intros c rs Hc Hf; [reflexivity|]. destruct Hf as [H1 Hf].
  pose proof (request_next_le base c q rs Hb Hc H1) as Hle. cbn [prepare_batch].
  destruct (prepare_request c q) as [c1 res] eqn:Hq. cbn [fst] in *.
  pose proof (prepare_request_ok base c q c1 res rs Hb Hc H1 Hq) as Hone.
  assert (Hc1 : exists rs', at_cursor base c1 rs') by (destruct res; [exists (rs ++ [pr_record a]); apply Hone|by exists rs]).
  destruct Hc1 as [rs' Hc1]. specialize (IH c1 rs' Hc1 Hf). destruct (prepare_batch c1 qs) as [c2 ps]. cbn [fst] in *. lia.
Qed.

(** Installing after a first transaction, and installing both. *)
Lemma install_cons st st1 c p ps : st_next_user st <= st_next_user st1 <= bc_next_user c ->
  st_last_instant st <= st_last_instant st1 <= bc_last_instant c ->
  st_subscribers st1 = send_report (report_of p) (st_subscribers st) -> st_async_pending st1 = st_async_pending st ->
  (install_batch st1 c ps).1 = (install_batch st c (p :: ps)).1.
Proof.
  intros Hn Hl Hs Hf. unfold install_batch. cbn [fst map fold_left]. rewrite Hs, Hf. f_equal; lia.
Qed.

Lemma at_cursor_last base c rs new c' : at_cursor base c rs -> at_cursor base c' (rs ++ new) -> bc_last_instant c <= bc_last_instant c'.
Proof.
  intros [_ Hr _] [Hh Hr' _]. pose proof (commit_log_last base rs new Hh) as H. by rewrite Hr, Hr' in H.
Qed.

(** Transacting one at a time is preparing through a cursor, appending one at a time and
    installing the cursor. *)
Lemma sequential_batch base vis st log log' reqs c ps : base_ok base -> commit_log base vis -> applied base st vis ->
  st_async_pending st = false -> Forall (fun q => 0 <= q.2 <= i64_MAX) reqs ->
  batch_fits (batch_cursor st) (requests reqs) -> clean_refusals (batch_cursor st) (requests reqs) ->
  prepare_batch (batch_cursor st) (requests reqs) = (c, ps) ->
  default_append_batch append log (map pr_record ps) = (log', Ok tt) ->
  transact_all st log reqs = ((install_batch st c ps).1, log', (install_batch st c ps).2).
Proof.
  intros Hb. revert vis st log c ps. induction reqs as [|[items now] reqs IH]; intros vis st log c ps Hh Ha Hfl Hnow Hf Hclean Hq Happ.
  { injection Hq as <- <-. injection Happ as <-. cbn. rewrite !Z.max_id. by destruct st. }
  apply Forall_cons in Hnow as [Hnow Hnows]. cbn [fst snd] in Hnow.
  assert (Hc : at_cursor base (batch_cursor st) vis) by (destruct Ha; by split).
  destruct Hf as [H1 Hf]. cbn [requests map fst snd] in *.
  pose proof (request_next_le base _ _ vis Hb Hc H1) as Hle1.
  pose proof (prepare_commit_cursor st items now Hnow) as Hcc. cbv zeta in Hcc. cbn [transact_all]. unfold transact. rewrite Hfl.
  cbn [prepare_batch clean_refusals] in Hq, Hclean.
  destruct (prepare_request (batch_cursor st) _) as [c1 res] eqn:Hq1.
  destruct (prepare_commit st items (Some now)) as [[[[p t] i] n]|e].
  - injection Hcc as -> ->. cbn [fst] in *. set (after := with_transaction_at _ _ _ _) in *.
    destruct (prepare_request_ok base _ _ _ _ vis Hb Hc H1 Hq1) as [_ Hc1]. cbn [pr_record] in Hc1.
    set (r := mk_tx_record t i (p_datoms p)) in *. set (p' := mk_prepared_tx r _ _ _ _) in *.
    destruct (prepare_batch (mk_cursor after n i) _) as [c2 ps2] eqn:Hq2. injection Hq as <- <-.
    destruct (prepare_batch_ok base _ _ _ _ _ Hb Hc1 Hf Hq2) as [_ Hc2].
    pose proof (batch_next_le base (mk_cursor after n i) (requests reqs) _ Hb Hc1 Hf) as Hle2. unfold requests in Hle2. rewrite Hq2 in Hle2. cbn [fst bc_next_user] in Hle2.
    pose proof (at_cursor_last _ _ _ _ _ Hc Hc1) as Hl1. pose proof (at_cursor_last _ _ _ _ _ Hc1 Hc2) as Hl2.
    cbn [map default_append_batch pr_record p'] in Happ. destruct (append log r) as [log1 [u|e]]; [|done].
    set (st1 := mk_state after n i _ _). rewrite (IH (vis ++ [r]) st1 log1 c2 ps2); try done; [|apply Hc1|by destruct Hc1; split|by destruct Hclean].
    f_equal. f_equal. apply install_cons; [done|done|done|done].
  - destruct res as [x|f]; [done|]. destruct Hclean as [Hsame Hclean]. specialize (Hsame eq_refl). subst c1. cbn [fst] in Hf.
    destruct (prepare_batch (batch_cursor st) _) as [c2 ps2] eqn:Hq2. injection Hq as <- <-.
    by rewrite (IH vis st log c2 ps2).
Qed.
(** C14. A group commit is the transactions it holds, one at a time. When the batch prepared
    through a cursor is acknowledged by the log's own batch append, and the same records are
    acknowledged appended one at a time, transacting each request in turn leaves the state
    and the reports that installing the cursor leaves, and the two logs hold the same
    records, which are those of the accepted requests after the ones applied before. Refused
    requests are part of the group; none may be refused for its instant alone, after its ids
    were allocated, as the cursor keeps that allocation. *)
Theorem batch_sequential base vis st log log1 log2 reqs c ps : base_ok base -> commit_log base vis -> applied base st vis ->
  log_holds log vis -> st_async_pending st = false -> Forall (fun q => 0 <= q.2 <= i64_MAX) reqs ->
  batch_fits (batch_cursor st) (requests reqs) -> clean_refusals (batch_cursor st) (requests reqs) ->
  prepare_batch (batch_cursor st) (requests reqs) = (c, ps) ->
  append_batch log (map pr_record ps) = (log1, Ok tt) ->
  default_append_batch append log (map pr_record ps) = (log2, Ok tt) ->
  transact_all st log reqs = ((install_batch st c ps).1, log2, (install_batch st c ps).2) /\
  log_holds log1 (vis ++ map pr_record ps) /\ log_holds log2 (vis ++ map pr_record ps).
Proof.
  intros Hb Hh Ha Hlog Hfl Hnow Hf Hclean Hq H1 H2. assert (Hc : at_cursor base (batch_cursor st) vis) by (destruct Ha; by split).
  destruct (prepare_batch_ok base _ _ c ps vis Hb Hc Hf Hq) as [Hw _]. split; [by eapply sequential_batch|]. split.
  - pose proof (append_batch_next log vis (map pr_record ps) Hlog Hw) as H. rewrite H1 in H. apply H.
  - pose proof (default_batch_next append log_holds append_next log vis (map pr_record ps) Hlog Hw) as H. rewrite H2 in H. apply H.
Qed.
End system.

(** ** Samples *)

#[local] Existing Instance list_rpds.
#[local] Existing Instance list_rpds_laws.
#[local] Existing Instance castagnoli.

Definition fresh0 : State := recover_from_records people0 [].
Definition run0 : State * list TxRecord * result TransactError TxReport := transact fresh0 [] items0 (Some 5000).
Definition live0 : State := run0.1.1.
Definition log0 : list TxRecord := run0.1.2.

Lemma people0_base : base_ok people0.
Proof. destruct people0_ready. split; [split|]; done. Qed.

Lemma items0_fit : request_fits fresh0 items0 (Some 5000).
Proof.
  split_and!.
  - split; [apply input0|by vm_compute..].
  - by intros now [= <-].
  - intros p t i n H. assert (prepare_commit fresh0 items0 (Some 5000) = Ok (p, t, i, n)) as E by exact H. vm_compute in E.
    injection E as <- <- <- <-. by vm_compute.
Qed.

Lemma live0_reached : rtc (tstep people0) (started people0 []) (live0, log0, acked run0.2, None).
Proof.
  apply rtc_once. change (acked run0.2) with ([] ++ acked run0.2). apply (ts_transact _ _ _ _ _ items0 (Some 5000)); [apply items0_fit|].
  unfold live0, log0. fold fresh0. fold run0. by destruct run0 as [[? ?] ?].
Qed.

Lemma recovery_replays_witness : exists rs, log_holds log0 rs /\ acked run0.2 `prefix_of` rs /\
  replayed people0 (acked run0.2) = (st_db live0, st_last_instant live0) /\
  exists log' st', recover_from people0 log0 = (log', Ok st') /\ st_db st' = (replayed people0 rs).1.
Proof.
  assert (H0 : log_holds (@nil TxRecord) []) by (split; done).
  destruct (recovery_replays people0 [] live0 log0 (acked run0.2) None people0_base H0 live0_reached)
    as (rs & H1 & H2 & H3 & _ & H5).
  exists rs. split; [exact H1|]. split; [exact H2|]. split; [exact H3|].
  destruct (H5 I) as (log' & st' & H6 & _ & H7 & _). exists log', st'. split; [exact H6|]. by rewrite H7.
Defined.

(** Two transactions as a group. *)
Definition reqs0 : list (list TxItem * Z) := [(items0, 5000); (items1, 6000)].
Definition cursor0 : BatchCursor * list Prepared := prepare_batch (batch_cursor fresh0) (requests reqs0).

Lemma reqs0_fit : batch_fits (batch_cursor fresh0) (requests reqs0).
Proof.
  split; [split; [split|]|split; [split; [split|]|done]].
  - apply items0_fit.
  - by vm_compute.
  - intros p H. vm_compute in H. injection H as <-. by vm_compute.
  - split; [apply input1|by vm_compute..].
  - by vm_compute.
  - intros p H. vm_compute in H. injection H as <-. by vm_compute.
Qed.

Lemma batch_sequential_witness :
  transact_all fresh0 [] reqs0 =
  ((install_batch fresh0 cursor0.1 cursor0.2).1, map pr_record cursor0.2, (install_batch fresh0 cursor0.1 cursor0.2).2) /\
  length cursor0.2 = 2%nat.
Proof.
  split; [|by vm_compute].
  apply (batch_sequential people0 [] fresh0 [] (map pr_record cursor0.2) (map pr_record cursor0.2) reqs0 cursor0.1 cursor0.2 people0_base).
  - constructor.
  - apply recovered_applied; [apply people0_base|constructor].
  - split; done.
  - by vm_compute.
  - repeat (apply List.Forall_cons; [by vm_compute|]). apply List.Forall_nil.
  - apply reqs0_fit.
  - by vm_compute.
  - unfold cursor0. apply surjective_pairing.
  - by vm_compute.
  - by vm_compute.
Defined.

(** ** An instant refused after allocation

    [prepare] of a cursor documents that an error leaves the cursor unchanged; the refusal of
    an instant comes after the cursor took the allocation of the refused transaction. *)

Definition items_late : list TxItem :=
  [ TxItem.Op (TxOp.Add (EntityRef.Temp "z") AGE (Value.Long 9));
    TxItem.Op (TxOp.Add (EntityRef.Temp "datomic.tx") TX_INSTANT (Value.Instant 4000)) ].

Lemma refused_instant_spends_ids :
  let c := batch_cursor live0 in
  let (c', res) := cursor_prepare c items_late 6000 in
  res = fails (TxError.TxInstantNotMonotonic 4000 5000) /\ bc_next_user c' = bc_next_user c + 1.
Proof. by vm_compute. Qed.

(** ** Ids named in transaction data

    Allocation advances past the ids it gave to tempids, not past ids the data names, so a
    later tempid resolves to an entity that already has facts. *)

Definition items_named : list TxItem := [ TxItem.Op (TxOp.Add (EntityRef.Id (user 1000)) AGE (Value.Long 5)) ].
Definition items_temp : list TxItem := [ TxItem.Op (TxOp.Add (EntityRef.Temp "n") AGE (Value.Long 7)) ].

Lemma named_id_revisited :
  let '(st, log, _) := transact fresh0 (@nil TxRecord) items_named (Some 5000) in
  let '(st', _, res) := transact st log items_temp (Some 6000) in
  (rp ← match res with Ok rp => Some rp | Err _ => None end; om_get "n"%string (p_tempids (rp_tx rp))) = Some (user 1000) /\
  values (st_db st) (user 1000) AGE = [Value.Long 5] /\ values (st_db st') (user 1000) AGE = [Value.Long 7].
Proof. by vm_compute. Qed.
