(* ===== verification/Publish.v ===== *)
(** * Publishing covering indexes (corium-transactor/src/lib.rs)

    A pass plans the four current and four history segments, uploads the leaves it rebuilt,
    and installs a root record under the fencing rules. An array with one slot per covering
    index is a function of the index order. Leaves carry the identity of their allocation,
    so planning threads the next unused one. *)

From stdpp Require Import base list strings sorting.
From Stdlib Require Import ZArith Lia.
From S2P Require Import Prelude OrdMap Machine Ids Keyword Values Encoding Datoms Segment Schema.
From S2P Require Import Bootstrap SchemaDatoms Db Tx Crypt LogRecord Stores Snapshot Transactor.
Local Open Scope Z_scope.

(** A value per slot. *)
Notation "'slots' A" := (IndexOrder -> A) (at level 10, only parsing).

Definition root_slots (f : IndexOrder -> BlobId) : IndexRoots := mk_roots (f Eavt) (f Aevt) (f Avet) (f Vaet).

Record PublishedIndexes := mk_published {
  pi_lease_version : Z;
  pi_basis_t : Z;
  pi_current_segments : slots Segment;
  pi_history_segments : option (slots Segment);
  pi_current_manifests : IndexRoots;
  pi_history_manifests : option IndexRoots;
  pi_current_chunks : slots (list (Z * BlobId));
  pi_history_chunks : option (slots (list (Z * BlobId))) }.

Definition is_current (p : PublishedIndexes) (root : option DbRoot) (lease : Z) : bool :=
  is_some_and root (fun root =>
    (pi_lease_version p =? lease) && (lease_version root =? lease) && (index_basis_t root =? pi_basis_t p) &&
    bool_decide (roots root = Some (pi_current_manifests p)) &&
    bool_decide (history_roots root = pi_history_manifests p)).

(** The last publication, when a pass may fold into it. *)
Definition usable (previous : option PublishedIndexes) (stored : option DbRoot) (lease basis : Z) : option PublishedIndexes :=
  p ← previous; if is_current p stored lease && (pi_basis_t p <=? basis) then Some p else None.

Module ChunkPlan.
Inductive ChunkPlan := Published (id : BlobId) | Rebuilt (chunk : bytes).
End ChunkPlan.
Notation ChunkPlan := ChunkPlan.ChunkPlan.

Definition plan_chunk (stored : option (list (Z * BlobId))) (leaf : Leaf) : ChunkPlan :=
  match stored ≫= om_get (leaf_id leaf) with
  | Some id => ChunkPlan.Published id
  | None => ChunkPlan.Rebuilt (encode_segment_chunk (leaf_keys leaf))
  end.

Section plans.
Context {R : Rpds}.

Definition plan_segment (snapshot : Db) (previous : option PublishedIndexes) (order : IndexOrder) (alloc : Z) : Segment * Z :=
  match previous with
  | Some p =>
      apply_borrowed (pi_current_segments p order) order
        (List.filter (covered (db_schema snapshot) order) (recorded_since snapshot (pi_basis_t p))) alloc
  | None => from_sorted order (datoms_at snapshot order) alloc
  end.

(** The segment planned for each order in turn. *)
Fixpoint plan_orders (plan : IndexOrder -> Z -> Segment * Z) (orders : list IndexOrder) (segments : slots Segment) (alloc : Z)
    : (slots Segment) * Z :=
  match orders with
  | [] => (segments, alloc)
  | o :: orders =>
      let (s, alloc) := plan o alloc in
      plan_orders plan orders (fun o' => if decide (o' = o) then s else segments o') alloc
  end.

Definition plan_chunks (segments : slots Segment) (stored : option (slots (list (Z * BlobId)))) : slots (list ChunkPlan) :=
  fun o => map (plan_chunk ((fun f => f o) <$> stored)) (leaves (segments o)).

Definition plan_indexes (snapshot : Db) (previous : option PublishedIndexes) (alloc : Z)
    : (slots Segment) * (slots (list ChunkPlan)) * Z :=
  let (segments, alloc) := plan_orders (plan_segment snapshot previous) ORDERS (fun _ => segment_default) alloc in
  (segments, plan_chunks segments (pi_current_chunks <$> previous), alloc).

Definition history_tail (snapshot : Db) (basis : Z) (order : IndexOrder) : list Datom :=
  List.filter (fun d =>
    negb (is_some_and (schema_get (db_schema snapshot) (d_a d)) no_history) && covered (db_schema snapshot) order d)
    (recorded_since snapshot basis).

(** A previous publication without history segments is not passed here. *)
Definition plan_history_segment (snapshot : Db) (previous : option (PublishedIndexes * slots Segment)) (order : IndexOrder) (alloc : Z)
    : Segment * Z :=
  match previous with
  | Some (p, segments) => insert_history_ref (segments order) order (history_tail snapshot (pi_basis_t p) order) alloc
  | None => from_sorted order (datoms_at (history snapshot) order) alloc
  end.

Definition with_history (previous : option PublishedIndexes) : option (PublishedIndexes * slots Segment) :=
  p ← previous; segments ← pi_history_segments p; Some (p, segments).

Definition plan_history_indexes (snapshot : Db) (previous : option PublishedIndexes) (alloc : Z)
    : (slots Segment) * (slots (list ChunkPlan)) * Z :=
  let previous := with_history previous in
  let (segments, alloc) := plan_orders (plan_history_segment snapshot previous) ORDERS (fun _ => segment_default) alloc in
  (segments, plan_chunks segments (previous ≫= fun p => pi_history_chunks p.1), alloc).
End plans.

(** ** Uploading *)

Section upload.
Context {S : Type} `{BS : BlobStore S}.

Fixpoint upload_chunks (s : S) (chunks : list ChunkPlan) (children : list BlobId) : S * result StoreError (list BlobId) :=
  match chunks with
  | [] => (s, Ok children)
  | ChunkPlan.Published id :: chunks => upload_chunks s chunks (children ++ [id])
  | ChunkPlan.Rebuilt l :: chunks =>
      match put_if_absent s l with
      | (s, Err e) => (s, Err e)
      | (s, Ok id) => upload_chunks s chunks (children ++ [id])
      end
  end.

Fixpoint upload_orders (s : S) (planned : slots (list ChunkPlan)) (orders : list IndexOrder)
    (manifests : slots BlobId) (chunk_ids : slots (list BlobId))
    : S * result StoreError ((slots BlobId) * (slots (list BlobId))) :=
  match orders with
  | [] => (s, Ok (manifests, chunk_ids))
  | o :: orders =>
      match upload_chunks s (planned o) [] with
      | (s, Err e) => (s, Err e)
      | (s, Ok children) =>
          match put_if_absent s (encode_index_manifest children) with
          | (s, Err e) => (s, Err e)
          | (s, Ok id) =>
              upload_orders s planned orders (fun o' => if decide (o' = o) then id else manifests o')
                (fun o' => if decide (o' = o) then children else chunk_ids o')
          end
      end
  end.

Definition upload_planned_indexes (s : S) (planned : slots (list ChunkPlan))
    : S * result StoreError (IndexRoots * slots (list BlobId)) :=
  let (s, res) := upload_orders s planned ORDERS (fun _ => EmptyString) (fun _ => []) in
  (s, '(manifests, chunk_ids) ← res; Ok (root_slots manifests, chunk_ids)).
End upload.

Definition chunk_ids_by_leaf (segments : slots Segment) (chunk_ids : slots (list BlobId)) : slots (list (Z * BlobId)) :=
  fun o => om_of_list (combine (map leaf_id (leaves (segments o))) (chunk_ids o)).

(** ** Installing the root *)

Module RootPublication.
Inductive RootPublication := Installed | Superseded | Raced.
End RootPublication.
Notation RootPublication := RootPublication.RootPublication.

Record RootIndexState := mk_index_state {
  ri_basis : Z;
  ri_roots : option IndexRoots;
  ri_history : option IndexRoots }.

#[export] Instance root_index_state_eq_dec : EqDecision RootIndexState.
Proof. solve_decision. Defined.

Definition index_state_of (root : option DbRoot) : RootIndexState :=
  mk_index_state (match root with Some r => index_basis_t r | None => 0 end)
    (root ≫= roots) (root ≫= history_roots).

(** What a round does with the record it read: give up with a result, or install this. *)
Definition publish_decision (stored : option DbRoot) (root : DbRoot) (pinned : option RootIndexState)
    : result TransactError RootPublication + DbRoot :=
  if is_some_and pinned (fun p => negb (bool_decide (index_state_of stored = p))) then inl (Ok RootPublication.Raced)
  else
    match stored with
    | None => inr root
    | Some st =>
        if lease_version root <? lease_version st then inl (Err (TransactError.Deposed (lease_version st)))
        else
          let same := lease_version st =? lease_version root in
          if same && ((index_basis_t root <? index_basis_t st) ||
               ((index_basis_t st =? index_basis_t root) && bool_decide (roots st = roots root) &&
                bool_decide (history_roots st = history_roots root)))
          then inl (Ok RootPublication.Superseded)
          else
            inr (mk_root (format_version root) (lease_version root)
              (if same then owner st else owner root)
              (if same then lease_expires_unix_ms st else lease_expires_unix_ms root)
              (if same then owner_endpoint st else owner_endpoint root)
              (index_basis_t root) (roots root) (history_roots root)
              (next_entity_id root) (last_tx_instant root) (key_manifest_version st))
    end.

Section install.
Context {S : Type} `{RS : RootStore S}.

(** What other processes do between a round's read and its swap, one act per round; [None]
    when the acts run out with every swap lost. *)
Fixpoint publish_root_pinned (acts : list (S -> S)) (s : S) (root_name : string) (root : DbRoot) (pinned : option RootIndexState)
    : option (S * result TransactError RootPublication) :=
  match acts with
  | [] => None
  | act :: acts =>
      match get_root s root_name with
      | Err e => Some (s, Err (TransactError.Store e))
      | Ok previous =>
          match publish_decision (previous ≫= root_decode) root pinned with
          | inl res => Some (s, res)
          | inr next =>
              match cas_root (act s) root_name previous (root_encode next) with
              | (s, Ok _) => Some (s, Ok RootPublication.Installed)
              | (s, Err (StoreError.CasFailed _ _)) => publish_root_pinned acts s root_name root pinned
              | (s, Err e) => Some (s, Err (TransactError.Store e))
              end
          end
      end
  end.

Definition publish_root (acts : list (S -> S)) (s : S) (root_name : string) (root : DbRoot)
    : option (S * result TransactError RootPublication) := publish_root_pinned acts s root_name root None.
End install.

(** ** A pass *)

Module PassOutcome.
Inductive PassOutcome := Published (root : DbRoot) | Raced.
End PassOutcome.
Notation PassOutcome := PassOutcome.PassOutcome.

Section pass.
Context {R : Rpds} {S : Type} `{BS : BlobStore S} `{RS : RootStore S}.

(** What a pass leaves: the store, the allocations, the publication it keeps. *)
Record PassState := mk_pass { ps_store : S; ps_alloc : Z; ps_published : option PublishedIndexes }.

Definition publish_pass (acts : list (S -> S)) (st : State) (s : S) (alloc : Z) (root_name : string) (lease : Z)
    (previous : option PublishedIndexes) : option (PassState * result TransactError PassOutcome) :=
  match get_root s root_name with
  | Err e => Some (mk_pass s alloc None, Err (TransactError.Store e))
  | Ok b =>
      let stored := b ≫= root_decode in
      if is_some_and stored (fun r => lease <? lease_version r)
      then Some (mk_pass s alloc None, Err (TransactError.Deposed (unwrap_or (lease_version <$> stored) 0)))
      else
        let '(snapshot, next_entity, last_tx_instant) := recovery_snapshot st in
        let basis := basis_t snapshot in
        let previous := usable previous stored lease basis in
        let pinned := (fun _ => index_state_of stored) <$> previous in
        let '(segments, planned, alloc) := plan_indexes snapshot previous alloc in
        let hist := if complete_history snapshot then Some (plan_history_indexes snapshot previous alloc) else None in
        let alloc := match hist with Some (_, _, alloc) => alloc | None => alloc end in
        match upload_planned_indexes s planned with
        | (s, Err e) => Some (mk_pass s alloc None, Err (TransactError.Store e))
        | (s, Ok (manifests, chunk_ids)) =>
            match match hist with
                  | Some (_, planned, _) => let (s, res) := upload_planned_indexes s planned in (s, Some <$> res)
                  | None => (s, Ok None)
                  end with
            | (s, Err e) => Some (mk_pass s alloc None, Err (TransactError.Store e))
            | (s, Ok uploaded) =>
                let root := mk_root FORMAT_VERSION lease EmptyString 0 EmptyString basis (Some manifests) (fst <$> uploaded)
                  next_entity last_tx_instant 0 in
                match publish_root_pinned acts s root_name root pinned with
                | None => None
                | Some (s, Err e) => Some (mk_pass s alloc None, Err e)
                | Some (s, Ok RootPublication.Raced) => Some (mk_pass s alloc None, Ok PassOutcome.Raced)
                | Some (s, Ok outcome) =>
                    let hsegments := (fun h => h.1.1) <$> hist in
                    let next := mk_published lease basis segments hsegments manifests (fst <$> uploaded)
                      (chunk_ids_by_leaf segments chunk_ids)
                      (hs ← hsegments; u ← uploaded; Some (chunk_ids_by_leaf hs (snd u))) in
                    let keep := match outcome with RootPublication.Installed => true | _ => is_current next stored lease end in
                    Some (mk_pass s alloc (if keep then Some next else None), Ok (PassOutcome.Published root))
                end
            end
        end
  end.

(** The second pass carries nothing over and is not raced. *)
Definition publish_indexes (acts acts' : list (S -> S)) (st : State) (p : PassState) (root_name : string) (lease : Z)
    : option (PassState * result TransactError DbRoot) :=
  match publish_pass acts st (ps_store p) (ps_alloc p) root_name lease (ps_published p) with
  | None => None
  | Some (p, Err e) => Some (p, Err e)
  | Some (p, Ok (PassOutcome.Published root)) => Some (p, Ok root)
  | Some (p, Ok PassOutcome.Raced) =>
      match publish_pass acts' st (ps_store p) (ps_alloc p) root_name lease None with
      | None => None
      | Some (p, Err e) => Some (p, Err e)
      | Some (p, Ok (PassOutcome.Published root)) => Some (p, Ok root)
      | Some (p, Ok PassOutcome.Raced) => Some (p, Err (TransactError.Tx Fault.Panics))
      end
  end.
End pass.
