(* ===== verification/PublishFence.v ===== *)
(** * Fencing of published roots

    Other processes act between a round's read of the root record and its swap. What is
    installed is installed over a record that allowed it, and a round is lost only to a
    change of the record. *)

From stdpp Require Import base list strings sorting.
From Stdlib Require Import ZArith Lia.
From S2P Require Import Prelude OrdMap Machine Ids Keyword Values Encoding Datoms Segment Schema.
From S2P Require Import Bootstrap SchemaDatoms Db Tx Crypt LogRecord Stores StoreFacts Snapshot Transactor Publish.
Local Open Scope Z_scope.

(** The record [next] may replace [old]: no newer lease is overwritten, within a lease the
    basis does not regress and the lease fields stay, and the key manifest's generation is
    carried over. *)
Definition fenced (old : option DbRoot) (next : DbRoot) : Prop :=
  match old with
  | None => True
  | Some o =>
      lease_version o <= lease_version next /\
      (lease_version o = lease_version next ->
       index_basis_t o <= index_basis_t next /\ owner next = owner o /\
       lease_expires_unix_ms next = lease_expires_unix_ms o /\ owner_endpoint next = owner_endpoint o) /\
      key_manifest_version next = key_manifest_version o
  end.

(** What a publication is about. *)
Definition publishes (root next : DbRoot) : Prop :=
  lease_version next = lease_version root /\ index_basis_t next = index_basis_t root /\
  roots next = roots root /\ history_roots next = history_roots root /\
  next_entity_id next = next_entity_id root /\ last_tx_instant next = last_tx_instant root.

Lemma decision_installs stored root pinned next : publish_decision stored root pinned = inr next ->
  (forall p, pinned = Some p -> index_state_of stored = p) /\ fenced stored next /\ publishes root next.
Proof.
  unfold publish_decision. intros H.
  assert (Hpin : is_some_and pinned (fun p => negb (bool_decide (index_state_of stored = p))) = false)
    by (by destruct (is_some_and _ _)).
  rewrite Hpin in H. split.
  { intros p ->. cbn [is_some_and] in Hpin. by apply negb_false_iff, bool_decide_eq_true in Hpin. }
  destruct stored as [st|]; [|injection H as <-; split; [done|by split_and!]].
  destruct (Z.ltb_spec (lease_version root) (lease_version st)); [done|].
  destruct (Z.eqb_spec (lease_version st) (lease_version root)) as [E|E]; cbn [andb] in H.
  - destruct (Z.ltb_spec (index_basis_t root) (index_basis_t st)); cbn [orb] in H; [done|].
    destruct (_ && _)%bool in H; [done|]. injection H as <-. split; [|by split_and!].
    split_and!; cbn; [lia|by intros _; split_and!|done].
  - injection H as <-. split; [|by split_and!]. split_and!; cbn; [lia|done|done].
Qed.

Section fencing.
Context {S : Type} `{RS : RootStore S} {RL : RootStoreLaws RS}.

Definition record_of (s : S) (name : string) : option bytes := om_get name (store_roots s).

(** C16. A publication that reports its root installed swapped it, in one step, for a record
    that allows it: whatever other processes did meanwhile, no newer lease is overwritten,
    the basis of a lease does not regress, renewed lease fields and the key manifest's
    generation survive, and a pinned publication replaces exactly the index state it
    pinned. *)
Theorem publication_fenced acts (s s' : S) name root pinned : nameable name ->
  publish_root_pinned acts s name root pinned = Some (s', Ok RootPublication.Installed) ->
  exists s1 next, let old := record_of s1 name ≫= root_decode in
  cas_root s1 name (record_of s1 name) (root_encode next) = (s', Ok tt) /\
  record_of s' name = Some (root_encode next) /\
  publishes root next /\ fenced old next /\ (forall p, pinned = Some p -> index_state_of old = p).
Proof.
  intros Hn. revert s. induction acts as [|act acts IH]; intros s; [done|]. cbn [publish_root_pinned].
  destruct (get_root s name) as [previous|e]; [|done].
  destruct (publish_decision (previous ≫= root_decode) root pinned) as [res|next] eqn:Hd.
  { intros [= -> ->]. exfalso. unfold publish_decision in Hd.
    destruct (is_some_and _ _); [done|]. destruct (previous ≫= root_decode) as [st|]; [|done].
    destruct (_ <? _); [done|]. by destruct (_ && _)%bool. }
  pose proof (cas_root_ok (act s) name previous (root_encode next) Hn) as Hcas.
  destruct (cas_root (act s) name previous (root_encode next)) as [s1 [u|e]] eqn:Hc.
  - intros [= <-]. destruct Hcas as [Hold Hinst]. fold (record_of (act s) name) in Hold. exists (act s), next. cbv zeta.
    apply decision_installs in Hd as (H1 & H2 & H3). rewrite Hold. destruct u. split_and!; try done.
    unfold record_of. rewrite Hinst by done. by rewrite bool_decide_true.
  - destruct e; try done. apply IH.
Qed.

(** C17. A publication ends: once no other process changes the record between a round's read
    and its swap, that round is the last. *)
Theorem publication_ends acts (s : S) name root pinned act : nameable name ->
  In act acts -> (forall s, record_of (act s) name = record_of s name) ->
  is_Some (publish_root_pinned acts s name root pinned).
Proof.
  intros Hn Hin Hact. revert s. induction acts as [|a acts IH]; intros s; [done|]. cbn [publish_root_pinned].
  destruct (get_root s name) as [previous|e] eqn:Hg; [|done].
  destruct (publish_decision _ root pinned) as [res|next]; [done|].
  pose proof (cas_root_ok (a s) name previous (root_encode next) Hn) as Hcas.
  destruct (cas_root (a s) name previous (root_encode next)) as [s1 [u|e]]; [done|].
  destruct e; try done. destruct Hin as [->|Hin]; [|by apply IH]. exfalso.
  destruct Hcas as (_ & -> & Hne & _). apply Hne. fold (record_of (act s) name). rewrite Hact.
  symmetry. exact (get_root_ok s name previous Hn Hg).
Qed.
End fencing.

(** ** Samples *)

(** A lease renewed while its owner publishes: the first swap is lost, the second keeps the
    renewal. *)
Definition sample_renewed : DbRoot :=
  mk_root FORMAT_VERSION 3 "node-a" 2500 EmptyString 12 (roots sample_root) None 4000 1400 0.
Definition sample_next : DbRoot :=
  mk_root FORMAT_VERSION 3 EmptyString 0 EmptyString 13 (roots sample_root) None 4001 1500 0.
Definition sample_records : MemoryStore := mk_memory [] [("db:a", root_encode sample_root)].
Definition sample_renewal (s : MemoryStore) : MemoryStore :=
  (cas_root s "db:a" (Some (root_encode sample_root)) (root_encode sample_renewed)).1.
Notation sample_publish acts :=
  (publish_root_pinned acts sample_records "db:a" sample_next (Some (index_state_of (Some sample_root)))).

Lemma publication_fenced_witness :
  exists (s' s1 : MemoryStore) next, sample_publish [sample_renewal; fun s => s] = Some (s', Ok RootPublication.Installed) /\
  record_of s' "db:a" = Some (root_encode next) /\ publishes sample_next next /\
  fenced (record_of s1 "db:a" ≫= root_decode) next /\
  index_state_of (record_of s1 "db:a" ≫= root_decode) = index_state_of (Some sample_root).
Proof.
  assert (H : exists s' : MemoryStore, sample_publish [sample_renewal; fun s => s] = Some (s', Ok RootPublication.Installed))
    by (eexists; vm_compute; reflexivity).
  destruct H as (s' & H).
  destruct (publication_fenced (RL := memory_roots_laws) _ sample_records s' "db:a" sample_next _ I H) as (s1 & next & _ & Hr & Hp & Hf & Hpin).
  exists s', s1, next. split_and!; [exact H|exact Hr|exact Hp|exact Hf|]. by apply Hpin.
Defined.

Lemma publication_ends_witness : is_Some (sample_publish [sample_renewal; fun s => s]).
Proof.
  apply (publication_ends (RL := memory_roots_laws) _ sample_records "db:a" sample_next _ (fun s => s)); [exact I|right; by left|done].
Defined.
