(* ===== verification/PublishFacts.v ===== *)
(** * What a publication pass plans and stores

    A planned segment lists exactly the keys of the database's own index, whether it was
    rebuilt or folded from the last publication; a leaf carried over keeps its identity,
    and the store reads the blob it was published under. *)

From stdpp Require Import base list strings sorting.
From Stdlib Require Import ZArith Lia.
From S2P Require Import Prelude OrdMap Machine Ids Keyword Values Encoding Datoms Segment Schema.
From S2P Require Import Bootstrap SchemaDatoms Db DbFacts DbReads DbTheorems Tx Crypt LogRecord.
From S2P Require Import Stores StoreFacts Snapshot Transactor Publish PublishFence.
Local Open Scope Z_scope.

(** ** Leaf identities *)

Lemma drain_history_pushes bound b ps b' ps' : drain_history bound b ps = (b', ps') -> exists ks, b' = push_all b ks.
Proof.
  revert b. induction ps as [|k ps IH]; intros b; cbn [drain_history].
  - intros [= <- <-]. by exists [].
  - destruct (cmp k bound); intros Hd; try (injection Hd as <- <-; by exists []).
    apply IH in Hd as [ks ->]. exists (k :: ks). done.
Qed.

Lemma rebuild_history_pushes keys b ps b' ps' : rebuild_history keys b ps = (b', ps') -> exists ks, b' = push_all b ks.
Proof.
  revert b ps. induction keys as [|key keys IH]; intros b ps; cbn [rebuild_history].
  { intros [= <- <-]. by exists []. }
  destruct (drain_history key b ps) as [b1 ps1] eqn:Hd. apply drain_history_pushes in Hd as [ks1 ->].
  intros [ks2 ->]%IH. exists (ks1 ++ key :: ks2). by rewrite push_all_app.
Qed.

Lemma history_leaves_carrying old alloc ls b ps b' ps' : carrying old alloc ls b ->
  history_leaves ls b ps = (b', ps') -> carrying old alloc [] b'.
Proof.
  revert b ps. induction ls as [|l ls IH]; intros b ps Hb; cbn [history_leaves].
  { by intros [= <- <-]. }
  destruct (head (leaf_keys l)); [|by apply IH, (carrying_drop _ _ l)].
  destruct (last (leaf_keys l)); [|by apply IH, (carrying_drop _ _ l)].
  destruct (drain_history _ b ps) as [b1 ps1] eqn:Hd. apply drain_history_pushes in Hd as [ks1 ->].
  cbn zeta. destruct (negb _ && _)%bool.
  - by apply IH, carrying_carry, carrying_push_all.
  - destruct (rebuild_history _ _ ps1) as [b2 ps2] eqn:Hr. apply rebuild_history_pushes in Hr as [ks2 ->].
    apply IH, carrying_push_all. apply (carrying_push_all _ _ _ _ ks1), carrying_drop in Hb.
    destruct (is_some_and _ _); [|done]. by destruct Hb.
Qed.

(** The leaves after are leaves from before, or were allocated meanwhile. *)
Definition carried (old new : Segment) (alloc alloc' : Z) : Prop :=
  alloc <= alloc' /\ ids_ok new alloc' /\ (forall l, In l (leaves new) -> In l (leaves old) \/ alloc <= leaf_id l).

Lemma carried_finish old alloc b : carrying (leaves old) alloc [] b -> carried old (finish b).1 alloc (finish b).2.
Proof.
  intros Hb. apply carrying_seal in Hb as [Hn Ha Ho _]. rewrite app_nil_r in Hn. rewrite List.Forall_forall in Ho.
  unfold finish. cbn [fst snd]. split_and!; [done|split; [done|]|].
  - apply List.Forall_forall. intros l Hl. by apply Ho.
  - intros l Hl. by apply Ho.
Qed.

Lemma ids_carrying s alloc : ids_ok s alloc -> carrying (leaves s) alloc (leaves s) (builder_default alloc).
Proof. intros [Hn Ho]. split; [done|done|constructor|]. rewrite List.Forall_forall in *. auto. Qed.

Lemma insert_history_carried s order ds alloc : ids_ok s alloc ->
  carried s (insert_history_ref s order ds alloc).1 alloc (insert_history_ref s order ds alloc).2.
Proof.
  intros Hs. unfold insert_history_ref. destruct (os_of_list _) as [|p ps].
  { split_and!; [done|done|by left]. }
  destruct (history_leaves _ _ _) as [b rest] eqn:Hb.
  apply carried_finish, carrying_push_all. eapply history_leaves_carrying; [|exact Hb]. by apply ids_carrying.
Qed.

Lemma apply_borrowed_carried s order ds alloc : ids_ok s alloc ->
  carried s (apply_borrowed s order ds alloc).1 alloc (apply_borrowed s order ds alloc).2.
Proof. intros Hs. eapply apply_borrowed_carrying; [exact Hs|apply surjective_pairing]. Qed.

Lemma from_sorted_keys order ds alloc : from_sorted order ds alloc = from_keys (map (fun d => datom_key d order) ds) alloc.
Proof.
  unfold from_sorted, from_keys, push_all. f_equal. generalize (builder_default alloc).
  induction ds as [|d ds IH]; intros b; [done|]. apply IH.
Qed.

Lemma from_sorted_carried order ds alloc :
  carried segment_default (from_sorted order ds alloc).1 alloc (from_sorted order ds alloc).2.
Proof.
  rewrite from_sorted_keys. apply carried_finish, carrying_push_all. split; [constructor|done|constructor|constructor].
Qed.

Lemma from_sorted_segment_keys order ds alloc :
  segment_keys (from_sorted order ds alloc).1 = map (fun d => datom_key d order) ds.
Proof. rewrite from_sorted_keys. unfold from_keys. by rewrite keys_finish, built_push_all. Qed.

Lemma ids_weaken s alloc alloc' : alloc <= alloc' -> ids_ok s alloc -> ids_ok s alloc'.
Proof. intros Hle [Hn Ho]. split; [done|]. eapply Forall_impl; [exact Ho|]. intros l Hl. cbn in *. lia. Qed.

(** ** The keys of an index *)

Section contents.
Context {R : Rpds} {HR : RpdsLaws R}.
Implicit Types db : Db.

Definition index_keys db (o : IndexOrder) : list bytes := map (fun d => datom_key d o) (datoms_at db o).

(** A map of facts to datoms, as the keys a segment holds. *)
Definition keyed (o : IndexOrder) (m : list (bytes * Datom)) : list (bytes * bytes) :=
  map (fun p => (p.1, datom_key p.2 o)) m.

Lemma keyed_insert o k d m : keyed o (om_insert k d m) = om_insert k (datom_key d o) (keyed o m).
Proof.
  unfold keyed. induction m as [|[k' d'] m IH]; [done|]. cbn [om_insert map fst snd].
  destruct (cmp k k'); cbn [map fst snd]; [done|done|]. by rewrite IH.
Qed.

Lemma keyed_remove o k m : keyed o (om_remove k m) = om_remove k (keyed o m).
Proof.
  unfold keyed. induction m as [|[k' d'] m IH]; [done|]. cbn [om_remove map fst snd].
  destruct (cmp k k'); cbn [map fst snd]; rewrite ?IH; done.
Qed.

Lemma fold_covered sch o ds m :
  fold_left (fold_fact o) (List.filter (covered sch o) ds) (keyed o m) = keyed o (fold_left (step_order sch o) ds m).
Proof.
  revert m. induction ds as [|d ds IH]; intros m; [done|]. cbn [List.filter fold_left].
  unfold step_order at 2. destruct (covered sch o d); [|apply IH]. cbn [fold_left]. rewrite <- IH. f_equal.
  unfold fold_fact. cbn zeta. rewrite key_components_full. destruct (d_added d); [by rewrite keyed_insert|by rewrite keyed_remove].
Qed.

Lemma current_by_fact db o : db_ok db -> view db = DbView.Current ->
  by_fact (index_keys db o) = keyed o (fold_order (db_schema db) o (recorded_datoms db)).
Proof.
  intros Hdb Hv. unfold index_keys, datoms_at. rewrite indexes_iter, Hv by done.
  rewrite rebuilt_current by apply Hdb. unfold placed, keyed. rewrite !map_map. apply map_ext_in. intros [k d] Hin.
  cbn [fst snd]. apply fold_order_keys in Hin as [-> _]. by rewrite key_components_full.
Qed.

Lemma keyed_wf o m : om_wf m -> om_wf (keyed o m).
Proof.
  unfold om_wf, keyed. induction m as [|p m IH]; cbn [map]; [constructor|]. inversion 1 as [|? ? Hs Hp]; subst.
  constructor; [by apply IH|]. apply List.Forall_map. exact Hp.
Qed.

(** The value [db] continues [db0]: transactions were added after its basis, and no
    attribute with recorded facts changed what covers it or whether its history is kept. *)
Record follows (db0 db : Db) : Prop := {
  fo_tail : exists tail, recorded_datoms db = recorded_datoms db0 ++ tail /\ Forall (fun d => after (basis_t db0) d = true) tail;
  fo_covered : forall o d, In d (recorded_datoms db0) -> covered (db_schema db) o d = covered (db_schema db0) o d;
  fo_history : forall d, In d (recorded_datoms db0) ->
    is_some_and (schema_get (db_schema db) (d_a d)) no_history = is_some_and (schema_get (db_schema db0) (d_a d)) no_history;
}.

Lemma follows_since db0 db : db_ok db0 -> follows db0 db ->
  recorded_datoms db = recorded_datoms db0 ++ recorded_since db (basis_t db0).
Proof.
  intros Hdb0 [(tail & E & Ht) _ _].
  assert (Hold : Forall (fun d => after (basis_t db0) d = false) (recorded_datoms db0)).
  { eapply Forall_impl; [exact (ok_basis _ Hdb0)|]. intros d Hd. cbn beta in *. unfold after. apply Z.ltb_ge. lia. }
  destruct (recorded_since_spec db (basis_t db0) (recorded_datoms db0) tail E Hold Ht) as [_ ->]. done.
Qed.

Lemma fold_order_same sch sch' o ds : (forall d, In d ds -> covered sch o d = covered sch' o d) ->
  fold_order sch o ds = fold_order sch' o ds.
Proof.
  unfold fold_order. generalize (@nil (bytes * Datom)). induction ds as [|d ds IH]; intros m H; [done|]. cbn [fold_left].
  rewrite IH by (intros; apply H; by right). unfold step_order at 2 4. by rewrite H by (by left).
Qed.

(** Folding the tail into the last published segment gives the current index. *)
Lemma folded_keys db0 db s o alloc : db_ok db0 -> view db0 = DbView.Current -> db_ok db -> view db = DbView.Current ->
  follows db0 db -> segment_keys s = index_keys db0 o ->
  segment_keys (apply_borrowed s o (List.filter (covered (db_schema db) o) (recorded_since db (basis_t db0))) alloc).1 = index_keys db o.
Proof.
  intros Hdb0 Hv0 Hdb Hv Hf Hs. pose proof (follows_since _ _ Hdb0 Hf) as Hrec.
  rewrite <- (placed_snd key_components (segment_keys _)), <- (placed_snd key_components (index_keys db o)). f_equal.
  assert (Hb : by_fact (segment_keys s) = keyed o (fold_order (db_schema db0) o (recorded_datoms db0)))
    by (rewrite Hs; by apply current_by_fact).
  rewrite apply_borrowed_fold, Hb, current_by_fact by (rewrite ?Hb; done || apply keyed_wf, fold_order_wf).
  rewrite fold_covered. f_equal. rewrite Hrec, fold_order_app. f_equal.
  apply fold_order_same. intros d Hd. symmetry. by apply (fo_covered _ _ Hf).
Qed.

Lemma history_keys_wf db o : db_ok db -> os_wf (index_keys (history db) o).
Proof.
  intros Hdb. assert (Hh : db_ok (history db)) by (by apply with_view_ok).
  pose proof (datoms_at_sorted (history db) o Hh) as Hs. unfold history in Hs at 1 2. rewrite with_view_view in Hs.
  unfold os_wf, index_keys. induction Hs as [|d ds Hs IH Hd]; cbn [map]; constructor; [done|].
  apply List.Forall_map. exact Hd.
Qed.

Lemma history_keys_In db o key : db_ok db -> In key (index_keys (history db) o) <->
  exists d, In d (recorded_datoms db) /\ key = datom_key d o /\ covered (db_schema db) o d = true /\
    is_some_and (schema_get (db_schema db) (d_a d)) no_history = false.
Proof.
  intros Hdb. assert (Hh : db_ok (history db)) by (by apply with_view_ok). unfold index_keys. rewrite in_map_iff.
  setoid_rewrite datoms_at_In; [|done..]. unfold history. rewrite with_view_view, with_view_recorded, with_view_schema. cbn [visible].
  naive_solver.
Qed.

Lemma folded_history_keys db0 db s o alloc : db_ok db0 -> db_ok db -> follows db0 db ->
  segment_keys s = index_keys (history db0) o ->
  segment_keys (insert_history_ref s o (history_tail db (basis_t db0) o) alloc).1 = index_keys (history db) o.
Proof.
  intros Hdb0 Hdb Hf Hs. pose proof (follows_since _ _ Hdb0 Hf) as Hrec.
  destruct (insert_history_union s o (history_tail db (basis_t db0) o) alloc) as [Hw Hin]; [rewrite Hs; by apply history_keys_wf|].
  apply os_ext; [done|by apply history_keys_wf|]. intros key. rewrite Hin, Hs, !history_keys_In, Hrec by done.
  unfold history_tail. setoid_rewrite filter_In. setoid_rewrite andb_true_iff. setoid_rewrite negb_true_iff. setoid_rewrite in_app_iff.
  split.
  - intros [(d & Hd & -> & Hc & Hn)|(d & (Hd & Hn & Hc) & ->)]; exists d; [|by auto].
    rewrite (fo_covered _ _ Hf), (fo_history _ _ Hf) by done. auto.
  - intros (d & [Hd|Hd] & -> & Hc & Hn); [left|right]; exists d; [|done].
    rewrite (fo_covered _ _ Hf) in Hc by done. rewrite (fo_history _ _ Hf) in Hn by done. done.
Qed.
End contents.

(** ** What a store of blobs promises a publication *)

(** What [s] reads, [s'] reads. *)
Definition keeps {S} `{BlobStore S} (s s' : S) : Prop := forall id l, reads_blob s id l -> reads_blob s' id l.

#[export] Instance keeps_preorder {S} `{BlobStore S} : PreOrder keeps.
Proof. split; [by intros s id l|]. intros s1 s2 s3 H1 H2 id l Hl. by apply H2, H1. Qed.

(** No two of these blobs have one name. *)
Definition distinct (name : bytes -> BlobId) (P : bytes -> Prop) : Prop :=
  forall a b, P a -> P b -> name a = name b -> a = b.

(** [stores name P s]: the store holds blobs of [P] only, each under its name. Putting one
    more of them gives its name and makes it readable, and neither that nor a swap of a root
    loses a blob. *)
Class IndexStoreLaws {S : Type} (B : BlobStore S) (RS : RootStore S) := {
  stores : (bytes -> BlobId) -> (bytes -> Prop) -> S -> Prop;
  put_stores name P s l s' res : distinct name P -> stores name P s -> P l -> put_if_absent s l = (s', res) ->
    stores name P s' /\ keeps s s' /\ forall id, res = Ok id -> id = name l /\ blob_id_ok id /\ reads_blob s' id l;
  swap_stores name P s root expected new : stores name P s ->
    stores name P (cas_root s root expected new).1 /\ keeps s (cas_root s root expected new).1;
}.

Section memory.
Context `{CL : CryptoLaws}.

#[export, refine] Instance memory_index_store : IndexStoreLaws memory_blobs memory_roots := {|
  stores name P s := (forall l, name l = digest l) /\ forall id l, om_get id (m_blobs s) = Some l -> P l /\ id = name l;
|}.
Proof.
  - intros name P s l s' res Hd [Hn Hs] Hl. cbn [put_if_absent memory_blobs]. unfold default_put_if_absent, default_contains, memory_get.
    cbn [mbind result_bind]. destruct (om_get (digest l) (m_blobs s)) as [l'|] eqn:E; cbn [is_some]; intros [= <- <-].
    + destruct (Hs _ _ E) as [Hl' En]. assert (l' = l) as -> by (apply Hd; [done|done|by rewrite <- En, Hn]).
      split_and!; [done|done|by intros id b|]. intros id [= <-]. split_and!; [by rewrite Hn|apply digest_ok|].
      unfold reads_blob. cbn. unfold memory_get. by rewrite E.
    + unfold keeps, reads_blob. cbn [get memory_blobs m_blobs]. unfold memory_get. cbn [m_blobs].
      split_and!; [done| | |intros id [= <-]; split_and!; [by rewrite Hn|apply digest_ok|by rewrite om_get_insert_eq]].
      * intros id b. rewrite om_insert_decide. case_bool_decide as En; [intros [= <-]; by rewrite Hn|apply Hs].
      * intros id b [= Hb]. rewrite om_get_insert_ne; [by rewrite Hb|]. intros ->. congruence.
  - intros name P s root expected new [Hn Hs]. cbn [cas_root memory_roots]. unfold memory_cas.
    case_bool_decide; cbn [fst]; (split; [by split|by intros id l]).
Defined.
End memory.

(** ** Uploading *)

Definition planned_id (name : bytes -> BlobId) (c : ChunkPlan) : BlobId :=
  match c with ChunkPlan.Published id => id | ChunkPlan.Rebuilt l => name l end.

Definition planned_ids name (chunks : list ChunkPlan) : list BlobId := map (planned_id name) chunks.

(** What uploading these plans puts in the store. *)
Definition rebuilt_blobs (chunks : list ChunkPlan) : list bytes :=
  filter_map (fun c => match c with ChunkPlan.Rebuilt l => Some l | ChunkPlan.Published _ => None end) chunks.

Definition order_blobs name (chunks : list ChunkPlan) : list bytes :=
  rebuilt_blobs chunks ++ [encode_index_manifest (planned_ids name chunks)].

Definition planned_blobs name (planned : slots (list ChunkPlan)) : list bytes := flat_map (fun o => order_blobs name (planned o)) ORDERS.

Section upload.
Context {S : Type} {B : BlobStore S} {RS : RootStore S} {IL : IndexStoreLaws B RS}.
Context (name : bytes -> BlobId) (P : bytes -> Prop) (Hdistinct : distinct name P).

(** The store reads the run of keys under the identifier the plan gives it. *)
Definition chunk_at (s : S) (c : ChunkPlan) (keys : list bytes) : Prop :=
  blob_id_ok (planned_id name c) /\ reads_blob s (planned_id name c) (encode_segment_chunk keys).

Definition chunk_planned (s : S) (c : ChunkPlan) (keys : list bytes) : Prop :=
  match c with ChunkPlan.Published _ => chunk_at s c keys | ChunkPlan.Rebuilt l => l = encode_segment_chunk keys end.

Lemma chunk_at_keeps s s' c keys : keeps s s' -> chunk_at s c keys -> chunk_at s' c keys.
Proof. intros Hk [H1 H2]. split; [done|by apply Hk]. Qed.

Lemma chunk_planned_keeps s s' c keys : keeps s s' -> chunk_planned s c keys -> chunk_planned s' c keys.
Proof. intros Hk. destruct c; [by apply chunk_at_keeps|done]. Qed.

Lemma upload_chunks_ok s chunks runs acc s' res : stores name P s -> Forall P (rebuilt_blobs chunks) ->
  Forall2 (chunk_planned s) chunks runs -> upload_chunks s chunks acc = (s', res) ->
  stores name P s' /\ keeps s s' /\
  forall ids, res = Ok ids -> ids = acc ++ planned_ids name chunks /\ Forall2 (chunk_at s') chunks runs.
Proof.
  intros Hs HP Hc. revert s acc runs Hs Hc. induction chunks as [|c chunks IH]; intros s acc runs Hs Hc; cbn [upload_chunks].
  { intros [= <- <-]. apply Forall2_nil_inv_l in Hc as ->. split_and!; [done|done|]. intros ids [= <-]. by rewrite app_nil_r. }
  apply Forall2_cons_inv_l in Hc as (keys & runs' & Hc & Hcs & ->). destruct c as [id|l]; cbn [rebuilt_blobs filter_map] in HP.
  - intros H. destruct (IH HP s _ runs' Hs Hcs H) as (H1 & H2 & H3). split_and!; [done|done|]. intros ids E.
    destruct (H3 ids E) as [-> H4]. rewrite <- app_assoc. split; [done|]. constructor; [by apply (chunk_at_keeps s)|done].
  - apply Forall_cons in HP as [Hl HP]. destruct (put_if_absent s l) as [s1 r] eqn:Hput.
    destruct (put_stores name P s l s1 r Hdistinct Hs Hl Hput) as (H1 & Hk & Hok).
    destruct r as [id|e]; [|by intros [= <- <-]]. destruct (Hok id eq_refl) as (-> & Hid & Hr). intros H.
    assert (Hcs' : Forall2 (chunk_planned s1) chunks runs') by (eapply Forall2_impl; [exact Hcs|]; intros; by apply (chunk_planned_keeps s)).
    destruct (IH HP s1 _ runs' H1 Hcs' H) as (H2 & Hk' & H4). split_and!; [done|by etrans|]. intros ids E.
    destruct (H4 ids E) as [-> H5]. rewrite <- app_assoc. split; [done|]. constructor; [|done]. apply (chunk_at_keeps s1); [done|].
    cbn [chunk_planned] in Hc. subst l. by split.
Qed.

(** The index of an order is stored as planned. *)
Definition order_at (s : S) (chunks : list ChunkPlan) (runs : list (list bytes)) : Prop :=
  blob_id_ok (name (encode_index_manifest (planned_ids name chunks))) /\
  reads_blob s (name (encode_index_manifest (planned_ids name chunks))) (encode_index_manifest (planned_ids name chunks)) /\
  Forall2 (chunk_at s) chunks runs.

Lemma order_at_keeps s s' chunks runs : keeps s s' -> order_at s chunks runs -> order_at s' chunks runs.
Proof.
  intros Hk (H1 & H2 & H3). split_and!; [done|by apply Hk|]. eapply Forall2_impl; [exact H3|]. intros. by eapply chunk_at_keeps.
Qed.

Lemma upload_orders_ok s planned runs orders manifests chunk_ids s' res : stores name P s ->
  (forall o, In o orders -> Forall P (order_blobs name (planned o)) /\ Forall2 (chunk_planned s) (planned o) (runs o)) ->
  upload_orders s planned orders manifests chunk_ids = (s', res) ->
  stores name P s' /\ keeps s s' /\ forall manifests' chunk_ids', res = Ok (manifests', chunk_ids') ->
  (forall o, ~ In o orders -> manifests' o = manifests o /\ chunk_ids' o = chunk_ids o) /\
  (forall o, In o orders -> manifests' o = name (encode_index_manifest (planned_ids name (planned o))) /\
     chunk_ids' o = planned_ids name (planned o) /\ order_at s' (planned o) (runs o)).
Proof.
  revert s manifests chunk_ids. induction orders as [|o orders IH]; intros s manifests chunk_ids Hs Hall; cbn [upload_orders].
  { intros [= <- <-]. split_and!; [done|done|]. intros ? ? [= <- <-]. split; [done|by intros o []]. }
  destruct (Hall o (or_introl eq_refl)) as [HP Hc]. apply Forall_app in HP as [HP Hm]. apply Forall_cons in Hm as [Hm _].
  destruct (upload_chunks s (planned o) []) as [s1 r] eqn:Hu.
  destruct (upload_chunks_ok s _ (runs o) [] s1 r Hs HP Hc Hu) as (Hs1 & Hk1 & Hok1).
  destruct r as [ids|e]; [|by intros [= <- <-]]. destruct (Hok1 ids eq_refl) as [Eids Hc1]. cbn [app] in Eids. subst ids.
  destruct (put_if_absent s1 _) as [s2 r] eqn:Hput.
  destruct (put_stores name P s1 _ s2 r Hdistinct Hs1 Hm Hput) as (Hs2 & Hk2 & Hok2).
  assert (Hk : keeps s s2) by (by etrans).
  destruct r as [id|e]; [|by intros [= <- <-]]. destruct (Hok2 id eq_refl) as (-> & Hid & Hr). intros H.
  assert (Ho : order_at s2 (planned o) (runs o)).
  { split_and!; [done|done|]. eapply Forall2_impl; [exact Hc1|]. intros. by apply (chunk_at_keeps s1). }
  apply IH in H as (Hs' & Hk' & H); [|done|].
  2: { intros o' Ho'. destruct (Hall o' (or_intror Ho')) as [HP' Hc']. split; [done|].
       eapply Forall2_impl; [exact Hc'|]. intros. by apply (chunk_planned_keeps s). }
  split_and!; [done|by etrans|]. intros ms cs E. destruct (H ms cs E) as [Hout Hin]. split.
  - intros o' Hn. destruct (Hout o') as [-> ->]; [by intros ?; apply Hn; right|].
    rewrite !decide_False by (intros ->; apply Hn; by left). done.
  - intros o' Ho'. destruct (List.in_dec (fun x y : IndexOrder => decide (x = y)) o' orders) as [Hi|Hi]; [by apply Hin|].
    destruct Ho' as [<-|Ho']; [|done]. destruct (Hout o Hi) as [-> ->]. rewrite !decide_True by done.
    split_and!; [done|done|by apply (order_at_keeps s2)].
Qed.

Lemma planned_blobs_order planned o : Forall P (planned_blobs name planned) -> Forall P (order_blobs name (planned o)).
Proof.
  rewrite !List.Forall_forall. intros H l Hl. apply H, in_flat_map. exists o. split; [|done]. destruct o; cbn; auto.
Qed.

Lemma upload_planned_ok s planned runs s' res : stores name P s -> Forall P (planned_blobs name planned) ->
  (forall o, Forall2 (chunk_planned s) (planned o) (runs o)) ->
  upload_planned_indexes s planned = (s', res) ->
  stores name P s' /\ keeps s s' /\ forall manifests chunk_ids, res = Ok (manifests, chunk_ids) ->
  manifests = root_slots (fun o => name (encode_index_manifest (planned_ids name (planned o)))) /\
  (forall o, chunk_ids o = planned_ids name (planned o) /\ order_at s' (planned o) (runs o)).
Proof.
  intros Hs HP Hc. unfold upload_planned_indexes. destruct (upload_orders _ _ _ _ _) as [s1 r] eqn:Hu.
  intros [= <- <-].
  apply (upload_orders_ok s planned runs) in Hu as (H1 & H2 & H3); [|done|].
  2: { intros o _. split; [by apply planned_blobs_order|done]. }
  split_and!; [done|done|]. intros ms cs. destruct r as [[ms' cs']|e]; [|done]. cbn [mbind result_bind]. intros [= <- <-].
  destruct (H3 ms' cs' eq_refl) as [_ H4]. assert (Hall : forall o, In o ORDERS) by (intros []; cbn; auto).
  split; [|intros o; by apply H4]. unfold root_slots. by rewrite !(fun o => proj1 (H4 o (Hall o))).
Qed.
End upload.
