(* ===== verification/PublishTheorems.v ===== *)
(** * Publishing and loading

    A pass that reports a root published leaves every index of the database loadable from
    it, and what it keeps for the next pass is again the database it published. *)

From stdpp Require Import base list strings sorting.
From Stdlib Require Import ZArith Lia.
From S2P Require Import Prelude OrdMap Machine Ids Keyword Values Encoding Datoms Segment Schema.
From S2P Require Import Bootstrap SchemaDatoms Db DbFacts DbReads DbTheorems Tx Crypt LogRecord.
From S2P Require Import Stores StoreFacts Snapshot Transactor Publish PublishFence PublishFacts.
Local Open Scope Z_scope.

(** ** Planning *)

Lemma plan_orders_ok (plan : IndexOrder -> Z -> Segment * Z) (Q : IndexOrder -> Segment -> Z -> Prop) a0 :
  (forall o a, a0 <= a -> a <= (plan o a).2 /\ Q o (plan o a).1 (plan o a).2) ->
  (forall o s a a', a <= a' -> Q o s a -> Q o s a') ->
  forall orders segments a, a0 <= a ->
  let (segments', a') := plan_orders plan orders segments a in
  a <= a' /\ forall o, (In o orders -> Q o (segments' o) a') /\ (~ In o orders -> segments' o = segments o).
Proof.
  intros Hplan Hmono. induction orders as [|o orders IH]; intros segments a Ha; cbn [plan_orders].
  { split; [lia|]. intros o. split; [by intros []|done]. }
  destruct (Hplan o a Ha) as [Hle Ho]. destruct (plan o a) as [s a1]. cbn [fst snd] in *.
  assert (Ha1 : a0 <= a1) by lia.
  specialize (IH (fun o' => if decide (o' = o) then s else segments o') a1 Ha1).
  destruct (plan_orders _ _ _ _) as [segments' a'].
  destruct IH as [Hle' IH]. split; [lia|]. intros o'. destruct (IH o') as [Hin Hout]. split.
  - intros [<-|Hi]; [|by apply Hin]. destruct (List.in_dec (fun x y : IndexOrder => decide (x = y)) o orders) as [Hi|Hi]; [by apply Hin|].
    rewrite (Hout Hi), decide_True by done. by eapply Hmono.
  - intros Hn. rewrite Hout by (intros ?; apply Hn; by right). rewrite decide_False; [done|]. intros ->. apply Hn. by left.
Qed.

(** A segment of these keys, whose leaves of before [a0] are leaves of [old]. *)
Definition planned_as (a0 : Z) (old : Segment) (keys : list bytes) (s : Segment) (a : Z) : Prop :=
  segment_keys s = keys /\ ids_ok s a /\ forall l, In l (leaves s) -> leaf_id l < a0 -> In l (leaves old).

Lemma planned_as_mono a0 old keys s a a' : a <= a' -> planned_as a0 old keys s a -> planned_as a0 old keys s a'.
Proof. intros Hle (H1 & H2 & H3). split_and!; [done|by eapply ids_weaken|done]. Qed.

Lemma carried_planned a0 old s keys a a' : a0 <= a -> carried old s a a' -> segment_keys s = keys ->
  a <= a' /\ planned_as a0 old keys s a'.
Proof.
  intros Ha (H1 & H2 & H3) Hk. split; [done|]. split_and!; [done|done|]. intros l Hl Hlt. destruct (H3 l Hl); [done|lia].
Qed.

Section pass.
Context {R : Rpds} {HR : RpdsLaws R} {S : Type} {B : BlobStore S} {RS : RootStore S} {IL : IndexStoreLaws B RS}.
Implicit Types db : Db.

(** ** What is kept between passes *)

(** The chunk of each leaf of the segment, where one is named, is stored. *)
Definition leaves_stored (s : S) (seg : Segment) (chunks : list (Z * BlobId)) : Prop :=
  forall l id, In l (leaves seg) -> om_get (leaf_id l) chunks = Some id ->
  blob_id_ok id /\ reads_blob s id (encode_segment_chunk (leaf_keys l)).

Record kept_segment (s : S) (alloc : Z) (keys : list bytes) (seg : Segment) (chunks : list (Z * BlobId)) : Prop := {
  ks_keys : segment_keys seg = keys;
  ks_ids : ids_ok seg alloc;
  ks_stored : leaves_stored s seg chunks;
  ks_known : forall k id, om_get k chunks = Some id -> k < alloc;
}.

(** The publication describes the database value [db0]. *)
Record published_as (s : S) (alloc : Z) (db0 : Db) (p : PublishedIndexes) : Prop := {
  pa_ok : db_ok db0;
  pa_view : view db0 = DbView.Current;
  pa_basis : pi_basis_t p = basis_t db0;
  pa_current : forall o, kept_segment s alloc (index_keys db0 o) (pi_current_segments p o) (pi_current_chunks p o);
  pa_history : forall segs, pi_history_segments p = Some segs -> exists chunks, pi_history_chunks p = Some chunks /\
    forall o, kept_segment s alloc (index_keys (history db0) o) (segs o) (chunks o);
}.

Lemma kept_mono s s' alloc alloc' keys seg chunks : keeps s s' -> alloc <= alloc' ->
  kept_segment s alloc keys seg chunks -> kept_segment s' alloc' keys seg chunks.
Proof.
  intros Hk Hle [H1 H2 H3 H4]. split; [done|by eapply ids_weaken| |].
  - intros l id Hl Hid. destruct (H3 l id Hl Hid) as [? Hr]. split; [done|by apply Hk].
  - intros k id Hid. specialize (H4 k id Hid). lia.
Qed.

Lemma published_mono s s' alloc alloc' db0 p : keeps s s' -> alloc <= alloc' ->
  published_as s alloc db0 p -> published_as s' alloc' db0 p.
Proof.
  intros Hk Hle [H1 H2 H3 H4 H5]. split; [done|done|done| |].
  - intros o. by eapply kept_mono.
  - intros segs Hs. destruct (H5 segs Hs) as (chunks & -> & Hc). exists chunks. split; [done|]. intros o. by eapply kept_mono.
Qed.

Definition segment_slot (previous : option (slots Segment)) (o : IndexOrder) : Segment :=
  match previous with Some f => f o | None => segment_default end.

(** The value a previous publication is folded from. *)
Definition continues (s : S) (alloc : Z) db (previous : option PublishedIndexes) : Prop :=
  forall p, previous = Some p -> exists db0, published_as s alloc db0 p /\ follows db0 db.

Lemma plan_current_ok s alloc db previous a o : db_ok db -> view db = DbView.Current -> continues s alloc db previous -> alloc <= a ->
  a <= (plan_segment db previous o a).2 /\
  planned_as alloc (segment_slot (pi_current_segments <$> previous) o) (index_keys db o)
    (plan_segment db previous o a).1 (plan_segment db previous o a).2.
Proof.
  intros Hdb Hv Hprev Ha. unfold plan_segment. destruct previous as [p|].
  - destruct (Hprev p eq_refl) as (db0 & [H1 H2 H3 H4 _] & Hf). destruct (H4 o) as [Hk Hi _ _].
    apply (carried_planned alloc _ _ _ a); [done|by apply apply_borrowed_carried, (ids_weaken _ alloc)|].
    rewrite H3. by apply folded_keys.
  - apply (carried_planned alloc _ _ _ a); [done|apply from_sorted_carried|apply from_sorted_segment_keys].
Qed.

Lemma plan_history_ok s alloc db previous a o : db_ok db -> continues s alloc db previous -> alloc <= a ->
  let plan := plan_history_segment db (with_history previous) o a in
  a <= plan.2 /\
  planned_as alloc (segment_slot (previous ≫= pi_history_segments) o) (index_keys (history db) o) plan.1 plan.2.
Proof.
  intros Hdb Hprev Ha plan. subst plan. unfold plan_history_segment, with_history.
  assert (Hnew : forall old, a <= (from_sorted o (datoms_at (history db) o) a).2 /\
    planned_as alloc old (index_keys (history db) o) (from_sorted o (datoms_at (history db) o) a).1 (from_sorted o (datoms_at (history db) o) a).2).
  { intros old. destruct (carried_planned alloc _ _ (index_keys (history db) o) a _ Ha (from_sorted_carried o (datoms_at (history db) o) a)) as (H1 & H2 & H3 & H4);
      [apply from_sorted_segment_keys|]. split; [done|]. split_and!; [done|done|]. intros l Hl Hlt. by destruct (H4 l Hl Hlt). }
  destruct previous as [p|]; cbn [mbind option_bind]; [|apply Hnew].
  destruct (pi_history_segments p) as [segs|] eqn:Hs; cbn [mbind option_bind]; [|apply Hnew]. clear Hnew.
  destruct (Hprev p eq_refl) as (db0 & [H1 H2 H3 _ H5] & Hf). destruct (H5 segs Hs) as (chunks & _ & Hc). destruct (Hc o) as [Hk Hi _ _].
  apply (carried_planned alloc _ _ _ a); [done|by apply insert_history_carried, (ids_weaken _ alloc)|].
  rewrite H3. by apply folded_history_keys.
Qed.

(** ** From plans to stored indexes *)

Context (name : bytes -> BlobId) (P : bytes -> Prop).

Lemma plan_chunk_ok s alloc old keys seg a stored l : planned_as alloc old keys seg a ->
  (forall chunks, stored = Some chunks -> leaves_stored s old chunks /\ forall k id, om_get k chunks = Some id -> k < alloc) ->
  In l (leaves seg) -> chunk_planned name s (plan_chunk stored l) (leaf_keys l).
Proof.
  intros (_ & _ & Hold) Hst Hl. unfold plan_chunk. destruct stored as [chunks|]; cbn [mbind option_bind]; [|done].
  destruct (Hst chunks eq_refl) as [Hs Hk]. destruct (om_get (leaf_id l) chunks) as [id|] eqn:E; [|done].
  apply (Hs l id); [|done]. apply Hold; [done|]. by eapply Hk.
Qed.

Lemma om_of_list_sub {K V} `{OrdLaws K} (l : list (K * V)) p : In p (om_of_list l) -> In p l.
Proof.
  unfold om_of_list. enough (forall m, In p (fold_left (fun m p => om_insert p.1 p.2 m) l m) -> In p m \/ In p l) as Hg.
  { intros [[]|?]%Hg. done. }
  induction l as [|q l IH]; intros m; cbn [fold_left]; [by left|]. intros [Hm|?]%IH; [|right; by right].
  apply In_om_insert in Hm as [->|?]; [right; left; by destruct q|by left].
Qed.

Lemma combine_stored s (plan : Leaf -> ChunkPlan) ls k id :
  Forall2 (chunk_at name s) (map plan ls) (map leaf_keys ls) ->
  In (k, id) (combine (map leaf_id ls) (planned_ids name (map plan ls))) ->
  exists l, In l ls /\ leaf_id l = k /\ blob_id_ok id /\ reads_blob s id (encode_segment_chunk (leaf_keys l)).
Proof.
  induction ls as [|l ls IH]; cbn [map planned_ids combine]; [done|]. intros Hc. apply Forall2_cons in Hc as [[H1 H2] Hc].
  intros [[= <- <-]|Hin]; [exists l; split_and!; [by left|done|done|done]|].
  destruct (IH Hc Hin) as (l' & Hl & ?). exists l'. split; [by right|done].
Qed.

Lemma leaf_by_id (ls : list Leaf) l l' : NoDup (map leaf_id ls) -> In l ls -> In l' ls -> leaf_id l = leaf_id l' -> l = l'.
Proof.
  induction ls as [|x ls IH]; [done|]. cbn [map]. intros [Hx Hn]%NoDup_cons. rewrite list_elem_of_In, in_map_iff in Hx.
  intros [->|Hl] [->|Hl'] E; [done|exfalso; eauto..|by apply IH].
Qed.

Lemma kept_after s seg a keys plan : segment_keys seg = keys -> ids_ok seg a ->
  Forall2 (chunk_at name s) (map plan (leaves seg)) (map leaf_keys (leaves seg)) ->
  kept_segment s a keys seg (om_of_list (combine (map leaf_id (leaves seg)) (planned_ids name (map plan (leaves seg))))).
Proof.
  intros Hk [Hn Hlt] Hc. rewrite List.Forall_forall in Hlt.
  assert (Hget : forall k id, om_get k (om_of_list (combine (map leaf_id (leaves seg)) (planned_ids name (map plan (leaves seg))))) = Some id ->
    exists l, In l (leaves seg) /\ leaf_id l = k /\ blob_id_ok id /\ reads_blob s id (encode_segment_chunk (leaf_keys l))).
  { intros k id Hg. apply om_get_In, om_of_list_sub in Hg. by eapply combine_stored. }
  split; [done|split; [done|by apply List.Forall_forall]| |].
  - intros l id Hl Hg. destruct (Hget _ _ Hg) as (l' & Hl' & E & ? & ?). by rewrite (leaf_by_id (leaves seg) l l').
  - intros k id Hg. destruct (Hget _ _ Hg) as (l' & Hl' & <- & _). by apply Hlt.
Qed.

Definition slot (r : IndexRoots) (o : IndexOrder) : BlobId :=
  match o with Eavt => r_eavt r | Aevt => r_aevt r | Avet => r_avet r | Vaet => r_vaet r end.

(** Every index of the roots loads as these keys. *)
Definition loadable (s : S) (r : IndexRoots) (keys : IndexOrder -> list bytes) : Prop :=
  forall o, exists ids runs, index_at s (slot r o) ids runs /\ concat runs = keys o.

Lemma loadable_keeps s s' r keys : keeps s s' -> loadable s r keys -> loadable s' r keys.
Proof.
  intros Hk H o. destruct (H o) as (ids & runs & (H1 & H2 & H3 & H4) & E). exists ids, runs. split; [|done].
  split_and!; [done|done|by apply Hk|]. eapply Forall2_impl; [exact H4|]. intros. by apply Hk.
Qed.

Lemma loadable_load s r keys o : loadable s r keys -> load_index_keys s (slot r o) = Ok (keys o).
Proof. intros H. destruct (H o) as (ids & runs & Hat & <-). by apply (load_index_ok s _ ids). Qed.

Lemma order_at_index s chunks runs : Forall keys_ok runs -> order_at name s chunks runs ->
  index_at s (name (encode_index_manifest (planned_ids name chunks))) (planned_ids name chunks) runs.
Proof.
  intros Hk (_ & Hm & Hc). split_and!; [|done|done|].
  - clear Hk Hm. induction Hc as [|c run cs runs [H1 _] _ IH]; constructor; [done|by apply IH].
  - unfold planned_ids. apply Forall2_fmap_l. eapply Forall2_impl; [exact Hc|]. by intros c run [_ ?].
Qed.

Lemma leaf_keys_ok seg keys : segment_keys seg = keys -> keys_ok keys -> Forall keys_ok (map leaf_keys (leaves seg)).
Proof.
  intros <- Hk. unfold keys_ok, segment_keys in *. apply List.Forall_forall. intros run Hrun. apply List.Forall_forall.
  intros k Hin. rewrite List.Forall_forall in Hk. apply Hk, in_concat. eauto.
Qed.

Lemma slot_roots f o : slot (root_slots f) o = f o.
Proof. by destruct o. Qed.

(** What uploading planned segments leaves. *)
Lemma upload_plan_ok s s' alloc a old keys segs stored res : distinct name P -> stores name P s ->
  (forall o, planned_as alloc (old o) (keys o) (segs o) a) -> (forall o, keys_ok (keys o)) ->
  (forall chunks o, stored = Some chunks -> leaves_stored s (old o) (chunks o) /\ forall k id, om_get k (chunks o) = Some id -> k < alloc) ->
  Forall P (planned_blobs name (plan_chunks segs stored)) ->
  upload_planned_indexes s (plan_chunks segs stored) = (s', res) ->
  stores name P s' /\ keeps s s' /\ forall ms cs, res = Ok (ms, cs) -> loadable s' ms keys /\
  forall o, kept_segment s' a (keys o) (segs o) (chunk_ids_by_leaf segs cs o).
Proof.
  intros Hd Hs Hplan Hk Hst HP Hu.
  apply (upload_planned_ok name P Hd s _ (fun o => map leaf_keys (leaves (segs o)))) in Hu as (H1 & H2 & H3); [|done|done|].
  2: { intros o. unfold plan_chunks. apply Forall2_fmap_l, Forall2_fmap_r, Forall_Forall2_diag, List.Forall_forall.
       intros l Hl. eapply plan_chunk_ok; [apply Hplan| |exact Hl]. intros chunks E. destruct stored as [f|]; [|done].
       injection E as <-. by apply (Hst f o). }
  split_and!; [done|done|]. intros ms cs E. destruct (H3 ms cs E) as [-> H4]. split.
  - intros o. exists (planned_ids name (plan_chunks segs stored o)), (map leaf_keys (leaves (segs o))). rewrite slot_roots.
    destruct (Hplan o) as (Hkeys & _). split; [|exact Hkeys]. apply order_at_index; [by eapply leaf_keys_ok|apply H4].
  - intros o. destruct (H4 o) as [Ec (_ & _ & Hc)]. destruct (Hplan o) as (Hkeys & Hids & _).
    unfold chunk_ids_by_leaf. rewrite Ec. by apply kept_after.
Qed.

(** ** A pass *)

(** What other processes do meanwhile loses no blob. *)
Definition quiet (acts : list (S -> S)) : Prop :=
  Forall (fun act => forall s, stores name P s -> stores name P (act s) /\ keeps s (act s)) acts.

Lemma pinned_keeps acts s root_name root pinned s' res : quiet acts -> stores name P s ->
  publish_root_pinned acts s root_name root pinned = Some (s', res) -> stores name P s' /\ keeps s s'.
Proof.
  intros Hq. revert s. induction Hq as [|act acts Hact _ IH]; intros s Hs; cbn [publish_root_pinned]; [done|].
  destruct (get_root s root_name) as [b|e]; [|by intros [= <- <-]].
  destruct (publish_decision _ _ _) as [r|next]; [by intros [= <- <-]|].
  destruct (Hact s Hs) as [Hs1 Hk1]. destruct (swap_stores name P (act s) root_name b (root_encode next) Hs1) as [Hs2 Hk2].
  destruct (cas_root (act s) root_name b (root_encode next)) as [s2 [u|e]]; cbn [fst] in *.
  { intros [= <- <-]. split; [done|by etrans]. }
  destruct e; try (intros [= <- <-]; split; [done|by etrans]).
  intros H. destruct (IH s2 Hs2 H) as [H1 H2]. split; [done|]. etrans; [exact Hk1|]. by etrans.
Qed.

(** The blobs a pass over this publication puts. *)
Definition pass_blobs db (previous : option PublishedIndexes) (alloc : Z) : list bytes :=
  let '(_, planned, alloc) := plan_indexes db previous alloc in
  planned_blobs name planned ++
  (if complete_history db then let '(_, planned, _) := plan_history_indexes db previous alloc in planned_blobs name planned else []).

Record pass_input (st : State) (s : S) (alloc : Z) (previous : option PublishedIndexes) : Prop := {
  pn_distinct : distinct name P;
  pn_stores : stores name P s;
  pn_db : db_ok (st_db st);
  pn_view : view (st_db st) = DbView.Current;
  pn_sizes : forall o, keys_ok (index_keys (st_db st) o) /\ keys_ok (index_keys (history (st_db st)) o);
  pn_continues : continues s alloc (st_db st) previous;
  pn_blobs : Forall P (pass_blobs (st_db st) previous alloc);
}.

Lemma plan_all_ok plan keys old alloc : (forall o a, alloc <= a -> a <= (plan o a).2 /\ planned_as alloc (old o) (keys o) (plan o a).1 (plan o a).2) ->
  forall a, alloc <= a -> let (segs, a') := plan_orders plan ORDERS (fun _ => segment_default) a in
  a <= a' /\ forall o, planned_as alloc (old o) (keys o) (segs o) a'.
Proof.
  intros Hplan a Ha.
  pose proof (plan_orders_ok plan (fun o => planned_as alloc (old o) (keys o)) alloc Hplan (fun o s a a' => planned_as_mono alloc (old o) (keys o) s a a')
    ORDERS (fun _ => segment_default) a Ha) as H.
  destruct (plan_orders _ _ _ _) as [segs a']. destruct H as [Hle H]. split; [done|]. intros o. apply (H o). destruct o; cbn; auto.
Qed.

(** What the uploads of a pass leave: current indexes, and history ones when it is kept. *)
Lemma pass_uploads st s alloc previous : pass_input st s alloc previous ->
  let db := st_db st in
  let '(segs, planned, a1) := plan_indexes db previous alloc in
  let hist := if complete_history db then Some (plan_history_indexes db previous a1) else None in
  let a2 := match hist with Some (_, _, a) => a | None => a1 end in
  alloc <= a2 /\
  forall s1 res, upload_planned_indexes s planned = (s1, res) ->
  stores name P s1 /\ keeps s s1 /\
  (forall ms cs, res = Ok (ms, cs) -> loadable s1 ms (index_keys db) /\
     forall o, kept_segment s1 a2 (index_keys db o) (segs o) (chunk_ids_by_leaf segs cs o)) /\
  forall hsegs hplanned a3, hist = Some (hsegs, hplanned, a3) ->
  forall s2 hres, upload_planned_indexes s1 hplanned = (s2, hres) ->
  stores name P s2 /\ keeps s1 s2 /\ forall hms hcs, hres = Ok (hms, hcs) -> loadable s2 hms (index_keys (history db)) /\
  forall o, kept_segment s2 a2 (index_keys (history db) o) (hsegs o) (chunk_ids_by_leaf hsegs hcs o).
Proof.
  intros [Hd Hs Hdb Hv Hk Hc HP] db. unfold pass_blobs in HP. fold db in HP, Hdb, Hv, Hk, Hc. unfold plan_indexes in *.
  pose proof (plan_all_ok (plan_segment db previous) (index_keys db) (segment_slot (pi_current_segments <$> previous)) alloc
    (fun o a => plan_current_ok s alloc db previous a o Hdb Hv Hc) alloc (Z.le_refl _)) as Hplan.
  destruct (plan_orders (plan_segment db previous) _ _ _) as [segs a1] eqn:Hp1. destruct Hplan as [Hle Hplan].
  apply Forall_app in HP as [HP HPh].
  pose proof (plan_all_ok (plan_history_segment db (with_history previous)) (index_keys (history db)) (segment_slot (previous ≫= pi_history_segments)) alloc
    (fun o a => plan_history_ok s alloc db previous a o Hdb Hc) a1 Hle) as Hhist.
  unfold plan_history_indexes in *. cbv zeta in *.
  destruct (plan_orders (plan_history_segment db _) _ _ _) as [hsegs a2] eqn:Hp2. destruct Hhist as [Hle2 Hhist].
  set (a := match (if complete_history db then _ else _) with Some _ => _ | None => _ end).
  assert (Ha : a1 <= a /\ alloc <= a) by (unfold a; destruct (complete_history db); cbn; lia).
  split; [apply Ha|]. intros s1 res Hu.
  apply (upload_plan_ok s s1 alloc a (segment_slot (pi_current_segments <$> previous)) (index_keys db)) in Hu as (H1 & H2 & H3); try done.
  2: { intros o. eapply planned_as_mono; [|apply Hplan]. apply Ha. }
  2: { intros o. apply Hk. }
  2: { intros chunks o. destruct previous as [p|]; [|done]. intros [= <-]. destruct (Hc p eq_refl) as (db0 & [_ _ _ H5 _] & _).
       destruct (H5 o) as [_ _ Hst Hkn]. split; [exact Hst|exact Hkn]. }
  split_and!; [done|done|done|]. intros hsegs0 hplanned a3. destruct (complete_history db) eqn:Hcomp; [|done].
  intros [= <- <- <-] s2 hres Hu.
  apply (upload_plan_ok s1 s2 alloc a (segment_slot (previous ≫= pi_history_segments)) (index_keys (history db))) in Hu; try done.
  - intros o. apply Hk.
  - intros chunks o Hch. destruct previous as [p|]; [|done]. cbn [with_history mbind option_bind] in Hch |- *.
    destruct (pi_history_segments p) as [segs0|] eqn:Hsegs; [|done]. cbn [mbind option_bind fst] in Hch |- *.
    destruct (Hc p eq_refl) as (db0 & [_ _ _ _ H5] & _). destruct (H5 segs0 Hsegs) as (chunks0 & E & Hkept).
    rewrite E in Hch. injection Hch as <-. destruct (kept_mono s s1 alloc alloc _ _ _ H2 (Z.le_refl _) (Hkept o)) as [_ _ Hst Hkn]. done.
Qed.

Lemma usable_cases previous stored lease basis : usable previous stored lease basis = previous \/ usable previous stored lease basis = None.
Proof.
  destruct previous as [p|]; cbn [usable mbind option_bind]; [|by left]. destruct (_ && _)%bool; [by left|by right].
Qed.

(** A root that describes [db]: each of its indexes loads as the index of the database. *)
Definition describes (s : S) db (root : DbRoot) : Prop :=
  index_basis_t root = basis_t db /\
  (exists r, roots root = Some r /\ forall o, load_index_keys s (slot r o) = Ok (index_keys db o)) /\
  match history_roots root with
  | Some r => complete_history db = true /\ forall o, load_index_keys s (slot r o) = Ok (index_keys (history db) o)
  | None => complete_history db = false
  end.

Record pass_output (st : State) (s : S) (alloc lease : Z) (ps : PassState) (res : result TransactError PassOutcome) : Prop := {
  po_stores : stores name P (ps_store ps);
  po_keeps : keeps s (ps_store ps);
  po_alloc : alloc <= ps_alloc ps;
  po_published : forall p, ps_published ps = Some p -> published_as (ps_store ps) (ps_alloc ps) (st_db st) p;
  po_root : forall root, res = Ok (PassOutcome.Published root) -> describes (ps_store ps) (st_db st) root /\ lease_version root = lease /\
    next_entity_id root = st_next_user st /\ last_tx_instant root = st_last_instant st;
}.

(** The history indexes uploaded, when the database has its history. *)
Definition history_stored (s : S) (a : Z) db (hist : option ((slots Segment) * (slots (list ChunkPlan)) * Z))
    (u : option (IndexRoots * slots (list BlobId))) : Prop :=
  match hist, u with
  | Some (hsegs, _, _), Some (hms, hcs) => complete_history db = true /\ loadable s hms (index_keys (history db)) /\
      forall o, kept_segment s a (index_keys (history db) o) (hsegs o) (chunk_ids_by_leaf hsegs hcs o)
  | None, None => complete_history db = false
  | _, _ => False
  end.

Lemma history_stored_keeps s s' a db hist u : keeps s s' -> history_stored s a db hist u -> history_stored s' a db hist u.
Proof.
  intros Hk. unfold history_stored. destruct hist as [[[hsegs ?] ?]|], u as [[hms hcs]|]; try done.
  intros (H1 & H2 & H3). split_and!; [done|by eapply loadable_keeps|]. intros o. by eapply kept_mono.
Qed.

(** A pass that ends with its indexes stored. *)
Lemma pass_end st s s' alloc a lease segs ms cs hist u (keep : bool) : db_ok (st_db st) -> view (st_db st) = DbView.Current ->
  stores name P s' -> keeps s s' -> alloc <= a -> loadable s' ms (index_keys (st_db st)) ->
  (forall o, kept_segment s' a (index_keys (st_db st) o) (segs o) (chunk_ids_by_leaf segs cs o)) ->
  history_stored s' a (st_db st) hist u ->
  let hsegs := (fun h => h.1.1) <$> hist in
  pass_output st s alloc lease
    (mk_pass s' a (if keep then Some (mk_published lease (basis_t (st_db st)) segs hsegs ms (fst <$> u)
       (chunk_ids_by_leaf segs cs) (hs ← hsegs; u ← u; Some (chunk_ids_by_leaf hs u.2))) else None))
    (Ok (PassOutcome.Published (mk_root FORMAT_VERSION lease EmptyString 0 EmptyString (basis_t (st_db st)) (Some ms) (fst <$> u)
       (st_next_user st) (st_last_instant st) 0))).
Proof.
  intros Hdb Hv Hs Hk Ha Hload Hkept Hh hsegs. split; [done|done|done| |].
  - intros p. destruct keep; [|done]. intros [= <-]. split; [done|done|done|done|]. cbn [pi_history_segments pi_history_chunks].
    intros hs Hhs. unfold history_stored in Hh. destruct hist as [[[hs' ?] ?]|], u as [[hms hcs]|]; try done.
    injection Hhs as <-. destruct Hh as (_ & _ & Hh). exists (chunk_ids_by_leaf hs' hcs). done.
  - intros root [= <-]. split_and!; [|done|done|done]. split_and!; [done|exists ms; split; [done|intros o; by apply loadable_load]|].
    cbn [history_roots]. unfold history_stored in Hh. destruct hist as [[[hs' ?] ?]|], u as [[hms hcs]|]; try done.
    destruct Hh as (Hc & Hl & _). split; [done|]. intros o. by apply loadable_load.
Qed.

Lemma publish_pass_ok acts st s alloc root_name lease previous ps res : quiet acts ->
  (forall prev, prev = previous \/ prev = None -> pass_input st s alloc prev) ->
  publish_pass acts st s alloc root_name lease previous = Some (ps, res) -> pass_output st s alloc lease ps res.
Proof.
  intros Hq Hin. pose proof (pn_stores _ _ _ _ (Hin None (or_intror eq_refl))) as Hs. unfold publish_pass.
  assert (Hno : forall s' a res, stores name P s' -> keeps s s' -> alloc <= a -> (forall root, res <> Ok (PassOutcome.Published root)) ->
    pass_output st s alloc lease (mk_pass s' a None) res).
  { intros s' a r ? ? ? Hr. split; try done. by intros root ?%Hr. }
  destruct (get_root s root_name) as [b|e]; [|intros [= <- <-]; by apply Hno].
  destruct (is_some_and _ _); [intros [= <- <-]; by apply Hno|]. cbn [recovery_snapshot].
  set (prev := usable _ _ _ _). assert (Hprev : pass_input st s alloc prev) by (apply Hin; apply usable_cases).
  pose proof (pass_uploads st s alloc prev Hprev) as Hup. destruct Hprev as [_ _ Hdb Hv _ _ _]. cbv zeta in Hup.
  destruct (plan_indexes (st_db st) prev alloc) as [[segs planned] a1].
  set (hist := if complete_history (st_db st) then Some _ else None) in *.
  set (a2 := match hist with Some _ => _ | None => _ end) in *. destruct Hup as [Ha Hup].
  destruct (upload_planned_indexes s planned) as [s1 r1] eqn:Hu1.
  destruct (Hup s1 r1 eq_refl) as (Hs1 & Hk1 & Hok1 & Huph). clear Hup.
  destruct r1 as [[ms cs]|e]; [|intros [= <- <-]; by apply Hno]. destruct (Hok1 ms cs eq_refl) as [Hload1 Hkept1]. clear Hok1.
  set (hup := match hist with Some _ => _ | None => _ end).
  assert (Hh : stores name P hup.1 /\ keeps s1 hup.1 /\ forall u, hup.2 = Ok u -> history_stored hup.1 a2 (st_db st) hist u).
  { clearbody a2. unfold hup. destruct (complete_history (st_db st)) eqn:Hcomp; subst hist; [|split_and!; [done|done|by intros u [= <-]]].
    destruct (plan_history_indexes (st_db st) prev a1) as [[hsegs hplanned] a3].
    destruct (upload_planned_indexes s1 hplanned) as [s2 r2] eqn:Hu2. destruct (Huph _ _ _ eq_refl _ _ Hu2) as (H1 & H2 & H3).
    cbn [fst snd]. split_and!; [done|done|]. intros u. destruct r2 as [[hms hcs]|e]; [|done]. intros [= <-]. by destruct (H3 hms hcs eq_refl). }
  clearbody hup. clear Huph Hu1. destruct hup as [s2 r2]. cbn [fst snd] in Hh. destruct Hh as (Hs2 & Hk2 & Hh).
  assert (Hk : keeps s s2) by (by etrans). destruct r2 as [u|e]; [|intros [= <- <-]; by apply Hno].
  destruct (publish_root_pinned acts s2 root_name _ _) as [[s3 res3]|] eqn:Hpub; [|done].
  destruct (pinned_keeps acts s2 root_name _ _ s3 res3 Hq Hs2 Hpub) as [Hs3 Hk3]. clear Hpub.
  assert (Hk' : keeps s s3) by (by etrans). assert (Hk13 : keeps s1 s3) by (by etrans).
  assert (Hend : forall keep, _) by exact (fun keep => pass_end st s s3 alloc a2 lease segs ms cs hist u keep Hdb Hv Hs3 Hk' Ha
    (loadable_keeps s1 s3 ms _ Hk13 Hload1) (fun o => kept_mono s1 s3 a2 a2 _ _ _ Hk13 (Z.le_refl _) (Hkept1 o))
    (history_stored_keeps s2 s3 a2 (st_db st) hist u Hk3 (Hh u eq_refl))).
  destruct res3 as [[]|e]; intros [= <- <-]; try (by apply Hno); [exact (Hend true)|exact (Hend _)].
Qed.

(** *** A rebuild puts the same blobs whatever its leaves are allocated *)

Definition same_runs (s s' : Segment) : Prop := map leaf_keys (leaves s) = map leaf_keys (leaves s').

Lemma from_keys_runs keys a a' : same_runs (from_keys keys a).1 (from_keys keys a').1.
Proof.
  unfold same_runs, from_keys. rewrite !fin_shape. f_equal. unfold push_all.
  assert (H : shape (builder_default a) = shape (builder_default a')) by done. revert H.
  generalize (builder_default a) (builder_default a'). induction keys as [|k keys IH]; intros b b' H; [done|].
  cbn [fold_left]. by apply IH, shape_push.
Qed.

Lemma plan_orders_runs plan orders segs segs' a a' : (forall o a a', same_runs (plan o a).1 (plan o a').1) ->
  (forall o, same_runs (segs o) (segs' o)) ->
  forall o, same_runs ((plan_orders plan orders segs a).1 o) ((plan_orders plan orders segs' a').1 o).
Proof.
  intros Hplan. revert segs segs' a a'. induction orders as [|o orders IH]; intros segs segs' a a' Hs; cbn [plan_orders]; [done|].
  pose proof (Hplan o a a') as Ho. destruct (plan o a) as [s b], (plan o a') as [s' b']. apply IH.
  intros o'. by destruct (decide (o' = o)).
Qed.

Lemma fresh_blobs_runs segs segs' : (forall o, same_runs (segs o) (segs' o)) ->
  planned_blobs name (plan_chunks segs None) = planned_blobs name (plan_chunks segs' None).
Proof.
  intros H. unfold planned_blobs. apply flat_map_ext. intros o. unfold plan_chunks. cbn [fmap option_fmap option_map].
  assert (E : map (plan_chunk None) (leaves (segs o)) = map (plan_chunk None) (leaves (segs' o))); [|by rewrite E].
  change (plan_chunk None) with (fun l => ChunkPlan.Rebuilt (encode_segment_chunk (leaf_keys l))).
  rewrite <- !(map_map leaf_keys (fun ks => ChunkPlan.Rebuilt (encode_segment_chunk ks))). f_equal. apply H.
Qed.

Lemma pass_blobs_alloc db a a' : pass_blobs db None a = pass_blobs db None a'.
Proof.
  unfold pass_blobs, plan_indexes, plan_history_indexes. cbn [fmap option_fmap option_map with_history mbind option_bind].
  assert (Hc : forall o a a', same_runs (plan_segment db None o a).1 (plan_segment db None o a').1).
  { intros o x y. cbn [plan_segment]. rewrite !from_sorted_keys. apply from_keys_runs. }
  assert (Hh : forall o a a', same_runs (plan_history_segment db None o a).1 (plan_history_segment db None o a').1).
  { intros o x y. cbn [plan_history_segment]. rewrite !from_sorted_keys. apply from_keys_runs. }
  pose proof (plan_orders_runs _ ORDERS _ (fun _ => segment_default) a a' Hc (fun o => eq_refl)) as H1.
  destruct (plan_orders (plan_segment db None) ORDERS _ a) as [segs b], (plan_orders (plan_segment db None) ORDERS _ a') as [segs' b'].
  cbn [fst] in H1. f_equal; [by apply fresh_blobs_runs|]. destruct (complete_history db); [|done].
  pose proof (plan_orders_runs _ ORDERS _ (fun _ => segment_default) b b' Hh (fun o => eq_refl)) as H2.
  destruct (plan_orders (plan_history_segment db None) ORDERS _ b), (plan_orders (plan_history_segment db None) ORDERS _ b').
  by apply fresh_blobs_runs.
Qed.

(** *** A pass that carries nothing over is not raced *)

Lemma unpinned_not_raced acts s root_name root s' res : publish_root_pinned acts s root_name root None = Some (s', res) ->
  res <> Ok RootPublication.Raced.
Proof.
  revert s. induction acts as [|act acts IH]; intros s; cbn [publish_root_pinned]; [done|].
  destruct (get_root s root_name) as [b|e]; [|by intros [= <- <-]].
  destruct (publish_decision _ root None) as [r|next] eqn:Hd.
  - intros [= <- <-]. unfold publish_decision in Hd. cbn [is_some_and] in Hd. destruct (b ≫= root_decode); [|done].
    destruct (_ <? _); [by injection Hd as <-|]. destruct (_ && _)%bool; [by injection Hd as <-|done].
  - destruct (cas_root _ _ _ _) as [s2 [u|e]]; [by intros [= <- <-]|]. destruct e; try (by intros [= <- <-]). apply IH.
Qed.

Lemma pinned_no_fault acts s root_name root pinned s' f : publish_root_pinned acts s root_name root pinned <> Some (s', Err (TransactError.Tx f)).
Proof.
  revert s. induction acts as [|act acts IH]; intros s; cbn [publish_root_pinned]; [done|].
  destruct (get_root s root_name) as [b|e]; [|done].
  destruct (publish_decision _ root pinned) as [r|next] eqn:Hd.
  - intros [= -> ->]. unfold publish_decision in Hd. destruct (is_some_and _ _); [done|]. destruct (b ≫= root_decode); [|done].
    destruct (_ <? _); [done|]. by destruct (_ && _)%bool.
  - destruct (cas_root _ _ _ _) as [s2 [u|e]]; [done|]. by destruct e.
Qed.

Lemma pass_no_fault acts st s alloc root_name lease previous ps res :
  publish_pass acts st s alloc root_name lease previous = Some (ps, res) ->
  (forall f, res <> Err (TransactError.Tx f)) /\ (previous = None -> res <> Ok PassOutcome.Raced).
Proof.
  unfold publish_pass. destruct (get_root s root_name) as [b|e]; [|by intros [= <- <-]].
  destruct (is_some_and _ _); [by intros [= <- <-]|]. cbn [recovery_snapshot].
  destruct (plan_indexes _ _ _) as [[segs planned] a1]. destruct (upload_planned_indexes s planned) as [s1 [[ms cs]|e]]; [|by intros [= <- <-]].
  destruct (match (if complete_history _ then _ else _) with Some _ => _ | None => _ end) as [s2 [u|e]]; [|by intros [= <- <-]].
  destruct (publish_root_pinned acts s2 _ _ _) as [[s3 r]|] eqn:Hp; [|done]. intros H. split.
  - intros f ->. destruct r as [[]|e]; try done. injection H as _ ->. by apply pinned_no_fault in Hp.
  - intros -> ->. cbn [usable mbind option_bind fmap option_fmap option_map] in Hp. apply unpinned_not_raced in Hp.
    by destruct r as [[]|e].
Qed.

(** ** Publication *)

Lemma rebuild_input st s s' alloc alloc' previous : pass_input st s alloc previous -> stores name P s' ->
  Forall P (pass_blobs (st_db st) None 0) -> pass_input st s' alloc' None.
Proof. intros [H1 H2 H3 H4 H5 H6 H7] Hs HP. split; [exact H1|exact Hs|exact H3|exact H4|exact H5|done|]. by rewrite (pass_blobs_alloc _ alloc' 0). Qed.

(** C8. A published root describes the database. Whether the pass folded the transactions
    since its last publication into the segments it kept, or rebuilt them, and also when it
    lost its root to another writer and started over, every current and history index of the
    root that [publish_indexes] returns loads from the store as the keys of that index of the
    published value, no blob is lost, and what is kept describes that value again, so that
    the next publication can fold into it. The pass that starts over is not raced again. The
    blobs put have names of their own and other processes lose none meanwhile; and since the
    last publication no attribute with recorded facts has changed what covers it or whether
    its history is kept, as a fold leaves the entries of older datoms where they were. *)
Theorem published_loads acts acts' st p root_name lease p' res : quiet acts -> quiet acts' ->
  pass_input st (ps_store p) (ps_alloc p) (ps_published p) -> Forall P (pass_blobs (st_db st) None 0) ->
  publish_indexes acts acts' st p root_name lease = Some (p', res) ->
  stores name P (ps_store p') /\ keeps (ps_store p) (ps_store p') /\
  (forall kept, ps_published p' = Some kept -> published_as (ps_store p') (ps_alloc p') (st_db st) kept) /\
  (forall root, res = Ok root -> describes (ps_store p') (st_db st) root /\ lease_version root = lease /\
     next_entity_id root = st_next_user st /\ last_tx_instant root = st_last_instant st) /\
  (forall f, res <> Err (TransactError.Tx f)).
Proof.
  intros Hq Hq' Hin HP. unfold publish_indexes.
  destruct (publish_pass acts st _ _ root_name lease _) as [[p1 res1]|] eqn:H1; [|done].
  destruct (pass_no_fault _ _ _ _ _ _ _ _ _ H1) as [Hf1 _]. apply publish_pass_ok in H1; [|done|].
  2: { intros prev [->| ->]; [done|]. eapply rebuild_input; [exact Hin|apply Hin|done]. }
  destruct H1 as [Hs1 Hk1 Ha1 Hp1 Hr1]. destruct res1 as [[root1|]|e].
  - intros [= <- <-]. split_and!; [done|done|done| |done]. intros root [= <-]. by apply Hr1.
  - destruct (publish_pass acts' st _ _ root_name lease None) as [[p2 res2]|] eqn:H2; [|done].
    destruct (pass_no_fault _ _ _ _ _ _ _ _ _ H2) as [Hf2 Hr]. apply publish_pass_ok in H2; [|done|].
    2: { intros prev Hprev. assert (prev = None) as -> by (by destruct Hprev). eapply rebuild_input; [exact Hin|done|done]. }
    destruct H2 as [Hs2 Hk2 Ha2 Hp2 Hr2].
    assert (Hk : keeps (ps_store p) (ps_store p2)) by (by etrans).
    destruct res2 as [[root2|]|e]; [|by destruct (Hr eq_refl)|]; intros [= <- <-]; split_and!; try done.
    + intros root [= <-]. by apply Hr2.
    + intros f [= ->]. by apply (Hf2 f).
  - intros [= <- <-]. split_and!; try done. intros f [= ->]. by apply (Hf1 f).
Qed.
End pass.

(** ** Samples *)

#[local] Existing Instance list_rpds.
#[local] Existing Instance list_rpds_laws.

(** A digest that mixes every byte. *)
Definition mixing_crypto : Crypto := {|
  gcm_encrypt := toy_encrypt; gcm_decrypt := toy_decrypt;
  siv_encrypt := toy_encrypt; siv_decrypt := toy_decrypt;
  blake3_hash m := to_be_bytes 32 (fold_left (fun h b => (h * 257 + b + 1) mod 2305843009213693951) m 0);
  blake3_keyed k m := to_be_bytes 32 (from_be_bytes k + from_be_bytes m);
|}.

Lemma mixing_crypto_laws : CryptoLaws mixing_crypto.
Proof.
  split; cbn [mixing_crypto gcm_encrypt gcm_decrypt siv_encrypt siv_decrypt blake3_keyed blake3_hash];
    eauto using toy_inverse, toy_length, length_to_be_bytes, to_be_bytes_wf.
Qed.

#[local] Existing Instance mixing_crypto.
#[local] Existing Instance mixing_crypto_laws.

Definition state1 : State := mk_state sample_db1 1001 1000 [] false.
Definition state2 : State := mk_state sample_db2 1002 2000 [] false.
Definition empty_pass : PassState (S := MemoryStore) := mk_pass (mk_memory [] []) 0 None.
Definition no_act (s : MemoryStore) : MemoryStore := s.
Notation publish1 := (publish_indexes [no_act] [] state1 empty_pass "db:a" 1).
Definition pass1 : PassState := match publish1 with Some (p, _) => p | None => empty_pass end.
Notation publish2 := (publish_indexes [no_act] [] state2 pass1 "db:a" 1).

Definition sample_blobs : list bytes :=
  pass_blobs digest sample_db1 None 0 ++ pass_blobs digest sample_db2 (ps_published pass1) (ps_alloc pass1) ++
  pass_blobs digest sample_db2 None 0.

Definition all_distinct (ls : list bytes) : bool :=
  let named := map (fun l => (digest l, l)) ls in
  forallb (fun a => forallb (fun b => implb (String.eqb a.1 b.1) (bool_decide (a.2 = b.2))) named) named.

Lemma all_distinct_spec ls : all_distinct ls = true -> distinct digest (fun l => In l ls).
Proof.
  unfold all_distinct. cbv zeta. intros H a b Ha Hb E. rewrite forallb_forall in H.
  specialize (H (digest a, a) (in_map (fun l => (digest l, l)) _ _ Ha)). rewrite forallb_forall in H.
  specialize (H (digest b, b) (in_map (fun l => (digest l, l)) _ _ Hb)). cbn [fst snd] in H.
  rewrite E, String.eqb_refl in H. by apply bool_decide_eq_true in H.
Qed.

Lemma sample_distinct : distinct digest (fun l => In l sample_blobs).
Proof. apply all_distinct_spec. vm_compute. reflexivity. Qed.

Lemma parts_of (a b c : list bytes) : let all := a ++ b ++ c in
  Forall (fun l => In l all) a /\ Forall (fun l => In l all) b /\ Forall (fun l => In l all) c.
Proof.
  cbv zeta. split_and!; apply List.Forall_forall; intros x Hx; rewrite !in_app_iff; auto.
Qed.

Lemma sample_blobs_parts :
  Forall (fun l => In l sample_blobs) (pass_blobs digest sample_db1 None 0) /\
  Forall (fun l => In l sample_blobs) (pass_blobs digest sample_db2 (ps_published pass1) (ps_alloc pass1)) /\
  Forall (fun l => In l sample_blobs) (pass_blobs digest sample_db2 None 0).
Proof. unfold sample_blobs. apply parts_of. Qed.

Lemma sizes_ok (ks : list bytes) : forallb (fun k => Z.of_nat (length k) <? 2 ^ 62) ks = true -> keys_ok ks.
Proof. intros H. apply List.Forall_forall. intros k Hk. rewrite forallb_forall in H. by apply Z.ltb_lt, H. Qed.

Lemma no_act_quiet name P : quiet name P [no_act].
Proof. constructor; [|constructor]. intros s Hs. by split. Qed.

Lemma sample_input1 : pass_input digest (fun l => In l sample_blobs) state1 (ps_store empty_pass) (ps_alloc empty_pass) (ps_published empty_pass).
Proof.
  split.
  - apply sample_distinct.
  - split; done.
  - by apply (reachable_inv sample_schema), sample_reachable1.
  - apply sample_view1.
  - intros o. split; apply sizes_ok; destruct o; vm_compute; reflexivity.
  - done.
  - exact (proj1 sample_blobs_parts).
Qed.

Lemma sample_follows : follows sample_db1 sample_db2.
Proof.
  assert (E : exists tail, recorded_datoms sample_db2 = recorded_datoms sample_db1 ++ tail /\
    forallb (after (basis_t sample_db1)) tail = true) by (eexists; split; [vm_compute; reflexivity|vm_compute; reflexivity]).
  assert (Es : db_schema sample_db2 = db_schema sample_db1) by (vm_compute; reflexivity).
  split; [|by rewrite Es|by rewrite Es].
  destruct E as (tail & E & Ht). exists tail. split; [done|]. apply List.Forall_forall. by rewrite forallb_forall in Ht.
Qed.

(** A second publication, folded into the first. *)
Lemma published_loads_witness : exists p' root,
  publish2 = Some (p', Ok root) /\ describes (ps_store p') (st_db state2) root /\
  forall kept, ps_published p' = Some kept -> published_as (ps_store p') (ps_alloc p') (st_db state2) kept.
Proof.
  assert (H1 : exists res, publish1 = Some (pass1, res)).
  { unfold pass1. assert (is_some publish1 = true) by (vm_compute; reflexivity). destruct publish1 as [[p res]|]; [by exists res|done]. }
  destruct H1 as [res1 H1].
  destruct (published_loads digest _ [no_act] [] state1 empty_pass "db:a" 1 pass1 res1 (no_act_quiet _ _) (Forall_nil_2 _) sample_input1 (proj1 sample_blobs_parts) H1)
    as (Hs & _ & Hp & _).
  assert (Hin : pass_input digest (fun l => In l sample_blobs) state2 (ps_store pass1) (ps_alloc pass1) (ps_published pass1)).
  { split; [apply sample_distinct|done|by apply (reachable_inv sample_schema), sample_reachable2|apply sample_view2| | |exact (proj1 (proj2 sample_blobs_parts))].
    - intros o. split; apply sizes_ok; destruct o; vm_compute; reflexivity.
    - intros p Ep. exists sample_db1. split; [by apply Hp|apply sample_follows]. }
  assert (H2 : match publish2 with Some (_, Ok _) => true | _ => false end = true) by (vm_compute; reflexivity).
  destruct publish2 as [[p' [root|e]]|] eqn:E; [|done|done]. exists p', root.
  destruct (published_loads digest _ [no_act] [] state2 pass1 "db:a" 1 p' (Ok root) (no_act_quiet _ _) (Forall_nil_2 _) Hin (proj2 (proj2 sample_blobs_parts)) E)
    as (_ & _ & Hk & Hr & _).
  split; [reflexivity|]. split; [exact (proj1 (Hr root eq_refl))|exact Hk].
Defined.

(** An attribute that becomes indexed after a publication: its older facts are in the index
    of the database, and missing from the index the next pass publishes. *)
Definition plain_attr : Attribute := attribute 100 ValueType.Long Cardinality.One None.
Definition plain_db1 : Db :=
  with_transaction_at (db_new (schema_insert schema_default plain_attr)) 1 1000
    [mk_datom (user 1000) (at_id plain_attr) (Value.Long 5) (tx_id 1) true].
Definition plain_db2 : Db :=
  with_transaction_at plain_db1 2 2000 [mk_datom (at_id plain_attr) INDEX (Value.Bool true) (tx_id 2) true].
Definition plain_pass : PassState :=
  match publish_indexes [no_act] [] (mk_state plain_db1 1001 1000 [] false) empty_pass "db:a" 1 with Some (p, _) => p | None => empty_pass end.

Definition loaded_avet (db : Db) (p : PassState) : option (list bytes) :=
  match publish_indexes [no_act] [] (mk_state db 1001 2000 [] false) p "db:a" 1 with
  | Some (p', Ok root) => r ← roots root; match load_index_keys (ps_store p') (r_avet r) with Ok ks => Some ks | Err _ => None end
  | _ => None
  end.

Lemma stale_avet : option_map length (loaded_avet plain_db2 plain_pass) = Some 2%nat /\ length (index_keys plain_db2 Avet) = 3%nat /\
  loaded_avet plain_db2 empty_pass = Some (index_keys plain_db2 Avet).
Proof. split; [vm_compute; reflexivity|]. split; vm_compute; reflexivity. Qed.
