(* ===== verification/Recovery.v ===== *)
(** * Opening a database from its root (corium-transactor/src/node.rs)

    [recover_transactor] loads the published snapshot and replays the tail of the log, or
    replays all of it when the root has no usable snapshot. *)

From stdpp Require Import base list strings sorting relations.
From Stdlib Require Import ZArith Lia.
From S2P Require Import Prelude OrdMap Machine Ids Keyword Values Encoding Datoms Segment Schema.
From S2P Require Import Bootstrap SchemaDatoms Db DbFacts DbReads DbTheorems SagaDb TxSaga Branch.
From S2P Require Import Tx TxSpec TxFacts TxLoop TxTheorems.
From S2P Require Import Crypt LogRecord FileLog FileLogFacts Stores StoreFacts LogInterface Snapshot.
From S2P Require Import Transactor TransactorFacts TransactorTheorems Publish PublishFence PublishFacts PublishTheorems.
Local Open Scope Z_scope.

(** A byte in the alternate lower-case hexadecimal form. *)
Definition hex_tag (tag : Z) : string :=
  "0x" +:+ of_bytes (if tag <? 16 then [hex_char tag] else [hex_char (tag / 16); hex_char (tag mod 16)]).

Definition decode_error_text (e : DecodeError) : string :=
  match e with
  | DecodeError.Truncated => "truncated sortable value"
  | DecodeError.UnknownTag tag => "unknown value tag " +:+ hex_tag tag
  | DecodeError.InvalidEscape => "invalid escaped bytes"
  | DecodeError.InvalidUtf8 => "invalid UTF-8 string"
  | DecodeError.Trailing => "trailing bytes after sortable value"
  | DecodeError.InvalidValueType tag => "unknown value type tag " +:+ hex_tag tag
  end.

Section open.
Context {R : Rpds} {L : Type} {T : TransactionLog L} {S : Type} {B : BlobStore S}.

Definition load_datoms (s : S) (eavt : BlobId) : result StoreError (list Datom) :=
  keys ← load_index_keys s eavt;
  map_err (fun e => StoreError.Io (decode_error_text e)) (try_map (from_key Eavt) keys).

Definition load_history_snapshot (s : S) (root : DbRoot) (current_eavt history_eavt : BlobId)
    (schema : Schema) (idents : Idents) (interner : KeywordInterner) : result StoreError Db :=
  current ← load_datoms s current_eavt;
  history ← load_datoms s history_eavt;
  Ok (from_history_snapshot_with_next_user (index_basis_t root) (next_entity_id root) schema idents interner history current).

Definition recover_transactor (s : S) (schema : Schema) (idents : Idents) (interner : KeywordInterner) (root : option DbRoot) (log : L)
    : L * result TransactError State :=
  let full := recover_from (with_naming (db_new schema) idents interner) log in
  match root with
  | Some root =>
      match roots root, history_roots root with
      | Some r, Some h =>
          if next_entity_id root =? 0 then full
          else
            match load_history_snapshot s root (r_eavt r) (r_eavt h) schema idents interner with
            | Ok snapshot => recover_from_snapshot snapshot (next_entity_id root) (last_tx_instant root) log
            | Err _ => full
            end
      | _, _ => full
      end
  | None => full
  end.
End open.

(** ** What recovery restores *)

Section recovery.
Context {R : Rpds} {HR : RpdsLaws R} {L : Type} {T : TransactionLog L} {TL : TransactionLogLaws T} {S : Type} {B : BlobStore S}.

Definition record_commit (r : TxRecord) : Z * Z * list Datom := (r_t r, r_tx_instant r, r_datoms r).

Lemma load_datoms_ok (s : S) id (db : Db) : db_ok db -> load_index_keys s id = Ok (index_keys db Eavt) -> load_datoms s id = Ok (datoms db).
Proof.
  intros Hdb H. unfold load_datoms. rewrite H. cbn [mbind result_bind]. unfold index_keys, datoms.
  assert (Hw : forall d, In d (datoms_at db Eavt) -> datom_wf d) by (intros d; by apply datoms_at_wf).
  assert (E : try_map (from_key Eavt) (map (fun d => datom_key d Eavt) (datoms_at db Eavt)) = Ok (datoms_at db Eavt)); [|by rewrite E].
  induction (datoms_at db Eavt) as [|d ds IH]; [done|]. cbn [map try_map]. rewrite from_key_key by (apply Hw; by left).
  cbn [mbind result_bind]. rewrite IH; [done|]. intros d' Hd. apply Hw. by right.
Qed.

Lemma replayed_run base rs tail : (replayed base (rs ++ tail)).1 = run (replayed base rs).1 (map record_commit tail).
Proof.
  unfold replayed, run. rewrite fold_left_app. generalize (fold_left replay_record rs (base, i64_MIN)).
  induction tail as [|r tail IH]; intros [db i]; [done|]. cbn [fold_left map]. rewrite IH. done.
Qed.

Lemma replay_tail_run tail db last next : (fold_left replay_tail tail (db, last, next)).1.1 = run db (map record_commit tail).
Proof.
  unfold run. revert db last next. induction tail as [|r tail IH]; intros db last next; [done|]. cbn [fold_left map replay_tail replay_record record_commit]. by rewrite IH.
Qed.

Lemma replay_tail_last tail db db' last next : (fold_left replay_tail tail (db, last, next)).1.2 = (fold_left replay_record tail (db', last)).2.
Proof.
  revert db db' last next. induction tail as [|r tail IH]; intros db db' last next; [done|]. cbn [fold_left replay_tail replay_record]. apply IH.
Qed.

Lemma replay_tail_next tail db last next : next <= (fold_left replay_tail tail (db, last, next)).2 /\
  forall r d, In r tail -> In d (r_datoms r) -> is_user (d_e d) = true -> sequence (d_e d) < (fold_left replay_tail tail (db, last, next)).2.
Proof.
  revert db last next. induction tail as [|r tail IH]; intros db last next; [split; [cbn; lia|by intros r d []]|].
  cbn [fold_left replay_tail replay_record]. set (n := Z.max next _). destruct (IH (with_transaction_at db (r_t r) (r_tx_instant r) (r_datoms r)) (Z.max last (effective_tx_instant r)) n) as [H1 H2].
  split; [lia|]. intros r' d [<-|Hr] Hd Hu; [|by eapply H2]. enough (sequence (d_e d) < n) by lia. unfold n, next_user_id. set (l := map _ _).
  destruct (fold_max_ge l next) as [_ Hl]. assert (sequence (d_e d) + 1 <= fold_left Z.max l next); [|lia].
  apply Hl, in_map_iff. exists d. split; [done|]. by apply filter_In.
Qed.

(** The commits of a log fit the value they are replayed on. *)
Definition fits_commit (r : TxRecord) : Prop := r_t r < 2 ^ 42 /\ i64 (r_tx_instant r) /\ tx_ok (r_t r) (r_datoms r).

Lemma commit_log_fits base rs : base_ok base -> commit_log base rs -> Forall fits_commit rs.
Proof.
  intros Hb. induction 1 as [|rs r Hh IH Hroom Hs]; [constructor|]. apply Forall_app. split; [done|].
  apply List.Forall_cons; [|constructor]. destruct Hs as [Ht _ Hi _ Htx]. split_and!; [lia|done|done].
Qed.

Lemma run_ready tail db : db_ready db -> run_from (basis_t db + 1) (map r_t tail) -> Forall fits_commit tail ->
  db_ready (run db (map record_commit tail)) /\ basis_t (run db (map record_commit tail)) = basis_t db + Z.of_nat (length tail).
Proof.
  revert db. induction tail as [|r tail IH]; intros db Hdb Hrun Hf.
  { cbn. split; [done|lia]. }
  apply Forall_cons in Hf as [(Ht & Hi & Htx) Hf]. cbn [map run_from] in Hrun. destruct Hrun as [E Hrun]. destruct Hdb as [Hok Hv Hb].
  assert (Hdb1 : db_ready (with_transaction_at db (r_t r) (r_tx_instant r) (r_datoms r))).
  { split; [apply with_transaction_at_ok; [done|done|done|lia|done|done]|by rewrite with_transaction_at_view|rewrite with_transaction_at_basis; lia]. }
  cbn [map run fold_left record_commit]. destruct (IH _ Hdb1) as [H1 H2]; [rewrite with_transaction_at_basis; by rewrite E|done|].
  rewrite with_transaction_at_basis in H2. split; [exact H1|]. cbn [length]. unfold run in H2. rewrite H2. lia.
Qed.

Lemma tail_range rs0 tail : run_from 1 (map r_t (rs0 ++ tail)) ->
  memory_tx_range (rs0 ++ tail) (Z.of_nat (length rs0) + 1) None = tail.
Proof.
  intros Hrun. unfold memory_tx_range. rewrite List.filter_app. rewrite map_app, run_from_app in Hrun. destruct Hrun as [H0 H1].
  rewrite length_map in H1. rewrite (filter_all_false _ rs0), (filter_all_true _ tail); [done| |].
  - intros r Hr. apply (in_map r_t) in Hr. apply (run_from_In _ _ _ H1) in Hr. unfold in_tx_range. cbn [is_none_or]. rewrite andb_true_r. apply Z.leb_le. lia.
  - intros r Hr. apply (in_map r_t) in Hr. apply (run_from_In _ _ _ H0) in Hr. rewrite length_map in Hr. unfold in_tx_range. apply andb_false_iff. left. apply Z.leb_gt. lia.
Qed.

Lemma replayed_last base rs tail : (replayed base (rs ++ tail)).2 = (fold_left replay_record tail (replayed base rs)).2.
Proof. unfold replayed. by rewrite fold_left_app. Qed.

Lemma stamped_users t i ds d : In d (stamped t i ds) -> is_user (d_e d) = true -> In d ds.
Proof.
  unfold stamped. destruct (is_some _); [done|]. intros [Hd|[<-|[]]]%in_app_iff Hu; [done|].
  unfold tx_instant_datom, is_user in Hu. cbn [d_e] in Hu. apply bool_decide_eq_true in Hu. rewrite partition_new in Hu; [done|by vm_compute].
Qed.

Lemma run_users tail db d : In d (recorded_datoms (run db (map record_commit tail))) ->
  is_user (d_e d) = true -> In d (recorded_datoms db) \/ exists r, In r tail /\ In d (r_datoms r).
Proof.
  revert db. induction tail as [|r tail IH]; intros db Hd Hu; [by left|].
  cbn [map run fold_left record_commit] in Hd. destruct (IH _ Hd Hu) as [H|(r' & ? & ?)]; [|right; exists r'; by split; [right|]].
  rewrite with_transaction_at_recorded in H. apply in_app_iff in H as [H|H]; [by left|right]. exists r. split; [by left|].
  by eapply stamped_users.
Qed.

(** What is read back in every index, and where the next transaction goes on. *)
Record restores (base : Db) (rs : list TxRecord) (st : State) : Prop := {
  re_datoms : forall o, datoms_at (st_db st) o = datoms_at (replayed base rs).1 o;
  re_basis : basis_t (st_db st) = basis_t (replayed base rs).1;
  re_schema : db_schema (st_db st) = db_schema (replayed base rs).1;
  re_last : st_last_instant st = (replayed base rs).2;
  re_users : forall d, In d (recorded_datoms (replayed base rs).1) -> is_user (d_e d) = true -> sequence (d_e d) < st_next_user st;
  re_grants : grant_ceiling (st_db st) (partition_id Partition.User) <= st_next_user st;
}.

(** A root from which the log of a database based on [base] can be resumed after [rs0]. *)
Record resumable (s : S) (base : Db) (root : DbRoot) (rs0 : list TxRecord) : Prop := {
  rm_describes : describes s (replayed base rs0).1 root;
  rm_history : is_some (history_roots root) = true;
  rm_last : last_tx_instant root = (replayed base rs0).2;
  rm_users : forall d, In d (recorded_datoms (replayed base rs0).1) -> is_user (d_e d) = true -> sequence (d_e d) < next_entity_id root;
  rm_facts : one_per_tx (recorded_datoms (replayed base rs0).1);
}.

Lemma load_history_ok s base root rs0 db idents : db = (replayed base rs0).1 -> db_ready db -> resumable s base root rs0 ->
  exists r h, roots root = Some r /\ history_roots root = Some h /\
  load_history_snapshot s root (r_eavt r) (r_eavt h) (db_schema db) idents (db_interner db) = Ok (reopened_history db (next_entity_id root) idents).
Proof.
  intros -> [Hok Hv _] [(Eb & (r & Er & Hr) & Hh) Hs _ _ _]. destruct (history_roots root) as [h|]; [|done]. destruct Hh as [_ Hh].
  exists r, h. split; [done|]. split; [done|]. unfold load_history_snapshot.
  rewrite (load_datoms_ok s (r_eavt r) _ Hok) by exact (Hr Eavt). cbn [mbind result_bind].
  rewrite (load_datoms_ok s (r_eavt h) (history (replayed base rs0).1)); [|by apply with_view_ok|exact (Hh Eavt)]. cbn [mbind result_bind].
  unfold reopened_history. by rewrite Eb.
Qed.

Lemma resume_tail base rs0 tail db0 hint last log : base_ok base -> commit_log base (rs0 ++ tail) -> log_holds log (rs0 ++ tail) -> log_readable log ->
  db_ready db0 -> same_now db0 (replayed base rs0).1 -> basis_t db0 = basis_t (replayed base rs0).1 -> last = (replayed base rs0).2 ->
  (forall d, In d (recorded_datoms (replayed base rs0).1) -> is_user (d_e d) = true -> sequence (d_e d) < hint) ->
  exists log' st', recover_from_snapshot db0 hint last log = (log', Ok st') /\ log_holds log' (rs0 ++ tail) /\ restores base (rs0 ++ tail) st'.
Proof.
  intros Hb Hc Hl Hread Hr' Hs Eb El Hu. destruct (commit_log_ok _ _ Hb Hc) as [Hr _ _].
  destruct (commit_log_ok base rs0 Hb) as [Hr0 Eb0 _]; [by eapply commit_log_prefix; [exact Hc|apply prefix_app_r]|].
  pose proof (commit_log_fits _ _ Hb Hc) as Hf. apply Forall_app in Hf as [_ Hf].
  pose proof (log_numbered _ _ Hl) as Hn. pose proof (tail_range _ _ Hn) as Ht.
  rewrite map_app, run_from_app, length_map in Hn. destruct Hn as [_ Hn].
  destruct (tx_range_all log _ (basis_t db0 + 1) None Hl Hread) as (log' & E & Hl'). rewrite Eb, Eb0, Ht in E.
  destruct (run_ready tail db0 Hr') as [Hready Hbasis]; [by rewrite Eb, Eb0, Z.add_comm|done|].
  destruct (run_ready tail _ Hr0) as [_ Hbasis0]; [by rewrite Eb0, Z.add_comm|done|].
  unfold recover_from_snapshot. rewrite Eb, Eb0, E. cbn [map_err mbind result_bind].
  pose proof (replay_tail_run tail db0 last (Z.max hint FIRST_USER_ID)) as H1.
  pose proof (replay_tail_last tail db0 (replayed base rs0).1 last (Z.max hint FIRST_USER_ID)) as H2.
  pose proof (replay_tail_next tail db0 last (Z.max hint FIRST_USER_ID)) as [H3 H4].
  destruct (fold_left replay_tail tail _) as [[db i] next]. cbn [fst snd] in *. subst db i.
  eexists log', _. split; [done|]. split; [done|]. rewrite El, <- surjective_pairing. rewrite <- replayed_last.
  pose proof (same_now_run _ _ (map record_commit tail) Hs) as Hs'. rewrite <- replayed_run in Hs'.
  split; cbn [fresh_state st_db st_next_user st_last_instant].
  - intros o. apply same_now_datoms; [apply Hready|apply Hr|done].
  - rewrite Hbasis, Eb, replayed_run. done.
  - apply Hs'.
  - done.
  - intros d Hd Hd'. rewrite replayed_run in Hd. unfold floor_past_grants. apply run_users in Hd; [|done].
    destruct Hd as [Hd|(r & Hr1 & Hr2)]; [specialize (Hu d Hd Hd'); lia|]. specialize (H4 r d Hr1 Hr2 Hd'). lia.
  - unfold floor_past_grants. lia.
Qed.

Lemma full_recovery base rs log : base_ok base -> commit_log base rs -> log_holds log rs -> log_readable log ->
  exists log' st', recover_from base log = (log', Ok st') /\ log_holds log' rs /\ restores base rs st'.
Proof.
  intros Hb Hc Hl Hread. destruct (replay_all log rs Hl Hread) as (log' & E & Hl'). exists log', (recover_from_records base rs).
  destruct (recovered_applied base rs Hb Hc) as [Hrec _]. destruct (recovered_floor base rs) as [H1 H2].
  unfold recover_from. rewrite E. cbn [map_err mbind result_bind]. split; [done|]. split; [done|]. split; try rewrite Hrec; done.
Qed.

(** What [recover_transactor] takes a root for: a snapshot it resumes from. *)
Definition resumes (s : S) (schema : Schema) (idents : Idents) (interner : KeywordInterner) (root : option DbRoot) : Prop :=
  exists rt r h db, root = Some rt /\ roots rt = Some r /\ history_roots rt = Some h /\ next_entity_id rt <> 0 /\
  load_history_snapshot s rt (r_eavt r) (r_eavt h) schema idents interner = Ok db.

Lemma opened_base schema idents interner : base_ok (with_naming (db_new schema) idents interner).
Proof.
  pose proof (db_new_ok schema) as [H1 H2 H3 _ _]. unfold with_naming. destruct (install _ _) as [sch ids]. split; [|done].
  split; [|done|done]. split; [exact H1|exact H2|exact H3|done|done].
Qed.

(** C7. Opening a database gives back what its log holds. When the root has no usable
    snapshot the whole log is replayed; when it has one, the snapshot's current and history
    indexes are loaded and only the tail is replayed. Either way every covering index reads
    as after replaying the whole log, the basis, the schema and the last instant are its, and
    allocation starts past its entities and leased blocks. A snapshot that is resumed from
    describes the value after some prefix of the log, is opened under the schema and the
    names that prefix leads to, with its allocation hint past that value's entities, and no
    transaction of the prefix states one fact twice: the history index files the datoms of a
    transaction in the order of the facts, so that an assertion withdrawn by the transaction
    that made it would come back. *)
Theorem recover_transactor_restores s schema idents interner root log rs : let base := with_naming (db_new schema) idents interner in
  commit_log base rs -> log_holds log rs -> log_readable log ->
  (resumes s schema idents interner root -> install_schema schema = schema /\ exists rt rs0 tail, root = Some rt /\ rs = rs0 ++ tail /\
     schema = db_schema (replayed base rs0).1 /\ interner = db_interner (replayed base rs0).1 /\ resumable s base rt rs0) ->
  exists log' st', recover_transactor s schema idents interner root log = (log', Ok st') /\ log_holds log' rs /\ restores base rs st'.
Proof.
  intros base Hc Hl Hread Hroot. assert (Hb : base_ok base) by apply opened_base. pose proof (full_recovery base rs log Hb Hc Hl Hread) as Hfull. unfold recover_transactor. fold base.
  destruct root as [rt|]; [|exact Hfull]. destruct (roots rt) as [r|] eqn:Er; [|exact Hfull].
  destruct (history_roots rt) as [h|] eqn:Eh; [|exact Hfull]. destruct (Z.eqb_spec (next_entity_id rt) 0) as [|Hn]; [exact Hfull|].
  destruct (load_history_snapshot s rt (r_eavt r) (r_eavt h) schema idents interner) as [db|] eqn:Eload; [|exact Hfull]. clear Hfull.
  destruct Hroot as (Hi & rt' & rs0 & tail & [= <-] & -> & Es & Ei & Hres); [by exists rt, r, h, db|].
  destruct (commit_log_ok base rs0 Hb) as [Hr0 Eb0 _]; [by eapply commit_log_prefix; [exact Hc|apply prefix_app_r]|].
  destruct (load_history_ok s base rt rs0 _ idents eq_refl Hr0 Hres) as (r' & h' & Er' & Eh' & E).
  rewrite <- Es, <- Ei in E. assert (r' = r) as -> by congruence. assert (h' = h) as -> by congruence. rewrite E in Eload. injection Eload as <-.
  rewrite Es in Hi. destruct Hr0 as [H1 H2 H3]. apply (resume_tail base rs0 tail); try done.
  - split; [by apply reopened_history_ok|done|exact H3].
  - apply reopened_history_now; [done|done|done|apply Hres].
  - apply Hres.
  - apply Hres.
Qed.
End recovery.

(** ** Samples *)

#[local] Existing Instance list_rpds.
#[local] Existing Instance list_rpds_laws.
#[local] Existing Instance castagnoli.
#[local] Existing Instance mixing_crypto.

Definition opened_schema : Schema := install_schema sample_schema.
Definition opened_db : Db := with_naming (db_new opened_schema) idents_default interner_default.
Definition record1 : TxRecord := mk_tx_record 1 1000 (sample_tx1 ++ [tx_instant_datom 1 1000]).
Definition record2 : TxRecord := mk_tx_record 2 2000 (sample_tx2 ++ [tx_instant_datom 2 2000]).
Definition opened1 : State := recover_from_records opened_db [record1].
Notation published1 := (publish_indexes [no_act] [] opened1 empty_pass "db:a" 1).
Definition opened_store : MemoryStore := match published1 with Some (p, _) => ps_store p | None => mk_memory [] [] end.
Definition opened_root : option DbRoot := match published1 with Some (_, Ok root) => Some root | _ => None end.

Lemma opened_log : commit_log opened_db [record1; record2].
Proof.
  apply (commit_log_snoc _ [record1]); [apply (commit_log_snoc _ []); [constructor|by vm_compute|]|by vm_compute|].
  - split; [by vm_compute|by vm_compute|by vm_compute|left; by vm_compute|]. apply tx_ok_app; [apply sample_tx1_ok|apply tx_instant_ok; by vm_compute].
  - split; [by vm_compute|by vm_compute|by vm_compute|left; by vm_compute|]. apply tx_ok_app; [apply sample_tx2_ok|apply tx_instant_ok; by vm_compute].
Qed.

Definition loads_as (s : MemoryStore) (id : BlobId) (keys : list bytes) : bool :=
  match load_index_keys s id with Ok ks => bool_decide (ks = keys) | Err _ => false end.

Lemma loads_as_ok s id keys : loads_as s id keys = true -> load_index_keys s id = Ok keys.
Proof. unfold loads_as. destruct (load_index_keys s id); [|done]. by intros ->%bool_decide_eq_true. Qed.

Definition describes_b (s : MemoryStore) (db : Db) (root : DbRoot) : bool :=
  (index_basis_t root =? basis_t db) && complete_history db &&
  match roots root, history_roots root with
  | Some r, Some h => forallb (fun o => loads_as s (slot r o) (index_keys db o) && loads_as s (slot h o) (index_keys (history db) o)) ORDERS
  | _, _ => false
  end.

Lemma describes_b_ok s db root : describes_b s db root = true -> describes s db root /\ is_some (history_roots root) = true.
Proof.
  unfold describes_b, describes. rewrite !andb_true_iff. intros [[Hb Hc] H]. apply Z.eqb_eq in Hb.
  destruct (roots root) as [r|]; [|done]. destruct (history_roots root) as [h|]; [|done]. rewrite forallb_forall in H.
  assert (Ho : forall o, In o ORDERS) by (intros []; vm_compute; auto 10).
  split; [|done]. split; [done|]. split.
  - exists r. split; [done|]. intros o. specialize (H o (Ho o)). apply andb_true_iff in H as [H _]. by apply loads_as_ok.
  - split; [done|]. intros o. specialize (H o (Ho o)). apply andb_true_iff in H as [_ H]. by apply loads_as_ok.
Qed.

Definition users_below (n : Z) (ds : list Datom) : bool := forallb (fun d => implb (is_user (d_e d)) (sequence (d_e d) <? n)) ds.

Lemma opened_resumable root : opened_root = Some root -> resumable opened_store opened_db root [record1].
Proof.
  intros E. assert (H : match opened_root with
    | Some root => describes_b opened_store (replayed opened_db [record1]).1 root && (last_tx_instant root =? (replayed opened_db [record1]).2) &&
        users_below (next_entity_id root) (recorded_datoms (replayed opened_db [record1]).1)
    | None => false end = true) by (vm_compute; reflexivity).
  rewrite E, !andb_true_iff in H. destruct H as [[H1 H2] H3]. apply describes_b_ok in H1 as [H1 Hh]. apply Z.eqb_eq in H2.
  split; [exact H1|exact Hh|exact H2| |].
  - intros d Hd Hu. unfold users_below in H3. rewrite forallb_forall in H3. specialize (H3 d Hd). rewrite Hu in H3. by apply Z.ltb_lt.
  - assert (Er : recorded_datoms (replayed opened_db [record1]).1 = sample_tx1 ++ [tx_instant_datom 1 1000]) by (vm_compute; reflexivity).
    rewrite Er. repeat (constructor; try (split; [by vm_compute|intros E1; vm_compute in E1; congruence])).
Qed.

Lemma opened_held : log_holds [record1; record2] [record1; record2].
Proof. split; [done|]. repeat split. Qed.

Lemma opened_schema_kept : install_schema opened_schema = opened_schema /\
  opened_schema = db_schema (replayed opened_db [record1]).1 /\ interner_default = db_interner (replayed opened_db [record1]).1.
Proof. split; [vm_compute; reflexivity|]. split; vm_compute; reflexivity. Qed.

(** A database opened_db from a snapshot of its first transaction. *)
Lemma recover_transactor_restores_witness : exists root (log' : list TxRecord) st', opened_root = Some root /\ next_entity_id root <> 0 /\
  recover_transactor opened_store opened_schema idents_default interner_default (Some root) [record1; record2] = (log', Ok st') /\
  forall o, datoms_at (st_db st') o = datoms_at (replayed opened_db [record1; record2]).1 o.
Proof.
  assert (Hh : match opened_root with Some r => negb (next_entity_id r =? 0) | None => false end = true) by (vm_compute; reflexivity).
  destruct opened_root as [root|] eqn:E; [|done]. apply negb_true_iff, Z.eqb_neq in Hh.
  pose proof (recover_transactor_restores opened_store opened_schema idents_default interner_default (Some root) [record1; record2] [record1; record2] 
    opened_log opened_held I) as H.
  destruct H as (log' & st' & E1 & _ & Hr).
  - intros _. destruct opened_schema_kept as (H1 & H2 & H3). split; [exact H1|]. exists root, [record1], [record2].
    exact (conj eq_refl (conj eq_refl (conj H2 (conj H3 (opened_resumable root E))))).
  - exists root, log', st'. split; [reflexivity|]. split; [exact Hh|]. split; [exact E1|exact (re_datoms _ _ _ Hr)].
Defined.
