(* ===== verification/Lease.v ===== *)
(** * Write leases (corium-transactor/src/lease.rs, node.rs)

    The lease is part of the root record, and every change of it is a compare-and-swap of
    that record. What other processes do between the read and the swap of a round is an
    argument, one act per round; [None] when the acts run out with every swap lost.

    The version is a [u64] and the expiry an [i64]. The source adds to both with [+], which
    panics on overflow in a build that checks it: [LeaseError.Panic]. A build that does not
    check wraps there. *)

From stdpp Require Import base list strings sorting.
From Stdlib Require Import ZArith Lia.
From S2P Require Import Prelude OrdMap Machine Keyword Text Crypt LogRecord Stores.
Local Open Scope Z_scope.

Definition lease_root (db : string) : string := "lease:" +:+ db.

Record Lease := mk_lease {
  ls_owner : string;
  ls_version : Z;
  ls_expires_unix_ms : Z;
  ls_endpoint : string }.

Module LeaseError.
Inductive LeaseError :=
| Held (owner : string) (expires_unix_ms : Z)
| Lost
| Store (e : StoreError)
| Panic.
End LeaseError.
Notation LeaseError := LeaseError.LeaseError.

(** The failures of the node that the operations here return. *)
Module NodeError.
Inductive NodeError :=
| UnknownDb (name : string)
| Deposed (name : string)
| Lease (e : LeaseError)
| Store (e : StoreError).
End NodeError.
Notation NodeError := NodeError.NodeError.

Definition decode_legacy (l : bytes) : option (string * Z * Z) :=
  if negb (utf8_valid l) then None
  else
    match lines (of_bytes l) with
    | owner :: version :: expiry :: _ =>
        version ← parse_u64 version; expiry ← parse_i64 expiry; Some (owner, version, expiry)
    | _ => None
    end.

Definition holder (root : option DbRoot) (legacy : option (string * Z * Z)) : string * Z * Z :=
  match root with
  | Some root =>
      if negb (str_is_empty (owner root)) then (owner root, lease_version root, lease_expires_unix_ms root)
      else
        match legacy with
        | Some (owner, version, expiry) => (owner, Z.max version (lease_version root), expiry)
        | None => (EmptyString, lease_version root, 0)
        end
  | None =>
      match legacy with
      | Some (owner, version, expiry) => (owner, version, expiry)
      | None => (EmptyString, 0, 0)
      end
  end.

(** [+] on [u64] and on [i64]. *)
Definition add_u64 (x y : Z) : result LeaseError Z := if x + y <? 2 ^ 64 then Ok (x + y) else Err LeaseError.Panic.
Definition add_i64 (x y : Z) : result LeaseError Z := ok_or (checked_add_i64 x y) LeaseError.Panic.

(** What a round of [acquire] does with the records it read: refuse, or swap this in. *)
Definition acquire_decision (current : option DbRoot) (legacy : option (string * Z * Z)) (own endpoint : string) (ttl_ms now_unix_ms : Z)
    : result LeaseError DbRoot :=
  let '(cur_owner, cur_version, cur_expiry) := holder current legacy in
  version ←
    (if negb (str_is_empty cur_owner) && bool_decide (cur_owner = own) then Ok cur_version
     else if now_unix_ms <? cur_expiry then Err (LeaseError.Held cur_owner cur_expiry)
     else add_u64 cur_version 1);
  expires ← add_i64 now_unix_ms ttl_ms;
  Ok (mk_root FORMAT_VERSION version own expires endpoint
    (match current with Some r => index_basis_t r | None => 0 end)
    (current ≫= roots) (current ≫= history_roots)
    (match current with Some r => next_entity_id r | None => 0 end)
    (match current with Some r => last_tx_instant r | None => i64_MIN end)
    (match current with Some r => key_manifest_version r | None => 0 end)).

(** [Err Lost] unless the record is this lease's. *)
Definition held_root (current : option DbRoot) (held : Lease) : result LeaseError DbRoot :=
  match current with
  | Some root =>
      if negb (bool_decide (owner root = ls_owner held)) || negb (lease_version root =? ls_version held) then Err LeaseError.Lost
      else Ok root
  | None => Err LeaseError.Lost
  end.

Definition renew_decision (current : option DbRoot) (held : Lease) (ttl_ms now_unix_ms : Z) : result LeaseError DbRoot :=
  root ← held_root current held;
  expires ← add_i64 now_unix_ms ttl_ms;
  Ok (mk_root (format_version root) (lease_version root) (owner root) expires (ls_endpoint held)
    (index_basis_t root) (roots root) (history_roots root) (next_entity_id root) (last_tx_instant root) (key_manifest_version root)).

Definition release_decision (current : option DbRoot) (held : Lease) : result LeaseError DbRoot :=
  root ← held_root current held;
  Ok (mk_root (format_version root) (lease_version root) (owner root) 0 (owner_endpoint root)
    (index_basis_t root) (roots root) (history_roots root) (next_entity_id root) (last_tx_instant root) (key_manifest_version root)).

Definition bump_root (root : DbRoot) : DbRoot :=
  mk_root (format_version root) (lease_version root) (owner root) (lease_expires_unix_ms root) (owner_endpoint root)
    (index_basis_t root) (roots root) (history_roots root) (next_entity_id root) (last_tx_instant root)
    (saturating_add_u64 (key_manifest_version root) 1).

Section leases.
Context {S : Type} `{RS : RootStore S}.

(** Read, decide, swap, until the swap is not lost. A decision carries what the end of the
    round still needs of what was read. *)
Fixpoint cas_loop {A B} (acts : list (S -> S)) (s : S) (name : string)
    (decision : S -> option bytes -> result LeaseError (DbRoot * B)) (swapped : S -> DbRoot -> B -> S * A) : option (S * result LeaseError A) :=
  match acts with
  | [] => None
  | act :: acts =>
      match get_root s name with
      | Err e => Some (s, Err (LeaseError.Store e))
      | Ok current =>
          match decision s current with
          | Err e => Some (s, Err e)
          | Ok (next, b) =>
              match cas_root (act s) name current (root_encode next) with
              | (s, Ok _) => let (s, a) := swapped s next b in Some (s, Ok a)
              | (s, Err (StoreError.CasFailed _ _)) => cas_loop acts s name decision swapped
              | (s, Err e) => Some (s, Err (LeaseError.Store e))
              end
          end
      end
  end.

Definition legacy_of (s : S) (db : string) : result LeaseError (option (string * Z * Z)) :=
  b ← map_err LeaseError.Store (get_root s (lease_root db)); Ok (b ≫= decode_legacy).

Definition acquire (acts : list (S -> S)) (s : S) (db own endpoint : string) (ttl_ms now_unix_ms : Z)
    : option (S * result LeaseError Lease) :=
  cas_loop acts s (db_root_name db)
    (fun s current =>
       legacy ← legacy_of s db;
       next ← acquire_decision (current ≫= root_decode) legacy own endpoint ttl_ms now_unix_ms;
       Ok (next, legacy))
    (fun s next legacy =>
       (if is_some legacy then (delete_root s (lease_root db)).1 else s,
        mk_lease own (lease_version next) (lease_expires_unix_ms next) endpoint)).

Definition renew (acts : list (S -> S)) (s : S) (db : string) (held : Lease) (ttl_ms now_unix_ms : Z)
    : option (S * result LeaseError Lease) :=
  cas_loop acts s (db_root_name db)
    (fun _ current => next ← renew_decision (current ≫= root_decode) held ttl_ms now_unix_ms; Ok (next, tt))
    (fun s next _ => (s, mk_lease (ls_owner held) (ls_version held) (lease_expires_unix_ms next) (ls_endpoint held))).

Definition verify (s : S) (db : string) (held : Lease) : result LeaseError unit :=
  b ← map_err LeaseError.Store (get_root s (db_root_name db));
  _ ← held_root (b ≫= root_decode) held; Ok tt.

Definition release (acts : list (S -> S)) (s : S) (db : string) (held : Lease) : option (S * result LeaseError unit) :=
  cas_loop acts s (db_root_name db)
    (fun _ current => next ← release_decision (current ≫= root_decode) held; Ok (next, tt)) (fun s _ _ => (s, tt)).

(** [bump_key_manifest_version] (node.rs), over what happens before the swap of each of its
    attempts; the last attempt returns its failure. *)
Fixpoint bump_attempts (act : S -> S) (acts : list (S -> S)) (s : S) (db : string) : S * result NodeError Z :=
  match get_root s (db_root_name db) with
  | Err e => (s, Err (NodeError.Store e))
  | Ok stored =>
      match stored ≫= root_decode with
      | None => (s, Err (NodeError.UnknownDb db))
      | Some root =>
          let root := bump_root root in
          match cas_root (act s) (db_root_name db) stored (root_encode root) with
          | (s, Ok _) => (s, Ok (key_manifest_version root))
          | (s, Err e) =>
              match e, acts with
              | StoreError.CasFailed _ _, act :: acts => bump_attempts act acts s db
              | _, _ => (s, Err (NodeError.Store e))
              end
          end
      end
  end.

Definition bump_key_manifest_version (act1 act2 act3 act4 act5 : S -> S) (s : S) (db : string) : S * result NodeError Z :=
  bump_attempts act1 [act2; act3; act4; act5] s db.
End leases.
