(* ===== verification/LeaseTheorems.v ===== *)
(** * One writer per lease version

    Any number of processes acquire, renew, release and publish over one root record, each
    reading it and swapping later. Grants of a version go to one owner, and a writer whose
    version was passed cannot verify its lease again. *)

From stdpp Require Import base list strings sorting relations.
From Stdlib Require Import ZArith Lia.
From S2P Require Import Prelude OrdMap Machine Text Keyword Values Encoding Datoms Segment Schema.
From S2P Require Import Bootstrap SchemaDatoms Db Tx Crypt LogRecord Stores StoreFacts.
From S2P Require Import Snapshot Transactor Publish PublishFence Lease.
Local Open Scope Z_scope.

(** ** Numbers in range *)

Lemma parse_digits_range max s : forall acc v, 0 <= acc <= max -> parse_digits max s acc = Some v -> 0 <= v <= max.
Proof.
  induction s as [|c s IH]; intros acc v Ha; cbn [parse_digits]; [by intros [= <-]|].
  unfold dec_value. destruct (Machine.in_range 48 57 (ascii_byte c)) eqn:E; [|done]. cbn [mbind option_bind].
  destruct (Z.ltb_spec max (10 * acc + (ascii_byte c - 48))); [done|]. apply IH.
  unfold Machine.in_range in E. apply andb_true_iff in E as [E1%Z.leb_le E2%Z.leb_le]. lia.
Qed.

Lemma parse_u64_range s v : parse_u64 s = Some v -> u64 v.
Proof.
  unfold parse_u64, parse_unsigned, u64. destruct s as [|c s]; [done|]. intros H. cut (0 <= v <= 2 ^ 64 - 1); [lia|].
  destruct (bool_decide _) in H; [destruct (str_is_empty s) in H; [done|]|]; (eapply parse_digits_range; [|exact H]; lia).
Qed.

Section leases.
Context {S : Type} {RS : RootStore S} {RL : RootStoreLaws RS} (db : string).
Notation name := (db_root_name db).

(** ** Processes over one record *)

(** A swap a process has decided on: what it read, what it would install, and the lease it
    would hold. *)
Record pending := mk_swap { pd_expected : option bytes; pd_next : DbRoot; pd_grant : option Lease }.

(** The store, the swaps decided on, and every lease granted so far. *)
Notation system := (S * list pending * list Lease)%type.

Definition grant_of (next : DbRoot) (endpoint : string) : Lease :=
  mk_lease (owner next) (lease_version next) (lease_expires_unix_ms next) endpoint.

Definition with_grant (p : pending) (gs : list Lease) : list Lease :=
  match pd_grant p with Some l => l :: gs | None => gs end.

Inductive lstep : system -> system -> Prop :=
| l_acquire s ps gs b legacy own endpoint ttl now next : own <> EmptyString -> root_wf next ->
    get_root s name = Ok b -> acquire_decision (b ≫= root_decode) legacy own endpoint ttl now = Ok next ->
    lstep (s, ps, gs) (s, mk_swap b next (Some (grant_of next endpoint)) :: ps, gs)
| l_renew s ps gs b held ttl now next : In held gs -> root_wf next ->
    get_root s name = Ok b -> renew_decision (b ≫= root_decode) held ttl now = Ok next ->
    lstep (s, ps, gs) (s, mk_swap b next (Some (grant_of next (ls_endpoint held))) :: ps, gs)
| l_release s ps gs b held next : In held gs -> root_wf next ->
    get_root s name = Ok b -> release_decision (b ≫= root_decode) held = Ok next ->
    lstep (s, ps, gs) (s, mk_swap b next None :: ps, gs)
| l_publish s ps gs b held root pinned next : In held gs -> root_wf next -> lease_version root = ls_version held ->
    get_root s name = Ok b -> publish_decision (b ≫= root_decode) root pinned = inr next ->
    lstep (s, ps, gs) (s, mk_swap b next None :: ps, gs)
| l_bump s ps gs b root : root_wf (bump_root root) -> get_root s name = Ok b -> b ≫= root_decode = Some root ->
    lstep (s, ps, gs) (s, mk_swap b (bump_root root) None :: ps, gs)
| l_swap s ps gs p s' : In p ps -> cas_root s name (pd_expected p) (root_encode (pd_next p)) = (s', Ok tt) ->
    lstep (s, ps, gs) (s', ps, with_grant p gs)
| l_swap_failed s ps gs p s' e : In p ps -> cas_root s name (pd_expected p) (root_encode (pd_next p)) = (s', Err e) ->
    lstep (s, ps, gs) (s', ps, gs)
| l_other s ps gs s' : record_of s' name = record_of s name -> lstep (s, ps, gs) (s', ps, gs).

(** ** The invariant *)

Definition readable (b : option bytes) : Prop := forall l, b = Some l -> exists r, l = root_encode r /\ root_wf r.

Lemma readable_decode b l : readable b -> b = Some l -> exists r, b ≫= root_decode = Some r /\ l = root_encode r /\ root_wf r.
Proof. intros H ->. destruct (H l eq_refl) as (r & -> & Hr). exists r. split; [by apply root_decode_encode|done]. Qed.

Definition granted_under (b : option bytes) (l : Lease) : Prop :=
  ls_owner l <> EmptyString /\ exists r, b ≫= root_decode = Some r /\
  (ls_version l < lease_version r \/ (ls_version l = lease_version r /\ ls_owner l = owner r)).

(** How the lease fields of the record may change. *)
Inductive lease_change (gs : list Lease) (old : option DbRoot) (next : DbRoot) : option Lease -> Prop :=
| change_acquire l : ls_owner l = owner next -> ls_version l = lease_version next -> owner next <> EmptyString ->
    (forall o, old = Some o -> lease_version o < lease_version next \/
       (lease_version o = lease_version next /\ owner o = owner next) \/
       (owner o = EmptyString /\ lease_version o <= lease_version next)) ->
    lease_change gs old next (Some l)
| change_keep o g : old = Some o -> lease_version next = lease_version o -> owner next = owner o ->
    (forall l, g = Some l -> ls_owner l = owner next /\ ls_version l = lease_version next /\ owner next <> EmptyString) ->
    lease_change gs old next g
| change_publish held : In held gs -> ls_version held = lease_version next ->
    (forall o, old = Some o -> lease_version o < lease_version next) -> lease_change gs old next None.

Record lease_inv (x : system) : Prop := {
  li_record : readable (record_of x.1.1 name);
  li_granted : forall l, In l x.2 -> granted_under (record_of x.1.1 name) l;
  li_unique : forall l l', In l x.2 -> In l' x.2 -> ls_version l = ls_version l' -> ls_owner l = ls_owner l';
  li_pending : forall p, In p x.1.2 -> readable (pd_expected p) /\ root_wf (pd_next p) /\
    lease_change x.2 (pd_expected p ≫= root_decode) (pd_next p) (pd_grant p);
}.

Lemma lease_change_more gs gs' old next g : (forall l, In l gs -> In l gs') -> lease_change gs old next g -> lease_change gs' old next g.
Proof.
  intros Hsub [l H1 H2 H3 H4|o g' H1 H2 H3 H4|held H1 H2 H3].
  - by apply change_acquire.
  - by eapply change_keep.
  - eapply change_publish; [by apply Hsub|done|done].
Qed.

(** ** Decisions are lease changes *)

Lemma add_u64_ok x y z : add_u64 x y = Ok z -> z = x + y /\ z < 2 ^ 64.
Proof. unfold add_u64. destruct (Z.ltb_spec (x + y) (2 ^ 64)); [|done]. by intros [= <-]. Qed.

Lemma add_i64_ok x y z : add_i64 x y = Ok z <-> z = x + y /\ i64 z.
Proof.
  unfold add_i64, checked_add_i64, i64. destruct (Z.leb_spec (- 2 ^ 63) (x + y)), (Z.ltb_spec (x + y) (2 ^ 63)); cbn [andb ok_or];
    (split; [intros H1; try done; by injection H1 as <-|intros [-> ?]; done || lia]).
Qed.

Lemma str_is_empty_iff s : str_is_empty s = true <-> s = EmptyString.
Proof. by destruct s. Qed.

Lemma acquire_change gs old legacy own endpoint ttl now next : own <> EmptyString ->
  acquire_decision old legacy own endpoint ttl now = Ok next ->
  lease_change gs old next (Some (grant_of next endpoint)).
Proof.
  intros Hown. unfold acquire_decision. destruct (holder old legacy) as [[co cv] ce] eqn:Hh. intros H.
  apply bind_ok in H as (v & Hv & H). apply bind_ok in H as (x & _ & [= <-]). apply change_acquire; cbn [grant_of ls_owner ls_version owner lease_version]; try done.
  intros o ->. unfold holder in Hh. destruct (str_is_empty (owner o)) eqn:Ee; cbn [negb] in Hh.
  - apply str_is_empty_iff in Ee. right. right. split; [done|].
    assert (lease_version o <= cv) by (destruct legacy as [[[lo lv] le]|]; injection Hh as <- <- <-; lia).
    destruct (_ && _)%bool in Hv; [by injection Hv as <-|]. destruct (_ <? _) in Hv; [done|]. apply add_u64_ok in Hv. lia.
  - injection Hh as <- <- <-. rewrite Ee in Hv. cbn [negb andb] in Hv. case_bool_decide as Eo.
    + injection Hv as <-. right. left. done.
    + destruct (_ <? _) in Hv; [done|]. apply add_u64_ok in Hv. left. lia.
Qed.

Lemma held_root_ok old held r : held_root old held = Ok r -> old = Some r /\ owner r = ls_owner held /\ lease_version r = ls_version held.
Proof.
  unfold held_root. destruct old as [o|]; [|done]. destruct (bool_decide _) eqn:E1; [|done]. destruct (Z.eqb_spec (lease_version o) (ls_version held)); [|done].
  cbn. intros [= <-]. by apply bool_decide_eq_true in E1.
Qed.

Lemma publish_change gs old root pinned next held : In held gs -> lease_version root = ls_version held ->
  publish_decision old root pinned = inr next -> lease_change gs old next None.
Proof.
  intros Hin Hl Hd. pose proof (decision_installs old root pinned next Hd) as (_ & Hf & Hp). destruct Hp as (Hv & _).
  destruct old as [o|]; [|eapply change_publish; [exact Hin|congruence|done]].
  destruct Hf as (Hle & Hsame & _). destruct (decide (lease_version o = lease_version next)) as [E|E].
  - destruct (Hsame E) as (_ & Ho & _). by apply (change_keep _ _ _ o).
  - eapply change_publish; [exact Hin|congruence|]. intros o' [= <-]. lia.
Qed.

(** ** Every step keeps the invariant *)

Hypothesis Hname : nameable name.

Lemma read_record s b : get_root s name = Ok b -> b = record_of s name.
Proof. intros H. by apply (get_root_ok s name b Hname). Qed.

Lemma decided_inv s ps gs b next g : lease_inv (s, ps, gs) -> get_root s name = Ok b -> root_wf next ->
  lease_change gs (b ≫= root_decode) next g -> lease_inv (s, mk_swap b next g :: ps, gs).
Proof.
  intros [H1 H2 H3 H4] Hb Hw Hc. split; [done|done|done|]. cbn [fst snd] in *. intros p [<-|Hp]; [|by apply H4].
  split_and!; [|done|done]. cbn [pd_expected]. by rewrite (read_record s b Hb).
Qed.

Definition under (r : DbRoot) (l : Lease) : Prop :=
  ls_version l < lease_version r \/ (ls_version l = lease_version r /\ ls_owner l = owner r).

(** A lease granted under the record stays so under its replacement, and shares its version
    with a new grant only if it is of the same owner. *)
Lemma change_under gs r next g l : lease_change gs (Some r) next g -> (forall held, In held gs -> ls_version held <= lease_version r) ->
  ls_owner l <> EmptyString -> under r l ->
  under next l /\ forall g', g = Some g' -> ls_version l = ls_version g' -> ls_owner l = ls_owner g'.
Proof.
  unfold under. intros Hc Hheld Hne Hl.
  inversion Hc as [g1 Ho Hv Hn Hcase Eg|o g1 Eo Hv Ho Hg Eg|held Hin Hv Hlt Eg]; subst.
  - assert (Hx : ls_version l < lease_version next \/ (ls_version l = lease_version next /\ ls_owner l = owner next)).
    { destruct (Hcase r eq_refl) as [Hlt|[[Ev Eo]|[Ee Hle]]]; [left; lia| |].
      - destruct Hl as [?|[? ?]]; [left; lia|right; split; [lia|congruence]].
      - destruct Hl as [?|[? E]]; [left; lia|]. by rewrite Ee in E. }
    split; [done|]. intros g' [= <-] E. destruct Hx as [Hx|[_ Hx]]; [lia|congruence].
  - injection Eo as <-. split; [by rewrite Hv, Ho|]. intros g' E' E. destruct (Hg g' E') as (Hgo & Hgv & _).
    rewrite Hgo, Ho. destruct Hl as [?|[_ ?]]; [lia|done].
  - exfalso. specialize (Hlt r eq_refl). specialize (Hheld held Hin). lia.
Qed.

Lemma change_grant gs old next g l : lease_change gs old next g -> g = Some l -> ls_owner l <> EmptyString /\ under next l.
Proof.
  unfold under. intros [l' Ho Hv Hn _|o g' _ _ _ Hg|held _ _ _] E; [injection E as <-|destruct (Hg l E) as (Ho & Hv & Hn)|done];
    (split; [congruence|right; done]).
Qed.

(** The record after a swap, when the one before it was the expected one. *)
Lemma swapped_inv s s' ps gs p : lease_inv (s, ps, gs) -> In p ps -> record_of s name = pd_expected p ->
  record_of s' name = Some (root_encode (pd_next p)) ->
  lease_inv (s', ps, gs) /\ lease_inv (s', ps, with_grant p gs).
Proof.
  intros [H1 H2 H3 H4] Hp Hold Hnew. cbn [fst snd] in *. destruct (H4 p Hp) as (Hr & Hw & Hc).
  assert (Hdec : record_of s' name ≫= root_decode = Some (pd_next p)) by (rewrite Hnew; by apply root_decode_encode).
  assert (Hread : readable (record_of s' name)) by (rewrite Hnew; intros l [= <-]; by exists (pd_next p)).
  assert (Hsub : forall l, In l gs -> In l (with_grant p gs)) by (unfold with_grant; destruct (pd_grant p); [by right|done]).
  assert (Hpend : forall q, In q ps -> readable (pd_expected q) /\ root_wf (pd_next q) /\
    lease_change (with_grant p gs) (pd_expected q ≫= root_decode) (pd_next q) (pd_grant q)).
  { intros q Hq. destruct (H4 q Hq) as (? & ? & ?). split_and!; [done|done|by eapply lease_change_more]. }
  assert (Hbefore : forall l, In l gs -> granted_under (record_of s' name) l /\
    (forall g, pd_grant p = Some g -> ls_version l = ls_version g -> ls_owner l = ls_owner g)).
  { intros l Hl. destruct (H2 l Hl) as (Hne & r & Er & Hlr). rewrite Hold in Er. rewrite Er in Hc.
    destruct (change_under gs r (pd_next p) (pd_grant p) l Hc) as [Hu Hg]; [|done|done|split; [split; [done|]; by exists (pd_next p)|done]].
    intros held Hin. destruct (H2 held Hin) as (_ & r' & Er' & Hle). rewrite Hold, Er in Er'. injection Er' as <-. lia. }
  split; split; cbn [fst snd]; try done.
  - intros l Hl. by apply Hbefore.
  - intros l Hl. unfold with_grant in Hl. destruct (pd_grant p) as [g|] eqn:Eg; [|by apply Hbefore].
    destruct Hl as [<-|Hl]; [|by apply Hbefore]. destruct (change_grant _ _ _ _ g Hc eq_refl) as [Hne Hu].
    split; [done|]. by exists (pd_next p).
  - intros l l' Hl Hl' E. unfold with_grant in Hl, Hl'. destruct (pd_grant p) as [g|] eqn:Eg; [|by apply H3].
    destruct Hl as [<-|Hl], Hl' as [<-|Hl']; [done| |by apply (Hbefore l Hl)|by apply H3].
    symmetry. by apply (Hbefore l' Hl').
Qed.

Lemma same_record_inv s s' ps gs : lease_inv (s, ps, gs) -> record_of s' name = record_of s name -> lease_inv (s', ps, gs).
Proof. intros [H1 H2 H3 H4] E. split; cbn [fst snd] in *; rewrite ?E; done. Qed.

Lemma lstep_inv x y : lease_inv x -> lstep x y -> lease_inv y.
Proof.
  intros Hx Hstep. destruct Hstep as [s ps gs b legacy own endpoint ttl now next Hown Hw Hb Hd|s ps gs b held ttl now next Hin Hw Hb Hd
    |s ps gs b held next Hin Hw Hb Hd|s ps gs b held root pinned next Hin Hw Hl Hb Hd|s ps gs b root Hw Hb Hd
    |s ps gs p s' Hp Hc|s ps gs p s' e Hp Hc|s ps gs s' E].
  - apply decided_inv; [done..|]. by eapply acquire_change.
  - apply decided_inv; [done..|]. apply bind_ok in Hd as (r & Hr & Hd). apply bind_ok in Hd as (x & _ & [= <-]).
    apply held_root_ok in Hr as (-> & Ho & Hv). apply (change_keep _ _ _ r); [done|done|done|]. intros l [= <-]. split_and!; [done|done|]. cbn [owner]. rewrite Ho.
    by apply (li_granted _ Hx).
  - apply decided_inv; [done..|]. apply bind_ok in Hd as (r & Hr & [= <-]). apply held_root_ok in Hr as (-> & Ho & Hv).
    by apply (change_keep _ _ _ r).
  - apply decided_inv; [done..|]. by eapply publish_change.
  - apply decided_inv; [done..|]. rewrite Hd. by apply (change_keep _ _ _ root).
  - pose proof (cas_root_ok s name (pd_expected p) (root_encode (pd_next p)) Hname) as H. rewrite Hc in H. destruct H as [Hold Hinst].
    apply (swapped_inv s s' ps gs p); [done|done|done|]. unfold record_of. rewrite Hinst by done. by rewrite bool_decide_true.
  - pose proof (cas_root_ok s name (pd_expected p) (root_encode (pd_next p)) Hname) as H. rewrite Hc in H.
    assert (Hcases : (forall n, nameable n -> om_get n (store_roots s') = om_get n (store_roots s)) \/
      (om_get name (store_roots s) = pd_expected p /\ record_of s' name = Some (root_encode (pd_next p)))).
    { assert (Hinst : (forall n, nameable n -> om_get n (store_roots s') =
        if bool_decide (n = name) then Some (root_encode (pd_next p)) else om_get n (store_roots s)) ->
        record_of s' name = Some (root_encode (pd_next p))).
      { intros Hi. unfold record_of. rewrite Hi by done. by rewrite bool_decide_true. }
      destruct e; naive_solver. }
    destruct Hcases as [Hsame|[Hold Hnew]]; [|by apply (swapped_inv s s' ps gs p)].
    apply (same_record_inv s); [done|]. by apply Hsame.
  - by apply (same_record_inv s).
Qed.

Lemma reachable_lease s0 x : readable (record_of s0 name) -> rtc lstep (s0, [], []) x -> lease_inv x.
Proof.
  intros H0. apply rtc_ind_r; [|intros y z _ Hs Hy; by eapply lstep_inv]. split; cbn [fst snd]; [done|by intros l []|by intros l l' []|by intros p []].
Qed.

Lemma verify_ok s l : verify s db l = Ok tt ->
  exists r, record_of s name ≫= root_decode = Some r /\ owner r = ls_owner l /\ lease_version r = ls_version l.
Proof.
  unfold verify. intros H. apply bind_ok in H as (b & Hb & H). apply map_err_ok in Hb. apply bind_ok in H as (r & Hr & _).
  apply held_root_ok in Hr. rewrite (read_record s b Hb) in Hr. eauto.
Qed.

(** C11. One writer per lease version. However processes read and swap the record, also
    through swaps that report a failure after they took effect, the leases ever granted under
    one version have one owner; a lease verifies only while it is the newest granted, so that
    once another owner's lease was granted the deposed writer never verifies again; and a
    publication of a deposed writer is refused. *)
Theorem lease_exclusive s0 s ps gs : readable (record_of s0 name) -> rtc lstep (s0, [], []) (s, ps, gs) ->
  (forall l l', In l gs -> In l' gs -> ls_version l = ls_version l' -> ls_owner l = ls_owner l') /\
  (forall l l', verify s db l = Ok tt -> In l' gs ->
     ls_version l' < ls_version l \/ (ls_version l' = ls_version l /\ ls_owner l' = ls_owner l)) /\
  (forall l root pinned, In l gs -> lease_version root = ls_version l -> (exists l', In l' gs /\ ls_version l < ls_version l') ->
     forall next, publish_decision (record_of s name ≫= root_decode) root pinned <> inr next).
Proof.
  intros H0 Hr. destruct (reachable_lease s0 _ H0 Hr) as [H1 H2 H3 H4]. cbn [fst snd] in *. split_and!; [done| |].
  - intros l l' Hv Hl'. destruct (verify_ok s l Hv) as (r & Er & Ho & Hver). destruct (H2 l' Hl') as (_ & r' & Er' & Hle).
    rewrite Er in Er'. injection Er' as <-. rewrite <- Ho, <- Hver. done.
  - intros l root pinned Hl Hroot (l' & Hl' & Hlt) next Hd. destruct (H2 l' Hl') as (_ & r & Er & Hle). rewrite Er in Hd.
    apply decision_installs in Hd as (_ & (Hf & _) & (Hn & _)). lia.
Qed.

(** ** Acquisition ends *)

Section acquisition.
Context (own endpoint : string) (ttl now : Z) (Hlegacy : nameable (lease_root db)).

(** Nobody else holds the lease at [now], by the records of the store, and a version is left
    to grant; the record, if there is one, is well formed. *)
Definition lease_free (s : S) : Prop :=
  readable (record_of s name) /\
  let '(cur_owner, cur_version, cur_expiry) := holder (record_of s name ≫= root_decode) (record_of s (lease_root db) ≫= decode_legacy) in
  cur_owner = own \/ (cur_expiry <= now /\ cur_version < 2 ^ 64 - 1).

(** Reads answer, and a swap fails only because the record is another than the expected. *)
Definition answering : Prop :=
  (forall (s : S) n, is_ok (get_root s n) = true) /\
  forall (s : S) n expected next e, (cas_root s n expected next).2 = Err e -> exists n' r, e = StoreError.CasFailed n' r.

Lemma lease_root_other : lease_root db <> name.
Proof. done. Qed.

Lemma delete_legacy s (b : bool) : record_of (if b then (delete_root s (lease_root db)).1 else s) name = record_of s name.
Proof.
  destruct b; [|done]. pose proof (delete_root_ok s (lease_root db) Hlegacy) as H. unfold record_of.
  destruct (delete_root s (lease_root db)) as [s' [u|e]]; cbn [fst].
  - rewrite (H name Hname). by rewrite bool_decide_false.
  - destruct H as [H|H]; rewrite (H name Hname); [by rewrite bool_decide_false|done].
Qed.

Lemma acquire_fields old legacy next : acquire_decision old legacy own endpoint ttl now = Ok next ->
  owner next = own /\ lease_expires_unix_ms next = now + ttl /\ owner_endpoint next = endpoint.
Proof.
  unfold acquire_decision. destruct (holder old legacy) as [[co cv] ce]. intros H. apply bind_ok in H as (v & _ & H).
  apply bind_ok in H as (x & Hx & [= <-]). by apply add_i64_ok in Hx as [-> _].
Qed.

Lemma holder_version old legacy o v e : (forall r, old = Some r -> root_wf r) ->
  (forall lo lv le, legacy = Some (lo, lv, le) -> u64 lv) -> holder old legacy = (o, v, e) -> u64 v.
Proof.
  unfold holder, u64. intros Ho Hl. destruct old as [r|].
  - pose proof (rt_lease r (Ho r eq_refl)) as Hr. unfold u64 in Hr. destruct (negb _); [by intros [= <- <- <-]|].
    destruct legacy as [[[lo lv] le]|]; [|by intros [= <- <- <-]]. specialize (Hl lo lv le eq_refl). intros [= <- <- <-]. lia.
  - destruct legacy as [[[lo lv] le]|]; [|intros [= <- <- <-]; lia]. specialize (Hl lo lv le eq_refl). by intros [= <- <- <-].
Qed.

Lemma legacy_version b lo lv le : b ≫= decode_legacy = Some (lo, lv, le) -> u64 lv.
Proof.
  destruct b as [b|]; [|done]. cbn [mbind option_bind]. unfold decode_legacy. destruct (negb _); [done|].
  destruct (lines _) as [|l1 [|l2 [|l3 ls]]]; try done. destruct (parse_u64 l2) as [v|] eqn:E; [|done].
  cbn [mbind option_bind]. destruct (parse_i64 l3); [|done]. intros [= _ <- _]. by apply parse_u64_range in E.
Qed.

Context (Hown : field_ok own) (Hsome : own <> EmptyString) (Hend : field_ok endpoint) (Hexp : i64 (now + ttl)).

(** A free lease is granted, under a record that reads back. *)
Lemma free_decides s : lease_free s ->
  exists next, acquire_decision (record_of s name ≫= root_decode) (record_of s (lease_root db) ≫= decode_legacy) own endpoint ttl now = Ok next /\
  root_wf next.
Proof.
  intros [Hr Hf]. assert (Hwf : forall r, record_of s name ≫= root_decode = Some r -> root_wf r).
  { intros r Hd. destruct (record_of s name) as [l|] eqn:E; [|done]. destruct (readable_decode _ l Hr eq_refl) as (r' & Hd' & _ & Hw).
    rewrite Hd' in Hd. by injection Hd as <-. }
  unfold acquire_decision. destruct (holder _ _) as [[co cv] ce] eqn:Hh.
  pose proof (holder_version _ _ _ _ _ Hwf (legacy_version _) Hh) as Hcv.
  assert (exists v, (if negb (str_is_empty co) && bool_decide (co = own) then Ok cv
    else if now <? ce then Err (LeaseError.Held co ce) else add_u64 cv 1) = Ok v /\ u64 v) as (v & -> & Hv).
  { destruct Hf as [->|[He Hlt]].
    - exists cv. destruct (str_is_empty own) eqn:Ee; [by apply str_is_empty_iff in Ee|]. by rewrite bool_decide_true.
    - destruct (_ && _)%bool; [by exists cv|]. destruct (Z.ltb_spec now ce); [lia|]. unfold add_u64, u64 in *.
      destruct (Z.ltb_spec (cv + 1) (2 ^ 64)); [|lia]. eexists. split; [done|]. lia. }
  cbn [mbind result_bind]. rewrite (proj2 (add_i64_ok now ttl (now + ttl))) by done. eexists. split; [done|].
  destruct (_ ≫= root_decode) as [r|]; [pose proof (Hwf r eq_refl) as [? ? ? ? ? ? ? ? ? ? ?]|]; split; cbn; try done; vm_compute; done || (split; congruence).
Qed.

(** The lease [l] was granted by [s]: the record reads back as its owner's, and it verifies. *)
Definition granted_by (s : S) (l : Lease) : Prop :=
  l = mk_lease own (ls_version l) (now + ttl) endpoint /\
  (exists r, record_of s name ≫= root_decode = Some r /\ owner r = own /\ lease_version r = ls_version l /\
     lease_expires_unix_ms r = now + ttl /\ owner_endpoint r = endpoint) /\
  (is_ok (get_root s name) = true -> verify s db l = Ok tt).

Lemma installed_granted s next : root_wf next -> owner next = own -> lease_expires_unix_ms next = now + ttl ->
  owner_endpoint next = endpoint -> record_of s name = Some (root_encode next) ->
  granted_by s (mk_lease own (lease_version next) (lease_expires_unix_ms next) endpoint).
Proof.
  intros Hw Ho He Hn Hr. split; [cbn; by rewrite He|]. assert (Hd : record_of s name ≫= root_decode = Some next)
    by (rewrite Hr; by apply root_decode_encode). split; [by exists next|].
  unfold verify. destruct (get_root s name) as [b|e] eqn:Hb; [|done]. intros _. cbn [map_err mbind result_bind].
  rewrite (read_record s b Hb), Hd. unfold held_root. cbn [ls_owner ls_version]. rewrite bool_decide_true, Z.eqb_refl by done. done.
Qed.

Lemma unanswered_read s n e : get_root s n = Err e ->
  exists s' res, Some (s, Err (LeaseError.Store e)) = Some (s', res) /\
  match res with Ok l => granted_by s' l | Err e => (exists e', e = LeaseError.Store e') /\ ~ answering end.
Proof.
  intros H. eexists _, _. split; [done|]. split; [by eexists|]. intros [Hr _]. specialize (Hr s n). by rewrite H in Hr.
Qed.

Lemma unanswered_swap s n expected next s1 e : (cas_root s n expected next).2 = Err e ->
  (forall n' r, e <> StoreError.CasFailed n' r) ->
  exists s' res, Some (s1, Err (LeaseError.Store e)) = Some (s', res) /\
  match res with Ok l => granted_by s' l | Err e => (exists e', e = LeaseError.Store e') /\ ~ answering end.
Proof.
  intros H Hne. eexists _, _. split; [done|]. split; [by eexists|]. intros [_ Hs]. destruct (Hs _ _ _ _ _ H) as (n' & r & ->). by eapply Hne.
Qed.

(** C18. A free lease is acquired. While no other process takes the lease, nobody makes the
    record unreadable and a version is left to grant, [acquire] is not refused; once nobody
    changes the record between its read and its swap it ends, with the stored record reading
    back as this owner's lease, of the version, the expiry and the endpoint granted, which
    verifies, or with a failure of the store; over a store that answers it is granted. The
    owner and the endpoint are names that the record can hold, which a dash is not, and the
    expiry is in range. *)
Theorem acquire_ends acts s act : lease_free s -> Forall (fun act => forall s, lease_free s -> lease_free (act s)) acts ->
  In act acts -> (forall s, record_of (act s) name = record_of s name) ->
  exists s' res, acquire acts s db own endpoint ttl now = Some (s', res) /\
  match res with
  | Ok l => granted_by s' l
  | Err e => (exists e', e = LeaseError.Store e') /\ ~ answering
  end.
Proof.
  intros Hfree Hacts Hin Hact. unfold acquire. revert s Hfree. induction acts as [|a acts IH]; intros s Hfree; [done|].
  apply Forall_cons in Hacts as [Ha Hacts]. cbn [cas_loop].
  destruct (get_root s name) as [b|e] eqn:Hb; [|by apply (unanswered_read s name e)].
  unfold legacy_of. destruct (get_root s (lease_root db)) as [lb|e] eqn:Hlb; cbn [map_err mbind result_bind]; [|by apply (unanswered_read s (lease_root db) e)].
  pose proof (get_root_ok s _ _ Hname Hb) as Eb. pose proof (get_root_ok s _ _ Hlegacy Hlb) as El.
  destruct (free_decides s Hfree) as (next & Hd & Hw). unfold record_of in Hd. rewrite <- Eb, <- El in Hd. rewrite Hd.
  cbn [mbind result_bind]. pose proof (cas_root_ok (a s) name b (root_encode next) Hname) as Hc.
  destruct (cas_root (a s) name b (root_encode next)) as [s1 [u|e]] eqn:Es.
  - destruct Hc as [_ Hinst]. destruct (acquire_fields _ _ _ Hd) as (Ho & He & Hn).
    eexists _, _. split; [done|]. apply installed_granted; [done..|]. rewrite delete_legacy. unfold record_of.
    rewrite Hinst by done. by rewrite bool_decide_true.
  - destruct e; try (eapply (unanswered_swap (a s) (db_root_name db) b (root_encode next)); [by rewrite Es|done]).
    destruct Hc as (_ & -> & Hne & Hsame).
    destruct Hin as [->|Hin]; [exfalso; apply Hne; rewrite Eb; apply Hact|]. apply IH; [done|done|].
    unfold lease_free, record_of in *. rewrite !Hsame by done. by apply Ha.
Qed.
End acquisition.
End leases.

(** ** Samples *)

Definition lease_root1 : DbRoot := mk_root FORMAT_VERSION 1 "node-a" 10 EmptyString 0 None None 0 i64_MIN 0.
Definition lease_root2 : DbRoot := mk_root FORMAT_VERSION 2 "node-b" 30 EmptyString 0 None None 0 i64_MIN 0.
Definition lease_store0 : MemoryStore := mk_memory [] [].
Definition lease_store1 : MemoryStore := mk_memory [] [("db:a", root_encode lease_root1)].
Definition lease_store2 : MemoryStore := mk_memory [] [("db:a", root_encode lease_root2)].
Definition lease1 : Lease := grant_of lease_root1 EmptyString.
Definition lease2 : Lease := grant_of lease_root2 EmptyString.

Lemma lease_roots_wf : root_wf lease_root1 /\ root_wf lease_root2.
Proof. split; split; vm_compute; repeat split; done || congruence. Qed.

(** One node acquires, and another after the lease has run out. *)
Lemma takeover_run : exists ps, rtc (lstep "a") (lease_store0, [], []) (lease_store2, ps, [lease2; lease1]).
Proof.
  eexists. eapply rtc_l; [eapply (l_acquire "a" _ _ _ None None "node-a" EmptyString 10 0 lease_root1); [done|apply lease_roots_wf|done|vm_compute; reflexivity]|].
  eapply rtc_l; [eapply (l_swap "a" _ _ _ _ lease_store1); [by left|vm_compute; reflexivity]|].
  eapply rtc_l; [eapply (l_acquire "a" _ _ _ _ None "node-b" EmptyString 10 20 lease_root2); [done|apply lease_roots_wf|reflexivity|vm_compute; reflexivity]|].
  eapply rtc_l; [eapply (l_swap "a" _ _ _ _ lease_store2); [by left|vm_compute; reflexivity]|]. apply rtc_refl.
Qed.

Lemma lease_exclusive_witness :
  verify lease_store2 "a" lease2 = Ok tt /\ (ls_version lease1 < ls_version lease2 \/ ls_owner lease1 = ls_owner lease2) /\
  forall next, publish_decision (record_of lease_store2 "db:a" ≫= root_decode) lease_root1 None <> inr next.
Proof.
  destruct takeover_run as [ps Hrun].
  destruct (lease_exclusive (RL := memory_roots_laws) "a" I lease_store0 lease_store2 ps [lease2; lease1]) as (_ & Hv & Hp); [done|exact Hrun|].
  assert (Hver : verify lease_store2 "a" lease2 = Ok tt) by (vm_compute; reflexivity).
  assert (H1 : In lease1 [lease2; lease1]) by (right; by left). split_and!; [done| |].
  - destruct (Hv lease2 lease1 Hver H1) as [?|[_ ?]]; [by left|by right].
  - apply (Hp lease1); [done|done|]. exists lease2. split; [by left|vm_compute; reflexivity].
Defined.

Lemma memory_answering : answering (S := MemoryStore).
Proof.
  split; [done|]. intros s n expected next e. cbn. unfold memory_cas. case_bool_decide; [done|]. intros [= <-]. eauto.
Qed.

Lemma acquire_ends_witness : exists s' l,
  acquire [fun s => s] lease_store1 "a" "node-b" EmptyString 10 20 = Some (s', Ok l) /\ granted_by "a" "node-b" EmptyString 10 20 s' l.
Proof.
  destruct (acquire_ends (RL := memory_roots_laws) "a" I "node-b" EmptyString 10 20 I) with (acts := [fun s : MemoryStore => s]) (s := lease_store1) (act := fun s : MemoryStore => s)
    as (s' & res & H & Hres).
  - vm_compute. repeat split; done || congruence.
  - done.
  - vm_compute. repeat split; done || congruence.
  - vm_compute. split; congruence.
  - split; [|vm_compute; right; split; congruence]. intros l [= <-]. exists lease_root1. split; [done|apply lease_roots_wf].
  - constructor; [done|constructor].
  - by left.
  - done.
  - destruct res as [l|e]; [exists s', l; split; [exact H|exact Hres]|]. exfalso. by apply (proj2 Hres), memory_answering.
Defined.

(** A record that does not decode counts as absent: acquiring over it restarts the versions
    and drops its index roots. *)
Lemma unreadable_record_replaced :
  let s := mk_memory [] [("db:a", as_bytes "corium-root-v6")] in
  match acquire [fun s => s] s "a" "node-b" EmptyString 10 20 with
  | Some (s', Ok l) => ls_version l = 1 /\ (record_of s' "db:a" ≫= root_decode) = Some (mk_root FORMAT_VERSION 1 "node-b" 30 EmptyString 0 None None 0 i64_MIN 0)
  | _ => False
  end.
Proof. vm_compute. done. Qed.

(** An owner named "-" reads back as nobody, so the lease it acquires is lost at once. *)
Lemma dash_owner_lost :
  match acquire [fun s => s] lease_store0 "a" "-" EmptyString 10 20 with
  | Some (s', Ok l) => verify s' "a" l = Err LeaseError.Lost
  | _ => False
  end.
Proof. vm_compute. done. Qed.
