(* ===== verification/Protect.v ===== *)
(** * Sealed values and what a reader gets of them (corium-db/src/protect.rs, read.rs)

    A value of a protected attribute is sealed by the writing peer and opened by a reader
    that holds the class key. The hydrator's cache and the overlay of the interner are
    state that a read passes on. *)

From stdpp Require Import base list strings sorting.
From Stdlib Require Import ZArith Lia.
From S2P Require Import Prelude OrdMap Machine Ids Keyword Values Encoding Datoms Schema Bootstrap Crypt.
Local Open Scope Z_scope.

Definition SEAL_AAD_PREFIX : bytes := as_bytes "corium/seal-v1".

Module ProtectError.
Inductive ProtectError :=
| NotProtected (attr : AttrId)
| UnknownClass (class : EntityId)
| MissingKey (class : EntityId) (epoch : Z)
| Authentication (class : EntityId) (epoch : Z)
| UnsupportedScope (class : EntityId)
| Plaintext (e : SealPlaintextError)
| TypeMismatch (attr : AttrId) (vtype : ValueType)
| ForeignClass (attr : AttrId) (class : EntityId).
End ProtectError.
Notation ProtectError := ProtectError.ProtectError.

(** ** Class keys *)

Definition ClassKeys : Type := list ((EntityId * Z) * SecretKey).

Definition class_keys_insert (keys : ClassKeys) (class : EntityId) (epoch : Z) (key : SecretKey) : ClassKeys :=
  om_insert (class, epoch) key keys.

(** The keys of the classes a keyring has; a malformed key identity fails. *)
Fixpoint resolve_keys (keyring : KeyId -> Z -> result KeyError SecretKey) (classes : list (EntityId * ProtectionClass))
    (keys : ClassKeys) : result KeyError ClassKeys :=
  match classes with
  | [] => Ok keys
  | (id, class) :: classes =>
      kid ← key_id_new (key_id class);
      resolve_keys keyring classes
        (match keyring kid (current_epoch class) with Ok key => om_insert (id, current_epoch class) key keys | Err _ => keys end)
  end.

Definition class_keys_resolve (schema : Schema) (keyring : KeyId -> Z -> result KeyError SecretKey) : result KeyError ClassKeys :=
  resolve_keys keyring (sc_classes schema) [].

Definition holds (keys : ClassKeys) (class : EntityId) (epoch : Z) : bool := is_some (om_get (class, epoch) keys).

Definition restrict_to (keys : ClassKeys) (schema : Schema) (allowed : list string) : ClassKeys :=
  List.filter (fun '((class, _), _) => is_some_and (schema_class schema class) (fun class => os_mem (key_id class) allowed)) keys.

Definition class_key (keys : ClassKeys) (class : EntityId) (epoch : Z) : result ProtectError SecretKey :=
  ok_or (om_get (class, epoch) keys) (ProtectError.MissingKey class epoch).

(** ** Sealing and opening *)

Definition value_type_byte (vtype : ValueType) : Z :=
  match vtype with
  | ValueType.Bool => 0 | ValueType.Long => 1 | ValueType.Double => 2 | ValueType.Instant => 3
  | ValueType.Uuid => 4 | ValueType.Keyword => 5 | ValueType.Str => 6 | ValueType.Bytes => 7
  | ValueType.Ref => 8
  end.

Definition seal_aad (key_id : string) (epoch : Z) (attr : AttrId) (entity : option EntityId) (vtype : ValueType) : bytes :=
  SEAL_AAD_PREFIX ++ as_bytes key_id ++ to_be_bytes 4 epoch ++ to_be_bytes 8 attr ++
  match entity with Some e => to_be_bytes 8 e | None => [] end ++ [value_type_byte vtype].

Definition scoped_entity (class : ProtectionClass) (entity : option EntityId) : result ProtectError (option EntityId) :=
  match scope class with
  | ProtectionScope.Attribute => Ok None
  | ProtectionScope.Entity => Err (ProtectError.UnsupportedScope (pc_id class))
  end.

Definition pad (plaintext : bytes) (padding : option Z) : bytes :=
  match padding with
  | Some multiple =>
      if 0 <? multiple then
        let remainder := (length plaintext mod Z.to_nat multiple)%nat in
        if (remainder =? 0)%nat then plaintext else plaintext ++ repeat 0 (Z.to_nat multiple - remainder)
      else plaintext
  | None => plaintext
  end.

Section protect.
Context `{C : Crypto}.

Definition seal_value (schema : Schema) (keys : ClassKeys) (attr : AttrId) (e : option EntityId) (value : Value)
    (interner : KeywordInterner) : result ProtectError Value :=
  class_id ← ok_or (timeline_current (protection schema attr)) (ProtectError.NotProtected attr);
  class ← ok_or (schema_class schema class_id) (ProtectError.UnknownClass class_id);
  entity ← scoped_entity class e;
  let vtype := match schema_get schema attr with Some a => value_type a | None => ValueType.Str end in
  if negb (has_type value vtype) then Err (ProtectError.TypeMismatch attr vtype)
  else
    key ← class_key keys class_id (current_epoch class);
    plaintext ← map_err ProtectError.Plaintext (encode_seal_plaintext value interner);
    let aad := seal_aad (key_id class) (current_epoch class) attr entity vtype in
    body ← map_err (fun _ => ProtectError.Authentication class_id (current_epoch class))
             (seal_deterministic key aad (pad plaintext (padding class)));
    Ok (Value.Sealed (mk_sealed class_id (current_epoch class) vtype body)).

Definition open_value (schema : Schema) (keys : ClassKeys) (attr : AttrId) (e : option EntityId) (sealed : Sealed)
    (interner : KeywordInterner) : result ProtectError (Value * KeywordInterner) :=
  if negb (existsb (fun c => bool_decide (c = class sealed)) (timeline_classes (protection schema attr)))
  then Err (ProtectError.ForeignClass attr (class sealed))
  else
    cls ← ok_or (schema_class schema (class sealed)) (ProtectError.UnknownClass (class sealed));
    entity ← scoped_entity cls e;
    key ← class_key keys (class sealed) (epoch sealed);
    let aad := seal_aad (key_id cls) (epoch sealed) attr entity (vtype sealed) in
    plaintext ← map_err (fun _ => ProtectError.Authentication (class sealed) (epoch sealed)) (open_deterministic key aad (body sealed));
    map_err ProtectError.Plaintext (decode_seal_plaintext plaintext (vtype sealed) interner).

End protect.

(** ** Reading *)

Module Disposition.
Inductive Disposition := Hydrate | Redact | Hide | Fail.
End Disposition.
Notation Disposition := Disposition.Disposition.

Definition disposition (class : ProtectionClass) (holds_key : bool) : Disposition :=
  if holds_key then Disposition.Hydrate
  else
    match on_missing_key class with
    | MissingKeyPolicy.Redact => Disposition.Redact
    | MissingKeyPolicy.Hide => Disposition.Hide
    | MissingKeyPolicy.Error => Disposition.Fail
    end.
Module Hydration.
Inductive Hydration :=
| Bind (v : Value)
| Hide
| Refuse (class : EntityId).
End Hydration.
Notation Hydration := Hydration.Hydration.

Definition PLAINTEXT_CACHE_CAP : nat := 10000.

(** The opened plaintexts a hydrator keeps, by digest. *)
Definition Cache : Type := list (bytes * Value).

Record Hydrator := mk_hydrator { h_keys : ClassKeys; h_cache : Cache }.

Definition hydrator_new (keys : ClassKeys) : Hydrator := mk_hydrator keys [].

Section reads.
Context `{C : Crypto}.

Definition cached (h : Hydrator) (digest : bytes) : option Value := om_get digest (h_cache h).

Definition remember (h : Hydrator) (digest : bytes) (value : Value) : Hydrator :=
  let cache := if (PLAINTEXT_CACHE_CAP <=? length (h_cache h))%nat then [] else h_cache h in
  mk_hydrator (h_keys h) (om_insert digest value cache).

Definition cache_key (attr : AttrId) (sealed : Sealed) : bytes :=
  blake3_hash (to_be_bytes 8 attr ++ to_be_bytes 8 (class sealed) ++ to_be_bytes 4 (epoch sealed) ++ body sealed).

Definition redacted_stand_in (schema : Schema) (cls : ProtectionClass) (attr : AttrId) (value : Value) : Value :=
  let vtype := match schema_get schema attr with Some a => value_type a | None => ValueType.Str end in
  Value.Sealed (mk_sealed (pc_id cls) (current_epoch cls) vtype
    (blake3_hash (as_bytes "corium/redacted-legacy-v1" ++ to_be_bytes 8 attr ++ encode_value value))).

Definition hydrate_legacy (h : Hydrator) (schema : Schema) (cls : ProtectionClass) (attr : AttrId) (value : Value) : Hydration :=
  if holds (h_keys h) (pc_id cls) (current_epoch cls) ||
     match legacy_plaintext cls with LegacyPlaintextPolicy.PassThrough => true | LegacyPlaintextPolicy.Redact => false end
  then Hydration.Bind value
  else
    match disposition cls false with
    | Disposition.Redact => Hydration.Bind (redacted_stand_in schema cls attr value)
    | Disposition.Hide => Hydration.Hide
    | Disposition.Hydrate | Disposition.Fail => Hydration.Refuse (pc_id cls)
    end.

Definition hydrate (h : Hydrator) (schema : Schema) (interner : KeywordInterner) (attr : AttrId) (e : EntityId) (value : Value)
    : Hydrator * KeywordInterner * result ProtectError Hydration :=
  match timeline_current (protection schema attr) with
  | None => (h, interner, Ok (Hydration.Bind value))
  | Some class_id =>
      match schema_class schema class_id with
      | None => (h, interner, Err (ProtectError.UnknownClass class_id))
      | Some cls =>
          match value with
          | Value.Sealed sealed =>
              match disposition cls (holds (h_keys h) (class sealed) (epoch sealed)) with
              | Disposition.Hydrate =>
                  let digest := cache_key attr sealed in
                  match cached h digest with
                  | Some hit => (h, interner, Ok (Hydration.Bind hit))
                  | None =>
                      match open_value schema (h_keys h) attr (Some e) sealed interner with
                      | Ok (plaintext, interner) => (remember h digest plaintext, interner, Ok (Hydration.Bind plaintext))
                      | Err error => (h, interner, Err error)
                      end
                  end
              | Disposition.Redact => (h, interner, Ok (Hydration.Bind value))
              | Disposition.Hide => (h, interner, Ok Hydration.Hide)
              | Disposition.Fail => (h, interner, Ok (Hydration.Refuse class_id))
              end
          | _ => (h, interner, Ok (hydrate_legacy h schema cls attr value))
          end
      end
  end.
End reads.

(** ** The view of a read *)

(** The hidden attributes. *)
Definition AttrVisibility : Type := list AttrId.

Definition hiding (hidden : list AttrId) : AttrVisibility := fold_left (fun view a => os_insert a view) hidden [].

Definition add_hidden_from (view : AttrVisibility) (schema : Schema) (idents : Idents) (visible : Keyword -> bool) : AttrVisibility :=
  fold_left (fun view a => os_insert a view)
    (List.filter (fun attr => is_none_or (ident idents attr) (fun ident => negb (visible ident))) (map fst (schema_iter schema))) view.

Definition visibility_resolve (schema : Schema) (idents : Idents) (visible : Keyword -> bool) : AttrVisibility :=
  add_hidden_from [] schema idents visible.

Definition resolve_all (sources : list (Schema * Idents)) (visible : Keyword -> bool) : AttrVisibility :=
  fold_left (fun view '(schema, idents) => add_hidden_from view schema idents visible) sources [].

Definition is_visible (view : AttrVisibility) (attr : AttrId) : bool := negb (os_mem attr view).

Record ReadContext := mk_read { rc_hydrator : option Hydrator; rc_visibility : option AttrVisibility }.

Definition read_open : ReadContext := mk_read None None.
Definition with_hydrator (r : ReadContext) (h : Hydrator) : ReadContext := mk_read (Some h) (rc_visibility r).
Definition with_visibility (r : ReadContext) (view : AttrVisibility) : ReadContext := mk_read (rc_hydrator r) (Some view).

Definition is_restricted (r : ReadContext) : bool :=
  is_some_and (rc_visibility r) (fun view => match view with [] => false | _ => true end).

Definition rc_visible (r : ReadContext) (attr : AttrId) : bool := is_none_or (rc_visibility r) (fun view => is_visible view attr).

Definition read `{C : Crypto} (r : ReadContext) (schema : Schema) (interner : KeywordInterner) (attr : AttrId) (e : EntityId) (value : Value)
    : ReadContext * KeywordInterner * result ProtectError Hydration :=
  if negb (rc_visible r attr) then (r, interner, Ok Hydration.Hide)
  else
    match rc_hydrator r with
    | Some h =>
        let '(h, interner, res) := hydrate h schema interner attr e value in
        (with_hydrator r h, interner, res)
    | None => (r, interner, Ok (Hydration.Bind value))
    end.
