(* ===== verification/ProtectTheorems.v ===== *)
(** * Theorems on sealed values

    A sealed value reads back for the holder of its class key, and the hydrator's cache of
    opened plaintexts changes no answer. *)

From stdpp Require Import base list strings sorting.
From Stdlib Require Import ZArith Lia.
From S2P Require Import Prelude OrdMap Machine Ids Keyword Values Encoding Datoms Schema Bootstrap Crypt Protect.
Local Open Scope Z_scope.

(** The same value, under the interner each was read with. *)
Definition same_value (i : KeywordInterner) (v : Value) (i' : KeywordInterner) (v' : Value) : Prop :=
  match v, v' with
  | Value.Keyword a, Value.Keyword b => exists k, resolve i a = Some k /\ resolve i' b = Some k
  | _, _ => v' = v
  end.

Lemma same_value_sym i v i' v' : same_value i v i' v' -> same_value i' v' i v.
Proof. destruct v, v'; try done. intros (k & ? & ?). by exists k. Qed.

Lemma same_value_trans i v i' v' i'' v'' : same_value i v i' v' -> same_value i' v' i'' v'' -> same_value i v i'' v''.
Proof.
  destruct v, v'; try done; intros H; destruct v''; try done; try (simpl in *; congruence).
  intros H'. destruct H as (k & H1 & H2), H' as (k' & H3 & H4). exists k. split; [done|]. congruence.
Qed.

Lemma intern_local_stable i k id k0 : interner_wf i -> resolve i id = Some k0 -> resolve (intern_local i k).2 id = Some k0.
Proof.
  intros (ks & ls & Hd & _ & Hl & _). unfold intern_local, resolve. destruct (om_get k (by_keyword i)); [done|].
  destruct (om_get k (l_by_keyword (local i))); [done|]. cbn [snd by_id local l_by_id].
  destruct (om_get id (by_id i)) eqn:E; [done|]. intros Hr. rewrite om_get_insert_ne; [done|]. intros ->.
  pose proof (dense_id_bound Hl _ _ Hr) as Hb. rewrite (dense_ids _ _ _ _ Hl), length_indexed in Hb. lia.
Qed.

Lemma pad_app l p : exists z, pad l p = l ++ z.
Proof.
  unfold pad. destruct p as [m|]; [|exists []; by rewrite app_nil_r]. destruct (0 <? m); [|exists []; by rewrite app_nil_r].
  destruct (_ =? 0)%nat; [exists []; by rewrite app_nil_r|]. by eexists.
Qed.

Lemma timeline_current_In tl c : timeline_current tl = Some c -> In c (timeline_classes tl).
Proof.
  unfold timeline_current, last_class. intros H. apply bind_Some in H as ([t c'] & Hl & ->).
  apply last_Some_elem_of in Hl. unfold timeline_classes. apply In_filter_map. exists (t, Some c). split; [by apply list_elem_of_In|done].
Qed.

Section theorems.
Context `{C : Crypto} {CL : CryptoLaws C}.

Lemma seal_open key aad m c : seal_deterministic key aad m = Ok c -> open_deterministic key aad c = Ok m.
Proof.
  unfold seal_deterministic, open_deterministic. destruct (new_cipher key) as [u|e] eqn:E; [|done]. cbn [mbind result_bind].
  destruct (siv_encrypt key zero_nonce aad m) as [c'|] eqn:Es; [|done]. intros [= <-].
  pose proof (siv_length _ _ _ _ _ Es) as Hl. destruct (Nat.ltb_spec (length c') AEAD_TAG_LEN); [lia|].
  cbn [mbind result_bind]. apply siv_inverse in Es. by rewrite Es.
Qed.

(** What opening a sealed value comes to before the interner is involved. *)
Definition opened_text (schema : Schema) (keys : ClassKeys) (attr : AttrId) (sealed : Sealed) : result ProtectError bytes :=
  if negb (existsb (fun c => bool_decide (c = class sealed)) (timeline_classes (protection schema attr)))
  then Err (ProtectError.ForeignClass attr (class sealed))
  else
    cls ← ok_or (schema_class schema (class sealed)) (ProtectError.UnknownClass (class sealed));
    entity ← scoped_entity cls None;
    key ← class_key keys (class sealed) (epoch sealed);
    map_err (fun _ => ProtectError.Authentication (class sealed) (epoch sealed))
      (open_deterministic key (seal_aad (key_id cls) (epoch sealed) attr entity (vtype sealed)) (body sealed)).

Lemma open_value_text schema keys attr e sealed i : open_value schema keys attr e sealed i =
  (plaintext ← opened_text schema keys attr sealed; map_err ProtectError.Plaintext (decode_seal_plaintext plaintext (vtype sealed) i)).
Proof.
  unfold open_value, opened_text. destruct (negb _); [done|]. destruct (schema_class schema (class sealed)) as [cls|]; [|done].
  cbn [ok_or mbind result_bind]. unfold scoped_entity. destruct (scope cls); [|done]. cbn [mbind result_bind].
  destruct (class_key keys (class sealed) (epoch sealed)); [|done]. cbn [mbind result_bind]. by destruct (open_deterministic _ _ _).
Qed.

(** Decoding does not depend on what the interner knows already. *)
Lemma decode_any_interner l t i j : interner_wf i -> interner_wf j ->
  match decode_seal_plaintext l t i, decode_seal_plaintext l t j with
  | Ok (v, i'), Ok (w, j') => same_value i' v j' w /\ interner_wf i' /\ interner_wf j' /\
      (forall id k, resolve j id = Some k -> resolve j' id = Some k)
  | Err e, Err e' => e = e'
  | _, _ => False
  end.
Proof.
  intros Hi Hj. unfold decode_seal_plaintext. destruct (decode_value l) as [[v n]|e]; [|done]. cbn [map_err mbind result_bind].
  destruct (bool_decide_reflect (t = ValueType.Keyword)) as [|Ht].
  - destruct v; try done. pose proof (intern_local_facts i (keyword_parse s) i Hi (interner_wf_share i Hi)) as Hs.
    pose proof (intern_local_facts j (keyword_parse s) j Hj (interner_wf_share j Hj)) as Hs'.
    pose proof (fun id k => intern_local_stable j (keyword_parse s) id k Hj) as Hst.
    destruct (intern_local i _) as [id i'], (intern_local j _) as [id' j']. destruct Hs as (? & _ & _ & Hr & _), Hs' as (? & _ & _ & Hr' & _).
    split_and!; [by exists (keyword_parse s)|done|done|exact Hst].
  - destruct (has_type v t) eqn:Eh; [|by destruct v]. split_and!; [|done|done|done]. destruct v; try done. by destruct t.
Qed.

(** ** Round trip *)

Lemma sealed_opens schema keys attr e v i sv : interner_wf i -> value_wf v -> seal_textual i v ->
  seal_value schema keys attr e v i = Ok sv ->
  exists cls sealed, sv = Value.Sealed sealed /\ timeline_current (protection schema attr) = Some (class sealed) /\
    schema_class schema (class sealed) = Some cls /\ holds keys (class sealed) (epoch sealed) = true /\
    forall e', exists v' i', open_value schema keys attr e' sealed i = Ok (v', i') /\ same_value i v i' v'.
Proof.
  intros Hi Hv Ht. unfold seal_value. destruct (timeline_current _) as [c|] eqn:Ec; [|done]. cbn [ok_or mbind result_bind].
  destruct (schema_class schema c) as [cls|] eqn:Ecls; [|done]. cbn [ok_or mbind result_bind].
  destruct (scoped_entity cls e) as [ent|] eqn:Esc; [|done]. cbn [mbind result_bind].
  set (t := match schema_get schema attr with Some a => _ | None => _ end). clearbody t. destruct (has_type v t) eqn:Eht; [|done]. cbn [negb].
  destruct (class_key keys c (current_epoch cls)) as [key|] eqn:Ek; [|done]. cbn [mbind result_bind].
  destruct (encode_seal_plaintext v i) as [l|] eqn:El; [|done]. cbn [map_err mbind result_bind].
  destruct (seal_deterministic key _ _) as [b|] eqn:Es; [|done]. cbn [map_err mbind result_bind]. intros [= <-].
  exists cls, (mk_sealed c (current_epoch cls) t b). cbn [class epoch]. split_and!; try done.
  { unfold holds. unfold class_key in Ek. by destruct (om_get _ _). }
  intros e'. destruct (pad_app l (padding cls)) as [z Ez]. rewrite Ez in Es. apply seal_open in Es.
  assert (Hp : plain_value_type v = Ok t) by (clear -Eht El; destruct v; simpl in *; try done; by destruct t).
  destruct (seal_plaintext_roundtrip v i t l z Hi Hv Ht Hp El) as (v' & i' & Hd & _ & Hsame).
  exists v', i'. split.
  - rewrite open_value_text. unfold opened_text. cbn [class epoch vtype body].
    assert (Hx : existsb (fun c0 => bool_decide (c0 = c)) (timeline_classes (protection schema attr)) = true).
    { apply existsb_exists. exists c. split; [by apply timeline_current_In|by apply bool_decide_eq_true]. }
    rewrite Hx, Ecls. cbn [negb ok_or mbind result_bind]. unfold scoped_entity in *. destruct (scope cls); [|done].
    injection Esc as <-. cbn [mbind result_bind]. rewrite Ek. cbn [mbind result_bind]. rewrite Es. cbn [map_err mbind result_bind]. by rewrite Hd.
  - destruct v; try done. destruct Hsame as (id' & k & -> & H1 & H2). by exists k.
Qed.

(** ** The cache *)

(** Reads of attribute, entity and value, one after the other. *)
Fixpoint hydrate_all (h : Hydrator) (schema : Schema) (i : KeywordInterner) (qs : list (AttrId * EntityId * Value)) : Hydrator * KeywordInterner :=
  match qs with
  | [] => (h, i)
  | (attr, e, v) :: qs => let '(h, i, _) := hydrate h schema i attr e v in hydrate_all h schema i qs
  end.

(** What a digest stands for: the attribute, the class, the epoch and the body, in fields of
    their own. *)
Definition digest_input (attr : AttrId) (s : Sealed) : bytes :=
  to_be_bytes 8 attr ++ to_be_bytes 8 (class s) ++ to_be_bytes 4 (epoch s) ++ body s.

Lemma digest_input_inj a s a' s' : u64 a -> u64 a' -> value_wf (Value.Sealed s) -> value_wf (Value.Sealed s') ->
  digest_input a s = digest_input a' s' -> a = a' /\ class s = class s' /\ epoch s = epoch s' /\ body s = body s'.
Proof.
  intros Ha Ha' (Hc & He & _) (Hc' & He' & _) E. unfold digest_input in E.
  apply app_inj_1 in E as [E1 E]; [|by rewrite !length_to_be_bytes]. apply app_inj_1 in E as [E2 E]; [|by rewrite !length_to_be_bytes].
  apply app_inj_1 in E as [E3 E4]; [|by rewrite !length_to_be_bytes]. unfold u64, u32 in *.
  apply (f_equal from_be_bytes) in E1, E2, E3. rewrite !from_to_be_bytes in E1, E2, E3 by (cbn; lia). done.
Qed.

(** The sealed values of some reads: their fields are of their width, the hash has no
    collision among them, and a body found twice on an attribute, under one class and epoch,
    declares one type. *)
Record sealed_reads (qs : list (AttrId * EntityId * Value)) : Prop := {
  sr_range : forall a e s, In (a, e, Value.Sealed s) qs -> u64 a /\ value_wf (Value.Sealed s);
  sr_hash : forall a e s a' e' s', In (a, e, Value.Sealed s) qs -> In (a', e', Value.Sealed s') qs ->
    blake3_hash (digest_input a s) = blake3_hash (digest_input a' s') -> digest_input a s = digest_input a' s';
  sr_type : forall a e s e' s', In (a, e, Value.Sealed s) qs -> In (a, e', Value.Sealed s') qs ->
    class s = class s' -> epoch s = epoch s' -> body s = body s' -> vtype s = vtype s';
}.

(** Reads that share a digest are of one attribute and of one sealed value. *)
Lemma digest_shared qs a e s a' e' s' : sealed_reads qs -> In (a, e, Value.Sealed s) qs -> In (a', e', Value.Sealed s') qs ->
  cache_key a s = cache_key a' s' -> a = a' /\ s = s'.
Proof.
  intros H Hin Hin' E. apply (sr_hash _ H a e s a' e' s' Hin Hin') in E.
  destruct (sr_range _ H _ _ _ Hin) as [Ha Hs], (sr_range _ H _ _ _ Hin') as [Ha' Hs'].
  destruct (digest_input_inj _ _ _ _ Ha Ha' Hs Hs' E) as (<- & E1 & E2 & E3). split; [done|].
  pose proof (sr_type _ H _ _ _ _ _ Hin Hin' E1 E2 E3) as E4. destruct s, s'. cbn in *. by subst.
Qed.

(** Each cached value is what opening a value already read gives. *)
Definition cache_ok (schema : Schema) (keys : ClassKeys) (h : Hydrator) (i : KeywordInterner) (seen : list (AttrId * EntityId * Value)) : Prop :=
  forall digest v, cached h digest = Some v -> exists a e s l, In (a, e, Value.Sealed s) seen /\ digest = cache_key a s /\
  opened_text schema keys a s = Ok l /\
  forall j, interner_wf j -> exists w j', decode_seal_plaintext l (vtype s) j = Ok (w, j') /\ same_value j' w i v.

Lemma same_value_grows j w i v i' : (forall id k, resolve i id = Some k -> resolve i' id = Some k) -> same_value j w i v -> same_value j w i' v.
Proof. intros Hg. destruct w, v; try done. intros (k & H1 & H2). exists k. split; [done|by apply Hg]. Qed.

Lemma cache_ok_grows schema keys h i i' seen : (forall id k, resolve i id = Some k -> resolve i' id = Some k) ->
  cache_ok schema keys h i seen -> cache_ok schema keys h i' seen.
Proof.
  intros Hg H digest v Hv. destruct (H digest v Hv) as (a & e & s & l & H1 & H2 & H3 & H4). exists a, e, s, l. split_and!; [done|done|done|].
  intros j Hj. destruct (H4 j Hj) as (w & j' & ? & ?). exists w, j'. split; [done|by eapply same_value_grows].
Qed.

Lemma cached_remember h digest v digest' v' : cached (remember h digest v) digest' = Some v' ->
  (digest' = digest /\ v' = v) \/ cached h digest' = Some v'.
Proof.
  unfold cached, remember. cbn [h_cache]. rewrite om_get_insert. destruct (cmp digest' digest) eqn:E.
  - apply cmp_eq_iff in E as ->. intros [= ->]. by left.
  - destruct (_ <=? _)%nat; [done|]. by right.
  - destruct (_ <=? _)%nat; [done|]. by right.
Qed.

Lemma hydrate_inv schema keys h i seen attr e v : interner_wf i -> h_keys h = keys -> cache_ok schema keys h i seen ->
  let '(h', i', _) := hydrate h schema i attr e v in
  interner_wf i' /\ h_keys h' = keys /\ cache_ok schema keys h' i' (seen ++ [(attr, e, v)]) /\
  forall id k, resolve i id = Some k -> resolve i' id = Some k.
Proof.
  intros Hi Hk Hc.
  assert (Hsame : interner_wf i /\ h_keys h = keys /\ cache_ok schema keys h i (seen ++ [(attr, e, v)]) /\
    forall id k, resolve i id = Some k -> resolve i id = Some k).
  { split_and!; [done|done| |done]. intros digest w Hw. destruct (Hc digest w Hw) as (a & e0 & s & l & H1 & H2). exists a, e0, s, l.
    split; [apply in_app_iff; by left|done]. }
  unfold hydrate. destruct (timeline_current _) as [c|]; [|done]. destruct (schema_class schema c) as [cls|]; [|done]. destruct v as [| | | | | | | | |s]; try done.
  destruct (disposition cls _); try done. destruct (cached h (cache_key attr s)); [done|].
  destruct (open_value schema (h_keys h) attr (Some e) s i) as [[w i']|] eqn:Eo; [|done].
  rewrite open_value_text, Hk in Eo. destruct (opened_text schema keys attr s) as [l|] eqn:El; [|done]. cbn [mbind result_bind] in Eo.
  destruct (decode_seal_plaintext l (vtype s) i) as [[w' i'']|] eqn:Ed; [|done]. injection Eo as -> ->.
  pose proof (decode_any_interner l (vtype s) i i Hi Hi) as Hd. rewrite Ed in Hd. destruct Hd as (_ & _ & Hi' & Hg).
  split_and!; [done|done| |done]. intros digest v [[-> ->]|Hv]%cached_remember.
  - exists attr, e, s, l. split_and!; [apply in_app_iff; right; by left|done|done|]. intros j Hj.
    pose proof (decode_any_interner l (vtype s) j i Hj Hi) as Hd. rewrite Ed in Hd.
    destruct (decode_seal_plaintext l (vtype s) j) as [[w1 j']|]; [|done]. exists w1, j'. by destruct Hd.
  - destruct Hsame as (_ & _ & Hc' & _). exact (cache_ok_grows _ _ _ _ _ _ Hg Hc' digest v Hv).
Qed.

Lemma hydrate_all_inv schema keys h i seen qs : interner_wf i -> h_keys h = keys -> cache_ok schema keys h i seen ->
  let '(h', i') := hydrate_all h schema i qs in
  interner_wf i' /\ h_keys h' = keys /\ cache_ok schema keys h' i' (seen ++ qs) /\ forall id k, resolve i id = Some k -> resolve i' id = Some k.
Proof.
  revert h i seen. induction qs as [|[[attr e] v] qs IH]; intros h i seen Hi Hk Hc; [by rewrite app_nil_r|]. cbn [hydrate_all].
  pose proof (hydrate_inv schema keys h i seen attr e v Hi Hk Hc) as H. destruct (hydrate h schema i attr e v) as [[h1 i1] r].
  destruct H as (Hi1 & Hk1 & Hc1 & Hg1). specialize (IH h1 i1 _ Hi1 Hk1 Hc1). destruct (hydrate_all h1 schema i1 qs) as [h2 i2].
  destruct IH as (? & ? & Hc2 & Hg2). rewrite <- app_assoc in Hc2. split_and!; [done|done|done|]. intros id k Hid. by apply Hg2, Hg1.
Qed.

(** The same answer, under the interner of each. *)
Definition same_read (i : KeywordInterner) (r : result ProtectError Hydration) (i' : KeywordInterner) (r' : result ProtectError Hydration) : Prop :=
  (i' = i /\ r' = r) \/ exists v v', r = Ok (Hydration.Bind v) /\ r' = Ok (Hydration.Bind v') /\ same_value i v i' v'.

Lemma read_back schema keys h i seen attr e s : interner_wf i -> h_keys h = keys -> cache_ok schema keys h i seen ->
  sealed_reads (seen ++ [(attr, e, Value.Sealed s)]) -> forall v, cached h (cache_key attr s) = Some v ->
  exists w i', open_value schema keys attr (Some e) s i = Ok (w, i') /\ same_value i' w i v.
Proof.
  intros Hi Hk Hc Hd v Hv. destruct (Hc _ _ Hv) as (a & e0 & s0 & l & H1 & H2 & H3 & H4).
  destruct (digest_shared _ attr e s a e0 s0 Hd) as [<- <-]; [apply in_app_iff; right; by left|apply in_app_iff; by left|done|].
  destruct (H4 i Hi) as (w & i' & H5 & H6). exists w, i'. split; [|done]. rewrite open_value_text, H3. cbn [mbind result_bind]. by rewrite H5.
Qed.

(** C24. The plaintext cache changes no answer. After any reads through a hydrator, reading
    a value gives what a hydrator that has opened nothing would give, failures included, also
    when one body was found under several attributes, classes or epochs. The hash is taken to
    have no collision among the sealed values read, and a body read twice on one attribute,
    under one class and epoch, to declare the same type: the digest leaves the type out. *)
Theorem cached_reads schema keys i qs attr e v : interner_wf i -> sealed_reads (qs ++ [(attr, e, v)]) ->
  let '(h, i') := hydrate_all (hydrator_new keys) schema i qs in
  let '(_, i1, r1) := hydrate (hydrator_new keys) schema i' attr e v in
  let '(_, i2, r2) := hydrate h schema i' attr e v in
  same_read i1 r1 i2 r2.
Proof.
  intros Hi Hd. assert (Hc0 : cache_ok schema keys (hydrator_new keys) i []) by done.
  pose proof (hydrate_all_inv schema keys (hydrator_new keys) i [] qs Hi eq_refl Hc0) as H. destruct (hydrate_all _ schema i qs) as [h i'].
  destruct H as (Hi' & Hk & Hc & _). cbn [app] in Hc. unfold hydrate. cbn [hydrator_new h_keys]. rewrite Hk.
  destruct (timeline_current _) as [c|]; [|by left]. destruct (schema_class schema c) as [cls|]; [|by left].
  destruct v as [| | | | | | | | |s]; try (left; split; [done|]; unfold hydrate_legacy; by rewrite Hk).
  destruct (disposition cls _); try by left. cbn [cached h_cache om_get]. 
  destruct (cached h (cache_key attr s)) as [hit|] eqn:Eh.
  - destruct (read_back schema keys h i' qs attr e s Hi' Hk Hc Hd hit Eh) as (w & j & -> & Hs). right. by exists w, hit.
  - destruct (open_value schema keys attr (Some e) s i') as [[w j]|]; by left.
Qed.

(** C37. What is sealed reads back. A value sealed for an attribute is read, by a hydrator
    that holds the same class keys and under the same schema, as that value, whatever was
    read before, as long as the hash has no collision among the sealed values read and a body
    read twice on one attribute declares one type; a keyword may come back under another id for the same keyword. *)
Theorem sealed_reads_back schema keys i qs attr e v sv e' : interner_wf i -> value_wf v -> seal_textual i v ->
  seal_value schema keys attr e v i = Ok sv -> sealed_reads (qs ++ [(attr, e', sv)]) ->
  let '(h, i') := hydrate_all (hydrator_new keys) schema i qs in
  exists h'' i'' v', hydrate h schema i' attr e' sv = (h'', i'', Ok (Hydration.Bind v')) /\ same_value i v i'' v'.
Proof.
  intros Hi Hv Ht Hs Hd. destruct (sealed_opens schema keys attr e v i sv Hi Hv Ht Hs) as (cls & s & -> & E1 & E2 & E3 & Ho).
  assert (Hc0 : cache_ok schema keys (hydrator_new keys) i []) by done.
  pose proof (hydrate_all_inv schema keys (hydrator_new keys) i [] qs Hi eq_refl Hc0) as H. destruct (hydrate_all _ schema i qs) as [h i'].
  destruct H as (Hi' & Hk & Hc & Hg). cbn [app] in Hc. destruct (Ho (Some e')) as (w & j & Ew & Hw).
  assert (Hopen : exists w' j', open_value schema keys attr (Some e') s i' = Ok (w', j') /\ same_value i v j' w').
  { rewrite open_value_text in *. destruct (opened_text schema keys attr s) as [l|]; [|done]. cbn [mbind result_bind] in *.
    pose proof (decode_any_interner l (vtype s) i i' Hi Hi') as Hany. destruct (decode_seal_plaintext l (vtype s) i) as [[w1 j1]|]; [|done].
    destruct (decode_seal_plaintext l (vtype s) i') as [[w2 j2]|]; [|done]. destruct Hany as (Hsame & _). injection Ew as -> ->. exists w2, j2.
    split; [done|by eapply same_value_trans]. }
  destruct Hopen as (w' & j' & Ew' & Hw'). unfold hydrate. rewrite E1, E2, Hk, E3. cbn [disposition].
  destruct (cached h (cache_key attr s)) as [hit|] eqn:Eh.
  - destruct (read_back schema keys h i' qs attr e' s Hi' Hk Hc Hd hit Eh) as (w2 & j2 & E & Hsame). rewrite E in Ew'. injection Ew' as -> ->.
    exists h, i', hit. split; [done|by eapply same_value_trans].
  - rewrite Ew'. exists (remember h (cache_key attr s) w'), j', w'. by split.
Qed.
End theorems.

(** ** Samples *)

#[local] Existing Instance toy_crypto.
#[local] Existing Instance toy_crypto_laws.

Definition pii : EntityId := 300.
Definition ssn : AttrId := 301.
Definition pii_class : ProtectionClass :=
  mk_class pii "file:/etc/corium/pii.key" Aes256GcmSiv ProtectionScope.Attribute (Some 8) MissingKeyPolicy.Redact LegacyPlaintextPolicy.Redact 1.
Definition pii_schema : Schema :=
  set_protection (insert_class (schema_insert schema_default (mk_attribute ssn ValueType.Str Cardinality.One None false false false)) pii_class)
    ssn (protected_from 0 pii).
Definition pii_keys : ClassKeys := class_keys_insert [] pii 1 (repeat 7 32).
Definition sealed_ssn (text : string) : Value :=
  match seal_value pii_schema pii_keys ssn None (Value.Str text) interner_default with Ok v => v | Err _ => Value.Bool false end.

(** Reads of one attribute, decided. *)
Lemma ssn_reads qs : forallb (fun q => match q.2 with
    | Value.Sealed s => (q.1.1 =? ssn) && (class s =? pii) && (epoch s =? 1) && bool_decide (vtype s = ValueType.Str) &&
        forallb (fun b => (0 <=? b) && (b <? 256)) (body s)
    | _ => true end) qs = true ->
  (forall a e s a' e' s', In (a, e, Value.Sealed s) qs -> In (a', e', Value.Sealed s') qs ->
    blake3_hash (digest_input a s) = blake3_hash (digest_input a' s') -> digest_input a s = digest_input a' s') -> sealed_reads qs.
Proof.
  intros Hq Hh. rewrite forallb_forall in Hq.
  assert (H : forall a e s, In (a, e, Value.Sealed s) qs -> a = ssn /\ class s = pii /\ epoch s = 1 /\ vtype s = ValueType.Str /\ bytes_wf (body s)).
  { intros a e s Hin. specialize (Hq _ Hin). cbn [fst snd] in Hq. rewrite !andb_true_iff, !Z.eqb_eq, bool_decide_eq_true, forallb_forall in Hq.
    destruct Hq as ((((? & ?) & ?) & ?) & Hb). split_and!; [done..|]. apply List.Forall_forall. intros b Hin'. specialize (Hb b Hin').
    rewrite andb_true_iff, Z.leb_le, Z.ltb_lt in Hb. exact Hb. }
  split; [|exact Hh|].
  - intros a e s Hin. destruct (H _ _ _ Hin) as (-> & Hc & He & _ & Hb). cbn [value_wf]. rewrite Hc, He. split_and!; [..|done]; vm_compute; done || (split; congruence).
  - intros a e s e' s' Hin Hin' _ _ _. destruct (H _ _ _ Hin) as (_ & _ & _ & -> & _), (H _ _ _ Hin') as (_ & _ & _ & -> & _). done.
Qed.

Lemma cached_reads_witness : let qs := [(ssn, 5, sealed_ssn "123"); (ssn, 6, sealed_ssn "456")] in
  sealed_reads (qs ++ [(ssn, 7, sealed_ssn "123")]) /\
  let '(h, i') := hydrate_all (hydrator_new pii_keys) pii_schema interner_default qs in
  let '(_, i1, r1) := hydrate (hydrator_new pii_keys) pii_schema i' ssn 7 (sealed_ssn "123") in
  let '(_, i2, r2) := hydrate h pii_schema i' ssn 7 (sealed_ssn "123") in
  same_read i1 r1 i2 r2.
Proof.
  intros qs. assert (Hd : sealed_reads (qs ++ [(ssn, 7, sealed_ssn "123")])).
  { apply ssn_reads; [vm_compute; reflexivity|]. intros a e s a' e' s' H H' E. vm_compute in H, H'.
    destruct H as [[= <- <- <-]|[[= <- <- <-]|[[= <- <- <-]|[]]]], H' as [[= <- <- <-]|[[= <- <- <-]|[[= <- <- <-]|[]]]];
      try reflexivity; vm_compute in E; discriminate. }
  split; [exact Hd|]. apply (cached_reads pii_schema pii_keys interner_default qs ssn 7 (sealed_ssn "123") interner_default_wf Hd).
Defined.

Lemma sealed_reads_back_witness : exists h i v', hydrate (hydrator_new pii_keys) pii_schema interner_default ssn 5 (sealed_ssn "123") = (h, i, Ok (Hydration.Bind v')) /\
  same_value interner_default (Value.Str "123") i v'.
Proof.
  apply (sealed_reads_back pii_schema pii_keys interner_default [] ssn None (Value.Str "123") (sealed_ssn "123") 5 interner_default_wf).
  - vm_compute. reflexivity.
  - exact I.
  - vm_compute. reflexivity.
  - apply ssn_reads; [vm_compute; reflexivity|]. intros a e s a' e' s' H H' _. vm_compute in H, H'.
    destruct H as [[= <- <- <-]|[]], H' as [[= <- <- <-]|[]]. reflexivity.
Defined.

(** The digest leaves out the declared type: a body whose header names another type does
    not authenticate, unless the body was opened before under its own type. *)
Definition retyped (v : Value) (t : ValueType) : Value :=
  match v with Value.Sealed s => Value.Sealed (mk_sealed (class s) (epoch s) t (body s)) | _ => v end.

Lemma retyped_body_opens :
  let v := retyped (sealed_ssn "123") ValueType.Bytes in
  (hydrate (hydrator_new pii_keys) pii_schema interner_default ssn 5 v).2 = Err (ProtectError.Authentication pii 1) /\
  let '(h, i) := hydrate_all (hydrator_new pii_keys) pii_schema interner_default [(ssn, 5, sealed_ssn "123")] in
  (hydrate h pii_schema i ssn 5 v).2 = Ok (Hydration.Bind (Value.Str "123")).
Proof. split; vm_compute; reflexivity. Qed.
