(* ===== verification/Float.v ===== *)
(** * Double precision arithmetic on bit patterns

    [f64] of the Rust standard library, over the IEEE 754 specification of the Standard
    Library. A double is its bit pattern, as in [Values]. The bits of a NaN that an operation
    makes are not specified by Rust; here they are those of the default quiet NaN. *)

From stdpp Require Import base list strings.
From Stdlib Require Import ZArith Lia Ascii SpecFloat.
From S2P Require Import Prelude Machine Text.
Local Open Scope Z_scope.

Definition PREC : Z := 53.
Definition EMAX : Z := 1024.

Definition of_bits (bits : Z) : spec_float :=
  let s := Z.testbit bits 63 in
  let ex := Z.land (Z.shiftr bits 52) 2047 in
  let m := Z.land bits (2 ^ 52 - 1) in
  if ex =? 0 then match m with Zpos p => S754_finite s p (-1074) | _ => S754_zero s end
  else if ex =? 2047 then match m with Z0 => S754_infinity s | _ => S754_nan end
  else match m + 2 ^ 52 with Zpos p => S754_finite s p (ex - 1075) | _ => S754_nan end.

Definition sign_bits (s : bool) : Z := if s then 2 ^ 63 else 0.

Definition to_bits (f : spec_float) : Z :=
  match f with
  | S754_zero s => sign_bits s
  | S754_infinity s => sign_bits s + 2047 * 2 ^ 52
  | S754_nan => 2047 * 2 ^ 52 + 2 ^ 51
  | S754_finite s m e =>
      if Zpos m <? 2 ^ 52 then sign_bits s + Zpos m else sign_bits s + (e + 1075) * 2 ^ 52 + (Zpos m - 2 ^ 52)
  end.

Definition f64_add (a b : Z) : Z := to_bits (SFadd PREC EMAX (of_bits a) (of_bits b)).
Definition f64_sub (a b : Z) : Z := to_bits (SFsub PREC EMAX (of_bits a) (of_bits b)).
Definition f64_mul (a b : Z) : Z := to_bits (SFmul PREC EMAX (of_bits a) (of_bits b)).
Definition f64_div (a b : Z) : Z := to_bits (SFdiv PREC EMAX (of_bits a) (of_bits b)).
Definition f64_sqrt (a : Z) : Z := to_bits (SFsqrt PREC EMAX (of_bits a)).
Definition f64_abs (a : Z) : Z := Z.land a (2 ^ 63 - 1).

(** An integer cast to a double, rounded to the nearest. *)
Definition i64_as_f64 (n : Z) : Z := to_bits (binary_normalize PREC EMAX n 0 false).

(** ** Decimal text *)

(** The double nearest to [m * 10 ^ e]. Beyond four hundred places either way it is
    infinite or zero. *)
Definition decimal_to_f64 (s : bool) (m : Z) (digits e : Z) : Z :=
  match m with
  | Zpos p =>
      if 400 <? digits + e then to_bits (S754_infinity s)
      else if digits + e <? -400 then to_bits (S754_zero s)
      else if 0 <=? e then to_bits (binary_normalize PREC EMAX ((if s then -1 else 1) * m * 10 ^ e) 0 s)
      else
        match 10 ^ (- e) with
        | Zpos q =>
            let '(mz, ez, lz) := SFdiv_core_binary PREC EMAX m 0 (Zpos q) 0 in
            to_bits (binary_round_aux PREC EMAX s mz ez lz)
        | _ => to_bits (S754_zero s)
        end
  | _ => to_bits (S754_zero s)
  end.

(** The decimal digits at the start of a text: their value, their count and the rest. *)
Fixpoint take_digits (s : string) (acc count : Z) : Z * Z * string :=
  match s with
  | String c s' => match dec_value c with Some d => take_digits s' (acc * 10 + d) (count + 1) | None => (acc, count, s) end
  | EmptyString => (acc, count, s)
  end.

(** [f64::from_str] on a text that starts with a digit after its sign. *)
Definition parse_f64 (text : string) : option Z :=
  let '(s, rest) :=
    match text with
    | String "-"%char t => (true, t)
    | String "+"%char t => (false, t)
    | _ => (false, text)
    end in
  let '(m, whole, rest) := take_digits rest 0 0 in
  let '(m, frac, rest) :=
    match rest with
    | String "."%char t => let '(m', n, t') := take_digits t m 0 in (m', n, t')
    | _ => (m, 0, rest)
    end in
  if whole + frac =? 0 then None
  else
    e ← match rest with
        | EmptyString => Some 0
        | String c t =>
            if (bool_decide (c = "e"%char) || bool_decide (c = "E"%char))%bool then
              let '(neg, t) := match t with String "-"%char t => (true, t) | String "+"%char t => (false, t) | _ => (false, t) end in
              let '(e, n, t) := take_digits t 0 0 in
              if n =? 0 then None else match t with EmptyString => Some (if neg then - e else e) | _ => None end
            else None
        end;
    Some (decimal_to_f64 s m (whole + frac) (e - frac)).

(** [num / den * 10 ^ p] with the fraction brought below one and not below a tenth. *)
Fixpoint normalise (fuel : nat) (num den p : Z) : Z * Z * Z :=
  match fuel with
  | O => (num, den, p)
  | S fuel =>
      if den <=? num then normalise fuel num (den * 10) (p + 1)
      else if num * 10 <? den then normalise fuel (num * 10) den (p - 1)
      else (num, den, p)
  end.

(** The shortest decimal that reads back as the double, nearest to it: its digits as an
    integer, their number, and the place of the point before them. *)
Fixpoint shortest (fuel : nat) (bits num den p n : Z) : Z * Z * Z :=
  let scaled := num * 10 ^ n in
  let low := scaled / den in
  let back q := decimal_to_f64 (Z.testbit bits 63) q n (p - n) =? bits in
  let up := (back (low + 1) && (negb (back low) || (den <=? 2 * (scaled mod den))))%bool in
  match fuel with
  | O => (low, n, p)
  | S fuel =>
      if up then (if low + 1 =? 10 ^ n then (10 ^ (n - 1), n, p + 1) else (low + 1, n, p))
      else if back low then (low, n, p)
      else shortest fuel bits num den p (n + 1)
  end.

Fixpoint str_repeat (c : ascii) (n : nat) : string := match n with O => EmptyString | S n => String c (str_repeat c n) end.

Definition f64_display (bits : Z) : string :=
  let sign := if Z.testbit bits 63 then "-" else EmptyString in
  match of_bits bits with
  | S754_nan => "NaN"
  | S754_infinity _ => sign +:+ "inf"
  | S754_zero _ => sign +:+ "0"
  | S754_finite _ m e =>
      let '(num, den) := if 0 <=? e then (Zpos m * 2 ^ e, 1) else (Zpos m, 2 ^ (- e)) in
      let '(num, den, p) := normalise 400 num den 0 in
      let '(digits, n, p) := shortest 17 bits num den p 1 in
      let text := i64_to_string digits in
      sign +:+
      (if p <=? 0 then "0." +:+ str_repeat "0"%char (Z.to_nat (- p)) +:+ text
       else if n <=? p then text +:+ str_repeat "0"%char (Z.to_nat (p - n))
       else String.substring 0 (Z.to_nat p) text +:+ "." +:+ String.substring (Z.to_nat p) (Z.to_nat (n - p)) text)
  end.
