(* ===== verification/Edn.v ===== *)
(** * EDN forms (corium-query/src/edn.rs) *)

From stdpp Require Import base list strings sorting.
From Stdlib Require Import Ascii ZArith Lia.
From S2P Require Import Prelude OrdMap Machine Keyword Text Values Crypt Float.
Local Open Scope Z_scope.

Module Edn.
#[local] Unset Elimination Schemes.
Inductive Edn :=
| Nil
| Bool (b : bool)
| Long (n : Z)
| Double (bits : Z)
| Str (s : string)
| Keyword (k : Keyword)
| Symbol (s : string)
| List (items : list Edn)
| Vector (items : list Edn)
| Map (pairs : list (Edn * Edn))
| Set_ (items : list Edn)
| Tagged (tag : string) (value : Edn).
End Edn.
Notation Edn := Edn.Edn.

(** Induction that reaches the forms inside collections. *)
Section induction.
Context (P : Edn -> Prop).
Hypothesis Hnil : P Edn.Nil.
Hypothesis Hbool : forall b, P (Edn.Bool b).
Hypothesis Hlong : forall n, P (Edn.Long n).
Hypothesis Hdouble : forall b, P (Edn.Double b).
Hypothesis Hstr : forall s, P (Edn.Str s).
Hypothesis Hkeyword : forall k, P (Edn.Keyword k).
Hypothesis Hsymbol : forall s, P (Edn.Symbol s).
Hypothesis Hlist : forall l, Forall P l -> P (Edn.List l).
Hypothesis Hvector : forall l, Forall P l -> P (Edn.Vector l).
Hypothesis Hmap : forall l, Forall (fun p => P p.1 /\ P p.2) l -> P (Edn.Map l).
Hypothesis Hset : forall l, Forall P l -> P (Edn.Set_ l).
Hypothesis Htagged : forall t v, P v -> P (Edn.Tagged t v).

Fixpoint Edn_ind (f : Edn) : P f :=
  let fix all l : Forall P l :=
    match l with [] => @List.Forall_nil _ _ | x :: l => @List.Forall_cons _ _ x l (Edn_ind x) (all l) end in
  let fix pairs l : Forall (fun p => P p.1 /\ P p.2) l :=
    match l with [] => @List.Forall_nil _ _ | (x, y) :: l => @List.Forall_cons _ _ (x, y) l (conj (Edn_ind x) (Edn_ind y)) (pairs l) end in
  match f with
  | Edn.Nil => Hnil | Edn.Bool b => Hbool b | Edn.Long n => Hlong n | Edn.Double b => Hdouble b
  | Edn.Str s => Hstr s | Edn.Keyword k => Hkeyword k | Edn.Symbol s => Hsymbol s
  | Edn.List l => Hlist l (all l) | Edn.Vector l => Hvector l (all l) | Edn.Map l => Hmap l (pairs l)
  | Edn.Set_ l => Hset l (all l) | Edn.Tagged t v => Htagged t v (Edn_ind v)
  end.
End induction.

(** ** Order *)

Definition edn_discriminant (f : Edn) : Z :=
  match f with
  | Edn.Nil => 0 | Edn.Bool _ => 1 | Edn.Long _ => 2 | Edn.Double _ => 3 | Edn.Str _ => 4 | Edn.Keyword _ => 5
  | Edn.Symbol _ => 6 | Edn.List _ => 7 | Edn.Vector _ => 8 | Edn.Map _ => 9 | Edn.Set_ _ => 10 | Edn.Tagged _ _ => 11
  end.

(** The derived order: by variant, then by contents. *)
Fixpoint edn_cmp (a b : Edn) : comparison :=
  let fix seq l k :=
    match l, k with
    | [], [] => Eq | [], _ => Lt | _, [] => Gt
    | x :: l, y :: k => match edn_cmp x y with Eq => seq l k | c => c end
    end in
  let fix pairs l k :=
    match l, k with
    | [], [] => Eq | [], _ => Lt | _, [] => Gt
    | (x, v) :: l, (y, w) :: k =>
        match edn_cmp x y with Eq => match edn_cmp v w with Eq => pairs l k | c => c end | c => c end
    end in
  match a, b with
  | Edn.Nil, Edn.Nil => Eq
  | Edn.Bool x, Edn.Bool y => cmp x y
  | Edn.Long x, Edn.Long y => cmp x y
  | Edn.Double x, Edn.Double y => cmp (sortable_bits x) (sortable_bits y)
  | Edn.Str x, Edn.Str y => cmp x y
  | Edn.Keyword x, Edn.Keyword y => cmp x y
  | Edn.Symbol x, Edn.Symbol y => cmp x y
  | Edn.List l, Edn.List k | Edn.Vector l, Edn.Vector k | Edn.Set_ l, Edn.Set_ k => seq l k
  | Edn.Map l, Edn.Map k => pairs l k
  | Edn.Tagged t v, Edn.Tagged u w => match cmp t u with Eq => edn_cmp v w | c => c end
  | _, _ => cmp (edn_discriminant a) (edn_discriminant b)
  end.

#[global] Instance edn_ord : Ord Edn := edn_cmp.

Definition edn_eqb (a b : Edn) : bool := match edn_cmp a b with Eq => true | _ => false end.

(** ** Accessors *)

Definition edn_keyword (text : string) : Edn := Edn.Keyword (keyword_parse text).

Definition as_symbol (f : Edn) : option string := match f with Edn.Symbol s => Some s | _ => None end.
Definition as_keyword (f : Edn) : option Keyword := match f with Edn.Keyword k => Some k | _ => None end.
Definition as_seq (f : Edn) : option (list Edn) := match f with Edn.List l | Edn.Vector l => Some l | _ => None end.

Definition edn_get (f key : Edn) : option Edn :=
  match f with Edn.Map pairs => option_map snd (find (fun p => edn_eqb p.1 key) pairs) | _ => None end.
