(* ===== verification/QueryAst.v ===== *)
(** * Queries and their parsing (corium-query/src/ast.rs) *)

From stdpp Require Import base list strings sorting.
From Stdlib Require Import Ascii ZArith Lia.
From S2P Require Import Prelude OrdMap Machine Ids Keyword Text Values Protect Edn.
Local Open Scope Z_scope.

(** ** Failures *)

(** A message is its template and what is formatted into it. *)
Inductive MessageArg :=
| MText (s : string)
| MNumber (n : Z)
| MForm (f : Edn)
| MValues (vs : list Value)
| MRows (rows : list (list Value))
| MProtect (e : ProtectError).

Record Message := msg { template : string; message_args : list MessageArg }.

Record EdnError := mk_edn_error { offset : Z; message : string }.

(** [Panic] is no value of the source's type: the query panics, with overflow checks on. *)
Module QueryError.
Inductive QueryError :=
| Parse (m : Message)
| Edn (e : EdnError)
| UnknownIdent (k : Keyword)
| UnknownSource (name : string)
| Unbound (var : string)
| Arity (m : Message)
| Type_ (m : Message)
| Unsupported (m : Message)
| FuelExhausted
| Protected (class : EntityId)
| Panic.
End QueryError.
Notation QueryError := QueryError.QueryError.

(** ** Abstract syntax *)

Notation Var := string (only parsing).

Definition DEFAULT_SRC : string := "$".

Record Aggregate := mk_aggregate { ag_op : string; ag_n : option Z; ag_var : Var }.

Module FindElem.
Inductive FindElem :=
| Var (v : string)
| Aggregate (a : Aggregate)
| Pull (v : string) (pattern : Edn).
End FindElem.
Notation FindElem := FindElem.FindElem.

Module FindSpec.
Inductive FindSpec :=
| Rel (elems : list FindElem)
| Coll (elem : FindElem)
| Tuple (elems : list FindElem)
| Scalar (elem : FindElem).
End FindSpec.
Notation FindSpec := FindSpec.FindSpec.

Definition elems (f : FindSpec) : list FindElem :=
  match f with
  | FindSpec.Rel elems | FindSpec.Tuple elems => elems
  | FindSpec.Coll elem | FindSpec.Scalar elem => [elem]
  end.

Definition elem_var (e : FindElem) : Var :=
  match e with
  | FindElem.Var v | FindElem.Pull v _ => v
  | FindElem.Aggregate a => ag_var a
  end.

Module InSpec.
Inductive InSpec :=
| Db (name : string)
| Rules
| Scalar (v : string)
| Tuple (vs : list string)
| Coll (v : string)
| Rel (vs : list string).
End InSpec.
Notation InSpec := InSpec.InSpec.

Module Term.
Inductive Term :=
| Var (v : string)
| Blank
| Const (form : Edn).
End Term.
Notation Term := Term.Term.

Record Pattern := mk_pattern { src : string; p_e : Term; p_a : Term; p_v : Term; p_tx : Term; p_added : Term }.

Module BindTarget.
Inductive BindTarget := Var (v : string) | Blank.
End BindTarget.
Notation BindTarget := BindTarget.BindTarget.

Module Binding.
Inductive Binding :=
| Scalar (v : string)
| Tuple (ts : list BindTarget)
| Coll (t : BindTarget)
| Rel (ts : list BindTarget).
End Binding.
Notation Binding := Binding.Binding.

Module Clause.
#[local] Unset Elimination Schemes.
Inductive Clause :=
| Pattern (p : Pattern)
| Pred (name : string) (args : list Term)
| Fn (name : string) (args : list Term) (binding : Binding)
| Not (src : string) (vars : option (list string)) (clauses : list Clause)
| Or (src : string) (vars : option (list string)) (branches : list (list Clause))
| RuleCall (name : string) (args : list Term).
End Clause.
Notation Clause := Clause.Clause.

Record RuleDef := mk_rule { rd_name : string; required : list Var; free : list Var; rd_clauses : list Clause }.

Definition head_vars (d : RuleDef) : list Var := required d ++ free d.

Record Query := mk_query { q_find : FindSpec; q_with : list Var; q_inputs : list InSpec; q_wheres : list Clause }.

(** ** Parsing *)

Definition begins (c : ascii) (s : string) : bool := match s with String d _ => bool_decide (d = c) | EmptyString => false end.

Definition parse_error {A} (m : string) (args : list MessageArg) : result QueryError A := Err (QueryError.Parse (msg m args)).

Definition or_parse {A} (o : option A) (m : string) : result QueryError A := ok_or o (QueryError.Parse (msg m [])).

Definition term_parse (form : Edn) : Term :=
  match as_symbol form with
  | Some sym =>
      if bool_decide (sym = "_") then Term.Blank
      else if begins "?" sym then Term.Var sym else Term.Const form
  | None => Term.Const form
  end.

Definition expect_var (form : Edn) : result QueryError Var :=
  match as_symbol form with
  | Some sym => if begins "?" sym then Ok sym else parse_error "expected variable, got {}" [MForm form]
  | None => parse_error "expected variable, got {}" [MForm form]
  end.

Definition is_src_symbol (form : Edn) : bool := is_some_and (as_symbol form) (begins "$").

Definition is_symbol (name : string) (form : Edn) : bool := bool_decide (as_symbol form = Some name).

(** The last of some forms is the symbol [name]. *)
Definition last_is (name : string) (items : list Edn) : bool := is_some_and (last items) (is_symbol name).

(** Pairs a keyword without namespace with the forms up to the next one. *)
Fixpoint group_sections (items : list Edn) (pairs : list (Edn * Edn)) (current : option (Edn * list Edn)) : result QueryError (list (Edn * Edn)) :=
  match items with
  | [] => Ok (match current with Some (key, values) => pairs ++ [(key, Edn.Vector values)] | None => pairs end)
  | item :: items =>
      match item with
      | Edn.Keyword k =>
          match namespace k, current with
          | None, Some (key, values) => group_sections items (pairs ++ [(key, Edn.Vector values)]) (Some (item, []))
          | None, None => group_sections items pairs (Some (item, []))
          | Some _, Some (key, values) => group_sections items pairs (Some (key, values ++ [item]))
          | Some _, None => parse_error "vector query must start with a keyword" []
          end
      | _ =>
          match current with
          | Some (key, values) => group_sections items pairs (Some (key, values ++ [item]))
          | None => parse_error "vector query must start with a keyword" []
          end
      end
  end.

Definition normalize_to_map (form : Edn) : result QueryError Edn :=
  match form with
  | Edn.Map _ => Ok form
  | Edn.Vector items =>
      pairs ← group_sections items [] None;
      Ok (Edn.Map (sort_by (fun l r => edn_cmp l.1 r.1) pairs))
  | _ => parse_error "query must be a map or vector" []
  end.

Definition parse_find_elem (form : Edn) : result QueryError FindElem :=
  match form with
  | Edn.Symbol sym => if begins "?" sym then Ok (FindElem.Var sym) else parse_error "bad find element {}" [MForm form]
  | Edn.List items =>
      match items with
      | [] => parse_error "empty find call" []
      | op :: rest =>
          op ← or_parse (as_symbol op) "find call must start with a symbol";
          if bool_decide (op = "pull") then
            match rest with
            | [entity; pattern] => v ← expect_var entity; Ok (FindElem.Pull v pattern)
            | _ => parse_error "pull takes an entity variable and a pattern" []
            end
          else
            match rest with
            | [var] => v ← expect_var var; Ok (FindElem.Aggregate (mk_aggregate op None v))
            | [Edn.Long n; var] => v ← expect_var var; Ok (FindElem.Aggregate (mk_aggregate op (Some n) v))
            | _ => parse_error "malformed aggregate ({} …)" [MText op]
            end
      end
  | _ => parse_error "bad find element {}" [MForm form]
  end.

Definition parse_find (items : list Edn) : result QueryError FindSpec :=
  match items with
  | [] => parse_error ":find requires at least one element" []
  | first :: rest =>
      if match rest with [dot] => is_symbol "." dot | _ => false end then e ← parse_find_elem first; Ok (FindSpec.Scalar e)
      else
        match first, rest with
        | Edn.Vector inner, [] =>
            if last_is "..." inner then
              match inner with
              | [x; _] => e ← parse_find_elem x; Ok (FindSpec.Coll e)
              | _ => parse_error "collection find takes one element" []
              end
            else es ← try_map parse_find_elem inner; Ok (FindSpec.Tuple es)
        | _, _ => es ← try_map parse_find_elem items; Ok (FindSpec.Rel es)
        end
  end.

Definition parse_in_spec (form : Edn) : result QueryError InSpec :=
  match form with
  | Edn.Symbol sym =>
      if begins "$" sym then Ok (InSpec.Db sym)
      else if bool_decide (sym = "%") then Ok InSpec.Rules
      else if begins "?" sym then Ok (InSpec.Scalar sym)
      else parse_error "bad :in binding {}" [MForm form]
  | Edn.Vector items =>
      if last_is "..." items then
        match items with
        | [x; _] => v ← expect_var x; Ok (InSpec.Coll v)
        | _ => parse_error "collection binding takes one variable" []
        end
      else
        match items with
        | [Edn.Vector inner] => vs ← try_map expect_var inner; Ok (InSpec.Rel vs)
        | _ => vs ← try_map expect_var items; Ok (InSpec.Tuple vs)
        end
  | _ => parse_error "bad :in binding {}" [MForm form]
  end.

Definition parse_target (form : Edn) : result QueryError BindTarget :=
  match as_symbol form with
  | Some sym =>
      if bool_decide (sym = "_") then Ok BindTarget.Blank
      else if begins "?" sym then Ok (BindTarget.Var sym) else parse_error "bad binding target {}" [MForm form]
  | None => parse_error "bad binding target {}" [MForm form]
  end.

Definition parse_binding (form : Edn) : result QueryError Binding :=
  match form with
  | Edn.Symbol sym => if begins "?" sym then Ok (Binding.Scalar sym) else parse_error "bad binding form {}" [MForm form]
  | Edn.Vector items =>
      if last_is "..." items then
        match items with
        | [x; _] => t ← parse_target x; Ok (Binding.Coll t)
        | _ => parse_error "collection binding takes one target" []
        end
      else
        match items with
        | [Edn.Vector inner] => ts ← try_map parse_target inner; Ok (Binding.Rel ts)
        | _ => ts ← try_map parse_target items; Ok (Binding.Tuple ts)
        end
  | _ => parse_error "bad binding form {}" [MForm form]
  end.

(** A leading source symbol, or the default source. *)
Definition split_src (items : list Edn) : string * list Edn :=
  match items with
  | first :: rest => if is_src_symbol first then (unwrap_or (as_symbol first) DEFAULT_SRC, rest) else (DEFAULT_SRC, items)
  | [] => (DEFAULT_SRC, items)
  end.

Definition parse_vector_clause (items : list Edn) : result QueryError Clause :=
  match items with
  | Edn.List call :: rest =>
      match call with
      | [] => parse_error "empty call clause" []
      | name :: args =>
          name ← or_parse (as_symbol name) "call must start with a symbol";
          let args := map term_parse args in
          match rest with
          | [] => Ok (Clause.Pred name args)
          | [binding] => b ← parse_binding binding; Ok (Clause.Fn name args b)
          | _ => parse_error "function clause takes one binding form" []
          end
      end
  | _ =>
      let (src, rest) := split_src items in
      if ((length rest =? 0) || (5 <? length rest))%nat then parse_error "data pattern takes one to five positions" []
      else
        let term i := match rest !! i with Some form => term_parse form | None => Term.Blank end in
        Ok (Clause.Pattern (mk_pattern src (term 0%nat) (term 1%nat) (term 2%nat) (term 3%nat) (term 4%nat)))
  end.

Definition parse_vars (form : Edn) (what : string) : result QueryError (list Var) :=
  items ← ok_or (as_seq form) (QueryError.Parse (msg "{} requires a variable vector" [MText what]));
  try_map expect_var items.

Section try_map.
Context {A B : Type} (f : A -> result QueryError B).

(** [try_map], with its function fixed for recursion through it. *)
Fixpoint try_each (l : list A) : result QueryError (list B) :=
  match l with
  | [] => Ok []
  | x :: l => y ← f x; ys ← try_each l; Ok (y :: ys)
  end.
End try_map.

Fixpoint parse_clause (form : Edn) : result QueryError Clause :=
  let branches := try_each (fun form =>
    match form with
    | Edn.List (head :: rest) => if is_symbol "and" head then try_each parse_clause rest else c ← parse_clause form; Ok [c]
    | _ => c ← parse_clause form; Ok [c]
    end) in
  let list_clause (src : string) (items : list Edn) : result QueryError Clause :=
    match items with
    | [] => parse_error "empty list clause" []
    | head :: rest =>
        head ← or_parse (as_symbol head) "list clause must start with a symbol";
        if bool_decide (head = "not") then cs ← try_each parse_clause rest; Ok (Clause.Not src None cs)
        else if bool_decide (head = "not-join") then
          match rest with
          | [] => parse_error "{} requires a variable vector" [MText "not-join"]
          | vars :: rest => vs ← parse_vars vars "not-join"; cs ← try_each parse_clause rest; Ok (Clause.Not src (Some vs) cs)
          end
        else if bool_decide (head = "or") then bs ← branches rest; Ok (Clause.Or src None bs)
        else if bool_decide (head = "or-join") then
          match rest with
          | [] => parse_error "{} requires a variable vector" [MText "or-join"]
          | vars :: rest => vs ← parse_vars vars "or-join"; bs ← branches rest; Ok (Clause.Or src (Some vs) bs)
          end
        else if bool_decide (head = "and") then parse_error "(and …) is only valid inside or" []
        else Ok (Clause.RuleCall head (map term_parse rest))
    end in
  match form with
  | Edn.Vector items => parse_vector_clause items
  | Edn.List items =>
      match items with
      | first :: rest => if is_src_symbol first then list_clause (unwrap_or (as_symbol first) DEFAULT_SRC) rest else list_clause DEFAULT_SRC items
      | [] => list_clause DEFAULT_SRC items
      end
  | _ => parse_error "bad clause {}" [MForm form]
  end.

Definition parse_clauses (forms : list Edn) : result QueryError (list Clause) := try_each parse_clause forms.

Definition parse_rule (def : Edn) : result QueryError RuleDef :=
  items ← or_parse (as_seq def) "rule definition must be a vector";
  match items with
  | [] => parse_error "rule definition requires a head" []
  | head :: body =>
      match head with
      | Edn.List head_items =>
          match head_items with
          | [] => parse_error "rule head requires a name" []
          | name :: head_args =>
              name ← or_parse (as_symbol name) "rule name must be a symbol";
              '(required, free) ←
                match head_args with
                | Edn.Vector required :: rest => r ← try_map expect_var required; f ← try_map expect_var rest; Ok (r, f)
                | _ => f ← try_map expect_var head_args; Ok ([], f)
                end;
              cs ← parse_clauses body;
              Ok (mk_rule name required free cs)
          end
      | _ => parse_error "rule head must be a list" []
      end
  end.

Definition parse_rules (form : Edn) : result QueryError (list RuleDef) :=
  defs ← or_parse (as_seq form) "rule set must be a vector"; try_map parse_rule defs.

(** ** Variables *)

Definition VarSet : Type := list Var.

Definition extend (s : VarSet) (vs : list Var) : VarSet := fold_left (fun s v => os_insert v s) vs s.

Definition term_vars (t : Term) : list Var := match t with Term.Var v => [v] | _ => [] end.
Definition target_vars (t : BindTarget) : list Var := match t with BindTarget.Var v => [v] | BindTarget.Blank => [] end.

Definition binding_vars (b : Binding) : list Var :=
  match b with
  | Binding.Scalar v => [v]
  | Binding.Coll t => target_vars t
  | Binding.Tuple ts | Binding.Rel ts => flat_map target_vars ts
  end.

Definition pattern_terms (p : Pattern) : list Term := [p_e p; p_a p; p_v p; p_tx p; p_added p].

Fixpoint clause_vars (c : Clause) : VarSet :=
  match c with
  | Clause.Pattern p => extend [] (flat_map term_vars (pattern_terms p))
  | Clause.Pred _ args | Clause.RuleCall _ args => extend [] (flat_map term_vars args)
  | Clause.Fn _ args binding => extend (extend [] (flat_map term_vars args)) (binding_vars binding)
  | Clause.Not _ (Some vars) _ | Clause.Or _ (Some vars) _ => extend [] vars
  | Clause.Not _ None cs => fold_left (fun out c => extend out (clause_vars c)) cs []
  | Clause.Or _ None bs => fold_left (fun out b => fold_left (fun out c => extend out (clause_vars c)) b out) bs []
  end.

Definition clauses_vars (cs : list Clause) : VarSet := fold_left (fun out c => extend out (clause_vars c)) cs [].

(** The branches of a plain [or] bind the same variables. *)
Fixpoint branches_agree (expected : option VarSet) (bs : list (list Clause)) : result QueryError unit :=
  match bs with
  | [] => Ok tt
  | b :: bs =>
      let bound := clauses_vars b in
      match expected with
      | None => branches_agree (Some bound) bs
      | Some prev => if bool_decide (prev = bound) then branches_agree expected bs else parse_error "or branches must bind the same variables" []
      end
  end.

Fixpoint validate_or (c : Clause) : result QueryError unit :=
  match c with
  | Clause.Or _ vars bs =>
      _ ← match vars with None => branches_agree None bs | Some _ => Ok tt end;
      _ ← try_each (fun b => try_each validate_or b) bs; Ok tt
  | Clause.Not _ _ cs => _ ← try_each validate_or cs; Ok tt
  | _ => Ok tt
  end.

Definition input_vars (i : InSpec) : list Var :=
  match i with
  | InSpec.Scalar v | InSpec.Coll v => [v]
  | InSpec.Tuple vs | InSpec.Rel vs => vs
  | InSpec.Db _ | InSpec.Rules => []
  end.

Definition available (q : Query) : VarSet :=
  fold_left (fun s c => extend s (clause_vars c)) (q_wheres q) (extend [] (flat_map input_vars (q_inputs q))).

Definition validate (q : Query) : result QueryError unit :=
  let check v := if os_mem v (available q) then Ok tt else Err (QueryError.Unbound v) in
  _ ← try_map check (map elem_var (elems (q_find q)));
  _ ← try_map check (q_with q);
  _ ← try_map validate_or (q_wheres q);
  Ok tt.

Definition parse_query (form : Edn) : result QueryError Query :=
  m ← normalize_to_map form;
  find_form ← or_parse (edn_get m (edn_keyword "find")) "query requires :find";
  find_items ← or_parse (as_seq find_form) ":find must be a vector";
  find ← parse_find find_items;
  with_ ← match edn_get m (edn_keyword "with") with
          | None => Ok []
          | Some form => items ← or_parse (as_seq form) ":with must be a vector"; try_map expect_var items
          end;
  inputs ← match edn_get m (edn_keyword "in") with
           | None => Ok [InSpec.Db DEFAULT_SRC]
           | Some form => items ← or_parse (as_seq form) ":in must be a vector"; try_map parse_in_spec items
           end;
  wheres ← match edn_get m (edn_keyword "where") with
           | None => Ok []
           | Some form => items ← or_parse (as_seq form) ":where must be a vector"; parse_clauses items
           end;
  let query := mk_query find with_ inputs wheres in
  _ ← validate query;
  Ok query.
