(* ===== verification/Builtins.v ===== *)
(** * Predicates, functions and aggregates of queries (corium-query/src/builtins.rs,
    aggregate.rs)

    The Unicode case tables of the standard library are the interface [UnicodeCase]. *)

From stdpp Require Import base list strings sorting.
From Stdlib Require Import Ascii ZArith Lia.
From S2P Require Import Prelude OrdMap Machine Ids Keyword Text Values Crypt Float Protect Edn QueryAst.
Local Open Scope Z_scope.

Class UnicodeCase := { to_uppercase : string -> string; to_lowercase : string -> string }.

Module CallResult.
Inductive CallResult :=
| Test (b : bool)
| Scalar (v : Value)
| Coll (vs : list Value)
| Rel (rows : list (list Value)).
End CallResult.
Notation CallResult := CallResult.CallResult.

Definition type_error {A} (name : string) (args : list Value) : result QueryError A :=
  Err (QueryError.Type_ (msg "{} cannot be applied to {:?}" [MText name; MValues args])).
Definition arity_error {A} (name : string) : result QueryError A :=
  Err (QueryError.Arity (msg "wrong number of arguments to {}" [MText name])).
Definition type_fault {A} (text : string) : result QueryError A := Err (QueryError.Type_ (msg text [])).

(** ** Comparison *)

Inductive Num := NLong (n : Z) | NDouble (bits : Z).

Definition as_num (value : Value) : option Num :=
  match value with
  | Value.Long v | Value.Instant v => Some (NLong v)
  | Value.Double v => Some (NDouble v)
  | Value.Ref e => if e <? 2 ^ 63 then Some (NLong e) else None
  | _ => None
  end.

Definition num_f64 (n : Num) : Z := match n with NLong v => i64_as_f64 v | NDouble v => v end.

Definition protected_class (values : list Value) : option EntityId :=
  head (filter_map (fun v => match v with Value.Sealed s => Some (class s) | _ => None end) values).

(** [TotalF64]'s order. *)
Definition f64_cmp (a b : Z) : comparison := cmp (sortable_bits a) (sortable_bits b).

Definition compare (left right : Value) : result QueryError comparison :=
  match protected_class [left; right] with
  | Some class => Err (QueryError.Protected class)
  | None =>
      match as_num left, as_num right with
      | Some (NLong l), Some (NLong r) => Ok (cmp l r)
      | Some l, Some r => Ok (f64_cmp (num_f64 l) (num_f64 r))
      | _, _ =>
          match left, right with
          | Value.Str l, Value.Str r => Ok (cmp l r)
          | Value.Bool l, Value.Bool r => Ok (cmp l r)
          | Value.Keyword l, Value.Keyword r => Ok (cmp l r)
          | Value.Uuid l, Value.Uuid r => Ok (cmp l r)
          | Value.Bytes l, Value.Bytes r => Ok (cmp l r)
          | _, _ => Err (QueryError.Type_ (msg "cannot compare {:?} with {:?}" [MValues [left]; MValues [right]]))
          end
      end
  end.

Definition loose_eq (left right : Value) : bool := match compare left right with Ok Eq => true | _ => false end.

(** Adjacent pairs. *)
Fixpoint windows (l : list Value) : list (Value * Value) :=
  match l with
  | x :: (y :: _) as l' => (x, y) :: windows l'
  | _ => []
  end.

Fixpoint chain_compare (pairs : list (Value * Value)) (accept : comparison -> bool) : result QueryError CallResult :=
  match pairs with
  | [] => Ok (CallResult.Test true)
  | (l, r) :: pairs =>
      match compare l r with
      | Ok o => if accept o then chain_compare pairs accept else Ok (CallResult.Test false)
      | Err (QueryError.Protected _) => Ok (CallResult.Test false)
      | Err e => Err e
      end
  end.

Definition is_lt (o : comparison) : bool := match o with Lt => true | _ => false end.
Definition is_gt (o : comparison) : bool := match o with Gt => true | _ => false end.
Definition is_le (o : comparison) : bool := negb (is_gt o).
Definition is_ge (o : comparison) : bool := negb (is_lt o).

(** ** Arithmetic *)

Definition checked_i64 (n : Z) : option Z := if (- 2 ^ 63 <=? n) && (n <? 2 ^ 63) then Some n else None.

Definition plain_num (v : Value) : option Num :=
  match v with Value.Long n => Some (NLong n) | Value.Double b => Some (NDouble b) | _ => None end.

Fixpoint fold_nums (name : string) (all : list Value) (long_op : Z -> Z -> option Z) (double_op : Z -> Z -> Z) (acc : Num) (args : list Value)
    : result QueryError Num :=
  match args with
  | [] => Ok acc
  | arg :: args =>
      match plain_num arg with
      | None => type_error name all
      | Some rhs =>
          acc ← match acc, rhs with
                | NLong l, NLong r => match long_op l r with Some v => Ok (NLong v) | None => Err (QueryError.Type_ (msg "{} overflowed" [MText name])) end
                | _, _ => Ok (NDouble (double_op (num_f64 acc) (num_f64 rhs)))
                end;
          fold_nums name all long_op double_op acc args
      end
  end.

Definition num_value (n : Num) : Value := match n with NLong v => Value.Long v | NDouble b => Value.Double b end.

Definition fold_numeric (name : string) (args : list Value) (long_op : Z -> Z -> option Z) (double_op : Z -> Z -> Z) : result QueryError Value :=
  match args with
  | [] => arity_error name
  | first :: rest =>
      match plain_num first with
      | None => type_error name args
      | Some acc => n ← fold_nums name args long_op double_op acc rest; Ok (num_value n)
      end
  end.

Definition string_arg (name : string) (args : list Value) (index : nat) : result QueryError string :=
  match args !! index with Some (Value.Str s) => Ok s | _ => type_error name args end.

Definition long_arg (name : string) (args : list Value) (index : nat) : result QueryError Z :=
  match args !! index with Some (Value.Long v) => Ok v | _ => type_error name args end.

Definition one_long (name : string) (args : list Value) : result QueryError Z :=
  if negb (length args =? 1)%nat then arity_error name else long_arg name args 0.

Definition two_longs (name : string) (args : list Value) : result QueryError (Z * Z) :=
  if negb (length args =? 2)%nat then arity_error name else l ← long_arg name args 0; r ← long_arg name args 1; Ok (l, r).

(** ** Text *)

(** The characters of a text: a byte that continues none starts one. *)
Definition continues_char (b : Z) : bool := Z.land b 0xC0 =? 0x80.

Fixpoint chars (l : bytes) : list bytes :=
  match l with
  | [] => []
  | b :: l =>
      match chars l with
      | c :: cs => match c with d :: _ => if continues_char d then (b :: c) :: cs else [b] :: c :: cs | [] => [b] :: cs end
      | [] => [[b]]
      end
  end.

Fixpoint is_prefix_of (p l : bytes) : bool :=
  match p, l with
  | [], _ => true
  | x :: p, y :: l => (x =? y) && is_prefix_of p l
  | _, [] => false
  end.

Fixpoint contains_bytes (l p : bytes) : bool :=
  is_prefix_of p l || match l with [] => false | _ :: l => contains_bytes l p end.

Definition hex_digits (width : nat) (n : Z) : string :=
  of_bytes (map (fun i => hex_char (n / 16 ^ Z.of_nat (width - 1 - i) mod 16)) (seq 0 width)).

Definition join_text (sep : string) (parts : list string) : string :=
  match parts with [] => EmptyString | p :: ps => fold_left (fun acc q => acc +:+ sep +:+ q) ps p end.

Definition value_to_display (value : Value) : string :=
  match value with
  | Value.Bool v => if v then "true" else "false"
  | Value.Long v | Value.Instant v => i64_to_string v
  | Value.Double v => f64_display v
  | Value.Str s => s
  | Value.Uuid v => hex_digits 32 v
  | Value.Keyword id => ":kw" +:+ u64_to_string id
  | Value.Ref e => u64_to_string e
  | Value.Bytes b => "[" +:+ join_text ", " (map (hex_digits 2) b) +:+ "]"
  | Value.Sealed _ => "#corium/redacted"
  end.

(** ** The native set *)

Definition NATIVE : list string :=
  ["<"; "<="; ">"; ">="; "="; "=="; "!="; "not="; "even?"; "odd?"; "zero?"; "pos?"; "neg?"; "true?"; "false?";
   "starts-with?"; "ends-with?"; "includes?"; "+"; "-"; "*"; "/"; "quot"; "rem"; "mod"; "inc"; "dec"; "abs"; "min"; "max";
   "str"; "count"; "subs"; "upper-case"; "lower-case"; "identity"].

Definition is_native (name : string) : bool := existsb (fun n => bool_decide (n = name)) NATIVE.

Section calls.
Context {U : UnicodeCase}.

Definition test (r : result QueryError bool) : result QueryError CallResult := b ← r; Ok (CallResult.Test b).
Definition scalar (r : result QueryError Value) : result QueryError CallResult := v ← r; Ok (CallResult.Scalar v).

(** Division by zero is refused; [i64::MIN / -1] overflows. *)
Definition divide (name : string) (args : list Value) (op : Z -> Z -> Z) : result QueryError CallResult :=
  '(l, r) ← two_longs name args;
  if r =? 0 then type_fault "division by zero"
  else if (l =? - 2 ^ 63) && (r =? -1) then Err QueryError.Panic
  else Ok (CallResult.Scalar (Value.Long (op l r))).

Fixpoint best_of (better : comparison -> bool) (best : Value) (args : list Value) : result QueryError Value :=
  match args with
  | [] => Ok best
  | arg :: args => o ← compare arg best; best_of better (if better o then arg else best) args
  end.

Definition slash (args : list Value) : result QueryError CallResult :=
  match args with
  | [x; y] =>
      match x, y with
      | Value.Long _, Value.Long 0 => type_fault "division by zero"
      | _, _ =>
          let inexact :=
            match as_num x, as_num y with
            | Some l, Some r => Ok (CallResult.Scalar (Value.Double (f64_div (num_f64 l) (num_f64 r))))
            | _, _ => type_error "/" args
            end in
          match x, y with
          | Value.Long l, Value.Long r =>
              if (l =? - 2 ^ 63) && (r =? -1) then Err QueryError.Panic
              else if Z.rem l r =? 0 then Ok (CallResult.Scalar (Value.Long (Z.quot l r))) else inexact
          | _, _ => inexact
          end
      end
  | _ => arity_error "/"
  end.

Definition subs (args : list Value) : result QueryError CallResult :=
  text ← string_arg "subs" args 0;
  start ← long_arg "subs" args 1;
  if start <? 0 then type_error "subs" args
  else
    let cs := chars (as_bytes text) in
    stop ← match args !! 2%nat with
           | Some (Value.Long v) => if v <? 0 then type_error "subs" args else Ok v
           | None => Ok (Z.of_nat (length cs))
           | Some _ => type_error "subs" args
           end;
    Ok (CallResult.Scalar (Value.Str (of_bytes (concat (take (Z.to_nat (stop - start)) (drop (Z.to_nat start) cs)))))).

Definition call (name : string) (args : list Value) : result QueryError CallResult :=
  let named (n : string) := bool_decide (name = n) in
  let unprotected := negb (is_some (protected_class args)) in
  if named "<" then chain_compare (windows args) is_lt
  else if named "<=" then chain_compare (windows args) is_le
  else if named ">" then chain_compare (windows args) is_gt
  else if named ">=" then chain_compare (windows args) is_ge
  else if named "=" || named "==" then Ok (CallResult.Test (unprotected && forallb (fun w => loose_eq w.1 w.2) (windows args)))
  else if named "!=" || named "not=" then Ok (CallResult.Test (unprotected && existsb (fun w => negb (loose_eq w.1 w.2)) (windows args)))
  else if named "even?" then test (n ← one_long name args; Ok (Z.rem n 2 =? 0))
  else if named "odd?" then test (n ← one_long name args; Ok (negb (Z.rem n 2 =? 0)))
  else if named "zero?" then test (n ← one_long name args; Ok (n =? 0))
  else if named "pos?" then test (n ← one_long name args; Ok (0 <? n))
  else if named "neg?" then test (n ← one_long name args; Ok (n <? 0))
  else if named "true?" then Ok (CallResult.Test (bool_decide (args = [Value.Bool true])))
  else if named "false?" then Ok (CallResult.Test (bool_decide (args = [Value.Bool false])))
  else if named "starts-with?" then test (s ← string_arg name args 0; t ← string_arg name args 1; Ok (is_prefix_of (as_bytes t) (as_bytes s)))
  else if named "ends-with?" then test (s ← string_arg name args 0; t ← string_arg name args 1; Ok (is_prefix_of (rev (as_bytes t)) (rev (as_bytes s))))
  else if named "includes?" then test (s ← string_arg name args 0; t ← string_arg name args 1; Ok (contains_bytes (as_bytes s) (as_bytes t)))
  else if named "+" then scalar (fold_numeric name args (fun l r => checked_i64 (l + r)) f64_add)
  else if named "-" then
    scalar (fold_numeric name (match args with [x] => [Value.Long 0; x] | _ => args end) (fun l r => checked_i64 (l - r)) f64_sub)
  else if named "*" then scalar (fold_numeric name args (fun l r => checked_i64 (l * r)) f64_mul)
  else if named "/" then slash args
  else if named "quot" then divide name args Z.quot
  else if named "rem" then divide name args Z.rem
  else if named "mod" then divide name args (fun l r => l mod Z.abs r)
  else if named "inc" then scalar (n ← one_long name args; n ← ok_or (checked_i64 (n + 1)) (QueryError.Type_ (msg "inc overflowed" [])); Ok (Value.Long n))
  else if named "dec" then scalar (n ← one_long name args; n ← ok_or (checked_i64 (n - 1)) (QueryError.Type_ (msg "dec overflowed" [])); Ok (Value.Long n))
  else if named "abs" then
    match args with
    | [Value.Long v] => if v =? - 2 ^ 63 then Err QueryError.Panic else Ok (CallResult.Scalar (Value.Long (Z.abs v)))
    | [Value.Double v] => Ok (CallResult.Scalar (Value.Double (f64_abs v)))
    | _ => type_error name args
    end
  else if named "min" || named "max" then
    match args with
    | [] => arity_error name
    | first :: rest =>
        match protected_class args with
        | Some class => Err (QueryError.Protected class)
        | None => scalar (best_of (if named "min" then is_lt else is_gt) first rest)
        end
    end
  else if named "str" then Ok (CallResult.Scalar (Value.Str (fold_right (fun v s => value_to_display v +:+ s) EmptyString args)))
  else if named "count" then scalar (s ← string_arg name args 0; Ok (Value.Long (Z.of_nat (length (chars (as_bytes s))))))
  else if named "subs" then subs args
  else if named "upper-case" then scalar (s ← string_arg name args 0; Ok (Value.Str (to_uppercase s)))
  else if named "lower-case" then scalar (s ← string_arg name args 0; Ok (Value.Str (to_lowercase s)))
  else if named "identity" then match args with [value] => Ok (CallResult.Scalar value) | _ => arity_error name end
  else Err (QueryError.Unsupported (msg "unknown function or predicate {}" [MText name])).
End calls.

(** ** Aggregates *)

Module AggOut.
Inductive AggOut := Value (v : Value) | Coll (vs : list Values.Value) | Set_ (vs : list Values.Value).
End AggOut.
Notation AggOut := AggOut.AggOut.

(** [compare] as the comparator of a sort. *)
Definition sort_order (l r : Value) : comparison := match compare l r with Ok o => o | Err _ => Eq end.

Definition sort_values (values : list Value) : result QueryError (list Value) :=
  if is_some (protected_class values) then Ok (sort_by cmp values)
  else _ ← try_map (fun w => compare w.1 w.2) (windows values); Ok (sort_by sort_order values).

Definition dedup_values (values : list Value) : list Value :=
  fold_left (fun out v => if existsb (fun w => bool_decide (w = v)) out then out else out ++ [v]) values [].

Definition distinct_sorted (values : list Value) : result QueryError (list Value) := sort_values (dedup_values values).

Fixpoint numeric_sum (values : list Value) (long_sum double_sum : Z) (any_double : bool) : result QueryError Value :=
  match values with
  | [] => Ok (if any_double then Value.Double (f64_add double_sum (i64_as_f64 long_sum)) else Value.Long long_sum)
  | Value.Long v :: values =>
      n ← ok_or (checked_i64 (long_sum + v)) (QueryError.Type_ (msg "sum overflowed" [])); numeric_sum values n double_sum any_double
  | Value.Double v :: values => numeric_sum values long_sum (f64_add double_sum v) true
  | _ => type_fault "sum requires numbers"
  end.

Definition as_f64 (value : Value) : result QueryError Z :=
  match value with
  | Value.Long v => Ok (i64_as_f64 v)
  | Value.Double v => Ok v
  | _ => type_fault "aggregate requires numbers"
  end.

(** [Iterator::sum] of doubles starts from negative zero. *)
Definition f64_sum (l : list Z) : Z := fold_left f64_add l (2 ^ 63).

Definition usize_as_f64 (n : nat) : Z := i64_as_f64 (Z.of_nat n).

Definition take_count (op : string) (n : option Z) : result QueryError nat :=
  match n with
  | Some n => if n <? 0 then Err (QueryError.Arity (msg "({} n ?x) requires a positive count" [MText op])) else Ok (Z.to_nat n)
  | None => Err (QueryError.Arity (msg "({} n ?x) requires a positive count" [MText op]))
  end.

Definition apply_aggregate (op : string) (n : option Z) (values : list Value) : result QueryError AggOut :=
  let named (o : string) := bool_decide (op = o) in
  let none := negb (is_some n) in
  let value (r : result QueryError Value) := v ← r; Ok (AggOut.Value v) in
  let count (k : nat) := Ok (AggOut.Value (Value.Long (Z.min (Z.of_nat k) (2 ^ 63 - 1)))) in
  match (if named "min" || named "max" || named "sum" || named "avg" || named "median" || named "variance" || named "stddev" then protected_class values else None) with
  | Some class => Err (QueryError.Protected class)
  | None =>
      if named "count" && none then count (length values)
      else if named "count-distinct" && none then vs ← distinct_sorted values; count (length vs)
      else if named "sum" && none then value (numeric_sum values 0 0 false)
      else if named "avg" && none then
        match values with
        | [] => type_fault "avg of no values"
        | _ => nums ← try_map as_f64 values; Ok (AggOut.Value (Value.Double (f64_div (f64_sum nums) (usize_as_f64 (length values)))))
        end
      else if named "median" && none then
        match values with
        | [] => type_fault "median of no values"
        | first :: _ => sorted ← sort_values values; Ok (AggOut.Value (nth ((length sorted - 1) / 2)%nat sorted first))
        end
      else if (named "min" || named "max") && none then
        match values with
        | [] => Err (QueryError.Type_ (msg "{} of no values" [MText op]))
        | first :: rest => value (best_of (if named "min" then is_lt else is_gt) first rest)
        end
      else if (named "min" || named "sample") && negb none then k ← take_count op n; sorted ← distinct_sorted values; Ok (AggOut.Coll (take k sorted))
      else if named "max" && negb none then k ← take_count op n; sorted ← distinct_sorted values; Ok (AggOut.Coll (drop (length sorted - k) sorted))
      else if named "distinct" && none then vs ← distinct_sorted values; Ok (AggOut.Set_ vs)
      else if (named "variance" || named "stddev") && none then
        match values with
        | [] => Err (QueryError.Type_ (msg "{} of no values" [MText op]))
        | _ =>
            nums ← try_map as_f64 values;
            let n := usize_as_f64 (length nums) in
            let mean := f64_div (f64_sum nums) n in
            let variance := f64_div (f64_sum (map (fun v => f64_mul (f64_sub v mean) (f64_sub v mean)) nums)) n in
            Ok (AggOut.Value (Value.Double (if named "variance" then variance else f64_sqrt variance)))
        end
      else Err (QueryError.Unsupported (msg "unknown aggregate ({} …)" [MText op]))
  end.
