(* ===== verification/QueryExec.v ===== *)
(** * Planning and evaluating queries (corium-query/src/boundary.rs, plan.rs, exec.rs)

    A computation takes the counters and rule tables of the execution and gives them back
    with its result. Rules may call each other without end, so it also takes how deep they
    may nest and how many rounds a fixpoint may take, and is [None] beyond that. *)

From stdpp Require Import base list strings sorting.
From Stdlib Require Import Ascii ZArith Lia.
From S2P Require Import Prelude OrdMap Machine Ids Keyword Text Values Encoding Datoms Schema Bootstrap SchemaDatoms Crypt Db.
From S2P Require Import Protect Float Edn QueryAst Builtins.
Local Open Scope Z_scope.

(** ** The boundary *)

Definition UNKNOWN_KEYWORD : Z := 2 ^ 64 - 1.

Definition u64_of_i64 (n : Z) : option Z := if n <? 0 then None else Some n.

Fixpoint parse_hex (l : bytes) (acc : Z) : option Z :=
  match l with
  | [] => Some acc
  | b :: l => d ← hex_value b; if acc * 16 + d <? 2 ^ 128 then parse_hex l (acc * 16 + d) else None
  end.

(** [u128::from_str_radix(text, 16)]. *)
Definition parse_u128_hex (text : string) : option Z :=
  let l := match as_bytes text with 0x2B :: (_ :: _) as l => tail l | l => l end in
  match l with [] => None | _ => parse_hex l 0 end.

Section exec.
Context {R : Rpds} `{C : Crypto} {U : UnicodeCase}.

Definition edn_to_value (db : option Db) (form : Edn) : option Value :=
  match form with
  | Edn.Bool v => Some (Value.Bool v)
  | Edn.Long v => Some (Value.Long v)
  | Edn.Double v => Some (Value.Double v)
  | Edn.Str v => Some (Value.Str v)
  | Edn.Keyword k => Some (Value.Keyword (unwrap_or (db ← db; interner_get (db_interner db) k) UNKNOWN_KEYWORD))
  | Edn.Tagged tag value =>
      match value with
      | Edn.Long n =>
          if bool_decide (tag = "eid") then Value.Ref <$> u64_of_i64 n
          else if bool_decide (tag = "tx") then (fun t => Value.Ref (entity_new (partition_id Partition.Tx) t)) <$> u64_of_i64 n
          else if bool_decide (tag = "inst") then Some (Value.Instant n)
          else None
      | Edn.Str hex => if bool_decide (tag = "uuid") then Value.Uuid <$> parse_u128_hex hex else None
      | _ => None
      end
  | _ => None
  end.

Definition const_value (db : Db) (form : Edn) : option Value := edn_to_value (Some db) form.

(** ** Contexts *)

Notation Frame := (list (string * Value)).
Notation RuleKey := (string * list (option Value))%type.

Record ExecCtx := mk_ctx {
  dbs : list (string * Db);
  rules : list (string * list RuleDef);
  extern_call : option (string -> list Value -> option (result QueryError CallResult));
  ctx_read : ReadContext }.

Record ExecState := mk_exec {
  x_fuel : Z;
  x_scanned : Z;
  x_partial : list (RuleKey * list (list Value));
  x_changed : bool }.

Definition exec (A : Type) : Type := ExecState -> option (ExecState * result QueryError A).

#[export] Instance exec_ret : MRet exec := fun A a st => Some (st, Ok a).
#[export] Instance exec_bind : MBind exec := fun A B f m st =>
  match m st with
  | Some (st, Ok a) => f a st
  | Some (st, Err e) => Some (st, Err e)
  | None => None
  end.

(** The depth or the rounds are used up. *)
Definition out_of_depth {A} : exec A := fun _ => None.

Definition lift {A} (r : result QueryError A) : exec A := fun st => Some (st, r).

Section flat.
Context {A B : Type} (f : A -> exec (list B)).

(** The results of each, one after the other. *)
Fixpoint flat_exec (l : list A) : exec (list B) :=
  match l with
  | [] => mret []
  | x :: l => ys ← f x; zs ← flat_exec l; mret (ys ++ zs)
  end.
End flat.

Definition add_rule (m : list (string * list RuleDef)) (d : RuleDef) : list (string * list RuleDef) :=
  om_insert (rd_name d) (unwrap_or (om_get (rd_name d) m) [] ++ [d]) m.

Definition ctx_new (dbs : list (string * Db)) (defs : list RuleDef) (ext : option (string -> list Value -> option (result QueryError CallResult)))
    (r : ReadContext) : ExecCtx := mk_ctx dbs (fold_left add_rule defs []) ext r.

Definition exec_new (fuel : option Z) : ExecState := mk_exec (unwrap_or fuel (2 ^ 64 - 1)) 0 [] false.

Definition spend (amount : Z) : exec unit := fun st =>
  if x_fuel st <? amount then Some (st, Err QueryError.FuelExhausted)
  else Some (mk_exec (x_fuel st - amount) (x_scanned st) (x_partial st) (x_changed st), Ok tt).

Definition count_scanned : exec unit := fun st =>
  Some (mk_exec (x_fuel st) (x_scanned st + 1) (x_partial st) (x_changed st), Ok tt).

Section ctx.
Context (ctx : ExecCtx).

Definition ctx_db (src : string) : option Db := om_get src (dbs ctx).

Definition default_db : option Db :=
  match ctx_db DEFAULT_SRC with Some db => Some db | None => snd <$> head (dbs ctx) end.

(** The value as this reader gets it. The hydrator's cache is that of the start of the
    query: what it caches meanwhile changes no answer. *)
Definition hydrate_with (r : ReadContext) (db : Db) (a : AttrId) (e : EntityId) (v : Value) : result QueryError (option Value) :=
  match (read r (db_schema db) (db_interner db) a e v).2 with
  | Ok (Hydration.Bind v) => Ok (Some v)
  | Ok Hydration.Hide => Ok None
  | Ok (Hydration.Refuse class) => Err (QueryError.Protected class)
  | Err e => Err (QueryError.Type_ (msg "{}" [MProtect e]))
  end.

Definition ctx_hydrate : Db -> AttrId -> EntityId -> Value -> result QueryError (option Value) := hydrate_with (ctx_read ctx).

Fixpoint first_bound (db : Db) (a : AttrId) (e : EntityId) (vs : list Value) : result QueryError (option Value) :=
  match vs with
  | [] => Ok None
  | v :: vs => o ← ctx_hydrate db a e v; match o with Some v => Ok (Some v) | None => first_bound db a e vs end
  end.

Definition first_value (db : Db) (e : EntityId) (attr : AttrId) : result QueryError (option Value) :=
  first_bound db attr e (values db e attr).

Definition ctx_call (name : string) (args : list Value) : result QueryError CallResult :=
  if is_native name then call name args
  else
    match extern_call ctx with
    | Some ext => match ext name args with Some r => r | None => call name args end
    | None => call name args
    end.

Definition attr_of (db : Db) (form : Edn) : option AttrId :=
  match form with
  | Edn.Keyword k => entid (db_idents db) k
  | Edn.Long n => u64_of_i64 n
  | Edn.Tagged tag (Edn.Long n) => if bool_decide (tag = "eid") then u64_of_i64 n else None
  | _ => None
  end.

(** ** Values in patterns *)

Definition coerce_for_type (value : Value) (t : ValueType) : Value :=
  match value, t with
  | Value.Long n, ValueType.Ref => match u64_of_i64 n with Some e => Value.Ref e | None => value end
  | Value.Long n, ValueType.Instant => Value.Instant n
  | Value.Long n, ValueType.Double => Value.Double (i64_as_f64 n)
  | _, _ => value
  end.

Definition to_entity (value : Value) : option EntityId :=
  match value with
  | Value.Ref e => Some e
  | Value.Long n => u64_of_i64 n
  | _ => None
  end.

Definition value_match (actual expected : Value) : bool :=
  bool_decide (actual = expected) ||
  match actual, expected with
  | Value.Ref e, Value.Long n | Value.Long n, Value.Ref e => match u64_of_i64 n with Some n => e =? n | None => false end
  | Value.Instant i, Value.Long n | Value.Long n, Value.Instant i => i =? n
  | _, _ => false
  end.

(** ** Planning *)

Record ScanChoice := mk_choice { ch_order : IndexOrder; prefix_len : nat }.

Definition choose_index (e_bound a_bound v_bound avet_ok v_is_ref : bool) : ScanChoice :=
  if e_bound then mk_choice Eavt (1 + (if a_bound then 1 else 0) + (if a_bound && v_bound then 1 else 0))
  else if a_bound then
    if v_bound && avet_ok then mk_choice Avet 2
    else if v_bound && v_is_ref then mk_choice Vaet 2
    else mk_choice Aevt 1
  else if v_bound && v_is_ref then mk_choice Vaet 1
  else mk_choice Eavt 0.

Definition CLASS_FILTER : Z := 0.
Definition CLASS_PATTERN : Z := 1.
Definition CLASS_RULE : Z := 2.
Definition CLASS_SUBPLAN : Z := 3.

Definition term_bound (t : Term) (bound : VarSet) : bool :=
  match t with
  | Term.Const _ => true
  | Term.Var v => os_mem v bound
  | Term.Blank => false
  end.

Definition is_blank (t : Term) : bool := match t with Term.Blank => true | _ => false end.

Definition cost (c : Clause) (bound : VarSet) : Z * Z :=
  match c with
  | Clause.Pattern p =>
      match ctx_db (src p) with
      | None => (CLASS_PATTERN, 2 ^ 64 - 1)
      | Some db =>
          let stats := planner_stats db in
          match p_a p with
          | Term.Var v =>
              if os_mem v bound then (CLASS_PATTERN, Z.max (total_datoms stats / Z.max (Z.of_nat (length (per_attr stats))) 1) 1)
              else (CLASS_PATTERN, estimate stats (term_bound (p_e p) bound) None (term_bound (p_v p) bound))
          | Term.Const form => (CLASS_PATTERN, estimate stats (term_bound (p_e p) bound) (attr_of db form) (term_bound (p_v p) bound))
          | Term.Blank => (CLASS_PATTERN, estimate stats (term_bound (p_e p) bound) None (term_bound (p_v p) bound))
          end
      end
  | Clause.Pred _ args | Clause.Fn _ args _ =>
      if forallb (fun t => term_bound t bound || is_blank t) args then (CLASS_FILTER, 0) else (CLASS_SUBPLAN, 0)
  | Clause.RuleCall _ _ => (CLASS_RULE, 0)
  | Clause.Not _ _ _ | Clause.Or _ _ _ => (CLASS_SUBPLAN, 0)
  end.

(** The first of the cheapest, and the others in their order. *)
Fixpoint take_cheapest {A} (price : A -> Z * Z) (l : list A) : option (A * list A) :=
  match l with
  | [] => None
  | x :: l =>
      match take_cheapest price l with
      | Some (y, rest) => match cmp (price y) (price x) with Lt => Some (y, x :: rest) | _ => Some (x, l) end
      | None => Some (x, [])
      end
  end.

Fixpoint order_loop (n : nat) (remaining : list (nat * Clause)) (bound : VarSet) : list nat :=
  match n with
  | O => []
  | S n =>
      match take_cheapest (fun ic => cost ic.2 bound) remaining with
      | Some ((i, c), rest) => i :: order_loop n rest (extend bound (clause_vars c))
      | None => []
      end
  end.

Definition order_clauses (clauses : list Clause) (initially_bound : VarSet) : list nat :=
  order_loop (length clauses) (combine (seq 0 (length clauses)) clauses) initially_bound.

(** ** Patterns *)

Inductive Position := PE | PA | PV | PTx | PAdded.

Inductive Spec := Free (v : option string) | Bound (v : Value) | NoMatch.

(** [entity_const], under the reader's view. *)
Definition entity_const (db : Db) (form : Edn) : result QueryError (option EntityId) :=
  match form with
  | Edn.Long _ | Edn.Tagged _ _ =>
      match const_value db form with
      | Some (Value.Ref e) => Ok (Some e)
      | Some (Value.Long n) => Ok (u64_of_i64 n)
      | _ => Ok None
      end
  | Edn.Keyword k => Ok (entid (db_idents db) k)
  | Edn.Vector [attr_form; value_form] =>
      match as_keyword attr_form with
      | None => Ok None
      | Some attr_kw =>
          attr ← ok_or (entid (db_idents db) attr_kw) (QueryError.UnknownIdent attr_kw);
          match const_value db value_form with
          | None => Ok None
          | Some value =>
              if negb (rc_visible (ctx_read ctx) attr) then Ok None
              else
                let value := match schema_get (db_schema db) attr with Some meta => coerce_for_type value (value_type meta) | None => value end in
                Ok (lookup db attr value)
          end
      end
  | _ => Ok None
  end.

Definition coerce_at (db : Db) (attr : option AttrId) (value : Value) : Value :=
  match (a ← attr; schema_get (db_schema db) a) with
  | Some meta => coerce_for_type value (value_type meta)
  | None => value
  end.

Definition resolve_term (db : Db) (frame : Frame) (term : Term) (position : Position) (attr : option AttrId) : result QueryError Spec :=
  let coerce value := match position with PV => coerce_at db attr value | _ => value end in
  let entity form := o ← entity_const db form; Ok (match o with Some e => Bound (Value.Ref e) | None => NoMatch end) in
  match term with
  | Term.Blank => Ok (Free None)
  | Term.Var var => Ok (match om_get var frame with Some value => Bound (coerce value) | None => Free (Some var) end)
  | Term.Const form =>
      match position with
      | PE | PTx => entity form
      | PA =>
          match attr_of db form with
          | Some a => Ok (Bound (Value.Ref a))
          | None => match form with Edn.Keyword k => Err (QueryError.UnknownIdent k) | _ => Ok NoMatch end
          end
      | PAdded => Ok (match form with Edn.Bool b => Bound (Value.Bool b) | _ => NoMatch end)
      | PV => match const_value db form with Some value => Ok (Bound (coerce value)) | None => entity form end
      end
  end.

(** One field of a datom against its position; the frame is extended when the position is a
    variable without a value. *)
Definition match_field (spec : Spec) (actual : Value) (frame : Frame) : option Frame :=
  match spec with
  | Bound expected => if value_match actual expected then Some frame else None
  | Free (Some var) =>
      match om_get var frame with
      | Some existing => if value_match actual existing then Some frame else None
      | None => Some (om_insert var actual frame)
      end
  | Free None | NoMatch => Some frame
  end.

Fixpoint match_fields (fields : list (Spec * Value)) (frame : Frame) : option Frame :=
  match fields with
  | [] => Some frame
  | (spec, actual) :: fields => frame ← match_field spec actual frame; match_fields fields frame
  end.

Record Specs := mk_specs { s_e : Spec; s_a : Spec; s_v : Spec; s_tx : Spec; s_added : Spec }.

Definition spec_attr (spec : Spec) : option AttrId := match spec with Bound value => to_entity value | _ => None end.
Definition spec_value (spec : Spec) : option Value := match spec with Bound value => Some value | _ => None end.
Definition no_match (spec : Spec) : bool := match spec with NoMatch => true | _ => false end.

Definition resolve_pattern (db : Db) (p : Pattern) (frame : Frame) : result QueryError Specs :=
  a ← resolve_term db frame (p_a p) PA None;
  e ← resolve_term db frame (p_e p) PE None;
  v ← resolve_term db frame (p_v p) PV (spec_attr a);
  tx ← resolve_term db frame (p_tx p) PTx None;
  added ← resolve_term db frame (p_added p) PAdded None;
  Ok (mk_specs e a v tx added).

Definition scan_choice (db : Db) (s : Specs) : ScanChoice :=
  let v := spec_value (s_v s) in
  choose_index (is_some (spec_attr (s_e s))) (is_some (spec_attr (s_a s))) (is_some v)
    (is_some_and (spec_attr (s_a s)) (avet_covered (db_schema db)))
    (match v with Some (Value.Ref _) => true | _ => false end).

Definition scan_prefix (s : Specs) (choice : ScanChoice) : bytes :=
  let e := spec_attr (s_e s) in
  let a := spec_attr (s_a s) in
  let v := spec_value (s_v s) in
  let from n {A} (o : option A) := if (n <=? prefix_len choice)%nat then o else None in
  match ch_order choice with
  | Eavt => key_prefix Eavt e (from 2%nat a) (from 3%nat v)
  | Aevt => key_prefix Aevt None a None
  | Avet => key_prefix Avet None a v
  | Vaet => key_prefix Vaet None (from 2%nat a) v
  end.

Definition match_datom (s : Specs) (d : Datom) (value : Value) (frame : Frame) : option Frame :=
  match_fields [(s_e s, Value.Ref (d_e d)); (s_a s, Value.Ref (d_a d)); (s_v s, value);
                (s_tx s, Value.Ref (d_tx d)); (s_added s, Value.Bool (d_added d))] frame.

Definition scan_datom (db : Db) (s : Specs) (frame : Frame) (d : Datom) : exec (list Frame) :=
  _ ← spend 1;
  _ ← count_scanned;
  o ← lift (ctx_hydrate db (d_a d) (d_e d) (d_v d));
  mret (match o with Some value => option_list (match_datom s d value frame) | None => [] end).

Definition eval_pattern_frame (db : Db) (p : Pattern) (frame : Frame) : exec (list Frame) :=
  s ← lift (resolve_pattern db p frame);
  if existsb no_match [s_a s; s_e s; s_v s; s_tx s; s_added s] then mret []
  else
    let choice := scan_choice db s in
    flat_exec (scan_datom db s frame) (datoms_prefix db (ch_order choice) (scan_prefix s choice)).

Definition eval_pattern (p : Pattern) (frames : list Frame) : exec (list Frame) :=
  match ctx_db (src p) with
  | None => lift (Err (QueryError.UnknownSource (src p)))
  | Some db => flat_exec (eval_pattern_frame db p) frames
  end.

(** ** Calls *)

Definition call_arg (frame : Frame) (t : Term) : result QueryError Value :=
  match t with
  | Term.Var var => ok_or (om_get var frame) (QueryError.Unbound var)
  | Term.Blank => Err (QueryError.Parse (msg "call arguments cannot be _" []))
  | Term.Const form => ok_or (db ← default_db; const_value db form) (QueryError.Type_ (msg "bad call argument {}" [MForm form]))
  end.

Definition call_args (frame : Frame) (args : list Term) : result QueryError (list Value) := try_map (call_arg frame) args.

Definition db_context_args (args : list Term) : result QueryError (Db * list Term) :=
  let fallback := db ← ok_or default_db (QueryError.UnknownSource "$"); Ok (db, args) in
  match args with
  | Term.Const (Edn.Symbol src) :: rest =>
      if begins "$" src then db ← ok_or (ctx_db src) (QueryError.UnknownSource src); Ok (db, rest) else fallback
  | _ => fallback
  end.

Definition attr_const (db : Db) (t : Term) : result QueryError AttrId :=
  match t with
  | Term.Const form =>
      match attr_of db form with
      | Some a => Ok a
      | None => match form with Edn.Keyword k => Err (QueryError.UnknownIdent k) | _ => Err (QueryError.Type_ (msg "bad attribute argument {}" [MForm form])) end
      end
  | _ => type_fault "attribute argument must be a constant"
  end.

Definition entity_arg (db : Db) (frame : Frame) (t : Term) : result QueryError (option EntityId) :=
  match t with
  | Term.Var var => value ← ok_or (om_get var frame) (QueryError.Unbound var); Ok (to_entity value)
  | Term.Const form => entity_const db form
  | Term.Blank => Err (QueryError.Parse (msg "entity argument cannot be _" []))
  end.

(** The first visible value of an attribute of an entity, if there is an entity. *)
Definition value_of (db : Db) (entity : option EntityId) (attr : AttrId) : result QueryError (option Value) :=
  match entity with Some e => first_value db e attr | None => Ok None end.

Definition eval_missing (args : list Term) (frames : list Frame) : exec (list Frame) :=
  '(db, rest) ← lift (db_context_args args);
  match rest with
  | [entity_term; attr_term] =>
      attr ← lift (attr_const db attr_term);
      flat_exec (fun frame =>
        entity ← lift (entity_arg db frame entity_term);
        o ← lift (value_of db entity attr);
        mret (if is_some o then [] else [frame])) frames
  | _ => lift (Err (QueryError.Arity (msg "missing? takes a source, entity, and attribute" [])))
  end.

Definition eval_pred (name : string) (args : list Term) (frames : list Frame) : exec (list Frame) :=
  if bool_decide (name = "missing?") then eval_missing args frames
  else
    flat_exec (fun frame =>
      vs ← lift (call_args frame args);
      res ← lift (ctx_call name vs);
      match res with
      | CallResult.Test true | CallResult.Scalar (Value.Bool true) => mret [frame]
      | CallResult.Test false | CallResult.Scalar (Value.Bool false) => mret []
      | _ => lift (Err (QueryError.Type_ (msg "{} is not a predicate" [MText name])))
      end) frames.

(** A value for a variable: kept when the variable has none, or one that matches. *)
Definition bind_var (frame : Frame) (var : string) (value : Value) : option Frame :=
  match om_get var frame with
  | Some existing => if value_match existing value then Some frame else None
  | None => Some (om_insert var value frame)
  end.

Definition bind_target (frame : Frame) (t : BindTarget) (value : Value) : option Frame :=
  match t with BindTarget.Blank => Some frame | BindTarget.Var var => bind_var frame var value end.

Fixpoint bind_targets (frame : Frame) (pairs : list (Value * BindTarget)) : option Frame :=
  match pairs with
  | [] => Some frame
  | (value, t) :: pairs => frame ← bind_target frame t value; bind_targets frame pairs
  end.

Definition bind_tuple (frame : Frame) (vs : list Value) (ts : list BindTarget) : option Frame :=
  if (length vs =? length ts)%nat then bind_targets frame (combine vs ts) else None.

Definition bind_result (frame : Frame) (binding : Binding) (res : CallResult) : result QueryError (list Frame) :=
  match binding, res with
  | Binding.Scalar var, CallResult.Scalar value => Ok (option_list (bind_var frame var value))
  | Binding.Scalar var, CallResult.Test flag => Ok (option_list (bind_var frame var (Value.Bool flag)))
  | Binding.Coll BindTarget.Blank, CallResult.Coll vs => Ok (match vs with [] => [] | _ => [frame] end)
  | Binding.Coll (BindTarget.Var var), CallResult.Coll vs => Ok (flat_map (fun v => option_list (bind_var frame var v)) vs)
  | Binding.Tuple ts, CallResult.Coll vs => Ok (option_list (bind_tuple frame vs ts))
  | Binding.Rel ts, CallResult.Rel rows => Ok (flat_map (fun row => option_list (bind_tuple frame row ts)) rows)
  | _, _ => type_fault "binding form does not fit result"
  end.

Definition ground_value (db : Db) (form : Edn) : result QueryError Value :=
  ok_or (const_value db form) (QueryError.Type_ (msg "cannot ground {}" [MForm form])).

Definition ground_result (db : Db) (binding : Binding) (form : Edn) : result QueryError CallResult :=
  match binding, as_seq form with
  | (Binding.Coll _ | Binding.Tuple _), Some items => vs ← try_map (ground_value db) items; Ok (CallResult.Coll vs)
  | Binding.Rel _, Some rows =>
      vs ← try_map (fun row => match as_seq row with
                               | Some items => try_map (ground_value db) items
                               | None => type_fault "ground relation requires tuples"
                               end) rows;
      Ok (CallResult.Rel vs)
  | Binding.Scalar _, _ => v ← ground_value db form; Ok (CallResult.Scalar v)
  | _, _ => Err (QueryError.Type_ (msg "cannot ground {}" [MForm form]))
  end.

Definition eval_ground (args : list Term) (binding : Binding) (frames : list Frame) : exec (list Frame) :=
  db ← lift (ok_or default_db (QueryError.UnknownSource "$"));
  match args with
  | [Term.Const form] =>
      res ← lift (ground_result db binding form);
      flat_exec (fun frame => lift (bind_result frame binding res)) frames
  | _ => lift (Err (QueryError.Arity (msg "ground takes one constant" [])))
  end.

Definition else_value (db : Db) (attr : AttrId) (frame : Frame) (default_term : Term) : result QueryError Value :=
  match default_term with
  | Term.Const form =>
      value ← ok_or (const_value db form) (QueryError.Type_ (msg "bad get-else default {}" [MForm form]));
      Ok (match schema_get (db_schema db) attr with Some meta => coerce_for_type value (value_type meta) | None => value end)
  | Term.Var var => ok_or (om_get var frame) (QueryError.Unbound var)
  | Term.Blank => Err (QueryError.Parse (msg "get-else default cannot be _" []))
  end.

Definition eval_get_else (args : list Term) (binding : Binding) (frames : list Frame) : exec (list Frame) :=
  '(db, rest) ← lift (db_context_args args);
  match rest with
  | [entity_term; attr_term; default_term] =>
      attr ← lift (attr_const db attr_term);
      flat_exec (fun frame =>
        entity ← lift (entity_arg db frame entity_term);
        o ← lift (value_of db entity attr);
        value ← lift (match o with Some v => Ok v | None => else_value db attr frame default_term end);
        lift (bind_result frame binding (CallResult.Scalar value))) frames
  | _ => lift (Err (QueryError.Arity (msg "get-else takes a source, entity, attribute, and default" [])))
  end.

Definition eval_fn (name : string) (args : list Term) (binding : Binding) (frames : list Frame) : exec (list Frame) :=
  if bool_decide (name = "ground") then eval_ground args binding frames
  else if bool_decide (name = "get-else") then eval_get_else args binding frames
  else
    flat_exec (fun frame =>
      vs ← lift (call_args frame args);
      res ← lift (ctx_call name vs);
      lift (bind_result frame binding (match res with CallResult.Test b => CallResult.Scalar (Value.Bool b) | res => res end))) frames.

(** ** Clauses *)

Definition restrict (frame : Frame) (vars : list string) : Frame :=
  fold_left (fun out var => match om_get var frame with Some value => om_insert var value out | None => out end) vars [].

(** A result of a branch joined with the frame it was asked for. *)
Fixpoint merge_vars (merged result_ : Frame) (exported : list string) : option Frame :=
  match exported with
  | [] => Some merged
  | var :: exported =>
      match om_get var result_ with
      | Some value => merged ← bind_var merged var value; merge_vars merged result_ exported
      | None => merge_vars merged result_ exported
      end
  end.

Fixpoint bind_args (frame : Frame) (pairs : list (Term * Value)) : option Frame :=
  match pairs with
  | [] => Some frame
  | (Term.Var var, value) :: pairs => frame ← bind_var frame var value; bind_args frame pairs
  | _ :: pairs => bind_args frame pairs
  end.

Definition rule_arg (frame : Frame) (t : Term) : result QueryError (option Value) :=
  match t with
  | Term.Var var => Ok (om_get var frame)
  | Term.Blank => Ok None
  | Term.Const form => v ← ok_or (db ← default_db; const_value db form) (QueryError.Type_ (msg "bad rule argument {}" [MForm form])); Ok (Some v)
  end.

(** The variables that every frame binds. *)
Definition common_vars (frames : list Frame) : VarSet :=
  match frames with
  | [] => []
  | frame :: frames => fold_left (fun bound frame => List.filter (fun v => is_some (om_get v frame)) bound) frames (map fst frame)
  end.

Section clauses.
Context (rule_tuples : RuleKey -> list RuleKey -> exec (list (list Value))).

Definition eval_rule_call (name : string) (args : list Term) (frames : list Frame) (stack : list RuleKey) : exec (list Frame) :=
  flat_exec (fun frame =>
    key_args ← lift (try_map (rule_arg frame) args);
    tuples ← rule_tuples (name, key_args) stack;
    mret (flat_map (fun tuple => option_list (bind_args frame (combine args tuple))) tuples)) frames.

(** The clauses as evaluators, in the order of the plan. *)
Fixpoint run_ordered (evals : list (list Frame -> exec (list Frame))) (order : list nat) (frames : list Frame) : exec (list Frame) :=
  match order with
  | [] => mret frames
  | i :: order =>
      match evals !! i with
      | None => mret frames
      | Some eval =>
          frames ← eval frames;
          match os_of_list frames with
          | [] => mret []
          | frames => run_ordered evals order frames
          end
      end
  end.

Fixpoint eval_clause (c : Clause) (stack : list RuleKey) (frames : list Frame) : exec (list Frame) :=
  let eval_clauses cs frames :=
    run_ordered (map (fun c => eval_clause c stack) cs) (order_clauses cs (common_vars frames)) frames in
  let seed vars frame := match vars with Some vars => restrict frame vars | None => frame end in
  match c with
  | Clause.Pattern p => eval_pattern p frames
  | Clause.Pred name args => eval_pred name args frames
  | Clause.Fn name args binding => eval_fn name args binding frames
  | Clause.Not _ vars cs =>
      flat_exec (fun frame => sub ← eval_clauses cs [seed vars frame]; mret (match sub with [] => [frame] | _ => [] end)) frames
  | Clause.Or _ vars bs =>
      flat_exec (fun frame =>
        flat_exec (fun branch =>
          results ← eval_clauses branch [seed vars frame];
          mret (flat_map (fun res =>
            option_list (merge_vars frame res (match vars with Some vars => vars | None => map fst res end))) results)) bs) frames
  | Clause.RuleCall name args => eval_rule_call name args frames stack
  end.

Definition eval_clauses (cs : list Clause) (frames : list Frame) (stack : list RuleKey) : exec (list Frame) :=
  run_ordered (map (fun c => eval_clause c stack) cs) (order_clauses cs (common_vars frames)) frames.
End clauses.

(** ** Rules *)

Definition table (st : ExecState) (key : RuleKey) : list (list Value) := unwrap_or (om_get key (x_partial st)) [].

Definition add_tuple (key : RuleKey) (tuple : list Value) : exec unit := fun st =>
  let tuples := table st key in
  Some (mk_exec (x_fuel st) (x_scanned st) (om_insert key (os_insert tuple tuples) (x_partial st))
          (x_changed st || negb (os_mem tuple tuples)), Ok tt).

Definition head_tuple (head : list string) (frame : Frame) : result QueryError (list Value) :=
  try_map (fun var => ok_or (om_get var frame) (QueryError.Unbound var)) head.

Fixpoint each (l : list (exec unit)) : exec unit :=
  match l with
  | [] => mret tt
  | m :: l => _ ← m; each l
  end.

Definition rule_seed (head : list string) (key_args : list (option Value)) : Frame :=
  fold_left (fun seed p => match p.2 with Some value => om_insert p.1 value seed | None => seed end) (combine head key_args) [].

Section rules.
Context (rule_tuples : RuleKey -> list RuleKey -> exec (list (list Value))).

Definition eval_def (key : RuleKey) (stack : list RuleKey) (def : RuleDef) : exec unit :=
  let head := head_vars def in
  if negb (length head =? length key.2)%nat
  then lift (Err (QueryError.Arity (msg "rule {} expects {} arguments" [MText key.1; MNumber (Z.of_nat (length head))])))
  else if negb (forallb (fun v => is_some v) (take (length (required def)) key.2))
  then lift (Err (QueryError.Unbound ("rule " +:+ key.1 +:+ " requires its first " +:+ u64_to_string (Z.of_nat (length (required def))) +:+ " arguments bound")))
  else
    frames ← eval_clauses rule_tuples (rd_clauses def) [rule_seed head key.2] stack;
    each (map (fun frame => tuple ← lift (head_tuple head frame); add_tuple key tuple) frames).

Definition in_stack (key : RuleKey) (stack : list RuleKey) : bool := existsb (fun k => bool_decide (k = key)) stack.

Definition eval_rule_once (key : RuleKey) (stack : list RuleKey) : exec unit :=
  if in_stack key stack then mret tt
  else
    defs ← lift (ok_or (om_get key.1 (rules ctx)) (QueryError.Unsupported (msg "unknown rule {}" [MText key.1])));
    each (map (eval_def key (stack ++ [key])) defs).
End rules.

Definition start_round : exec unit := fun st => Some (mk_exec (x_fuel st) (x_scanned st) (x_partial st) false, Ok tt).
Definition round_changed : exec bool := fun st => Some (st, Ok (x_changed st)).
Definition read_table (key : RuleKey) : exec (list (list Value)) := fun st => Some (st, Ok (table st key)).

(** Rounds of [once] until one changes no table. *)
Fixpoint rounds (n : nat) (once : exec unit) : exec unit :=
  match n with
  | O => out_of_depth
  | S n =>
      _ ← start_round;
      _ ← once;
      changed ← round_changed;
      if (changed : bool) then (_ ← spend 1; rounds n once) else mret tt
  end.

Fixpoint rule_tuples (n : nat) (key : RuleKey) (stack : list RuleKey) : exec (list (list Value)) :=
  match n with
  | O => out_of_depth
  | S n' =>
      let once := eval_rule_once (rule_tuples n') key stack in
      let solve : exec unit := match stack with [] => rounds n once | _ => once end in
      _ ← solve; read_table key
  end.

(** [exec::eval_clauses] from outside any rule, within [n]. *)
Definition eval_query (n : nat) (cs : list Clause) (frames : list Frame) : exec (list Frame) := eval_clauses (rule_tuples n) cs frames [].
End ctx.
End exec.
