(* ===== verification/QueryFacts.v ===== *)
(** * Facts about query evaluation

    What a pattern scan finds, whatever index it chooses, and that the planner only
    reorders clauses. *)

From stdpp Require Import base list strings sorting relations.
From Stdlib Require Import ZArith Lia.
From S2P Require Import Prelude OrdMap Machine Ids Keyword Values Encoding Datoms Schema Bootstrap SchemaDatoms Crypt.
From S2P Require Import Db DbFacts DbReads Protect Edn QueryAst Builtins QueryExec.
Local Open Scope Z_scope.

Notation Frame := (list (string * Value)).

(** ** Plans *)

Lemma take_cheapest_perm {A} (price : A -> Z * Z) l : match take_cheapest price l with
  | Some (x, rest) => l ≡ₚ x :: rest
  | None => l = []
  end.
Proof.
  induction l as [|x l IH]; [done|]. cbn [take_cheapest]. destruct (take_cheapest price l) as [[y rest]|].
  - destruct (cmp (price y) (price x)); [done| |done]. rewrite IH. apply Permutation_swap.
  - by rewrite IH.
Qed.

(** ** Frames *)

Definition frame_le (f g : Frame) : Prop := forall v x, om_get v f = Some x -> om_get v g = Some x.

(** [g] adds to [f] values for the variables [vs], and for no others. *)
Record ext (f g : Frame) (vs : list string) : Prop := {
  ext_wf : om_wf g;
  ext_le : frame_le f g;
  ext_dom : forall v, is_Some (om_get v g) <-> is_Some (om_get v f) \/ In v vs;
}.

Lemma ext_refl f vs : om_wf f -> (forall v, In v vs -> is_Some (om_get v f)) -> ext f f vs.
Proof. intros Hf Hv. split; [done|by intros v x|]. intros v. split; [by left|]. intros [H|H]; [done|by apply Hv]. Qed.

Lemma ext_same f g vs : om_wf f -> (forall v, In v vs -> is_Some (om_get v f)) -> ext f g vs -> g = f.
Proof.
  intros Hf Hv [Hg Hle Hd]. apply om_ext; [done|done|]. intros v. destruct (om_get v f) as [x|] eqn:E; [by apply Hle|].
  destruct (om_get v g) eqn:E'; [|done]. destruct (proj1 (Hd v)) as [[? H]|H]; [by eexists|congruence|].
  destruct (Hv v H). congruence.
Qed.

Lemma ext_trans f g h vs ws : ext f g vs -> ext g h ws -> ext f h (vs ++ ws).
Proof.
  intros [_ L1 D1] [Hw L2 D2]. split; [done|intros v x H; by apply L2, L1|]. intros v. rewrite D2, D1, in_app_iff. tauto.
Qed.

Lemma ext_mono f g vs ws : (forall v, In v vs <-> In v ws) -> ext f g vs -> ext f g ws.
Proof. intros H [H1 H2 H3]. split; [done|done|]. intros v. by rewrite H3, H. Qed.

(** The part of a frame on some variables. *)
Definition part (g : Frame) (keep : string -> bool) : Frame := List.filter (fun p => keep p.1) g.

Lemma part_get g keep v : om_wf g -> om_get v (part g keep) = if keep v then om_get v g else None.
Proof. intros Hg. unfold part. rewrite om_get_filter by done. cbn [fst]. by destruct (om_get v g), (keep v). Qed.

Definition among (vs : list string) (v : string) : bool := existsb (fun w => bool_decide (w = v)) vs.

Lemma among_In vs v : among vs v = true <-> In v vs.
Proof. unfold among. rewrite existsb_exists. setoid_rewrite bool_decide_eq_true. naive_solver. Qed.

Lemma is_some_iff {A} (o : option A) : is_some o = true <-> is_Some o.
Proof. destruct o; cbn; split; naive_solver. Qed.

Lemma ext_split f h vs ws : ext f h (vs ++ ws) -> exists g, ext f g vs /\ ext g h ws.
Proof.
  intros [Hw L D]. set (keep v := is_some (om_get v f) || among vs v). exists (part h keep).
  assert (Hkeep : forall v, keep v = true <-> is_Some (om_get v f) \/ In v vs).
  { intros v. unfold keep. by rewrite orb_true_iff, is_some_iff, among_In. }
  assert (Hin : forall v, is_Some (om_get v (part h keep)) <-> is_Some (om_get v f) \/ In v vs).
  { intros v. rewrite part_get by done. rewrite <- Hkeep. destruct (keep v) eqn:E; [|split; [by intros [? ?]|done]].
    rewrite D, in_app_iff. apply Hkeep in E. tauto. }
  split; split.
  - by apply om_filter_wf.
  - intros v x Hv. rewrite part_get by done. rewrite (proj2 (Hkeep v)) by (left; by eexists). by apply L.
  - exact Hin.
  - done.
  - intros v x. rewrite part_get by done. by destruct (keep v).
  - intros v. rewrite D, Hin, in_app_iff. tauto.
Qed.

(** ** Matching a datom *)

Section matching.
Context (U : Value -> Prop).

(** No number among [U] stands for two things: what matches, also after the coercion of a
    bound value to the type of an attribute, is the same value. *)
Definition apart : Prop := forall x y t, U x -> U y -> value_match x (coerce_for_type y t) = true -> x = y.

Definition frame_ok (g : Frame) : Prop := om_wf g /\ forall v x, om_get v g = Some x -> U x.

(** A position of a pattern: its term, what it was resolved to, and the field of a datom. *)
Notation field := (Term * Spec * Value)%type.

Definition field_ok (f : Frame) (p : field) : Prop :=
  let '(t, s, x) := p in
  U x /\
  match t with
  | Term.Blank => s = Free None
  | Term.Var v =>
      match om_get v f with
      | Some y => exists c, s = Bound c /\ (value_match x c = true <-> x = y)
      | None => s = Free (Some v)
      end
  | Term.Const _ => exists c, s = Bound c /\ (value_match x c = true <-> x = c)
  end.

Definition field_sat (g : Frame) (p : field) : Prop :=
  let '(t, s, x) := p in
  match t with
  | Term.Blank => True
  | Term.Var v => om_get v g = Some x
  | Term.Const _ => s = Bound x
  end.

Definition field_vars (fl : list field) : list string := flat_map (fun p => term_vars p.1.1) fl.
Definition field_specs (fl : list field) : list (Spec * Value) := map (fun p => (p.1.2, p.2)) fl.

Lemma value_match_refl x : value_match x x = true.
Proof. unfold value_match. by rewrite bool_decide_true. Qed.

Lemma apart_match x y : apart -> U x -> U y -> value_match x y = true -> x = y.
Proof. intros H Hx Hy Hm. apply (H x y ValueType.Str Hx Hy). by destruct y. Qed.

Lemma frame_insert_ok g v x : frame_ok g -> U x -> frame_ok (om_insert v x g).
Proof.
  intros [Hw Hu] Hx. split; [by apply om_insert_wf|]. intros w y. destruct (decide (w = v)) as [->|Hne].
  - rewrite om_get_insert_eq. by intros [= <-].
  - rewrite om_get_insert_ne by done. apply Hu.
Qed.

Lemma insert_ext f v x : om_wf f -> om_get v f = None -> ext f (om_insert v x f) [v].
Proof.
  intros Hf Hv. split; [by apply om_insert_wf| |].
  - intros w y Hw. rewrite om_get_insert_ne; [done|]. congruence.
  - intros w. destruct (decide (w = v)) as [->|Hne].
    + rewrite om_get_insert_eq. split; [right; by left|by eexists].
    + rewrite om_get_insert_ne by done. split; [by left|]. intros [H|[->|[]]]; done.
Qed.

Lemma match_field_ok f fr p : apart -> frame_le f fr -> frame_ok fr -> field_ok f p ->
  match match_field p.1.2 p.2 fr with
  | Some fr' => frame_ok fr' /\ ext fr fr' (term_vars p.1.1) /\ field_sat fr' p
  | None => forall g, frame_le fr g -> ~ field_sat g p
  end.
Proof.
  intros Ha Hle Hok. destruct p as [[t s] x]. intros [Hx Hp]. cbn [fst snd].
  pose proof Hok as [Hw Hu]. destruct t as [v| |form].
  - destruct (om_get v f) as [y|] eqn:Ey.
    + destruct Hp as (c & -> & Hc). cbn [match_field]. destruct (value_match x c) eqn:Em.
      * assert (x = y) as -> by (by apply Hc). pose proof (Hle v y Ey) as Hy. split_and!; [done| |exact Hy].
        apply ext_refl; [done|]. intros w [<-|[]]. by eexists.
      * intros g Hg Hs. cbn [field_sat] in Hs. rewrite (Hg v y (Hle v y Ey)) in Hs. injection Hs as ->. discriminate (proj2 Hc eq_refl).
    + subst s. cbn [match_field]. destruct (om_get v fr) as [y|] eqn:Efr.
      * destruct (value_match x y) eqn:Em.
        -- apply apart_match in Em as ->; [|done|done|by eapply Hu]. split_and!; [done| |exact Efr].
           apply ext_refl; [done|]. intros w [<-|[]]. by eexists.
        -- intros g Hg Hs. cbn [field_sat] in Hs. rewrite (Hg v y Efr) in Hs. injection Hs as ->. by rewrite value_match_refl in Em.
      * split_and!; [by apply frame_insert_ok|by apply insert_ext|apply om_get_insert_eq].
  - subst s. cbn [match_field]. split_and!; [done|by apply ext_refl|done].
  - destruct Hp as (c & -> & Hc). cbn [match_field]. destruct (value_match x c) eqn:Em.
    + assert (x = c) as -> by (by apply Hc). split_and!; [done|by apply ext_refl|done].
    + intros g Hg Hs. cbn [field_sat] in Hs. injection Hs as ->. by rewrite value_match_refl in Em.
Qed.

Lemma field_sat_le g h p : frame_le g h -> field_sat g p -> field_sat h p.
Proof. destruct p as [[[v| |form] s] x]; [|done|done]. intros Hle. apply Hle. Qed.

Lemma match_fields_sound f fr fl g : apart -> frame_le f fr -> frame_ok fr -> Forall (field_ok f) fl ->
  match_fields (field_specs fl) fr = Some g -> frame_ok g /\ ext fr g (field_vars fl) /\ Forall (field_sat g) fl.
Proof.
  intros Ha Hle Hok Hfl. revert fr Hle Hok. induction Hfl as [|p fl Hp Hfl IH]; intros fr Hle Hok H.
  { injection H as <-. split_and!; [done|apply ext_refl; [apply Hok|done]|constructor]. }
  cbn [field_specs map match_fields] in H. pose proof (match_field_ok f fr p Ha Hle Hok Hp) as Hm.
  destruct (match_field p.1.2 p.2 fr) as [fr'|]; [|done]. cbn in H. destruct Hm as (Hok' & Hext & Hsat).
  destruct (IH fr') as (H1 & H2 & H3); [intros v x Hv; by apply (ext_le _ _ _ Hext), Hle|done|done|].
  split_and!; [done|by eapply ext_trans|]. apply List.Forall_cons; [|done]. eapply field_sat_le; [apply H2|done].
Qed.

Lemma match_fields_complete f fr fl g : apart -> frame_le f fr -> frame_ok fr -> Forall (field_ok f) fl ->
  ext fr g (field_vars fl) -> Forall (field_sat g) fl -> match_fields (field_specs fl) fr = Some g.
Proof.
  intros Ha Hle Hok Hfl. revert fr Hle Hok. induction Hfl as [|p fl Hp Hfl IH]; intros fr Hle Hok Hext Hsat.
  { cbn. f_equal. symmetry. eapply ext_same; [apply Hok| |done]. done. }
  cbn [field_specs map match_fields]. apply Forall_cons in Hsat as [Hs Hsat]. pose proof (match_field_ok f fr p Ha Hle Hok Hp) as Hm.
  destruct (match_field p.1.2 p.2 fr) as [fr'|]; [|by destruct (Hm g (ext_le _ _ _ Hext))]. destruct Hm as (Hok' & Hext' & Hsat').
  change ((Some fr' ≫= match_fields (map (fun p => (p.1.2, p.2)) fl)) = Some g). cbn [mbind option_bind]. apply IH; [|done| |done].
  { intros v x Hv. by apply (ext_le _ _ _ Hext'), Hle. }
  destruct Hext as [Hw L D], Hext' as [Hw' L' D']. split; [done| |].
  - intros v x Hv. destruct (om_get v fr) as [y|] eqn:Ev.
    + rewrite (L' v y Ev) in Hv. injection Hv as <-. by apply L.
    + destruct (proj1 (D' v)) as [[? ?]|Hin]; [by eexists|congruence|]. destruct p as [[[w| |form] s0] x0]; [|done|done].
      destruct Hin as [->|[]]. cbn [field_sat] in Hs, Hsat'. congruence.
  - intros v. rewrite D, D'. change (field_vars (p :: fl)) with (term_vars p.1.1 ++ field_vars fl). rewrite in_app_iff. tauto.
Qed.
End matching.

(** ** Scanning for a pattern *)

(** Two states with the same rule tables. *)
Definition same (st st' : ExecState) : Prop := x_partial st' = x_partial st /\ x_changed st' = x_changed st.

Lemma same_trans st1 st2 st3 : same st1 st2 -> same st2 st3 -> same st1 st3.
Proof. unfold same. intuition congruence. Qed.

Lemma exec_bind_ok {A B} (m : exec A) (f : A -> exec B) st st' b :
  (m ≫= f) st = Some (st', Ok b) -> exists st1 a, m st = Some (st1, Ok a) /\ f a st1 = Some (st', Ok b).
Proof. unfold mbind, exec_bind. destruct (m st) as [[st1 [a|e]]|]; [by eauto|done|done]. Qed.

Lemma lift_ok {A} (r : result QueryError A) st st' a : lift r st = Some (st', Ok a) -> r = Ok a /\ st' = st.
Proof. unfold lift. intros [= <- ->]. done. Qed.

Lemma flat_pure {A B} (f : A -> exec (list B)) (h : A -> list B) l st st' out :
  (forall x st st' ys, In x l -> f x st = Some (st', Ok ys) -> same st st' /\ ys = h x) ->
  flat_exec f l st = Some (st', Ok out) -> same st st' /\ out = flat_map h l.
Proof.
  intros Hf. revert st out. induction l as [|x l IH]; intros st out H.
  { injection H as <- <-. by repeat split. }
  apply exec_bind_ok in H as (st1 & ys & H1 & H). apply exec_bind_ok in H as (st2 & zs & H2 & H). injection H as <- <-.
  apply Hf in H1 as [S1 ->]; [|by left]. apply IH in H2 as [S2 ->]; [|intros; eapply Hf; [by right|done]].
  split; [by eapply same_trans|done].
Qed.

Definition agrees (s : Spec) (x : Value) : Prop := forall c, s = Bound c -> c = x.

Lemma agrees_entity s x o : agrees s (Value.Ref x) -> spec_attr s = Some o -> o = x.
Proof. intros H Ho. destruct s as [| c |]; try done. rewrite (H c) in Ho by done. by injection Ho. Qed.

Definition component_bytes (f : Fact) (c : KeyComponent) : bytes :=
  match c with CE => encode_entity f.1.1 | CA => encode_entity f.1.2 | CV => encode_value f.2 end.

Lemma fact_bytes_components o f : fact_bytes o f = flat_map (component_bytes f) (components o).
Proof. destruct f as [[e a] v]. destruct o; cbn -[encode_entity encode_value app]; by rewrite app_nil_r. Qed.

Lemma prefix_loop_starts cs f e a v r :
  (forall x, e = Some x -> x = f.1.1) -> (forall x, a = Some x -> x = f.1.2) -> (forall x, v = Some x -> x = f.2) ->
  starts_with (flat_map (component_bytes f) cs ++ r) (prefix_loop cs e a v) = true.
Proof.
  intros He Ha Hv. induction cs as [|c cs IH]; [apply starts_with_nil|]. cbn [prefix_loop flat_map]. rewrite <- app_assoc.
  apply starts_with_spec in IH as [q Hq].
  assert (match c with CE => encode_entity <$> e | CA => encode_entity <$> a | CV => encode_value <$> v end = Some (component_bytes f c) \/
          match c with CE => encode_entity <$> e | CA => encode_entity <$> a | CV => encode_value <$> v end = None) as [-> | ->].
  { destruct c; cbn [component_bytes]; [destruct e as [x|]|destruct a as [x|]|destruct v as [x|]]; [|by right| |by right| |by right];
      left; cbn; [rewrite (He x)|rewrite (Ha x)|rewrite (Hv x)]; done. }
  - apply starts_with_spec. exists q. by rewrite Hq, app_assoc.
  - apply starts_with_nil.
Qed.

Section scan.
Context {R : Rpds} {HR : RpdsLaws R} `{C : Crypto} {UC : UnicodeCase}.
Context (ctx : ExecCtx).

Lemma datoms_prefix_In db o p d : db_ok db ->
  In d (datoms_prefix db o p) <-> In d (datoms db) /\ covered (db_schema db) o d = true /\ starts_with (view_key (view db) o d) p = true.
Proof.
  intros Hdb. rewrite datoms_prefix_filter by done. unfold datoms. rewrite filter_In, !datoms_at_In by done. cbn. tauto.
Qed.

(** No datom that fits the bound positions is outside the scan. *)
Lemma scan_covers db s d : db_ok db -> In d (datoms db) ->
  agrees (s_e s) (Value.Ref (d_e d)) -> agrees (s_a s) (Value.Ref (d_a d)) -> agrees (s_v s) (d_v d) ->
  In d (datoms_prefix db (ch_order (scan_choice db s)) (scan_prefix s (scan_choice db s))).
Proof.
  intros Hdb Hd He Ha Hv. apply datoms_prefix_In; [done|]. split; [done|].
  assert (Hv' : forall x, spec_value (s_v s) = Some x -> x = d_v d). { intros x Hx. destruct (s_v s); try done. injection Hx as <-. by apply Hv. }
  pose proof (fun o => agrees_entity _ _ o He) as He'. pose proof (fun o => agrees_entity _ _ o Ha) as Ha'. split.
  - unfold scan_choice, choose_index. destruct (is_some (spec_attr (s_e s))); [done|].
    destruct (spec_attr (s_a s)) as [a|] eqn:Ea, (spec_value (s_v s)) as [v|] eqn:Ev; cbn [is_some is_some_and andb]; try done.
    + rewrite (Ha' a eq_refl), (Hv' v eq_refl). destruct (avet_covered (db_schema db) (d_a d)) eqn:Ec; [exact Ec|].
      destruct (d_v d) eqn:Ed; try done. cbn. by rewrite Ed.
    + rewrite (Hv' v eq_refl). destruct (d_v d) eqn:Ed; try done. cbn. by rewrite Ed.
  - destruct (starts_with_view_key (view db) (ch_order (scan_choice db s)) d) as [r ->]. rewrite fact_bytes_components.
    unfold scan_prefix, key_prefix. destruct (ch_order _); apply prefix_loop_starts; unfold d_fact; cbn [fst snd]; intros x Hx;
      first [done|by apply He'|by apply Ha'|by apply Hv'|destruct (Nat.leb _ _); [|done]; first [by apply Ha'|by apply Hv']].
Qed.

(** *** What a pattern means *)

(** The field [x] of a datom at a position, under an assignment. *)
Definition at_term (db : Db) (g : Frame) (t : Term) (pos : Position) (attr : option AttrId) (x : Value) : Prop :=
  match t with
  | Term.Blank => True
  | Term.Var v => om_get v g = Some x
  | Term.Const _ => resolve_term ctx db [] t pos attr = Ok (Bound x)
  end.

Definition fits (db : Db) (p : Pattern) (d : Datom) (g : Frame) : Prop :=
  at_term db g (p_e p) PE None (Value.Ref (d_e d)) /\
  at_term db g (p_a p) PA None (Value.Ref (d_a d)) /\
  at_term db g (p_v p) PV (Some (d_a d)) (d_v d) /\
  at_term db g (p_tx p) PTx None (Value.Ref (d_tx d)) /\
  at_term db g (p_added p) PAdded None (Value.Bool (d_added d)).

(** Some datom that the reader sees fits. *)
Definition pattern_holds (p : Pattern) (g : Frame) : Prop :=
  exists db d, ctx_db ctx (src p) = Some db /\ In d (datoms db) /\ rc_visible (ctx_read ctx) (d_a d) = true /\ fits db p d g.

Context (U : Value -> Prop).

(** A datom among the values [U], with a value that its attribute's type leaves as it is. *)
Definition settled (db : Db) (d : Datom) : Prop :=
  U (Value.Ref (d_e d)) /\ U (Value.Ref (d_a d)) /\ U (d_v d) /\ U (Value.Ref (d_tx d)) /\ U (Value.Bool (d_added d)) /\
  coerce_at db (Some (d_a d)) (d_v d) = d_v d.

(** A constant value has a constant attribute and is of [U]. *)
Definition plain_pattern (p : Pattern) : Prop :=
  match p_v p with
  | Term.Const _ =>
      (exists form, p_a p = Term.Const form) /\
      forall db a c, ctx_db ctx (src p) = Some db -> resolve_term ctx db [] (p_a p) PA None = Ok a ->
        resolve_term ctx db [] (p_v p) PV (spec_attr a) = Ok (Bound c) -> U c
  | _ => True
  end.

Definition pattern_fields (p : Pattern) (s : Specs) (d : Datom) : list (Term * Spec * Value) :=
  [(p_e p, s_e s, Value.Ref (d_e d)); (p_a p, s_a s, Value.Ref (d_a d)); (p_v p, s_v s, d_v d);
   (p_tx p, s_tx s, Value.Ref (d_tx d)); (p_added p, s_added s, Value.Bool (d_added d))].

Lemma resolve_const db f form pos attr : resolve_term ctx db f (Term.Const form) pos attr = resolve_term ctx db [] (Term.Const form) pos attr.
Proof. done. Qed.

Lemma at_term_sat db f g t pos attr s x : resolve_term ctx db f t pos attr = Ok s -> at_term db g t pos attr x <-> field_sat g (t, s, x).
Proof.
  destruct t as [v| |form]; [done|done|]. rewrite resolve_const. intros H. unfold at_term, field_sat. rewrite H. split; [by intros [= ->]|by intros ->].
Qed.

Lemma coerce_at_none db v : coerce_at db None v = v.
Proof. done. Qed.

Lemma resolve_pattern_ok db p f s : resolve_pattern ctx db p f = Ok s ->
  resolve_term ctx db f (p_a p) PA None = Ok (s_a s) /\ resolve_term ctx db f (p_e p) PE None = Ok (s_e s) /\
  resolve_term ctx db f (p_v p) PV (spec_attr (s_a s)) = Ok (s_v s) /\
  resolve_term ctx db f (p_tx p) PTx None = Ok (s_tx s) /\ resolve_term ctx db f (p_added p) PAdded None = Ok (s_added s).
Proof.
  unfold resolve_pattern. intros (a & Ha & (e & He & (v & Hv & (tx & Htx & (ad & Had & [= <-])%bind_ok)%bind_ok)%bind_ok)%bind_ok)%bind_ok. done.
Qed.

(** The attribute under which a value is resolved is that of the datom. *)
Lemma fits_sat db p f s d g : resolve_pattern ctx db p f = Ok s -> plain_pattern p ->
  fits db p d g <-> Forall (field_sat g) (pattern_fields p s d).
Proof.
  intros Hs Hp. apply resolve_pattern_ok in Hs as (Ha & He & Hv & Htx & Had). unfold fits, pattern_fields. rewrite !Forall_cons, Forall_nil.
  rewrite (at_term_sat _ _ _ _ _ _ _ _ He), (at_term_sat _ _ _ _ _ _ _ _ Ha), (at_term_sat _ _ _ _ _ _ _ _ Htx), (at_term_sat _ _ _ _ _ _ _ _ Had).
  assert (field_sat g (p_a p, s_a s, Value.Ref (d_a d)) ->
    at_term db g (p_v p) PV (Some (d_a d)) (d_v d) <-> field_sat g (p_v p, s_v s, d_v d)) as Hav; [|tauto].
  intros Hsat. destruct (p_v p) as [v| |form] eqn:Ev; [done|done|]. unfold plain_pattern in Hp. rewrite Ev in Hp.
  destruct Hp as [[aform Ea] _]. rewrite Ea in Hsat. cbn [field_sat] in Hsat. rewrite Hsat in Hv. by apply (at_term_sat _ f).
Qed.

Lemma entity_spec db form s : (o ← entity_const ctx db form; Ok (match o with Some e => Bound (Value.Ref e) | None => NoMatch end)) = Ok s ->
  no_match s = false -> exists e, s = Bound (Value.Ref e).
Proof. intros (o & _ & [= <-])%bind_ok. destruct o; [by eauto|done]. Qed.

(** What a constant outside the value position resolves to. *)
Lemma const_spec db f form pos s : pos <> PV -> resolve_term ctx db f (Term.Const form) pos None = Ok s -> no_match s = false ->
  exists c, s = Bound c /\ match pos with PAdded => exists b, c = Value.Bool b | _ => exists e, c = Value.Ref e end.
Proof.
  intros Hpos H Hs. destruct pos; [| |done| |]; cbn [resolve_term] in H.
  - apply entity_spec in H as [e ->]; [|done]. eauto.
  - destruct (attr_of db form) as [a|]; [injection H as <-; by eauto|]. destruct form; try done; by injection H as <-.
  - apply entity_spec in H as [e ->]; [|done]. eauto.
  - injection H as <-. destruct form; try done. by eauto.
Qed.

Lemma match_ref a b : value_match (Value.Ref a) (Value.Ref b) = true <-> Value.Ref a = Value.Ref b.
Proof. unfold value_match. by rewrite orb_false_r, bool_decide_eq_true. Qed.
Lemma match_bool a b : value_match (Value.Bool a) (Value.Bool b) = true <-> Value.Bool a = Value.Bool b.
Proof. unfold value_match. by rewrite orb_false_r, bool_decide_eq_true. Qed.

Lemma apart_iff x y : apart U -> U x -> U y -> value_match x y = true <-> x = y.
Proof. intros Ha Hx Hy. split; [by apply (apart_match U)|]. intros ->. apply value_match_refl. Qed.

Lemma var_field_ok db f v pos attr s x : apart U -> frame_ok U f -> U x -> coerce_at db attr x = x ->
  resolve_term ctx db f (Term.Var v) pos attr = Ok s -> field_ok U f (Term.Var v, s, x).
Proof.
  intros Hap [_ Hf] Hx Hc [= <-]. split; [done|]. destruct (om_get v f) as [y|] eqn:Ey; [|done]. eexists. split; [done|].
  pose proof (Hf v y Ey) as Hy. assert (value_match x y = true <-> x = y) as Hm by (by apply apart_iff).
  destruct pos; try exact Hm. split; [|intros <-; rewrite Hc; apply value_match_refl].
  unfold coerce_at. destruct (attr ≫= _) as [meta|]; [by apply Hap|apply Hm].
Qed.

Lemma plain_field_ok db f t pos s x : apart U -> frame_ok U f -> U x -> pos <> PV ->
  match pos with PAdded => exists b, x = Value.Bool b | _ => exists e, x = Value.Ref e end ->
  resolve_term ctx db f t pos None = Ok s -> no_match s = false -> field_ok U f (t, s, x).
Proof.
  intros Hap Hf Hx Hpos Hk Hs Hn. destruct t as [v| |form].
  - eapply var_field_ok; [done|done|done|apply (coerce_at_none db)|done].
  - injection Hs as <-. done.
  - destruct (const_spec _ _ _ _ _ Hpos Hs Hn) as (c & -> & Hc). split; [done|]. exists c. split; [done|].
    destruct pos; [| |done| |]; destruct Hk as [? ->], Hc as [? ->]; first [apply match_ref|apply match_bool].
Qed.

Lemma value_field_ok db p f s d : apart U -> frame_ok U f -> settled db d -> plain_pattern p -> ctx_db ctx (src p) = Some db ->
  resolve_pattern ctx db p f = Ok s -> no_match (s_v s) = false -> agrees (s_a s) (Value.Ref (d_a d)) ->
  field_ok U f (p_v p, s_v s, d_v d).
Proof.
  intros Hap Hf (_ & _ & Hv & _ & _ & Hc) Hp Hdb Hs Hn Ha. apply resolve_pattern_ok in Hs as (Hra & _ & Hrv & _).
  assert (Hattr : coerce_at db (spec_attr (s_a s)) (d_v d) = d_v d).
  { destruct (s_a s) as [|c|]; [done| |done]. rewrite (Ha c) by done. exact Hc. }
  destruct (p_v p) as [v| |form] eqn:Ev.
  - by eapply var_field_ok.
  - injection Hrv as <-. done.
  - unfold plain_pattern in Hp. rewrite Ev in Hp. destruct Hp as [[aform Ea] Hp]. rewrite Ea in Hra, Hp.
    split; [done|]. assert (exists c, s_v s = Bound c) as [c Es].
    { cbn [resolve_term] in Hrv. destruct (const_value db form); [injection Hrv as <-; by eauto|]. apply entity_spec in Hrv as [e ->]; [by eauto|done]. }
    exists c. split; [done|]. apply apart_iff; [done|done|]. rewrite Es in Hrv. exact (Hp db (s_a s) c Hdb Hra Hrv).
Qed.

Lemma sat_agrees db f g t pos attr s x : frame_le f g -> coerce_at db attr x = x ->
  resolve_term ctx db f t pos attr = Ok s -> field_sat g (t, s, x) -> agrees s x.
Proof.
  intros Hle Hc Hs Hsat c ->. destruct t as [v| |form]; [|done|by injection Hsat]. injection Hs as Hs.
  destruct (om_get v f) as [y|] eqn:Ey; [|done]. cbn [field_sat] in Hsat. rewrite (Hle v y Ey) in Hsat. injection Hsat as ->.
  injection Hs as <-. by destruct pos.
Qed.

Lemma matched_agrees db f t s a : apart U -> frame_ok U f -> U (Value.Ref a) -> resolve_term ctx db f t PA None = Ok s ->
  (forall c, s = Bound c -> value_match (Value.Ref a) c = true) -> agrees s (Value.Ref a).
Proof.
  intros Hap [_ Hf] Ha Hs Hm c ->. specialize (Hm c eq_refl). destruct t as [v| |form].
  - injection Hs as Hs. destruct (om_get v f) as [y|] eqn:Ey; [|done]. injection Hs as <-. symmetry. apply (apart_match U); [done|done|by eapply Hf|done].
  - done.
  - destruct (const_spec _ _ _ _ _ (ltac:(done) : PA <> PV) Hs eq_refl) as (c' & [= <-] & [e ->]). symmetry. by apply match_ref.
Qed.

Lemma match_datom_attr s d v f g : match_datom s d v f = Some g -> forall c, s_a s = Bound c -> value_match (Value.Ref (d_a d)) c = true.
Proof.
  unfold match_datom. cbn [match_fields]. intros (f1 & _ & (f2 & H & _)%bind_Some)%bind_Some c Hc. rewrite Hc in H. cbn in H.
  by destruct (value_match (Value.Ref (d_a d)) c).
Qed.

Definition no_matches (s : Specs) : bool := existsb no_match [s_a s; s_e s; s_v s; s_tx s; s_added s].

Section pattern.
Context (db : Db) (p : Pattern) (f : Frame) (s : Specs).
Context (Hap : apart U) (Hf : frame_ok U f) (Hp : plain_pattern p) (Hdb : ctx_db ctx (src p) = Some db).
Context (Hs : resolve_pattern ctx db p f = Ok s).

Lemma pattern_fields_ok d : no_matches s = false -> settled db d -> agrees (s_a s) (Value.Ref (d_a d)) -> Forall (field_ok U f) (pattern_fields p s d).
Proof.
  unfold no_matches. cbn [existsb]. rewrite !orb_false_iff. intros (Na & Ne & Nv & Nt & Nad & _) Hd Ha.
  pose proof (resolve_pattern_ok _ _ _ _ Hs) as (Ra & Re & Rv & Rt & Rad). pose proof Hd as (Ue & Ua & Uv & Ut & Uad & _). unfold pattern_fields.
  apply Forall_cons; split; [eapply (plain_field_ok db f _ PE); [exact Hap|exact Hf|exact Ue|done|by eexists|exact Re|exact Ne]|].
  apply Forall_cons; split; [eapply (plain_field_ok db f _ PA); [exact Hap|exact Hf|exact Ua|done|by eexists|exact Ra|exact Na]|].
  apply Forall_cons; split; [by eapply value_field_ok|].
  apply Forall_cons; split; [eapply (plain_field_ok db f _ PTx); [exact Hap|exact Hf|exact Ut|done|by eexists|exact Rt|exact Nt]|].
  apply Forall_cons; split; [eapply (plain_field_ok db f _ PAdded); [exact Hap|exact Hf|exact Uad|done|by eexists|exact Rad|exact Nad]|done].
Qed.

Lemma fits_agrees d g : settled db d -> frame_le f g -> fits db p d g ->
  agrees (s_e s) (Value.Ref (d_e d)) /\ agrees (s_a s) (Value.Ref (d_a d)) /\ agrees (s_v s) (d_v d).
Proof.
  intros Hd Hle Hfit. rewrite (fits_sat _ _ _ _ _ _ Hs Hp) in Hfit. unfold pattern_fields in Hfit. rewrite !Forall_cons in Hfit.
  destruct Hfit as (Fe & Fa & Fv & _). pose proof (resolve_pattern_ok _ _ _ _ Hs) as (Ra & Re & Rv & _).
  assert (Ha : agrees (s_a s) (Value.Ref (d_a d))) by (by eapply sat_agrees; [done|apply (coerce_at_none db)|done|]).
  split_and!; [by eapply sat_agrees; [done|apply (coerce_at_none db)|done|]|done|].
  eapply sat_agrees; [done| |exact Rv|done]. destruct Hd as (_ & _ & _ & _ & _ & Hc).
  destruct (s_a s) as [|c|]; [done| |done]. by rewrite (Ha c).
Qed.

Lemma match_datom_iff d g : no_matches s = false -> settled db d ->
  match_datom s d (d_v d) f = Some g <-> ext f g (clause_vars (Clause.Pattern p)) /\ fits db p d g.
Proof.
  intros Hn Hd. pose proof (resolve_pattern_ok _ _ _ _ Hs) as (Ra & _). rewrite (fits_sat _ _ _ _ _ _ Hs Hp).
  assert (Hvars : forall v, In v (field_vars (pattern_fields p s d)) <-> In v (clause_vars (Clause.Pattern p))).
  { intros v. cbn [clause_vars]. symmetry. apply os_of_list_In. }
  change (match_datom s d (d_v d) f) with (match_fields (field_specs (pattern_fields p s d)) f). split.
  - intros Hm. pose proof (match_datom_attr _ _ _ _ _ Hm) as Hat. pose proof Hd as (_ & Ua & _).
    apply (match_fields_sound U f) in Hm as (_ & He & Hsat); [|done|by intros v x|done|].
    { split; [by eapply ext_mono|done]. }
    apply pattern_fields_ok; [done|done|]. by eapply matched_agrees.
  - intros [He Hsat]. apply (match_fields_complete U f); [done|by intros v x|done| |by eapply ext_mono; [intros v; symmetry; apply Hvars|]|done].
    apply pattern_fields_ok; [done|done|]. rewrite <- (fits_sat _ _ _ _ _ _ Hs Hp) in Hsat. eapply fits_agrees; [done|apply He|done].
Qed.
End pattern.

Lemma spend_ok n st st' u : spend n st = Some (st', Ok u) -> same st st'.
Proof. unfold spend. destruct (x_fuel st <? n)%Z; [done|]. by intros [= <- _]. Qed.

Lemma plain_hydrate db a e v : rc_hydrator (ctx_read ctx) = None ->
  ctx_hydrate ctx db a e v = Ok (if rc_visible (ctx_read ctx) a then Some v else None).
Proof. intros Hn. unfold ctx_hydrate, hydrate_with, read. rewrite Hn. by destruct (rc_visible (ctx_read ctx) a). Qed.

Lemma scan_datom_ok db s f d st st' ys : rc_hydrator (ctx_read ctx) = None -> scan_datom ctx db s f d st = Some (st', Ok ys) ->
  same st st' /\ ys = if rc_visible (ctx_read ctx) (d_a d) then option_list (match_datom s d (d_v d) f) else [].
Proof.
  intros Hn (st1 & u & H1 & (st2 & u2 & H2 & (st3 & o & H3 & H)%exec_bind_ok)%exec_bind_ok)%exec_bind_ok. apply spend_ok in H1.
  apply lift_ok in H3 as [Ho ->]. rewrite plain_hydrate in Ho by done. injection Ho as <-. injection H as <- <-.
  injection H2 as <- _. split; [exact H1|]. by destruct (rc_visible (ctx_read ctx) (d_a d)).
Qed.

Lemma In_option_list {A} (o : option A) x : In x (option_list o) <-> o = Some x.
Proof. destruct o; cbn; naive_solver. Qed.

(** The frames that a pattern gives a frame are the assignments that extend it to the
    variables of the pattern and fit a datom that is seen. *)
Lemma eval_pattern_frame_exact db p f st st' out :
  db_ok db -> rc_hydrator (ctx_read ctx) = None -> (forall d, In d (datoms db) -> settled db d) -> apart U -> frame_ok U f ->
  plain_pattern p -> ctx_db ctx (src p) = Some db -> eval_pattern_frame ctx db p f st = Some (st', Ok out) ->
  same st st' /\ forall g, In g out <-> ext f g (clause_vars (Clause.Pattern p)) /\ pattern_holds p g.
Proof.
  intros Hok Hn Hd Hap Hf Hp Hdb (st1 & s & [Hs ->]%lift_ok & H)%exec_bind_ok. change (existsb _ _) with (no_matches s) in H.
  assert (Hh : forall g, pattern_holds p g <-> exists d, In d (datoms db) /\ rc_visible (ctx_read ctx) (d_a d) = true /\ fits db p d g).
  { intros g. unfold pattern_holds. rewrite Hdb. naive_solver. }
  setoid_rewrite Hh. destruct (no_matches s) eqn:Em.
  - injection H as <- <-. split; [done|]. intros g. split; [done|]. intros (_ & d & _ & _ & Hfit).
    apply (fits_sat _ _ _ _ _ _ Hs Hp) in Hfit. unfold pattern_fields in Hfit. rewrite !Forall_cons in Hfit.
    destruct Hfit as (Fe & Fa & Fv & Ft & Fad & _). pose proof (resolve_pattern_ok _ _ _ _ Hs) as (Ra & Re & Rv & Rt & Rad).
    assert (Hno : forall t s0 pos attr x, resolve_term ctx db f t pos attr = Ok s0 -> field_sat g (t, s0, x) -> no_match s0 = false).
    { intros [v| |form] s0 pos attr x H0 Hsat; [injection H0 as <-; by destruct (om_get v f)|by injection H0 as <-|by rewrite Hsat]. }
    unfold no_matches in Em. cbn [existsb] in Em.
    by rewrite (Hno _ _ _ _ _ Ra Fa), (Hno _ _ _ _ _ Re Fe), (Hno _ _ _ _ _ Rv Fv), (Hno _ _ _ _ _ Rt Ft), (Hno _ _ _ _ _ Rad Fad) in Em.
  - apply (flat_pure _ (fun d => if rc_visible (ctx_read ctx) (d_a d) then option_list (match_datom s d (d_v d) f) else [])) in H as [Hsame ->];
      [|intros d st0 st1 ys _; by apply scan_datom_ok].
    split; [done|]. intros g. rewrite in_flat_map. split.
    + intros (d & Hin & Hg). apply datoms_prefix_In in Hin as [Hin _]; [|done]. destruct (rc_visible (ctx_read ctx) (d_a d)) eqn:Ev; [|done].
      apply In_option_list, (match_datom_iff db p f s Hap Hf Hp Hdb Hs) in Hg as [He Hfit]; [by eauto 6|done|by apply Hd].
    + intros (He & d & Hin & Hv & Hfit). pose proof (Hd d Hin) as Hset. exists d. split.
      * destruct (fits_agrees db p f s Hp Hs d g Hset (ext_le _ _ _ He) Hfit) as (A1 & A2 & A3). by apply scan_covers.
      * rewrite Hv. apply In_option_list, (match_datom_iff db p f s Hap Hf Hp Hdb Hs); done.
Qed.
End scan.
