(* ===== verification/QueryMeaning.v ===== *)
(** * What a query means

    The assignments under which the clauses of a query without negation hold, [missing?] and
    functions included, with the relations that its rules define as the least ones closed
    under the rules, stage by stage. *)

From stdpp Require Import base list strings sorting.
From Stdlib Require Import ZArith Lia.
From S2P Require Import Prelude OrdMap Machine Ids Keyword Values Encoding Datoms Schema Bootstrap SchemaDatoms Crypt.
From S2P Require Import Db DbFacts DbReads Protect Edn QueryAst Builtins QueryExec QueryFacts.
Local Open Scope Z_scope.

Notation Frame := (list (string * Value)).
Notation RuleKey := (string * list (option Value))%type.

(** ** Clauses, by induction *)

Lemma clause_ind (P : Clause -> Prop) :
  (forall p, P (Clause.Pattern p)) -> (forall name args, P (Clause.Pred name args)) ->
  (forall name args b, P (Clause.Fn name args b)) ->
  (forall s vars cs, Forall P cs -> P (Clause.Not s vars cs)) ->
  (forall s vars bs, Forall (Forall P) bs -> P (Clause.Or s vars bs)) ->
  (forall name args, P (Clause.RuleCall name args)) -> forall c, P c.
Proof.
  intros HP Hp HF HN HO HR. fix IH 1. intros [p|name args|name args b|s vars cs|s vars bs|name args]; [apply HP|apply Hp|apply HF| | |apply HR].
  - apply HN. induction cs as [|c cs IHcs]; [constructor|]. constructor; [apply IH|exact IHcs].
  - apply HO. induction bs as [|b bs IHbs]; [constructor|]. constructor; [|exact IHbs].
    induction b as [|c b IHb]; [constructor|]. constructor; [apply IH|exact IHb].
Qed.

Lemma foldr_and {A} (P : A -> Prop) l : foldr (fun x acc => P x /\ acc) True l <-> forall x, In x l -> P x.
Proof. induction l as [|x l IH]; cbn; [naive_solver|]. rewrite IH. naive_solver. Qed.

Lemma foldr_or {A} (P : A -> Prop) l : foldr (fun x acc => P x \/ acc) False l <-> exists x, In x l /\ P x.
Proof. induction l as [|x l IH]; cbn; [naive_solver|]. rewrite IH. naive_solver. Qed.

Lemma extend_In s vs v : In v (extend s vs) <-> In v vs \/ In v s.
Proof. apply os_fold_insert_In. Qed.

Lemma fold_extend_In {A} (f : A -> list string) l s v : In v (fold_left (fun out x => extend out (f x)) l s) <-> In v s \/ exists x, In x l /\ In v (f x).
Proof.
  revert s. induction l as [|x l IH]; intros s; cbn [fold_left]; [naive_solver|]. rewrite IH, extend_In. cbn. naive_solver.
Qed.

Lemma clauses_vars_In cs v : In v (clauses_vars cs) <-> exists c, In c cs /\ In v (clause_vars c).
Proof. unfold clauses_vars. rewrite fold_extend_In. naive_solver. Qed.

Lemma or_vars_In s bs v : In v (clause_vars (Clause.Or s None bs)) <-> exists b, In b bs /\ In v (clauses_vars b).
Proof.
  cbn [clause_vars]. setoid_rewrite clauses_vars_In.
  assert (forall out, In v (fold_left (fun out b => fold_left (fun out c => extend out (clause_vars c)) b out) bs out) <->
    In v out \/ exists b, In b bs /\ exists c, In c b /\ In v (clause_vars c)) as ->; [|naive_solver].
  induction bs as [|b bs IH]; intros out; cbn [fold_left]; [naive_solver|]. rewrite IH, fold_extend_In. cbn. naive_solver.
Qed.

Lemma branches_agree_vars o bs b : branches_agree o bs = Ok tt -> In b bs -> match o with
  | Some vs => clauses_vars b = vs
  | None => forall b', In b' bs -> clauses_vars b = clauses_vars b'
  end.
Proof.
  assert (Hs : forall vs bs b, branches_agree (Some vs) bs = Ok tt -> In b bs -> clauses_vars b = vs).
  { clear. intros vs bs b. induction bs as [|b' bs IH]; [done|]. cbn [branches_agree]. case_bool_decide as E; [|done]. intros H [<-|Hin]; [done|by apply IH]. }
  intros H Hin. destruct o as [vs|]; [by eapply Hs|]. destruct bs as [|b0 bs]; [done|]. cbn [branches_agree] in H.
  assert (Hall : forall b, In b (b0 :: bs) -> clauses_vars b = clauses_vars b0). { intros b1 [<-|H1]; [done|by eapply Hs]. }
  intros b' Hb'. by rewrite (Hall b Hin), (Hall b' Hb').
Qed.

Definition agree_on (vs : list string) (g g' : Frame) : Prop := forall v, In v vs -> om_get v g' = om_get v g.

Lemma agree_sym vs g g' : agree_on vs g g' -> agree_on vs g' g.
Proof. intros H v Hv. symmetry. by apply H. Qed.

Section meaning.
Context {R : Rpds} `{C : Crypto} {UC : UnicodeCase} (ctx : ExecCtx).
Implicit Type D : string -> list Value -> Prop.

Definition arg_at (g : Frame) (t : Term) (x : Value) : Prop :=
  match t with
  | Term.Var v => om_get v g = Some x
  | Term.Blank => True
  | Term.Const form => (db ← default_db ctx; const_value db form) = Some x
  end.

Definition pred_holds (name : string) (args : list Term) (g : Frame) : Prop :=
  exists vs, call_args ctx g args = Ok vs /\
    (ctx_call ctx name vs = Ok (CallResult.Test true) \/ ctx_call ctx name vs = Ok (CallResult.Scalar (Value.Bool true))).

(** *** Absent values *)

(** The values of an attribute of an entity that the reader may see. *)
Definition visible_values (db : Db) (entity : option EntityId) (a : AttrId) : list Value :=
  match entity with Some e => if rc_visible (ctx_read ctx) a then values db e a else [] | None => [] end.

Definition missing_holds (args : list Term) (g : Frame) : Prop :=
  exists db e_term a_term a entity, db_context_args ctx args = Ok (db, [e_term; a_term]) /\ attr_const db a_term = Ok a /\
    entity_arg ctx db g e_term = Ok entity /\ visible_values db entity a = [].

(** *** Functions *)

(** What a function clause gives under an assignment. [get-else] gives the least value of
    the attribute, or its default. *)
Definition fn_result (name : string) (args : list Term) (b : Binding) (g : Frame) : result QueryError CallResult :=
  if bool_decide (name = "ground") then
    db ← ok_or (default_db ctx) (QueryError.UnknownSource "$");
    match args with
    | [Term.Const form] => ground_result db b form
    | _ => Err (QueryError.Arity (msg "ground takes one constant" []))
    end
  else if bool_decide (name = "get-else") then
    '(db, rest) ← db_context_args ctx args;
    match rest with
    | [e_term; a_term; default_term] =>
        a ← attr_const db a_term;
        entity ← entity_arg ctx db g e_term;
        value ← match visible_values db entity a with v :: _ => Ok v | [] => else_value db a g default_term end;
        Ok (CallResult.Scalar value)
    | _ => Err (QueryError.Arity (msg "get-else takes a source, entity, attribute, and default" []))
    end
  else
    vs ← call_args ctx g args;
    res ← ctx_call ctx name vs;
    Ok (match res with CallResult.Test b => CallResult.Scalar (Value.Bool b) | res => res end).

Definition target_at (g : Frame) (t : BindTarget) (x : Value) : Prop :=
  match t with BindTarget.Var v => om_get v g = Some x | BindTarget.Blank => True end.

(** The assignment has the result, or one of its members or rows, where the binding says. *)
Definition binds (b : Binding) (res : CallResult) (g : Frame) : Prop :=
  match b, res with
  | Binding.Scalar v, CallResult.Scalar x => om_get v g = Some x
  | Binding.Coll t, CallResult.Coll xs => exists x, In x xs /\ target_at g t x
  | Binding.Tuple ts, CallResult.Coll xs => Forall2 (target_at g) ts xs
  | Binding.Rel ts, CallResult.Rel rows => exists row, In row rows /\ Forall2 (target_at g) ts row
  | _, _ => False
  end.

(** A clause holds under an assignment, given the relations of the rules. An [or-join]
    hides the variables that it does not list. Negation is left out. *)
Fixpoint holds D (c : Clause) (g : Frame) : Prop :=
  match c with
  | Clause.Pattern p => pattern_holds ctx p g
  | Clause.Pred name args => if bool_decide (name = "missing?") then missing_holds args g else pred_holds name args g
  | Clause.Fn name args b => exists res, fn_result name args b g = Ok res /\ binds b res g
  | Clause.RuleCall name args => exists tuple, D name tuple /\ Forall2 (arg_at g) args tuple
  | Clause.Or _ None bs => foldr (fun b acc => foldr (fun c acc => holds D c g /\ acc) True b \/ acc) False bs
  | Clause.Or _ (Some vars) bs =>
      foldr (fun b acc => (exists g', om_wf g' /\ agree_on vars g g' /\ foldr (fun c acc => holds D c g' /\ acc) True b) \/ acc) False bs
  | Clause.Not _ _ _ => False
  end.

Definition all_hold D (cs : list Clause) (g : Frame) : Prop := forall c, In c cs -> holds D c g.

Lemma holds_or D s bs g : holds D (Clause.Or s None bs) g <-> exists b, In b bs /\ all_hold D b g.
Proof. cbn [holds]. rewrite foldr_or. by setoid_rewrite foldr_and. Qed.

Lemma holds_or_join D s vars bs g :
  holds D (Clause.Or s (Some vars) bs) g <-> exists b g', In b bs /\ om_wf g' /\ agree_on vars g g' /\ all_hold D b g'.
Proof. cbn [holds]. rewrite foldr_or. setoid_rewrite foldr_and. naive_solver. Qed.

(** ** Rules *)

(** What follows by [h] rounds of the rules. *)
Fixpoint stage (h : nat) (name : string) (tuple : list Value) : Prop :=
  match h with
  | O => False
  | S h => exists defs def g, om_get name (rules ctx) = Some defs /\ In def defs /\ om_wf g /\
      head_tuple (head_vars def) g = Ok tuple /\ all_hold (stage h) (rd_clauses def) g
  end.

Definition derives (name : string) (tuple : list Value) : Prop := exists h, stage h name tuple.

Lemma holds_mono D D' c g : (forall name t, D name t -> D' name t) -> holds D c g -> holds D' c g.
Proof.
  intros HD. revert g. induction c as [p|name args|name args b|s vars cs IH|s vars bs IH|name args] using clause_ind; intros g; try done.
  - rewrite List.Forall_forall in IH. assert (Hb : forall b g, In b bs -> all_hold D b g -> all_hold D' b g).
    { intros b g' Hb Hall c Hc. specialize (IH b Hb). rewrite List.Forall_forall in IH. by apply IH, Hall. }
    destruct vars as [vars|]; [rewrite !holds_or_join|rewrite !holds_or]; naive_solver.
  - cbn. naive_solver.
Qed.

Lemma stage_mono h h' name t : (h <= h')%nat -> stage h name t -> stage h' name t.
Proof.
  revert h' name t. induction h as [|h IH]; intros [|h'] name t Hle; try done; [lia|].
  intros (defs & def & g & H1 & H2 & H3 & H4 & H5). exists defs, def, g. split_and!; [done..|].
  intros c Hc. eapply holds_mono; [|by apply H5]. intros n t'. apply IH. lia.
Qed.

Lemma finite_stages {A} (P : nat -> A -> Prop) l : (forall h h' x, (h <= h')%nat -> P h x -> P h' x) ->
  (forall x, In x l -> exists h, P h x) -> exists h, forall x, In x l -> P h x.
Proof.
  intros Hm. induction l as [|x l IH]; intros H; [by exists 0%nat|]. destruct (H x) as [h1 H1]; [by left|].
  destruct IH as [h2 H2]; [intros; apply H; by right|]. exists (Nat.max h1 h2). intros y [<-|Hy]; eapply Hm; [|done| |by apply H2]; lia.
Qed.

Lemma holds_finite c g : holds derives c g -> exists h, holds (stage h) c g.
Proof.
  assert (Hmono : forall h h' c g, (h <= h')%nat -> holds (stage h) c g -> holds (stage h') c g).
  { intros h h' c' g' Hle. apply holds_mono. intros n t. by apply stage_mono. }
  revert g. induction c as [p|name args|name args b|s vars cs IH|s vars bs IH|name args] using clause_ind; intros g;
    [by exists 0%nat|by exists 0%nat|by exists 0%nat|done| |].
  - rewrite List.Forall_forall in IH. assert (Hb : forall b g, In b bs -> all_hold derives b g -> exists h, all_hold (stage h) b g).
    { intros b g' Hb Hall. specialize (IH b Hb). rewrite List.Forall_forall in IH. apply (finite_stages (fun h c => holds (stage h) c g')).
      - intros h h' c Hle. by apply Hmono.
      - intros c Hc. by apply IH, Hall. }
    destruct vars as [vars|]; [setoid_rewrite holds_or_join|setoid_rewrite holds_or].
    + intros (b & g' & Hin & Hw & Hag & Hall). destruct (Hb b g' Hin Hall) as [h Hh]. exists h, b, g'. done.
    + intros (b & Hin & Hall). destruct (Hb b g Hin Hall) as [h Hh]. exists h, b. done.
  - intros (t & [h Ht] & Hargs). exists h, t. done.
Qed.

Lemma all_hold_finite cs g : all_hold derives cs g -> exists h, all_hold (stage h) cs g.
Proof.
  intros H. apply (finite_stages (fun h c => holds (stage h) c g)).
  - intros h h' c Hle. apply holds_mono. intros n t. by apply stage_mono.
  - intros c Hc. by apply holds_finite, H.
Qed.

(** *** The least model *)

(** Relations in which what follows by a rule is there. *)
Definition model D : Prop := forall name defs def g tuple, om_get name (rules ctx) = Some defs -> In def defs -> om_wf g ->
  head_tuple (head_vars def) g = Ok tuple -> all_hold D (rd_clauses def) g -> D name tuple.

Lemma derives_model : model derives.
Proof.
  intros name defs def g tuple Hdefs Hdef Hg Ht Hall. destruct (all_hold_finite _ _ Hall) as [h Hh]. exists (S h), defs, def, g. done.
Qed.

Lemma stage_least D h name tuple : model D -> stage h name tuple -> D name tuple.
Proof.
  intros HD. revert name tuple. induction h as [|h IH]; intros name tuple; [done|]. intros (defs & def & g & H1 & H2 & H3 & H4 & H5).
  eapply HD; [done|done|done|done|]. intros c Hc. eapply holds_mono; [|by apply H5]. exact IH.
Qed.

Lemma all_hold_models cs g : all_hold derives cs g <-> forall D, model D -> all_hold D cs g.
Proof.
  split; [|intros H; apply H, derives_model]. intros H D HD c Hc. eapply holds_mono; [|by apply H]. intros name tuple [h Hh]. by eapply stage_least.
Qed.

(** A clause only looks at its variables. *)
Lemma at_term_agree db g g' t pos attr x : agree_on (term_vars t) g g' -> at_term ctx db g t pos attr x -> at_term ctx db g' t pos attr x.
Proof. destruct t as [v| |form]; [|done|done]. intros H. cbn. intros <-. apply H. by left. Qed.

Lemma call_args_agree g g' args : agree_on (flat_map term_vars args) g g' -> call_args ctx g' args = call_args ctx g args.
Proof.
  unfold call_args. induction args as [|t args IH]; [done|]. intros H. cbn [try_map].
  assert (call_arg ctx g' t = call_arg ctx g t) as ->.
  { destruct t as [v| |form]; [|done|done]. cbn. rewrite H by (by left). done. }
  rewrite IH; [done|]. intros v Hv. apply H. cbn. rewrite in_app_iff. by right.
Qed.

Lemma args_at_agree g g' args t : agree_on (flat_map term_vars args) g g' -> Forall2 (arg_at g) args t -> Forall2 (arg_at g') args t.
Proof.
  intros H Hf. induction Hf as [|a x args t Ha Hf IH]; [constructor|]. constructor.
  - destruct a as [v| |form]; [|done|done]. cbn in *. rewrite <- Ha. apply H. by left.
  - apply IH. intros v Hv. apply H. cbn. rewrite in_app_iff. by right.
Qed.

Lemma entity_arg_agree db g g' t : agree_on (term_vars t) g g' -> entity_arg ctx db g' t = entity_arg ctx db g t.
Proof. destruct t as [v| |form]; [|done|done]. intros H. cbn. by rewrite H by (by left). Qed.

Lemma else_value_agree db a g g' t : agree_on (term_vars t) g g' -> else_value db a g' t = else_value db a g t.
Proof. destruct t as [v| |form]; [|done|done]. intros H. cbn. by rewrite H by (by left). Qed.

(** A source in front of the arguments names no variable. *)
Lemma context_args_vars args db rest v : db_context_args ctx args = Ok (db, rest) -> In v (flat_map term_vars args) <-> In v (flat_map term_vars rest).
Proof.
  unfold db_context_args. set (fallback := _ ≫= _). assert (Hf : fallback = Ok (db, rest) -> args = rest).
  { unfold fallback. destruct (default_db ctx); [|done]. by intros [= _ ->]. }
  destruct args as [|t args]; [by intros <-%Hf|]. destruct t as [w| |form]; [by intros <-%Hf|by intros <-%Hf|].
  destruct form; try (by intros <-%Hf). destruct (begins _ _); [|by intros <-%Hf]. destruct (ctx_db ctx _); [|done]. by intros [= _ <-].
Qed.

Lemma fn_result_agree name args b g g' : agree_on (flat_map term_vars args) g g' -> fn_result name args b g' = fn_result name args b g.
Proof.
  intros H. unfold fn_result. case_bool_decide; [done|]. case_bool_decide; [|by rewrite (call_args_agree g g')].
  destruct (db_context_args ctx args) as [[db rest]|] eqn:Hc; [|done]. cbn [mbind result_bind].
  destruct rest as [|e [|a [|d [|]]]]; try done. destruct (attr_const db a); [|done]. cbn [mbind result_bind].
  assert (H' : forall t, In t [e; a; d] -> agree_on (term_vars t) g g').
  { intros t Ht v Hv. apply H. rewrite (context_args_vars args db _ v Hc). apply in_flat_map. by exists t. }
  rewrite (entity_arg_agree db g g' e) by (apply H'; by left). destruct (entity_arg ctx db g e); [|done]. cbn [mbind result_bind].
  by rewrite (else_value_agree db _ g g' d) by (apply H'; right; right; by left).
Qed.

Lemma binds_agree b res g g' : agree_on (binding_vars b) g g' -> binds b res g -> binds b res g'.
Proof.
  assert (Ht : forall t x, agree_on (target_vars t) g g' -> target_at g t x -> target_at g' t x).
  { intros [v|] x H; [|done]. cbn. intros <-. apply H. by left. }
  assert (Hts : forall ts xs, agree_on (flat_map target_vars ts) g g' -> Forall2 (target_at g) ts xs -> Forall2 (target_at g') ts xs).
  { intros ts xs H Hf. induction Hf as [|t x ts xs Hx Hf IH]; [constructor|]. constructor; [apply Ht; [|done]|apply IH];
      intros v Hv; apply H; cbn; rewrite in_app_iff; tauto. }
  destruct b as [v|ts|t|ts], res as [| |xs|rows]; try done; cbn [binding_vars binds]; intros H.
  - intros <-. apply H. by left.
  - by apply Hts.
  - intros (x & Hx & Hg). exists x. split; [done|by apply Ht].
  - intros (row & Hr & Hg). exists row. split; [done|by apply Hts].
Qed.

Lemma missing_agree args g g' : agree_on (flat_map term_vars args) g g' -> missing_holds args g -> missing_holds args g'.
Proof.
  intros H (db & e & a & attr & oe & Hc & Ha & He & Hv). exists db, e, a, attr, oe. split_and!; [done|done| |done].
  rewrite (entity_arg_agree db g g'); [done|]. intros v Hv'. apply H. rewrite (context_args_vars args db _ v Hc). apply in_flat_map.
  exists e. split; [by left|done].
Qed.

Lemma holds_agree D c g g' : agree_on (clause_vars c) g g' -> holds D c g -> holds D c g'.
Proof.
  revert g g'. induction c as [p|name args|name args b|s vars cs IH|s vars bs IH|name args] using clause_ind; intros g g' Hag; [| | |done| |].
  - assert (Hag' : forall t, In t (pattern_terms p) -> agree_on (term_vars t) g g').
    { intros t Ht v Hv. apply Hag. cbn [clause_vars]. apply os_of_list_In, in_flat_map. by exists t. }
    intros (db & d & H1 & H2 & H3 & F1 & F2 & F3 & F4 & F5). exists db, d. split_and!; [done..|].
    split_and!; (eapply at_term_agree; [|done]); apply Hag'; cbn; tauto.
  - assert (Hag' : agree_on (flat_map term_vars args) g g'). { intros v Hv. apply Hag. by apply os_of_list_In. }
    cbn [holds]. case_bool_decide; [by apply missing_agree|]. intros (vs & H0). exists vs. by rewrite (call_args_agree g g').
  - intros (res & Hr & Hb). exists res. cbn [clause_vars] in Hag. split.
    + rewrite (fn_result_agree name args b g g'); [done|]. intros v Hv. apply Hag. apply extend_In. right. by apply os_of_list_In.
    + apply (binds_agree b res g); [|done]. intros v Hv. apply Hag. apply extend_In. by left.
  - destruct vars as [vars|].
    + rewrite !holds_or_join. intros (b & g1 & Hb & Hw & Hg1 & Hall). exists b, g1. split_and!; [done|done| |done].
      intros v Hv. rewrite Hg1 by done. symmetry. apply Hag. by apply os_of_list_In.
    + rewrite !holds_or. intros (b & Hb & Hall). exists b. split; [done|]. intros c Hc. rewrite List.Forall_forall in IH.
      specialize (IH b Hb). rewrite List.Forall_forall in IH. apply (IH c Hc g); [|by apply Hall].
      intros v Hv. apply Hag. apply or_vars_In. exists b. split; [done|]. apply clauses_vars_In. by exists c.
  - assert (Hag' : agree_on (flat_map term_vars args) g g'). { intros v Hv. apply Hag. by apply os_of_list_In. }
    intros (t & Ht & Hargs). exists t. split; [done|]. by eapply args_at_agree.
Qed.
End meaning.
