(* ===== verification/QueryRules.v ===== *)
(** * Evaluation against the meaning

    A logic for the evaluator: what a computation gives is sound, and complete as far as
    the tables that it read are. Clauses and rule bodies are dealt with once, for rules in
    the middle of a round and for the query itself. *)

From stdpp Require Import base list strings sorting.
From Stdlib Require Import ZArith Lia.
From S2P Require Import Prelude OrdMap Machine Ids Keyword Values Encoding Datoms Schema Bootstrap SchemaDatoms Crypt.
From S2P Require Import Db DbFacts DbReads Protect Edn QueryAst Builtins QueryExec QueryFacts QueryMeaning.
Local Open Scope Z_scope.

(** ** Plans only reorder *)

Section plan.
Context {R : Rpds} `{C : Crypto} {UC : UnicodeCase} (ctx : ExecCtx).

Lemma order_loop_perm n l bound : n = length l -> order_loop ctx n l bound ≡ₚ map fst l.
Proof.
  revert l bound. induction n as [|n IH]; intros l bound Hn; [by destruct l|]. cbn [order_loop].
  pose proof (take_cheapest_perm (fun ic => cost ctx ic.2 bound) l) as Hp. destruct (take_cheapest _ l) as [[[i c] rest]|]; [|by subst l].
  rewrite Hp. cbn [map fst]. constructor. apply IH. apply Permutation_length in Hp. cbn in Hp. lia.
Qed.

Lemma order_clauses_perm cs bound : order_clauses ctx cs bound ≡ₚ seq 0 (length cs).
Proof.
  unfold order_clauses. rewrite order_loop_perm by (by rewrite length_combine, length_seq, Nat.min_id).
  enough (forall k, map fst (combine (seq k (length cs)) cs) = seq k (length cs)) as -> by done.
  induction cs as [|c cs IH]; intros k; [done|]. cbn. f_equal. apply IH.
Qed.

(** The clauses of a plan, in its order. *)
Definition picked (cs : list Clause) (order : list nat) : list Clause := omap (fun i => cs !! i) order.

Lemma picked_all cs order c : order ≡ₚ seq 0 (length cs) -> In c (picked cs order) <-> In c cs.
Proof.
  intros Hp. unfold picked. rewrite <- !list_elem_of_In, list_elem_of_omap, list_elem_of_lookup. split.
  - intros (i & _ & Hi). by exists i.
  - intros (i & Hi). exists i. split; [|done]. rewrite Hp. apply elem_of_seq. apply lookup_lt_Some in Hi. lia.
Qed.
End plan.

(** ** Binding *)

Lemma value_match_sym x y : value_match x y = value_match y x.
Proof.
  unfold value_match. assert (bool_decide (x = y) = bool_decide (y = x)) as -> by (apply bool_decide_ext; split; congruence).
  f_equal. by destruct x, y.
Qed.

Lemma bind_var_field f v x : bind_var f v x = match_field (Free (Some v)) x f.
Proof. unfold bind_var, match_field. destruct (om_get v f) as [y|]; [|done]. by rewrite value_match_sym. Qed.

(** A variable to be bound to a value, as a position of a pattern. *)
Definition arg_field (t : Term) (x : Value) : Term * Spec * Value :=
  match t with Term.Var v => (Term.Var v, Free (Some v), x) | _ => (Term.Blank, Free None, x) end.

Definition var_at (g : Frame) (t : Term) (x : Value) : Prop := match t with Term.Var v => om_get v g = Some x | _ => True end.

Lemma bind_args_fields f args tuple : bind_args f (combine args tuple) = match_fields (field_specs (zip_with arg_field args tuple)) f.
Proof.
  revert f tuple. induction args as [|t args IH]; intros f [|x tuple]; try done.
  destruct t as [v| |form]; cbn [combine bind_args zip_with arg_field field_specs map match_fields fst snd]; [|apply IH|apply IH].
  rewrite bind_var_field. destruct (match_field (Free (Some v)) x f) as [f'|]; [apply IH|done].
Qed.

Lemma arg_fields_ok U args tuple : Forall U tuple -> Forall (field_ok U []) (zip_with arg_field args tuple).
Proof.
  intros H. revert args. induction H as [|x tuple Hx _ IH]; intros [|t args]; constructor; [|apply IH]. by destruct t.
Qed.

Lemma arg_fields_sat g args tuple : length args = length tuple ->
  Forall (field_sat g) (zip_with arg_field args tuple) <-> Forall2 (var_at g) args tuple.
Proof.
  revert tuple. induction args as [|t args IH]; intros [|x tuple] Hl; try done; cbn [zip_with].
  rewrite Forall_cons, Forall2_cons, IH by (by injection Hl). by destruct t.
Qed.

Lemma arg_fields_vars args tuple : length args = length tuple -> field_vars (zip_with arg_field args tuple) = flat_map term_vars args.
Proof.
  revert tuple. induction args as [|t args IH]; intros [|x tuple] Hl; try done. unfold field_vars in *. cbn [zip_with flat_map].
  rewrite IH by (by injection Hl). by destruct t.
Qed.

(** ** Results of a query *)

Section rules.
Context {R : Rpds} {HR : RpdsLaws R} `{C : Crypto} {UC : UnicodeCase} (ctx : ExecCtx) (U : Value -> Prop).

(** A tuple of the relation that a call with these arguments asks for. *)
Definition fits_key (args : list (option Value)) (tuple : list Value) : Prop :=
  Forall2 (fun o x => forall y, o = Some y -> x = y) args tuple.

Definition key_ok (key : RuleKey) : Prop := forall x, In (Some x) key.2 -> U x.

Definition answer (key : RuleKey) (tuple : list Value) : Prop :=
  derives ctx key.1 tuple /\ fits_key key.2 tuple /\ Forall U tuple.

(** The tables hold nothing that does not follow. *)
Definition tables_sound (st : ExecState) : Prop := forall key tuple, In tuple (table st key) -> answer key tuple.

Lemma same_table st st' key : same st st' -> table st' key = table st key.
Proof. intros [H _]. unfold table. by rewrite H. Qed.

Lemma same_sound st st' : same st st' -> tables_sound st -> tables_sound st'.
Proof. intros Hs H key t. rewrite (same_table _ _ _ Hs). apply H. Qed.

Section run.
Context (fin : ExecState -> Prop) (adm : (nat -> Prop) -> Prop).

(** [m] keeps the tables sound and gives what [Q] says; if it ends in [fin] it began there,
    and for the stages that the tables it read are complete for, it gives all that [W]
    says. *)
Definition run {A} (m : exec A) (Q : A -> Prop) (W : nat -> A -> Prop) : Prop :=
  forall st st' a, tables_sound st -> m st = Some (st', Ok a) ->
    tables_sound st' /\ Q a /\ (fin st' -> fin st /\ exists P, adm P /\ forall h, P h -> W h a).

Class Guards : Prop := {
  fin_same : forall st st', same st st' -> fin st' -> fin st;
  adm_true : adm (fun _ => True);
  adm_and : forall P Q, adm P -> adm Q -> adm (fun h => P h /\ Q h) }.

Context {HG : Guards}.

Lemma run_pure {A} (m : exec A) (Q : A -> Prop) (W : nat -> A -> Prop) :
  (forall st st' a, m st = Some (st', Ok a) -> same st st' /\ Q a /\ forall h, W h a) -> run m Q W.
Proof.
  intros H st st' a Hi Hm. destruct (H st st' a Hm) as (Hs & Hq & Hw). split_and!; [by eapply same_sound|done|].
  intros Hf. split; [by eapply fin_same|]. exists (fun _ => True). split; [apply adm_true|by intros h _].
Qed.

Lemma run_ret {A} (a : A) (Q : A -> Prop) (W : nat -> A -> Prop) : Q a -> (forall h, W h a) -> run (mret a) Q W.
Proof. intros Hq Hw. apply run_pure. by intros st st' a' [= <- <-]. Qed.

Lemma run_bind {A B} (m : exec A) (f : A -> exec B) (Q : A -> Prop) (W : nat -> A -> Prop) (Q' : B -> Prop) (W' : nat -> B -> Prop) :
  run m Q W -> (forall a, Q a -> run (f a) Q' (fun h b => W h a -> W' h b)) -> run (m ≫= f) Q' W'.
Proof.
  intros Hm Hf st st' b Hi (st1 & a & H1 & H2)%exec_bind_ok. destruct (Hm _ _ _ Hi H1) as (Hi1 & Ha & Hfin1).
  destruct (Hf a Ha _ _ _ Hi1 H2) as (Hi2 & Hb & Hfin2). split_and!; [done|done|]. intros Hfin. destruct (Hfin2 Hfin) as (Hfin' & P2 & Ad2 & W2).
  destruct (Hfin1 Hfin') as (Hfin'' & P1 & Ad1 & W1). split; [done|]. exists (fun h => P1 h /\ P2 h). split; [by apply adm_and|].
  intros h [Hp1 Hp2]. by apply W2; [|apply W1].
Qed.

Lemma run_lift {A B} (r : result QueryError A) (f : A -> exec B) (Q : B -> Prop) (W : nat -> B -> Prop) :
  (forall a, r = Ok a -> run (f a) Q W) -> run (lift r ≫= f) Q W.
Proof. intros H st st' b Hi (st1 & a & [-> ->]%lift_ok & H2)%exec_bind_ok. by eapply H. Qed.

Lemma run_weaken {A} (m : exec A) (Q Q' : A -> Prop) (W W' : nat -> A -> Prop) :
  run m Q W -> (forall a, Q a -> Q' a) -> (forall h a, Q a -> W h a -> W' h a) -> run m Q' W'.
Proof.
  intros H HQ HW st st' a Hi Hm. destruct (H _ _ _ Hi Hm) as (Hi' & Hq & Hfin). split_and!; [done|by apply HQ|].
  intros Hf. destruct (Hfin Hf) as (Hf' & P & Had & Hw). split; [done|]. exists P. split; [done|]. intros h Hp. apply HW; [done|by apply Hw].
Qed.

(** Every result is a [Q], and every [W] is a result. *)
Definition yields {B} (m : exec (list B)) (Q : B -> Prop) (W : nat -> B -> Prop) : Prop :=
  run m (fun ys => forall y, In y ys -> Q y) (fun h ys => forall y, W h y -> In y ys).

Lemma yields_flat {A B} (f : A -> exec (list B)) l (Q : A -> B -> Prop) (W : A -> nat -> B -> Prop) :
  (forall x, In x l -> yields (f x) (Q x) (W x)) ->
  yields (flat_exec f l) (fun y => exists x, In x l /\ Q x y) (fun h y => exists x, In x l /\ W x h y).
Proof.
  induction l as [|x l IH]; intros H; cbn [flat_exec].
  { apply run_ret; [done|]. intros h y (x & [] & _). }
  eapply run_bind; [apply H; by left|]. intros ys Hys. eapply run_bind; [apply IH; intros x' Hx'; apply H; by right|].
  intros zs Hzs. apply run_ret.
  - intros y [Hy|Hy]%in_app_iff; [exists x; split; [by left|auto]|]. destruct (Hzs y Hy) as (x' & Hx' & Hq). exists x'. split; [by right|done].
  - intros h Hw Hw' y (x' & [<-|Hx'] & Hwy); apply in_app_iff; [left; by apply Hw'|right]. apply Hw. by exists x'.
Qed.

(** ** Clauses *)

Definition result_in (res : CallResult) : Prop :=
  match res with
  | CallResult.Test _ => True
  | CallResult.Scalar x => U x
  | CallResult.Coll xs => Forall U xs
  | CallResult.Rel rows => Forall (Forall U) rows
  end.

(** A clause without negation whose constants and results are among the values in question.
    The branches of a disjunction bind the same variables, a join lists variables of each of
    its branches, and the default of [get-else] is not a variable, which would go unread
    where there is a value. *)
Fixpoint plain_clause (c : Clause) : Prop :=
  match c with
  | Clause.Pattern p => plain_pattern ctx U p
  | Clause.Pred _ _ => True
  | Clause.Fn name args b =>
      (name = "get-else" -> forall v, last args <> Some (Term.Var v)) /\
      forall g res, frame_ok U g -> fn_result ctx name args b g = Ok res -> result_in res
  | Clause.RuleCall _ args => forall form x, In (Term.Const form) args -> (db ← default_db ctx; const_value db form) = Some x -> U x
  | Clause.Or _ vars bs =>
      match vars with
      | None => branches_agree None bs = Ok tt
      | Some vars => forall b v, In b bs -> In v vars -> In v (clauses_vars b)
      end /\ foldr (fun b acc => foldr (fun c acc => plain_clause c /\ acc) True b /\ acc) True bs
  | Clause.Not _ _ _ => False
  end.

Definition assignment (vs : list string) (sem : (string -> list Value -> Prop) -> Frame -> Prop) (f : Frame) (D : string -> list Value -> Prop) (g : Frame) : Prop :=
  ext f g vs /\ sem D g.

(** The evaluator gives the frames that extend one of its own to [vs] and satisfy [sem]. *)
Definition spec (vs : list string) (sem : (string -> list Value -> Prop) -> Frame -> Prop) (eval : list Frame -> exec (list Frame)) : Prop :=
  forall frames, (forall f, In f frames -> frame_ok U f) ->
    yields (eval frames) (fun g => frame_ok U g /\ exists f, In f frames /\ assignment vs sem f (derives ctx) g)
      (fun h g => exists f, In f frames /\ assignment vs sem f (stage ctx h) g).

Lemma spec_flat vs sem ev :
  (forall f, frame_ok U f -> yields (ev f) (fun g => frame_ok U g /\ assignment vs sem f (derives ctx) g) (fun h g => assignment vs sem f (stage ctx h) g)) ->
  spec vs sem (flat_exec ev).
Proof.
  intros H frames Hfr. eapply run_weaken; [apply yields_flat; intros f Hf; apply H, Hfr, Hf| |].
  - cbn. intros ys Hys y Hy. destruct (Hys y Hy) as (f & Hf & Hok & Ha). eauto.
  - cbn. intros h ys _ Hys y (f & Hf & Ha). apply Hys. eauto.
Qed.

Context (Hap : apart U) (Hn : rc_hydrator (ctx_read ctx) = None).
Context (Hdbs : forall s db, ctx_db ctx s = Some db -> db_ok db /\ forall d, In d (datoms db) -> settled U db d).

Lemma ext_frame_ok f g vs : frame_ok U f -> ext f g vs -> (forall v, In v vs -> exists x, om_get v g = Some x /\ U x) -> frame_ok U g.
Proof.
  intros [_ Hf] [Hw Hle Hd] Hv. split; [done|]. intros v x Hx. destruct (proj1 (Hd v)) as [[y Hy]|Hin]; [by eexists| |].
  - rewrite (Hle v y Hy) in Hx. injection Hx as <-. by eapply Hf.
  - destruct (Hv v Hin) as (y & Hy & Uy). by rewrite Hy in Hx; injection Hx as <-.
Qed.

Lemma pattern_frame_ok p f g : frame_ok U f -> ext f g (clause_vars (Clause.Pattern p)) -> pattern_holds ctx p g -> frame_ok U g.
Proof.
  intros Hf He (db & d & Hdb & Hd & _ & F1 & F2 & F3 & F4 & F5). destruct (Hdbs _ _ Hdb) as [_ Hset].
  destruct (Hset d Hd) as (U1 & U2 & U3 & U4 & U5 & _). eapply ext_frame_ok; [done|done|].
  intros v Hv. cbn [clause_vars] in Hv. apply os_of_list_In, in_flat_map in Hv as (t & Ht & Hv).
  assert (t = Term.Var v) as -> by (destruct t; destruct Hv; subst; done).
  destruct Ht as [E|[E|[E|[E|[E|[]]]]]]; rewrite E in *; eauto.
Qed.

Lemma pattern_spec p : plain_pattern ctx U p -> spec (clause_vars (Clause.Pattern p)) (fun D => holds ctx D (Clause.Pattern p)) (eval_pattern ctx p).
Proof.
  intros Hp. unfold eval_pattern. destruct (ctx_db ctx (src p)) as [db|] eqn:Hdb; [|intros frames _; by apply run_pure].
  destruct (Hdbs _ _ Hdb) as [Hok Hset]. apply spec_flat. intros f Hf. apply run_pure. intros st st' out Hm.
  destruct (eval_pattern_frame_exact ctx U db p f st st' out Hok Hn Hset Hap Hf Hp Hdb Hm) as [Hs Hout]. split; [done|]. split.
  - intros g Hg. apply Hout in Hg as [He Hh]. split; [by eapply pattern_frame_ok|done].
  - intros h g [He Hh]. apply Hout. done.
Qed.

Lemma call_args_bound g args vs v : call_args ctx g args = Ok vs -> In v (flat_map term_vars args) -> is_Some (om_get v g).
Proof.
  unfold call_args. revert vs. induction args as [|t args IH]; [done|]. cbn [try_map]. intros vs (x & Hx & (xs & Hxs & _)%bind_ok)%bind_ok.
  cbn [flat_map]. intros [Hv|Hv]%in_app_iff; [|by eapply IH]. destruct t as [w| |form]; [|done|done]. destruct Hv as [<-|[]].
  cbn in Hx. destruct (om_get w g); [by eexists|done].
Qed.

Lemma pred_spec name args : name <> "missing?" -> spec (clause_vars (Clause.Pred name args)) (fun D => holds ctx D (Clause.Pred name args)) (eval_pred ctx name args).
Proof.
  intros Hname. unfold eval_pred. cbn [holds]. rewrite !bool_decide_false by done. apply spec_flat. intros f Hf. apply run_lift. intros vs Hvs. apply run_lift. intros res Hres.
  assert (Hb : forall v, In v (clause_vars (Clause.Pred name args)) -> is_Some (om_get v f)).
  { intros v Hv. eapply call_args_bound; [done|]. by apply os_of_list_In. }
  assert (Hone : forall D g, assignment (clause_vars (Clause.Pred name args)) (fun _ => pred_holds ctx name args) f D g ->
    g = f /\ (res = CallResult.Test true \/ res = CallResult.Scalar (Value.Bool true))).
  { intros D g [He Hh]. assert (g = f) as -> by (eapply ext_same; [apply Hf|done|done]). split; [done|].
    destruct Hh as (vs' & Hvs' & Hc). rewrite Hvs in Hvs'. injection Hvs' as <-. rewrite Hres in Hc. destruct Hc as [[= ->]|[= ->]]; [by left|by right]. }
  assert (Hself : (res = CallResult.Test true \/ res = CallResult.Scalar (Value.Bool true)) ->
    assignment (clause_vars (Clause.Pred name args)) (fun _ => pred_holds ctx name args) f (derives ctx) f).
  { intros Ht. split; [by apply ext_refl; [apply Hf|]|]. exists vs. rewrite Hres. split; [done|]. by destruct Ht as [-> | ->]; [left|right]. }
  destruct res as [[]|[[]| | | | | | | | |]| |]; try (by apply run_pure);
    (apply run_ret; [first [done|intros y [<-|[]]; split; [done|by apply Hself; eauto]]|]);
    intros h y Hy; destruct (Hone _ _ Hy) as [-> Ht]; first [by left|by destruct Ht].
Qed.

(** *** Absent values *)

Lemma value_of_visible db entity a : value_of ctx db entity a = Ok (head (visible_values ctx db entity a)).
Proof.
  destruct entity as [e|]; [|done]. cbn [value_of visible_values]. unfold first_value. induction (values db e a) as [|v vs IH]; [by destruct (rc_visible _ _)|].
  cbn [first_bound]. rewrite plain_hydrate by done. destruct (rc_visible (ctx_read ctx) a); [done|]. exact IH.
Qed.

Lemma entity_arg_bound db f t x v : entity_arg ctx db f t = Ok x -> In v (term_vars t) -> is_Some (om_get v f).
Proof. destruct t as [w| |form]; [|done|done]. cbn. intros H [<-|[]]. destruct (om_get w f); [by eexists|done]. Qed.

Lemma attr_const_vars db t a v : attr_const db t = Ok a -> ~ In v (term_vars t).
Proof. destruct t as [w| |form]; [done|done|]. by intros _ []. Qed.

Lemma missing_bound db e a attr entity args f v : db_context_args ctx args = Ok (db, [e; a]) -> attr_const db a = Ok attr -> entity_arg ctx db f e = Ok entity ->
  In v (clause_vars (Clause.Pred "missing?" args)) -> is_Some (om_get v f).
Proof.
  intros Hc Ha He Hv. cbn [clause_vars] in Hv. apply (proj1 (extend_In _ _ _)) in Hv as [Hv|[]]. rewrite (context_args_vars ctx args db _ v Hc) in Hv. cbn in Hv. rewrite !in_app_iff in Hv.
  destruct Hv as [Hv|[Hv|[]]]; [by eapply entity_arg_bound|by apply (attr_const_vars _ _ _ v) in Ha].
Qed.

Lemma missing_spec args : spec (clause_vars (Clause.Pred "missing?" args)) (fun D => holds ctx D (Clause.Pred "missing?" args)) (eval_pred ctx "missing?" args).
Proof.
  unfold eval_pred. cbn [holds]. rewrite !bool_decide_true by done. intros frames Hfr. unfold eval_missing. apply run_lift. intros [db rest] Hc.
  destruct rest as [|e [|a [|]]]; try (by apply run_pure). apply run_lift. intros attr Ha. revert frames Hfr. apply spec_flat.
  intros f Hf. apply run_lift. intros entity He. rewrite value_of_visible. apply run_lift. intros o [= <-].
  assert (Hb : forall v, In v (clause_vars (Clause.Pred "missing?" args)) -> is_Some (om_get v f)) by (intros v; by eapply missing_bound).
  assert (Hiff : missing_holds ctx args f <-> visible_values ctx db entity attr = []).
  { split; [|intros Hv; by exists db, e, a, attr, entity]. intros (db' & e' & a' & attr' & entity' & Hc' & Ha' & He' & Hv). rewrite Hc in Hc'. injection Hc' as <- <- <-.
    rewrite Ha in Ha'. injection Ha' as <-. rewrite He in He'. by injection He' as <-. }
  apply run_ret.
  - intros g Hg. destruct (visible_values ctx db entity attr) as [|x xs]; cbn in Hg; [|done]. destruct Hg as [<-|[]]. split; [done|].
    split; [by apply ext_refl; [apply Hf|]|by apply Hiff].
  - intros h g [Hext Hh]. assert (g = f) as -> by (eapply ext_same; [apply Hf|done|done]). apply Hiff in Hh. rewrite Hh. by left.
Qed.

(** *** Functions *)

Definition target_term (t : BindTarget) : Term := match t with BindTarget.Var v => Term.Var v | BindTarget.Blank => Term.Blank end.

Lemma bind_targets_args f ts xs : bind_targets f (combine xs ts) = bind_args f (combine (map target_term ts) xs).
Proof.
  revert f xs. induction ts as [|t ts IH]; intros f [|x xs]; try done. destruct t as [v|]; cbn; [|apply IH]. destruct (bind_var f v x); [apply IH|done].
Qed.

Lemma bind_tuple_iff f ts xs g : frame_ok U f -> Forall U xs ->
  bind_tuple f xs ts = Some g <-> ext f g (flat_map target_vars ts) /\ Forall2 (target_at g) ts xs.
Proof.
  intros Hf Hx. unfold bind_tuple. destruct (Nat.eqb_spec (length xs) (length ts)) as [Hl|Hl].
  2: { split; [done|]. intros [_ H]. by apply Forall2_length in H. }
  assert (Hl' : length (map target_term ts) = length xs) by (by rewrite length_map).
  assert (Ev : flat_map term_vars (map target_term ts) = flat_map target_vars ts) by (clear; induction ts as [|[v|] ts IH]; cbn; [done|by rewrite IH|done]).
  assert (Es : Forall2 (var_at g) (map target_term ts) xs <-> Forall2 (target_at g) ts xs).
  { rewrite Forall2_fmap_l. split; intros H; (eapply Forall2_impl; [exact H|]); by intros [v|] x. }
  rewrite bind_targets_args, bind_args_fields, <- Ev, <- Es, <- (arg_fields_vars _ xs Hl'), <- (arg_fields_sat g _ xs Hl'). split.
  - intros Hm. by apply (match_fields_sound U []) in Hm as (_ & He & Hs); [|done|by intros v x|done|by apply arg_fields_ok].
  - intros [He Hs]. by apply (match_fields_complete U []); [done|by intros v x|done|by apply arg_fields_ok| |].
Qed.
Lemma bind_var_iff f v x g : frame_ok U f -> U x -> bind_var f v x = Some g <-> ext f g [v] /\ om_get v g = Some x.
Proof.
  intros Hf Hx. pose proof (bind_tuple_iff f [BindTarget.Var v] [x] g Hf ltac:(by repeat constructor)) as H. cbn in H.
  assert ((f' ← bind_var f v x; Some f') = bind_var f v x) as E by (by destruct (bind_var f v x)). rewrite <- E. rewrite H.
  assert (Forall2 (target_at g) [BindTarget.Var v] [x] <-> om_get v g = Some x) as ->; [|done].
  split; [by inversion 1|]. by repeat constructor.
Qed.

Lemma ext_nil f g : frame_ok U f -> ext f g [] <-> g = f.
Proof. intros Hf. split; [intros He; by eapply ext_same; [apply Hf| |exact He]|intros ->; by apply ext_refl; [apply Hf|]]. Qed.

(** The frames of a result are the extensions that have it. *)
Lemma bind_result_iff f b res out g : frame_ok U f -> result_in res -> (forall t, res <> CallResult.Test t) ->
  bind_result f b res = Ok out -> In g out <-> ext f g (binding_vars b) /\ binds b res g.
Proof.
  intros Hf Hr Ht H. destruct b as [v|ts|t|ts], res as [t'|x|xs|rows]; try (by destruct (Ht t')); try done; try (by destruct t); cbn in H.
  - injection H as <-. rewrite In_option_list. by apply bind_var_iff.
  - injection H as <-. rewrite In_option_list. by apply bind_tuple_iff.
  - cbn [binding_vars binds]. cbn in Hr. rewrite List.Forall_forall in Hr. destruct t as [v|]; cbn in H; injection H as <-.
    + rewrite in_flat_map. setoid_rewrite In_option_list. cbn [target_vars target_at]. split.
      * intros (x & Hx & Hg). apply bind_var_iff in Hg as [? ?]; [|done|by apply Hr]. eauto.
      * intros [He (x & Hx & Hg)]. exists x. split; [done|]. apply bind_var_iff; [done|by apply Hr|done].
    + cbn [target_vars]. rewrite ext_nil by done. destruct xs as [|x xs]; cbn; [naive_solver|]. split; [intros [<-|[]]; split; [done|]; exists x; split; [by left|done]|].
      intros [-> _]. by left.
  - cbn [binding_vars binds]. cbn in Hr. rewrite List.Forall_forall in Hr. injection H as <-. rewrite in_flat_map. setoid_rewrite In_option_list. split.
    + intros (row & Hx & Hg). apply bind_tuple_iff in Hg as [? ?]; [|done|by apply Hr]. eauto.
    + intros [He (row & Hx & Hg)]. exists row. split; [done|]. apply bind_tuple_iff; [done|by apply Hr|done].
Qed.

Lemma context_args_last args db rest t : db_context_args ctx args = Ok (db, rest) -> last rest = Some t -> last args = Some t.
Proof.
  unfold db_context_args. set (fallback := _ ≫= _). assert (Hf : fallback = Ok (db, rest) -> args = rest).
  { unfold fallback. destruct (default_db ctx); [|done]. by intros [= _ ->]. }
  destruct args as [|a args]; [by intros <-%Hf|]. destruct a as [w| |form]; [by intros <-%Hf|by intros <-%Hf|].
  destruct form; try (by intros <-%Hf). destruct (begins _ _); [|by intros <-%Hf]. destruct (ctx_db ctx _); [|done]. intros [= _ <-]. by destruct args.
Qed.

Lemma fn_args_bound name args b f res v : plain_clause (Clause.Fn name args b) -> fn_result ctx name args b f = Ok res ->
  In v (flat_map term_vars args) -> is_Some (om_get v f).
Proof.
  intros [Hdef _] H Hv. unfold fn_result in H. case_bool_decide as E1.
  { apply bind_ok in H as (db & _ & H). by destruct args as [|[| |form] [|]]. }
  case_bool_decide as E2; [|apply bind_ok in H as (vs & Hvs & _); by eapply call_args_bound].
  apply bind_ok in H as ([db rest] & Hc & H). rewrite (context_args_vars ctx args db rest v Hc) in Hv.
  destruct rest as [|e [|a [|d [|]]]]; try done. apply bind_ok in H as (attr & Ha & H). apply bind_ok in H as (entity & He & _).
  cbn in Hv. rewrite !in_app_iff in Hv. destruct Hv as [Hv|[Hv|[Hv|[]]]]; [by eapply entity_arg_bound|by apply (attr_const_vars _ _ _ v) in Ha|].
  exfalso. destruct d as [w| |form]; [|done|done]. apply (Hdef E2 w). by eapply context_args_last.
Qed.

Lemma fn_result_no_test name args b f res t : fn_result ctx name args b f = Ok res -> res <> CallResult.Test t.
Proof.
  unfold fn_result. case_bool_decide.
  { intros (db & _ & H')%bind_ok. destruct args as [|[| |form] [|]]; try done. unfold ground_result in H'.
    destruct b, (as_seq form); try done; apply bind_ok in H' as (x & _ & [= <-]); done. }
  case_bool_decide.
  { intros ([db rest] & _ & H')%bind_ok. destruct rest as [|e [|a [|d [|]]]]; try done. apply bind_ok in H' as (? & _ & H'). apply bind_ok in H' as (? & _ & H').
    by apply bind_ok in H' as (? & _ & [= <-]). }
  intros (vs & _ & (r & _ & [= <-])%bind_ok)%bind_ok. by destruct r.
Qed.

(** What a result binds is one of its values. *)
Lemma binds_value b res g v : result_in res -> binds b res g -> In v (binding_vars b) -> exists x, om_get v g = Some x /\ U x.
Proof.
  assert (Hts : forall ts xs, Forall U xs -> Forall2 (target_at g) ts xs -> In v (flat_map target_vars ts) -> exists x, om_get v g = Some x /\ U x).
  { intros ts xs Hx Hf. induction Hf as [|t x ts xs Ht Hf IH]; [done|]. inversion_clear Hx. cbn. intros [Hv|Hv]%in_app_iff; [|by apply IH].
    destruct t; [|done]. destruct Hv as [<-|[]]. by exists x. }
  destruct b as [w|ts|t|ts], res as [|x|xs|rows]; try done; cbn [result_in binds binding_vars]; intros Hr Hb Hv.
  - destruct Hv as [<-|[]]. by exists x.
  - by eapply Hts.
  - destruct Hb as (x & Hx & Ht). destruct t as [w|]; [|done]. destruct Hv as [<-|[]]. rewrite List.Forall_forall in Hr. exists x. split; [done|by apply Hr].
  - destruct Hb as (row & Hx & Ht). rewrite List.Forall_forall in Hr. eapply Hts; [by apply Hr|done|done].
Qed.

(** One frame, whose arguments gave a result. *)
Lemma fn_frame name args b f res : plain_clause (Clause.Fn name args b) -> frame_ok U f -> fn_result ctx name args b f = Ok res ->
  yields (lift (bind_result f b res))
    (fun g => frame_ok U g /\ assignment (clause_vars (Clause.Fn name args b)) (fun D => holds ctx D (Clause.Fn name args b)) f (derives ctx) g)
    (fun h g => assignment (clause_vars (Clause.Fn name args b)) (fun D => holds ctx D (Clause.Fn name args b)) f (stage ctx h) g).
Proof.
  intros Hp Hf Hr st st' out Hs Hm. apply lift_ok in Hm as [Hm <-]. destruct Hp as [Hdef Hin] eqn:Ep. pose proof (Hin f res Hf Hr) as Hres.
  pose proof (fun v => fn_args_bound name args b f res v Hp Hr) as Hb.
  assert (Hiff : forall g, In g out <-> ext f g (binding_vars b) /\ binds b res g)
    by (intros g; apply bind_result_iff; [done|done|intros t; by eapply fn_result_no_test|done]).
  assert (Hvars : forall v, is_Some (om_get v f) \/ In v (clause_vars (Clause.Fn name args b)) <-> is_Some (om_get v f) \/ In v (binding_vars b)).
  { intros v. cbn [clause_vars]. rewrite !extend_In. cbn. naive_solver. }
  assert (Hext : forall g, ext f g (clause_vars (Clause.Fn name args b)) <-> ext f g (binding_vars b)).
  { intros g. split; intros [H1 H2 H3]; (split; [done|done|]); intros v; rewrite H3; [apply Hvars|symmetry; apply Hvars]. }
  assert (Hsame : forall g, frame_le f g -> fn_result ctx name args b g = Ok res).
  { intros g Hle. rewrite <- Hr. apply fn_result_agree. intros v Hv. destruct (Hb v Hv) as [x Hx]. rewrite Hx. by apply Hle. }
  split; [done|]. split.
  - intros g Hg. apply Hiff in Hg as [He Hbd]. split.
    + eapply ext_frame_ok; [exact Hf|exact He|]. intros v Hv. by eapply binds_value.
    + split; [by apply Hext|]. exists res. split; [apply Hsame, He|done].
  - intros Hfin. split; [done|]. exists (fun _ => True). split; [apply adm_true|]. intros h _ g [He%Hext (res' & Hr' & Hbd)].
    apply Hiff. split; [done|]. rewrite (Hsame g (ext_le _ _ _ He)) in Hr'. by injection Hr' as <-.
Qed.

Lemma fn_spec name args b : plain_clause (Clause.Fn name args b) ->
  spec (clause_vars (Clause.Fn name args b)) (fun D => holds ctx D (Clause.Fn name args b)) (eval_fn ctx name args b).
Proof.
  intros Hp frames Hfr. unfold eval_fn. pose proof (fun f => fn_frame name args b f) as Hone. unfold fn_result in Hone.
  repeat case_bool_decide; try done.
  - unfold eval_ground. apply run_lift. intros db Hdb. destruct args as [|[v| |form] [|]]; try (by apply run_pure). apply run_lift. intros res Hres.
    revert frames Hfr. apply spec_flat. intros f Hf. apply Hone; [done|done|]. by rewrite Hdb.
  - unfold eval_get_else. apply run_lift. intros [db rest] Hc. destruct rest as [|e [|a [|d [|]]]]; try (by apply run_pure). apply run_lift. intros attr Ha.
    revert frames Hfr. apply spec_flat. intros f Hf. apply run_lift. intros entity He. rewrite value_of_visible. apply run_lift. intros o [= <-]. apply run_lift.
    intros value Hv. apply Hone; [done|done|]. rewrite Hc. cbn [mbind result_bind]. rewrite Ha. cbn [mbind result_bind]. rewrite He. cbn [mbind result_bind].
    destruct (visible_values ctx db entity attr); cbn [head] in Hv; by rewrite Hv.
  - revert frames Hfr. apply spec_flat. intros f Hf. apply run_lift. intros vs Hvs. apply run_lift. intros res Hres. apply Hone; [done|done|].
    rewrite Hvs. cbn [mbind result_bind]. by rewrite Hres.
Qed.

Lemma args_at_iff f g args key_args tuple : try_map (rule_arg ctx f) args = Ok key_args -> frame_le f g ->
  Forall2 (arg_at ctx g) args tuple <-> fits_key key_args tuple /\ Forall2 (var_at g) args tuple.
Proof.
  intros Hk Hle. revert key_args tuple Hk. unfold fits_key. induction args as [|t args IH]; intros key_args tuple; cbn [try_map].
  { intros [= <-]. split; [inversion 1; by split; constructor|]. intros [H _]. inversion H. constructor. }
  intros (o & Ho & (os & Hos & [= <-])%bind_ok)%bind_ok. destruct tuple as [|x tuple]; [split; [inversion 1|intros [H _]; inversion H]|].
  rewrite !Forall2_cons, (IH os tuple Hos). assert (arg_at ctx g t x <-> (forall y, o = Some y -> x = y) /\ var_at g t x) as ->; [|tauto].
  destruct t as [v| |form]; cbn [rule_arg arg_at var_at] in *.
  - injection Ho as <-. split; [|by intros [_ ?]]. intros Hx. split; [|done]. intros y Hy. apply Hle in Hy. congruence.
  - injection Ho as <-. split; [|done]. intros _. split; [by intros y|done].
  - apply bind_ok in Ho as (c & Hc & [= <-]). destruct (default_db ctx ≫= _) as [c'|]; [|done]. injection Hc as ->.
    split; [intros [= ->]; split; [by intros y [= ->]|done]|]. intros [H _]. by rewrite (H c).
Qed.

Lemma rule_args_ok f args key_args : frame_ok U f -> (forall form x, In (Term.Const form) args -> (db ← default_db ctx; const_value db form) = Some x -> U x) ->
  try_map (rule_arg ctx f) args = Ok key_args -> forall x, In (Some x) key_args -> U x.
Proof.
  intros [_ Hf]. revert key_args. induction args as [|t args IH]; intros key_args Hc; cbn [try_map]; [by intros [= <-]|].
  intros (o & Ho & (os & Hos & [= <-])%bind_ok)%bind_ok x [->|Hx]; [|eapply IH; [intros form y Hin; apply Hc; by right|done|done]].
  destruct t as [v| |form]; cbn [rule_arg] in Ho; [by injection Ho as Ho; eapply Hf|done|].
  apply bind_ok in Ho as (c & Hc' & [= <-]). destruct (default_db ctx ≫= _) as [c'|] eqn:E; [|done]. injection Hc' as ->. eapply Hc; [by left|done].
Qed.

Section calls.
Context (rt : RuleKey -> list RuleKey -> exec (list (list Value))) (stack : list RuleKey).
Context (Hrt : forall key, key_ok key -> yields (rt key stack) (answer key) (fun h t => stage ctx h key.1 t /\ fits_key key.2 t)).

Lemma bind_args_iff f g args key_args tuple : frame_ok U f -> try_map (rule_arg ctx f) args = Ok key_args -> Forall U tuple -> fits_key key_args tuple ->
  bind_args f (combine args tuple) = Some g <-> ext f g (flat_map term_vars args) /\ Forall2 (arg_at ctx g) args tuple.
Proof.
  intros Hf Hk Ht Hfit. assert (Hl : length args = length tuple).
  { apply Forall2_length in Hfit. rewrite <- Hfit. clear -Hk. revert key_args Hk. induction args as [|t args IH]; intros key_args; cbn [try_map].
    - by intros [= <-].
    - intros (o & _ & (os & Hos & [= <-])%bind_ok)%bind_ok. cbn. f_equal. by apply IH. }
  rewrite bind_args_fields. split.
  - intros Hm. apply (match_fields_sound U []) in Hm as (_ & He & Hs); [|done|by intros v x|done|by apply arg_fields_ok].
    rewrite arg_fields_vars in He by done. split; [done|]. apply (args_at_iff f g args key_args); [done|apply He|]. split; [done|]. by apply arg_fields_sat.
  - intros [He Ha]. apply (match_fields_complete U []); [done|by intros v x|done|by apply arg_fields_ok|by rewrite arg_fields_vars|].
    apply arg_fields_sat; [done|]. by apply (args_at_iff f g args key_args) in Ha as [_ ?]; [|done|apply He].
Qed.

Lemma rule_call_spec name args : plain_clause (Clause.RuleCall name args) ->
  spec (clause_vars (Clause.RuleCall name args)) (fun D => holds ctx D (Clause.RuleCall name args)) (fun frames => eval_rule_call ctx rt name args frames stack).
Proof.
  intros Hp. apply spec_flat. intros f Hf. apply run_lift. intros key_args Hk.
  assert (Hv : forall v, In v (flat_map term_vars args) <-> In v (clause_vars (Clause.RuleCall name args))) by (intros v; symmetry; apply os_of_list_In).
  eapply run_bind; [apply (Hrt (name, key_args)); intros x; by eapply rule_args_ok|]. intros tuples Ht. apply run_ret.
  - intros g (tuple & Hin & Hg%In_option_list)%in_flat_map. destruct (Ht tuple Hin) as (Hd & Hfit & Hu).
    pose proof Hg as Hg'. apply (bind_args_iff f g args key_args) in Hg' as [He Ha]; [|done..].
    rewrite bind_args_fields in Hg. apply (match_fields_sound U []) in Hg as (Hok & _); [|done|by intros v x|done|by apply arg_fields_ok].
    split; [done|]. split; [by eapply ext_mono|]. by exists tuple.
  - intros h Hw g [He (tuple & Hd & Ha)]. pose proof Ha as Ha'. apply (args_at_iff f g args key_args) in Ha' as [Hfit _]; [|done|apply He].
    assert (Hin : In tuple tuples) by (by apply Hw). destruct (Ht tuple Hin) as (_ & _ & Hu).
    apply in_flat_map. exists tuple. split; [done|]. apply In_option_list, (bind_args_iff f g args key_args); [done..|].
    split; [|done]. eapply ext_mono; [|done]. intros v. by rewrite Hv.
Qed.

(** *** Conjunctions *)

Lemma assignment_cons c cs f D g :
  assignment (flat_map clause_vars (c :: cs)) (fun D => all_hold ctx D (c :: cs)) f D g <->
  exists g1, assignment (clause_vars c) (fun D => holds ctx D c) f D g1 /\ assignment (flat_map clause_vars cs) (fun D => all_hold ctx D cs) g1 D g.
Proof.
  assert (Hag : forall g1, ext f g1 (clause_vars c) -> frame_le g1 g -> agree_on (clause_vars c) g1 g).
  { intros g1 He Hle v Hv. destruct (proj2 (ext_dom _ _ _ He v) (or_intror Hv)) as [x Hx]. rewrite Hx. by apply Hle. }
  split.
  - intros [He Hall]. destruct (ext_split _ _ _ _ He) as (g1 & H1 & H2). exists g1. split; split; [done| |done|].
    + eapply holds_agree; [apply agree_sym, Hag; [done|apply H2]|]. apply Hall. by left.
    + intros c' Hc'. apply Hall. by right.
  - intros (g1 & [H1 Hc] & [H2 Hall]). split; [by eapply ext_trans|]. intros c' [<-|Hc']; [|by apply Hall].
    eapply holds_agree; [apply Hag; [done|apply H2]|done].
Qed.

Lemma run_ordered_spec ev cs order :
  (forall c, In c cs -> spec (clause_vars c) (fun D => holds ctx D c) (ev c)) -> Forall (fun i => i < length cs)%nat order ->
  spec (flat_map clause_vars (picked cs order)) (fun D => all_hold ctx D (picked cs order)) (run_ordered (map ev cs) order).
Proof.
  intros Hev Hord. induction Hord as [|i order Hi Hord IH]; intros frames Hfr.
  { apply run_ret.
    - intros g Hg. split; [by apply Hfr|]. exists g. split; [done|]. split; [|by intros c]. apply ext_refl; [by apply Hfr|done].
    - intros h g (f & Hf & He & _). assert (g = f) as -> by (eapply ext_same; [by apply Hfr| |done]; done). done. }
  destruct (lookup_lt_is_Some_2 cs i Hi) as [c Hc]. assert (Hin : In c cs) by (eapply list_elem_of_In, list_elem_of_lookup_2, Hc).
  assert (Hpick : picked cs (i :: order) = c :: picked cs order) by (unfold picked; cbn; by rewrite Hc). rewrite Hpick.
  cbn [run_ordered]. rewrite list_lookup_fmap, Hc. cbn [fmap option_fmap option_map]. eapply run_bind; [by apply Hev|]. intros frames1 Hq1.
  assert (Hok1 : forall f, In f (os_of_list frames1) -> frame_ok U f) by (intros f Hf; rewrite os_of_list_In in Hf; exact (proj1 (Hq1 f Hf))).
  assert (Hcons : forall D g, (forall y, (exists f, In f frames /\ assignment (clause_vars c) (fun D => holds ctx D c) f D y) -> In y frames1) ->
    (exists f, In f frames /\ assignment (flat_map clause_vars (c :: picked cs order)) (fun D => all_hold ctx D (c :: picked cs order)) f D g) ->
    exists g1, In g1 (os_of_list frames1) /\ assignment (flat_map clause_vars (picked cs order)) (fun D => all_hold ctx D (picked cs order)) g1 D g).
  { intros D g Hw (f & Hf & (g1 & Ha1 & Ha2)%assignment_cons). exists g1. split; [|done]. apply os_of_list_In, Hw. by exists f. }
  destruct (os_of_list frames1) as [|f1 fs] eqn:E.
  - apply run_ret; [done|]. intros h Hw g Hg. by destruct (Hcons _ g Hw Hg) as (g1 & [] & _).
  - eapply run_weaken; [by apply IH| |].
    + intros out Hout g Hg. destruct (Hout g Hg) as (Hok & g1 & Hg1 & Ha). split; [done|]. rewrite <- E, os_of_list_In in Hg1.
      destruct (Hq1 g1 Hg1) as (_ & f & Hf & Ha1). exists f. split; [done|]. apply assignment_cons. by exists g1.
    + intros h out _ Hout Hw g Hg. apply Hout. by apply Hcons.
Qed.

Lemma spec_mono vs vs' sem sem' ev frames : (forall v, In v vs <-> In v vs') -> (forall D g, sem D g <-> sem' D g) ->
  yields (ev frames) (fun g => frame_ok U g /\ exists f, In f frames /\ assignment vs sem f (derives ctx) g) (fun h g => exists f, In f frames /\ assignment vs sem f (stage ctx h) g) ->
  yields (ev frames) (fun g => frame_ok U g /\ exists f, In f frames /\ assignment vs' sem' f (derives ctx) g) (fun h g => exists f, In f frames /\ assignment vs' sem' f (stage ctx h) g).
Proof.
  intros Hv Hs H. assert (Ha : forall f D g, assignment vs sem f D g <-> assignment vs' sem' f D g).
  { intros f D g. unfold assignment. rewrite Hs. split; intros [He Hh]; (split; [|done]); eapply ext_mono; [|done| |done]; intros v; by rewrite Hv. }
  eapply run_weaken; [exact H| |].
  - intros out Hout g Hg. destruct (Hout g Hg) as (Hok & f & Hf & Hfg). split; [done|]. exists f. split; [done|]. by apply Ha.
  - intros h out _ Hout g (f & Hf & Hfg). apply Hout. exists f. split; [done|]. by apply Ha.
Qed.

(** Clauses in the order of the plan. *)
Definition planned (ev : Clause -> list Frame -> exec (list Frame)) (cs : list Clause) (frames : list Frame) : exec (list Frame) :=
  run_ordered (map ev cs) (order_clauses ctx cs (common_vars frames)) frames.

Lemma planned_spec ev cs : (forall c, In c cs -> spec (clause_vars c) (fun D => holds ctx D c) (ev c)) ->
  spec (clauses_vars cs) (fun D => all_hold ctx D cs) (planned ev cs).
Proof.
  intros Hev frames Hfr. unfold planned. pose proof (order_clauses_perm ctx cs (common_vars frames)) as Hp.
  pose proof (fun c => picked_all cs _ c Hp) as Hall.
  apply (spec_mono (flat_map clause_vars (picked cs (order_clauses ctx cs (common_vars frames)))) _
    (fun D => all_hold ctx D (picked cs (order_clauses ctx cs (common_vars frames)))) _ (run_ordered (map ev cs) (order_clauses ctx cs (common_vars frames)))).
  - intros v. rewrite in_flat_map, clauses_vars_In. by setoid_rewrite Hall.
  - intros D g. unfold all_hold. by setoid_rewrite Hall.
  - apply run_ordered_spec; [done| |done]. rewrite Hp. apply Forall_forall. intros i [_ Hi]%elem_of_seq. exact Hi.
Qed.

(** *** Disjunctions *)

Lemma merge_fields f res vs : merge_vars f res vs = match_fields (field_specs (omap (fun v => arg_field (Term.Var v) <$> om_get v res) vs)) f.
Proof.
  revert f. induction vs as [|v vs IH]; intros f; [done|]. cbn [merge_vars omap list_omap]. destruct (om_get v res) as [x|]; [|apply IH].
  cbn [fmap option_fmap option_map arg_field field_specs map match_fields fst snd]. rewrite bind_var_field.
  destruct (match_field (Free (Some v)) x f) as [f'|]; [apply IH|done].
Qed.

Lemma merge_vars_iff f res vs g : frame_ok U f -> frame_ok U res -> (forall v, In v vs -> is_Some (om_get v res)) ->
  merge_vars f res vs = Some g <-> ext f g vs /\ agree_on vs res g.
Proof.
  intros Hf [Hw Hres] Hb. rewrite merge_fields. set (fl := omap _ vs).
  assert (Hok : Forall (field_ok U []) fl).
  { apply Forall_forall. intros p (v & _ & Hv)%list_elem_of_omap. destruct (om_get v res) as [x|] eqn:E; [|done]. injection Hv as <-. split; [by eapply Hres|done]. }
  assert (Hvars : field_vars fl = vs).
  { unfold fl, field_vars. clear -Hb. induction vs as [|v vs IH]; [done|]. cbn [omap list_omap]. destruct (Hb v) as [x Hx]; [by left|]. rewrite Hx. cbn. f_equal.
    apply IH. intros w Hw. apply Hb. by right. }
  assert (Hsat : Forall (field_sat g) fl <-> agree_on vs res g).
  { rewrite Forall_forall. unfold fl, agree_on. setoid_rewrite list_elem_of_omap. split.
    - intros H v Hv. destruct (Hb v Hv) as [x Hx]. rewrite Hx. apply (H (arg_field (Term.Var v) x)). exists v. split; [by apply list_elem_of_In|by rewrite Hx].
    - intros H p (v & Hv & Hp). destruct (om_get v res) as [x|] eqn:E; [|done]. injection Hp as <-. cbn. rewrite <- E. apply H. by apply list_elem_of_In. }
  rewrite <- Hsat, <- Hvars at 1. split.
  - intros Hm. by apply (match_fields_sound U []) in Hm as (_ & He & Hs); [|done|by intros v x|done|].
  - intros [He Hs]. by apply (match_fields_complete U []); [|by intros v x| | | |].
Qed.

Lemma binds_bound b res g v : binds b res g -> In v (binding_vars b) -> is_Some (om_get v g).
Proof.
  assert (Hts : forall ts xs, Forall2 (target_at g) ts xs -> In v (flat_map target_vars ts) -> is_Some (om_get v g)).
  { intros ts xs Hf. induction Hf as [|t x ts xs Ht Hf IH]; [done|]. cbn. intros [Hv|Hv]%in_app_iff; [|by apply IH].
    destruct t; [|done]. destruct Hv as [<-|[]]. by exists x. }
  destruct b as [w|ts|t|ts], res as [|x|xs|rows]; try done; cbn [binds binding_vars]; intros Hb Hv.
  - destruct Hv as [<-|[]]. by exists x.
  - by eapply Hts.
  - destruct Hb as (x & Hx & Ht). destruct t as [w|]; [|done]. destruct Hv as [<-|[]]. by exists x.
  - destruct Hb as (row & Hx & Ht). by eapply Hts.
Qed.

Lemma holds_bound D c g v : plain_clause c -> holds ctx D c g -> In v (clause_vars c) -> is_Some (om_get v g).
Proof.
  revert g. induction c as [p|name args|name args b|s vars cs IH|s vars bs IH|name args] using clause_ind; intros g Hp Hh Hv; [| | |done| |].
  - cbn [clause_vars] in Hv. apply os_of_list_In, in_flat_map in Hv as (t & Ht & Hv).
    assert (t = Term.Var v) as -> by (destruct t; destruct Hv; subst; done).
    destruct Hh as (db & d & _ & _ & _ & F1 & F2 & F3 & F4 & F5). destruct Ht as [E|[E|[E|[E|[E|[]]]]]]; rewrite E in *; by eexists.
  - cbn [holds] in Hh. case_bool_decide as En.
    + subst name. destruct Hh as (db & e & a & attr & entity & H1 & H2 & H3 & _). by eapply missing_bound.
    + destruct Hh as (vs & Hvs & _). eapply call_args_bound; [done|]. by apply os_of_list_In.
  - destruct Hh as (res & Hr & Hb). cbn [clause_vars] in Hv. apply (proj1 (extend_In _ _ _)) in Hv as [Hv|Hv].
    + by eapply binds_bound.
    + apply (proj1 (extend_In _ _ _)) in Hv as [Hv|[]]. by eapply fn_args_bound.
  - destruct Hp as [Hp1 Hp2]. rewrite foldr_and in Hp2. setoid_rewrite foldr_and in Hp2. rewrite List.Forall_forall in IH.
    assert (Hb : forall b g, In b bs -> all_hold ctx D b g -> In v (clauses_vars b) -> is_Some (om_get v g)).
    { intros b g' Hb Hall (c & Hc & Hvc)%clauses_vars_In. specialize (IH b Hb). rewrite List.Forall_forall in IH.
      apply (IH c Hc); [by apply (Hp2 b)|by apply Hall|done]. }
    destruct vars as [vars|].
    + apply holds_or_join in Hh as (b & g' & Hin & _ & Hag & Hall). destruct (proj1 (extend_In _ _ _) Hv) as [Hv'|[]]. rewrite <- Hag by done.
      by apply (Hb b g'); [| |apply Hp1].
    + apply holds_or in Hh as (b & Hin & Hall). apply (Hb b); [done|done|]. apply or_vars_In in Hv as (b' & Hb' & Hv').
      by rewrite (branches_agree_vars None bs b Hp1 Hin b' Hb').
  - destruct Hh as (t & _ & Hargs). destruct (proj1 (extend_In _ _ _) Hv) as [Hv'|[]]. clear -Hargs Hv'.
    induction Hargs as [|a x args t Ha _ IH]; [done|]. cbn in Hv'. apply in_app_iff in Hv' as [Hv'|Hv']; [|by apply IH].
    destruct a; [|done|done]. destruct Hv' as [->|[]]. by eexists.
Qed.

Lemma fst_bound (g : Frame) v : om_wf g -> In v (map fst g) <-> is_Some (om_get v g).
Proof.
  intros Hw. rewrite in_map_iff. split.
  - intros ([w x] & <- & Hin). exists x. by apply om_In_get.
  - intros [x Hx]. exists (v, x). split; [done|]. by apply om_get_In.
Qed.

Lemma restrict_get f vs v : om_get v (restrict f vs) = if among vs v then om_get v f else None.
Proof.
  unfold restrict. assert (forall out, om_get v (fold_left (fun out var => match om_get var f with Some value => om_insert var value out | None => out end) vs out) =
    if among vs v then match om_get v f with Some x => Some x | None => om_get v out end else om_get v out) as ->.
  { induction vs as [|w vs IH]; intros out; [done|]. cbn [fold_left]. rewrite IH.
    change (among (w :: vs) v) with (bool_decide (w = v) || among vs v).
    destruct (decide (w = v)) as [->|Hne].
    - rewrite bool_decide_true by done. cbn [orb]. destruct (om_get v f) as [x|]; [rewrite om_get_insert_eq|]; by destruct (among vs v).
    - rewrite bool_decide_false by done. cbn [orb]. destruct (om_get w f); [rewrite om_get_insert_ne by done|]; done. }
  cbn. by destruct (among vs v), (om_get v f).
Qed.

Lemma restrict_ok f vs : frame_ok U f -> frame_ok U (restrict f vs).
Proof.
  intros [_ Hf]. split.
  - unfold restrict. assert (H : om_wf (K:=string) (V:=Value) []) by apply om_wf_nil. revert H. generalize (@nil (string * Value)).
    induction vs as [|w vs IH]; intros out H; [done|]. cbn [fold_left]. apply IH. destruct (om_get w f); [by apply om_insert_wf|done].
  - intros v x. rewrite restrict_get. destruct (among vs v); [apply Hf|done].
Qed.

Lemma or_branch_spec ev b f vs : spec (clauses_vars b) (fun D => all_hold ctx D b) (planned ev b) -> frame_ok U f -> (forall v, In v (clauses_vars b) <-> In v vs) ->
  yields (results ← planned ev b [f]; mret (flat_map (fun res => option_list (merge_vars f res (map fst res))) results))
    (fun g => frame_ok U g /\ assignment vs (fun D => all_hold ctx D b) f (derives ctx) g) (fun h g => assignment vs (fun D => all_hold ctx D b) f (stage ctx h) g).
Proof.
  intros Hb Hf Hvs. eapply run_bind; [apply Hb; by intros f' [<-|[]]|]. intros results Hq.
  assert (Hm : forall res, frame_ok U res -> ext f res (clauses_vars b) -> merge_vars f res (map fst res) = Some res).
  { intros res Hok He. apply merge_vars_iff; [done|done|intros v; by rewrite fst_bound by apply Hok|]. split; [|done].
    split; [apply Hok|apply He|]. intros v. rewrite fst_bound by apply Hok. rewrite (ext_dom _ _ _ He). tauto. }
  apply run_ret.
  - intros g (res & Hres & Hg%In_option_list)%in_flat_map. destruct (Hq res Hres) as (Hok & f' & [<-|[]] & He & Hall).
    rewrite (Hm res Hok He) in Hg. injection Hg as <-. split; [done|]. split; [by eapply ext_mono|done].
  - intros h Hw g [He Hall]. assert (He' : ext f g (clauses_vars b)) by (eapply ext_mono; [|done]; intros v; by rewrite Hvs).
    assert (Hin : In g results). { apply Hw. exists f. split; [by left|]. done. }
    apply in_flat_map. exists g. split; [done|]. apply In_option_list. destruct (Hq g Hin) as [Hok _]. by apply Hm.
Qed.

(** The part of an assignment that the evaluation of clauses from a frame looks at. *)
Definition looked_at (f g : Frame) (vs : list string) : Frame := part g (fun v => is_some (om_get v f) || among vs v).

Lemma looked_at_ext D cs f g : om_wf g -> frame_le f g -> all_hold ctx D cs g -> (forall c, In c cs -> plain_clause c) ->
  ext f (looked_at f g (clauses_vars cs)) (clauses_vars cs).
Proof.
  intros Hw Hle Hall Hpl. unfold looked_at. split; [by apply om_filter_wf| |].
  - intros v x Hx. rewrite part_get by done. rewrite Hx. cbn. by apply Hle.
  - intros v. rewrite part_get by done. rewrite <- among_In, <- (is_some_iff (om_get v f)). split.
    + intros [x Hx]. destruct (is_some (om_get v f)) eqn:E1; [by left|]. destruct (among (clauses_vars cs) v) eqn:E2; [by right|done].
    + intros H. assert (is_some (om_get v f) || among (clauses_vars cs) v = true) as -> by (destruct H as [-> | ->]; [done|apply orb_true_r]).
      destruct H as [[x Hx]%is_some_iff|(c & Hc & Hv)%among_In%clauses_vars_In]; [exists x; by apply Hle|].
      eapply holds_bound; [by apply Hpl|by apply Hall|done].
Qed.

Lemma looked_at_get f g vs v : om_wf g -> In v vs -> om_get v (looked_at f g vs) = om_get v g.
Proof. intros Hw Hv. unfold looked_at. rewrite part_get by done. by rewrite (proj2 (among_In _ _) Hv), orb_true_r. Qed.

Lemma looked_at_le f g vs : om_wf g -> frame_le (looked_at f g vs) g.
Proof. intros Hw v x. unfold looked_at. rewrite part_get by done. by destruct (_ || _). Qed.

Lemma looked_at_hold D cs f g : om_wf g -> all_hold ctx D cs g -> all_hold ctx D cs (looked_at f g (clauses_vars cs)).
Proof.
  intros Hw Hall c Hc. eapply holds_agree; [|by apply Hall]. intros v Hv. apply looked_at_get; [done|]. apply clauses_vars_In. by exists c.
Qed.

Lemma join_branch_spec ev b f vars : spec (clauses_vars b) (fun D => all_hold ctx D b) (planned ev b) -> frame_ok U f ->
  (forall v, In v vars -> In v (clauses_vars b)) -> (forall c, In c b -> plain_clause c) ->
  yields (results ← planned ev b [restrict f vars]; mret (flat_map (fun res => option_list (merge_vars f res vars)) results))
    (fun g => frame_ok U g /\ assignment vars (fun D g => exists g', om_wf g' /\ agree_on vars g g' /\ all_hold ctx D b g') f (derives ctx) g)
    (fun h g => assignment vars (fun D g => exists g', om_wf g' /\ agree_on vars g g' /\ all_hold ctx D b g') f (stage ctx h) g).
Proof.
  intros Hb Hf Hvs Hpl. pose proof (restrict_ok f vars Hf) as Hr. eapply run_bind; [apply Hb; by intros f' [<-|[]]|]. intros results Hq.
  assert (Hm : forall res g, frame_ok U res -> ext (restrict f vars) res (clauses_vars b) -> merge_vars f res vars = Some g <-> ext f g vars /\ agree_on vars res g).
  { intros res g Hok He. apply merge_vars_iff; [done|done|]. intros v Hv. apply (ext_dom _ _ _ He). right. by apply Hvs. }
  apply run_ret.
  - intros g (res & Hres & Hg%In_option_list)%in_flat_map. destruct (Hq res Hres) as (Hok & f' & [<-|[]] & He & Hall).
    apply Hm in Hg as [Heg Hag]; [|done|done]. split.
    + eapply (ext_frame_ok f); [done|done|]. intros v Hv. destruct (proj2 (ext_dom _ _ _ He v)) as [x Hx]; [right; by apply Hvs|].
      exists x. rewrite (Hag v Hv). split; [done|]. by eapply Hok.
    + split; [done|]. exists res. split; [apply Hok|]. split; [by apply agree_sym|done].
  - intros h Hw g [He (g' & Hw' & Hag & Hall)].
    assert (Hle : frame_le (restrict f vars) g').
    { intros v x. rewrite restrict_get. destruct (among vars v) eqn:E; [|done]. intros Hx. rewrite (Hag v) by (by apply among_In). by apply (ext_le _ _ _ He). }
    pose proof (looked_at_ext _ b _ _ Hw' Hle Hall Hpl) as Her. set (res := looked_at (restrict f vars) g' (clauses_vars b)) in *.
    assert (Hin : In res results). { apply Hw. exists (restrict f vars). split; [by left|]. split; [done|]. by apply looked_at_hold. }
    apply in_flat_map. exists res. split; [done|]. apply In_option_list. destruct (Hq res Hin) as [Hok _]. apply Hm; [done|done|]. split; [done|].
    intros v Hv. unfold res. rewrite looked_at_get by (first [done|by apply Hvs]). symmetry. by apply Hag.
Qed.

Lemma any_branch vs (sem : list Clause -> (string -> list Value -> Prop) -> Frame -> Prop) sem' br bs :
  (forall D g, sem' D g <-> exists b, In b bs /\ sem b D g) ->
  (forall f b, frame_ok U f -> In b bs -> yields (br f b) (fun g => frame_ok U g /\ assignment vs (sem b) f (derives ctx) g) (fun h g => assignment vs (sem b) f (stage ctx h) g)) ->
  spec vs sem' (flat_exec (fun f => flat_exec (br f) bs)).
Proof.
  intros Hsem Hbr. apply spec_flat. intros f Hf. eapply run_weaken; [apply yields_flat; intros b Hb; by apply Hbr| |].
  - intros out Hout g Hg. destruct (Hout g Hg) as (b & Hb & Hok & He & Hh). split; [done|]. split; [done|]. apply Hsem. by exists b.
  - intros h out _ Hout g [He (b & Hb & Hh)%Hsem]. apply Hout. exists b. done.
Qed.

Lemma eval_clause_spec c : plain_clause c -> spec (clause_vars c) (fun D => holds ctx D c) (eval_clause ctx rt c stack).
Proof.
  induction c as [p|name args|name args b|s vars cs IH|s vars bs IH|name args] using clause_ind; intros Hp; [by apply pattern_spec| |by apply fn_spec|done| |by apply rule_call_spec].
  { destruct (decide (name = "missing?")) as [->|Hname]; [apply missing_spec|by apply pred_spec]. }
  destruct Hp as [Hp1 Hp2]. rewrite foldr_and in Hp2. setoid_rewrite foldr_and in Hp2. rewrite List.Forall_forall in IH.
  assert (Hb : forall b, In b bs -> spec (clauses_vars b) (fun D => all_hold ctx D b) (planned (fun c => eval_clause ctx rt c stack) b)).
  { intros b Hb. apply planned_spec. intros c Hc. specialize (IH b Hb). rewrite List.Forall_forall in IH. apply IH; [done|by apply (Hp2 b)]. }
  destruct vars as [vars|].
  - assert (Hv : forall v, In v vars <-> In v (clause_vars (Clause.Or s (Some vars) bs))) by (intros v; symmetry; apply os_of_list_In).
    intros frames Hfr. apply (spec_mono vars _ (fun D => holds ctx D (Clause.Or s (Some vars) bs)) _ (eval_clause ctx rt (Clause.Or s (Some vars) bs) stack)); [done|done|].
    revert frames Hfr. change (spec vars (fun D => holds ctx D (Clause.Or s (Some vars) bs)) (flat_exec (fun f => flat_exec (fun b =>
      results ← planned (fun c => eval_clause ctx rt c stack) b [restrict f vars]; mret (flat_map (fun res => option_list (merge_vars f res vars)) results)) bs))).
    apply (any_branch vars (fun b D g => exists g', om_wf g' /\ agree_on vars g g' /\ all_hold ctx D b g')).
    + intros D g. rewrite holds_or_join. naive_solver.
    + intros f b Hf Hin. apply join_branch_spec; [by apply Hb|done|intros v; by apply Hp1|by apply Hp2].
  - change (spec (clause_vars (Clause.Or s None bs)) (fun D => holds ctx D (Clause.Or s None bs)) (flat_exec (fun f => flat_exec (fun b =>
      results ← planned (fun c => eval_clause ctx rt c stack) b [f]; mret (flat_map (fun res => option_list (merge_vars f res (map fst res))) results)) bs))).
    apply (any_branch _ (fun b D => all_hold ctx D b)).
    + intros D g. apply holds_or.
    + intros f b Hf Hin. apply or_branch_spec; [by apply Hb|done|]. intros v. rewrite or_vars_In. split; [by exists b|].
      intros (b' & Hb' & Hv). by rewrite (branches_agree_vars None bs b Hp1 Hin b' Hb').
Qed.

Lemma eval_clauses_spec cs : (forall c, In c cs -> plain_clause c) ->
  spec (clauses_vars cs) (fun D => all_hold ctx D cs) (fun frames => eval_clauses ctx rt cs frames stack).
Proof.
  intros Hp. change (spec (clauses_vars cs) (fun D => all_hold ctx D cs) (planned (fun c => eval_clause ctx rt c stack) cs)).
  apply planned_spec. intros c Hc. by apply eval_clause_spec, Hp. Qed.
End calls.
End run.
End rules.
