(* ===== verification/QueryFixpoint.v ===== *)
(** * Rules and queries

    The tables of the rules when a round changes nothing, and what a query then gives. *)

From stdpp Require Import base list strings sorting.
From Stdlib Require Import ZArith Lia.
From S2P Require Import Prelude OrdMap Machine Ids Keyword Values Encoding Datoms Schema Bootstrap SchemaDatoms Crypt.
From S2P Require Import Db DbFacts DbReads Protect Edn QueryAst Builtins QueryExec QueryFacts QueryMeaning QueryRules.
Local Open Scope Z_scope.

(** ** Tables and heads *)

Lemma add_tuple_tables key t st st' u : add_tuple key t st = Some (st', Ok u) ->
  (forall k x, In x (table st' k) <-> In x (table st k) \/ (k = key /\ x = t)) /\ x_changed st' = x_changed st || negb (os_mem t (table st key)).
Proof.
  intros [= <- <-]. split; [|done]. intros k x. unfold table at 1. cbn [x_partial]. destruct (decide (k = key)) as [->|Hne].
  - rewrite om_get_insert_eq. cbn [unwrap_or]. rewrite os_In_insert. naive_solver.
  - rewrite om_get_insert_ne by done. unfold table. naive_solver.
Qed.

Lemma in_stack_In key stack : in_stack key stack = true <-> In key stack.
Proof. unfold in_stack. rewrite existsb_exists. setoid_rewrite bool_decide_eq_true. naive_solver. Qed.

Lemma head_tuple_lookup head g t i v : head_tuple head g = Ok t -> head !! i = Some v -> exists x, t !! i = Some x /\ om_get v g = Some x.
Proof.
  unfold head_tuple. revert t i. induction head as [|w head IH]; intros t i; [done|]. cbn [try_map].
  intros (x & Hx & (xs & Hxs & [= <-])%bind_ok)%bind_ok. destruct i as [|i]; cbn; [|by apply IH].
  intros [= <-]. exists x. split; [done|]. by destruct (om_get w g); [injection Hx as ->|].
Qed.

Lemma head_tuple_length head g t : head_tuple head g = Ok t -> length t = length head.
Proof.
  unfold head_tuple. revert t. induction head as [|w head IH]; intros t; cbn [try_map]; [by intros [= <-]|].
  intros (x & Hx & (xs & Hxs & [= <-])%bind_ok)%bind_ok. cbn. f_equal. by apply IH.
Qed.

Lemma head_tuple_le head g h t : frame_le g h -> head_tuple head g = Ok t -> head_tuple head h = Ok t.
Proof.
  unfold head_tuple. intros Hle. revert t. induction head as [|w head IH]; intros t; cbn [try_map]; [done|].
  intros (x & Hx & (xs & Hxs & [= <-])%bind_ok)%bind_ok. destruct (om_get w g) as [y|] eqn:E; [|done]. injection Hx as ->.
  rewrite (Hle w x E). cbn. by rewrite (IH xs Hxs).
Qed.

Lemma head_tuple_values (P : Value -> Prop) head g t : (forall v x, om_get v g = Some x -> P x) -> head_tuple head g = Ok t -> Forall P t.
Proof.
  intros Hg. unfold head_tuple. revert t. induction head as [|w head IH]; intros t; cbn [try_map]; [by intros [= <-]|].
  intros (x & Hx & (xs & Hxs & [= <-])%bind_ok)%bind_ok. destruct (om_get w g) as [y|] eqn:E; [|done]. injection Hx as ->.
  constructor; [by eapply Hg|by apply IH].
Qed.

(** The frame in which the body of a rule starts has the arguments that the call fixes. *)
Lemma rule_seed_get head args v x : NoDup head -> om_get v (rule_seed head args) = Some x <-> exists i, head !! i = Some v /\ args !! i = Some (Some x).
Proof.
  intros Hnd. unfold rule_seed.
  assert (forall out, (forall w, In w head -> om_get w out = None) ->
    om_get v (fold_left (fun seed p => match p.2 with Some value => om_insert p.1 value seed | None => seed end) (combine head args) out) = Some x <->
    om_get v out = Some x \/ exists i, head !! i = Some v /\ args !! i = Some (Some x)) as ->; [|cbn; naive_solver|done].
  revert args. induction Hnd as [|w head Hw Hnd IH]; intros args out Hout; [cbn; naive_solver|].
  destruct args as [|o args]; [cbn; split; [by left|]; intros [H|(i & _ & H)]; [done|by destruct i]|].
  cbn [combine fold_left fst snd]. rewrite IH.
  2:{ intros w' Hw'. destruct o; [|by apply Hout; right]. rewrite om_get_insert_ne; [by apply Hout; right|]. intros ->. by apply Hw, list_elem_of_In. }
  assert ((exists i, (w :: head) !! i = Some v /\ (o :: args) !! i = Some (Some x)) <->
    (w = v /\ o = Some x) \/ exists i, head !! i = Some v /\ args !! i = Some (Some x)) as ->.
  { split; [intros ([|i] & H1 & H2); cbn in *; [left; naive_solver|right; eauto]|]. intros [[-> ->]|(i & H)]; [by exists 0%nat|by exists (S i)]. }
  pose proof (Hout w (or_introl eq_refl)) as Hno. destruct o as [y|]; [|naive_solver]. destruct (decide (v = w)) as [->|Hne].
  - rewrite om_get_insert_eq. naive_solver.
  - rewrite om_get_insert_ne by done. naive_solver.
Qed.

Section fixpoint.
Context {R : Rpds} {HR : RpdsLaws R} `{C : Crypto} {UC : UnicodeCase} (ctx : ExecCtx) (U : Value -> Prop).

(** Heads name each argument once, and bodies have no functions and no negation. *)
Definition plain_rules : Prop := forall name defs def, om_get name (rules ctx) = Some defs -> In def defs ->
  NoDup (head_vars def) /\ forall c, In c (rd_clauses def) -> plain_clause ctx U c.

(** ** Rule bodies *)

Context (Hap : apart U) (Hn : rc_hydrator (ctx_read ctx) = None).
Context (Hdbs : forall s db, ctx_db ctx s = Some db -> db_ok db /\ forall d, In d (datoms db) -> settled U db d).
Context (Hrules : plain_rules).

Lemma seed_ok key head : NoDup head -> key_ok U key -> frame_ok U (rule_seed head key.2).
Proof.
  intros Hnd Hk. split.
  - unfold rule_seed. assert (H : om_wf (K:=string) (V:=Value) []) by apply om_wf_nil. revert H. generalize (@nil (string * Value)).
    induction (combine head key.2) as [|[w o] l IH]; intros out H; [done|]. cbn [fold_left]. apply IH. destruct o; [by apply om_insert_wf|done].
  - intros v x Hx. apply rule_seed_get in Hx as (i & _ & Hi); [|done]. apply Hk. eapply list_elem_of_In, list_elem_of_lookup_2, Hi.
Qed.

(** A tuple of the head fits the call if and only if it agrees with the start of the body. *)
Lemma seed_fits (key : RuleKey) head g t : NoDup head -> length head = length key.2 -> head_tuple head g = Ok t ->
  fits_key key.2 t <-> frame_le (rule_seed head key.2) g.
Proof.
  intros Hnd Hl Ht. unfold fits_key. rewrite Forall2_same_length_lookup, (head_tuple_length _ _ _ Ht). split.
  - intros [_ H] v x Hx. apply rule_seed_get in Hx as (i & Hi & Hk); [|done]. destruct (head_tuple_lookup _ _ _ _ _ Ht Hi) as (y & Hy & Hg).
    by rewrite (H i (Some x) y Hk Hy x eq_refl) in Hg.
  - intros Hle. split; [done|]. intros i o x Ho Hx y ->. destruct (lookup_lt_is_Some_2 head i) as [v Hv].
    { rewrite Hl. by eapply lookup_lt_Some. }
    destruct (head_tuple_lookup _ _ _ _ _ Ht Hv) as (x' & Hx' & Hg). assert (Hs : om_get v (rule_seed head key.2) = Some y) by (apply rule_seed_get; eauto).
    apply Hle in Hs. congruence.
Qed.

(** The tables of [V] have all that follows by [h] rounds. *)
Definition complete (T : RuleKey -> list (list Value)) (V : list RuleKey) (h : nat) : Prop :=
  forall key t, In key V -> stage ctx h key.1 t -> fits_key key.2 t -> In t (T key).

Section bodies.
Context (fin : ExecState -> Prop) (adm : (nat -> Prop) -> Prop) {HG : Guards fin adm} (T : RuleKey -> list (list Value)).

Lemma each_run {A} (f : A -> exec unit) l (W : A -> nat -> Prop) :
  (forall x, In x l -> run ctx U fin adm (f x) (fun _ => True) (fun h _ => W x h)) ->
  run ctx U fin adm (each (map f l)) (fun _ => True) (fun h _ => forall x, In x l -> W x h).
Proof.
  induction l as [|x l IH]; intros H; cbn [map each]; [by apply run_ret; [done|done|]|].
  eapply run_bind; [done|apply H; by left|]. intros u _. eapply run_weaken; [apply IH; intros y Hy; apply H; by right|done|].
  intros h u' _ Hw Hx y [<-|Hy]; [done|by apply Hw].
Qed.

Lemma eval_def_run rt stack key defs def :
  (forall k, key_ok U k -> yields ctx U fin adm (rt k stack) (answer ctx U k) (fun h t => stage ctx h k.1 t /\ fits_key k.2 t)) ->
  (forall def t, In def defs -> length (head_vars def) = length key.2 -> answer ctx U key t ->
    run ctx U fin adm (add_tuple key t) (fun _ => True) (fun _ _ => In t (T key))) ->
  key_ok U key -> om_get key.1 (rules ctx) = Some defs -> In def defs ->
  run ctx U fin adm (eval_def ctx rt key stack def) (fun _ => True)
    (fun h _ => forall g t, om_wf g -> head_tuple (head_vars def) g = Ok t -> all_hold ctx (stage ctx h) (rd_clauses def) g -> fits_key key.2 t -> In t (T key)).
Proof.
  intros Hrt Hadd Hk Hdefs Hdef. destruct (Hrules _ _ _ Hdefs Hdef) as [Hnd Hplain]. unfold eval_def. set (head := head_vars def) in *.
  destruct (Nat.eqb_spec (length head) (length key.2)) as [Hl|_]; cbn [negb]; [|by apply run_pure; [done|]].
  destruct (negb (forallb _ _)); [by apply run_pure; [done|]|].
  eapply run_bind; [done|eapply (eval_clauses_spec ctx U fin adm); [done..|]|].
  { intros f [<-|[]]. by apply seed_ok. }
  intros frames Hq. eapply run_weaken; [eapply (each_run _ _ (fun f h => exists t, head_tuple head f = Ok t /\ In t (T key)))|done|].
  - intros f Hf. apply run_lift. intros t Ht. destruct (Hq f Hf) as (Hok & seed & [<-|[]] & He & Hall).
    eapply run_weaken; [apply (Hadd def t Hdef Hl)|done|by eauto]. split_and!.
    + destruct (all_hold_finite ctx _ _ Hall) as [h Hh]. exists (S h), defs, def, f. split_and!; [done|done|apply Hok|done|done].
    + apply (seed_fits key head f); [done|done|done|]. apply He.
    + eapply head_tuple_values; [|done]. apply Hok.
  - intros h u _ Hw Hev g t Hg Ht Hall Hfit. apply (seed_fits key head g) in Hfit; [|done..].
    set (g' := looked_at (rule_seed head key.2) g (clauses_vars (rd_clauses def))).
    assert (Hin : In g' frames).
    { apply Hev. exists (rule_seed head key.2). split; [by left|]. split; [by eapply looked_at_ext|by apply looked_at_hold]. }
    destruct (Hw g' Hin) as (t' & Ht' & Hint). apply (head_tuple_le _ _ g) in Ht'; [|by apply looked_at_le]. congruence.
Qed.

Lemma defs_run rt stack key defs :
  (forall k, key_ok U k -> yields ctx U fin adm (rt k stack) (answer ctx U k) (fun h t => stage ctx h k.1 t /\ fits_key k.2 t)) ->
  (forall def t, In def defs -> length (head_vars def) = length key.2 -> answer ctx U key t ->
    run ctx U fin adm (add_tuple key t) (fun _ => True) (fun _ _ => In t (T key))) ->
  key_ok U key -> om_get key.1 (rules ctx) = Some defs ->
  run ctx U fin adm (each (map (eval_def ctx rt key stack) defs)) (fun _ => True) (fun h _ => complete T [key] (S h)).
Proof.
  intros Hrt Hadd Hk Hdefs. eapply run_weaken; [eapply each_run; intros def Hdef; by eapply eval_def_run|done|].
  intros h u _ Hw k t [<-|[]] (defs' & def & g & Hdefs' & Hdef & Hg & Ht & Hall) Hfit. rewrite Hdefs in Hdefs'. injection Hdefs' as <-.
  by eapply Hw.
Qed.

End bodies.

(** ** Inside a round *)

Section round.
(** The tables at the end of the round. *)
Context (T : RuleKey -> list (list Value)).

(** Nothing was added: the tables are those of the end. *)
Definition settled_at (st : ExecState) : Prop := x_changed st = false /\ forall key t, In t (table st key) <-> In t (T key).

Definition closed (V : list RuleKey) (key : RuleKey) : Prop := forall h, complete T V h -> complete T [key] (S h).

(** What was read: tables of calls under way, and tables that grow with what was read. *)
Definition read_from (stack : list RuleKey) (P : nat -> Prop) : Prop :=
  exists V, (forall key, In key V -> In key stack \/ closed V key) /\ forall h, complete T V h -> P h.

Lemma complete_app V W h : complete T (V ++ W) h <-> complete T V h /\ complete T W h.
Proof. unfold complete. setoid_rewrite in_app_iff. naive_solver. Qed.

Lemma complete_sub V W h : (forall k, In k V -> In k W) -> complete T W h -> complete T V h.
Proof. intros H HW k t Hk. by apply HW, H. Qed.

#[export] Instance round_guards stack : Guards settled_at (read_from stack).
Proof.
  split.
  - intros st st' Hs [Hc Ht]. split; [by rewrite <- (proj2 Hs)|]. intros k t. by rewrite <- Ht, (same_table _ _ _ Hs).
  - by exists [].
  - intros P Q (V & HV & HP) (W & HW & HQ). exists (V ++ W). split.
    + intros key [Hk|Hk]%in_app_iff; [destruct (HV key Hk) as [|Hc]|destruct (HW key Hk) as [|Hc]]; try (by left);
        right; intros h Hcomp; apply complete_app in Hcomp as [H1 H2]; by apply Hc.
    + intros h [H1 H2]%complete_app. split; [by apply HP|by apply HQ].
Qed.

(** A call that is not under way, with all that its body read. *)
Lemma close_key stack key P : read_from (stack ++ [key]) P -> (forall h, P h -> complete T [key] (S h)) ->
  exists V, In key V /\ forall k, In k V -> In k stack \/ closed V k.
Proof.
  intros (V & HV & HP) Hkey. exists (key :: V). split; [by left|].
  assert (Hsub : forall h, complete T (key :: V) h -> complete T V h) by (intros h; apply complete_sub; by right).
  assert (Hclosed : closed (key :: V) key) by (intros h Hc; by apply Hkey, HP, Hsub).
  intros k [<-|Hk]; [by right|]. destruct (HV k Hk) as [[Hs|[<-|[]]]%in_app_iff|Hc]; [by left|by right|]. right. intros h Hcomp. by apply Hc, Hsub.
Qed.

Lemma add_tuple_run stack key t : answer ctx U key t ->
  run ctx U settled_at (read_from stack) (add_tuple key t) (fun _ => True) (fun _ _ => In t (T key)).
Proof.
  intros Ha st st' u Hs [Htab Hch]%add_tuple_tables.
  split; [intros k x [Hx|[-> ->]]%Htab; [by apply Hs|done]|]. split; [done|]. intros [Hc Ht]. rewrite Hch in Hc.
  apply orb_false_iff in Hc as [Hc Hm]. apply negb_false_iff, os_mem_In in Hm. split.
  - split; [done|]. intros k x. rewrite <- Ht, Htab. split; [by left|]. by intros [?|[-> ->]].
  - exists (fun _ => True). split; [by exists []|]. intros h _. apply Ht, Htab. by right.
Qed.

(** A call from a rule body reads a table that is as complete T as what was read for it. *)
Lemma nested_rule n key stack : stack <> [] -> key_ok U key ->
  yields ctx U settled_at (read_from stack) (rule_tuples ctx n key stack) (answer ctx U key) (fun h t => stage ctx h key.1 t /\ fits_key key.2 t).
Proof.
  revert key stack. induction n as [|n IH]; intros key stack Hst Hk; [done|]. intros st st' out Hs Hm.
  assert (Hm' : exists st1, eval_rule_once ctx (rule_tuples ctx n) key stack st = Some (st1, Ok tt) /\ read_table key st1 = Some (st', Ok out)).
  { cbn [rule_tuples] in Hm. destruct stack as [|k0 stack]; [done|]. apply exec_bind_ok in Hm as (st1 & [] & H1 & H2). eauto. }
  destruct Hm' as (st1 & H1 & [= -> <-]). unfold eval_rule_once in H1. destruct (in_stack key stack) eqn:Ein.
  - injection H1 as ->. split; [done|]. split; [by intros t; apply Hs|]. intros [Hc Ht]. split; [done|]. exists (complete T [key]). split.
    + exists [key]. split; [|done]. intros k [<-|[]]. left. by apply in_stack_In.
    + intros h Hcomp t [Hd Hfit]. apply Ht. apply Hcomp; [by left|done|done].
  - apply exec_bind_ok in H1 as (st0 & defs & [Hdefs ->]%lift_ok & H1). destruct (om_get key.1 (rules ctx)) as [defs'|] eqn:Eo; [|done]. injection Hdefs as ->.
    destruct (defs_run settled_at (read_from (stack ++ [key])) T (rule_tuples ctx n) (stack ++ [key]) key defs) with st st' tt as (Hs' & _ & Hfin);
      [|intros def t _ _; by apply add_tuple_run|done|done|done|done|].
    { intros k Hk'. apply IH; [by destruct stack|done]. }
    split; [done|]. split; [by intros t; apply Hs'|]. intros Hf. destruct (Hfin Hf) as (Hf' & P & Had & HP). split; [done|].
    destruct (close_key stack key P Had HP) as (V & HkV & HV). exists (complete T V). split; [by exists V|].
    intros h Hcomp t [Hd Hfit]. destruct Hf as [_ Ht]. apply Ht. by apply Hcomp.
Qed.
End round.

(** ** A whole query *)

(** Rounds end after one that changed nothing. *)
Lemma rounds_end n once st st' : (forall st st', tables_sound ctx U st -> once st = Some (st', Ok tt) -> tables_sound ctx U st') ->
  tables_sound ctx U st -> rounds n once st = Some (st', Ok tt) ->
  exists st1, tables_sound ctx U st1 /\ once st1 = Some (st', Ok tt) /\ x_changed st' = false.
Proof.
  intros Hpres. revert st. induction n as [|n IH]; intros st Hs; [done|]. cbn [rounds].
  intros (st1 & u & [= <- <-] & (st2 & u2 & H2 & (st3 & b & [= <- <-] & H)%exec_bind_ok)%exec_bind_ok)%exec_bind_ok. destruct u2.
  set (st1 := mk_exec _ _ _ false) in H2. assert (Hs1 : tables_sound ctx U st1) by exact Hs.
  destruct (x_changed st2) eqn:Ec.
  - apply exec_bind_ok in H as (st4 & u4 & H4 & H). apply spend_ok in H4. apply (IH st4); [|done]. eapply same_sound; [done|]. by eapply Hpres.
  - injection H as <-. by exists st1.
Qed.

(** Outside of rules nothing is pending. *)
Definition always (st : ExecState) : Prop := True.
Definition every (P : nat -> Prop) : Prop := forall h, P h.

#[export] Instance top_guards : Guards always every.
Proof. split; [done|done|]. intros P Q HP HQ h. split; [apply HP|apply HQ]. Qed.

Lemma once_run T n key st st' : tables_sound ctx U st -> key_ok U key -> eval_rule_once ctx (rule_tuples ctx n) key [] st = Some (st', Ok tt) ->
  tables_sound ctx U st' /\ (settled_at T st' -> exists V, In key V /\ forall k, In k V -> closed T V k).
Proof.
  intros Hs Hk (st0 & defs & [Hdefs ->]%lift_ok & H1)%exec_bind_ok. destruct (om_get key.1 (rules ctx)) as [defs'|] eqn:Eo; [|done]. injection Hdefs as ->.
  destruct (defs_run (settled_at T) (read_from T [key]) T (rule_tuples ctx n) [key] key defs) with st st' tt as (Hs' & _ & Hfin);
    [|intros def t _ _; by apply add_tuple_run|done|done|done|done|].
  { intros k Hk'. by apply nested_rule. }
  split; [done|]. intros Hf. destruct (Hfin Hf) as (_ & P & Had & HP). destruct (close_key T [] key P Had HP) as (V & HkV & HV).
  exists V. split; [done|]. intros k Hk'. by destruct (HV k Hk') as [[]|].
Qed.

Lemma top_rule n key : key_ok U key ->
  yields ctx U always every (rule_tuples ctx n key []) (answer ctx U key) (fun h t => stage ctx h key.1 t /\ fits_key key.2 t).
Proof.
  intros Hk st st' out Hs Hm. destruct n as [|n]; [done|]. apply exec_bind_ok in Hm as (st2 & [] & H1 & [= -> <-]).
  destruct (rounds_end (S n) (eval_rule_once ctx (rule_tuples ctx n) key []) st st') as (st1 & Hs1 & Hone & Hc); [|done|done|].
  { intros st0 st0' H0 H0'. by eapply (once_run (table st0')). }
  destruct (once_run (table st') n key st1 st' Hs1 Hk Hone) as [Hs' Hclosed]. split; [done|]. split; [by intros t; apply Hs'|].
  intros _. split; [done|]. destruct Hclosed as (V & HkV & HV); [done|]. exists (complete (table st') V). split.
  - intros h. induction h as [|h IH]; [by intros k t|]. intros k t Hk'. apply (HV k Hk' h IH). by left.
  - intros h Hcomp t [Hd Hfit]. by apply Hcomp.
Qed.

Lemma eval_query_spec n cs : (forall c, In c cs -> plain_clause ctx U c) ->
  spec ctx U always every (clauses_vars cs) (fun D => all_hold ctx D cs) (fun frames => eval_query ctx n cs frames).
Proof.
  intros Hp. unfold eval_query. refine (eval_clauses_spec ctx U always every Hap Hn Hdbs (rule_tuples ctx n) [] _ cs Hp).
  intros key Hk. by apply top_rule.
Qed.
End fixpoint.
