(* ===== verification/QueryEnds.v ===== *)
(** * Queries end

    With finitely many values there are finitely many calls of rules and finitely many
    tuples, so the nesting of calls and the rounds of a fixpoint are bounded. *)

From stdpp Require Import base list strings sorting.
From Stdlib Require Import ZArith Lia.
From S2P Require Import Prelude OrdMap Machine Ids Keyword Values Encoding Datoms Schema Bootstrap SchemaDatoms Crypt.
From S2P Require Import Db DbFacts DbReads Protect Edn QueryAst Builtins QueryExec QueryFacts QueryMeaning QueryRules QueryFixpoint.
Local Open Scope Z_scope.

(** ** Counting *)

Fixpoint tuples_over {A} (l : list A) (n : nat) : list (list A) :=
  match n with
  | O => [[]]
  | S n => flat_map (fun x => map (cons x) (tuples_over l n)) l
  end.

Lemma tuples_over_In {A} (l : list A) n t : length t = n -> (forall x, In x t -> In x l) -> In t (tuples_over l n).
Proof.
  intros <-. induction t as [|x t IH]; intros H; [by left|]. cbn [length tuples_over]. apply in_flat_map. exists x. split; [apply H; by left|].
  apply in_map, IH. intros y Hy. apply H. by right.
Qed.

Lemma filter_count_le {A} (p q : A -> bool) l : (forall x, p x = true -> q x = true) -> (length (List.filter p l) <= length (List.filter q l))%nat.
Proof.
  intros H. induction l as [|x l IH]; [done|]. cbn. destruct (p x) eqn:E; [rewrite (H x E); cbn; lia|]. destruct (q x); cbn; lia.
Qed.

Lemma filter_count_lt {A} (p q : A -> bool) l x : (forall x, p x = true -> q x = true) -> In x l -> q x = true -> p x = false ->
  (length (List.filter p l) < length (List.filter q l))%nat.
Proof.
  intros H Hin Hq Hp. induction l as [|y l IH]; [done|]. pose proof (filter_count_le p q l H) as Hle. cbn. destruct Hin as [->|Hin].
  - rewrite Hq, Hp. cbn. lia.
  - specialize (IH Hin). destruct (p y) eqn:E; [rewrite (H y E); cbn; lia|]. destruct (q y); cbn; lia.
Qed.

(** ** Computations that never run out *)

Definition defined {A} (m : exec A) : Prop := forall st, m st <> None.

Lemma defined_bind {A B} (m : exec A) (f : A -> exec B) : defined m -> (forall a, defined (f a)) -> defined (m ≫= f).
Proof. intros Hm Hf st. unfold mbind, exec_bind. specialize (Hm st). destruct (m st) as [[st1 [a|e]]|]; [apply Hf|done|done]. Qed.

Lemma defined_ret {A} (a : A) : defined (mret a).
Proof. done. Qed.
Lemma defined_lift {A} (r : result QueryError A) : defined (lift r).
Proof. done. Qed.
Lemma defined_spend n : defined (spend n).
Proof. intros st. unfold spend. by destruct (x_fuel st <? n). Qed.

Lemma defined_flat {A B} (f : A -> exec (list B)) l : (forall x, defined (f x)) -> defined (flat_exec f l).
Proof. intros H. induction l as [|x l IH]; cbn [flat_exec]; [apply defined_ret|]. apply defined_bind; [done|]. intros ys. apply defined_bind; [done|]. intros zs. apply defined_ret. Qed.

Lemma defined_count : defined count_scanned.
Proof. done. Qed.

#[export] Hint Resolve defined_count defined_ret defined_lift defined_spend defined_bind defined_flat : defined.

Section ends.
Context {R : Rpds} {HR : RpdsLaws R} `{C : Crypto} {UC : UnicodeCase} (ctx : ExecCtx) (U : Value -> Prop).

Lemma defined_pattern p frames : defined (eval_pattern ctx p frames).
Proof.
  unfold eval_pattern. destruct (ctx_db ctx (src p)) as [db|]; [|apply defined_lift]. apply defined_flat. intros f. unfold eval_pattern_frame. apply defined_bind; [auto with defined|].
  intros s. destruct (existsb _ _); [apply defined_ret|]. apply defined_flat. intros d. unfold scan_datom. auto 10 with defined.
Qed.

Lemma defined_pred name args frames : defined (eval_pred ctx name args frames).
Proof.
  unfold eval_pred. case_bool_decide.
  - unfold eval_missing. apply defined_bind; [auto with defined|]. intros [db rest]. repeat case_match; auto 12 with defined.
  - apply defined_flat. intros f. apply defined_bind; [auto with defined|]. intros vs.
    apply defined_bind; [auto with defined|]. intros res. repeat case_match; auto with defined.
Qed.

Lemma defined_fn name args b frames : defined (eval_fn ctx name args b frames).
Proof.
  unfold eval_fn. repeat case_bool_decide; [| |apply defined_flat; intros f; auto 10 with defined].
  - unfold eval_ground. apply defined_bind; [auto with defined|]. intros db. repeat case_match; auto 12 with defined.
  - unfold eval_get_else. apply defined_bind; [auto with defined|]. intros [db rest]. repeat case_match; auto 14 with defined.
Qed.

(** From sound tables. *)
Definition total {A} (m : exec A) : Prop := forall st, tables_sound ctx U st -> m st <> None.

Lemma defined_total {A} (m : exec A) : defined m -> total m.
Proof. intros H st _. apply H. Qed.

Section total.
Context (fin : ExecState -> Prop) (adm : (nat -> Prop) -> Prop) {HG : Guards fin adm}.
Notation run := (run ctx U fin adm).

Lemma total_bind {A B} (m : exec A) (f : A -> exec B) (Q : A -> Prop) W : run m Q W -> total m -> (forall a, Q a -> total (f a)) -> total (m ≫= f).
Proof.
  intros Hr Hm Hf st Hs. unfold mbind, exec_bind. specialize (Hm st Hs). destruct (m st) as [[st1 [a|e]]|] eqn:E; [|done|done].
  destruct (Hr st st1 a Hs E) as (Hs1 & Hq & _). by apply Hf.
Qed.

Lemma total_lift {A B} (r : result QueryError A) (f : A -> exec B) : (forall a, r = Ok a -> total (f a)) -> total (lift r ≫= f).
Proof. intros Hf st Hs. destruct r as [a|e]; [|done]. by apply (Hf a eq_refl). Qed.

(** The tables stay sound. *)
Definition keeps {A} (m : exec A) : Prop := forall st st' a, tables_sound ctx U st -> m st = Some (st', Ok a) -> tables_sound ctx U st'.

Lemma keeps_run {A} (m : exec A) (Q : A -> Prop) W : run m Q W -> keeps m.
Proof. intros H st st' a Hs Hm. by apply (H st st' a). Qed.
Lemma keeps_ret {A} (a : A) : keeps (mret a).
Proof. by intros st st' a' Hs [= <- _]. Qed.
Lemma keeps_lift {A} (r : result QueryError A) : keeps (lift r).
Proof. by intros st st' a' Hs [_ ->]%lift_ok. Qed.
Lemma keeps_bind {A B} (m : exec A) (f : A -> exec B) : keeps m -> (forall a, keeps (f a)) -> keeps (m ≫= f).
Proof. intros Hm Hf st st' b Hs (st1 & a & H1 & H2)%exec_bind_ok. eapply Hf; [by eapply Hm|done]. Qed.

Lemma keeps_flat {A B} (f : A -> exec (list B)) l : (forall x, In x l -> keeps (f x)) -> keeps (flat_exec f l).
Proof.
  induction l as [|x l IH]; intros H; cbn [flat_exec]; [apply keeps_ret|]. apply keeps_bind; [apply H; by left|]. intros ys.
  apply keeps_bind; [apply IH; intros y Hy; apply H; by right|]. intros zs. apply keeps_ret.
Qed.

Lemma total_seq {A B} (m : exec A) (f : A -> exec B) : keeps m -> total m -> (forall a, total (f a)) -> total (m ≫= f).
Proof.
  intros Hk Hm Hf st Hs. unfold mbind, exec_bind. specialize (Hm st Hs). destruct (m st) as [[st1 [a|e]]|] eqn:E; [|done|done].
  apply Hf. by eapply Hk.
Qed.

Lemma total_flat {A B} (f : A -> exec (list B)) l : (forall x, In x l -> keeps (f x)) -> (forall x, In x l -> total (f x)) -> total (flat_exec f l).
Proof.
  induction l as [|x l IH]; intros Hr Ht; cbn [flat_exec]; [apply defined_total, defined_ret|].
  apply total_seq; [apply Hr; by left|apply Ht; by left|]. intros ys.
  apply total_seq; [apply keeps_flat; intros y Hy; apply Hr; by right|apply IH; intros; [apply Hr|apply Ht]; by right|].
  intros zs. apply defined_total, defined_ret.
Qed.

Context (Hap : apart U) (Hn : rc_hydrator (ctx_read ctx) = None).
Context (Hdbs : forall s db, ctx_db ctx s = Some db -> db_ok db /\ forall d, In d (datoms db) -> settled U db d).
Context (rt : RuleKey -> list RuleKey -> exec (list (list Value))) (stack : list RuleKey).
Context (Hrt : forall key, key_ok U key -> yields ctx U fin adm (rt key stack) (answer ctx U key) (fun h t => stage ctx h key.1 t /\ fits_key key.2 t)).
Context (Htot : forall key, key_ok U key -> total (rt key stack)).

Definition total_on (ev : list Frame -> exec (list Frame)) : Prop := forall frames, (forall f, In f frames -> frame_ok U f) -> total (ev frames).

Lemma run_ordered_total ev cs order :
  (forall c, In c cs -> spec ctx U fin adm (clause_vars c) (fun D => holds ctx D c) (ev c)) -> (forall c, In c cs -> total_on (ev c)) ->
  total_on (run_ordered (map ev cs) order).
Proof.
  intros Hspec Hev. induction order as [|i order IH]; intros frames Hfr; cbn [run_ordered]; [apply defined_total, defined_ret|].
  rewrite list_lookup_fmap. destruct (cs !! i) as [c|] eqn:Hc; cbn [fmap option_fmap option_map]; [|apply defined_total, defined_ret].
  assert (Hin : In c cs) by (eapply list_elem_of_In, list_elem_of_lookup_2, Hc).
  eapply total_bind; [by apply (Hspec c Hin frames)|by apply Hev|]. intros frames1 Hq.
  assert (Hok1 : forall f, In f (os_of_list frames1) -> frame_ok U f) by (intros f Hf; rewrite os_of_list_In in Hf; exact (proj1 (Hq f Hf))).
  destruct (os_of_list frames1) as [|f1 fs]; [apply defined_total, defined_ret|]. by apply IH.
Qed.

Lemma eval_clause_total c : plain_clause ctx U c -> total_on (eval_clause ctx rt c stack).
Proof.
  induction c as [p|name args|name args b|s vars cs IH|s vars bs IH|name args] using clause_ind; intros Hp frames Hfr;
    [apply defined_total, defined_pattern|apply defined_total, defined_pred|apply defined_total, defined_fn|done| |].
  - destruct Hp as [_ Hp2]. rewrite foldr_and in Hp2. setoid_rewrite foldr_and in Hp2. rewrite List.Forall_forall in IH.
    set (seed f := match vars with Some vars => restrict f vars | None => f end).
    change (total (flat_exec (fun f => flat_exec (fun b => results ← planned ctx (fun c => eval_clause ctx rt c stack) b [seed f];
      mret (flat_map (fun res => option_list (merge_vars f res (match vars with Some vars => vars | None => map fst res end))) results)) bs) frames)).
    assert (Hseed : forall f, In f frames -> forall g, In g [seed f] -> frame_ok U g).
    { intros f Hf g [<-|[]]. unfold seed. destruct vars; [by apply restrict_ok, Hfr|by apply Hfr]. }
    assert (Hspec : forall b c, In b bs -> In c b -> spec ctx U fin adm (clause_vars c) (fun D => holds ctx D c) (eval_clause ctx rt c stack)).
    { intros b c Hb Hc. apply eval_clause_spec; try done. by apply (Hp2 b). }
    assert (Hk : forall f b, In f frames -> In b bs -> keeps (planned ctx (fun c => eval_clause ctx rt c stack) b [seed f])).
    { intros f b Hf Hb. eapply keeps_run, planned_spec; [done|intros c Hc; by apply (Hspec b)|by apply Hseed]. }
    assert (Ht : forall f b, In f frames -> In b bs -> total (planned ctx (fun c => eval_clause ctx rt c stack) b [seed f])).
    { intros f b Hf Hb. apply run_ordered_total; [intros c Hc; by apply (Hspec b)| |by apply Hseed].
      intros c Hc. specialize (IH b Hb). rewrite List.Forall_forall in IH. apply IH; [done|by apply (Hp2 b)]. }
    apply total_flat; intros f Hf; [apply keeps_flat; intros b Hb; apply keeps_bind; [by apply Hk|intros; apply keeps_ret]|].
    apply total_flat; intros b Hb; [apply keeps_bind; [by apply Hk|intros; apply keeps_ret]|].
    apply total_seq; [by apply Hk|by apply Ht|]. intros out. apply defined_total, defined_ret.
  - change (total (flat_exec (fun frame => key_args ← lift (try_map (rule_arg ctx frame) args); tuples ← rt (name, key_args) stack;
      mret (flat_map (fun tuple => option_list (bind_args frame (combine args tuple))) tuples)) frames)).
    assert (Hk : forall f key_args, In f frames -> try_map (rule_arg ctx f) args = Ok key_args -> key_ok U (name, key_args)).
    { intros f key_args Hf Hka x. eapply rule_args_ok; [by apply Hfr|done|done]. }
    apply total_flat; intros f Hf.
    + intros st st' out Hs (st1 & ka & [Hka ->]%lift_ok & (st2 & ts & H2 & [= <- _])%exec_bind_ok)%exec_bind_ok. by eapply keeps_run in H2; [|apply Hrt; eauto|].
    + apply total_lift. intros ka Hka. apply total_seq; [eapply keeps_run, Hrt; eauto|apply Htot; eauto|]. intros ts. apply defined_total, defined_ret.
Qed.

Lemma eval_clauses_total cs : (forall c, In c cs -> plain_clause ctx U c) -> total_on (fun frames => eval_clauses ctx rt cs frames stack).
Proof.
  intros Hp frames Hfr. unfold eval_clauses. apply run_ordered_total; [|intros c Hc; by apply eval_clause_total, Hp|done].
  intros c Hc. apply eval_clause_spec; try done. by apply Hp.
Qed.
End total.

(** ** The calls and the tuples over finitely many values *)

Context (L : list Value) (HL : forall x, U x -> In x L).

Definition keys_over : list RuleKey :=
  flat_map (fun p => flat_map (fun def => map (pair p.1) (tuples_over (None :: map Some L) (length (head_vars def)))) p.2) (rules ctx).

Definition facts_over : list (RuleKey * list Value) := flat_map (fun key => map (pair key) (tuples_over L (length key.2))) keys_over.

Lemma keys_over_In (key : RuleKey) defs def : om_get key.1 (rules ctx) = Some defs -> In def defs -> length (head_vars def) = length key.2 -> key_ok U key ->
  In key keys_over.
Proof.
  intros Hd Hdef Hl Hk. destruct key as [name args]. apply in_flat_map. exists (name, defs). split; [by apply om_get_In|]. apply in_flat_map. exists def. split; [done|].
  apply in_map, tuples_over_In; [done|]. intros [x|] Hx; [right; apply in_map, HL; by apply Hk|by left].
Qed.

Lemma facts_over_In key t : In key keys_over -> answer ctx U key t -> In (key, t) facts_over.
Proof.
  intros Hk (_ & Hfit & Hu). apply in_flat_map. exists key. split; [done|]. apply in_map, tuples_over_In; [symmetry; by eapply Forall2_length|].
  intros x Hx. apply HL. rewrite List.Forall_forall in Hu. by apply Hu.
Qed.

(** The tuples that the tables lack, and the calls that are not under way. *)
Definition missing (st : ExecState) : nat := length (List.filter (fun p => negb (os_mem p.2 (table st p.1))) facts_over).
Definition outside (stack : list RuleKey) : nat := length (List.filter (fun key => negb (in_stack key stack)) keys_over).

Lemma outside_push stack key : In key keys_over -> in_stack key stack = false -> (outside (stack ++ [key]) < outside stack)%nat.
Proof.
  intros Hk Hs. apply (filter_count_lt _ _ _ key); [|done|by rewrite Hs|].
  - intros k. unfold in_stack. rewrite existsb_app, negb_orb. by intros [? _]%andb_true_iff.
  - apply negb_false_iff, in_stack_In, in_app_iff. right. by left.
Qed.

Lemma missing_same st st' : same st st' -> missing st' = missing st.
Proof. intros Hs. unfold missing. f_equal. apply filter_ext. intros p. by rewrite (same_table _ _ _ Hs). Qed.

(** A round that began with [m] tuples missing and changed something ends with fewer. *)
Definition changing (m : nat) (st : ExecState) : Prop := (m < missing st)%nat \/ x_changed st = true /\ (m <= missing st)%nat.

#[local] Instance changing_guards m : Guards (changing m) (fun _ => True).
Proof. split; [|done|done]. intros st st' Hs. unfold changing. by rewrite (missing_same _ _ Hs), (proj2 Hs). Qed.

Lemma add_tuple_changing m key t W : In key keys_over -> answer ctx U key t -> run ctx U (changing m) (fun _ => True) (add_tuple key t) (fun _ => True) W.
Proof.
  intros Hk Ha st st' u Hs [Htab Hch]%add_tuple_tables. split; [intros k x [Hx|[-> ->]]%Htab; [by apply Hs|done]|]. split; [done|].
  intros Hfin. split; [|exists (fun _ => False); by split]. revert Hfin.
  assert (Hmem : forall k x, negb (os_mem x (table st' k)) = true -> negb (os_mem x (table st k)) = true).
  { intros k x. rewrite !negb_true_iff, <- !not_true_iff_false, !os_mem_In, Htab. tauto. }
  pose proof (filter_count_le _ (fun p => negb (os_mem p.2 (table st p.1))) facts_over (fun p => Hmem p.1 p.2)) as Hle. unfold changing. rewrite Hch.
  destruct (os_mem t (table st key)) eqn:E; cbn [negb]; [rewrite orb_false_r; unfold missing; naive_solver lia|].
  assert (missing st' < missing st)%nat; [|lia]. apply (filter_count_lt _ _ _ (key, t)); [intros p; apply Hmem|by apply facts_over_In|cbn; by rewrite E|].
  cbn. apply negb_false_iff, os_mem_In, Htab. by right.
Qed.

Context (Hap : apart U) (Hn : rc_hydrator (ctx_read ctx) = None).
Context (Hdbs : forall s db, ctx_db ctx s = Some db -> db_ok db /\ forall d, In d (datoms db) -> settled U db d).
Context (Hrules : plain_rules ctx U).

(** ** Calls *)

(** Evaluation of the body of a call, whatever is made of the tables. *)
Section free.
Context (fin : ExecState -> Prop) {HG : Guards fin (fun _ => True)}.
Context (Hadd : forall key t W, In key keys_over -> answer ctx U key t -> run ctx U fin (fun _ => True) (add_tuple key t) (fun _ => True) W).

Lemma free_defs rt stack key defs :
  (forall k, key_ok U k -> yields ctx U fin (fun _ => True) (rt k stack) (answer ctx U k) (fun h t => stage ctx h k.1 t /\ fits_key k.2 t)) ->
  key_ok U key -> om_get key.1 (rules ctx) = Some defs -> forall def, In def defs ->
  run ctx U fin (fun _ => True) (eval_def ctx rt key stack def) (fun _ => True) (fun _ _ => True).
Proof.
  intros Hrt Hk Hdefs def Hdef. eapply run_weaken; [eapply (eval_def_run ctx U Hap Hn Hdbs Hrules fin (fun _ => True) (fun _ => []) rt stack key defs def)|done|done]; try done.
  intros def' t Hdef' Hl Ha. apply Hadd; [by eapply keys_over_In|done].
Qed.

Lemma free_once rt stack key u : key_ok U key ->
  (forall k, key_ok U k -> yields ctx U fin (fun _ => True) (rt k (stack ++ [key])) (answer ctx U k) (fun h t => stage ctx h k.1 t /\ fits_key k.2 t)) ->
  forall st st', tables_sound ctx U st -> eval_rule_once ctx rt key stack st = Some (st', Ok u) -> tables_sound ctx U st' /\ (fin st' -> fin st).
Proof.
  intros Hk Hrt st st' Hs. unfold eval_rule_once. destruct (in_stack key stack); [by intros [= <- _]|].
  intros (st0 & defs & [Hdefs ->]%lift_ok & H1)%exec_bind_ok. destruct (om_get key.1 (rules ctx)) as [defs'|] eqn:Eo; [|done]. injection Hdefs as ->.
  destruct (each_run ctx U fin (fun _ => True) (eval_def ctx rt key (stack ++ [key])) defs (fun _ _ => True)) with st st' u as (Hs' & _ & Hfin); [|done|done|].
  { intros def Hdef. eapply run_weaken; [by eapply free_defs|done|done]. }
  split; [done|]. intros Hf. by apply Hfin.
Qed.

Lemma free_rule n key stack : stack <> [] -> key_ok U key ->
  yields ctx U fin (fun _ => True) (rule_tuples ctx n key stack) (answer ctx U key) (fun h t => stage ctx h key.1 t /\ fits_key key.2 t).
Proof.
  revert key stack. induction n as [|n IH]; intros key stack Hst Hk; [done|]. intros st st' out Hs Hm.
  assert (Hm' : exists st1, eval_rule_once ctx (rule_tuples ctx n) key stack st = Some (st1, Ok tt) /\ read_table key st1 = Some (st', Ok out)).
  { cbn [rule_tuples] in Hm. destruct stack as [|k0 stack]; [done|]. apply exec_bind_ok in Hm as (st1 & [] & H1 & H2). eauto. }
  destruct Hm' as (st1 & H1 & [= -> <-]).
  destruct (free_once (rule_tuples ctx n) stack key tt Hk) with st st' as [Hs' Hfin]; [|done|done|].
  { intros k Hk'. apply IH; [by destruct stack|done]. }
  split; [done|]. split; [by intros t; apply Hs'|]. intros Hf. split; [by apply Hfin|]. exists (fun _ => False). by split.
Qed.
End free.

#[local] Instance no_guards : Guards (fun _ => False) (fun _ => True).
Proof. by split. Qed.

Lemma add_tuple_free key t W : In key keys_over -> answer ctx U key t -> run ctx U (fun _ => False) (fun _ => True) (add_tuple key t) (fun _ => True) W.
Proof. intros Hk Ha st st' u Hs Hm. by destruct (add_tuple_changing 0 key t W Hk Ha st st' u Hs Hm) as (Hs' & _ & _). Qed.

Lemma total_read {A B} (m : exec A) (f : A -> exec B) : total m -> (forall a, defined (f a)) -> total (m ≫= f).
Proof. intros Hm Hf st Hs. unfold mbind, exec_bind. specialize (Hm st Hs). destruct (m st) as [[st1 [a|e]]|]; [apply Hf|done|done]. Qed.

Lemma each_total l : (forall m, In m l -> keeps m) -> (forall m, In m l -> total m) -> total (each l).
Proof.
  induction l as [|m l IH]; intros Hk Ht; cbn [each]; [apply defined_total, defined_ret|].
  apply total_seq; [apply Hk; by left|apply Ht; by left|]. intros u. apply IH; intros; [apply Hk|apply Ht]; by right.
Qed.

(** The calls of a body that can be evaluated, and that are not under way, are fewer. *)
Lemma once_total n key stack : key_ok U key -> (outside stack < S n)%nat ->
  (forall k stack', stack' <> [] -> key_ok U k -> (outside stack' < n)%nat -> total (rule_tuples ctx n k stack')) ->
  total (eval_rule_once ctx (rule_tuples ctx n) key stack).
Proof.
  intros Hk Hout IH. unfold eval_rule_once. destruct (in_stack key stack) eqn:Es; [apply defined_total, defined_ret|].
  apply total_lift. intros defs Hdefs. destruct (om_get key.1 (rules ctx)) as [defs'|] eqn:Eo; [|done]. injection Hdefs as ->.
  assert (Hne : stack ++ [key] <> []) by (by destruct stack).
  assert (Hrt : forall k, key_ok U k -> yields ctx U (fun _ => False) (fun _ => True) (rule_tuples ctx n k (stack ++ [key])) (answer ctx U k) (fun h t => stage ctx h k.1 t /\ fits_key k.2 t)).
  { intros k Hk'. apply free_rule; [apply no_guards|intros k' t' W'; apply add_tuple_free|done|done]. }
  apply each_total; intros m (def & <- & Hdef)%in_map_iff.
  { eapply keeps_run, free_defs; [apply no_guards|intros k' t' W'; apply add_tuple_free|done..]. }
  destruct (Hrules _ _ _ Eo Hdef) as [Hnd Hplain]. unfold eval_def. destruct (Nat.eqb_spec (length (head_vars def)) (length key.2)) as [Hl|_]; cbn [negb]; [|apply defined_total, defined_lift].
  destruct (negb (forallb _ _)); [apply defined_total, defined_lift|]. apply total_read.
  - apply (eval_clauses_total (fun _ => False) (fun _ => True) Hap Hn Hdbs (rule_tuples ctx n) (stack ++ [key]) Hrt); [|done|intros f [<-|[]]; by apply seed_ok].
    intros k Hk'. apply IH; [done|done|]. pose proof (outside_push stack key (keys_over_In key defs def Eo Hdef Hl Hk) Es). lia.
  - intros frames. induction frames as [|f frames IHf]; cbn [map each]; [apply defined_ret|]. apply defined_bind; [|intros u; apply IHf].
    apply defined_bind; [apply defined_lift|]. by intros t st.
Qed.

Lemma nested_total n key stack : stack <> [] -> key_ok U key -> (outside stack < n)%nat -> total (rule_tuples ctx n key stack).
Proof.
  revert key stack. induction n as [|n IH]; intros key stack Hst Hk Hout; [lia|]. cbn [rule_tuples]. destruct stack as [|k0 stack]; [done|].
  apply total_read; [|by intros u st]. apply once_total; [done|done|]. intros k stack' H1 H2 H3. by apply IH.
Qed.

Lemma rounds_total n once st : total once -> (forall m st st', tables_sound ctx U st -> once st = Some (st', Ok tt) -> tables_sound ctx U st' /\ (changing m st' -> changing m st)) ->
  tables_sound ctx U st -> (missing st < n)%nat -> rounds n once st <> None.
Proof.
  intros Ht Hch. revert st. induction n as [|n IH]; intros st Hs Hm; [lia|]. cbn [rounds].
  set (st1 := mk_exec (x_fuel st) (x_scanned st) (x_partial st) false). assert (Hs1 : tables_sound ctx U st1) by exact Hs.
  unfold mbind, exec_bind, start_round. fold st1. specialize (Ht st1 Hs1). destruct (once st1) as [[st2 [[]|e]]|] eqn:E; [|done|done].
  unfold round_changed. destruct (Hch (missing st) st1 st2 Hs1 E) as [Hs2 Hback]. destruct (x_changed st2) eqn:Ec; [|done].
  assert (missing st2 < missing st)%nat.
  { destruct (decide (missing st2 < missing st)%nat) as [|Hge]; [done|]. destruct Hback as [Hlt|[Hf _]]; [right; split; [done|lia]| |done].
    exfalso. change (missing st1) with (missing st) in Hlt. lia. }
  unfold spend. destruct (x_fuel st2 <? 1); [done|]. apply IH; [exact Hs2|]. change (missing st2 < n)%nat. lia.
Qed.

Lemma top_total n key : key_ok U key -> (length keys_over < n)%nat -> (length facts_over < n)%nat -> total (rule_tuples ctx n key []).
Proof.
  intros Hk Hn1 Hn2. destruct n as [|n]; [lia|]. cbn [rule_tuples]. apply total_read; [|by intros u st]. intros st Hs.
  assert (outside [] < S n)%nat by (unfold outside; pose proof (List.filter_length_le (fun key => negb (in_stack key [])) keys_over); lia).
  apply rounds_total; [|intros m st0 st0' Hs0 H0|done|].
  - apply once_total; [done|done|]. intros k stack' H1 H2 H3. by apply nested_total.
  - eapply (free_once (changing m)) in H0; [done|intros k t W; apply add_tuple_changing|done| |done].
    intros k Hk'. apply free_rule; [apply changing_guards|intros k0 t W; apply add_tuple_changing|done|done].
  - unfold missing. pose proof (List.filter_length_le (fun p : RuleKey * list Value => negb (os_mem p.2 (table st p.1))) facts_over). lia.
Qed.

Lemma eval_query_total n cs frames : (length keys_over < n)%nat -> (length facts_over < n)%nat -> (forall c, In c cs -> plain_clause ctx U c) ->
  (forall f, In f frames -> frame_ok U f) -> total (eval_query ctx n cs frames).
Proof.
  intros Hn1 Hn2 Hp Hfr. refine (eval_clauses_total always every Hap Hn Hdbs (rule_tuples ctx n) [] _ _ cs Hp frames Hfr).
  - intros key Hk. by apply top_rule.
  - intros key Hk. by apply top_total.
Qed.
End ends.
