(* ===== verification/QueryTheorems.v ===== *)
(** * Queries give the answers that their clauses mean

    Evaluation against the meaning of [QueryMeaning], its end, and what it does where the
    meaning does not reach: negation inside rules, negation before the clauses that bind
    its variables, rules that repeat a variable of their head, protected values. *)

From stdpp Require Import base list strings sorting.
From Stdlib Require Import ZArith Lia.
From S2P Require Import Prelude OrdMap Machine Ids Keyword Values Encoding Datoms Schema Bootstrap SchemaDatoms Crypt.
From S2P Require Import Db DbFacts DbReads Protect Edn QueryAst Builtins QueryExec QueryFacts QueryMeaning QueryRules QueryFixpoint QueryEnds ProtectTheorems.
Local Open Scope Z_scope.

Section queries.
Context {R : Rpds} {HR : RpdsLaws R} `{C : Crypto} {UC : UnicodeCase}.

(** A query over databases whose values are in [U], where no integer stands for a reference,
    an instant or a double as well, for a reader without class keys, with rules whose clauses
    are plain and whose heads repeat no variable. *)
Record plain_context (ctx : ExecCtx) (U : Value -> Prop) : Prop := {
  pc_apart : apart U;
  pc_keys : rc_hydrator (ctx_read ctx) = None;
  pc_dbs : forall s db, ctx_db ctx s = Some db -> db_ok db /\ forall d, In d (datoms db) -> settled U db d;
  pc_rules : plain_rules ctx U }.

Lemma new_tables_sound ctx U fuel : tables_sound ctx U (exec_new fuel).
Proof. by intros key t. Qed.

(** C3. A query without negation that comes to an end without an error gives exactly its
    answers: the assignments that extend the given one to the variables of the clauses, and
    under which every clause, patterns, predicates, [missing?], functions, disjunctions and
    rule calls, holds in every model of the rules. The plan, the index chosen for each
    pattern, the order of the rules and the rounds of the fixpoint change nothing. This is
    for a reader without class keys, over values, those of datoms, constants and function
    results, among which no integer matches a reference, an instant or a double, stored
    under attributes whose types leave them as they are. Rule heads repeat no variable, a
    constant value has a constant attribute, the branches of a disjunction bind the same
    variables, a join lists variables of each branch, and the default of [get-else] is no
    variable. Where a query has negation, keys or a repeated head variable the evaluator can
    depart from the meaning, as the exhibits below show. *)
Theorem query_exact ctx U fuel n cs f st out : plain_context ctx U -> (forall c, In c cs -> plain_clause ctx U c) -> frame_ok U f ->
  eval_query ctx n cs [f] (exec_new fuel) = Some (st, Ok out) ->
  forall g, In g out <-> ext f g (clauses_vars cs) /\ forall D, model ctx D -> all_hold ctx D cs g.
Proof.
  intros [Hap Hn Hdbs Hrules] Hcs Hf Hm g. assert (Hfr : forall f', In f' [f] -> frame_ok U f') by (by intros f' [<-|[]]).
  destruct (eval_query_spec ctx U Hap Hn Hdbs Hrules n cs Hcs [f] Hfr _ _ _ (new_tables_sound ctx U fuel) Hm) as (_ & Hsound & Hfin).
  destruct (Hfin I) as (_ & P & HP & Hcomplete). rewrite <- all_hold_models. split.
  - intros Hg. by destruct (Hsound g Hg) as (_ & f' & [<-|[]] & Ha).
  - intros [He Hall]. destruct (all_hold_finite _ _ _ Hall) as [h Hh]. apply (Hcomplete h (HP h)). exists f. split; [by left|done].
Qed.

(** C31. A query without negation over finitely many values, under the conditions of the
    theorem above, ends: from some depth of rule calls and number of rounds on, evaluation
    never stops for want of them. *)
Theorem query_ends ctx U L cs : plain_context ctx U -> (forall x, U x -> In x L) -> (forall c, In c cs -> plain_clause ctx U c) ->
  exists N, forall n f fuel, (N <= n)%nat -> frame_ok U f -> is_Some (eval_query ctx n cs [f] (exec_new fuel)).
Proof.
  intros [Hap Hn Hdbs Hrules] HL Hcs. exists (S (length (keys_over ctx L) + length (facts_over ctx L))). intros n f fuel Hle Hf. apply not_eq_None_Some.
  apply (eval_query_total ctx U L HL Hap Hn Hdbs Hrules n cs [f]); [lia|lia|done|by intros f' [<-|[]]|apply new_tables_sound].
Qed.
End queries.

(** ** A graph *)

Lemma no_long_apart (U : Value -> Prop) : (forall n, ~ U (Value.Long n)) -> apart U.
Proof.
  intros H x y t Hx Hy Hm. unfold value_match in Hm.
  destruct x; try (by destruct (H _ Hx)); destruct y; try (by destruct (H _ Hy)); cbn [coerce_for_type] in Hm;
    rewrite orb_false_r in Hm; by apply bool_decide_eq_true in Hm.
Qed.

#[local] Existing Instance list_rpds.
#[local] Existing Instance list_rpds_laws.
#[local] Existing Instance toy_crypto.
#[local] Instance same_case : UnicodeCase := {| to_uppercase s := s; to_lowercase s := s |}.

Definition graph_schema : Schema :=
  schema_insert (schema_insert schema_default (mk_attribute 100 ValueType.Ref Cardinality.Many None false false false))
    (mk_attribute 101 ValueType.Bool Cardinality.One None false false false).
Definition graph_idents : Idents := idents_insert (idents_insert idents_default (keyword_new None "edge") 100) (keyword_new None "node") 101.
Definition edge (a b : Z) : Datom := mk_datom a 100 (Value.Ref b) (entity_new (partition_id Partition.Tx) 1) true.
Definition node (a : Z) : Datom := mk_datom a 101 (Value.Bool true) (entity_new (partition_id Partition.Tx) 1) true.
Definition graph_new : Db := with_naming (db_new graph_schema) graph_idents interner_default.
Definition graph_datoms : list Datom := [edge 1001 1002; edge 1002 1003; node 1001; node 1002; node 1003].
Definition graph_db : Db := with_transaction_at graph_new 1 1000 graph_datoms.

Definition attr_term (name : string) : Term := Term.Const (Edn.Keyword (keyword_new None name)).
Definition eid_term (n : Z) : Term := Term.Const (Edn.Tagged "eid" (Edn.Long n)).
Definition eav (e a v : Term) : Clause := Clause.Pattern (mk_pattern "$" e a v Term.Blank Term.Blank).
Definition path_call (a b : Term) : Clause := Clause.RuleCall "path" [a; b].

(** The paths of a graph, with the rule that joins two paths first. *)
Definition path_rules : list RuleDef :=
  [mk_rule "path" [] ["?x"; "?y"] [path_call (Term.Var "?x") (Term.Var "?z"); path_call (Term.Var "?z") (Term.Var "?y")];
   mk_rule "path" [] ["?x"; "?y"] [eav (Term.Var "?x") (attr_term "edge") (Term.Var "?y")]].

Definition graph_ctx : ExecCtx := ctx_new [("$", graph_db)] path_rules None read_open.

(** The paths from a node to one without edges, and what the start has for [:node]. *)
Definition else_clause : Clause :=
  Clause.Fn "get-else" [Term.Const (Edn.Symbol "$"); Term.Var "?x"; attr_term "node"; Term.Const (Edn.Bool true)] (Binding.Scalar "?n").
Definition graph_query : list Clause :=
  [eav (Term.Var "?x") (attr_term "node") (Term.Const (Edn.Bool true)); path_call (Term.Var "?x") (Term.Var "?y");
   Clause.Pred "missing?" [Term.Const (Edn.Symbol "$"); Term.Var "?y"; attr_term "edge"]; else_clause].

Definition graph_values : list Value :=
  flat_map (fun d => [Value.Ref (d_e d); Value.Ref (d_a d); d_v d; Value.Ref (d_tx d); Value.Bool (d_added d)]) (datoms graph_db).

Lemma graph_db_ok : db_ok graph_db.
Proof.
  apply (db_step_ok graph_new); [done| |].
  - assert (recorded_datoms graph_new = []) as E by (by vm_compute). split; rewrite ?E; try constructor; done.
  - apply step_transaction; [done|by vm_compute|by vm_compute|]. split.
    + unfold graph_datoms, edge, node. repeat constructor; by vm_compute.
    + unfold graph_datoms, edge, node. repeat constructor; by vm_compute.
    + intros d Hd. by repeat (destruct Hd as [<-|Hd]; [vm_compute|]).
Qed.

Lemma graph_context : plain_context graph_ctx (fun x => In x graph_values).
Proof.
  split.
  - apply no_long_apart. intros n Hn. vm_compute in Hn. by repeat destruct Hn as [Hn|Hn].
  - done.
  - intros s db H. cbn in H. destruct (cmp s "$"); [|done|done]. injection H as <-. split; [apply graph_db_ok|].
    intros d Hd. assert (Hin : forall x, In x [Value.Ref (d_e d); Value.Ref (d_a d); d_v d; Value.Ref (d_tx d); Value.Bool (d_added d)] -> In x graph_values).
    { intros x Hx. apply in_flat_map. exists d. split; [exact Hd|exact Hx]. }
    split_and!; [apply Hin; cbn; tauto..|]. clear Hin. vm_compute in Hd. by repeat (destruct Hd as [<-|Hd]; [vm_compute|]).
  - intros name defs def H Hdef. change (om_get name [("path", path_rules)] = Some defs) in H. cbn [om_get] in H. destruct (cmp name "path"); [|done|done]. injection H as <-.
    assert (Hhead : NoDup ["?x"; "?y"]) by (apply (bool_decide_unpack _); vm_compute; exact I).
    destruct Hdef as [<-|[<-|[]]]; (split; [exact Hhead|]).
    + intros c [<-|[<-|[]]]; intros form x [[=]|[[=]|[]]].
    + intros c [<-|[]]. exact I.
Qed.

Lemma values_recorded db e a x : db_ok db -> In x (values db e a) -> exists d, In d (datoms db) /\ d_v d = x.
Proof.
  intros Hdb (d & <- & Hd)%in_map_iff. exists d. split; [|done]. rewrite datoms_prefix_filter in Hd by done. by apply filter_In in Hd as [? _].
Qed.

(** The value of an attribute is among the values, and so is the default. *)
Lemma else_values g res :
  fn_result graph_ctx "get-else" [Term.Const (Edn.Symbol "$"); Term.Var "?x"; attr_term "node"; Term.Const (Edn.Bool true)] (Binding.Scalar "?n") g = Ok res ->
  result_in (fun x => In x graph_values) res.
Proof.
  change (fn_result graph_ctx "get-else" _ _ g) with (entity ← entity_arg graph_ctx graph_db g (Term.Var "?x");
    value ← match visible_values graph_ctx graph_db entity 101 with v :: _ => Ok v | [] => Ok (Value.Bool true) end; Ok (CallResult.Scalar value)).
  intros (entity & _ & (value & Hv & [= <-])%bind_ok)%bind_ok. cbn [result_in].
  destruct (visible_values graph_ctx graph_db entity 101) as [|x xs] eqn:E; injection Hv as <-; [vm_compute; tauto|].
  destruct entity as [e|]; [|done]. change (visible_values graph_ctx graph_db (Some e) 101) with (values graph_db e 101) in E.
  destruct (values_recorded graph_db e 101 x graph_db_ok) as (d & Hd & <-); [rewrite E; by left|]. apply in_flat_map. exists d. split; [exact Hd|cbn; tauto].
Qed.

Lemma graph_query_plain c : In c graph_query -> plain_clause graph_ctx (fun x => In x graph_values) c.
Proof.
  intros [<-|[<-|[<-|[<-|[]]]]].
  - split; [by eexists|]. intros db a v H. cbn in H. injection H as <-. intros Ha Hv. cbn in Ha. injection Ha as <-. vm_compute in Hv. injection Hv as <-. vm_compute. tauto.
  - intros form x [[=]|[[=]|[]]].
  - exact I.
  - split; [intros _ v; discriminate|]. intros g res _. apply else_values.
Qed.

Lemma empty_frame_ok U : frame_ok U [].
Proof. split; [apply om_wf_nil|done]. Qed.

(** The answers, with the values of [?n], [?x] and [?y]. *)
Lemma graph_answers : exists st out, eval_query graph_ctx 8 graph_query [[]] (exec_new None) = Some (st, Ok out) /\
  map (map snd) out = [[Value.Bool true; Value.Ref 1001; Value.Ref 1003]; [Value.Bool true; Value.Ref 1002; Value.Ref 1003]].
Proof.
  destruct (eval_query graph_ctx 8 graph_query [[]] (exec_new None)) as [[st [out|e]]|] eqn:E; revert E; vm_compute; [|done|done].
  intros [= <- <-]. by eauto.
Qed.

Lemma query_exact_witness : exists st out, eval_query graph_ctx 8 graph_query [[]] (exec_new None) = Some (st, Ok out) /\ length out = 2%nat /\
  forall g, In g out <-> ext [] g (clauses_vars graph_query) /\ forall D, model graph_ctx D -> all_hold graph_ctx D graph_query g.
Proof.
  destruct graph_answers as (st & out & H & Hout). exists st, out. split; [exact H|]. split.
  - rewrite <- (length_map (map snd)), Hout. reflexivity.
  - exact (query_exact graph_ctx _ None 8 graph_query [] st out graph_context graph_query_plain (empty_frame_ok _) H).
Defined.

Lemma query_ends_witness : exists N, forall n f fuel, (N <= n)%nat -> frame_ok (fun x => In x graph_values) f ->
  is_Some (eval_query graph_ctx n graph_query [f] (exec_new fuel)).
Proof. exact (query_ends graph_ctx _ graph_values graph_query graph_context (fun x H => H) graph_query_plain). Defined.

(** ** Where the meaning does not reach *)

Definition outcome (ctx : ExecCtx) (cs : list Clause) : option (result QueryError (list Frame)) := snd <$> eval_query ctx 20 cs [[]] (exec_new None).

(** Pairs of nodes without a path from one to the other. *)
Definition unreached : RuleDef := mk_rule "unreached" [] ["?x"; "?y"]
  [eav (Term.Var "?x") (attr_term "node") Term.Blank; eav (Term.Var "?y") (attr_term "node") Term.Blank;
   Clause.Not "$" None [path_call (Term.Var "?x") (Term.Var "?w"); Clause.Pred "=" [Term.Var "?w"; Term.Var "?y"]]].
Definition unreached_ctx : ExecCtx := ctx_new [("$", graph_db)] (path_rules ++ [unreached]) None read_open.

(** A negation in a rule reads tables that are not complete yet, and what it lets through
    stays: 1003 is reached from 1001, and yet not. *)
Lemma negation_in_rule_unsound :
  outcome unreached_ctx [path_call (eid_term 1001) (eid_term 1003)] = Some (Ok [[]]) /\
  outcome unreached_ctx [Clause.RuleCall "unreached" [eid_term 1001; eid_term 1003]] = Some (Ok [[]]).
Proof. by vm_compute. Qed.

(** A negation and a disjunction run in the order in which they are written, also when the
    disjunction is what binds the variables of the negation. *)
Lemma negation_before_disjunction :
  let absent := Clause.Not "$" None [eav (Term.Var "?x") (attr_term "edge") (Term.Var "?y")] in
  let node_x := eav (Term.Var "?x") (attr_term "node") Term.Blank in
  let same_y := Clause.Or "$" None [[Clause.Fn "identity" [Term.Var "?x"] (Binding.Scalar "?y")]] in
  let both n := [("?x", Value.Ref n); ("?y", Value.Ref n)] in
  outcome graph_ctx [node_x; same_y; absent] = Some (Ok [both 1001; both 1002; both 1003]) /\
  outcome graph_ctx [node_x; absent; same_y] = Some (Ok [both 1003]).
Proof. by vm_compute. Qed.

(** A rule whose head repeats a variable does not compare the two arguments when both are
    constants. *)
Definition same_rule : RuleDef := mk_rule "same" [] ["?x"; "?x"] [eav (Term.Var "?x") (attr_term "node") Term.Blank].
Definition same_ctx : ExecCtx := ctx_new [("$", graph_db)] [same_rule] None read_open.

Lemma repeated_head_variable :
  outcome same_ctx [Clause.RuleCall "same" [eid_term 1001; eid_term 1002]] = Some (Ok [[]]).
Proof. by vm_compute. Qed.

(** Division of the least integer by -1 is not an error of the query. *)
Lemma least_integer_quotient : call "quot" [Value.Long (- 2 ^ 63); Value.Long (-1)] = Err QueryError.Panic.
Proof. by vm_compute. Qed.

(** A holder of the keys who asks for a value of a protected attribute finds the entity, but
    not when the entity is given: the value is then part of the prefix of the scan, where the
    index has the sealed one. *)
Definition pii_db : Db :=
  with_transaction_at (with_naming (db_new pii_schema) (idents_insert idents_default (keyword_new None "ssn") ssn) interner_default) 1 1000
    [mk_datom 1001 ssn (sealed_ssn "123") (entity_new (partition_id Partition.Tx) 1) true].
Definition pii_ctx : ExecCtx := ctx_new [("$", pii_db)] [] None (with_hydrator read_open (hydrator_new pii_keys)).

Lemma protected_value_of_given_entity :
  let ssn_123 e := eav e (attr_term "ssn") (Term.Const (Edn.Str "123")) in
  outcome pii_ctx [ssn_123 (Term.Var "?e")] = Some (Ok [[("?e", Value.Ref 1001)]]) /\
  outcome pii_ctx [ssn_123 (eid_term 1001)] = Some (Ok []).
Proof. by vm_compute. Qed.
